(* ===== verification/_CoqProject ===== *)
-Q . S2P
Prelude.v
GoLib.v
StringUtil.v
BestFit.v
UrlTransform.v
TextTransform.v
CommentTransform.v
EscapeTransform.v
Base64.v
PathTransform.v
Transformations.v
Variables.v
Types.v
Collections.v
Matchers.v
TransactionCaches.v
Prefilter.v
RxBinary.v
BodyBuffer.v
TransactionState.v
MatchLog.v
Rx.v
BodyProcessors.v
JsonProcessor.v
MultipartProcessor.v
Macro.v
Rule.v
TransformCache.v
Actions.v
RuleGroup.v
Engine.v
Phases.v
Lifecycle.v
Waf.v
DetectionOnly.v
AuditLog.v
Interceptor.v
Middleware.v
Memoize.v
MemoizeCalls.v
RuleParser.v
RuleSyntax.v
RuleAssembly.v
Directives.v
Configuration.v
Parser.v
Operators.v
IPMatch.v
PatternMatch.v
Coraza.v
