(* ===== verification/Prelude.v ===== *)
(** * A verification of the Coraza web application firewall

    Coraza inspects HTTP transactions with a list of rules.  A rule names
    variables of the transaction, transforms their values, applies an operator
    and, on a match, runs actions that change the transaction: scores, removed
    rules, skips, interruptions.  The rules are read from a configuration
    language.  A connector, such as the HTTP middleware, drives a transaction
    through five phases by calling its operations; the transactions are pooled,
    and compiled expressions are shared by a concurrent cache.

    ** The program and the files

    The files follow the packages under src/, callees first.

    Foundations:
    - [Prelude]: bytes, the [run] monad of Go code that may panic or loop
      ([Done], [Panic], [OutOfFuel]), its total-correctness predicate [wp],
      updates of records, 64-bit wrap-around [i64].
    - [GoLib]: the parts of Go's strings, strconv and unicode/utf8 packages that
      the code calls.  Letter case beyond ASCII is the class [Unicode], the
      order of a map the class [MapOrder]; [latin1] and [listOrder] are
      instances.
    - [StringUtil]: src/internal/strings/strings.go, src/internal/url/url.go and
      src/internal/cookies/cookies.go.

    Transformations, src/internal/transformations:
    - [BestFit], [UrlTransform]: URL and hexadecimal, decoded in place, with the
      best-fit table.
    - [TextTransform], [CommentTransform], [EscapeTransform], [Base64],
      [PathTransform]: letter case, blanks and NUL bytes, comments, escapes of
      JavaScript, CSS and C, base64, paths.
    - [Transformations]: the registry and the transformations that call a
      library.

    Operators, src/internal/operators:
    - [Matchers]: the searches for literals of rxprefilter.go.
    - [Prefilter], [RxBinary]: the filters before regular expressions, of
      rxprefilter.go and rxprefilter_binary.go.
    - [Rx]: rx.go, the operator @rx.
    - [Operators]: the operators on text and numbers, the validators, restpath,
      detectSQLi, detectXSS and inspectFile.
    - [IPMatch]: ip_match.go and its variants that read files and datasets.
    - [PatternMatch]: pm.go and its variants.

    The engine, src/internal/corazawaf and what it calls:
    - [Variables], [Types]: src/internal/variables and src/types.
    - [Collections]: src/internal/collections, maps, named collections,
      concatenations, sizes.
    - [TransactionCaches]: the caches that a transaction keeps while its rules
      are evaluated, from transaction.go and rulegroup.go.
    - [BodyBuffer]: body_buffer.go, memory, temporary file and open readers.
    - [TransactionState]: the transaction and its variables, from
      transaction.go, with the operations that call no rule: headers, captures,
      exceptions, [GetField], interruptions.
    - [MatchLog]: src/internal/corazarules, matched rules and the texts of the
      error log.
    - [BodyProcessors], [JsonProcessor], [MultipartProcessor]:
      src/internal/bodyprocessors, the registry and the processors; the packages
      gjson, mime/multipart and encoding/xml are parameters.
    - [Macro]: src/experimental/plugins/macro/macro.go.
    - [Rule]: the data of rules and their construction, and the chain of
      transformations, from rule.go.
    - [TransformCache]: the caches of transformed values, from rule.go and
      rulegroup.go.
    - [Actions]: src/internal/actions, the parsing of every action and the
      evaluation of those that change the transaction.
    - [RuleGroup]: the evaluation of a rule, of its chain, and of a phase.
    - [Engine]: theorems about the evaluation.
    - [Phases]: the operations of a transaction that evaluate phases or receive
      bodies.
    - [Lifecycle]: sequences of calls and the theorems about them.
    - [Waf]: waf.go and the closing of a transaction.
    - [DetectionOnly]: the calls on a transaction of a WAF that only detects.
    - [AuditLog]: the record of a transaction, from transaction.go, and its native
      and legacy formats, src/internal/auditlog.

    Around the engine:
    - [Interceptor], [Middleware]: src/http, against the interface
      [TransactionAPI], which [Phases] implements.
    - [Memoize], [MemoizeCalls]: src/internal/memoize, both builds, as steps of
      concurrent calls over a shared memory.
    - [RuleParser], [RuleSyntax], [RuleAssembly]: rule_parser.go of
      src/internal/seclang, with the theorems on what it reads and on the rules
      it makes.
    - [Directives], [Configuration]: directives.go and the map of directives.
    - [Parser]: parser.go, lines, continuations and includes.
    - [Coraza]: src/config.go and src/waf.go, the configuration and the WAF that is
      built from it.

    ** Conventions

    A string or byte slice is a list of integers; indices are naturals and an
    access out of range is [Panic].  Signed 64-bit arithmetic wraps where the
    code may overflow.  A handler takes the transaction and gives the next one.
    A chained rule is nested in its parent, as in Go.  Operators and
    transformations are functions that a rule holds, so the theorems on the
    engine are for any operator and transformation, those of plugins included;
    an operator may capture fields and may panic, which the predicate
    [sound_rule] excludes.

    ** What the theorems show

    - The life cycle.  For rules that are sound and leave the body limits alone
      ([sound_waf]) and processors that return ([sound_registry]), the calls of a
      connector, in any order and with a file system that may fail at any write,
      follow an abstract automaton of phases ([phase_step]): phases 1 to 4 are
      evaluated at most once and never after a later one, and no call panics
      ([calls_refine], [transaction_in_order]).  The theorems hold for every
      invariant of the body buffers with the laws of [BufferInvariant]:
      [wf_buffer] when the file system does not fail, [sane_buffer] when it may;
      what a failed write loses is [Write_dump_fails].  An interrupted transaction
      evaluates no further phase but logging ([calls_interrupted]); with the
      engine off nothing is evaluated ([exec_off]).  Bodies are stored up to the
      limit ([WriteRequestBody_stores]), and a limit lowered under what is
      stored panics ([WriteRequestBody_panics]).
    - The evaluation of a phase.  It terminates, keeps what it may not change and
      ends in a clean state ([Eval_frame]); in detection mode it does not
      interrupt ([Eval_detectionOnly]); after an interruption nothing runs
      ([Eval_interrupted]); removed rules, markers and skips do what they say
      ([evalLoop_removed], [evalLoop_skipAfter], [evalLoop_skip]); flow and
      disruptive actions wait for the whole chain, and a chain gives the matches
      of all its members or none ([doEvaluate_chain]).
    - A WAF.  The one that is built from a configuration has valid limits and the
      settings of the configuration over those of the directives
      ([NewWAF_builds]); one that only detects never interrupts
      ([NewWAF_detects]).
    - The caches give the values that the transformations give
      ([transformFieldCached_agrees], [transformFieldMultimatchCached_agrees]),
      because the identifiers of chains tell them apart
      ([AddTransformation_chain]).
    - Reuse.  A transaction from the pool starts like a new one, but for the
      variables that the reset forgets and the memory of an empty buffer
      ([newTransaction_reuse], [resetVariables_spec]).
    - Body processors.  The JSON processor stores every scalar and the length of
      every array under its path ([jsonProcessRequest_args]), the multipart
      processor the fields, the files and their sizes ([multipart_collects]).
    - Logs.  The fields of the error log can be read back but for the message
      ([ErrorLog_fields]); the audit log has what its parts ask for
      ([AuditLog_record]), and its native format the sections of the parts
      between their boundaries ([nativeFormat_sections]).
    - The HTTP middleware, for handlers that send final statuses and a file system
      that does not fail, hands the handler the body of the request
      ([processRequest_body]), calls the server in order ([WrapHandler_order]),
      passes a response on unchanged when nothing
      interrupts ([WrapHandler_transparent]) and replaces it when something does
      ([WrapHandler_blocks], with the one write that escapes).
    - The memoizer.  In every interleaving a call returns a value of its key
      whose entry it owned when it returned ([Do_owns], [Do_shares]), one
      call per key computes ([Do_singleflight]), a release leaves the
      owner on no entry ([Release_complete], [Release_noLeak]) and every call
      can complete ([calls_complete]).
    - The configuration.  Parsing ends on every input ([parseConfig_terminates])
      and a rule line never panics ([ParseRule_total]); what the parsers read is
      what was printed ([parseActions_print], [parseActionOperator_print],
      [ParseVariables_print]); a parsed rule has one disruptive action at most
      and joins the open chain ([ParseRule_disruptive], [ParseRule_chains]).
    - Operators.  The filters and faster paths of @rx change no result
      ([newRX_transparent], [compilePrefilter_sound], [binaryPrefilter_sound],
      [minMatchLength_bound]) and find what a plain search finds
      ([newIndexedMatcher_search]); @pm matches iff one of its words occurs
      ([newPM_search]); @ipMatch decides membership in the networks it was
      given ([ipMatch_subnets]); the check digit of a Chilean number detects every
      change of one digit ([nidCl_detects]).
    - Transformations, actions, macros, collections, body buffers, query and
      cookie parsers, types: functional specifications, round trips, and
      equivalences of optimised routines with plain ones.

    ** Fuel

    Loops of the code are structural recursions on the data they consume where
    they can be.  The others take fuel that is the length of the input plus one
    (decoders, parsers, [readAll], [copyLoop]), the number of decimal digits of a
    64-bit integer ([rutFuel]) or the limit that the code itself has on nested
    includes ([maxDepth]); each has a theorem, or is used in one, that the
    result is [Done].  The memoizer is a relation and needs none.

    ** What is not modelled

    The default build is modelled: without multiphase evaluation, with
    collections that ignore case, without the mandatory check of rule
    identifiers.  Not modelled are the debug log and the writers of logs (output
    only), the JSON encoding of audit records and the OCSF format, the operators
    rbl (DNS) and validateSchema (the jsonschema package) and the registry of
    operators, which the parser takes as a parameter; of a transaction
    [ParseRequestReader], [String] and [GetStopWatch]; failures of reads from and
    of the removal of temporary files, and a failing file system in the
    middleware; and concurrent use of one transaction, which the code does not
    support.  Regular expressions, Aho-Corasick, libinjection, the file system,
    the clock, [url.ParseRequestURI], the parsers of JSON, XML and multipart
    bodies and the address of a string are parameters. *)

From stdpp Require Export base tactics list numbers gmap strings.
From Stdlib Require Export ZArith Lia ZifyBool ZifyNat.

Declare Scope coraza_scope.
Delimit Scope coraza_scope with coraza.
#[global] Open Scope coraza_scope.
#[global] Open Scope Z_scope.

Create HintDb coraza discriminated.

(** ** Byte strings

    A Go [string] or [[]byte] is the list of its bytes, each a [Z] in
    [0, 256).  Lengths and indices are [nat]. *)

Abbreviation bytes := (list Z).

Definition is_byte (z : Z) : Prop := 0 <= z < 256.

#[global] Instance is_byte_dec z : Decision (is_byte z).
Proof. unfold is_byte. apply _. Defined.

Abbreviation wf_bytes := (Forall is_byte).

Definition wf_bytesb (s : bytes) : bool := forallb (λ b, (0 <=? b) && (b <? 256)) s.

Lemma wf_bytesb_true s : wf_bytesb s = true → wf_bytes s.
Proof. induction s; simpl; constructor; unfold is_byte in *; [lia|]. apply IHs. lia. Qed.

Lemma wf_single b : is_byte b → wf_bytes [b].
Proof. intros Hb. constructor; [done|constructor]. Qed.

(** [str "abc"] is the byte string of an ASCII literal. *)
Definition str (s : string) : bytes :=
  (λ a, Z.of_N (Ascii.N_of_ascii a)) <$> String.list_ascii_of_string s.

(** A string with its address, for code that compares addresses. *)
Record gostring := mkGo { go_ptr : Z; go_val : bytes }.

(** [s =s t] is Go's [==] on strings. *)
Definition bytes_eqb (s t : bytes) : bool := bool_decide (s = t).
Infix "=s" := bytes_eqb (at level 70) : coraza_scope.

Lemma bytes_eqb_eq (s t : bytes) : (s =s t) = true ↔ s = t.
Proof. unfold bytes_eqb. by rewrite bool_decide_eq_true. Qed.

Lemma bytes_eqb_neq (s t : bytes) : (s =s t) = false ↔ s ≠ t.
Proof. unfold bytes_eqb. by rewrite bool_decide_eq_false. Qed.

(** [u8] is the conversion to [byte], [i64] the wrap-around of [int] and
    [int64] on a 64-bit target. *)
Definition u8 (z : Z) : Z := z mod 256.
Definition i64 (z : Z) : Z := (z + 2 ^ 63) mod 2 ^ 64 - 2 ^ 63.
Definition maxInt64 : Z := 2 ^ 63 - 1.
Definition in_i64 (z : Z) : Prop := - 2 ^ 63 <= z < 2 ^ 63.

#[global] Instance in_i64_dec z : Decision (in_i64 z).
Proof. unfold in_i64. apply _. Defined.

Lemma u8_is_byte z : is_byte (u8 z).
Proof. unfold is_byte, u8. apply Z.mod_pos_bound. lia. Qed.

Lemma u8_id z : is_byte z → u8 z = z.
Proof. unfold is_byte, u8. intros. apply Z.mod_small. lia. Qed.

Lemma i64_id z : in_i64 z → i64 z = z.
Proof. unfold in_i64, i64. intros. rewrite Z.mod_small; lia. Qed.

Lemma i64_range z : in_i64 (i64 z).
Proof.
  unfold in_i64, i64. pose proof (Z.mod_pos_bound (z + 2 ^ 63) (2 ^ 64)). lia.
Qed.

Lemma i64_add a b : i64 (i64 a + b) = i64 (a + b).
Proof.
  unfold i64. f_equal.
  replace ((a + 2 ^ 63) mod 2 ^ 64 - 2 ^ 63 + b + 2 ^ 63) with ((a + 2 ^ 63) mod 2 ^ 64 + b) by lia.
  rewrite Z.add_mod_idemp_l by lia. f_equal. lia.
Qed.

#[export] Hint Resolve u8_is_byte i64_range : coraza.

(** ** Runs of code that can panic

    [Done a] is a normal return, [Panic] a Go run-time panic (an index or
    slice bound out of range, a nil dereference), and [OutOfFuel] the
    exhaustion of the bound that a [loop] was given: theorems about a loop
    show that its result is a [Done]. *)
Inductive run (A : Type) : Type :=
| Done (a : A)
| Panic
| OutOfFuel.
Arguments Done {A} a.
Arguments Panic {A}.
Arguments OutOfFuel {A}.

#[global] Instance run_ret : MRet run := λ A a, Done a.
#[global] Instance run_bind : MBind run := λ A B f m,
  match m with Done a => f a | Panic => Panic | OutOfFuel => OutOfFuel end.
#[global] Instance run_fmap : FMap run := λ A B f m,
  match m with Done a => Done (f a) | Panic => Panic | OutOfFuel => OutOfFuel end.

#[global] Instance run_eq_dec `{EqDecision A} : EqDecision (run A).
Proof. solve_decision. Defined.

(** [index l i] is [l[i]], [store l i x] is [l[i] = x], [slice l a b] is
    [l[a:b]]; each panics out of range. *)
Definition index {A} (l : list A) (i : nat) : run A :=
  match l !! i with Some x => Done x | None => Panic end.

Definition store {A} (l : list A) (i : nat) (x : A) : run (list A) :=
  if decide (i < length l)%nat then Done (<[i := x]> l) else Panic.

Definition slice {A} (l : list A) (a b : nat) : run (list A) :=
  if decide (a ≤ b ≤ length l)%nat then Done (take (b - a) (drop a l)) else Panic.

(** Short-circuit conjunction: [m] is evaluated only when [b] holds. *)
Definition and_then (b : bool) (m : run bool) : run bool :=
  if b then m else Done false.
Notation "b &&? m" := (and_then b m) (at level 41, right associativity) : coraza_scope.

Lemma index_Some {A} (l : list A) i x : l !! i = Some x → index l i = Done x.
Proof. intros H. unfold index. by rewrite H. Qed.

Lemma index_lt `{Inhabited A} (l : list A) i :
  (i < length l)%nat → index l i = Done (l !!! i).
Proof. intros Hi. unfold index. by rewrite list_lookup_lookup_total_lt. Qed.

Lemma store_lt {A} (l : list A) i x :
  (i < length l)%nat → store l i x = Done (<[i := x]> l).
Proof. intros Hi. unfold store. by rewrite decide_True. Qed.

Lemma slice_ok {A} (l : list A) a b :
  (a ≤ b ≤ length l)%nat → slice l a b = Done (take (b - a) (drop a l)).
Proof. intros Hi. unfold slice. by rewrite decide_True. Qed.

(** Evaluation of the run monad, and nothing else. *)
Ltac run_simpl := cbn [mbind run_bind fmap run_fmap and_then fst snd negb andb orb].

(** Reading at an offset is reading the dropped list. *)
Lemma slice_prefix {A} (l : list A) b : (b ≤ length l)%nat → slice l 0 b = Done (take b l).
Proof. intros Hb. rewrite slice_ok by lia. by rewrite Nat.sub_0_r, drop_0. Qed.

Lemma index_drop {A} (l : list A) i k s : drop i l = s → index l (i + k) = index s k.
Proof. intros <-. unfold index. by rewrite lookup_drop. Qed.

Lemma index_cons_0 {A} (x : A) l : index (x :: l) 0 = Done x.
Proof. done. Qed.

Lemma index_cons_S {A} (x : A) l k : index (x :: l) (S k) = index l k.
Proof. done. Qed.

Lemma drop_nonempty {A} (l : list A) i : (i < length l)%nat → drop i l ≠ [].
Proof. intros Hi E%(f_equal length). rewrite length_drop in E. simpl in E. lia. Qed.

Lemma drop_cons_length {A} (l : list A) i x r :
  drop i l = x :: r → length l = (i + S (length r))%nat.
Proof. intros E%(f_equal length). rewrite length_drop in E. simpl in E. lia. Qed.

(** Total correctness: [m] returns, with a result that satisfies [Q]. *)
Definition wp {A} (m : run A) (Q : A → Prop) : Prop :=
  match m with Done a => Q a | _ => False end.

Lemma wp_Done {A} (a : A) (Q : A → Prop) : Q a → wp (Done a) Q.
Proof. done. Qed.

Lemma wp_bind {A B} (m : run A) (f : A → run B) (Q : B → Prop) (R : A → Prop) :
  wp m R → (∀ a, R a → wp (f a) Q) → wp (a ← m; f a) Q.
Proof. intros Hm Hf. destruct m as [a| |]; [|done..]. by apply Hf. Qed.

Lemma wp_mono {A} (m : run A) (Q R : A → Prop) : wp m Q → (∀ a, Q a → R a) → wp m R.
Proof. intros Hm HQ. destruct m as [a| |]; [|done..]. by apply HQ. Qed.

Lemma wp_elim {A} (m : run A) (Q : A → Prop) : wp m Q → ∃ a, m = Done a ∧ Q a.
Proof. intros Hm. destruct m as [a| |]; [|done..]. by exists a. Qed.

Lemma wp_intro {A} (m : run A) (Q : A → Prop) a : m = Done a → Q a → wp m Q.
Proof. by intros ->. Qed.

(** [for _, x := range l { s = f(s, x) }] for a body that can panic. *)
Fixpoint foldM {A S} (f : S → A → run S) (l : list A) (s : S) : run S :=
  match l with
  | [] => Done s
  | x :: l => s ← f s x; foldM f l s
  end.

Lemma foldM_app {A S} (f : S → A → run S) l1 l2 s : foldM f (l1 ++ l2) s = s ← foldM f l1 s; foldM f l2 s.
Proof. revert s. induction l1 as [|a l1 IH]; intros s; [done|]. cbn. destruct (f s a); cbn; [apply IH|done|done]. Qed.

Lemma foldM_wp {A S} (f : S → A → run S) (P : S → Prop) l : ∀ s,
  (∀ s x, x ∈ l → P s → wp (f s x) P) → P s → wp (foldM f l s) P.
Proof.
  induction l as [|x l IH]; intros s Hf Hs; [done|]. cbn [foldM].
  eapply wp_bind; [apply Hf; [left|done]|]. intros s' Hs'. apply IH; [|done].
  intros s'' y Hy. apply Hf. by right.
Qed.

(** The same with an invariant that sees what was processed. *)
Lemma foldM_prefix {A S} (f : S → A → run S) (P : list A → S → Prop) l : ∀ pre s,
  (∀ pre s x, P pre s → wp (f s x) (P (pre ++ [x]))) → P pre s → wp (foldM f l s) (P (pre ++ l)).
Proof.
  induction l as [|x l IH]; intros pre s Hf Hs; [by rewrite app_nil_r|]. cbn [foldM].
  eapply wp_bind; [by apply Hf|]. intros s' Hs'.
  replace (pre ++ x :: l) with ((pre ++ [x]) ++ l) by (by rewrite <- app_assoc).
  by apply IH.
Qed.

(** ** Loops

    [loop fuel cond body s] is [for cond { body }] run from [s] for at most
    [fuel] iterations. *)
Fixpoint loop {S : Type} (fuel : nat) (cond : S → bool) (body : S → run S) (s : S) : run S :=
  match fuel with
  | O => OutOfFuel
  | Datatypes.S fuel =>
      if cond s then s' ← body s; loop fuel cond body s' else Done s
  end.

(** Total correctness of a loop: an invariant that every iteration keeps
    without panicking, and a measure that every iteration decreases. *)
Lemma loop_total {S} (cond : S → bool) (body : S → run S) (I : S → Prop) (m : S → nat) :
  (∀ s, I s → cond s = true → ∃ s', body s = Done s' ∧ I s' ∧ (m s' < m s)%nat) →
  ∀ fuel s, I s → (m s < fuel)%nat →
  ∃ s', loop fuel cond body s = Done s' ∧ I s' ∧ cond s' = false.
Proof.
  intros Hstep fuel. induction fuel as [|fuel IH]; intros s HI Hm; [lia|].
  simpl. destruct (cond s) eqn:Hc; [|by eauto].
  destruct (Hstep s HI Hc) as (s' & -> & HI' & Hm'). simpl.
  apply IH; [done|lia].
Qed.

(** ** Record update

    [r <| f := v |>] replaces field [f] of [r].  A record type declares its
    eta expansion once, as an instance of [Eta]; the setter of each field is
    found from it by abstracting the projection. *)
Class Eta (R : Type) := eta : R → R.
#[global] Hint Mode Eta ! : typeclass_instances.

Class Setter {R T : Type} (proj : R → T) := setf : (T → T) → R → R.
#[global] Hint Mode Setter - - ! : typeclass_instances.
Arguments setf {R T} proj {_} _ _.

Ltac solve_setter :=
  match goal with
  | |- @Setter ?R ?T ?proj =>
      let e := constr:(_ : Eta R) in
      let e := eval hnf in e in
      let e := eval cbv beta in e in
      let p := eval pattern proj in e in
      match p with
      | ?upd _ => exact (fun f => upd (fun r => f (proj r)))
      end
  end.
#[global] Hint Extern 1 (Setter _) => solve_setter : typeclass_instances.

Notation "r <| f := v |>" := (setf f (λ _, v) r)
  (at level 1, f constr at level 0, left associativity, format "r  <| f  :=  v |>") : coraza_scope.
Notation "r <| f ::= g |>" := (setf f g r)
  (at level 1, f constr at level 0, left associativity, format "r  <| f  ::=  g |>") : coraza_scope.

(** [dlia] is [lia] for goals with division and remainder by constants. *)
Ltac dlia := Z.to_euclidean_division_equations; lia.

(** Case analysis on every boolean conditional of the goal, innermost first. *)
Ltac split_ifs :=
  repeat match goal with
  | |- context [if ?b then _ else _] =>
      lazymatch b with context [if _ then _ else _] => fail | _ => idtac end;
      lazymatch type of b with bool => let E := fresh "E" in destruct b eqn:E end
  end.

(** A boolean property of bytes is checked by running it on all 256. *)
Lemma forall_byte (P : Z → bool) :
  forallb P (seqZ 0 256) = true → ∀ b, is_byte b → P b = true.
Proof.
  intros H b Hb. rewrite forallb_forall in H. apply H.
  apply list_elem_of_In, elem_of_seqZ. unfold is_byte in Hb. lia.
Qed.

Lemma forall_byte2 (P : Z → Z → bool) :
  forallb (λ a, forallb (P a) (seqZ 0 256)) (seqZ 0 256) = true →
  ∀ a b, is_byte a → is_byte b → P a b = true.
Proof.
  intros H a b Ha Hb. apply forall_byte; [|done].
  by apply (forall_byte (λ a, forallb (P a) (seqZ 0 256))).
Qed.

(** [a << n | b] where [b] fits below the shift is a sum. *)
Lemma lor_shiftl a b n : 0 <= n → 0 <= b < 2 ^ n → Z.lor (Z.shiftl a n) b = a * 2 ^ n + b.
Proof.
  intros Hn Hb. assert (Z.land (Z.shiftl a n) b = 0) as Hz.
  { apply Z.bits_inj'. intros i Hi. rewrite Z.land_spec, Z.bits_0. destruct (decide (i < n)).
    - by rewrite Z.shiftl_spec_low by lia.
    - replace (Z.testbit b i) with false; [by rewrite andb_false_r|]. symmetry.
      rewrite <- (Z.mod_small b (2 ^ n)) by lia. apply Z.mod_pow2_bits_high. lia. }
  rewrite <- Z.lxor_lor, <- Z.add_nocarry_lxor by done. by rewrite Z.shiftl_mul_pow2 by lia.
Qed.

(** ** Lists *)

Lemma take_insert_end {A} (l : list A) c x :
  (c < length l)%nat → take (S c) (<[c := x]> l) = take c l ++ [x].
Proof.
  intros Hc. rewrite (take_S_r _ c x) by (by apply list_lookup_insert_eq).
  by rewrite take_insert_ge.
Qed.

(** ** In-place decoders

    Several transformations decode [input] into a buffer [d] of the same
    length, reading at [i] and writing at [c].  [inplace input dec target]
    says that what is written followed by the decoding of what is not yet read
    is [target]. *)
Definition inplace (input : bytes) (dec : bytes → bytes) (target : bytes)
    (i c : nat) (d : bytes) : Prop :=
  length d = length input ∧ (c ≤ i ≤ length input)%nat ∧ take c d ++ dec (drop i input) = target.

Section inplace.
Context (input : bytes) (dec : bytes → bytes) (target : bytes).

(** Reading [k] bytes and writing one. *)
Lemma inplace_emit i c d x k :
  inplace input dec target i c d → (1 ≤ k)%nat → (i + k ≤ length input)%nat →
  dec (drop i input) = x :: dec (drop (i + k) input) →
  ∃ d', store d c x = Done d' ∧ inplace input dec target (i + k) (c + 1) d'.
Proof.
  intros (Hl & Hc & Ht) Hk Hi Hd. rewrite store_lt by lia. eexists. split; [done|].
  split; [by rewrite length_insert|]. split; [lia|].
  rewrite <- Ht, Hd, Nat.add_1_r, take_insert_end by lia. by rewrite <- app_assoc.
Qed.

(** Reading [k] bytes and writing nothing. *)
Lemma inplace_skip i c d k :
  inplace input dec target i c d → (i + k ≤ length input)%nat →
  dec (drop i input) = dec (drop (i + k) input) →
  inplace input dec target (i + k) c d.
Proof. intros (Hl & Hc & Ht) Hi Hd. split; [done|]. split; [lia|]. by rewrite <- Hd. Qed.

(** The buffer is complete when the input is read. *)
Lemma inplace_done i c d :
  inplace input dec target i c d → (i <? length input)%nat = false → dec [] = [] →
  slice d 0 c = Done target.
Proof.
  intros (Hl & Hc & Ht) Hi%Nat.ltb_ge Hd. rewrite slice_ok by lia.
  rewrite Nat.sub_0_r, drop_0. f_equal. rewrite <- Ht.
  rewrite drop_ge by lia. by rewrite Hd, app_nil_r.
Qed.

Lemma inplace_start pos :
  (pos ≤ length input)%nat →
  inplace input dec (take pos input ++ dec (drop pos input)) pos pos input.
Proof. intros Hp. by repeat split. Qed.
End inplace.

(** Decoders that write runs of bytes and record whether they changed
    anything.  [write_at d c out] is [d] with [out] stored from [c] on. *)
Definition write_at (d : bytes) (c : nat) (out : bytes) : bytes :=
  take c d ++ out ++ drop (c + length out) d.

Lemma write_at_nil d c : write_at d c [] = d.
Proof. unfold write_at. simpl. by rewrite Nat.add_0_r, take_drop. Qed.

Lemma length_write_at d c out :
  (c + length out ≤ length d)%nat → length (write_at d c out) = length d.
Proof. intros H. unfold write_at. rewrite !length_app, length_take, length_drop. lia. Qed.

Lemma take_write_at d c out :
  (c + length out ≤ length d)%nat → take (c + length out) (write_at d c out) = take c d ++ out.
Proof.
  intros H. unfold write_at. rewrite app_assoc, take_app_length'; [done|].
  rewrite length_app, length_take. lia.
Qed.

Lemma store_write_at d c x : (c < length d)%nat → store d c x = Done (write_at d c [x]).
Proof.
  intros H. rewrite store_lt by done. f_equal. unfold write_at.
  rewrite insert_take_drop by done. simpl. by rewrite Nat.add_1_r.
Qed.

Lemma write_at_app d c o1 o2 :
  (c + length o1 + length o2 ≤ length d)%nat →
  write_at (write_at d c o1) (c + length o1) o2 = write_at d c (o1 ++ o2).
Proof.
  intros H. unfold write_at at 1. rewrite take_write_at by lia.
  unfold write_at. rewrite length_app, <- !app_assoc. do 3 f_equal.
  rewrite (app_assoc (take c d)).
  rewrite drop_app_ge by (rewrite length_app, length_take; lia).
  rewrite drop_drop. f_equal. rewrite length_app, length_take. lia.
Qed.

(** What one iteration at read position [i] and write position [c] does: it
    reads [k] bytes, writes [out], and sets the flag when [fl]. *)
Definition decodes_at (input : bytes) (dec : bytes → bytes * bool)
    (step : nat * nat * bytes * bool → run (nat * nat * bytes * bool)) : Prop :=
  ∀ i c d ch, length d = length input → (c ≤ i < length input)%nat →
  ∃ k out fl,
    step (i, c, d, ch) = Done ((i + k)%nat, (c + length out)%nat, write_at d c out, ch || fl) ∧
    (1 ≤ k)%nat ∧ (i + k ≤ length input)%nat ∧ (length out ≤ k)%nat ∧
    dec (drop i input) = (out ++ (dec (drop (i + k) input)).1, fl || (dec (drop (i + k) input)).2).

Lemma decode_loop input dec step pos :
  decodes_at input dec step → dec [] = ([], false) → (pos ≤ length input)%nat →
  ∃ i c d,
    loop (S (length input)) (λ st : nat * nat * bytes * bool, (st.1.1.1 <? length st.1.2)%nat) step
      (pos, pos, input, false) = Done (i, c, d, (dec (drop pos input)).2) ∧
    slice d 0 c = Done (take pos input ++ (dec (drop pos input)).1).
Proof.
  intros Hstep Hnil Hpos. set (target := take pos input ++ _).
  destruct (loop_total (λ st : nat * nat * bytes * bool, (st.1.1.1 <? length st.1.2)%nat) step
    (λ st, inplace input (fst ∘ dec) target st.1.1.1 st.1.1.2 st.1.2 ∧
           st.2 || (dec (drop st.1.1.1 input)).2 = (dec (drop pos input)).2)
    (λ st, (length input - st.1.1.1)%nat)) with (S (length input)) (pos, pos, input, false)
    as ([[[i c] d] ch] & Hl & [HI Hch] & Hc).
  - intros [[[i c] d] ch] [(Hlen & Hci & Ht) Hch] Hc. cbn [fst snd] in *. rewrite Hlen in Hc.
    destruct (Hstep i c d ch) as (k & out & fl & -> & Hk & Hik & Ho & Hd); [done|lia|].
    eexists. split; [done|]. cbn [fst snd]. rewrite Hd in Hch. cbn [snd] in Hch.
    split; [|lia]. split; [|by rewrite <- orb_assoc].
    split; [rewrite length_write_at; lia|]. split; [lia|].
    rewrite take_write_at by lia. rewrite <- Ht. cbn. rewrite Hd. by rewrite <- app_assoc.
  - split; [by apply inplace_start|done].
  - simpl. lia.
  - cbn [fst snd] in *. pose proof HI as (Hlen & Hci & _).
    rewrite drop_ge, Hnil, orb_false_r in Hch by lia. subst ch. rewrite Hlen in Hc.
    exists i, c, d. split; [done|]. eapply inplace_done; [done|done|]. cbn. by rewrite Hnil.
Qed.
