(* ===== verification/GoLib.v ===== *)
(** The part of the Go standard library that the modelled code calls, on byte
    strings: [strings] (Cut, Index, HasPrefix, Trim, ...), [strconv] (Itoa,
    Atoi, ParseInt), [unicode/utf8] (decoding, encoding and iteration of
    runes), and [unicode] (case mapping, white space).

    The Unicode case tables are the only part not written out: they are the
    class [Unicode], whose laws are what the code relies on. *)

From S2P Require Import Prelude.

(** ** Package strings *)

(** [strings.IndexByte]; [None] stands for -1. *)
Fixpoint IndexByte (s : bytes) (c : Z) : option nat :=
  match s with
  | [] => None
  | x :: s => if x =? c then Some O else S <$> IndexByte s c
  end.

(** [strings.LastIndexByte]. *)
Fixpoint LastIndexByte (s : bytes) (c : Z) : option nat :=
  match s with
  | [] => None
  | x :: s =>
      match LastIndexByte s c with
      | Some i => Some (S i)
      | None => if x =? c then Some O else None
      end
  end.

(** [strings.ContainsAny] and [strings.IndexAny] for a set of ASCII bytes. *)
Definition byte_in (c : Z) (set : bytes) : bool := existsb (Z.eqb c) set.

Fixpoint IndexAny (s : bytes) (set : bytes) : option nat :=
  match s with
  | [] => None
  | x :: s => if byte_in x set then Some O else S <$> IndexAny s set
  end.

Definition ContainsAny (s set : bytes) : bool :=
  match IndexAny s set with Some _ => true | None => false end.

Fixpoint LastIndexAny (s : bytes) (set : bytes) : option nat :=
  match s with
  | [] => None
  | x :: s =>
      match LastIndexAny s set with
      | Some i => Some (S i)
      | None => if byte_in x set then Some O else None
      end
  end.

(** [strings.Cut] at a one-byte separator: before, after, found. *)
Fixpoint Cut (s : bytes) (sep : Z) : bytes * bytes * bool :=
  match s with
  | [] => ([], [], false)
  | x :: r =>
      if x =? sep then ([], r, true)
      else let '(before, after, found) := Cut r sep in (x :: before, after, found)
  end.

Fixpoint HasPrefix (s prefix : bytes) {struct prefix} : bool :=
  match prefix, s with
  | [], _ => true
  | p :: prefix, x :: s => (p =? x) && HasPrefix s prefix
  | _ :: _, [] => false
  end.

Definition HasSuffix (s suffix : bytes) : bool := HasPrefix (reverse s) (reverse suffix).

Fixpoint Contains (s sub : bytes) : bool :=
  HasPrefix s sub || match s with [] => false | _ :: s => Contains s sub end.

(** [strings.TrimLeft], [TrimRight] and [Trim] with an ASCII cut set. *)
Fixpoint TrimLeft (s set : bytes) : bytes :=
  match s with
  | [] => []
  | x :: r => if byte_in x set then TrimLeft r set else s
  end.

Definition TrimRight (s set : bytes) : bytes := reverse (TrimLeft (reverse s) set).
Definition Trim (s set : bytes) : bytes := TrimRight (TrimLeft s set) set.

(** [textproto.TrimString]: leading and trailing space, tab, CR, LF. *)
Definition asciiSpaces : bytes := [0x20; 0x09; 0x0a; 0x0d].
Definition TrimString (s : bytes) : bytes := Trim s asciiSpaces.

(** [strings.ReplaceAll] of a one-byte string by a string. *)
Definition ReplaceByte (s : bytes) (c : Z) (by_ : bytes) : bytes :=
  flat_map (λ x, if x =? c then by_ else [x]) s.

(** [strings.Split] and [strings.Join] with a separator of one byte. *)
Fixpoint Split (s : bytes) (sep : Z) : list bytes :=
  match s with
  | [] => [[]]
  | c :: s =>
      if c =? sep then [] :: Split s sep
      else match Split s sep with h :: t => (c :: h) :: t | [] => [[c]] end
  end.

Fixpoint Join (elems : list bytes) (sep : Z) : bytes :=
  match elems with
  | [] => []
  | [x] => x
  | x :: elems => x ++ sep :: Join elems sep
  end.

(** *** Lemmas on package strings *)

Lemma IndexByte_Some s c i :
  IndexByte s c = Some i ↔ s !! i = Some c ∧ Forall (λ x, x ≠ c) (take i s).
Proof.
  revert i. induction s as [|x s IH]; intros i; simpl.
  - split; [done|]. by intros [? _].
  - destruct (Z.eqb_spec x c) as [->|Hne].
    + split; [intros [= <-]; by split|]. intros [Hi Hf].
      destruct i as [|i]; [done|]. simpl in Hf. inversion Hf; by subst.
    + rewrite fmap_Some. split.
      * intros (j & Hj & ->). apply IH in Hj as [? ?]. simpl. split; [done|by constructor].
      * intros [Hi Hf]. destruct i as [|i]; simpl in *; [congruence|].
        exists i. split; [|done]. apply IH. inversion Hf; by subst.
Qed.

Lemma IndexByte_None s c : IndexByte s c = None ↔ Forall (λ x, x ≠ c) s.
Proof.
  induction s as [|x s IH]; simpl; [by split|].
  destruct (Z.eqb_spec x c) as [->|Hne].
  - split; [done|]. inversion 1; by subst.
  - rewrite fmap_None, IH. split; [by constructor|]. by inversion 1.
Qed.

Lemma IndexByte_lt s c i : IndexByte s c = Some i → (i < length s)%nat.
Proof. intros [H _]%IndexByte_Some. by apply lookup_lt_Some in H. Qed.

Lemma IndexAny_None s set : IndexAny s set = None ↔ Forall (λ x, byte_in x set = false) s.
Proof.
  induction s as [|x s IH]; simpl; [by split|].
  destruct (byte_in x set) eqn:E.
  - split; [done|]. inversion 1; congruence.
  - rewrite fmap_None, IH. split; [by constructor|]. by inversion 1.
Qed.

Lemma IndexAny_Some s set i :
  IndexAny s set = Some i →
  (i < length s)%nat ∧ Forall (λ x, byte_in x set = false) (take i s).
Proof.
  revert i. induction s as [|x s IH]; intros i; simpl; [done|].
  destruct (byte_in x set) eqn:E.
  - intros [= <-]. simpl. split; [lia|constructor].
  - intros (j & Hj & ->)%fmap_Some. apply IH in Hj as [??]. simpl.
    split; [lia|by constructor].
Qed.

Lemma Cut_spec s sep before after found :
  Cut s sep = (before, after, found) →
  Forall (λ x, x ≠ sep) before ∧
  (if found then s = before ++ sep :: after else s = before ∧ after = []).
Proof.
  revert before after found. induction s as [|x s IH]; intros before after found; simpl.
  - intros [= <- <- <-]. by repeat split.
  - destruct (Z.eqb_spec x sep) as [->|Hne].
    + intros [= <- <- <-]. by split.
    + destruct (Cut s sep) as [[b a] f] eqn:E. intros [= <- <- <-].
      destruct (IH _ _ _ eq_refl) as [Hb Hf]. split; [by constructor|].
      destruct f; simpl in *; [by rewrite Hf|]. destruct Hf as [-> ->]. done.
Qed.

Lemma Cut_after_length s sep before after found :
  Cut s sep = (before, after, found) → s ≠ [] → (length after < length s)%nat.
Proof.
  intros [Hb Hs]%Cut_spec Hne. destruct found.
  - subst s. rewrite length_app. simpl. lia.
  - destruct Hs as [-> ->]. destruct before; [done|simpl; lia].
Qed.

Lemma Cut_first s t sep : Forall (λ c, c ≠ sep) s → Cut (s ++ sep :: t) sep = (s, t, true).
Proof.
  induction 1 as [|c s Hc Hs IH]; cbn [app Cut]; [by rewrite Z.eqb_refl|].
  by rewrite (proj2 (Z.eqb_neq _ _) Hc), IH.
Qed.

Lemma HasPrefix_spec s p : HasPrefix s p = true ↔ ∃ r, s = p ++ r.
Proof.
  revert s. induction p as [|x p IH]; intros s; simpl; [split; eauto|].
  destruct s as [|y s]; simpl.
  - split; [done|]. by intros [? ?].
  - rewrite andb_true_iff, Z.eqb_eq, IH. split.
    + intros [-> [r ->]]. by exists r.
    + intros [r [= -> ->]]. eauto.
Qed.

Lemma TrimLeft_suffix s set : ∃ p, s = p ++ TrimLeft s set ∧ Forall (λ x, byte_in x set = true) p.
Proof.
  induction s as [|x s (p & IH & Hp)]; simpl; [by exists []|].
  destruct (byte_in x set) eqn:E.
  - exists (x :: p). simpl. split; [by rewrite <- IH|by constructor].
  - by exists [].
Qed.

Lemma TrimLeft_length s set : (length (TrimLeft s set) ≤ length s)%nat.
Proof.
  destruct (TrimLeft_suffix s set) as (p & H & _).
  rewrite H at 2. rewrite length_app. lia.
Qed.

Lemma TrimLeft_head s set x : head (TrimLeft s set) = Some x → byte_in x set = false.
Proof.
  induction s as [|y s IH]; simpl; [done|].
  destruct (byte_in y set) eqn:E; [done|]. simpl. by intros [= <-].
Qed.

Lemma Split_nonempty s sep : Split s sep ≠ [].
Proof. destruct s; cbn; [done|]. split_ifs; [done|]. by destruct (Split s sep). Qed.

Lemma Split_app x s sep : Forall (λ c, c ≠ sep) x → Split (x ++ sep :: s) sep = x :: Split s sep.
Proof.
  induction x as [|c x IH]; intros Hx; cbn [app Split]; [by rewrite Z.eqb_refl|].
  apply Forall_cons in Hx as [Hc Hx]. apply Z.eqb_neq in Hc. by rewrite Hc, IH.
Qed.

Lemma Split_none x sep : Forall (λ c, c ≠ sep) x → Split x sep = [x].
Proof.
  induction x as [|c x IH]; intros Hx; cbn [Split]; [done|].
  apply Forall_cons in Hx as [Hc Hx]. apply Z.eqb_neq in Hc. by rewrite Hc, IH.
Qed.

Lemma Split_elems s sep : Forall (Forall (λ c, c ≠ sep)) (Split s sep).
Proof.
  induction s as [|c s IH]; cbn; [by repeat constructor|]. destruct (Z.eqb_spec c sep); [by constructor; [constructor|]|].
  destruct (Split s sep) as [|h t] eqn:E; [by apply Split_nonempty in E|].
  apply Forall_cons in IH as [Hh Ht]. constructor; [by constructor|done].
Qed.

Lemma Join_cons x l sep : l ≠ [] → Join (x :: l) sep = x ++ sep :: Join l sep.
Proof. by destruct l. Qed.

Lemma Join_snoc l x sep : l ≠ [] → Join (l ++ [x]) sep = Join l sep ++ sep :: x.
Proof.
  induction l as [|y l IH]; intros Hl; [done|]. destruct l as [|z l]; [done|].
  specialize (IH ltac:(done)). cbn [app] in *. rewrite (Join_cons y (z :: l ++ [x])), IH, (Join_cons y (z :: l)) by done. by rewrite <- app_assoc.
Qed.

Lemma Join_Split s sep : Join (Split s sep) sep = s.
Proof.
  induction s as [|c s IH]; [done|]. cbn [Split]. pose proof (Split_nonempty s sep). destruct (Z.eqb_spec c sep) as [->|].
  - rewrite Join_cons by done. by rewrite IH.
  - destruct (Split s sep) as [|h [|h' t]]; [done|..]; cbn [Join app] in IH |- *; by rewrite <- IH.
Qed.

Lemma Split_Join l sep : l ≠ [] → Forall (Forall (λ c, c ≠ sep)) l → Split (Join l sep) sep = l.
Proof.
  induction l as [|x l IH]; intros Hl H; [done|]. apply Forall_cons in H as [Hx H].
  destruct l as [|y l]; [by apply Split_none|]. rewrite Join_cons, Split_app, IH by done. done.
Qed.

Lemma Join_wf l sep : is_byte sep → Forall wf_bytes l → wf_bytes (Join l sep).
Proof.
  intros Hs. induction l as [|x l IH]; intros H; [constructor|]. apply Forall_cons in H as [Hx H].
  destruct l as [|y l]; [done|]. rewrite Join_cons by done. apply Forall_app. split; [done|]. constructor; auto.
Qed.

Lemma Split_wf s sep : wf_bytes s → Forall wf_bytes (Split s sep).
Proof.
  induction s as [|c s IH]; intros H; cbn; [by repeat constructor|]. apply Forall_cons in H as [Hc H].
  split_ifs; [constructor; [constructor|auto]|]. specialize (IH H).
  destruct (Split s sep) as [|h t] eqn:E2; [by apply Split_nonempty in E2|].
  apply Forall_cons in IH as [Hh Ht]. constructor; [by constructor|done].
Qed.

(** ** Package strconv *)

(** Decimal digits of [n >= 0], least significant last; [fuel] bounds the
    number of digits. *)
Fixpoint digits (fuel : nat) (n : Z) (acc : bytes) : bytes :=
  match fuel with
  | O => acc
  | S fuel =>
      let acc := (0x30 + n mod 10) :: acc in
      if n / 10 =? 0 then acc else digits fuel (n / 10) acc
  end.

(** [strconv.Itoa] and [strconv.FormatInt(_, 10)].  A number below [2^(k+1)]
    has at most [k + 1] decimal digits, which gives the fuel. *)
Definition Itoa (n : Z) : bytes :=
  let d m := digits (S (Z.to_nat (Z.log2 m))) m [] in
  if n <? 0 then 0x2d :: d (- n) else d n.

Definition isDigit (c : Z) : bool := (0x30 <=? c) && (c <=? 0x39).

Fixpoint parseDigits (acc : Z) (s : bytes) : option Z :=
  match s with
  | [] => Some acc
  | c :: s => if isDigit c then parseDigits (acc * 10 + (c - 0x30)) s else None
  end.

(** [strconv.Atoi] and [strconv.ParseInt(_, 10, 64)] on a 64-bit target: an
    optional sign, one or more digits, the value in the range of [int64]. *)
Definition Atoi (s : bytes) : option Z :=
  let '(neg, ds) := match s with
                    | 0x2d :: r => (true, r)
                    | 0x2b :: r => (false, r)
                    | _ => (false, s)
                    end in
  match ds with
  | [] => None
  | _ => n ← parseDigits 0 ds;
         let v := if neg : bool then - n else n in
         if decide (in_i64 v) then Some v else None
  end.

(** What package strconv returns besides the error: 0 for what is not a number,
    else the nearest 64-bit number. *)
Fixpoint uintValue (acc : Z) (s : bytes) : Z :=
  match s with
  | [] => acc
  | c :: s =>
      if isDigit c then
        let n := acc * 10 + (c - 0x30) in if n >? 2 ^ 64 - 1 then 2 ^ 64 - 1 else uintValue n s
      else 0
  end.

Definition AtoiValue (s : bytes) : Z :=
  match s with
  | 0x2d :: s => - Z.min (uintValue 0 s) (2 ^ 63)
  | 0x2b :: s => Z.min (uintValue 0 s) maxInt64
  | _ => Z.min (uintValue 0 s) maxInt64
  end.

(** *** Itoa and Atoi are inverse on the 64-bit range *)

Lemma digit_isDigit n : isDigit (0x30 + n mod 10) = true.
Proof. unfold isDigit. pose proof (Z.mod_pos_bound n 10). lia. Qed.

Lemma parseDigits_digits fuel n acc a :
  0 <= n → (Z.log2 n < Z.of_nat fuel)%Z → (n = 0 → (0 < fuel)%nat) →
  ∃ k, 0 <= k ∧ parseDigits a (digits fuel n acc) = parseDigits (a * 10 ^ k + n) acc.
Proof.
  revert n acc a. induction fuel as [|fuel IH]; intros n acc a Hn Hf H0.
  - destruct (decide (n = 0)) as [->|]; [specialize (H0 eq_refl); lia|].
    pose proof (Z.log2_nonneg n). lia.
  - simpl. pose proof (Z.div_mod n 10 ltac:(lia)) as Hdm.
    pose proof (Z.mod_pos_bound n 10 ltac:(lia)).
    destruct (Z.eqb_spec (n / 10) 0) as [Hq|Hq].
    + exists 1. split; [lia|]. simpl. rewrite digit_isDigit. f_equal. lia.
    + assert (0 < n / 10) by (pose proof (Z.div_pos n 10); lia).
      assert (Z.log2 (n / 10) < Z.log2 n).
      { assert (n / 10 <= n / 2) by (apply Z.div_le_compat_l; lia).
        assert (Z.log2 (n / 10) <= Z.log2 (n / 2)) by (apply Z.log2_le_mono; lia).
        assert (Z.log2 (n / 2) = Z.log2 n - 1).
        { rewrite <- Z.div2_div, Z.div2_spec, Z.log2_shiftr by lia.
          pose proof (Z.log2_pos n). lia. }
        lia. }
      destruct (IH (n / 10) ((0x30 + n mod 10) :: acc) a) as (k & Hk & ->); [lia..|].
      exists (k + 1). split; [lia|]. simpl. rewrite digit_isDigit. f_equal.
      rewrite Z.pow_add_r, Z.pow_1_r by lia. lia.
Qed.

Lemma digits_nonempty fuel n acc :
  acc ≠ [] ∨ (0 < fuel)%nat → digits fuel n acc ≠ [].
Proof.
  revert n acc. induction fuel as [|fuel IH]; intros n acc [H|H]; simpl; try done; try lia.
  all: destruct (_ =? 0); [done|]; apply IH; by left.
Qed.

Lemma digits_isDigit fuel n acc :
  Forall (λ c, isDigit c = true) acc → Forall (λ c, isDigit c = true) (digits fuel n acc).
Proof.
  revert n acc. induction fuel as [|fuel IH]; intros n acc H; simpl; [done|].
  assert (Forall (λ c, isDigit c = true) ((0x30 + n mod 10) :: acc)).
  { constructor; [apply digit_isDigit|done]. }
  destruct (_ =? 0); auto.
Qed.

Lemma digits_head fuel n :
  (0 < fuel)%nat → ∃ c r, digits fuel n [] = c :: r ∧ isDigit c = true.
Proof.
  intros Hf. destruct (digits fuel n []) as [|c r] eqn:E.
  - exfalso. by apply (digits_nonempty fuel n []); [right|].
  - exists c, r. split; [done|].
    pose proof (digits_isDigit fuel n [] ltac:(constructor)) as H. rewrite E in H.
    by inversion H.
Qed.

Lemma parseDigits_digits_full n :
  0 <= n → parseDigits 0 (digits (S (Z.to_nat (Z.log2 n))) n []) = Some n.
Proof.
  intros Hn. pose proof (Z.log2_nonneg n).
  destruct (parseDigits_digits (S (Z.to_nat (Z.log2 n))) n [] 0) as (k & ? & ->); [lia..|].
  done.
Qed.

Lemma Atoi_Itoa n : in_i64 n → Atoi (Itoa n) = Some n.
Proof.
  intros Hn. unfold Itoa. destruct (Z.ltb_spec n 0).
  - unfold Atoi. destruct (digits_head (S (Z.to_nat (Z.log2 (- n)))) (- n)) as (c & r & E & Hc); [lia|].
    pose proof (parseDigits_digits_full (- n) ltac:(lia)) as Hp. rewrite E in Hp |- *.
    rewrite Hp. simpl. rewrite Z.opp_involutive. by rewrite decide_True.
  - destruct (digits_head (S (Z.to_nat (Z.log2 n))) n) as (c & r & E & Hc); [lia|].
    pose proof (parseDigits_digits_full n ltac:(lia)) as Hp. rewrite E in Hp |- *.
    unfold Atoi. assert (c ≠ 0x2d ∧ c ≠ 0x2b) as [??] by (unfold isDigit in Hc; lia).
    repeat case_match; simplify_eq; try done; try rewrite Hp; simpl; by rewrite decide_True.
Qed.

Lemma Itoa_digits n : 0 <= n → Itoa n ≠ [] ∧ Forall (λ c, isDigit c = true) (Itoa n).
Proof.
  intros Hn. unfold Itoa. destruct (Z.ltb_spec n 0); [lia|]. split.
  - apply digits_nonempty. right. lia.
  - by apply digits_isDigit.
Qed.

Lemma Itoa_inj m n : 0 <= m → 0 <= n → Itoa m = Itoa n → m = n.
Proof.
  intros Hm Hn. unfold Itoa. destruct (Z.ltb_spec m 0), (Z.ltb_spec n 0); [lia..|]. intros E.
  pose proof (parseDigits_digits_full m Hm) as H1. rewrite E, parseDigits_digits_full in H1 by done. by injection H1 as ->.
Qed.

Lemma Itoa_wf n : wf_bytes (Itoa n).
Proof.
  assert (∀ f m, wf_bytes (digits f m [])) as H.
  { intros f m. eapply Forall_impl; [apply digits_isDigit; constructor|]. unfold isDigit, is_byte. intros c. lia. }
  unfold Itoa. destruct (n <? 0); [|apply H]. constructor; [done|apply H].
Qed.

Lemma parseDigits_le s : ∀ acc n, 0 <= acc → parseDigits acc s = Some n → acc <= n.
Proof.
  induction s as [|c s IH]; intros acc n Ha; simpl; [intros [= <-]; lia|].
  destruct (isDigit c) eqn:Hc; [|done]. unfold isDigit in Hc. intros Hn%IH; lia.
Qed.

Lemma uintValue_parse s : ∀ acc n,
  0 <= acc <= 2 ^ 64 - 1 → parseDigits acc s = Some n → uintValue acc s = Z.min n (2 ^ 64 - 1).
Proof.
  induction s as [|c s IH]; intros acc n Ha; simpl; [intros [= <-]; lia|].
  destruct (isDigit c) eqn:Hc; [|done]. unfold isDigit in Hc. intros Hp.
  destruct (Z.gtb_spec (acc * 10 + (c - 0x30)) (2 ^ 64 - 1)); [|apply IH; [lia|done]].
  apply parseDigits_le in Hp; lia.
Qed.

(** On a number of 64 bits the value is the number. *)
Lemma AtoiValue_Atoi s n : Atoi s = Some n → AtoiValue s = n.
Proof.
  assert (AtoiValue s = let '(neg, ds) := match s with
                                          | 0x2d :: r => (true, r)
                                          | 0x2b :: r => (false, r)
                                          | _ => (false, s)
                                          end in
          if neg : bool then - Z.min (uintValue 0 ds) (2 ^ 63) else Z.min (uintValue 0 ds) maxInt64) as ->.
  { unfold AtoiValue. repeat case_match; by simplify_eq. }
  unfold Atoi. destruct (match s with 0x2d :: r => _ | _ => _ end) as [neg ds].
  destruct ds as [|d ds']; [done|]. remember (d :: ds') as ds eqn:E. clear E.
  intros (m & Hm & Hv)%bind_Some. case_decide as Hi; simplify_eq.
  rewrite (uintValue_parse ds 0 m) by (lia || done). unfold in_i64, maxInt64 in *.
  apply parseDigits_le in Hm; [|lia]. destruct neg; lia.
Qed.

(** ** Package unicode/utf8 *)

Definition RuneSelf : Z := 0x80.
Definition RuneError : Z := 0xFFFD.

Definition valid_rune (r : Z) : Prop := 0 <= r < 0xD800 ∨ 0xE000 <= r <= 0x10FFFF.

#[global] Instance valid_rune_dec r : Decision (valid_rune r).
Proof. unfold valid_rune. apply _. Defined.

Definition in_range (lo b hi : Z) : bool := (lo <=? b) && (b <=? hi).

(** Bounds of the second byte of a sequence, by its first byte. *)
Definition accept_lo (b0 : Z) : Z :=
  if b0 =? 0xE0 then 0xA0 else if b0 =? 0xF0 then 0x90 else 0x80.
Definition accept_hi (b0 : Z) : Z :=
  if b0 =? 0xED then 0x9F else if b0 =? 0xF4 then 0x8F else 0xBF.

(** [utf8.DecodeRuneInString]: the first rune and its width; [RuneError] of
    width 1 for an invalid encoding, of width 0 for the empty string. *)
Definition DecodeRune (s : bytes) : Z * nat :=
  match s with
  | [] => (RuneError, O)
  | b0 :: t =>
      if b0 <? 0x80 then (b0, 1%nat)
      else if in_range 0xC2 b0 0xDF then
        match t with
        | b1 :: _ =>
            if in_range 0x80 b1 0xBF then ((b0 - 0xC0) * 0x40 + (b1 - 0x80), 2%nat)
            else (RuneError, 1%nat)
        | _ => (RuneError, 1%nat)
        end
      else if in_range 0xE0 b0 0xEF then
        match t with
        | b1 :: b2 :: _ =>
            if in_range (accept_lo b0) b1 (accept_hi b0) && in_range 0x80 b2 0xBF
            then ((b0 - 0xE0) * 0x1000 + (b1 - 0x80) * 0x40 + (b2 - 0x80), 3%nat)
            else (RuneError, 1%nat)
        | _ => (RuneError, 1%nat)
        end
      else if in_range 0xF0 b0 0xF4 then
        match t with
        | b1 :: b2 :: b3 :: _ =>
            if in_range (accept_lo b0) b1 (accept_hi b0) && in_range 0x80 b2 0xBF
               && in_range 0x80 b3 0xBF
            then ((b0 - 0xF0) * 0x40000 + (b1 - 0x80) * 0x1000 + (b2 - 0x80) * 0x40
                  + (b3 - 0x80), 4%nat)
            else (RuneError, 1%nat)
        | _ => (RuneError, 1%nat)
        end
      else (RuneError, 1%nat)
  end.

(** [utf8.AppendRune] and [utf8.EncodeRune]: a rune that is not a Unicode
    scalar value is encoded as U+FFFD. *)
Definition encode3 (r : Z) : bytes :=
  [0xE0 + r / 0x1000; 0x80 + (r / 0x40) mod 0x40; 0x80 + r mod 0x40].

Definition EncodeRune (r : Z) : bytes :=
  if in_range 0 r 0x7F then [r]
  else if in_range 0x80 r 0x7FF then [0xC0 + r / 0x40; 0x80 + r mod 0x40]
  else if in_range 0x800 r 0xD7FF || in_range 0xE000 r 0xFFFF then encode3 r
  else if in_range 0x10000 r 0x10FFFF then
    [0xF0 + r / 0x40000; 0x80 + (r / 0x1000) mod 0x40; 0x80 + (r / 0x40) mod 0x40;
     0x80 + r mod 0x40]
  else encode3 RuneError.

(** [for _, r := range s]: the runes of a string, each with its bytes. *)
Fixpoint runes_fuel (fuel : nat) (s : bytes) : list (Z * bytes) :=
  match fuel, s with
  | S fuel, _ :: _ =>
      let '(r, n) := DecodeRune s in (r, take n s) :: runes_fuel fuel (drop n s)
  | _, _ => []
  end.

Definition runes (s : bytes) : list (Z * bytes) := runes_fuel (length s) s.

(** *** Decoding and encoding *)

Lemma DecodeRune_size s : s ≠ [] → (1 ≤ (DecodeRune s).2 ≤ length s)%nat.
Proof.
  intros Hs. unfold DecodeRune. destruct s as [|b0 [|b1 [|b2 [|b3 t]]]]; [done|..];
    repeat case_match; simpl; lia.
Qed.

Lemma DecodeRune_ascii b s : b < RuneSelf → DecodeRune (b :: s) = (b, 1%nat).
Proof. unfold RuneSelf. intros H. unfold DecodeRune. by rewrite (proj2 (Z.ltb_lt _ _) H). Qed.

(** A rune decoded from more than one byte is the encoding of a scalar value. *)
Lemma EncodeRune_DecodeRune s r n :
  wf_bytes s → DecodeRune s = (r, n) → (1 < n)%nat →
  EncodeRune r = take n s ∧ valid_rune r ∧ RuneSelf <= r.
Proof.
  intros Hwf HD Hn. unfold DecodeRune, RuneError in HD.
  destruct s as [|b0 t]; [simplify_eq; lia|].
  destruct (b0 <? 0x80) eqn:E0; [simplify_eq; lia|].
  unfold in_range, accept_lo, accept_hi in HD.
  repeat case_match; simplify_eq; try lia;
    unfold EncodeRune, encode3, in_range, valid_rune, RuneSelf, is_byte in *; simpl;
    decompose_Forall_hyps;
    (split; [split_ifs; try (exfalso; dlia); repeat f_equal; dlia | lia]).
Qed.

Lemma DecodeRune_EncodeRune r t :
  valid_rune r → DecodeRune (EncodeRune r ++ t) = (r, length (EncodeRune r)).
Proof.
  unfold valid_rune. intros Hr. unfold EncodeRune, encode3, in_range. split_ifs; cbn [app length];
    unfold DecodeRune, in_range, accept_lo, accept_hi; cbn [app length]; try (exfalso; lia);
    split_ifs; try (exfalso; dlia); f_equal; dlia.
Qed.

Lemma EncodeRune_wf r : wf_bytes (EncodeRune r).
Proof.
  unfold EncodeRune, encode3, in_range. split_ifs; repeat constructor; unfold is_byte, RuneError;
    dlia.
Qed.

Lemma EncodeRune_length r : (1 ≤ length (EncodeRune r) ≤ 4)%nat.
Proof. unfold EncodeRune, encode3. split_ifs; simpl; lia. Qed.

(** *** Iteration of runes *)

Lemma runes_fuel_enough f s : (length s ≤ f)%nat → runes_fuel f s = runes s.
Proof.
  unfold runes. remember (length s) as n eqn:Hn. revert f s Hn.
  induction n as [n IH] using lt_wf_ind. intros f s -> Hf.
  destruct s as [|b s]; [by destruct f|].
  destruct f as [|f]; [simpl in Hf; lia|].
  change (length (b :: s)) with (S (length s)). unfold runes_fuel; fold runes_fuel.
  pose proof (DecodeRune_size (b :: s) ltac:(done)) as Hsz.
  destruct (DecodeRune (b :: s)) as [r n]. simpl in Hsz.
  assert (length (drop n (b :: s)) < S (length s))%nat.
  { rewrite length_drop. simpl. lia. }
  f_equal. rewrite (IH (length (drop n (b :: s)))) by (simpl in *; lia).
  symmetry. apply (IH (length (drop n (b :: s)))); simpl in *; lia.
Qed.

Lemma runes_nil : runes [] = [].
Proof. done. Qed.

Lemma runes_cons s :
  s ≠ [] → runes s = ((DecodeRune s).1, take (DecodeRune s).2 s) :: runes (drop (DecodeRune s).2 s).
Proof.
  intros Hs. destruct s as [|b s]; [done|].
  pose proof (DecodeRune_size (b :: s) Hs) as Hsz.
  unfold runes at 1. change (length (b :: s)) with (S (length s)). unfold runes_fuel; fold runes_fuel.
  destruct (DecodeRune (b :: s)) as [r n]. simpl in *. f_equal.
  apply runes_fuel_enough. rewrite length_drop. simpl. lia.
Qed.

Lemma runes_ascii b s : b < RuneSelf → runes (b :: s) = (b, [b]) :: runes s.
Proof. intros H. rewrite runes_cons, DecodeRune_ascii by done. done. Qed.

Lemma runes_encode r t : valid_rune r → runes (EncodeRune r ++ t) = (r, EncodeRune r) :: runes t.
Proof.
  intros Hr. pose proof (EncodeRune_length r).
  rewrite runes_cons by (destruct (EncodeRune r); simpl in *; [lia|done]).
  rewrite DecodeRune_EncodeRune by done. simpl.
  by rewrite take_app_length, drop_app_length.
Qed.

(** Induction on a string rune by rune. *)
Lemma runes_ind (P : bytes → Prop) :
  P [] → (∀ s, s ≠ [] → P (drop (DecodeRune s).2 s) → P s) → ∀ s, P s.
Proof.
  intros H0 H1 s. remember (length s) as n eqn:Hn. revert s Hn.
  induction n as [n IH] using lt_wf_ind. intros s ->.
  destruct (decide (s = [])) as [->|Hs]; [done|]. apply H1; [done|].
  eapply IH; [|reflexivity]. pose proof (DecodeRune_size s Hs). rewrite length_drop. lia.
Qed.

Lemma runes_concat s : concat (runes s).*2 = s.
Proof.
  induction s as [|s Hs IH] using runes_ind; [done|].
  rewrite runes_cons by done. csimpl. rewrite IH. apply take_drop.
Qed.

(** ** Package unicode *)

(** [unicode.ToLower] and [unicode.ToUpper] on runes.  The tables are those of
    the Unicode standard; what is used of them is their restriction to ASCII,
    that they map scalar values to scalar values, that U+FFFD has no case, and
    that lower case is stable. *)
Class Unicode := {
  uniLower : Z → Z;
  uniUpper : Z → Z;
  uniLower_ascii r : 0 <= r < RuneSelf → uniLower r = if in_range 0x41 r 0x5A then r + 0x20 else r;
  uniUpper_ascii r : 0 <= r < RuneSelf → uniUpper r = if in_range 0x61 r 0x7A then r - 0x20 else r;
  uniLower_valid r : valid_rune r → valid_rune (uniLower r);
  uniUpper_valid r : valid_rune r → valid_rune (uniUpper r);
  uniLower_error : uniLower RuneError = RuneError;
  uniUpper_error : uniUpper RuneError = RuneError;
  uniLower_idem r : uniLower (uniLower r) = uniLower r;
}.

(** The runes of a string: an ASCII byte, an invalid byte read as U+FFFD, or
    the encoding of a rune that is not ASCII. *)
Inductive rune_of : Z * bytes → Prop :=
| rune_ascii b : 0 <= b < RuneSelf → rune_of (b, [b])
| rune_invalid b : RuneSelf <= b < 256 → rune_of (RuneError, [b])
| rune_valid r b : valid_rune r → RuneSelf <= r → EncodeRune r = b → (1 < length b)%nat → rune_of (r, b).

Lemma runes_of s : wf_bytes s → Forall rune_of (runes s).
Proof.
  induction s as [|s Hs IH] using runes_ind; [constructor|]. intros Hwf. rewrite runes_cons by done.
  constructor; [|apply IH; by apply Forall_drop].
  destruct (DecodeRune s) as [r n] eqn:E. pose proof (DecodeRune_size s Hs) as Hsz. rewrite E in Hsz. cbn in *.
  destruct (decide (1 < n)%nat) as [Hn|Hn].
  - destruct (EncodeRune_DecodeRune s r n Hwf E Hn) as (? & ? & ?). apply rune_valid; [done|done|done|].
    rewrite length_take. lia.
  - assert (n = 1%nat) as -> by lia. destruct s as [|b s]; [done|]. apply Forall_cons in Hwf as [Hb _].
    unfold is_byte in Hb. cbn [take]. rewrite take_0. destruct (decide (b < RuneSelf)) as [Hlt|Hge].
    + rewrite DecodeRune_ascii in E by done. injection E as <-. apply rune_ascii. lia.
    + unfold DecodeRune in E. unfold RuneSelf in *. replace (b <? 0x80) with false in E by lia.
      repeat case_match; simplify_eq; apply rune_invalid; unfold RuneSelf; lia.
Qed.

(** ** compressWhitespace *)

(** [unicode.IsSpace]: the White_Space property. *)
Definition IsSpace (r : Z) : bool :=
  in_range 0x09 r 0x0D || (r =? 0x20) || (r =? 0x85) || (r =? 0xA0) || (r =? 0x1680)
  || in_range 0x2000 r 0x200A || (r =? 0x2028) || (r =? 0x2029) || (r =? 0x202F)
  || (r =? 0x205F) || (r =? 0x3000).

(** [strings.TrimSpace]; the last rune of a string is the one whose encoding
    ends it. *)
Definition spaceRunes : list Z :=
  seqZ 0x09 5 ++ [0x20; 0x85; 0xA0; 0x1680] ++ seqZ 0x2000 11 ++ [0x2028; 0x2029; 0x202F; 0x205F; 0x3000].

Fixpoint trimLeftSpaces (fuel : nat) (s : bytes) : bytes :=
  match fuel, s with
  | S fuel, _ :: _ =>
      let '(r, n) := DecodeRune s in if IsSpace r then trimLeftSpaces fuel (drop n s) else s
  | _, _ => s
  end.

Fixpoint trimRightSpaces (fuel : nat) (s : bytes) : bytes :=
  match fuel with
  | O => s
  | S fuel =>
      match list_find (λ r, HasSuffix s (EncodeRune r) = true) spaceRunes with
      | Some (_, r) => trimRightSpaces fuel (take (length s - length (EncodeRune r)) s)
      | None => s
      end
  end.

Definition TrimSpace (s : bytes) : bytes :=
  let s := trimLeftSpaces (length s) s in trimRightSpaces (length s) s.

(** [strings.Map]: a negative result drops the rune; an invalid byte reads as
    U+FFFD and is written as its encoding. *)
Definition MapRunes (f : Z → Z) (s : bytes) : bytes :=
  flat_map (λ rb : Z * bytes, let r := f rb.1 in if r <? 0 then [] else EncodeRune r) (runes s).

(** [strings.ToLower] and [strings.ToUpper]. *)
Definition ToLower `{Unicode} (s : bytes) : bytes := MapRunes uniLower s.
Definition ToUpper `{Unicode} (s : bytes) : bytes := MapRunes uniUpper s.

(** A table that covers ASCII and the letters of Latin-1, for evaluating the
    model on concrete inputs. *)
Definition latin1Lower (r : Z) : Z :=
  if in_range 0x41 r 0x5A || (in_range 0xC0 r 0xDE && negb (r =? 0xD7)) then r + 0x20 else r.
Definition latin1Upper (r : Z) : Z :=
  if in_range 0x61 r 0x7A || (in_range 0xE0 r 0xFE && negb (r =? 0xF7)) then r - 0x20 else r.

Definition latin1 : Unicode.
Proof.
  refine {| uniLower := latin1Lower; uniUpper := latin1Upper |};
    unfold latin1Lower, latin1Upper, in_range, valid_rune, RuneSelf, RuneError;
    intros; split_ifs; lia.
Defined.

Lemma MapRunes_nil f : MapRunes f [] = [].
Proof. done. Qed.

Lemma MapRunes_cons f s :
  s ≠ [] →
  MapRunes f s = (let r := f (DecodeRune s).1 in if r <? 0 then [] else EncodeRune r)
                   ++ MapRunes f (drop (DecodeRune s).2 s).
Proof. intros Hs. unfold MapRunes. by rewrite runes_cons. Qed.

Lemma DecodeRune_valid s : wf_bytes s → s ≠ [] → valid_rune (DecodeRune s).1.
Proof.
  intros Hwf Hs. destruct (DecodeRune s) as [r n] eqn:E. simpl.
  destruct (decide (1 < n)%nat) as [Hn|Hn].
  - by destruct (EncodeRune_DecodeRune s r n Hwf E Hn) as (_ & ? & _).
  - destruct s as [|b s]; [done|]. inversion Hwf as [|?? Hb _]; subst.
    unfold DecodeRune in E. unfold is_byte in Hb. unfold valid_rune, RuneError in *.
    repeat case_match; simplify_eq; lia.
Qed.

(** Mapping twice is mapping once, for functions on scalar values. *)
Lemma MapRunes_MapRunes f g s :
  wf_bytes s → (∀ r, valid_rune r → valid_rune (f r)) →
  MapRunes g (MapRunes f s) = MapRunes (λ r, g (f r)) s.
Proof.
  intros Hwf Hf. induction s as [|s Hs IH] using runes_ind; [done|].
  rewrite !(MapRunes_cons _ s) by done. simpl.
  pose proof (Hf _ (DecodeRune_valid s Hwf Hs)) as Hv.
  assert ((f (DecodeRune s).1 <? 0) = false) as -> by (unfold valid_rune in Hv; lia).
  unfold MapRunes at 1. rewrite runes_encode by done. simpl. f_equal.
  apply IH. by apply Forall_drop.
Qed.

Lemma MapRunes_ext f g s :
  wf_bytes s → (∀ r, valid_rune r → f r = g r) → MapRunes f s = MapRunes g s.
Proof.
  intros Hwf Hfg. induction s as [|s Hs IH] using runes_ind; [done|].
  rewrite !(MapRunes_cons _ s) by done. simpl.
  rewrite (Hfg _ (DecodeRune_valid s Hwf Hs)). f_equal.
  apply IH. by apply Forall_drop.
Qed.

Lemma MapRunes_wf f s : wf_bytes (MapRunes f s).
Proof.
  unfold MapRunes. induction (runes s) as [|[r b] l IH]; simpl; [constructor|].
  apply Forall_app. split; [|done]. destruct (_ <? 0); [constructor|apply EncodeRune_wf].
Qed.

Lemma ToLower_idem `{Unicode} s : wf_bytes s → ToLower (ToLower s) = ToLower s.
Proof.
  intros Hwf. unfold ToLower. rewrite MapRunes_MapRunes by (auto using uniLower_valid).
  apply MapRunes_ext; [done|]. intros. apply uniLower_idem.
Qed.

Lemma ToLower_nil `{Unicode} : ToLower [] = [].
Proof. done. Qed.

(** On ASCII strings case mapping is bytewise. *)
Definition lowerByte (c : Z) : Z := if in_range 0x41 c 0x5A then c + 0x20 else c.

Lemma ToLower_ascii `{Unicode} s :
  Forall (λ c, 0 <= c < RuneSelf) s → ToLower s = lowerByte <$> s.
Proof.
  induction 1 as [|c s Hc Hs IH]; [done|]. unfold ToLower, RuneSelf in *.
  rewrite MapRunes_cons by done. rewrite DecodeRune_ascii by (unfold RuneSelf; lia). simpl.
  rewrite drop_0, IH, uniLower_ascii by (unfold RuneSelf; lia).
  unfold lowerByte, EncodeRune, in_range. split_ifs; try lia; done.
Qed.

Definition upperByte (c : Z) : Z := if in_range 0x61 c 0x7A then c - 0x20 else c.

Lemma ToUpper_ascii `{Unicode} s :
  Forall (λ c, 0 <= c < RuneSelf) s → ToUpper s = upperByte <$> s.
Proof.
  induction 1 as [|c s Hc Hs IH]; [done|]. unfold ToUpper, RuneSelf in *.
  rewrite MapRunes_cons by done. rewrite DecodeRune_ascii by (unfold RuneSelf; lia). simpl.
  rewrite drop_0, IH, uniUpper_ascii by (unfold RuneSelf; lia).
  unfold upperByte, EncodeRune, in_range. split_ifs; try lia; done.
Qed.

Definition asciib (s : bytes) : bool := forallb (λ c, (0 <=? c) && (c <? RuneSelf)) s.

Lemma asciib_true s : asciib s = true → Forall (λ c, 0 <= c < RuneSelf) s.
Proof. induction s; simpl; constructor; unfold RuneSelf in *; [lia|]. apply IHs. lia. Qed.

Lemma ToLower_cons_ascii `{Unicode} c s :
  0 <= c < RuneSelf → ToLower (c :: s) = lowerByte c :: ToLower s.
Proof.
  intros Hc. unfold ToLower, RuneSelf in *. rewrite MapRunes_cons by done.
  rewrite DecodeRune_ascii by (unfold RuneSelf; lia). simpl.
  rewrite drop_0, uniLower_ascii by (unfold RuneSelf; lia).
  unfold lowerByte, EncodeRune, in_range. split_ifs; try lia; done.
Qed.

Lemma ToLower_nonempty `{Unicode} s : wf_bytes s → s ≠ [] → ToLower s ≠ [].
Proof.
  intros Hwf Hs. unfold ToLower. rewrite MapRunes_cons by done. cbv zeta.
  pose proof (uniLower_valid _ (DecodeRune_valid s Hwf Hs)) as Hv. unfold valid_rune in Hv.
  assert ((uniLower (DecodeRune s).1 <? 0) = false) as -> by lia.
  pose proof (EncodeRune_length (uniLower (DecodeRune s).1)) as Hl.
  destruct (EncodeRune _); simpl in *; [lia|done].
Qed.

(** Lower case is the same for strings with the same runes in lower case. *)
Lemma ToLower_wf `{Unicode} s : wf_bytes (ToLower s).
Proof. apply MapRunes_wf. Qed.

Lemma ReplaceByte_wf s c by_ : wf_bytes s → wf_bytes by_ → wf_bytes (ReplaceByte s c by_).
Proof.
  intros Hs Hb. induction Hs as [|x s Hx _ IH]; [constructor|]. cbn. apply Forall_app. split; [|done].
  destruct (x =? c); [done|]. by constructor.
Qed.
