(* ===== verification/StringUtil.v ===== *)
(** The string helpers of the engine: src/internal/strings/strings.go
    (hexadecimal digits, quotes, regular-expression delimiters),
    src/internal/url/url.go (query strings) and
    src/internal/cookies/cookies.go (the Cookie header).

    The parsers are translated as the loops of the source; their theorems say
    that a loop computes the reference definition "split the input, drop the
    empty pieces, cut each piece at the first [=], group by key in order of
    appearance". *)

From S2P Require Import Prelude GoLib.

(** ** internal/strings *)

Definition ValidHex (x : Z) : bool :=
  ((x >=? 0x30) && (x <=? 0x39)) || ((x >=? 0x61) && (x <=? 0x66))
  || ((x >=? 0x41) && (x <=? 0x46)).

Definition X2c (what : bytes) : run Z :=
  w0 ← index what 0;
  let digit := if w0 >=? 0x41 then u8 (u8 (Z.land w0 0xdf - 0x41) + 10)
               else u8 (w0 - 0x30) in
  let digit := u8 (digit * 16) in
  w1 ← index what 1;
  Done (if w1 >=? 0x41 then u8 (digit + u8 (u8 (Z.land w1 0xdf - 0x41) + 10))
        else u8 (digit + u8 (w1 - 0x30))).

Definition MaybeRemoveQuotes (s : bytes) : run bytes :=
  if (length s <? 2)%nat then Done s else
  s0 ← index s 0;
  if s0 =? 0x22 then
    last ← index s (length s - 1);
    if negb (last =? 0x22) then Done s else slice s 1 (length s - 1)
  else if s0 =? 0x27 then
    last ← index s (length s - 1);
    if negb (last =? 0x27) then Done s else slice s 1 (length s - 1)
  else Done s.

(** The loop of [UnescapeQuotedString] on the rest of its input. *)
Fixpoint unescapeQuoted (s : bytes) : bytes :=
  match s with
  | [] => []
  | c :: r =>
      match r with
      | d :: r' =>
          if (c =? 0x5c) && (d =? 0x22) then 0x22 :: unescapeQuoted r'
          else c :: unescapeQuoted r
      | [] => [c]
      end
  end.

Definition UnescapeQuotedString (s : bytes) : bytes :=
  match IndexByte s 0x5c with None => s | Some _ => unescapeQuoted s end.

Fixpoint InSlice (a : bytes) (l : list bytes) : bool :=
  match l with
  | [] => false
  | b :: l => if b =s a then true else InSlice a l
  end.

(** The loop of [HasRegex] that counts the backslashes before position [i+1],
    going down from [i]. *)
Fixpoint countBackslashes (s : bytes) (i : nat) : nat :=
  match s !! i with
  | Some c => if c =? 0x5c then S (match i with O => O | S j => countBackslashes s j end) else O
  | None => O
  end.

Definition HasRegex (s : bytes) : run (bool * bytes) :=
  if (length s <? 2)%nat then Done (false, s) else
  s0 ← index s 0;
  if negb (s0 =? 0x2f) then Done (false, s) else
  let lastIdx := (length s - 1)%nat in
  last ← index s lastIdx;
  if negb (last =? 0x2f) then Done (false, s) else
  if (lastIdx =? 1)%nat then Done (true, []) else
  if Nat.even (countBackslashes s (lastIdx - 1))
  then p ← slice s 1 lastIdx; Done (true, p)
  else Done (false, s).

(** ** internal/url *)

Definition hexDigitToByte (digit : Z) : option Z :=
  if (digit >=? 0x30) && (digit <=? 0x39) then Some (u8 (digit - 0x30))
  else if (digit >=? 0x61) && (digit <=? 0x66) then Some (u8 (u8 (digit - 0x61) + 10))
  else if (digit >=? 0x41) && (digit <=? 0x46) then Some (u8 (u8 (digit - 0x41) + 10))
  else None.

(** The loop of [queryUnescape] on the rest of its input. *)
Fixpoint unescapeLoop (s : bytes) : bytes :=
  match s with
  | [] => []
  | ci :: r =>
      if ci =? 0x2b then 0x20 :: unescapeLoop r
      else if ci =? 0x25 then
        match r with
        | d1 :: d2 :: r' =>
            match hexDigitToByte d1 with
            | None => ci :: unescapeLoop r
            | Some hi =>
                match hexDigitToByte d2 with
                | None => ci :: unescapeLoop r
                | Some lo => Z.lor (u8 (Z.shiftl hi 4)) lo :: unescapeLoop r'
                end
            end
        | _ => ci :: unescapeLoop r
        end
      else ci :: unescapeLoop r
  end.

Definition queryUnescape (input : bytes) : bytes :=
  match IndexAny input [0x25; 0x2b] with
  | None => input
  | Some start => take start input ++ unescapeLoop (drop start input)
  end.

(** [m[key] = append(m[key], value)] *)
Definition appendValue (m : gmap bytes (list bytes)) (key value : bytes) : gmap bytes (list bytes) :=
  <[key := default [] (m !! key) ++ [value]]> m.

(** One iteration of the loop of [doParseQuery]. *)
Definition parseQueryStep (separator : Z) (urlUnescape : bool)
    (st : bytes * gmap bytes (list bytes)) : run (bytes * gmap bytes (list bytes)) :=
  let '(query, m) := st in
  let key := query in
  '(key, query) ←
    match IndexByte key separator with
    | Some i => k ← slice key 0 i; q ← slice key (i + 1) (length key); Done (k, q)
    | None => Done (key, [])
    end;
  if key =s [] then Done (query, m) else
  let value := [] in
  '(key, value) ←
    match IndexByte key 0x3d with
    | Some i => k ← slice key 0 i; v ← slice key (i + 1) (length key); Done (k, v)
    | None => Done (key, value)
    end;
  let '(key, value) :=
    if urlUnescape then (queryUnescape key, queryUnescape value) else (key, value) in
  Done (query, appendValue m key value).

(** Every iteration consumes at least one byte of the query: [length query]
    iterations are enough. *)
Definition doParseQuery (query : bytes) (separator : Z) (urlUnescape : bool)
    : run (gmap bytes (list bytes)) :=
  '(_, m) ← loop (S (length query)) (λ st, negb (st.1 =s [])) (parseQueryStep separator urlUnescape)
              (query, ∅);
  Done m.

Definition ParseQuery (query : bytes) (separator : Z) : run (gmap bytes (list bytes)) :=
  doParseQuery query separator true.

(** ** internal/cookies *)

Definition parseCookieStep (st : bytes * gmap bytes (list bytes)) : run (bytes * gmap bytes (list bytes)) :=
  let '(rawCookies, cookies) := st in
  let '(part, rawCookies, _) := Cut rawCookies 0x3b in
  let part := TrimString part in
  if part =s [] then Done (rawCookies, cookies) else
  let '(name, val, _) := Cut part 0x3d in
  let name := TrimString name in
  if name =s [] then Done (rawCookies, cookies) else
  Done (rawCookies, appendValue cookies name val).

Definition ParseCookies (rawCookies : bytes) : run (gmap bytes (list bytes)) :=
  let rawCookies := TrimString rawCookies in
  if rawCookies =s [] then Done ∅ else
  '(_, cookies) ← loop (S (length rawCookies)) (λ st, (0 <? length st.1)%nat) parseCookieStep
                    (rawCookies, ∅);
  Done cookies.

(** ** Reference definitions *)

(** The pieces of [s] between separators. *)
Fixpoint split_on (sep : Z) (s : bytes) : list bytes :=
  match s with
  | [] => [[]]
  | x :: r =>
      if x =? sep then [] :: split_on sep r
      else match split_on sep r with p :: ps => (x :: p) :: ps | [] => [[x]] end
  end.

(** Key and value of a piece: cut at the first [=]. *)
Definition key_value (p : bytes) : bytes * bytes := let '(k, v, _) := Cut p 0x3d in (k, v).

Definition query_pairs (sep : Z) (urlUnescape : bool) (query : bytes) : list (bytes * bytes) :=
  (λ p, let '(k, v) := key_value p in
        if urlUnescape then (queryUnescape k, queryUnescape v) else (k, v))
  <$> filter (λ p, p ≠ []) (split_on sep query).

Definition cookie_pairs (raw : bytes) : list (bytes * bytes) :=
  filter (λ kv : bytes * bytes, kv.1 ≠ [])
    ((λ p, let '(k, v) := key_value (TrimString p) in (TrimString k, v))
       <$> split_on 0x3b raw).

(** Grouping of pairs by key, in order. *)
Definition group (m : gmap bytes (list bytes)) (l : list (bytes * bytes)) : gmap bytes (list bytes) :=
  foldl (λ m kv, appendValue m kv.1 kv.2) m l.

Lemma group_lookup m l k :
  group m l !! k =
    match (filter (λ kv : bytes * bytes, kv.1 = k) l).*2 with
    | [] => m !! k
    | vs => Some (default [] (m !! k) ++ vs)
    end.
Proof.
  unfold group. revert m. induction l as [|[k' v] l IH]; intros m; [done|].
  csimpl. rewrite IH, filter_cons. unfold appendValue. simpl.
  destruct (decide (k' = k)) as [->|Hne].
  - rewrite lookup_insert_eq. csimpl.
    destruct (filter _ l).*2; simpl; [done|]. by rewrite <- app_assoc.
  - by rewrite lookup_insert_ne.
Qed.

(** Every key of the grouping has exactly the values given for it, in order. *)
Lemma group_values l k :
  default [] (group ∅ l !! k) = (filter (λ kv : bytes * bytes, kv.1 = k) l).*2.
Proof.
  rewrite group_lookup, lookup_empty. by destruct (filter _ l).*2.
Qed.

Lemma IndexByte_Cut s c :
  Cut s c = match IndexByte s c with
            | Some i => (take i s, drop (S i) s, true)
            | None => (s, [], false)
            end.
Proof.
  induction s as [|x s IH]; simpl; [done|].
  destruct (x =? c); [done|]. rewrite IH. by destruct (IndexByte s c).
Qed.

Lemma split_on_Cut sep s :
  split_on sep s = let '(b, a, found) := Cut s sep in
                   if found : bool then b :: split_on sep a else [b].
Proof.
  induction s as [|x s IH]; simpl; [done|].
  destruct (x =? sep) eqn:E; [done|]. rewrite IH.
  destruct (Cut s sep) as [[b a] []]; done.
Qed.

(** The first step of both parsers: the piece before the separator. *)
Lemma cut_first {A} (s : bytes) c (k : bytes * bytes → run A) :
  ('(x, y) ← match IndexByte s c with
             | Some i => x ← slice s 0 i; y ← slice s (i + 1) (length s); Done (x, y)
             | None => Done (s, [])
             end; k (x, y)) = let '(b, a, _) := Cut s c in k (b, a).
Proof.
  rewrite IndexByte_Cut. destruct (IndexByte s c) as [i|] eqn:E; [|done].
  apply IndexByte_lt in E. rewrite !slice_ok by lia. simpl.
  rewrite Nat.sub_0_r, drop_0, Nat.add_1_r.
  by rewrite (take_ge (drop (S i) s)) by (rewrite length_drop; lia).
Qed.

Lemma parseQueryStep_eq sep u query m :
  parseQueryStep sep u (query, m) =
    let '(piece, rest, _) := Cut query sep in
    Done (rest, if piece =s [] then m
                else let '(k, v) := key_value piece in
                     if u then appendValue m (queryUnescape k) (queryUnescape v)
                     else appendValue m k v).
Proof.
  unfold parseQueryStep.
  rewrite (cut_first query sep (λ '(key, query), _)).
  destruct (Cut query sep) as [[piece rest] found].
  destruct (piece =s []); [done|].
  rewrite (cut_first piece 0x3d (λ '(key, value), _)).
  unfold key_value. destruct (Cut piece 0x3d) as [[k v] f]. by destruct u.
Qed.

(** ** Correctness of the parsers *)

Lemma query_pairs_Cut sep u query :
  query_pairs sep u query =
    let '(piece, rest, found) := Cut query sep in
    (if piece =s [] then []
     else [let '(k, v) := key_value piece in
           if u : bool then (queryUnescape k, queryUnescape v) else (k, v)])
    ++ (if found : bool then query_pairs sep u rest else []).
Proof.
  unfold query_pairs at 1. rewrite split_on_Cut.
  destruct (Cut query sep) as [[piece rest] found]. unfold bytes_eqb.
  destruct found; rewrite filter_cons; repeat case_decide; case_bool_decide; try done; naive_solver.
Qed.

Lemma query_pairs_nil sep u : query_pairs sep u [] = [].
Proof. done. Qed.

Lemma doParseQuery_eq query sep u :
  doParseQuery query sep u = Done (group ∅ (query_pairs sep u query)).
Proof.
  destruct (loop_total (λ st : bytes * gmap bytes (list bytes), negb (st.1 =s []))
              (parseQueryStep sep u)
              (λ st, group st.2 (query_pairs sep u st.1) = group ∅ (query_pairs sep u query))
              (λ st, length st.1))
    with (fuel := S (length query)) (s := (query, ∅ : gmap bytes (list bytes)))
    as ([q m] & Hl & HI & Hc); [|done|simpl; lia|].
  - intros [q m] HI Hc%negb_true_iff%bytes_eqb_neq. cbn [fst snd] in *.
    rewrite parseQueryStep_eq. rewrite query_pairs_Cut in HI.
    destruct (Cut q sep) as [[piece rest] found] eqn:E. eexists. split; [done|]. simpl.
    split; [|by eapply Cut_after_length].
    assert (found = false → rest = []) as Hrest.
    { intros ->. apply Cut_spec in E. by destruct E as [_ [_ ?]]. }
    rewrite <- HI. destruct (piece =s []); [|destruct (key_value piece); destruct u];
      (destruct found; [done|rewrite (Hrest eq_refl); done]).
  - unfold doParseQuery. rewrite Hl. simpl in *. apply negb_false_iff, bytes_eqb_eq in Hc. subst q.
    rewrite query_pairs_nil in HI. simpl in HI. by subst m.
Qed.

(** [doParseQuery] never panics, always terminates, and returns the
    grouping of the pairs of the query: every key maps to exactly its values,
    in the order in which they appear, and to nothing else. *)
Theorem doParseQuery_groups query sep u :
  ∃ m, doParseQuery query sep u = Done m ∧
       (∀ k, default [] (m !! k) = (filter (λ kv, kv.1 = k) (query_pairs sep u query)).*2).
Proof.
  rewrite doParseQuery_eq. eexists. split; [done|]. intros k. apply group_values.
Qed.

Lemma cookie_pairs_Cut raw :
  cookie_pairs raw =
    let '(piece, rest, found) := Cut raw 0x3b in
    (let '(k, v) := key_value (TrimString piece) in
     if TrimString k =s [] then [] else [(TrimString k, v)])
    ++ (if found : bool then cookie_pairs rest else []).
Proof.
  unfold cookie_pairs at 1. rewrite split_on_Cut.
  destruct (Cut raw 0x3b) as [[piece rest] found]. unfold bytes_eqb.
  destruct found; csimpl; destruct (key_value _); rewrite filter_cons;
    simpl; repeat case_decide; case_bool_decide; try done; naive_solver.
Qed.

Lemma ParseCookies_grouped raw :
  ∃ m, ParseCookies raw = Done m ∧
       (∀ k, default [] (m !! k) =
             (filter (λ kv, kv.1 = k) (cookie_pairs (TrimString raw))).*2).
Proof.
  unfold ParseCookies. destruct (TrimString raw =s []) eqn:E0.
  { apply bytes_eqb_eq in E0. rewrite E0. exists ∅. split; [done|]. intros k. by rewrite lookup_empty. }
  set (q0 := TrimString raw).
  destruct (loop_total (λ st : bytes * gmap bytes (list bytes), (0 <? length st.1)%nat)
              parseCookieStep
              (λ st, group st.2 (cookie_pairs st.1) = group ∅ (cookie_pairs q0))
              (λ st, length st.1))
    with (fuel := S (length q0)) (s := (q0, ∅ : gmap bytes (list bytes)))
    as ([q m] & Hl & HI & Hc); [|done|simpl; lia|].
  - intros [q m] HI Hc%Nat.ltb_lt. cbn [fst snd] in *.
    assert (q ≠ []) by (intros ->; simpl in Hc; lia).
    unfold parseCookieStep. rewrite cookie_pairs_Cut in HI. unfold key_value in HI.
    destruct (Cut q 0x3b) as [[piece rest] found] eqn:E.
    assert (length rest < length q)%nat by (by eapply Cut_after_length).
    assert (found = false → rest = []) as Hrest.
    { intros ->. apply Cut_spec in E. by destruct E as [_ [_ ?]]. }
    destruct (TrimString piece =s []) eqn:Ep.
    + apply bytes_eqb_eq in Ep. rewrite Ep in HI. eexists. split; [done|]. split; [|done].
      rewrite <- HI. simpl. destruct found; [done|by rewrite Hrest].
    + destruct (Cut (TrimString piece) 0x3d) as [[name val] f].
      destruct (TrimString name =s []); (eexists; split; [done|]; split; [|done]);
        rewrite <- HI; simpl; (destruct found; [done|by rewrite Hrest]).
  - rewrite Hl. simpl. exists m. split; [done|]. intros k.
    simpl in *. apply Nat.ltb_ge in Hc. destruct q; [|simpl in Hc; lia].
    unfold cookie_pairs in HI at 1. simpl in HI. subst m. apply group_values.
Qed.

(** [ParseCookies] never panics, always terminates, and maps every cookie
    name (trimmed, not empty) to exactly its values in order of appearance. *)
Theorem ParseCookies_groups raw :
  ∃ m, ParseCookies raw = Done m ∧
       (∀ k, default [] (m !! k) =
             (filter (λ kv, kv.1 = k) (cookie_pairs (TrimString raw))).*2).
Proof. apply ParseCookies_grouped. Qed.

(** ** Hexadecimal digits *)

Lemma ValidHex_hexDigit d :
  ValidHex d = match hexDigitToByte d with Some _ => true | None => false end.
Proof. unfold ValidHex, hexDigitToByte. split_ifs; lia. Qed.

Lemma hexDigit_range d h : hexDigitToByte d = Some h → is_byte d ∧ 0 <= h < 16.
Proof.
  unfold hexDigitToByte, u8, is_byte. split_ifs; intros; simplify_eq; dlia.
Qed.

Definition x2c_agrees (a b : Z) : bool :=
  match hexDigitToByte a, hexDigitToByte b with
  | Some h, Some l =>
      bool_decide (X2c [a; b] = Done (h * 16 + l))
      && (Z.lor (u8 (Z.shiftl h 4)) l =? h * 16 + l)
  | _, _ => true
  end.

Lemma hex_pair a b h l r :
  hexDigitToByte a = Some h → hexDigitToByte b = Some l →
  X2c (a :: b :: r) = Done (h * 16 + l) ∧ Z.lor (u8 (Z.shiftl h 4)) l = h * 16 + l.
Proof.
  intros Hh Hl.
  assert (x2c_agrees a b = true) as H.
  { apply forall_byte2; [by vm_compute|eapply hexDigit_range; eassumption..]. }
  unfold x2c_agrees in H. rewrite Hh, Hl in H.
  apply andb_true_iff in H as [H1%bool_decide_eq_true H2%Z.eqb_eq]. by split.
Qed.

(** On two hexadecimal digits, in either case, [X2c] returns the byte that
    they spell; it cannot wrap around. *)
Theorem X2c_spells a b h l r :
  hexDigitToByte a = Some h → hexDigitToByte b = Some l →
  X2c (a :: b :: r) = Done (h * 16 + l) ∧ is_byte (h * 16 + l).
Proof.
  intros Hh Hl. split; [by eapply hex_pair|].
  apply hexDigit_range in Hh, Hl. unfold is_byte. lia.
Qed.

(** The scan for the first escape does not change the result. *)
Lemma unescapeLoop_plain s :
  Forall (λ x, byte_in x [0x25; 0x2b] = false) s → ∀ t, unescapeLoop (s ++ t) = s ++ unescapeLoop t.
Proof.
  induction 1 as [|x s Hx Hs IH]; intros t; [done|]. unfold byte_in in Hx. simpl in Hx.
  assert ((x =? 0x2b) = false ∧ (x =? 0x25) = false) as [E1 E2] by lia.
  simpl. rewrite E1, E2. by rewrite IH.
Qed.

Lemma queryUnescape_eq s : queryUnescape s = unescapeLoop s.
Proof.
  unfold queryUnescape. destruct (IndexAny s _) as [i|] eqn:E.
  - apply IndexAny_Some in E as [_ E]. rewrite <- (take_drop i s) at 3. by rewrite unescapeLoop_plain.
  - apply IndexAny_None in E. pose proof (unescapeLoop_plain s E []) as H. simpl in H.
    rewrite !app_nil_r in H. by rewrite H.
Qed.

(** ** Delimiters and quotes *)

(** Number of backslashes at the end of a string. *)
Definition trailing_backslashes (p : bytes) : nat := length p - length (TrimRight p [0x5c]).

Lemma trailing_backslashes_snoc p x :
  trailing_backslashes (p ++ [x]) = if x =? 0x5c then S (trailing_backslashes p) else O.
Proof.
  unfold trailing_backslashes, TrimRight. rewrite reverse_snoc. cbn [TrimLeft].
  unfold byte_in. cbn [existsb]. rewrite orb_false_r.
  pose proof (TrimLeft_length (reverse p) [0x5c]) as H. rewrite length_reverse in H.
  rewrite length_app. destruct (x =? 0x5c).
  - rewrite length_reverse. simpl. lia.
  - rewrite reverse_cons, reverse_involutive, length_app. simpl. lia.
Qed.

Lemma countBackslashes_spec q p t :
  q ≠ 0x5c → countBackslashes (q :: p ++ t) (length p) = trailing_backslashes p.
Proof.
  intros Hq. revert t. induction p as [|x p IH] using rev_ind; intros t.
  - simpl. by rewrite (proj2 (Z.eqb_neq _ _) Hq).
  - rewrite length_app, Nat.add_1_r, trailing_backslashes_snoc. simpl.
    rewrite <- app_assoc, lookup_app_r, Nat.sub_diag by lia. simpl.
    destruct (x =? 0x5c); [|done]. f_equal. apply IH.
Qed.

(** [HasRegex] never panics; it reports a regular expression exactly for a
    string between two slashes whose content ends in an even number of
    backslashes, and returns that content; otherwise the string is returned
    unchanged. *)
Theorem HasRegex_spec s :
  ∃ b p, HasRegex s = Done (b, p) ∧
    (if b : bool then s = 0x2f :: p ++ [0x2f] ∧ Nat.even (trailing_backslashes p) = true
     else p = s ∧ ∀ q, s = 0x2f :: q ++ [0x2f] → Nat.even (trailing_backslashes q) = false).
Proof.
  unfold HasRegex. destruct (Nat.ltb_spec (length s) 2) as [Hl|Hl].
  { exists false, s. split; [done|]. split; [done|]. intros q ->. simpl in Hl.
    rewrite length_app in Hl. simpl in Hl. lia. }
  destruct s as [|s0 s]; [simpl in Hl; lia|]. destruct s as [|x p _] using rev_ind; [simpl in Hl; lia|].
  assert (length (s0 :: p ++ [x]) - 1 = S (length p))%nat as -> by (simpl; rewrite length_app; simpl; lia).
  cbn [index lookup list_lookup mbind run_bind].
  destruct (Z.eqb_spec s0 0x2f) as [->|Hs0]; cycle 1.
  { exists false, (s0 :: p ++ [x]). split; [done|]. split; [done|]. congruence. }
  rewrite (index_Some _ _ x) by (simpl; by rewrite lookup_app_r, Nat.sub_diag by lia).
  cbn [negb mbind run_bind].
  destruct (Z.eqb_spec x 0x2f) as [->|Hx]; cycle 1.
  { exists false, (0x2f :: p ++ [x]). split; [done|]. split; [done|].
    intros q [= Hq]. apply app_inj_2 in Hq as [_ [= ?]]; [|done]. congruence. }
  cbn [negb].
  assert (∀ q, 0x2f :: p ++ [0x2f] = 0x2f :: q ++ [0x2f] → q = p) as Hinj.
  { intros q [= Hq]. by apply app_inj_2 in Hq as [-> _]. }
  destruct p as [|y p]; [by exists true, []|].
  cbn [length Nat.eqb]. rewrite Nat.sub_succ, Nat.sub_0_r.
  change (S (length p)) with (length (y :: p)).
  rewrite (countBackslashes_spec 0x2f (y :: p) [0x2f]) by done.
  destruct (Nat.even (trailing_backslashes (y :: p))) eqn:E.
  - exists true, (y :: p). rewrite slice_ok by (simpl; rewrite length_app; simpl; lia).
    cbn [mbind run_bind]. split; [|done]. do 2 f_equal.
    replace (S (length (y :: p)) - 1)%nat with (length (y :: p)) by lia.
    cbn [drop]. apply take_app_length.
  - eexists false, _. split; [done|]. split; [done|]. by intros q ->%Hinj.
Qed.

(** [UnescapeQuotedString] is its loop: the test for a backslash only avoids a
    copy. *)
Lemma unescapeQuoted_plain s : Forall (λ x, x ≠ 0x5c) s → unescapeQuoted s = s.
Proof.
  induction 1 as [|x s Hx Hs IH]; [done|]. simpl. destruct s as [|y s]; [done|].
  rewrite (proj2 (Z.eqb_neq _ _) Hx). by rewrite IH.
Qed.

Lemma UnescapeQuotedString_eq s : UnescapeQuotedString s = unescapeQuoted s.
Proof.
  unfold UnescapeQuotedString. destruct (IndexByte s 0x5c) eqn:E; [done|].
  symmetry. by apply unescapeQuoted_plain, IndexByte_None.
Qed.

(** Quoting for the seclang parser: every double quote gets a backslash. *)
Definition escapeQuotes (s : bytes) : bytes :=
  flat_map (λ c, if c =? 0x22 then [0x5c; 0x22] else [c]) s.

Lemma unescapeQuoted_cons2 c d t :
  unescapeQuoted (c :: d :: t) =
    if (c =? 0x5c) && (d =? 0x22) then 0x22 :: unescapeQuoted t else c :: unescapeQuoted (d :: t).
Proof. done. Qed.

Lemma escapeQuotes_head s t : escapeQuotes s ≠ 0x22 :: t.
Proof. destruct s as [|e s]; simpl; [done|]. destruct (Z.eqb_spec e 0x22); simpl; congruence. Qed.

(** Unescaping undoes the quoting of double quotes, on every string. *)
Theorem UnescapeQuotedString_escape s : UnescapeQuotedString (escapeQuotes s) = s.
Proof.
  rewrite UnescapeQuotedString_eq.
  induction s as [|c s IH]; [done|].
  change (escapeQuotes (c :: s)) with ((if c =? 0x22 then [0x5c; 0x22] else [c]) ++ escapeQuotes s).
  destruct (Z.eqb_spec c 0x22) as [->|Hc]; cbn [app].
  { rewrite unescapeQuoted_cons2. cbn [Z.eqb Pos.eqb andb]. by rewrite IH. }
  pose proof (escapeQuotes_head s) as Hhead.
  destruct (escapeQuotes s) as [|d t]; [simpl in IH; by subst s|].
  rewrite unescapeQuoted_cons2, IH.
  assert ((d =? 0x22) = false) as -> by (apply Z.eqb_neq; intros ->; by apply (Hhead t)).
  by rewrite andb_false_r.
Qed.

Lemma InSlice_spec a l : InSlice a l = true ↔ a ∈ l.
Proof.
  induction l as [|b l IH]; simpl; [by rewrite elem_of_nil|].
  rewrite elem_of_cons, <- IH. destruct (b =s a) eqn:E.
  - apply bytes_eqb_eq in E as ->. tauto.
  - apply bytes_eqb_neq in E. split; [tauto|]. by intros [->|?].
Qed.

(** [MaybeRemoveQuotes] never panics and removes one pair of matching
    quotes, if there is one, and nothing else. *)
Theorem MaybeRemoveQuotes_spec s :
  ∃ r, MaybeRemoveQuotes s = Done r ∧
    ((∃ q, (q = 0x22 ∨ q = 0x27) ∧ s = q :: r ++ [q]) ∨
     (r = s ∧ ∀ q t, (q = 0x22 ∨ q = 0x27) → s ≠ q :: t ++ [q])).
Proof.
  unfold MaybeRemoveQuotes. destruct (Nat.ltb_spec (length s) 2) as [Hl|Hl].
  { exists s. split; [done|]. right. split; [done|]. intros q t _ ->. simpl in Hl.
    rewrite length_app in Hl. simpl in Hl. lia. }
  destruct s as [|s0 s]; [simpl in Hl; lia|]. destruct s as [|x p _] using rev_ind; [simpl in Hl; lia|].
  assert (length (s0 :: p ++ [x]) - 1 = S (length p))%nat as -> by (simpl; rewrite length_app; simpl; lia).
  rewrite (index_Some (s0 :: p ++ [x]) (S (length p)) x)
    by (simpl; by rewrite lookup_app_r, Nat.sub_diag by lia).
  rewrite (slice_ok (s0 :: p ++ [x])) by (simpl; rewrite length_app; simpl; lia).
  assert (take (S (length p) - 1) (drop 1 (s0 :: p ++ [x])) = p) as ->.
  { replace (S (length p) - 1)%nat with (length p) by lia. apply take_app_length. }
  cbn [index lookup list_lookup mbind run_bind].
  assert (∀ q t, s0 :: p ++ [x] = q :: t ++ [q] → s0 = q ∧ x = q) as Hq.
  { intros q t [= -> H]. apply app_inj_2 in H as [_ [= ->]]; done. }
  destruct (Z.eqb_spec s0 0x22) as [->|H1]; [|destruct (Z.eqb_spec s0 0x27) as [->|H2]].
  - destruct (Z.eqb_spec x 0x22) as [->|Hx]; simpl; eexists; (split; [done|]).
    + left. eauto.
    + right. split; [done|]. intros q t _ [??]%Hq. congruence.
  - destruct (Z.eqb_spec x 0x27) as [->|Hx]; simpl; eexists; (split; [done|]).
    + left. eauto.
    + right. split; [done|]. intros q t _ [??]%Hq. congruence.
  - eexists. split; [done|]. right. split; [done|]. intros q t Hqq [??]%Hq. naive_solver.
Qed.
