(* ===== verification/UrlTransform.v ===== *)
(** The URL and hexadecimal transformations:
    src/internal/transformations/url_decode.go, url_decode_uni.go,
    url_encode.go, hex_encode.go, hex_decode.go, length.go and none.go.

    A transformation returns its output, whether it reports a change, and an
    error.  The decoders write into a copy of their input; the theorems show
    that no write or read is out of range and that the result is that of a
    reference decoder on lists. *)

From S2P Require Import Prelude GoLib StringUtil BestFit.

(** The errors of the transformations, without their message. *)
Inductive terror := HexError | OctalError | errMD5NotAvailableFIPS | errSHA1NotAvailableFIPS.

(** A result of a transformation: output, changed, error. *)
Definition tresult : Type := bytes * bool * option terror.
Definition transformation : Type := bytes → run tresult.

(** ** urlDecode *)

Definition urlDecodeStep (input : bytes) (st : nat * nat * bytes) : run (nat * nat * bytes) :=
  let '(i, c, d) := st in
  let inputLen := length d in
  ii ← index input i;
  if ii =? 0x25 then
    if (i + 2 <? inputLen)%nat then
      c1 ← index input (i + 1);
      c2 ← index input (i + 2);
      if ValidHex c1 && ValidHex c2 then
        what ← slice input (i + 1) (length input);
        uni ← X2c what;
        d ← store d c uni; Done ((i + 3)%nat, (c + 1)%nat, d)
      else d ← store d c ii; Done ((i + 1)%nat, (c + 1)%nat, d)
    else d ← store d c ii; Done ((i + 1)%nat, (c + 1)%nat, d)
  else if ii =? 0x2b then
    d ← store d c 0x20; Done ((i + 1)%nat, (c + 1)%nat, d)
  else d ← store d c ii; Done ((i + 1)%nat, (c + 1)%nat, d).

(** The read position grows in every iteration: [length input] is enough. *)
Definition doURLDecode (input d : bytes) (pos : nat) : run bytes :=
  '(_, c, d) ← loop (S (length input)) (λ st : nat * nat * bytes, (st.1.1 <? length st.2)%nat)
                 (urlDecodeStep input) (pos, pos, d);
  slice d 0 c.

Definition urlDecode : transformation := λ data,
  match IndexAny data [0x25; 0x2b] with
  | Some i => out ← doURLDecode data data i; Done (out, true, None)
  | None => Done (data, false, None)
  end.

(** ** urlDecodeUni *)

Definition hexNibble (c : Z) : Z :=
  if (0x30 <=? c) && (c <=? 0x39) then c - 0x30
  else if (0x61 <=? c) && (c <=? 0x66) then (c - 0x61) + 10
  else if (0x41 <=? c) && (c <=? 0x46) then (c - 0x41) + 10
  else -1.

(** The byte of a valid [%uXXXX] escape. *)
Definition uniByte (h2 h3 h4 h5 : Z) : Z :=
  let code := Z.lor (Z.lor (Z.lor (Z.shiftl h2 12) (Z.shiftl h3 8)) (Z.shiftl h4 4)) h5 in
  match unicodeBestFitASCII !! code with
  | Some b => b
  | None =>
      let low := Z.lor (u8 (Z.shiftl h4 4)) h5 in
      if (low >? 0x00) && (low <? 0x5f) && (h2 =? 15) && (h3 =? 15)
      then u8 (low + 0x20) else low
  end.

(** The end of the literal run that starts at [i]: the next [%] or [+]. *)
Fixpoint literalEnd (s : bytes) (i : nat) : nat :=
  match s with
  | [] => i
  | x :: s => if (x =? 0x25) || (x =? 0x2b) then i else literalEnd s (S i)
  end.

(** [for k := range n { d[c+k] = input[start+k] }] *)
Fixpoint storeRange (input d : bytes) (c start : nat) (k n : nat) : run bytes :=
  match n with
  | O => Done d
  | S n =>
      x ← index input (start + k);
      d ← store d (c + k) x;
      storeRange input d c start (S k) n
  end.

(** [copy(d[c:], src)] *)
Definition copyAt (d : bytes) (c : nat) (src : bytes) : run bytes :=
  if decide (c ≤ length d)%nat then
    let n := (length src `min` (length d - c))%nat in
    Done (take c d ++ take n src ++ drop (c + n) d)
  else Panic.

Definition storeRun (input d : bytes) (c start i : nat) : run bytes :=
  let n := (i - start)%nat in
  if (n =? 1)%nat then x ← index input start; store d c x
  else if (n =? 2)%nat then
    x ← index input start; d ← store d c x;
    y ← index input (start + 1); store d (c + 1) y
  else if (n <=? 8)%nat then storeRange input d c start 0 n
  else src ← slice input start i; copyAt d c src.

Definition uniDecodeStep (input : bytes) (st : nat * nat * bytes * bool)
    : run (nat * nat * bytes * bool) :=
  let '(i, c, d, changed) := st in
  let inputLen := length d in
  ch ← index input i;
  if negb (ch =? 0x25) && negb (ch =? 0x2b) then
    let start := i in
    let i := literalEnd (drop (i + 1) input) (i + 1) in
    d ← storeRun input d c start i;
    Done (i, (c + (i - start))%nat, d, changed)
  else if ch =? 0x2b then
    d ← store d c 0x20; Done ((i + 1)%nat, (c + 1)%nat, d, true)
  else
    isU ← (i + 1 <? inputLen)%nat &&? (x ← index input (i + 1); Done ((x =? 0x75) || (x =? 0x55)));
    if (isU : bool) then
      let verbatim :=
        x ← index input (i + 1);
        d ← store d c ch; d ← store d (c + 1) x;
        Done ((i + 2)%nat, (c + 2)%nat, d, changed) in
      if (i + 5 <? inputLen)%nat then
        x2 ← index input (i + 2); x3 ← index input (i + 3);
        x4 ← index input (i + 4); x5 ← index input (i + 5);
        let h2 := hexNibble x2 in let h3 := hexNibble x3 in
        let h4 := hexNibble x4 in let h5 := hexNibble x5 in
        if (h2 >=? 0) && (h3 >=? 0) && (h4 >=? 0) && (h5 >=? 0) then
          d ← store d c (uniByte h2 h3 h4 h5); Done ((i + 6)%nat, (c + 1)%nat, d, true)
        else verbatim
      else verbatim
    else
      let verbatim := d ← store d c ch; Done ((i + 1)%nat, (c + 1)%nat, d, changed) in
      if (i + 2 <? inputLen)%nat then
        x1 ← index input (i + 1); x2 ← index input (i + 2);
        let h1 := hexNibble x1 in let h2 := hexNibble x2 in
        if (h1 >=? 0) && (h2 >=? 0) then
          d ← store d c (Z.lor (u8 (Z.shiftl h1 4)) h2); Done ((i + 3)%nat, (c + 1)%nat, d, true)
        else verbatim
      else verbatim.

Definition inplaceUniDecode (input d : bytes) (pos : nat) : run (bytes * bool) :=
  '(_, c, d, changed) ←
    loop (S (length input)) (λ st : nat * nat * bytes * bool, (st.1.1.1 <? length st.1.2)%nat)
      (uniDecodeStep input) (pos, pos, d, false);
  out ← slice d 0 c; Done (out, changed).

Definition urlDecodeUni : transformation := λ data,
  match IndexAny data [0x25; 0x2b] with
  | Some i =>
      '(transformed, changed) ← inplaceUniDecode data data i;
      Done (transformed, changed, None)
  | None => Done (data, false, None)
  end.

(** ** urlEncode *)

Definition c2xTable : bytes := str "0123456789abcdef".

Definition urlEncodeByte (cc : Z) : run (bytes * bool) :=
  if cc =? 0x20 then Done ([0x2b], true)
  else if (cc =? 42) || ((cc >=? 48) && (cc <=? 57)) || ((cc >=? 65) && (cc <=? 90))
          || ((cc >=? 97) && (cc <=? 122)) then Done ([cc], false)
  else
    hi ← index c2xTable (Z.to_nat (Z.shiftr (Z.land cc 0xff) 4));
    lo ← index c2xTable (Z.to_nat (Z.land (Z.land cc 0xff) 0x0f));
    Done ([0x25; hi; lo], true).

Fixpoint urlEncodeLoop (input d : bytes) (changed : bool) : run (bytes * bool) :=
  match input with
  | [] => Done (d, changed)
  | cc :: input =>
      '(out, ch) ← urlEncodeByte cc;
      urlEncodeLoop input (d ++ out) (changed || ch)
  end.

Definition doURLEncode (input : bytes) : run (bytes * bool) :=
  if (length input =? 0)%nat then Done ([], false) else urlEncodeLoop input [] false.

Definition urlEncode : transformation := λ data,
  '(transformedData, changed) ← doURLEncode data; Done (transformedData, changed, None).

(** ** hexEncode, hexDecode: [encoding/hex] *)

Definition hexEncode : transformation := λ data,
  Done (flat_map (λ b, [c2xTable !!! Z.to_nat (b / 16); c2xTable !!! Z.to_nat (b mod 16)]) data,
        true, None).

(** [hex.DecodeString]; an error is an odd length or a byte that is not a
    hexadecimal digit. *)
Fixpoint hexDecodeString (s : bytes) : option bytes :=
  match s with
  | [] => Some []
  | a :: b :: s =>
      match hexDigitToByte a, hexDigitToByte b with
      | Some h, Some l => cons (h * 16 + l) <$> hexDecodeString s
      | _, _ => None
      end
  | [_] => None
  end.

Definition hexDecode : transformation := λ data,
  match hexDecodeString data with
  | None => Done ([], false, Some HexError)
  | Some dst => Done (dst, true, None)
  end.

(** ** length, none *)

Definition lengthT : transformation := λ data, Done (Itoa (Z.of_nat (length data)), true, None).
Definition none : transformation := λ data, Done (data, false, None).

(** ** urlDecode is the decoder of the query parser *)

(** Percent decoding of the first bytes of a list, as [unescapeLoop] does it:
    how many bytes the next output byte takes, and that byte. *)
Definition urlToken (s : bytes) : nat * Z :=
  match s with
  | [] => (0%nat, 0)
  | x :: r =>
      if x =? 0x25 then
        match r with
        | a :: b :: _ =>
            match hexDigitToByte a, hexDigitToByte b with
            | Some h, Some l => (3%nat, h * 16 + l)
            | _, _ => (1%nat, x)
            end
        | _ => (1%nat, x)
        end
      else if x =? 0x2b then (1%nat, 0x20) else (1%nat, x)
  end.

Lemma unescapeLoop_token s :
  s ≠ [] → unescapeLoop s = (urlToken s).2 :: unescapeLoop (drop (urlToken s).1 s).
Proof.
  destruct s as [|x r]; [done|intros _]. cbn [unescapeLoop urlToken].
  destruct (x =? 0x25) eqn:E.
  - assert ((x =? 0x2b) = false) as -> by lia.
    destruct r as [|a [|b r]]; [done..|].
    destruct (hexDigitToByte a) eqn:Ea, (hexDigitToByte b) eqn:Eb; try done.
    by rewrite (proj2 (hex_pair _ _ _ _ [] Ea Eb)).
  - by destruct (x =? 0x2b).
Qed.

Lemma urlToken_bounds s : s ≠ [] → (1 ≤ (urlToken s).1 ≤ length s)%nat.
Proof. destruct s as [|x [|a [|b r]]]; simpl; intros; repeat case_match; simpl; done || lia. Qed.

(** One iteration consumes and emits one token. *)
Lemma urlDecodeStep_token input i c d :
  length d = length input → (i < length input)%nat →
  urlDecodeStep input (i, c, d) =
    (d ← store d c (urlToken (drop i input)).2;
     Done ((i + (urlToken (drop i input)).1)%nat, (c + 1)%nat, d)).
Proof.
  intros Hl Hi. unfold urlDecodeStep. rewrite Hl.
  destruct (drop i input) as [|x r] eqn:E; [by apply drop_nonempty in E|].
  pose proof (drop_cons_length _ _ _ _ E) as Hn.
  pose proof (λ k, index_drop _ _ k _ E) as Hx.
  replace (index input i) with (Done x) by (rewrite <- (Nat.add_0_r i); by rewrite Hx).
  run_simpl. unfold urlToken.
  destruct (x =? 0x25) eqn:E1; [|by destruct (x =? 0x2b)].
  destruct (i + 2 <? length input)%nat eqn:E2.
  - rewrite !Hx. destruct r as [|a [|b r]]; [simpl in Hn; lia..|].
    rewrite !index_cons_S, !index_cons_0. run_simpl.
    rewrite !ValidHex_hexDigit. rewrite slice_ok by lia. run_simpl.
    rewrite <- drop_drop, E. cbn [drop]. rewrite take_ge by (simpl in *; lia).
    destruct (hexDigitToByte a) eqn:Ea, (hexDigitToByte b) eqn:Eb; try done. run_simpl.
    by rewrite (proj1 (hex_pair _ _ _ _ r Ea Eb)).
  - destruct r as [|a [|b r]]; [done..|]. simpl in Hn. lia.
Qed.

Lemma doURLDecode_eq input pos :
  (pos ≤ length input)%nat →
  doURLDecode input input pos = Done (take pos input ++ unescapeLoop (drop pos input)).
Proof.
  intros Hp. unfold doURLDecode. set (target := take pos input ++ _).
  destruct (loop_total (λ st : nat * nat * bytes, (st.1.1 <? length st.2)%nat) (urlDecodeStep input)
    (λ st, inplace input unescapeLoop target st.1.1 st.1.2 st.2)
    (λ st, (length input - st.1.1)%nat)) with (S (length input)) (pos, pos, input)
    as ([[i c] d] & Hl & HI & Hc).
  - intros [[i c] d] HI Hc. cbn [fst snd] in *. pose proof HI as (Hlen & Hci & _).
    apply Nat.ltb_lt in Hc. rewrite Hlen in Hc.
    assert (Hne : drop i input ≠ []) by (by apply drop_nonempty).
    pose proof (urlToken_bounds _ Hne) as Hb. rewrite length_drop in Hb.
    rewrite urlDecodeStep_token by done.
    destruct (inplace_emit _ _ _ i c d (urlToken (drop i input)).2 (urlToken (drop i input)).1 HI)
      as (d' & -> & HI'); [lia|lia| |].
    { rewrite (unescapeLoop_token _ Hne) at 1. by rewrite drop_drop. }
    eexists. split; [done|]. split; [done|]. cbn [fst]. lia.
  - by apply inplace_start.
  - simpl. lia.
  - rewrite Hl. cbn. cbn [fst snd] in *. pose proof HI as (Hlen & _). rewrite Hlen in Hc.
    by eapply inplace_done.
Qed.

Lemma urlDecode_eq data :
  urlDecode data = Done (queryUnescape data, ContainsAny data [0x25; 0x2b], None).
Proof.
  unfold urlDecode, ContainsAny. rewrite queryUnescape_eq. destruct (IndexAny data _) as [i|] eqn:E.
  - apply IndexAny_Some in E as [Hi E]. rewrite doURLDecode_eq by lia. cbn.
    rewrite <- unescapeLoop_plain by done. by rewrite take_drop.
  - apply IndexAny_None in E. pose proof (unescapeLoop_plain data E []) as H.
    simpl in H. rewrite !app_nil_r in H. by rewrite H.
Qed.

(** [urlDecode] never reads or writes out of range, and its output is that
    of [queryUnescape], the decoder that fills the ARGS collections: a rule
    that applies t:urlDecode to the raw query sees the argument values. The
    change is reported when the input holds a percent or a plus sign. *)
Theorem urlDecode_queryUnescape data :
  urlDecode data = Done (queryUnescape data, ContainsAny data [0x25; 0x2b], None).
Proof. apply urlDecode_eq. Qed.

(** ** urlDecodeUni: the reference decoder *)

(** [out] in front of a decoded rest. *)
Definition emit (out : bytes) (fl : bool) (rest : bytes * bool) : bytes * bool :=
  (out ++ rest.1, fl || rest.2).

(** The byte that stands for a code point of a [%u] escape: the best fit when
    the table has one, the full width forms moved to ASCII, and otherwise the
    low byte. *)
Definition uniFit (cp : Z) : Z :=
  match unicodeBestFitASCII !! cp with
  | Some b => b
  | None => if (0xff00 <? cp) && (cp <? 0xff5f) then cp mod 256 + 0x20 else cp mod 256
  end.

Fixpoint uniDecode (s : bytes) : bytes * bool :=
  match s with
  | [] => ([], false)
  | x :: r =>
      if x =? 0x2b then emit [0x20] true (uniDecode r)
      else if x =? 0x25 then
        match r with
        | u :: r1 =>
            if (u =? 0x75) || (u =? 0x55) then
              match r1 with
              | a :: b :: c :: e :: r5 =>
                  match hexDigitToByte a, hexDigitToByte b, hexDigitToByte c, hexDigitToByte e with
                  | Some h2, Some h3, Some h4, Some h5 =>
                      emit [uniFit (((h2 * 16 + h3) * 16 + h4) * 16 + h5)] true (uniDecode r5)
                  | _, _, _, _ => emit [x; u] false (uniDecode r1)
                  end
              | _ => emit [x; u] false (uniDecode r1)
              end
            else
              match r1 with
              | v :: r2 =>
                  match hexDigitToByte u, hexDigitToByte v with
                  | Some h, Some l => emit [h * 16 + l] true (uniDecode r2)
                  | _, _ => emit [x] false (uniDecode r)
                  end
              | [] => emit [x] false (uniDecode r)
              end
        | [] => emit [x] false (uniDecode r)
        end
      else emit [x] false (uniDecode r)
  end.

Lemma hexNibble_hexDigit c :
  hexNibble c = match hexDigitToByte c with Some h => h | None => -1 end.
Proof. unfold hexNibble, hexDigitToByte, u8. split_ifs; dlia. Qed.

Definition nibbles : list Z := seqZ 0 16.

Lemma uniByte_fit h2 h3 h4 h5 :
  0 <= h2 < 16 → 0 <= h3 < 16 → 0 <= h4 < 16 → 0 <= h5 < 16 →
  uniByte h2 h3 h4 h5 = uniFit (((h2 * 16 + h3) * 16 + h4) * 16 + h5).
Proof.
  intros H2 H3 H4 H5.
  assert (forallb (λ h2, forallb (λ h3, forallb (λ h4, forallb (λ h5,
    uniByte h2 h3 h4 h5 =? uniFit (((h2 * 16 + h3) * 16 + h4) * 16 + h5))
    nibbles) nibbles) nibbles) nibbles = true) as H by (by vm_compute).
  assert (Hin : ∀ h, 0 <= h < 16 → In h nibbles).
  { intros h Hh. apply list_elem_of_In. unfold nibbles. apply elem_of_seqZ. lia. }
  rewrite forallb_forall in H. specialize (H _ (Hin _ H2)).
  rewrite forallb_forall in H. specialize (H _ (Hin _ H3)).
  rewrite forallb_forall in H. specialize (H _ (Hin _ H4)).
  rewrite forallb_forall in H. specialize (H _ (Hin _ H5)). lia.
Qed.

(** ** The literal runs *)

Lemma literalEnd_spec s i :
  ∃ n, literalEnd s i = (i + n)%nat ∧ (n ≤ length s)%nat ∧
       Forall (λ x, (x =? 0x25) = false ∧ (x =? 0x2b) = false) (take n s).
Proof.
  revert i. induction s as [|x s IH]; intros i; simpl.
  - exists O. repeat split; [lia|lia|constructor].
  - destruct ((x =? 0x25) || (x =? 0x2b)) eqn:E.
    + exists O. repeat split; [lia|lia|constructor].
    + destruct (IH (S i)) as (n & -> & Hn & HF). exists (S n).
      repeat split; [lia|lia|]. simpl. constructor; [lia|done].
Qed.

Lemma uniDecode_plain p s :
  Forall (λ x, (x =? 0x25) = false ∧ (x =? 0x2b) = false) p →
  uniDecode (p ++ s) = emit p false (uniDecode s).
Proof.
  induction 1 as [|x p [H1 H2] Hp IH]; [cbn [app]; by destruct (uniDecode s)|].
  cbn [app uniDecode]. rewrite H1, H2, IH. done.
Qed.

Lemma storeRange_write input c start :
  ∀ n k d, (start + k + n ≤ length input)%nat → (c + k + n ≤ length d)%nat →
  storeRange input d c start k n = Done (write_at d (c + k) (take n (drop (start + k) input))).
Proof.
  induction n as [|n IH]; intros k d Hs Hd; cbn [storeRange].
  - by rewrite take_0, write_at_nil.
  - rewrite index_lt by lia. run_simpl. rewrite store_write_at by lia. run_simpl.
    rewrite IH by (rewrite ?length_write_at; simpl; lia).
    replace (c + S k)%nat with (c + k + length [input !!! (start + k)%nat])%nat by (simpl; lia).
    rewrite write_at_app by (rewrite length_take, length_drop; simpl; lia).
    do 2 f_equal. rewrite (drop_S input (input !!! (start + k)%nat) (start + k)).
    + simpl. by rewrite Nat.add_succ_r.
    + by apply list_lookup_lookup_total_lt; lia.
Qed.

Lemma storeRun_write input d c start i :
  length d = length input → (c ≤ start < i)%nat → (i ≤ length input)%nat →
  storeRun input d c start i = Done (write_at d c (take (i - start) (drop start input))).
Proof.
  intros Hl Hc Hi.
  pose proof (storeRange_write input c start (i - start) 0 d) as HR.
  rewrite !Nat.add_0_r in HR. specialize (HR ltac:(lia) ltac:(lia)).
  unfold storeRun. destruct (i - start =? 1)%nat eqn:E1; [|destruct (i - start =? 2)%nat eqn:E2].
  - apply Nat.eqb_eq in E1. rewrite E1 in *. cbn [storeRange] in HR.
    rewrite !Nat.add_0_r in HR. rewrite <- HR. destruct (index input start) as [x| |]; [|done..].
    run_simpl. by destruct (store d c x).
  - apply Nat.eqb_eq in E2. rewrite E2 in *. cbn [storeRange] in HR.
    rewrite !Nat.add_0_r in HR. rewrite <- HR. destruct (index input start) as [x| |]; [|done..].
    run_simpl. destruct (store d c x) as [d'| |]; [|done..]. run_simpl.
    destruct (index input (start + 1)) as [y| |]; [|done..]. run_simpl. by destruct (store d' _ y).
  - destruct (i - start <=? 8)%nat; [done|]. rewrite slice_ok by lia. run_simpl.
    unfold copyAt. rewrite decide_True by lia. f_equal. unfold write_at.
    rewrite length_take, length_drop. rewrite (take_ge (take _ _)) by (rewrite length_take, length_drop; lia).
    do 3 f_equal. lia.
Qed.

(** ** urlDecodeUni implements the reference decoder *)

Lemma hexNibble_ge c :
  (hexNibble c >=? 0) = match hexDigitToByte c with Some _ => true | None => false end.
Proof.
  rewrite hexNibble_hexDigit. destruct (hexDigitToByte c) eqn:E; [|done].
  apply hexDigit_range in E. lia.
Qed.

(** A [%u] escape. *)
Lemma uniDecode_escape_u s x u r1 :
  s = x :: u :: r1 → (x =? 0x25) = true → (u =? 0x75) || (u =? 0x55) = true →
  uniDecode s =
    match r1 with
    | a :: b :: c :: e :: r5 =>
        if (hexNibble a >=? 0) && (hexNibble b >=? 0) && (hexNibble c >=? 0) && (hexNibble e >=? 0)
        then emit [uniByte (hexNibble a) (hexNibble b) (hexNibble c) (hexNibble e)] true (uniDecode r5)
        else emit [x; u] false (uniDecode r1)
    | _ => emit [x; u] false (uniDecode r1)
    end.
Proof.
  intros -> Ex Eu. cbn [uniDecode]. rewrite Ex, Eu.
  assert ((x =? 0x2b) = false) as -> by lia.
  destruct r1 as [|a [|b [|c [|e r5]]]]; [done..|].
  rewrite !hexNibble_ge, !hexNibble_hexDigit.
  destruct (hexDigitToByte a) eqn:Ea; [|done]. destruct (hexDigitToByte b) eqn:Eb; [|done].
  destruct (hexDigitToByte c) eqn:Ec; [|done]. destruct (hexDigitToByte e) eqn:Ee; [|done].
  apply hexDigit_range in Ea, Eb, Ec, Ee. cbn [andb]. by rewrite uniByte_fit by lia.
Qed.

(** A percent sign that does not start a [%u] escape. *)
Lemma uniDecode_escape s x r :
  s = x :: r → (x =? 0x25) = true →
  match r with u :: _ => (u =? 0x75) || (u =? 0x55) = false | [] => True end →
  uniDecode s =
    match r with
    | a :: b :: r2 =>
        if (hexNibble a >=? 0) && (hexNibble b >=? 0)
        then emit [Z.lor (u8 (Z.shiftl (hexNibble a) 4)) (hexNibble b)] true (uniDecode r2)
        else emit [x] false (uniDecode r)
    | _ => emit [x] false (uniDecode r)
    end.
Proof.
  intros -> Ex Eu. cbn [uniDecode]. rewrite Ex.
  assert ((x =? 0x2b) = false) as -> by lia.
  destruct r as [|a [|b r2]]; [done|by rewrite Eu|]. rewrite Eu.
  rewrite !hexNibble_ge, !hexNibble_hexDigit.
  destruct (hexDigitToByte a) eqn:Ea, (hexDigitToByte b) eqn:Eb; [|done..].
  cbn [andb]. by rewrite (proj2 (hex_pair _ _ _ _ [] Ea Eb)).
Qed.

Lemma store2_write_at {A} d c x y (k : bytes → run A) :
  (c + 1 < length d)%nat →
  (d ← store d c x; d ← store d (c + 1) y; k d) = k (write_at d c [x; y]).
Proof.
  intros H. rewrite store_write_at by lia. run_simpl.
  rewrite store_write_at by (rewrite length_write_at; simpl; lia). run_simpl.
  f_equal. apply (write_at_app d c [x] [y]). simpl. lia.
Qed.

(** An iteration that reads [k] bytes and stores [out]. *)
Ltac emits k out fl :=
  exists k, out, fl; split;
  [first [rewrite store2_write_at by (simpl in *; lia)|rewrite store_write_at by lia]; run_simpl;
   rewrite ?orb_false_r, ?orb_true_r; reflexivity|];
  cbn [length]; do 3 (split; [simpl in *; lia|]).

(** Decide the bound checks on an input of known length. *)
Ltac bounds Hn :=
  repeat match goal with
  | |- context [(?a <? ?b)%nat] =>
      first [assert ((a <? b)%nat = true) as -> by (simpl in Hn; lia)
            |assert ((a <? b)%nat = false) as -> by (simpl in Hn; lia)]
  end.

Lemma uniDecodeStep_decodes input : decodes_at input uniDecode (uniDecodeStep input).
Proof.
  intros i c d ch Hl Hci. unfold uniDecodeStep. rewrite Hl.
  destruct (drop i input) as [|x r] eqn:E; [apply drop_nonempty in E; [done|lia]|].
  pose proof (drop_cons_length _ _ _ _ E) as Hn.
  pose proof (λ k, index_drop _ _ k _ E) as Hx.
  assert (Hd : ∀ k, drop (i + k) input = drop k (x :: r)) by (intros k; by rewrite <- E, drop_drop).
  replace (index input i) with (Done x) by (rewrite <- (Nat.add_0_r i); by rewrite Hx).
  run_simpl. destruct (x =? 0x25) eqn:Ex; cbn [negb andb];
    [|destruct (x =? 0x2b) eqn:Ep; cbn [negb]].
  - assert ((x =? 0x2b) = false) as -> by lia. destruct r as [|u r].
    { bounds Hn. run_simpl. emits 1%nat [x] false. by rewrite Hd, (uniDecode_escape _ x [] eq_refl). }
    rewrite !Hx, !index_cons_S, !index_cons_0.
    destruct ((u =? 0x75) || (u =? 0x55)) eqn:Eu.
    + rewrite (uniDecode_escape_u _ x u r eq_refl Ex Eu).
      destruct r as [|a [|b [|e [|f r]]]]; bounds Hn; run_simpl; rewrite Eu.
      1-4: emits 2%nat [x; u] false; by rewrite Hd.
      rewrite !index_cons_S, !index_cons_0. run_simpl. destruct (_ && _).
      * emits 6%nat [uniByte (hexNibble a) (hexNibble b) (hexNibble e) (hexNibble f)] true. by rewrite Hd.
      * emits 2%nat [x; u] false. by rewrite Hd.
    + rewrite (uniDecode_escape _ x (u :: r) eq_refl Ex Eu).
      destruct r as [|v r]; bounds Hn; run_simpl; rewrite Eu.
      { emits 1%nat [x] false. by rewrite Hd. }
      rewrite index_cons_0. run_simpl. destruct (_ && _).
      * emits 3%nat [Z.lor (u8 (Z.shiftl (hexNibble u) 4)) (hexNibble v)] true. by rewrite Hd.
      * emits 1%nat [x] false. by rewrite Hd.
  - emits 1%nat [0x20] true. rewrite Hd. cbn [uniDecode]. by rewrite Ep.
  - destruct (literalEnd_spec (drop (i + 1) input) (i + 1)) as (n & -> & Hn' & HF).
    rewrite length_drop in Hn'. rewrite Hd in HF. cbn [drop] in HF.
    exists (S n), (x :: take n r), false. rewrite storeRun_write by lia.
    replace (i + 1 + n - i)%nat with (S n) by lia. run_simpl.
    rewrite E. cbn [take length]. rewrite length_take, orb_false_r.
    replace (n `min` length r)%nat with n by lia.
    split; [do 4 f_equal; lia|]. do 3 (split; [lia|]).
    rewrite Hd. cbn [drop].
    rewrite <- (take_drop n r) at 1. rewrite app_comm_cons. by rewrite uniDecode_plain by (by constructor).
Qed.

Lemma inplaceUniDecode_eq input pos :
  (pos ≤ length input)%nat →
  inplaceUniDecode input input pos =
    Done (take pos input ++ (uniDecode (drop pos input)).1, (uniDecode (drop pos input)).2).
Proof.
  intros Hp. unfold inplaceUniDecode.
  destruct (decode_loop input uniDecode (uniDecodeStep input) pos) as (i & c & d & -> & Hs);
    [apply uniDecodeStep_decodes|done|done|].
  run_simpl. by rewrite Hs.
Qed.

Lemma uniDecode_prefix i s :
  Forall (λ x, byte_in x [0x25; 0x2b] = false) (take i s) →
  uniDecode s = emit (take i s) false (uniDecode (drop i s)).
Proof.
  intros H. rewrite <- uniDecode_plain; [by rewrite take_drop|].
  eapply Forall_impl; [exact H|]. intros x. unfold byte_in. simpl. lia.
Qed.

Lemma urlDecodeUni_eq data :
  urlDecodeUni data = Done ((uniDecode data).1, (uniDecode data).2, None).
Proof.
  unfold urlDecodeUni. destruct (IndexAny data _) as [i|] eqn:E.
  - apply IndexAny_Some in E as [Hi E]. rewrite inplaceUniDecode_eq by lia. run_simpl.
    by rewrite (uniDecode_prefix i data E).
  - apply IndexAny_None in E. rewrite (uniDecode_prefix (length data) data).
    + rewrite take_ge, drop_ge by lia. cbn. by rewrite app_nil_r.
    + by rewrite take_ge by lia.
Qed.

(** [urlDecodeUni] never reads or writes out of range, for any input, and
    its output and its change flag are those of the reference decoder
    [uniDecode]: the table of the best-fit mapping, the full-width forms, the
    verbatim copy of invalid escapes and the bulk copies of literal runs. *)
Theorem urlDecodeUni_decodes data :
  urlDecodeUni data = Done ((uniDecode data).1, (uniDecode data).2, None).
Proof. apply urlDecodeUni_eq. Qed.

(** The three facts that decide whether the output differs from the input. *)
Definition flag_exact (s : bytes) (r : bytes * bool) : Prop :=
  (length r.1 ≤ length s)%nat ∧ (r.2 = false → r.1 = s) ∧ (r.2 = true → r.1 ≠ s).

Lemma flag_exact_same p s r : flag_exact s r → flag_exact (p ++ s) (emit p false r).
Proof.
  intros (Hl & Hf & Ht). unfold emit, flag_exact. cbn [fst snd orb].
  split; [rewrite !length_app; lia|]. split; [intros H; by rewrite Hf|]. intros H E%app_inv_head. by apply Ht.
Qed.

Lemma flag_exact_shorter p q s r :
  flag_exact s r → (length q < length p)%nat → flag_exact (p ++ s) (emit q true r).
Proof.
  intros (Hl & _) Hpq. unfold emit, flag_exact. cbn [fst snd orb].
  split; [rewrite !length_app; lia|].
  split; [done|]. intros _ E%(f_equal length). rewrite !length_app in E. lia.
Qed.

Lemma flag_exact_other x y s r : flag_exact s r → x ≠ y → flag_exact (x :: s) (emit [y] true r).
Proof. 
  intros (Hl & _) Hxy. unfold emit, flag_exact. cbn [fst snd app length orb]. split; [lia|].
  split; [done|]. intros _ E. congruence. Qed.

Lemma uniDecode_flag s : flag_exact s (uniDecode s).
Proof.
  remember (length s) as n eqn:Hn. assert (length s ≤ n)%nat as Hs by lia. clear Hn.
  revert s Hs. induction n as [|n IH]; intros [|x r] Hs; [by split..|simpl in Hs; lia|by split|].
  simpl in Hs. cbn [uniDecode]. destruct (x =? 0x2b) eqn:Ep.
  { apply flag_exact_other; [apply IH; lia|lia]. }
  assert (Hr : flag_exact (x :: r) (emit [x] false (uniDecode r))).
  { apply (flag_exact_same [x]), IH. lia. }
  destruct (x =? 0x25); [|done]. destruct r as [|u r1]; [done|]. simpl in Hs.
  destruct (_ || _).
  - assert (Hu : flag_exact (x :: u :: r1) (emit [x; u] false (uniDecode r1))).
    { apply (flag_exact_same [x; u]), IH. lia. }
    destruct r1 as [|a [|b [|c [|e r5]]]]; [done..|].
    destruct (hexDigitToByte a), (hexDigitToByte b), (hexDigitToByte c), (hexDigitToByte e); try done.
    apply (flag_exact_shorter [x; u; a; b; c; e]); [apply IH; simpl in Hs; lia|simpl; lia].
  - destruct r1 as [|v r2]; [done|].
    destruct (hexDigitToByte u), (hexDigitToByte v); try done.
    apply (flag_exact_shorter [x; u; v]); [apply IH; simpl in Hs; lia|simpl; lia].
Qed.

(** The change flag of [urlDecodeUni] is exact (invalid and truncated
    escapes do not raise it), and the output is never longer than the input. *)
Theorem urlDecodeUni_changed data :
  ∃ out changed, urlDecodeUni data = Done (out, changed, None) ∧
    (changed = false ↔ out = data) ∧ (length out ≤ length data)%nat.
Proof.
  exists (uniDecode data).1, (uniDecode data).2. split; [apply urlDecodeUni_eq|].
  destruct (uniDecode_flag data) as (Hl & Hf & Ht). split; [|done]. split; [done|].
  intros E. destruct (uniDecode data).2; [by destruct Ht|done].
Qed.

(** ** Round trips *)

(** The bytes that [urlEncode] leaves alone. *)
Definition urlSafe (b : Z) : bool :=
  (b =? 42) || ((48 <=? b) && (b <=? 57)) || ((65 <=? b) && (b <=? 90))
  || ((97 <=? b) && (b <=? 122)).

Definition encoded (b : Z) : bytes :=
  match urlEncodeByte b with Done (out, _) => out | _ => [] end.

Definition urlEncodeByte_ok (b : Z) : bool :=
  bool_decide (urlEncodeByte b = Done (encoded b, negb (urlSafe b)))
  && bool_decide (urlToken (encoded b) = (length (encoded b), b))
  && bool_decide ((1 ≤ length (encoded b))%nat)
  && bool_decide (encoded b ≠ [0x25]).

Lemma urlEncodeByte_spec b :
  is_byte b →
  urlEncodeByte b = Done (encoded b, negb (urlSafe b)) ∧
  urlToken (encoded b) = (length (encoded b), b) ∧ (1 ≤ length (encoded b))%nat ∧
  encoded b ≠ [0x25].
Proof.
  intros Hb. pose proof (forall_byte urlEncodeByte_ok ltac:(by vm_compute) b Hb) as H.
  unfold urlEncodeByte_ok in H.
  rewrite !andb_true_iff, !bool_decide_eq_true in H. naive_solver.
Qed.

Lemma urlToken_app s t :
  (1 ≤ (urlToken s).1)%nat → (urlToken s).1 = length s → s ≠ [0x25] →
  (∀ a, s ≠ [0x25; a]) → urlToken (s ++ t) = urlToken s.
Proof.
  destruct s as [|x [|a [|b s]]]; simpl; intros; try lia.
  - assert ((x =? 0x25) = false) as -> by (apply Z.eqb_neq; congruence). done.
  - assert ((x =? 0x25) = false) as -> by (apply Z.eqb_neq; naive_solver). done.
  - done.
Qed.

Lemma unescapeLoop_encoded b t : is_byte b → unescapeLoop (encoded b ++ t) = b :: unescapeLoop t.
Proof.
  intros Hb. destruct (urlEncodeByte_spec b Hb) as (_ & Ht & Hl & Hne).
  assert (urlToken (encoded b ++ t) = (length (encoded b), b)) as HT.
  { rewrite urlToken_app; rewrite ?Ht; [done..|].
    intros a E. rewrite E in Ht. simpl in Ht. congruence. }
  rewrite unescapeLoop_token, HT; [cbn [fst snd]; by rewrite drop_app_length|].
  intros E. apply (f_equal length) in E. rewrite length_app in E. simpl in E. lia.
Qed.

Lemma urlEncodeLoop_eq s d ch :
  wf_bytes s →
  urlEncodeLoop s d ch = Done (d ++ flat_map encoded s, ch || existsb (λ b, negb (urlSafe b)) s).
Proof.
  intros Hs. revert d ch. induction Hs as [|b s Hb Hs IH]; intros d ch; cbn [urlEncodeLoop].
  - by rewrite app_nil_r, orb_false_r.
  - destruct (urlEncodeByte_spec b Hb) as (-> & _). run_simpl. rewrite IH. simpl.
    by rewrite <- app_assoc, <- orb_assoc.
Qed.

Lemma urlEncode_eq s :
  wf_bytes s →
  urlEncode s = Done (flat_map encoded s, existsb (λ b, negb (urlSafe b)) s, None).
Proof.
  intros Hs. unfold urlEncode, doURLEncode. destruct s as [|b s]; [done|].
  cbn [length Nat.eqb]. by rewrite urlEncodeLoop_eq.
Qed.

Lemma unescapeLoop_flat_map s : wf_bytes s → unescapeLoop (flat_map encoded s) = s.
Proof.
  induction 1 as [|b s Hb Hs IH]; [done|]. cbn [flat_map]. by rewrite unescapeLoop_encoded, IH.
Qed.

Lemma encoded_safe b : is_byte b → urlSafe b = bool_decide (encoded b = [b]).
Proof.
  intros Hb. apply eqb_prop.
  exact (forall_byte (λ b, eqb (urlSafe b) (bool_decide (encoded b = [b]))) ltac:(by vm_compute) b Hb).
Qed.

Lemma encoded_length s : wf_bytes s → (length s ≤ length (flat_map encoded s))%nat.
Proof.
  induction 1 as [|b s Hb Hs IH]; [done|]. cbn [flat_map]. rewrite length_app.
  destruct (urlEncodeByte_spec b Hb) as (_ & _ & Hl & _). simpl. lia.
Qed.

Lemma encoded_flag s :
  wf_bytes s → existsb (λ b, negb (urlSafe b)) s = false ↔ flat_map encoded s = s.
Proof.
  induction 1 as [|b s Hb Hs IH]; [done|]. cbn [existsb flat_map].
  rewrite orb_false_iff, IH, negb_false_iff, (encoded_safe b Hb), bool_decide_eq_true. split.
  - intros [-> ->]. done.
  - intros E. pose proof (encoded_length s Hs) as Hl.
    destruct (urlEncodeByte_spec b Hb) as (_ & _ & Hb' & _).
    pose proof (f_equal length E) as HE. rewrite length_app in HE. simpl in HE.
    destruct (encoded b) as [|y [|z l]]; simpl in *; [lia| |lia]. by simplify_eq.
Qed.

(** [urlDecode] inverts [urlEncode] on every byte string, and [urlEncode]
    reports a change exactly when its output differs from its input. *)
Theorem urlEncode_urlDecode s :
  wf_bytes s →
  ∃ e ch, urlEncode s = Done (e, ch, None) ∧ (∃ ch', urlDecode e = Done (s, ch', None)) ∧
          (ch = false ↔ e = s).
Proof.
  intros Hs. eexists _, _. split; [by apply urlEncode_eq|]. split.
  - rewrite urlDecode_eq, queryUnescape_eq, unescapeLoop_flat_map by done. by eexists.
  - by apply encoded_flag.
Qed.

Lemma urlEncode_urlDecode_witness :
  ∃ e ch, urlEncode (str "a b/%41") = Done (e, ch, None) ∧
    (∃ ch', urlDecode e = Done (str "a b/%41", ch', None)) ∧ (ch = false ↔ e = str "a b/%41").
Proof. apply (urlEncode_urlDecode (str "a b/%41")). apply wf_bytesb_true. by vm_compute. Defined.

Lemma hexDigit_encode b :
  is_byte b →
  hexDigitToByte (c2xTable !!! Z.to_nat (b / 16)) = Some (b / 16) ∧
  hexDigitToByte (c2xTable !!! Z.to_nat (b mod 16)) = Some (b mod 16).
Proof.
  intros Hb. pose proof (forall_byte (λ b,
    bool_decide (hexDigitToByte (c2xTable !!! Z.to_nat (b / 16)) = Some (b / 16) ∧
      hexDigitToByte (c2xTable !!! Z.to_nat (b mod 16)) = Some (b mod 16)))
    ltac:(by vm_compute) b Hb) as H. by apply bool_decide_eq_true in H.
Qed.

(** [hexDecode] inverts [hexEncode] on every byte string. *)
Theorem hexEncode_hexDecode s :
  wf_bytes s → ∃ e, hexEncode s = Done (e, true, None) ∧ hexDecode e = Done (s, true, None).
Proof.
  intros Hs. eexists. split; [done|]. unfold hexDecode.
  enough (hexDecodeString (flat_map (λ b, [c2xTable !!! Z.to_nat (b / 16);
    c2xTable !!! Z.to_nat (b mod 16)]) s) = Some s) as -> by done.
  induction Hs as [|b s Hb Hs IH]; [done|]. cbn [flat_map app hexDecodeString].
  destruct (hexDigit_encode b Hb) as [-> ->]. rewrite IH. csimpl. do 2 f_equal. dlia.
Qed.

Lemma hexEncode_hexDecode_witness :
  ∃ e, hexEncode (str "a/%") = Done (e, true, None) ∧ hexDecode e = Done (str "a/%", true, None).
Proof. apply hexEncode_hexDecode. apply wf_bytesb_true. by vm_compute. Defined.
