(* ===== verification/TextTransform.v ===== *)
(** The transformations of text: src/internal/transformations/cmd_line.go,
    compress_whitespace.go, lowercase.go, uppercase.go, remove_nulls.go,
    replace_nulls.go, remove_whitespace.go, trim.go, trim_left.go,
    trim_right.go and utf8_to_unicode.go.

    The code walks its input by index and appends to a buffer; the model walks
    the rest of the input.  The theorems give each result by a
    reference definition and say when the reported change is a change. *)

From S2P Require Import Prelude GoLib StringUtil UrlTransform.

(** [make([]byte, len, cap)] panics when the capacity is below the length. *)
Definition makeBytes (len : nat) (cap : Z) : run unit :=
  if (Z.of_nat len <=? cap) then Done tt else Panic.

(** The first position whose byte satisfies [p]. *)
Fixpoint firstIndex (p : Z → bool) (s : bytes) : option nat :=
  match s with
  | [] => None
  | x :: s => if p x then Some O else S <$> firstIndex p s
  end.

(** The first position of a rune that satisfies [p], which also sees its bytes. *)
Fixpoint firstRune (p : Z → bytes → bool) (rs : list (Z * bytes)) : option nat :=
  match rs with
  | [] => None
  | (r, b) :: rs => if p r b then Some O else Nat.add (length b) <$> firstRune p rs
  end.

(** ** cmdLine *)

Definition needsTransform (c : Z) : bool :=
  in_range 0x41 c 0x5A || byte_in c [0x22; 0x27; 0x5c; 0x5e; 0x20; 0x2c; 0x3b; 0x09; 0x0d; 0x0a; 0x2f; 0x28].

(** One byte of the input; the state is [ret], [space] and [changed]. *)
Definition cmdLineStep (st : bytes * bool * bool) (a : Z) : run (bytes * bool * bool) :=
  let '(ret, space, changed) := st in
  if byte_in a [0x22; 0x27; 0x5c; 0x5e] then Done (ret, space, true)
  else if byte_in a [0x20; 0x2c; 0x3b; 0x09; 0x0d; 0x0a] then
    if negb space then Done (ret ++ [0x20], true, changed || negb (a =? 0x20))
    else Done (ret, space, true)
  else if byte_in a [0x2f; 0x28] then
    if (space : bool) then
      if (length ret =? 0)%nat then Panic else
      ret ← slice ret 0 (length ret - 1);
      Done (ret ++ [a], false, true)
    else Done (ret ++ [a], false, changed)
  else if in_range 0x41 a 0x5A then Done (ret ++ [a + 0x20], false, true)
  else Done (ret ++ [a], false, changed).

Definition doCMDLine (input : bytes) (pos : nat) : run (bytes * bool) :=
  '(ret, _, changed) ← foldM cmdLineStep (drop pos input) (take pos input, false, false);
  Done (ret, changed).

Definition cmdLine : transformation := λ data,
  match firstIndex needsTransform data with
  | Some i => '(transformed, changed) ← doCMDLine data i; Done (transformed, changed, None)
  | None => Done (data, false, None)
  end.

(** ** compressWhitespace *)

Definition rawNBSP : Z := 0xA0.

Definition isLatinSpace (r : Z) : bool := byte_in r [0x09; 0x0a; 0x0b; 0x0c; 0x0d; 0x20; 0x85; 0xA0].

(** [isLatinSpace(r) || input[i] == rawNBSP] *)
Definition compressible (r : Z) (b : bytes) : bool :=
  isLatinSpace r || bool_decide (head b = Some rawNBSP).

Definition compressStep (st : bytes * bool * bool) (rb : Z * bytes) : bytes * bool * bool :=
  let '(ret, inWhiteSpace, changed) := st in
  if compressible rb.1 rb.2 then
    if (inWhiteSpace : bool) then (ret, inWhiteSpace, true)
    else (ret ++ [0x20], true, changed || negb (rb.1 =? 0x20))
  else (ret ++ rb.2, false, changed).

Definition doCompressWhitespace (input : bytes) (pos : nat) : bytes * bool :=
  let '(ret, _, changed) := foldl compressStep (take pos input, false, false) (runes (drop pos input)) in
  (ret, changed).

Definition compressWhitespace : transformation := λ value,
  match firstRune compressible (runes value) with
  | Some i => let '(transformedValue, changed) := doCompressWhitespace value i in
      Done (transformedValue, changed, None)
  | None => Done (value, false, None)
  end.

(** ** lowercase, uppercase *)

Definition invalidBytes : bytes := [0xef; 0xbf; 0xbd].

Section case_mapping.
Context `{U : !Unicode}.

(** Whether the lower case of a rune differs from its bytes. *)
Definition lowerChanges (r : Z) (b : bytes) : bool :=
  match b with
  | [current] => if current <? RuneSelf then in_range 0x41 current 0x5A else true
  | _ => negb (uniLower r =? r)
  end.

Definition lowerRune (rb : Z * bytes) : bytes :=
  match rb.2 with
  | [current] =>
      if current <? RuneSelf then [if in_range 0x41 current 0x5A then current + 0x20 else current]
      else invalidBytes
  | _ => EncodeRune (uniLower rb.1)
  end.

(** [utf8.ValidString]: no invalid byte. *)
Definition ValidString (s : bytes) : bool :=
  forallb (λ rb : Z * bytes, match rb.2 with [b] => b <? RuneSelf | _ => true end) (runes s).

(** The capacity that is reserved when the first change is at [firstChange]. *)
Definition lowerCapacity (data : bytes) (firstChange : nat) : run Z :=
  let len := Z.of_nat (length data) in
  first ← index data firstChange;
  if (RuneSelf <=? first) && ((DecodeRune (drop firstChange data)).2 =? 1)%nat then
    let remaining := len - Z.of_nat firstChange in
    Done (if ValidString (drop (firstChange + 1) data) && (len <=? maxInt64 - 2) then len + 2
          else if remaining <=? (maxInt64 - Z.of_nat firstChange) / 3 then Z.of_nat firstChange + 3 * remaining
          else len)
  else Done len.

Definition lowerCase : transformation := λ data,
  match firstRune lowerChanges (runes data) with
  | None => Done (data, false, None)
  | Some firstChange =>
      resultCapacity ← lowerCapacity data firstChange;
      makeBytes 0 resultCapacity;;
      Done (take firstChange data ++ flat_map lowerRune (runes (drop firstChange data)), true, None)
  end.

Definition upperCase : transformation := λ data,
  let transformedData := ToUpper data in Done (transformedData, negb (data =s transformedData), None).

End case_mapping.

(** ** removeNulls, replaceNulls, trim *)

Definition removeNulls : transformation := λ data,
  let transformedData := ReplaceByte data 0x00 [] in
  Done (transformedData, negb (length data =? length transformedData)%nat, None).

Definition replaceNulls : transformation := λ data,
  let transformedData := ReplaceByte data 0x00 [0x20] in
  Done (transformedData, negb (data =s transformedData), None).

Definition trimSpaces : bytes := [0x20; 0x09; 0x0a; 0x0d; 0x0c; 0x0b].

Definition trim : transformation := λ data,
  let transformedData := Trim data trimSpaces in
  Done (transformedData, negb (length data =? length transformedData)%nat, None).

Definition trimLeft : transformation := λ data,
  let transformedData := TrimLeft data trimSpaces in
  Done (transformedData, negb (length data =? length transformedData)%nat, None).

Definition trimRight : transformation := λ data,
  let transformedData := TrimRight data trimSpaces in
  Done (transformedData, negb (length data =? length transformedData)%nat, None).

(** ** removeWhitespace *)

(** What a rune means: an ASCII byte, an invalid byte, or a rune. *)
Definition asciiSpace (c : Z) : bool := byte_in c [0x20; 0x09; 0x0a; 0x0d; 0x0b; 0x0c].

Definition isWhitespace (r : Z) (b : bytes) : bool :=
  match b with
  | [current] => (current <? RuneSelf) && asciiSpace current
  | _ => IsSpace r
  end.

Definition isInvalid (b : bytes) : bool :=
  match b with [current] => RuneSelf <=? current | _ => false end.

Definition whitespaceMappedSize (rs : list (Z * bytes)) (start : nat) : nat * bool :=
  foldl (λ '(outputSize, changed) '(r, b),
    if isWhitespace r b then (outputSize, true)
    else if isInvalid b then ((outputSize + length (EncodeRune RuneError))%nat, changed)
    else ((outputSize + length b)%nat, changed)) (start, false) rs.

Definition mapWithoutWhitespace (data : bytes) (start : nat) : run tresult :=
  let rs := runes (drop start data) in
  let '(outputSize, changed) := whitespaceMappedSize rs start in
  makeBytes 0 (Z.of_nat outputSize);;
  Done (take start data ++
        flat_map (λ '(r, b), if isWhitespace r b then [] else if isInvalid b then invalidBytes else b) rs,
        changed, None).

Definition removeWhitespace : transformation := λ data,
  match firstRune (λ r b, isWhitespace r b || isInvalid b) (runes data) with
  | Some i => mapWithoutWhitespace data i
  | None => Done (data, false, None)
  end.

(** ** utf8toUnicode *)

Definition unicodeEscapeLength (current : Z) : Z :=
  if current <=? 0xffff then 6 else if current <=? 0xfffff then 7 else 8.

(** The hexadecimal digits from [shift = 4 * (n - 1)] down to 0. *)
Fixpoint hexDigits (n : nat) (current : Z) : run bytes :=
  match n with
  | O => Done []
  | S n =>
      c ← index c2xTable (Z.to_nat (Z.land (Z.shiftr current (4 * Z.of_nat n)) 0xf));
      rest ← hexDigits n current;
      Done (c :: rest)
  end.

Definition appendUnicodeEscape (result : bytes) (current : Z) : run bytes :=
  ds ← hexDigits (Z.to_nat (unicodeEscapeLength current - 2)) current;
  Done (result ++ [0x25; 0x75] ++ ds).

Definition unicodeStep (res : bytes) (rb : Z * bytes) : run bytes :=
  let current := rb.1 in
  if current <? RuneSelf then Done (res ++ [u8 current]) else appendUnicodeEscape res current.

Definition unicodeCapacity (input : bytes) (pos : nat) : Z :=
  let len := Z.of_nat (length input) in
  let rest := drop pos input in
  let nonASCIIBytes := Z.of_nat (length (filter (λ b, RuneSelf <= b) rest)) in
  if ((DecodeRune rest).2 =? 1)%nat && (nonASCIIBytes <=? (maxInt64 - len) / 5)
     && negb (len + 5 * nonASCIIBytes =? 0) then len + 5 * nonASCIIBytes
  else
    foldl (λ cap (rb : Z * bytes), if rb.1 <? RuneSelf then cap + 1 else cap + unicodeEscapeLength rb.1)
      (Z.of_nat pos) (runes rest).

Definition doUTF8ToUnicode (input : bytes) (pos : nat) : run bytes :=
  makeBytes pos (unicodeCapacity input pos);;
  foldM unicodeStep (runes (drop pos input)) (take pos input).

Definition utf8ToUnicode : transformation := λ str,
  match firstIndex (λ b, RuneSelf <=? b) str with
  | Some i => out ← doUTF8ToUnicode str i; Done (out, true, None)
  | None => Done (str, false, None)
  end.

(** ** Honest transformations

    A transformation returns on every byte string, with a byte string; when it
    reports neither a change nor an error its output is its input.  Rules with
    multiMatch rely on it to evaluate each value once. *)
Definition honest (t : transformation) : Prop := ∀ data, wf_bytes data →
  wp (t data) (λ '(out, changed, err), wf_bytes out ∧ (changed = false → err = None → out = data)).

Lemma firstIndex_Some p s i :
  firstIndex p s = Some i →
  (i < length s)%nat ∧ Forall (λ x, p x = false) (take i s) ∧ ∃ x, s !! i = Some x ∧ p x = true.
Proof.
  revert i. induction s as [|x s IH]; intros i; cbn; [done|]. destruct (p x) eqn:E.
  - intros [= <-]. split; [lia|]. split; [constructor|by exists x].
  - intros (j & Hj & ->)%fmap_Some. destruct (IH j Hj) as (? & ? & ?). cbn.
    split; [lia|]. split; [by constructor|done].
Qed.

Lemma firstIndex_None p s : firstIndex p s = None → Forall (λ x, p x = false) s.
Proof.
  induction s as [|x s IH]; cbn; [constructor|]. destruct (p x) eqn:E; [done|].
  intros H%fmap_None. constructor; [done|by apply IH].
Qed.

(** The runes before the first one that satisfies [p] do not, and the position
    is a boundary between runes. *)
Lemma firstRune_Some p s i :
  firstRune p (runes s) = Some i →
  (i < length s)%nat ∧ drop i s ≠ [] ∧
  ∃ rs, runes s = rs ++ runes (drop i s) ∧ concat rs.*2 = take i s ∧
    Forall (λ rb, p rb.1 rb.2 = false) rs ∧
    p (DecodeRune (drop i s)).1 (take (DecodeRune (drop i s)).2 (drop i s)) = true.
Proof.
  revert i. induction s as [|s Hs IH] using runes_ind; intros i; [done|].
  rewrite runes_cons by done. cbn [firstRune]. pose proof (DecodeRune_size s Hs) as Hsz.
  destruct (p _ _) eqn:E.
  - intros [= <-]. rewrite drop_0. split; [lia|]. split; [done|]. exists [].
    rewrite <- runes_cons by done. done.
  - intros (j & Hj & ->)%fmap_Some. destruct (IH j Hj) as (Hlt & Hne & rs & H1 & H2 & H3 & H4).
    rewrite length_take, Nat.min_l by lia. rewrite drop_drop in *. rewrite length_drop in Hlt.
    split; [lia|]. split; [done|]. exists (((DecodeRune s).1, take (DecodeRune s).2 s) :: rs).
    split; [by rewrite H1|]. split; [|split; [by constructor|done]].
    csimpl. rewrite H2. by rewrite take_take_drop.
Qed.

Lemma firstRune_None p s :
  firstRune p (runes s) = None → Forall (λ rb, p rb.1 rb.2 = false) (runes s).
Proof.
  induction (runes s) as [|[r b] rs IH]; cbn; [constructor|]. destruct (p r b) eqn:E; [done|].
  intros H%fmap_None. constructor; [done|by apply IH].
Qed.

(** ** cmdLine *)

Definition cmdSafe (c : Z) : bool :=
  negb (byte_in c [0x22; 0x27; 0x5c; 0x5e; 0x2c; 0x3b; 0x09; 0x0d; 0x0a]) && negb (in_range 0x41 c 0x5A).

(** The form of a command line that [cmdLine] leaves alone. *)
Fixpoint cmdNormal (s : bytes) : bool :=
  match s with
  | [] => true
  | x :: r =>
      cmdSafe x && negb ((x =? 0x20) && match r with y :: _ => byte_in y [0x20; 0x2f; 0x28] | [] => false end)
      && cmdNormal r
  end.

Lemma cmdNormal_snoc s a :
  cmdNormal (s ++ [a]) = cmdNormal s && cmdSafe a
    && negb (bool_decide (last s = Some 0x20) && byte_in a [0x20; 0x2f; 0x28]).
Proof.
  induction s as [|x s IH]; [cbn; destruct (cmdSafe a), (a =? 32); done|].
  cbn [app cmdNormal]. rewrite IH. destruct s as [|y s].
  - change (last [x]) with (Some x). change (last (@nil Z)) with (@None Z).
    rewrite (bool_decide_false (None = Some 32)) by done. cbn [app cmdNormal].
    destruct (Z.eqb_spec x 0x20) as [Hx|Hx];
      [rewrite bool_decide_true by congruence|rewrite bool_decide_false by congruence];
      destruct (cmdSafe x), (cmdSafe a), (byte_in a _); done.
  - change (last (x :: y :: s)) with (last (y :: s)). cbn [app].
    destruct (cmdSafe x), (negb ((x =? 32) && byte_in y [32; 47; 40])), (cmdNormal (y :: s)); done.
Qed.

(** The state after a prefix of the input: the output is normal, [space]
    tells its last byte, and [changed] whether it differs from the prefix. *)
Definition cmdInv (pre : bytes) (st : bytes * bool * bool) : Prop :=
  let '(ret, space, changed) := st in
  cmdNormal ret = true ∧ space = bool_decide (last ret = Some 0x20) ∧ (length ret ≤ length pre)%nat ∧
  (changed = false ↔ ret = pre) ∧ (wf_bytes pre → wf_bytes ret).

Lemma cmdInv_append pre ret changed a b :
  cmdNormal ret = true → (length ret ≤ length pre)%nat → (changed = false ↔ ret = pre) → (wf_bytes pre → wf_bytes ret) →
  cmdSafe b = true → (last ret = Some 0x20 → byte_in b [0x20; 0x2f; 0x28] = false) → (is_byte a → is_byte b) →
  cmdInv (pre ++ [a]) (ret ++ [b], b =? 0x20, changed || negb (a =? b)).
Proof.
  intros Hn Hl Hc Hw Hb Hlast Hab. unfold cmdInv. rewrite cmdNormal_snoc, Hn, Hb, last_snoc, !length_app.
  split; [|split; [|split; [|split]]].
  - destruct (decide (last ret = Some 0x20)) as [E|E]; [rewrite Hlast by done; by rewrite andb_false_r|].
    by rewrite bool_decide_false by done.
  - destruct (Z.eqb_spec b 0x20) as [Hx|Hx];
      [by rewrite bool_decide_true by congruence|by rewrite bool_decide_false by congruence].
  - cbn. lia.
  - rewrite orb_false_iff, negb_false_iff, Z.eqb_eq, app_inj_tail_iff, Hc. intuition congruence.
  - rewrite !Forall_app, !Forall_singleton. tauto.
Qed.

Lemma cmdInv_shorter pre ret a space :
  cmdNormal ret = true → space = bool_decide (last ret = Some 0x20) → (length ret ≤ length pre)%nat →
  (wf_bytes pre → wf_bytes ret) → cmdInv (pre ++ [a]) (ret, space, true).
Proof.
  intros Hn Hs Hl Hw. unfold cmdInv. rewrite length_app. cbn. split; [done|]. split; [done|]. split; [lia|]. split.
  - split; [done|]. intros E%(f_equal length). rewrite length_app in E. cbn in E. lia.
  - rewrite Forall_app. tauto.
Qed.

Lemma cmdLineStep_inv pre st a : cmdInv pre st → wp (cmdLineStep st a) (cmdInv (pre ++ [a])).
Proof.
  destruct st as [[ret space] changed]. intros (Hn & Hs & Hl & Hc & Hw). unfold cmdLineStep.
  destruct (byte_in a [0x22; _; _; _]) eqn:E1; [by apply cmdInv_shorter|].
  destruct (byte_in a [0x20; _; _; _; _; _]) eqn:E2.
  { destruct space; [by apply cmdInv_shorter|]. symmetry in Hs. apply bool_decide_eq_false_1 in Hs.
    by apply cmdInv_append with (b := 0x20). }
  assert (a ≠ 0x20) as Ha by (intros ->; discriminate E2).
  destruct (byte_in a [0x2f; 0x28]) eqn:E3.
  - assert (cmdSafe a = true) as Hsafe by (unfold cmdSafe, in_range, byte_in, existsb in *; lia).
    assert (byte_in a [0x20; 0x2f; 0x28] = true) as Hin by (cbn in *; lia).
    destruct space; symmetry in Hs; [apply bool_decide_eq_true_1 in Hs|apply bool_decide_eq_false_1 in Hs].
    + apply last_Some in Hs as [r0 ->]. rewrite length_app in *. cbn [length] in *.
      destruct (Nat.eqb_spec (length r0 + 1) 0); [lia|]. rewrite slice_prefix by (rewrite length_app; lia).
      run_simpl. rewrite Nat.add_sub, take_app_length. cbn.
      rewrite cmdNormal_snoc in Hn. apply andb_true_iff in Hn as [Hn Hns]. apply andb_true_iff in Hn as [Hn _].
      pose proof (cmdInv_append pre r0 true a a Hn ltac:(lia)) as H. rewrite Z.eqb_refl in H.
      rewrite (proj2 (Z.eqb_neq _ _) Ha) in H. apply H; [|rewrite Forall_app in Hw; tauto|done| |done].
      * split; [done|]. intros ->. lia.
      * intros E. rewrite bool_decide_true in Hns by done. done.
    + pose proof (cmdInv_append pre ret changed a a Hn Hl Hc Hw Hsafe) as H. rewrite Z.eqb_refl, orb_false_r in H.
      rewrite (proj2 (Z.eqb_neq _ _) Ha) in H. apply H; done.
  - assert (byte_in a [0x20; 0x2f; 0x28] = false) as Hb by (cbn in *; lia).
    destruct (in_range 0x41 a 0x5A) eqn:E4.
    + pose proof (cmdInv_append pre ret changed a (a + 0x20) Hn Hl Hc Hw) as H.
      clear - E4 H. unfold in_range in E4. replace (a =? a + 0x20) with false in H by lia.
      replace (a + 0x20 =? 0x20) with false in H by lia. rewrite orb_true_r in H.
      apply H; [|intros _|]; unfold cmdSafe, in_range, byte_in, existsb, is_byte in *; lia.
    + pose proof (cmdInv_append pre ret changed a a Hn Hl Hc Hw) as H. rewrite Z.eqb_refl, orb_false_r in H.
      rewrite (proj2 (Z.eqb_neq _ _) Ha) in H.
      apply H; [|done|done]. unfold cmdSafe, in_range, byte_in, existsb in *; lia.
Qed.

(** A byte that [needsTransform] does not see is safe and not a space. *)
Lemma untouched_normal s : Forall (λ x, needsTransform x = false) s → cmdNormal s = true ∧ last s ≠ Some 0x20.
Proof.
  induction s as [|x s IH] using rev_ind; [done|]. intros [Hs Hx]%Forall_app.
  apply Forall_cons in Hx as [Hx _]. destruct (IH Hs) as [Hn Hl]. rewrite cmdNormal_snoc, last_snoc, Hn.
  rewrite bool_decide_false by done. clear IH Hs. cbv beta in Hx.
  unfold needsTransform, cmdSafe, byte_in, existsb, in_range in *. split; [lia|]. intros [= ->]. lia.
Qed.

Lemma cmdLine_ok data :
  wp (cmdLine data) (λ '(out, changed, err),
    cmdNormal out = true ∧ (changed = false ↔ out = data) ∧ err = None ∧ (wf_bytes data → wf_bytes out)).
Proof.
  unfold cmdLine. destruct (firstIndex needsTransform data) as [i|] eqn:E.
  - apply firstIndex_Some in E as (Hi & Hpre & _). unfold doCMDLine.
    destruct (untouched_normal _ Hpre) as [Hn Hl].
    assert (wp (foldM cmdLineStep (drop i data) (take i data, false, false)) (cmdInv data)) as H.
    { rewrite <- (take_drop i data) at 3. apply foldM_prefix; [intros; by apply cmdLineStep_inv|].
      split; [done|]. rewrite bool_decide_false by done. done. }
    apply wp_elim in H as ([[ret space] changed] & -> & Hn' & _ & _ & Hc & Hw). cbn. done.
  - apply firstIndex_None, untouched_normal in E as [Hn _]. cbn. done.
Qed.

Lemma cmdNormal_prefix s t : cmdNormal (s ++ t) = true → cmdNormal s = true.
Proof.
  induction t as [|x t IH] using rev_ind; [by rewrite app_nil_r|]. rewrite app_assoc, cmdNormal_snoc.
  intros [[H _]%andb_true_iff _]%andb_true_iff. by apply IH.
Qed.

Lemma cmdLineStep_fix pre a :
  cmdNormal (pre ++ [a]) = true →
  cmdLineStep (pre, bool_decide (last pre = Some 0x20), false) a =
  Done (pre ++ [a], bool_decide (last (pre ++ [a]) = Some 0x20), false).
Proof.
  rewrite cmdNormal_snoc, last_snoc. intros [[_ Hs]%andb_true_iff Hn]%andb_true_iff. unfold cmdLineStep.
  assert (bool_decide (Some a = Some 0x20) = (a =? 0x20)) as ->
    by (destruct (Z.eqb_spec a 0x20); [by rewrite bool_decide_true by congruence|by rewrite bool_decide_false by congruence]).
  destruct (bool_decide (last pre = Some 0x20)); cbn [andb negb] in *;
    unfold cmdSafe, byte_in, existsb, in_range in *; split_ifs; try lia; try done; repeat f_equal; lia.
Qed.

Lemma cmdLine_fix s pre :
  cmdNormal (pre ++ s) = true →
  foldM cmdLineStep s (pre, bool_decide (last pre = Some 0x20), false) =
  Done (pre ++ s, bool_decide (last (pre ++ s) = Some 0x20), false).
Proof.
  revert pre. induction s as [|a s IH]; intros pre Hn; [by rewrite app_nil_r|]. cbn [foldM].
  replace (pre ++ a :: s) with ((pre ++ [a]) ++ s) in * by (by rewrite <- app_assoc).
  rewrite cmdLineStep_fix by (by eapply cmdNormal_prefix). run_simpl. by apply IH.
Qed.

(** [cmdLine] returns on every input.  Its output is a normal command
    line: no quote, backslash, caret, comma, semicolon, upper case letter or
    white space but single spaces, none of them before a slash or an opening
    parenthesis.  The change is reported exactly when the output differs, and
    the transformation leaves its own output alone. *)
Theorem cmdLine_normal data :
  wp (cmdLine data) (λ '(out, changed, err),
    cmdNormal out = true ∧ (changed = false ↔ out = data) ∧ err = None ∧ cmdLine out = Done (out, false, None)).
Proof.
  eapply wp_mono; [apply cmdLine_ok|]. intros [[out changed] err] (Hn & Hc & He & _).
  split; [done|]. split; [done|]. split; [done|]. unfold cmdLine.
  destruct (firstIndex needsTransform out) as [i|] eqn:E; [|done].
  apply firstIndex_Some in E as (_ & [_ Hl]%untouched_normal & _). unfold doCMDLine.
  pose proof (cmdLine_fix (drop i out) (take i out)) as H.
  rewrite take_drop, bool_decide_false in H by done. by rewrite H.
Qed.

Lemma cmdLine_honest : honest cmdLine.
Proof.
  intros data Hd. eapply wp_mono; [apply cmdLine_ok|].
  intros [[out changed] err] (_ & Hc & _ & Hw). split; [by apply Hw|]. intros H _. by apply Hc.
Qed.

(** ** Buffers that grow with the input

    [tracks pre ret changed]: the output for the prefix [pre] is [ret], not
    longer, and [changed] tells whether they differ. *)
Definition tracks (pre ret : bytes) (changed : bool) : Prop :=
  (length ret ≤ length pre)%nat ∧ (changed = false ↔ ret = pre).

Lemma tracks_start pre : tracks pre pre false.
Proof. by split. Qed.

Lemma tracks_same pre ret changed b : tracks pre ret changed → tracks (pre ++ b) (ret ++ b) changed.
Proof.
  intros [Hl Hc]. split; [rewrite !length_app; lia|]. rewrite Hc. split; [by intros ->|].
  apply app_inv_tail.
Qed.

Lemma tracks_less pre ret changed b out :
  tracks pre ret changed → (length out < length b)%nat → tracks (pre ++ b) (ret ++ out) true.
Proof.
  intros [Hl Hc] Ho. split; [rewrite !length_app; lia|]. split; [done|].
  intros E%(f_equal length). rewrite !length_app in E. lia.
Qed.

Lemma tracks_diff pre ret changed b out :
  tracks pre ret changed → length out = length b → out ≠ b → tracks (pre ++ b) (ret ++ out) true.
Proof.
  intros [Hl Hc] Ho Hne. split; [rewrite !length_app; lia|]. split; [done|].
  intros E. by apply app_inj_2 in E as [_ E].
Qed.

Lemma foldl_prefix {A S} (f : S → A → S) (P : list A → S → Prop) l : ∀ pre s,
  (∀ pre s x, x ∈ l → P pre s → P (pre ++ [x]) (f s x)) → P pre s → P (pre ++ l) (foldl f s l).
Proof.
  induction l as [|x l IH]; intros pre s Hf Hs; [by rewrite app_nil_r|]. cbn [foldl].
  replace (pre ++ x :: l) with ((pre ++ [x]) ++ l) by (by rewrite <- app_assoc).
  apply IH; [intros; apply Hf; [by right|done]|]. apply Hf; [left|done].
Qed.

Lemma compressStep_tracks pre st rb :
  rune_of rb → tracks (concat pre.*2) st.1.1 st.2 →
  tracks (concat (pre ++ [rb]).*2) (compressStep st rb).1.1 (compressStep st rb).2.
Proof.
  destruct st as [[ret white] changed]. intros Hr Ht. cbn in Ht.
  rewrite fmap_app, concat_app. cbn [fmap list_fmap concat]. rewrite app_nil_r. unfold compressStep.
  destruct (compressible rb.1 rb.2) eqn:E; [|by apply tracks_same].
  destruct white; cbn [fst snd].
  - rewrite <- (app_nil_r ret). eapply tracks_less; [done|]. destruct Hr; cbn; lia.
  - destruct Hr as [b Hb|b Hb|r b _ Hr _ Hb]; cbn [fst snd] in *.
    + destruct (Z.eqb_spec b 0x20) as [->|Hne]; [rewrite orb_false_r; by apply tracks_same|].
      rewrite orb_true_r. eapply tracks_diff; [done|done|congruence].
    + rewrite orb_true_r. eapply tracks_diff; [done|done|]. unfold RuneSelf in Hb. intros [= <-]. lia.
    + replace (r =? 0x20) with false by (unfold RuneSelf in Hr; lia). rewrite orb_true_r.
      by eapply tracks_less.
Qed.

Lemma compressStep_wf st rb : wf_bytes st.1.1 → wf_bytes rb.2 → wf_bytes (compressStep st rb).1.1.
Proof.
  destruct st as [[ret white] changed]. cbn. intros H1 H2. destruct (compressible _ _), white; cbn; try done;
    apply Forall_app; (split; [done|]); done || (repeat constructor; unfold is_byte; lia).
Qed.

Lemma rune_bytes s rb : wf_bytes s → rb ∈ runes s → wf_bytes rb.2.
Proof.
  intros Hs. revert rb. apply (Forall_forall (λ rb : Z * bytes, wf_bytes rb.2)). induction s as [|s Hne IH] using runes_ind; [constructor|].
  rewrite runes_cons by done. constructor; [by apply Forall_take|]. apply IH. by apply Forall_drop.
Qed.

(** The change that [compressWhitespace] reports is a change of the value. *)
Lemma compressWhitespace_ok data :
  wf_bytes data →
  wp (compressWhitespace data) (λ '(out, changed, err),
    wf_bytes out ∧ (changed = false ↔ out = data) ∧ err = None ∧ (length out ≤ length data)%nat).
Proof.
  intros Hd. unfold compressWhitespace. destruct (firstRune compressible (runes data)) as [i|] eqn:E; [|done].
  unfold doCompressWhitespace. pose proof (Forall_drop _ i _ Hd) as Hdrop.
  pose proof (runes_of _ Hdrop) as Hrs. rewrite Forall_forall in Hrs.
  apply firstRune_Some in E as (_ & _ & rs & Hr & Hpre & _).
  pose proof (foldl_prefix compressStep (λ pre st, tracks (concat pre.*2) st.1.1 st.2 ∧ wf_bytes st.1.1)
    (runes (drop i data)) rs (take i data, false, false)) as H.
  rewrite <- Hr, runes_concat in H. destruct (foldl _ _ _) as [[ret white] changed]. cbn.
  destruct H as [[Hl Hc] Hw]; [| |done].
  - intros pre st x Hx [Ht Hw]. split; [by apply compressStep_tracks; [apply Hrs|]|].
    apply compressStep_wf; [done|]. exact (rune_bytes _ _ Hdrop Hx).
  - cbn. rewrite Hpre. split; [apply tracks_start|by apply Forall_take].
Qed.

(** ** lowercase is [strings.ToLower] *)

Section lowercase.
Context `{U : !Unicode}.

Lemma lowerRune_encode rb : rune_of rb → lowerRune rb = EncodeRune (uniLower rb.1) ∧ valid_rune (uniLower rb.1).
Proof.
  intros [b Hb|b Hb|r b Hv Hr E Hl]; cbn [lowerRune fst snd].
  - rewrite uniLower_ascii by done. unfold RuneSelf, valid_rune in *.
    replace (b <? 0x80) with true by lia. unfold EncodeRune, in_range. split; [|split_ifs; lia].
    split_ifs; try lia; done.
  - rewrite uniLower_error. replace (b <? RuneSelf) with false by lia. split; [done|]. unfold valid_rune, RuneError. lia.
  - split; [|by apply uniLower_valid]. unfold lowerRune. cbn [fst snd]. destruct b as [|x [|y b]]; cbn in *; [lia|lia|done].
Qed.

Lemma lowerChanges_spec rb :
  rune_of rb →
  if lowerChanges rb.1 rb.2
  then (uniLower rb.1, length (EncodeRune (uniLower rb.1))) ≠ (rb.1, length rb.2)
  else lowerRune rb = rb.2.
Proof.
  intros [b Hb|b Hb|r b Hv Hr E Hl]; cbn [fst snd].
  - unfold lowerChanges, lowerRune. cbn [fst snd]. replace (b <? RuneSelf) with true by lia.
    rewrite uniLower_ascii by done. destruct (in_range 0x41 b 0x5A); [|done]. intros [= H _]. lia.
  - unfold lowerChanges. replace (b <? RuneSelf) with false by lia. rewrite uniLower_error. done.
  - assert (lowerChanges r b = negb (uniLower r =? r)) as -> by (by destruct b as [|x [|y b]]; [cbn in Hl; lia..|]).
    destruct (Z.eqb_spec (uniLower r) r) as [Er|Er]; cbn [negb]; [|congruence].
    destruct (lowerRune_encode (r, b)) as [-> _]; [by apply rune_valid|]. cbn. by rewrite Er.
Qed.

Lemma lowerRunes_ToLower s : wf_bytes s → flat_map lowerRune (runes s) = ToLower s.
Proof.
  intros Hs. unfold ToLower, MapRunes. pose proof (runes_of s Hs) as H.
  induction H as [|rb rs Hrb _ IH]; [done|]. cbn [flat_map]. rewrite IH. f_equal.
  destruct (lowerRune_encode rb Hrb) as [-> Hv]. cbv zeta.
  replace (uniLower rb.1 <? 0) with false by (unfold valid_rune in Hv; lia). done.
Qed.

Lemma unchanged_runes rs :
  Forall rune_of rs → Forall (λ rb, lowerChanges rb.1 rb.2 = false) rs → flat_map lowerRune rs = concat rs.*2.
Proof.
  intros H. induction H as [|rb rs Hrb _ IH]; intros Hf; [done|]. apply Forall_cons in Hf as [Hf Hrs].
  csimpl. pose proof (lowerChanges_spec rb Hrb) as Hs. rewrite Hf in Hs. by rewrite Hs, IH.
Qed.

(** A string whose first rune changes differs from its lower case. *)
Lemma lower_differs s :
  wf_bytes s → s ≠ [] → lowerChanges (DecodeRune s).1 (take (DecodeRune s).2 s) = true → ToLower s ≠ s.
Proof.
  intros Hs Hne Hch E. pose proof (runes_of s Hs) as Hrs. rewrite runes_cons in Hrs by done.
  apply Forall_cons in Hrs as [Hr _]. pose proof (lowerChanges_spec _ Hr) as H. cbn [fst snd] in H. rewrite Hch in H.
  destruct (lowerRune_encode _ Hr) as [_ Hv]. cbn [fst snd] in Hv.
  pose proof (DecodeRune_size s Hne) as Hsz. rewrite length_take, Nat.min_l in H by lia. apply H.
  rewrite <- surjective_pairing. rewrite <- E at 3. unfold ToLower. rewrite MapRunes_cons by done. cbv zeta.
  replace (uniLower (DecodeRune s).1 <? 0) with false by (unfold valid_rune in Hv; lia).
  by rewrite DecodeRune_EncodeRune.
Qed.

Lemma lowerCapacity_ok data i : (i < length data)%nat → wp (lowerCapacity data i) (λ cap, 0 <= cap).
Proof.
  intros Hi. unfold lowerCapacity. rewrite index_lt by done. run_simpl. split_ifs; cbn; lia.
Qed.

Lemma lowerCase_eq data :
  wf_bytes data → lowerCase data = Done (ToLower data, negb (data =s ToLower data), None).
Proof.
  intros Hd. unfold lowerCase. destruct (firstRune lowerChanges (runes data)) as [i|] eqn:E.
  - apply firstRune_Some in E as (Hi & Hne & rs & Hr & Hpre & Hrs & Hch).
    destruct (wp_elim _ _ (lowerCapacity_ok data i Hi)) as (cap & -> & Hcap). run_simpl.
    unfold makeBytes. replace (Z.of_nat 0 <=? cap) with true by lia. run_simpl.
    pose proof (runes_of data Hd) as Hall. rewrite Hr in Hall. apply Forall_app in Hall as [H1 _].
    assert (ToLower data = take i data ++ ToLower (drop i data)) as Elow.
    { rewrite <- (lowerRunes_ToLower data Hd), Hr, flat_map_app, unchanged_runes, Hpre by done.
      by rewrite lowerRunes_ToLower by (by apply Forall_drop). }
    rewrite lowerRunes_ToLower by (by apply Forall_drop). rewrite Elow.
    replace (data =s _) with false; [done|]. symmetry. apply bytes_eqb_neq. intros Heq.
    rewrite <- (take_drop i data) in Heq at 1. apply app_inv_head in Heq.
    by apply (lower_differs (drop i data)) in Hch; [|by apply Forall_drop|done].
  - apply firstRune_None in E. assert (ToLower data = data) as ->.
    { rewrite <- lowerRunes_ToLower, unchanged_runes by (done || by apply runes_of). apply runes_concat. }
    by rewrite (proj2 (bytes_eqb_eq _ _) eq_refl).
Qed.

(** [lowerCase], which copies ASCII bytes without decoding them and writes
    nothing before the first change, is [strings.ToLower] on every byte string,
    and reports a change exactly when the result differs. *)
Theorem lowerCase_ToLower data :
  wf_bytes data → lowerCase data = Done (ToLower data, negb (data =s ToLower data), None).
Proof. apply lowerCase_eq. Qed.
End lowercase.

Lemma lowerCase_ToLower_witness :
  @lowerCase latin1 [0x41; 0xc3; 0x89; 0xff; 0x62] =
    Done ([0x61; 0xc3; 0xa9; 0xef; 0xbf; 0xbd; 0x62], true, None).
Proof.
  rewrite (@lowerCase_ToLower latin1) by (apply wf_bytesb_true; reflexivity). vm_compute. reflexivity.
Defined.

Lemma compressWhitespace_honest : honest compressWhitespace.
Proof.
  intros data Hd. eapply wp_mono; [by apply compressWhitespace_ok|].
  intros [[out changed] err] (Hw & Hc & _). split; [done|]. intros H _. by apply Hc.
Qed.

Lemma lowerCase_honest `{U : !Unicode} : honest lowerCase.
Proof.
  intros data Hd. rewrite lowerCase_eq by done. cbn. split; [apply ToLower_wf|].
  intros H%negb_false_iff%bytes_eqb_eq _. done.
Qed.

Lemma upperCase_honest `{U : !Unicode} : honest upperCase.
Proof.
  intros data Hd. cbn. split; [apply MapRunes_wf|]. intros H%negb_false_iff%bytes_eqb_eq _. done.
Qed.

(** ** removeNulls, replaceNulls, trim *)

Lemma ReplaceByte_empty s c :
  (length (ReplaceByte s c []) ≤ length s)%nat ∧ (length s = length (ReplaceByte s c []) → ReplaceByte s c [] = s).
Proof.
  unfold ReplaceByte. induction s as [|x s [Hl IH]]; [done|]. cbn. destruct (x =? c); cbn.
  - split; [lia|]. intros E. lia.
  - split; [lia|]. intros [= E]. by rewrite IH.
Qed.

Lemma removeNulls_honest : honest removeNulls.
Proof.
  intros data Hd. cbn. split; [by apply ReplaceByte_wf|]. intros H%negb_false_iff%Nat.eqb_eq _.
  by apply ReplaceByte_empty.
Qed.

Lemma replaceNulls_honest : honest replaceNulls.
Proof.
  intros data Hd. cbn. split; [apply ReplaceByte_wf; [done|by apply wf_bytesb_true]|].
  intros H%negb_false_iff%bytes_eqb_eq _. done.
Qed.

(** Trimming gives a part of the input. *)
Lemma TrimRight_prefix s set : ∃ p, s = TrimRight s set ++ p.
Proof.
  unfold TrimRight. destruct (TrimLeft_suffix (reverse s) set) as (p & H & _).
  exists (reverse p). rewrite <- reverse_app, <- H. by rewrite reverse_involutive.
Qed.

Lemma trimmed_honest (t : bytes → bytes) :
  (∀ s, ∃ p q, s = p ++ t s ++ q) →
  honest (λ data, Done (t data, negb (length data =? length (t data))%nat, None)).
Proof.
  intros Ht data Hd. cbn. destruct (Ht data) as (p & q & E). split.
  - rewrite E in Hd. apply Forall_app in Hd as [_ Hd]. by apply Forall_app in Hd as [Hd _].
  - intros H%negb_false_iff%Nat.eqb_eq _. rewrite E in H at 1. rewrite !length_app in H.
    assert (p = [] ∧ q = []) as [-> ->] by (destruct p, q; cbn in *; split; done || lia).
    cbn in E. by rewrite app_nil_r in E.
Qed.

Lemma trimLeft_honest : honest trimLeft.
Proof.
  apply (trimmed_honest (λ s, TrimLeft s trimSpaces)). intros s.
  destruct (TrimLeft_suffix s trimSpaces) as (p & H & _). exists p, []. by rewrite app_nil_r.
Qed.

Lemma trimRight_honest : honest trimRight.
Proof.
  apply (trimmed_honest (λ s, TrimRight s trimSpaces)). intros s.
  destruct (TrimRight_prefix s trimSpaces) as [q H]. by exists [], q.
Qed.

Lemma trim_honest : honest trim.
Proof.
  apply (trimmed_honest (λ s, Trim s trimSpaces)). intros s. unfold Trim.
  destruct (TrimLeft_suffix s trimSpaces) as (p & H & _).
  destruct (TrimRight_prefix (TrimLeft s trimSpaces) trimSpaces) as [q Hq]. exists p, q. by rewrite <- Hq.
Qed.

(** ** removeWhitespace *)

Definition keepRune (rb : Z * bytes) : bytes :=
  if isWhitespace rb.1 rb.2 then [] else if isInvalid rb.2 then invalidBytes else rb.2.

Lemma whitespaceMappedSize_changed rs start :
  (whitespaceMappedSize rs start).2 = existsb (λ rb, isWhitespace rb.1 rb.2) rs.
Proof.
  unfold whitespaceMappedSize. assert (∀ n c, (foldl (λ '(outputSize, changed) '(r, b),
    if isWhitespace r b then (outputSize, true)
    else if isInvalid b then ((outputSize + length (EncodeRune RuneError))%nat, changed)
    else ((outputSize + length b)%nat, changed)) (n, c) rs).2 = c || existsb (λ rb, isWhitespace rb.1 rb.2) rs) as H.
  { induction rs as [|[r b] rs IH]; intros n c; cbn; [by rewrite orb_false_r|].
    destruct (isWhitespace r b); [by rewrite IH, orb_true_r|]. by destruct (isInvalid b); rewrite IH. }
  apply H.
Qed.

Lemma keepRune_same rs :
  Forall (λ rb, isWhitespace rb.1 rb.2 || isInvalid rb.2 = false) rs →
  flat_map keepRune rs = concat rs.*2 ∧ existsb (λ rb, isWhitespace rb.1 rb.2) rs = false.
Proof.
  induction 1 as [|rb rs [H1 H2]%orb_false_iff _ [IH1 IH2]]; [done|]. csimpl. unfold keepRune at 1.
  by rewrite IH1, IH2, H1, H2.
Qed.

Lemma removeWhitespace_eq data :
  removeWhitespace data =
  Done (flat_map keepRune (runes data), existsb (λ rb, isWhitespace rb.1 rb.2) (runes data), None).
Proof.
  unfold removeWhitespace. destruct (firstRune _ (runes data)) as [i|] eqn:E.
  - apply firstRune_Some in E as (_ & _ & rs & Hr & Hpre & Hrs & _). apply keepRune_same in Hrs as [H1 H2].
    rewrite Hr, flat_map_app, existsb_app, H1, H2, Hpre. unfold mapWithoutWhitespace.
    pose proof (whitespaceMappedSize_changed (runes (drop i data)) i) as H.
    destruct (whitespaceMappedSize _ _) as [size changed]. cbn in H. unfold makeBytes.
    replace (Z.of_nat 0 <=? Z.of_nat size) with true by lia. run_simpl. rewrite H. cbn [orb]. do 3 f_equal.
    apply f_equal, flat_map_ext. by intros [r b].
  - apply firstRune_None, keepRune_same in E as [H1 H2]. by rewrite H1, H2, runes_concat.
Qed.

(** Without white space the output is the input, or longer. *)
Lemma keepRune_longer rs :
  existsb (λ rb, isWhitespace rb.1 rb.2) rs = false →
  (length (concat rs.*2) ≤ length (flat_map keepRune rs))%nat ∧
  if existsb (λ rb, isInvalid rb.2) rs
  then (length (concat rs.*2) < length (flat_map keepRune rs))%nat
  else flat_map keepRune rs = concat rs.*2.
Proof.
  induction rs as [|rb rs IH]; [done|]. cbn [existsb flat_map fmap list_fmap concat].
  intros [H1 H2]%orb_false_iff. destruct (IH H2) as [Hl Hi]. rewrite !length_app. unfold keepRune at 1 3 5.
  rewrite H1. destruct (isInvalid rb.2) eqn:E; cbn [orb].
  - assert (length rb.2 = 1%nat) as -> by (by destruct rb.2 as [|? [|? ?]]). cbn. lia.
  - split; [lia|]. revert Hi. destruct (existsb (λ rb, isInvalid rb.2) rs); [lia|]. by intros ->.
Qed.

(** [removeWhitespace] drops the white space runes of its input, writes
    U+FFFD for an invalid byte, and reports a change exactly when it dropped a
    rune: a value with an invalid byte and no white space is reported as
    unchanged although it differs. *)
Theorem removeWhitespace_spec data :
  let dropped := existsb (λ rb, isWhitespace rb.1 rb.2) (runes data) in
  removeWhitespace data = Done (flat_map keepRune (runes data), dropped, None) ∧
  (dropped = false →
   flat_map keepRune (runes data) ≠ data ↔ existsb (λ rb, isInvalid rb.2) (runes data) = true).
Proof.
  cbv zeta. split; [apply removeWhitespace_eq|]. intros H%keepRune_longer. rewrite runes_concat in H.
  destruct H as [_ H]. revert H. destruct (existsb (λ rb, isInvalid rb.2) (runes data)); [|by intros ->].
  intros H. split; [done|]. intros _ E. rewrite E in H. lia.
Qed.

Lemma removeWhitespace_spec_witness :
  removeWhitespace [0x61; 0xff] = Done ([0x61; 0xef; 0xbf; 0xbd], false, None) ∧
  flat_map keepRune (runes [0x61; 0xff]) ≠ [0x61; 0xff].
Proof.
  destruct (removeWhitespace_spec [0x61; 0xff]) as [E H]. split; [rewrite E; vm_compute; reflexivity|].
  apply H; vm_compute; reflexivity.
Defined.

(** ** utf8toUnicode *)

(** The escape of a rune that is not ASCII. *)
Definition unicodeEscape (rb : Z * bytes) : bytes :=
  if rb.1 <? RuneSelf then [rb.1] else
  let n := Z.to_nat (unicodeEscapeLength rb.1 - 2) in
  [0x25; 0x75] ++ ((λ k, c2xTable !!! Z.to_nat ((rb.1 / 16 ^ Z.of_nat k) mod 16)) <$> reverse (seq 0 n)).

Lemma hexDigits_eq n r :
  0 <= r → hexDigits n r = Done ((λ k, c2xTable !!! Z.to_nat ((r / 16 ^ Z.of_nat k) mod 16)) <$> reverse (seq 0 n)).
Proof.
  intros Hr. induction n as [|n IH]; [done|]. cbn [hexDigits].
  assert (Z.land (Z.shiftr r (4 * Z.of_nat n)) 15 = (r / 16 ^ Z.of_nat n) mod 16) as ->.
  { rewrite Z.shiftr_div_pow2 by lia. change 15 with (Z.ones 4). rewrite Z.land_ones by lia.
    rewrite Z.pow_mul_r by lia. done. }
  pose proof (Z.mod_pos_bound (r / 16 ^ Z.of_nat n) 16 ltac:(lia)).
  rewrite index_lt by (change (length c2xTable) with 16%nat; lia). run_simpl. rewrite IH. run_simpl.
  by rewrite seq_S, reverse_app.
Qed.

Lemma unicodeStep_eq res rb : rune_of rb → unicodeStep res rb = Done (res ++ unicodeEscape rb).
Proof.
  intros Hr. unfold unicodeStep, unicodeEscape. destruct (Z.ltb_spec rb.1 RuneSelf) as [H|H].
  - rewrite u8_id; [done|]. destruct Hr; unfold is_byte, RuneSelf, RuneError in *; cbn in *; lia.
  - unfold appendUnicodeEscape. rewrite hexDigits_eq by (unfold RuneSelf in H; lia). done.
Qed.

Lemma unicodeSteps_eq rs : Forall rune_of rs → ∀ res,
  foldM unicodeStep rs res = Done (res ++ flat_map unicodeEscape rs).
Proof.
  induction 1 as [|rb rs Hr _ IH]; intros res; cbn; [by rewrite app_nil_r|].
  rewrite unicodeStep_eq by done. run_simpl. rewrite IH. by rewrite <- app_assoc.
Qed.

Lemma unicodeCapacity_pos input pos : (pos ≤ length input)%nat → Z.of_nat pos <= unicodeCapacity input pos.
Proof.
  intros Hp. unfold unicodeCapacity. destruct (_ && _ && _); [lia|].
  assert (∀ rs cap, Z.of_nat pos <= cap → Z.of_nat pos <= foldl (λ cap (rb : Z * bytes),
    if rb.1 <? RuneSelf then cap + 1 else cap + unicodeEscapeLength rb.1) cap rs) as H.
  { induction rs as [|rb rs IH]; intros cap Hc; cbn; [done|]. apply IH.
    unfold unicodeEscapeLength. split_ifs; lia. }
  apply H. lia.
Qed.

Lemma utf8ToUnicode_eq data :
  wf_bytes data →
  utf8ToUnicode data = Done (flat_map unicodeEscape (runes data), existsb (λ b, RuneSelf <=? b) data, None).
Proof.
  intros Hd. unfold utf8ToUnicode.
  assert (∀ s t, Forall (λ b, (RuneSelf <=? b) = false) s →
    flat_map unicodeEscape (runes (s ++ t)) = s ++ flat_map unicodeEscape (runes t)) as Hascii.
  { intros s t. induction 1 as [|b s Hb _ IH]; [done|]. cbn [app]. rewrite runes_ascii by lia. csimpl.
    rewrite IH. unfold unicodeEscape at 1. cbn. by replace (b <? RuneSelf) with true by lia. }
  destruct (firstIndex _ data) as [i|] eqn:E.
  - apply firstIndex_Some in E as (Hi & Hpre & x & Hx & Hge). unfold doUTF8ToUnicode, makeBytes.
    pose proof (unicodeCapacity_pos data i ltac:(lia)).
    replace (Z.of_nat i <=? _) with true by lia. run_simpl.
    rewrite unicodeSteps_eq by (by apply runes_of, Forall_drop). run_simpl.
    rewrite <- Hascii, take_drop by done. do 3 f_equal. symmetry. apply existsb_exists.
    exists x. split; [|done]. apply list_elem_of_In. by eapply list_elem_of_lookup_2.
  - apply firstIndex_None in E. rewrite <- (app_nil_r data) at 2. rewrite Hascii by done. cbn. rewrite app_nil_r.
    do 3 f_equal. symmetry. apply not_true_is_false. intros (x & Hx & Hge)%existsb_exists.
    apply list_elem_of_In in Hx. rewrite Forall_forall in E. specialize (E x Hx). cbv beta in E. lia.
Qed.

Lemma hexTable_digit n : 0 <= n < 16 → hexDigitToByte (c2xTable !!! Z.to_nat n) = Some n ∧ is_byte (c2xTable !!! Z.to_nat n).
Proof.
  intros Hn. assert (n ∈ seqZ 0 16) as Hin by (apply elem_of_seqZ; lia). revert n Hin Hn.
  assert (Forall (λ n, bool_decide (hexDigitToByte (c2xTable !!! Z.to_nat n) = Some n ∧ is_byte (c2xTable !!! Z.to_nat n)) = true)
    (seqZ 0 16)) as H by (repeat constructor).
  intros n Hin _. rewrite Forall_forall in H. exact (bool_decide_eq_true_1 _ (H n Hin)).
Qed.

Lemma unicodeEscape_wf rb : rune_of rb → wf_bytes (unicodeEscape rb).
Proof.
  intros Hr. unfold unicodeEscape. destruct (Z.ltb_spec rb.1 RuneSelf) as [H|H].
  - repeat constructor; destruct Hr; unfold RuneSelf, RuneError in *; cbn in *; lia.
  - apply Forall_app. split; [by apply wf_bytesb_true|]. rewrite Forall_fmap. apply Forall_true. intros k. cbn.
    apply hexTable_digit. apply Z.mod_pos_bound. lia.
Qed.

Lemma utf8ToUnicode_honest : honest utf8ToUnicode.
Proof.
  intros data Hd. rewrite utf8ToUnicode_eq by done. cbn. split.
  - pose proof (runes_of data Hd) as Hr. induction Hr as [|rb rs Hrb _ IH]; [constructor|]. cbn.
    apply Forall_app. split; [by apply unicodeEscape_wf|done].
  - intros H _. clear Hd. induction data as [|b data IH]; [done|]. cbn in H. apply orb_false_iff in H as [Hb H].
    rewrite runes_ascii by lia. cbn. rewrite IH by done. unfold unicodeEscape. cbn.
    by replace (b <? RuneSelf) with true by lia.
Qed.

(** The byte that a rune becomes after both transformations. *)
Definition fitRune (rb : Z * bytes) : Z := if rb.1 <? RuneSelf then rb.1 else uniFit rb.1.

Lemma uniDecode_unicodeEscape rb rest :
  rune_of rb → rb.1 <= 0xffff → rb.1 ≠ 0x25 → rb.1 ≠ 0x2b →
  uniDecode (unicodeEscape rb ++ rest) = emit [fitRune rb] (RuneSelf <=? rb.1) (uniDecode rest).
Proof.
  intros Hr Hle H1 H2. unfold unicodeEscape, fitRune. destruct (Z.ltb_spec rb.1 RuneSelf) as [H|H].
  - replace (RuneSelf <=? rb.1) with false by lia. cbn [app uniDecode].
    by rewrite (proj2 (Z.eqb_neq _ _) H1), (proj2 (Z.eqb_neq _ _) H2).
  - replace (RuneSelf <=? rb.1) with true by lia. unfold unicodeEscapeLength.
    replace (rb.1 <=? 0xffff) with true by lia. cbn [Z.sub Z.to_nat].
    change (reverse (seq 0 (Z.to_nat (6 - 2)))) with [3%nat; 2%nat; 1%nat; 0%nat]. cbn [fmap list_fmap app].
    unfold RuneSelf in H. set (r := rb.1) in *.
    assert (∀ k, 0 <= (r / 16 ^ Z.of_nat k) mod 16 < 16) as Hd by (intros; apply Z.mod_pos_bound; lia).
    cbn [uniDecode Z.eqb Pos.eqb orb].
    rewrite !(proj1 (hexTable_digit _ (Hd _))). do 3 f_equal.
    change (16 ^ Z.of_nat 3) with 4096. change (16 ^ Z.of_nat 2) with 256. change (16 ^ Z.of_nat 1) with 16.
    change (16 ^ Z.of_nat 0) with 1. clear Hd. dlia.
Qed.

(** C39: The chain t:utf8toUnicode,t:urlDecodeUni maps every rune of the basic
    plane to one byte, itself when it is ASCII and otherwise its best fit; the
    percent and plus signs of the value itself are left out because the second
    step decodes them. *)
Theorem utf8ToUnicode_urlDecodeUni data :
  wf_bytes data → Forall (λ rb, rb.1 <= 0xffff ∧ rb.1 ≠ 0x25 ∧ rb.1 ≠ 0x2b) (runes data) →
  wp (utf8ToUnicode data) (λ '(escaped, _, _), ∃ changed,
    urlDecodeUni escaped = Done (fitRune <$> runes data, changed, None)).
Proof.
  intros Hd Hrs. rewrite utf8ToUnicode_eq by done. cbn. rewrite urlDecodeUni_eq. exists (uniDecode (flat_map unicodeEscape (runes data))).2.
  do 3 f_equal. pose proof (runes_of data Hd) as Hr.
  induction Hr as [|rb rs Hrb _ IH]; [done|]. apply Forall_cons in Hrs as [(H1 & H2 & H3) Hrs]. csimpl.
  rewrite uniDecode_unicodeEscape by done. cbn [emit fst app]. by rewrite IH.
Qed.

Lemma utf8ToUnicode_urlDecodeUni_witness :
  wp (utf8ToUnicode [0xef; 0xbc; 0x9c; 0x61]) (λ '(escaped, _, _), ∃ changed,
    urlDecodeUni escaped = Done ([0x3c; 0x61], changed, None)).
Proof.
  refine (utf8ToUnicode_urlDecodeUni [0xef; 0xbc; 0x9c; 0x61] _ _).
  - apply wf_bytesb_true. reflexivity.
  - apply (bool_decide_unpack _). vm_compute. reflexivity.
Defined.
