(* ===== verification/CommentTransform.v ===== *)
(** The transformations of comments: src/internal/transformations/remove_comments.go,
    replace_comments.go and remove_comments_char.go.

    The first two overwrite a copy of their input; the model keeps the buffer
    and the two positions.  The theorems show that no access is out of range and
    give the output by a relation between strings. *)

From S2P Require Import Prelude GoLib StringUtil UrlTransform TextTransform.

(** ** removeComments, replaceComments, removeCommentsChar *)

(** The loop of [removeComments]: the read and write positions, the buffer,
    whether a comment is open, whether something changed, whether the loop
    was left. *)
Record commentState := mkComment {
  cm_i : nat;
  cm_j : nat;
  cm_input : bytes;
  cm_incomment : bool;
  cm_changed : bool;
  cm_exit : bool;
}.
#[global] Instance commentState_eta : Eta commentState := λ x,
  mkComment x.(cm_i) x.(cm_j) x.(cm_input) x.(cm_incomment) x.(cm_changed) x.(cm_exit).

(** [input[i] == c0 && i+1 < inputLen && input[i+1] == c1 && ...] *)
Fixpoint lookingAt (input : bytes) (inputLen i : nat) (token : bytes) : run bool :=
  match token with
  | [] => Done true
  | c :: token =>
      (i <? inputLen)%nat &&?
        (x ← index input i; (x =? c) &&? lookingAt input inputLen (i + 1) token)
  end.

(** [input[j] = input[i]; i++; j++] *)
Definition copyByte (st : commentState) : run commentState :=
  x ← index st.(cm_input) st.(cm_i);
  input ← store st.(cm_input) st.(cm_j) x;
  Done (st <| cm_input := input |> <| cm_i ::= S |> <| cm_j ::= S |>).

Definition openComment (n : nat) (st : commentState) : commentState :=
  st <| cm_incomment := true |> <| cm_changed := true |> <| cm_i ::= Nat.add n |>.

(** [input[i] = ' '; changed = true; break charLoop] *)
Definition lineComment (st : commentState) : run commentState :=
  input ← store st.(cm_input) st.(cm_i) 0x20;
  Done (st <| cm_input := input |> <| cm_changed := true |> <| cm_exit := true |>).

Definition removeCommentsStep (inputLen : nat) (st : commentState) : run commentState :=
  let at_ := lookingAt st.(cm_input) inputLen st.(cm_i) in
  if negb st.(cm_incomment) then
    slashStar ← at_ (str "/*");
    if (slashStar : bool) then Done (openComment 2 st) else
    html ← at_ (str "<!--");
    if (html : bool) then Done (openComment 4 st) else
    dashes ← at_ (str "--");
    if (dashes : bool) then lineComment st else
    hash ← at_ (str "#");
    if (hash : bool) then lineComment st else copyByte st
  else
    starSlash ← at_ (str "*/");
    if (starSlash : bool) then copyByte (st <| cm_incomment := false |> <| cm_i ::= Nat.add 2 |>) else
    html ← at_ (str "-->");
    if (html : bool) then copyByte (st <| cm_incomment := false |> <| cm_i ::= Nat.add 3 |>) else
    Done (st <| cm_i ::= S |>).

(** [input[j] = ' '; j++] *)
Definition writeSpace (st : commentState) : run commentState :=
  input ← store st.(cm_input) st.(cm_j) 0x20;
  Done (st <| cm_input := input |> <| cm_j ::= S |>).

Definition removeComments : transformation := λ value,
  let inputLen := length value in
  st ← loop (S inputLen) (λ st, (st.(cm_i) <? inputLen)%nat && negb st.(cm_exit)) (removeCommentsStep inputLen)
         (mkComment 0 0 (value ++ [0x00]) false false false);
  st ← (if st.(cm_incomment) then st ← writeSpace st; Done (st <| cm_changed := true |>) else Done st);
  out ← slice st.(cm_input) 0 st.(cm_j);
  Done (out, st.(cm_changed), None).

Definition replaceCommentsStep (inputLen : nat) (st : commentState) : run commentState :=
  let at_ := lookingAt st.(cm_input) inputLen st.(cm_i) in
  if negb st.(cm_incomment) then
    slashStar ← at_ (str "/*");
    if (slashStar : bool) then Done (openComment 2 st) else copyByte st
  else
    starSlash ← at_ (str "*/");
    if (starSlash : bool) then writeSpace (st <| cm_incomment := false |> <| cm_i ::= Nat.add 2 |>)
    else Done (st <| cm_i ::= S |>).

Definition doReplaceComments (value : bytes) : run (bytes * bool) :=
  let inputLen := length value in
  st ← loop (S inputLen) (λ st, (st.(cm_i) <? inputLen)%nat) (replaceCommentsStep inputLen)
         (mkComment 0 0 value false false false);
  st ← (if st.(cm_incomment) then writeSpace st else Done st);
  out ← slice st.(cm_input) 0 st.(cm_j);
  Done (out, st.(cm_changed)).

Definition replaceComments : transformation := λ data,
  if negb (Contains data (str "/*")) then Done (data, false, None)
  else '(transformedData, changed) ← doReplaceComments data; Done (transformedData, changed, None).

Definition commentTokens : list bytes :=
  [str "/*"; str "*/"; str "<!--"; str "-->"; str "--"; str "#"].

(** The length of the first token that the rest of the input starts with. *)
Definition tokenAt (s : bytes) : option nat :=
  length <$> head (filter (λ t, HasPrefix s t = true) commentTokens).

(** One iteration reads a token or a byte. *)
Fixpoint removeCommentsCharLoop (fuel : nat) (s res : bytes) (changed : bool) : run (bytes * bool) :=
  match fuel, s with
  | _, [] => Done (res, changed)
  | O, _ => OutOfFuel
  | S fuel, x :: r =>
      match tokenAt s with
      | Some n => removeCommentsCharLoop fuel (drop n s) res true
      | None => removeCommentsCharLoop fuel r (res ++ [x]) changed
      end
  end.

Definition removeCommentsChar : transformation := λ value,
  if negb (ContainsAny value (str "/*<-#")) then Done (value, false, None)
  else '(res, changed) ← removeCommentsCharLoop (length value) value [] false; Done (res, changed, None).

(** ** Comments *)

(** What [removeComments] leaves of a string, outside ([false]) and inside
    ([true]) a comment.  The byte that follows the end of a comment is copied
    whatever it is, and is NUL at the end of the string. *)
Inductive uncommented : bool → bytes → bytes → Prop :=
| un_end : uncommented false [] []
| un_open tok r out :
    tok ∈ [str "/*"; str "<!--"] → uncommented true r out → uncommented false (tok ++ r) out
| un_line tok r : tok ∈ [str "--"; str "#"] → uncommented false (tok ++ r) []
| un_byte x r out :
    Forall (λ tok, HasPrefix (x :: r) tok = false) [str "/*"; str "<!--"; str "--"; str "#"] →
    uncommented false r out → uncommented false (x :: r) (x :: out)
| un_unclosed : uncommented true [] [0x20]
| un_inside x r out :
    Forall (λ tok, HasPrefix (x :: r) tok = false) [str "*/"; str "-->"] →
    uncommented true r out → uncommented true (x :: r) out
| un_close tok x r out :
    tok ∈ [str "*/"; str "-->"] → uncommented false r out → uncommented true (tok ++ x :: r) (x :: out)
| un_close_end tok : tok ∈ [str "*/"; str "-->"] → uncommented true tok [0x00].

(** The buffer still holds the input from position [i] on. *)
Definition unread (value d : bytes) (i : nat) : Prop :=
  ∀ k, (i ≤ k < length value)%nat → d !! k = value !! k.

Lemma lookingAt_prefix value d i tok :
  unread value d i → lookingAt d (length value) i tok = Done (HasPrefix (drop i value) tok).
Proof.
  revert i. induction tok as [|c tok IH]; intros i Hu; cbn [lookingAt]; [by destruct (drop i value)|].
  destruct (Nat.ltb_spec i (length value)) as [Hi|Hi].
  - destruct (lookup_lt_is_Some_2 _ _ Hi) as [x Hx]. rewrite (drop_S _ x) by done. cbn [and_then HasPrefix].
    unfold index. rewrite Hu, Hx by lia. run_simpl. rewrite Z.eqb_sym. destruct (c =? x); [|done]. cbn.
    rewrite IH by (intros k Hk; apply Hu; lia). by rewrite Nat.add_1_r.
  - rewrite drop_ge by lia. done.
Qed.

Lemma HasPrefix_drop value i tok :
  HasPrefix (drop i value) tok = true →
  drop i value = tok ++ drop (i + length tok) value ∧ (i + length tok ≤ length value ∨ tok = [])%nat.
Proof.
  intros [r Hr]%HasPrefix_spec. rewrite <- drop_drop, Hr, drop_app_length. split; [done|].
  destruct tok as [|c tok]; [by right|left]. apply (f_equal length) in Hr.
  rewrite length_drop, length_app in Hr. cbn in *. lia.
Qed.

Lemma unread_store value d i j x :
  unread value d i → (j < i)%nat → unread value (<[j := x]> d) i.
Proof. intros Hu Hj k Hk. rewrite list_lookup_insert_ne by lia. by apply Hu. Qed.

Lemma unread_later value d i i' : unread value d i → (i ≤ i')%nat → unread value d i'.
Proof. intros Hu Hi k Hk. apply Hu. lia. Qed.

(** ** removeComments *)

Record rc_inv (value : bytes) (st : commentState) : Prop := {
  rc_length : length st.(cm_input) = S (length value);
  rc_pos : (st.(cm_j) ≤ st.(cm_i) ≤ S (length value))%nat;
  rc_inside : st.(cm_incomment) = true → st.(cm_exit) = false ∧ st.(cm_changed) = true ∧ (st.(cm_j) < st.(cm_i))%nat;
  rc_unread : st.(cm_exit) = false → unread (value ++ [0x00]) st.(cm_input) st.(cm_i);
  rc_rest out : st.(cm_exit) = false → uncommented st.(cm_incomment) (drop st.(cm_i) value) out →
    uncommented false value (take st.(cm_j) st.(cm_input) ++ out);
  rc_exit : st.(cm_exit) = true → uncommented false value (take st.(cm_j) st.(cm_input)) ∧ st.(cm_changed) = true;
  rc_same : st.(cm_changed) = false →
    st.(cm_j) = st.(cm_i) ∧ take st.(cm_i) st.(cm_input) = take st.(cm_i) value ∧ (st.(cm_i) ≤ length value)%nat;
  rc_wf : wf_bytes value → wf_bytes st.(cm_input);
}.

Lemma unread_pad value d i : unread (value ++ [0x00]) d i → unread value d i.
Proof.
  intros Hu k Hk. rewrite Hu by (rewrite length_app; lia). by rewrite lookup_app_l by lia.
Qed.

Lemma padded_wf value : wf_bytes value → wf_bytes (value ++ [0x00]).
Proof. intros H. apply Forall_app. split; [done|]. by apply wf_bytesb_true. Qed.

Lemma rc_start value : rc_inv value (mkComment 0 0 (value ++ [0x00]) false false false).
Proof.
  split; cbn; try done.
  - rewrite length_app. cbn. lia.
  - lia.
  - intros _. split; [done|]. split; [done|lia].
  - intros H. by apply padded_wf.
Qed.

(** Copying a byte, after the end of a comment or outside of one. *)
Lemma copyByte_inv value st n inc x :
  rc_inv value st → st.(cm_exit) = false → st.(cm_incomment) = inc →
  (st.(cm_changed) = false → n = 0%nat) →
  (value ++ [0x00]) !! (n + st.(cm_i))%nat = Some x →
  (∀ out, uncommented false (drop (S (n + st.(cm_i))) value) out →
          uncommented inc (drop st.(cm_i) value) (x :: out)) →
  (st.(cm_changed) = false → value !! st.(cm_i) = Some x) →
  wp (copyByte (st <| cm_incomment := false |> <| cm_i ::= Nat.add n |>))
    (λ st', rc_inv value st' ∧ (st.(cm_i) < st'.(cm_i))%nat).
Proof.
  intros [Hl Hp Hin Hu Hr He Hs Hw] Hex Hinc Hn Hx Hout Hsame.
  destruct st as [i j d inc' ch ex]. cbn in *. subst inc' ex. specialize (Hu eq_refl).
  pose proof (lookup_lt_Some _ _ _ Hx) as Hlt. rewrite length_app in Hlt. cbn in Hlt.
  unfold copyByte. cbn. unfold index. rewrite Hu, Hx by (rewrite length_app; cbn; lia). run_simpl.
  rewrite store_lt by lia. run_simpl. cbn. split; [|lia]. split; cbn.
  - by rewrite length_insert.
  - lia.
  - done.
  - intros _. apply unread_store; [eapply unread_later; [exact Hu|lia]|lia].
  - intros out _ Ho. rewrite take_insert_end by lia. rewrite <- app_assoc. apply Hr; [done|]. by apply Hout.
  - done.
  - intros Hch. specialize (Hn Hch). subst n. destruct (Hs Hch) as (-> & Ht & Hi). cbn in *.
    specialize (Hsame Hch). split; [lia|]. rewrite take_insert_end by lia. rewrite Ht.
    rewrite (take_S_r _ _ x) by done. split; [done|]. apply lookup_lt_Some in Hsame. lia.
  - intros Hwf. specialize (Hw Hwf). apply Forall_insert; [done|].
    eapply Forall_lookup_1; [by apply padded_wf|done].
Qed.

Lemma openComment_inv value st tok :
  rc_inv value st → st.(cm_exit) = false → st.(cm_incomment) = false → tok ∈ [str "/*"; str "<!--"] →
  HasPrefix (drop st.(cm_i) value) tok = true →
  rc_inv value (openComment (length tok) st) ∧ (st.(cm_i) < (openComment (length tok) st).(cm_i))%nat.
Proof.
  intros [Hl Hp Hin Hu Hr He Hs Hw] Hex Hinc Htok Hpre. destruct st as [i j d inc ch ex]. cbn in *. subst inc ex.
  destruct (HasPrefix_drop _ _ _ Hpre) as [Hd [Hlen|E]];
    [|by subst tok; rewrite list_elem_of_In in Htok; destruct Htok as [|[|[]]]].
  assert (1 ≤ length tok)%nat as H1 by (rewrite list_elem_of_In in Htok; destruct Htok as [<-|[<-|[]]]; cbn; lia).
  split; [|lia]. split; cbn; try done.
  - lia.
  - intros _. split; [done|]. split; [done|lia].
  - intros _. eapply unread_later; [by apply Hu|lia].
  - intros out _ Ho. apply Hr; [done|]. rewrite Hd, (Nat.add_comm i). by apply un_open.
Qed.

Lemma lineComment_inv value st tok :
  rc_inv value st → st.(cm_exit) = false → st.(cm_incomment) = false → tok ∈ [str "--"; str "#"] →
  (st.(cm_i) < length value)%nat → HasPrefix (drop st.(cm_i) value) tok = true →
  wp (lineComment st) (λ st', rc_inv value st' ∧ st'.(cm_exit) = true).
Proof.
  intros [Hl Hp Hin Hu Hr He Hs Hw] Hex Hinc Htok Hi Hpre. destruct st as [i j d inc ch ex]. cbn in *. subst inc ex.
  destruct (HasPrefix_drop _ _ _ Hpre) as [Hd _]. unfold lineComment. cbn. rewrite store_lt by lia. cbn.
  split; [|done]. split; cbn; try done.
  - by rewrite length_insert.
  - intros _. split; [|done]. rewrite take_insert_ge by lia. rewrite <- (app_nil_r (take j d)).
    apply Hr; [done|]. rewrite Hd. by apply un_line.
  - intros Hwf. apply Forall_insert; [by apply Hw|]. unfold is_byte. lia.
Qed.

Lemma uncommented_nil out : uncommented false [] out → out = [].
Proof.
  intros H. inversion H as [|tok r o Ht Ho E|tok r Ht E| | | | |]; subst; [done| |done];
    (destruct tok; [rewrite list_elem_of_In in Ht; by destruct Ht as [|[|[]]]|done]).
Qed.

(** The end of a comment: the byte after it is copied, the pad at the end. *)
Lemma closeComment_inv value st tok :
  rc_inv value st → st.(cm_exit) = false → st.(cm_incomment) = true → tok ∈ [str "*/"; str "-->"] →
  HasPrefix (drop st.(cm_i) value) tok = true →
  wp (copyByte (st <| cm_incomment := false |> <| cm_i ::= Nat.add (length tok) |>))
    (λ st', rc_inv value st' ∧ (st.(cm_i) < st'.(cm_i))%nat).
Proof.
  intros Hinv Hex Hinc Htok Hpre. destruct (HasPrefix_drop _ _ _ Hpre) as [Hd [Hlen|E]];
    [|by subst tok; rewrite list_elem_of_In in Htok; destruct Htok as [|[|[]]]].
  destruct (lookup_lt_is_Some_2 (value ++ [0x00]) (length tok + cm_i st)) as [x Hx];
    [rewrite length_app; cbn; lia|].
  destruct (rc_inside _ _ Hinv Hinc) as (_ & Hch & _).
  apply copyByte_inv with true x; try done; [congruence| |congruence]. intros out Ho. rewrite Hd.
  destruct (decide (cm_i st + length tok < length value)%nat) as [Hlt|Hge].
  - rewrite lookup_app_l in Hx by lia. rewrite Nat.add_comm in Hx. rewrite (drop_S _ x) by done.
    apply un_close; [done|]. by rewrite (Nat.add_comm (cm_i st)).
  - assert (cm_i st + length tok = length value)%nat as Hend by lia. rewrite lookup_app_r in Hx by lia.
    replace (length tok + cm_i st - length value)%nat with 0%nat in Hx by lia. injection Hx as <-.
    rewrite drop_ge in Ho by lia. rewrite drop_ge, app_nil_r by lia.
    apply uncommented_nil in Ho as ->. by apply un_close_end.
Qed.

Ltac token := first [done | apply list_elem_of_In; cbn; tauto].

Lemma removeCommentsStep_inv value st :
  rc_inv value st → (st.(cm_i) < length value)%nat → st.(cm_exit) = false →
  wp (removeCommentsStep (length value) st)
    (λ st', rc_inv value st' ∧ ((st.(cm_i) < st'.(cm_i))%nat ∨ st'.(cm_exit) = true)).
Proof.
  intros Hinv Hi Hex. pose proof (unread_pad _ _ _ (rc_unread _ _ Hinv Hex)) as Hu.
  destruct (lookup_lt_is_Some_2 _ _ Hi) as [x Hx]. pose proof (drop_S _ _ _ Hx) as Hd.
  unfold removeCommentsStep. rewrite !(lookingAt_prefix value) by done. cbv zeta. run_simpl.
  destruct (cm_incomment st) eqn:Hinc; run_simpl.
  - destruct (HasPrefix _ (str "*/")) eqn:E1; [eapply wp_mono; [apply closeComment_inv with (tok := str "*/"); token|naive_solver]|].
    run_simpl. destruct (HasPrefix _ (str "-->")) eqn:E2;
      [eapply wp_mono; [apply closeComment_inv with (tok := str "-->"); token|naive_solver]|].
    destruct Hinv as [Hl Hp Hin Hu' Hr He Hs Hw]. destruct st as [i j d inc ch ex]. cbn in *. subst inc ex.
    destruct (Hin eq_refl) as (_ & Hch & Hj). subst ch. split; [|lia]. split; cbn; try done.
    + lia.
    + intros _. split; [done|]. split; [done|lia].
    + intros _. eapply unread_later; [by apply Hu'|lia].
    + intros out _ Ho. apply Hr; [done|]. rewrite Hd in *. apply un_inside; [|done]. by repeat constructor.
  - destruct (HasPrefix _ (str "/*")) eqn:E1; [apply wp_Done; destruct (openComment_inv value st (str "/*")); [token..|auto]|].
    run_simpl. destruct (HasPrefix _ (str "<!--")) eqn:E2; [apply wp_Done; destruct (openComment_inv value st (str "<!--")); [token..|auto]|].
    run_simpl. destruct (HasPrefix _ (str "--")) eqn:E3; [eapply wp_mono; [apply lineComment_inv with (str "--"); token|naive_solver]|].
    run_simpl. destruct (HasPrefix _ (str "#")) eqn:E4; [eapply wp_mono; [apply lineComment_inv with (str "#"); token|naive_solver]|].
    pose proof (copyByte_inv value st 0 false x Hinv Hex Hinc) as H. destruct st as [i j d inc ch ex]. cbn in *. subst inc.
    eapply wp_mono; [apply H|naive_solver]; try done.
    + rewrite lookup_app_l by lia. done.
    + intros out Ho. rewrite Hd in *. apply un_byte; [|done]. by repeat constructor.
Qed.

Lemma removeComments_ok value :
  wp (removeComments value) (λ '(out, changed, err),
    uncommented false value out ∧ (changed = false → out = value) ∧ err = None ∧ (wf_bytes value → wf_bytes out)).
Proof.
  unfold removeComments.
  destruct (loop_total (λ st, (cm_i st <? length value)%nat && negb (cm_exit st)) (removeCommentsStep (length value))
    (rc_inv value) (λ st, if cm_exit st then 0%nat else (length value - cm_i st)%nat))
    with (S (length value)) (mkComment 0 0 (value ++ [0x00]) false false false) as (st & -> & Hinv & Hc).
  - intros st Hinv [Hi%Nat.ltb_lt Hex%negb_true_iff]%andb_true_iff.
    destruct (wp_elim _ _ (removeCommentsStep_inv value st Hinv Hi Hex)) as (st' & -> & Hinv' & Hm).
    exists st'. split; [done|]. split; [done|]. rewrite Hex. destruct (cm_exit st'); destruct Hm; try done; lia.
  - apply rc_start.
  - cbn. lia.
  - run_simpl. destruct Hinv as [Hl Hp Hin Hu Hr He Hs Hw]. destruct st as [i j d inc ch ex]. cbn in *.
    destruct inc.
    + destruct (Hin eq_refl) as (-> & -> & Hj). rewrite andb_true_r in Hc. apply Nat.ltb_ge in Hc.
      unfold writeSpace. cbn. rewrite store_lt by lia. cbn. rewrite slice_prefix by (rewrite length_insert; lia).
      run_simpl. cbn. rewrite take_insert_end by lia. split; [|split; [done|split; [done|]]].
      * apply Hr; [done|]. rewrite drop_ge by lia. constructor.
      * intros Hwf. apply Forall_app. split; [apply Forall_take; auto|]. by apply wf_bytesb_true.
    + run_simpl. cbn [cm_input cm_j cm_changed]. rewrite slice_prefix by lia. run_simpl. cbn. split; [|split; [|split; [done|]]].
      * destruct ex; [by apply He|]. rewrite andb_true_r in Hc. apply Nat.ltb_ge in Hc.
        rewrite <- (app_nil_r (take j d)). apply Hr; [done|]. rewrite drop_ge by lia. constructor.
      * intros ->. destruct (Hs eq_refl) as (-> & Ht & Hi). destruct ex; [by destruct (He eq_refl)|].
        rewrite andb_true_r in Hc. apply Nat.ltb_ge in Hc. rewrite Ht. by rewrite take_ge by lia.
      * intros Hwf. apply Forall_take. auto.
Qed.

(** The relation is a function. *)
Lemma uncommented_det b s o1 o2 : uncommented b s o1 → uncommented b s o2 → o1 = o2.
Proof.
  intros H. revert o2. induction H; intros o2 H2; inversion H2; clear H2;
    repeat match goal with
    | H : _ ∈ [_; _] |- _ => apply list_elem_of_In in H; destruct H as [H|[H|[]]]; vm_compute in H
    end; subst; cbn in *; simplify_eq; try done; try (by f_equal; auto); try (by auto);
    repeat match goal with H : Forall _ (_ :: _) |- _ => apply Forall_cons in H as [? H] end; done.
Qed.

(** [removeComments] never reads or writes out of range, the byte it pads
    the input with included.  Its output is what the relation [uncommented]
    gives, and there is one such output: comments are dropped, an open one
    leaves a space, the rest of the line after two dashes or a hash is dropped,
    and the byte after a comment is kept unseen.  A value reported as unchanged
    is the input. *)
Theorem removeComments_spec value :
  wp (removeComments value) (λ '(out, changed, err),
    err = None ∧ (changed = false → out = value) ∧ ∀ s, uncommented false value s ↔ s = out).
Proof.
  eapply wp_mono; [apply removeComments_ok|]. intros [[out changed] err] (Hu & Hs & He & _).
  split; [done|]. split; [done|]. intros s. split; [|by intros ->]. intros H. by eapply uncommented_det.
Qed.

(** Two comments in a row: the start of the second is not seen, and the end of
    the string leaves a NUL byte. *)
Lemma removeComments_adjacent :
  removeComments (str "/*a*//*b*/") = Done (str "/*b*/", true, None) ∧
  removeComments (str "a/*b*/") = Done (str "a" ++ [0x00], true, None).
Proof. split; vm_compute; reflexivity. Qed.

(** ** replaceComments *)

(** What [replaceComments] makes of a string: every comment, closed or not,
    becomes a space. *)
Inductive spaced : bool → bytes → bytes → Prop :=
| sp_end : spaced false [] []
| sp_open r out : spaced true r out → spaced false (str "/*" ++ r) out
| sp_byte x r out :
    HasPrefix (x :: r) (str "/*") = false → spaced false r out → spaced false (x :: r) (x :: out)
| sp_unclosed : spaced true [] [0x20]
| sp_inside x r out : HasPrefix (x :: r) (str "*/") = false → spaced true r out → spaced true (x :: r) out
| sp_close r out : spaced false r out → spaced true (str "*/" ++ r) (0x20 :: out).

Record sp_inv (value : bytes) (st : commentState) : Prop := {
  sp_length : length st.(cm_input) = length value;
  sp_pos : (st.(cm_j) ≤ st.(cm_i) ≤ length value)%nat;
  sp_in : st.(cm_incomment) = true → st.(cm_changed) = true ∧ (st.(cm_j) < st.(cm_i))%nat;
  sp_unread : unread value st.(cm_input) st.(cm_i);
  sp_rest out : spaced st.(cm_incomment) (drop st.(cm_i) value) out →
    spaced false value (take st.(cm_j) st.(cm_input) ++ out);
  sp_same : st.(cm_changed) = false →
    st.(cm_j) = st.(cm_i) ∧ take st.(cm_i) st.(cm_input) = take st.(cm_i) value;
  sp_wf : wf_bytes value → wf_bytes st.(cm_input);
}.

Lemma replaceCommentsStep_inv value st :
  sp_inv value st → (st.(cm_i) < length value)%nat →
  wp (replaceCommentsStep (length value) st) (λ st', sp_inv value st' ∧ (st.(cm_i) < st'.(cm_i))%nat).
Proof.
  intros [Hl Hp Hin Hu Hr Hs Hw] Hi. unfold replaceCommentsStep.
  destruct (lookup_lt_is_Some_2 _ _ Hi) as [x Hx]. pose proof (drop_S _ _ _ Hx) as Hd.
  rewrite !(lookingAt_prefix value) by done. cbv zeta. run_simpl.
  destruct st as [i j d inc ch ex]. cbn [cm_i cm_j cm_input cm_incomment cm_changed cm_exit] in *. destruct inc; run_simpl.
  - destruct (Hin eq_refl) as [-> Hj]. destruct (HasPrefix (drop i value) (str "*/")) eqn:E.
    + destruct (HasPrefix_drop _ _ _ E) as [Hd' [Hlen|]]; [|done]. cbn in Hlen. unfold writeSpace. cbn.
      rewrite store_lt by lia. cbn. split; [|lia]. split; cbn; try done.
      * by rewrite length_insert.
      * lia.
      * apply unread_store; [eapply unread_later; [done|lia]|lia].
      * intros out Ho. rewrite take_insert_end by lia. rewrite <- app_assoc. apply Hr. rewrite Hd'.
        apply sp_close. by rewrite (Nat.add_comm i).
      * intros Hwf. apply Forall_insert; [by apply Hw|unfold is_byte; lia].
    + apply wp_Done. split; [|cbn; lia]. split; cbn; try done.
      * lia.
      * intros _. split; [done|lia].
      * eapply unread_later; [done|lia].
      * intros out Ho. apply Hr. rewrite Hd in *. apply sp_inside; [exact E|done].
  - destruct (HasPrefix (drop i value) (str "/*")) eqn:E.
    + destruct (HasPrefix_drop _ _ _ E) as [Hd' [Hlen|]]; [|done]. cbn in Hlen. apply wp_Done. split; [|cbn; lia].
      split; cbn; try done.
      * lia.
      * intros _. split; [done|lia].
      * eapply unread_later; [done|lia].
      * intros out Ho. apply Hr. rewrite Hd'. apply sp_open. by rewrite (Nat.add_comm i).
    + unfold copyByte. cbn. unfold index. rewrite Hu, Hx by lia. run_simpl. rewrite store_lt by lia. cbn.
      split; [|lia]. split; cbn; try done.
      * by rewrite length_insert.
      * lia.
      * apply unread_store; [eapply unread_later; [done|lia]|lia].
      * intros out Ho. rewrite take_insert_end by lia. rewrite <- app_assoc. apply Hr. rewrite Hd in *.
        apply sp_byte; [exact E|done].
      * intros Hch. destruct (Hs Hch) as [-> Ht]. split; [done|]. rewrite take_insert_end, Ht by lia.
        symmetry. by apply take_S_r.
      * intros Hwf. apply Forall_insert; [by apply Hw|]. by eapply Forall_lookup_1.
Qed.

Lemma replaceComments_ok value :
  wp (replaceComments value) (λ '(out, changed, err),
    (Contains value (str "/*") = true → spaced false value out) ∧ (changed = false → out = value) ∧ err = None ∧
    (wf_bytes value → wf_bytes out)).
Proof.
  unfold replaceComments. destruct (Contains value (str "/*")); run_simpl; [|cbn; done].
  unfold doReplaceComments.
  destruct (loop_total (λ st, (cm_i st <? length value)%nat) (replaceCommentsStep (length value))
    (sp_inv value) (λ st, (length value - cm_i st)%nat))
    with (S (length value)) (mkComment 0 0 value false false false) as (st & -> & Hinv & Hc).
  - intros st Hinv Hi%Nat.ltb_lt.
    destruct (wp_elim _ _ (replaceCommentsStep_inv value st Hinv Hi)) as (st' & -> & Hinv' & Hm).
    exists st'. split; [done|]. split; [done|lia].
  - split; cbn; try done. lia.
  - cbn. lia.
  - run_simpl. destruct Hinv as [Hl Hp Hin Hu Hr Hs Hw]. destruct st as [i j d inc ch ex]. cbn in *.
    apply Nat.ltb_ge in Hc. rewrite drop_ge in Hr by lia. destruct inc.
    + destruct (Hin eq_refl) as [-> Hj]. unfold writeSpace. cbn. rewrite store_lt by lia. cbn.
      rewrite slice_prefix by (rewrite length_insert; lia). cbn. rewrite take_insert_end by lia.
      split; [intros _; apply Hr; constructor|]. split; [done|]. split; [done|]. intros Hwf.
      apply Forall_app. split; [apply Forall_take; auto|]. by apply wf_bytesb_true.
    + run_simpl. cbn [cm_input cm_j cm_changed]. rewrite slice_prefix by lia. cbn.
      split; [intros _; rewrite <- (app_nil_r (take j d)); apply Hr; constructor|]. split; [|split; [done|]].
      * intros ->. destruct (Hs eq_refl) as [-> Ht]. rewrite Ht. by rewrite take_ge by lia.
      * intros Hwf. apply Forall_take. auto.
Qed.

(** ** removeCommentsChar *)

Lemma removeCommentsCharLoop_ok fuel s : ∀ res changed,
  (length s ≤ fuel)%nat →
  ∃ out c, removeCommentsCharLoop fuel s res changed = Done (res ++ out, changed || c) ∧
    (length out ≤ length s)%nat ∧ (c = false ↔ out = s) ∧ (wf_bytes s → wf_bytes out).
Proof.
  revert s. induction fuel as [|fuel IH]; intros s res changed Hl.
  { destruct s; [|cbn in Hl; lia]. exists [], false. by rewrite app_nil_r, orb_false_r. }
  destruct s as [|x r]; [exists [], false; by rewrite app_nil_r, orb_false_r|]. cbn [removeCommentsCharLoop].
  destruct (tokenAt (x :: r)) as [n|] eqn:E.
  - assert (1 ≤ n)%nat as Hn.
    { unfold tokenAt in E. apply fmap_Some in E as (tok & Htok & ->). apply head_Some_elem_of in Htok.
      apply list_elem_of_filter in Htok as [_ Htok]. unfold commentTokens in Htok. set_unfold in Htok.
      naive_solver (cbn; lia). }
    destruct (IH (drop n (x :: r)) res true) as (out & c & -> & Ho & _ & Hw);
      [rewrite length_drop; cbn in *; lia|]. rewrite length_drop in Ho. exists out, true.
    rewrite orb_true_r. split; [done|]. split; [lia|]. split; [|intros Hwf; by apply Hw, Forall_drop].
    split; [done|]. intros ->. cbn in *. lia.
  - destruct (IH r (res ++ [x]) changed) as (out & c & -> & Ho & Hc & Hw); [cbn in *; lia|].
    exists (x :: out), c. rewrite <- app_assoc. split; [done|]. split; [cbn; lia|]. split.
    + rewrite Hc. split; [by intros ->|by intros [= ->]].
    + intros [Hx Hr]%Forall_cons. constructor; auto.
Qed.

Lemma removeCommentsChar_ok value :
  wp (removeCommentsChar value) (λ '(out, changed, err),
    (changed = false ↔ out = value) ∧ err = None ∧ (wf_bytes value → wf_bytes out)).
Proof.
  unfold removeCommentsChar. destruct (negb _); [cbn; done|].
  destruct (removeCommentsCharLoop_ok (length value) value [] false (Nat.le_refl _)) as (out & c & -> & _ & Hc & Hw).
  cbn. done.
Qed.

Lemma removeComments_honest : honest removeComments.
Proof.
  intros data Hd. eapply wp_mono; [apply removeComments_ok|]. intros [[out changed] err] (_ & Hc & _ & Hw). auto.
Qed.

Lemma replaceComments_honest : honest replaceComments.
Proof.
  intros data Hd. eapply wp_mono; [apply replaceComments_ok|]. intros [[out changed] err] (_ & Hc & _ & Hw). auto.
Qed.

Lemma removeCommentsChar_honest : honest removeCommentsChar.
Proof.
  intros data Hd. eapply wp_mono; [apply removeCommentsChar_ok|]. intros [[out changed] err] (Hc & _ & Hw).
  split; [auto|]. intros H _. by apply Hc.
Qed.
