(* ===== verification/EscapeTransform.v ===== *)
(** The transformations of escape sequences: src/internal/transformations/
    escape_seq_decode.go, js_decode.go and css_decode.go.

    The first two decode in place: the model keeps the buffer and the two
    positions, and the theorems relate it to a decoder that reads one token of
    the input at a time.  The third appends to a buffer. *)

From S2P Require Import Prelude GoLib StringUtil UrlTransform TextTransform.

Definition isODigit (c : Z) : bool := (c >=? 0x30) && (c <=? 0x37).

(** The value of octal digits. *)
Definition octalValue (s : bytes) : Z := foldl (λ n c, n * 8 + (c - 0x30)) 0 s.

(** [strconv.ParseUint(s, 8, 8)] without its error: 0 for a syntax error, 255
    for a value that does not fit. *)
Definition parseUint8 (s : bytes) : Z :=
  if (0 <? length s)%nat && forallb isODigit s then Z.min 255 (octalValue s) else 0.

(** [strconv.ParseInt(s, 8, 8)] without its error. *)
Definition parseInt8 (s : bytes) : Z :=
  let '(neg, ds) := match s with
                    | 0x2d :: r => (true, r)
                    | 0x2b :: r => (false, r)
                    | _ => (false, s)
                    end in
  if (0 <? length ds)%nat && forallb isODigit ds then
    if (neg : bool) then - Z.min 128 (octalValue ds) else Z.min 127 (octalValue ds)
  else 0.

(** The escapes of one letter; [js] has no entry for the bytes that stand for
    themselves. *)
Definition letterEscape (c : Z) : option Z :=
  if c =? 0x61 then Some 0x07 else if c =? 0x62 then Some 0x08 else if c =? 0x66 then Some 0x0c
  else if c =? 0x6e then Some 0x0a else if c =? 0x72 then Some 0x0d else if c =? 0x74 then Some 0x09
  else if c =? 0x76 then Some 0x0b else None.

(** ** escapeSeqDecode *)

Definition escapeChar (c : Z) : option Z :=
  if byte_in c [0x5c; 0x3f; 0x27; 0x22] then Some c else letterEscape c.

(** [for pos+j < inputLen && p(input[pos+j]) { j++ }] with at most [n]
    iterations left. *)
Fixpoint runEnd (p : Z → bool) (input : bytes) (pos j n : nat) : run nat :=
  match n with
  | O => Done j
  | S n =>
      more ← (pos + j <? length input)%nat &&? (x ← index input (pos + j); Done (p x));
      if (more : bool) then runEnd p input pos (j + 1) n else Done j
  end.

(** The two bytes at [i] are hexadecimal digits. *)
Definition hexPairAt (input : bytes) (i : nat) : run bool :=
  a ← index input i;
  (ValidHex a) &&? (b ← index input (i + 1); Done (ValidHex b)).

Definition escapeStep (input : bytes) (st : nat * nat * bytes * bool) : run (nat * nat * bytes * bool) :=
  let '(i, d, data, changed) := st in
  let inputLen := length input in
  x ← index input i;
  if (x =? 0x5c) && (i + 1 <? inputLen)%nat then
    y ← index input (i + 1);
    match escapeChar y with
    | Some c => data ← store data d c; Done ((i + 2)%nat, (d + 1)%nat, data, true)
    | None =>
        hex ← ((y =? 0x78) || (y =? 0x58)) && (i + 3 <? inputLen)%nat &&? hexPairAt input (i + 2);
        if (hex : bool) then
          what ← slice input (i + 2) inputLen;
          v ← X2c what;
          data ← store data d v; Done ((i + 4)%nat, (d + 1)%nat, data, true)
        else if isODigit y then
          j ← runEnd isODigit input i 2 2;
          ds ← slice input (i + 1) (i + j);
          data ← store data d (u8 (parseUint8 ds)); Done ((i + j)%nat, (d + 1)%nat, data, true)
        else data ← store data d y; Done ((i + 2)%nat, (d + 1)%nat, data, true)
    end
  else data ← store data d x; Done ((i + 1)%nat, (d + 1)%nat, data, changed).

Definition doEscapeSeqDecode (input : bytes) (pos : nat) : run (bytes * bool) :=
  '(_, d, data, changed) ←
    loop (S (length input)) (λ st : nat * nat * bytes * bool, (st.1.1.1 <? length st.1.2)%nat)
      (escapeStep input) (pos, pos, input, false);
  out ← slice data 0 d; Done (out, changed).

Definition escapeSeqDecode : transformation := λ input,
  match IndexByte input 0x5c with
  | Some i =>
      '(transformedInput, changed) ← doEscapeSeqDecode input i; Done (transformedInput, changed, None)
  | None => Done (input, false, None)
  end.

(** ** jsDecode *)

Definition xsingle2c (what : Z) : Z :=
  if what >=? 0x41 then u8 (u8 (Z.land what 0xdf - 0x41) + 10) else u8 (what - 0x30).

Definition jsExtendedUnicodeEscapeLen (input : bytes) (pos : nat) : run nat :=
  j ← runEnd ValidHex input pos 0 6;
  if (j =? 0)%nat || (length input <=? pos + j)%nat then Done 0%nat else
  x ← index input (pos + j);
  Done (if negb (x =? 0x7d) then 0%nat else j).

(** [code = code<<4 | rune(xsingle2c(input[pos+k]))] for [k] up to [n]. *)
Definition hexCode (digits : bytes) : Z :=
  foldl (λ code x, Z.lor (Z.shiftl code 4) (xsingle2c x)) 0 digits.

(** The bytes that the octal branch collects: it starts at the backslash. *)
Fixpoint octalBuf (input : bytes) (i j n : nat) (buf : bytes) : run bytes :=
  match n with
  | O => Done buf
  | S n =>
      if (i + 1 + j <? length input)%nat then
        x ← index input (i + j);
        y ← index input (i + (j + 1));
        if negb (isODigit y) then Done (buf ++ [x]) else octalBuf input i (j + 1) n (buf ++ [x])
      else Done buf
  end.

Definition isF (c : Z) : bool := (c =? 0x66) || (c =? 0x46).

Definition jsStep (input : bytes) (st : nat * nat * bytes * bool) : run (nat * nat * bytes * bool) :=
  let '(i, c, d, changed) := st in
  let inputLen := length input in
  x ← index input i;
  if x =? 0x5c then
    brace ← (i + 2 <? inputLen)%nat &&?
      (u ← index input (i + 1); (u =? 0x75) &&? (b ← index input (i + 2); Done (b =? 0x7b)));
    extLen ← (if (brace : bool) then jsExtendedUnicodeEscapeLen input (i + 3) else Done 0%nat);
    if (0 <? extLen)%nat then
      digits ← slice input (i + 3) (i + 3 + extLen);
      let code := hexCode digits in
      let v := u8 code in
      let v := if (code >=? 0xff01) && (code <=? 0xff5e) then u8 (v + 0x20) else v in
      d ← store d c v; Done ((i + (extLen + 4))%nat, (c + 1)%nat, d, true)
    else
    uHHHH ← (i + 5 <? inputLen)%nat &&?
      (u ← index input (i + 1); (u =? 0x75) &&?
        (h ← hexPairAt input (i + 2); h &&? hexPairAt input (i + 4)));
    if (uHHHH : bool) then
      what ← slice input (i + 4) inputLen;
      v ← X2c what;
      h1 ← index input (i + 2); h2 ← index input (i + 3);
      let v := if (v >? 0x00) && (v <? 0x5f) && isF h1 && isF h2 then u8 (v + 0x20) else v in
      d ← store d c v; Done ((i + 6)%nat, (c + 1)%nat, d, true)
    else
    xHH ← (i + 3 <? inputLen)%nat &&?
      (u ← index input (i + 1); (u =? 0x78) &&? hexPairAt input (i + 2));
    if (xHH : bool) then
      what ← slice input (i + 2) inputLen;
      v ← X2c what;
      d ← store d c v; Done ((i + 4)%nat, (c + 1)%nat, d, true)
    else if (i + 1 <? inputLen)%nat then
      y ← index input (i + 1);
      if isODigit y then
        buf ← octalBuf input i 0 3 [];
        first ← index buf 0;
        let buf := if (length buf =? 3)%nat && (first >? 0x33) then take 2 buf else buf in
        d ← store d c (u8 (parseInt8 buf)); Done ((i + (1 + length buf))%nat, (c + 1)%nat, d, true)
      else
        d ← store d c (default y (letterEscape y)); Done ((i + 2)%nat, (c + 1)%nat, d, true)
    else
      rest ← slice input i inputLen;
      d ← copyAt d c rest; Done ((i + length rest)%nat, (c + length rest)%nat, d, changed)
  else d ← store d c x; Done ((i + 1)%nat, (c + 1)%nat, d, changed).

Definition doJsDecode (input : bytes) (pos : nat) : run (bytes * bool) :=
  '(_, c, d, changed) ←
    loop (S (length input)) (λ st : nat * nat * bytes * bool, (st.1.1.1 <? length st.1.2)%nat)
      (jsStep input) (pos, pos, input, false);
  out ← slice d 0 c; Done (out, changed).

Definition jsDecode : transformation := λ data,
  match IndexByte data 0x5c with
  | Some i => '(transformedData, changed) ← doJsDecode data i; Done (transformedData, changed, None)
  | None => Done (data, false, None)
  end.

(** ** cssDecode *)

Definition isspace (char : Z) : bool := byte_in char [0x20; 0x0c; 0x0a; 0x09; 0x0d; 0x0b].

(** How many of the first [n] bytes are hexadecimal digits. *)
Fixpoint hexRun (n : nat) (s : bytes) : nat :=
  match n, s with
  | S n, x :: s => if ValidHex x then S (hexRun n s) else O
  | _, _ => O
  end.

(** The code point of a hexadecimal escape. *)
Definition cssCode (digits : bytes) : Z :=
  let code := hexCode digits in
  let code := if code =? 0 then RuneError else code in
  if (code >=? 0xff01) && (code <=? 0xff5e) then code - 0xfee0 else code.

(** One iteration: the rest of the input and what is appended. *)
Definition cssStep (s : bytes) : bytes * bytes :=
  match s with
  | [] => ([], [])
  | x :: r =>
      if x =? 0x5c then
        match r with
        | [] => ([], [])
        | y :: r1 =>
            let j := hexRun 6 r in
            if (0 <? j)%nat then
              let rest := drop j r in
              (match rest with sp :: rest' => if isspace sp then rest' else rest | [] => [] end,
               EncodeRune (cssCode (take j r)))
            else if y =? 0x0a then (r1, []) else (r1, [y])
        end
      else (r, [x])
  end.

Fixpoint cssLoop (fuel : nat) (s d : bytes) : run bytes :=
  match fuel, s with
  | _, [] => Done d
  | O, _ => OutOfFuel
  | S fuel, _ => let '(s, out) := cssStep s in cssLoop fuel s (d ++ out)
  end.

Definition cssDecodeInplace (input : bytes) (pos : nat) : run bytes :=
  cssLoop (length input) (drop pos input) (take pos input).

Definition cssDecode : transformation := λ data,
  match IndexByte data 0x5c with
  | Some i => out ← cssDecodeInplace data i; Done (out, true, None)
  | None => Done (data, false, None)
  end.

(** ** Decoders by tokens

    A token function gives, for the rest of the input, how many bytes the next
    token takes, what it stands for, and whether that is a change. *)
Section tokens.
Context (tok : bytes → nat * bytes * bool).

Fixpoint decodeFuel (fuel : nat) (s : bytes) : bytes * bool :=
  match fuel, s with
  | S fuel, _ :: _ => let '(k, out, fl) := tok s in emit out fl (decodeFuel fuel (drop k s))
  | _, _ => ([], false)
  end.

Definition decodeTokens (s : bytes) : bytes * bool := decodeFuel (length s) s.

(** A token takes at least one byte, and not less than it writes. *)
Definition token_ok : Prop := ∀ s, s ≠ [] →
  let '(k, out, _) := tok s in (1 ≤ k ≤ length s)%nat ∧ (length out ≤ k)%nat.

Lemma decodeFuel_enough f s : token_ok → (length s ≤ f)%nat → decodeFuel f s = decodeTokens s.
Proof.
  intros Hok. unfold decodeTokens. remember (length s) as n eqn:Hn. revert f s Hn.
  induction n as [n IH] using lt_wf_ind. intros f s -> Hf.
  destruct s as [|b s]; [by destruct f|]. destruct f as [|f]; [cbn in Hf; lia|].
  change (length (b :: s)) with (S (length s)). unfold decodeFuel; fold decodeFuel.
  pose proof (Hok (b :: s) ltac:(done)) as Hk. destruct (tok (b :: s)) as [[k out] fl]. destruct Hk as [Hk _].
  assert (length (drop k (b :: s)) < S (length s))%nat as Hd by (rewrite length_drop; cbn in *; lia).
  rewrite (IH (length (drop k (b :: s)))) by (cbn in *; lia). symmetry. f_equal.
  apply (IH (length (drop k (b :: s)))); cbn in *; lia.
Qed.

Lemma decodeTokens_cons s :
  token_ok → s ≠ [] → decodeTokens s = emit (tok s).1.2 (tok s).2 (decodeTokens (drop (tok s).1.1 s)).
Proof.
  intros Hok Hs. pose proof (Hok s Hs) as Hk. destruct s as [|b s]; [done|].
  unfold decodeTokens at 1. change (length (b :: s)) with (S (length s)). unfold decodeFuel; fold decodeFuel.
  destruct (tok (b :: s)) as [[k out] fl]. destruct Hk as [Hk _]. cbn [fst snd]. f_equal.
  apply decodeFuel_enough; [done|]. rewrite length_drop. cbn in *. lia.
Qed.

(** A loop body that does what the token says decodes by tokens. *)
Lemma tokens_loop input step pos :
  token_ok →
  (∀ i c d ch, length d = length input → (c ≤ i < length input)%nat →
   let '(k, out, fl) := tok (drop i input) in
   step (i, c, d, ch) = Done ((i + k)%nat, (c + length out)%nat, write_at d c out, ch || fl)) →
  (pos ≤ length input)%nat →
  ∃ i c d,
    loop (S (length input)) (λ st : nat * nat * bytes * bool, (st.1.1.1 <? length st.1.2)%nat) step
      (pos, pos, input, false) = Done (i, c, d, (decodeTokens (drop pos input)).2) ∧
    slice d 0 c = Done (take pos input ++ (decodeTokens (drop pos input)).1).
Proof.
  intros Hok Hstep Hpos. apply decode_loop; [|done|done]. intros i c d ch Hl Hi.
  specialize (Hstep i c d ch Hl Hi). assert (drop i input ≠ []) as Hne by (apply drop_nonempty; lia).
  pose proof (Hok _ Hne) as Hk. pose proof (decodeTokens_cons _ Hok Hne) as E.
  destruct (tok (drop i input)) as [[k out] fl]. rewrite length_drop in Hk. cbn [fst snd] in E.
  exists k, out, fl. rewrite drop_drop in E. split; [done|]. split; [lia|]. split; [lia|]. split; [lia|]. done.
Qed.

(** An honest token function makes an honest decoder. *)
Definition token_honest : Prop := ∀ s, s ≠ [] → wf_bytes s →
  let '(k, out, fl) := tok s in wf_bytes out ∧ (fl = false → out = take k s).

Lemma decodeTokens_honest s :
  token_ok → token_honest → wf_bytes s →
  wf_bytes (decodeTokens s).1 ∧ ((decodeTokens s).2 = false → (decodeTokens s).1 = s).
Proof.
  intros Hok Hh. remember (length s) as n eqn:Hn. revert s Hn.
  induction n as [n IH] using lt_wf_ind. intros s -> Hs. destruct (decide (s = [])) as [->|Hne]; [done|].
  rewrite decodeTokens_cons by done. pose proof (Hok s Hne) as Hk. pose proof (Hh s Hne Hs) as Ht.
  destruct (tok s) as [[k out] fl]. cbn [fst snd emit] in *. destruct Ht as [Hw Hf].
  destruct (IH (length (drop k s))) with (drop k s) as [IHw IHf];
    [rewrite length_drop; lia|done|by apply Forall_drop|].
  split; [by apply Forall_app|]. intros [H1 H2]%orb_false_iff. rewrite Hf, IHf by done. apply take_drop.
Qed.

(** Bytes that are tokens of their own. *)
Lemma decodeTokens_plain p s :
  token_ok → Forall (λ x, ∀ t, tok (x :: t) = (1%nat, [x], false)) p →
  decodeTokens (p ++ s) = emit p false (decodeTokens s).
Proof.
  intros Hok. induction 1 as [|x p Hx _ IH]; [cbn [app]; by destruct (decodeTokens s)|]. cbn [app].
  rewrite decodeTokens_cons, Hx by done. cbn [fst snd drop]. rewrite drop_0, IH. done.
Qed.
End tokens.

(** The longest prefix of at most [n] bytes that satisfy [p]. *)
Fixpoint prefixRun (p : Z → bool) (n : nat) (s : bytes) : bytes :=
  match n, s with
  | S n, x :: s => if p x then x :: prefixRun p n s else []
  | _, _ => []
  end.

Lemma prefixRun_take p n s :
  prefixRun p n s = take (length (prefixRun p n s)) s ∧ (length (prefixRun p n s) ≤ n)%nat ∧
  (length (prefixRun p n s) ≤ length s)%nat ∧ Forall (λ x, p x = true) (prefixRun p n s).
Proof.
  revert s. induction n as [|n IH]; intros s; [cbn; split; [by rewrite take_0|]; split; [lia|]; split; [lia|constructor]|].
  destruct s as [|x s]; [cbn; split; [done|]; split; [lia|]; split; [lia|constructor]|]. cbn.
  destruct (p x) eqn:E; cbn; [|split; [done|]; split; [lia|]; split; [lia|constructor]].
  destruct (IH s) as (H1 & H2 & H3 & H4). split; [by rewrite <- H1|]. split; [lia|]. split; [lia|]. by constructor.
Qed.

(** ** escapeSeqDecode *)

(** The value of two hexadecimal digits at the start of a string. *)
Definition hexPair (s : bytes) : option Z :=
  match s with
  | a :: b :: _ =>
      match hexDigitToByte a, hexDigitToByte b with Some h, Some l => Some (h * 16 + l) | _, _ => None end
  | _ => None
  end.

Definition escapeToken (s : bytes) : nat * bytes * bool :=
  match s with
  | [] => (0%nat, [], false)
  | x :: [] => (1%nat, [x], false)
  | x :: y :: r =>
      if x =? 0x5c then
        match escapeChar y with
        | Some c => (2%nat, [c], true)
        | None =>
            match (if (y =? 0x78) || (y =? 0x58) then hexPair r else None) with
            | Some v => (4%nat, [v], true)
            | None =>
                if isODigit y then
                  let ds := y :: prefixRun isODigit 2 r in (S (length ds), [Z.min 255 (octalValue ds)], true)
                else (2%nat, [y], true)
            end
        end
      else (1%nat, [x], false)
  end.

Lemma hexPairAt_eq input i s :
  drop i input = s → (i + 1 < length input)%nat →
  hexPairAt input i = Done (match hexPair s with Some _ => true | None => false end).
Proof.
  intros <- Hi. destruct (drop i input) as [|a [|b r]] eqn:E; apply (f_equal length) in E as El;
    rewrite length_drop in El; cbn in El; [lia..|].
  unfold hexPairAt. pose proof (index_drop _ _ 0 _ E) as H0. pose proof (index_drop _ _ 1 _ E) as H1.
  rewrite Nat.add_0_r in H0. rewrite H0, H1, index_cons_S, !index_cons_0. run_simpl. rewrite !ValidHex_hexDigit.
  cbn. by destruct (hexDigitToByte a), (hexDigitToByte b).
Qed.

Lemma X2c_hexPair s v : hexPair s = Some v → X2c s = Done v ∧ is_byte v.
Proof.
  unfold hexPair. destruct s as [|a [|b r]]; [done..|].
  destruct (hexDigitToByte a) as [h|] eqn:Ea, (hexDigitToByte b) as [l|] eqn:Eb; try done. intros [= <-].
  split; [by apply hex_pair|]. apply hexDigit_range in Ea as [_ ?], Eb as [_ ?].
  unfold is_byte. lia.
Qed.

Lemma runEnd_eq p input i j n :
  runEnd p input i j n = Done (j + length (prefixRun p n (drop (i + j) input)))%nat.
Proof.
  revert j. induction n as [|n IH]; intros j; cbn [runEnd prefixRun]; [f_equal; cbn; lia|].
  destruct (drop (i + j) input) as [|x r] eqn:E; apply (f_equal length) in E as El; rewrite length_drop in El; cbn in El.
  - destruct (Nat.ltb_spec (i + j) (length input)); [lia|]. run_simpl. f_equal. cbn. lia.
  - destruct (Nat.ltb_spec (i + j) (length input)); [|lia]. run_simpl.
    pose proof (index_drop _ _ 0 _ E) as H0. rewrite Nat.add_0_r in H0. rewrite H0, index_cons_0. run_simpl.
    destruct (p x); [|f_equal; cbn; lia]. rewrite IH. f_equal.
    replace (drop (i + (j + 1)) input) with r; [cbn; lia|].
    rewrite Nat.add_assoc, <- drop_drop, E. cbn. by rewrite drop_0.
Qed.

Lemma octalValue_pos s n : Forall (λ x, isODigit x = true) s → 0 <= n → 0 <= foldl (λ n c, n * 8 + (c - 0x30)) n s.
Proof.
  intros H. revert n. induction H as [|x s Hx _ IH]; intros n Hn; [done|]. cbn. apply IH.
  unfold isODigit in Hx. lia.
Qed.

Lemma parseUint8_digits y r :
  isODigit y = true →
  let ds := y :: prefixRun isODigit 2 r in u8 (parseUint8 ds) = Z.min 255 (octalValue ds) ∧ is_byte (Z.min 255 (octalValue ds)).
Proof.
  intros Hy. cbv zeta. destruct (prefixRun_take isODigit 2 r) as (_ & _ & _ & Hd).
  assert (Forall (λ x, isODigit x = true) (y :: prefixRun isODigit 2 r)) as Hall by (by constructor).
  assert (0 <= octalValue (y :: prefixRun isODigit 2 r)) by (by apply octalValue_pos).
  assert (is_byte (Z.min 255 (octalValue (y :: prefixRun isODigit 2 r)))) as Hb by (unfold is_byte; lia).
  split; [|done]. unfold parseUint8. replace (forallb isODigit _) with true; [by rewrite u8_id|].
  symmetry. apply forallb_forall. intros x Hx. rewrite Forall_forall in Hall. by apply Hall, list_elem_of_In.
Qed.

Lemma escapeToken_ok : token_ok escapeToken.
Proof.
  intros s Hs. destruct s as [|x [|y r]]; [done|cbn; lia|]. unfold escapeToken.
  destruct (x =? 0x5c); [|cbn; lia]. destruct (escapeChar y); [cbn; lia|].
  destruct (if (y =? 0x78) || (y =? 0x58) then hexPair r else None) eqn:E.
  - destruct r as [|a [|b r]]; cbn in *; [by destruct (_ || _) in E..|lia].
  - destruct (isODigit y); [|cbn; lia]. destruct (prefixRun_take isODigit 2 r) as (_ & _ & H & _).
    cbn [length]. lia.
Qed.

Lemma escapeStep_token input i c d ch :
  length d = length input → (c ≤ i < length input)%nat →
  let '(k, out, fl) := escapeToken (drop i input) in
  escapeStep input (i, c, d, ch) = Done ((i + k)%nat, (c + length out)%nat, write_at d c out, ch || fl).
Proof.
  intros Hl Hi. destruct (drop i input) as [|x s] eqn:E; apply (f_equal length) in E as El;
    rewrite length_drop in El; cbn in El; [lia|]. pose proof (λ k, index_drop _ _ k _ E) as Hx.
  unfold escapeStep. replace (index input i) with (Done x) by (by rewrite <- (Nat.add_0_r i), Hx). run_simpl.
  assert (∀ v, store d c v = Done (write_at d c [v])) as Hst by (intros; apply store_write_at; lia).
  destruct s as [|y r].
  { destruct (Nat.ltb_spec (i + 1) (length input)); [cbn in El; lia|]. rewrite andb_false_r, Hst. cbn.
    by rewrite orb_false_r. }
  destruct (Nat.ltb_spec (i + 1) (length input)); [|cbn in El; lia]. rewrite andb_true_r, Hx, index_cons_S, index_cons_0.
  unfold escapeToken. destruct (x =? 0x5c); [|rewrite Hst; cbn; by rewrite orb_false_r]. run_simpl.
  destruct (escapeChar y) as [e|]; [rewrite Hst; cbn; by rewrite orb_true_r|].
  assert (drop (i + 2) input = r) as Er by (rewrite <- drop_drop, E; done).
  assert (((y =? 0x78) || (y =? 0x58)) && (i + 3 <? length input)%nat &&? hexPairAt input (i + 2) =
    Done (match (if (y =? 0x78) || (y =? 0x58) then hexPair r else None) with Some _ => true | None => false end)) as ->.
  { destruct ((y =? 0x78) || (y =? 0x58)); [|done]. cbn [andb]. destruct (Nat.ltb_spec (i + 3) (length input)).
    - cbn. apply hexPairAt_eq; [done|lia].
    - destruct r as [|a [|b r]]; cbn in *; [done|done|lia]. }
  run_simpl. destruct (if (y =? 0x78) || (y =? 0x58) then hexPair r else None) as [v|] eqn:Eh.
  - assert (hexPair r = Some v) as Hv by (by destruct ((y =? 0x78) || (y =? 0x58))).
    rewrite slice_ok by lia. run_simpl. rewrite Er, take_ge by (rewrite <- Er, length_drop; lia).
    destruct (X2c_hexPair _ _ Hv) as [-> _]. run_simpl. rewrite Hst. cbn. by rewrite orb_true_r.
  - destruct (isODigit y) eqn:Ey; [|rewrite Hst; cbn; by rewrite orb_true_r].
    rewrite runEnd_eq, Er. run_simpl. destruct (prefixRun_take isODigit 2 r) as (Ht & _ & Hle & _).
    rewrite slice_ok by (cbn in *; lia). run_simpl.
    replace (take _ (drop (i + 1) input)) with (y :: prefixRun isODigit 2 r).
    + destruct (parseUint8_digits y r Ey) as [-> _]. rewrite Hst. cbn [length]. cbn. rewrite orb_true_r.
      repeat f_equal; lia.
    + rewrite <- drop_drop, E. cbn [drop]. replace (_ - _)%nat with (S (length (prefixRun isODigit 2 r))) by lia.
      cbn [take]. by rewrite <- Ht.
Qed.

Lemma letterEscape_byte c e : letterEscape c = Some e → is_byte e.
Proof. unfold letterEscape, is_byte. intros. repeat case_match; simplify_eq; lia. Qed.

Lemma escapeToken_honest : token_honest escapeToken.
Proof.
  intros s Hs Hw. destruct s as [|x [|y r]]; [done|done|]. apply Forall_cons in Hw as [Hx [Hy Hr]%Forall_cons].
  unfold escapeToken. destruct (x =? 0x5c); [|split; [by apply wf_single|done]].
  destruct (escapeChar y) as [e|] eqn:Ee.
  - split; [|done]. apply wf_single. unfold escapeChar in Ee. destruct (byte_in _ _); [by injection Ee as <-|].
    by eapply letterEscape_byte.
  - destruct (if (y =? 0x78) || (y =? 0x58) then hexPair r else None) as [v|] eqn:E.
    + assert (hexPair r = Some v) as Hv by (by destruct (_ || _)). apply X2c_hexPair in Hv as [_ Hv].
      split; [by apply wf_single|done].
    + destruct (isODigit y) eqn:Ey; [|split; [by apply wf_single|done]].
      destruct (parseUint8_digits y r Ey) as [_ Hb]. split; [by apply wf_single|done].
Qed.

(** A prefix without a backslash decodes to itself. *)
Lemma tokens_prefix tok s i :
  token_ok tok → (∀ x t, x ≠ 0x5c → tok (x :: t) = (1%nat, [x], false)) →
  Forall (λ x, x ≠ 0x5c) (take i s) →
  decodeTokens tok s = emit (take i s) false (decodeTokens tok (drop i s)).
Proof.
  intros Hok Hp Hf. rewrite <- (take_drop i s) at 1. apply decodeTokens_plain; [done|].
  eapply Forall_impl; [exact Hf|]. intros x Hx t. by apply Hp.
Qed.

(** A decoder that starts at the first backslash decodes the whole input. *)
Lemma tokens_from_first tok step data :
  token_ok tok → (∀ x t, x ≠ 0x5c → tok (x :: t) = (1%nat, [x], false)) →
  (∀ i c d ch, length d = length data → (c ≤ i < length data)%nat →
   let '(k, out, fl) := tok (drop i data) in
   step (i, c, d, ch) = Done ((i + k)%nat, (c + length out)%nat, write_at d c out, ch || fl)) →
  match IndexByte data 0x5c with
  | Some i =>
      '(_, c, d, changed) ← loop (S (length data))
        (λ st : nat * nat * bytes * bool, (st.1.1.1 <? length st.1.2)%nat) step (i, i, data, false);
      out ← slice d 0 c; Done (out, changed)
  | None => Done (data, false)
  end = Done (decodeTokens tok data).
Proof.
  intros Hok Hp Hstep. destruct (IndexByte data 0x5c) as [i|] eqn:E.
  - pose proof (IndexByte_lt _ _ _ E). apply IndexByte_Some in E as [_ Hpre].
    destruct (tokens_loop tok data step i Hok Hstep ltac:(lia)) as (i' & c & d & -> & Hs). run_simpl. rewrite Hs.
    run_simpl. rewrite (tokens_prefix tok data i) by done. done.
  - apply IndexByte_None in E. rewrite (tokens_prefix tok data (length data)); [|done|done|by rewrite take_ge].
    rewrite take_ge, drop_ge by done. unfold emit. cbn. by rewrite app_nil_r.
Qed.

Lemma escapeSeqDecode_eq data :
  escapeSeqDecode data = Done (decodeTokens escapeToken data, None).
Proof.
  pose proof (tokens_from_first escapeToken (escapeStep data) data escapeToken_ok) as H.
  unfold escapeSeqDecode, doEscapeSeqDecode. revert H. destruct (IndexByte data 0x5c) as [i|]; intros H.
  - rewrite H; [by destruct (decodeTokens _ _)| |apply escapeStep_token].
    intros x t Hx. destruct t; [done|]. cbn. by rewrite (proj2 (Z.eqb_neq _ _) Hx).
  - injection H as <-; [done| |apply escapeStep_token].
    intros x t Hx. destruct t; [done|]. cbn. by rewrite (proj2 (Z.eqb_neq _ _) Hx).
Qed.

Lemma escapeSeqDecode_honest : honest escapeSeqDecode.
Proof.
  intros data Hd. rewrite escapeSeqDecode_eq.
  destruct (decodeTokens_honest escapeToken data escapeToken_ok escapeToken_honest Hd) as [Hw Hf].
  destruct (decodeTokens escapeToken data) as [out changed]. cbn in *. auto.
Qed.

(** The hexadecimal escape of a byte. *)
Definition hexEscape (b : Z) : bytes :=
  [0x5c; 0x78; c2xTable !!! Z.to_nat (b / 16); c2xTable !!! Z.to_nat (b mod 16)].

Lemma escapeToken_hex b r : is_byte b → escapeToken (hexEscape b ++ r) = (4%nat, [b], true).
Proof.
  intros Hb. assert (0 <= b / 16 < 16 ∧ 0 <= b mod 16 < 16 ∧ b / 16 * 16 + b mod 16 = b) as (H1 & H2 & H3)
    by (unfold is_byte in Hb; dlia).
  unfold hexEscape. cbn [app]. unfold escapeToken, hexPair.
  rewrite (proj1 (hexTable_digit _ H1)), (proj1 (hexTable_digit _ H2)), H3. done.
Qed.

(** [escapeSeqDecode] decodes in place without an access out of range, and
    what it gives is the decoding by tokens: a letter escape, two hexadecimal
    digits, up to three octal digits (255 when they do not fit a byte), or any
    other byte after a backslash as itself.  It inverts the hexadecimal escapes
    of any byte string. *)
Theorem escapeSeqDecode_decodes data :
  escapeSeqDecode data = Done (decodeTokens escapeToken data, None) ∧
  (wf_bytes data → (decodeTokens escapeToken (flat_map hexEscape data)).1 = data).
Proof.
  split; [apply escapeSeqDecode_eq|]. induction 1 as [|b data Hb _ IH]; [done|]. cbn [flat_map].
  rewrite decodeTokens_cons, escapeToken_hex by (done || apply escapeToken_ok). cbn [fst snd].
  change (drop 4 (hexEscape b ++ flat_map hexEscape data)) with (flat_map hexEscape data).
  unfold emit. cbn [fst app]. by rewrite IH.
Qed.

Lemma escapeSeqDecode_decodes_witness :
  (decodeTokens escapeToken (flat_map hexEscape [0x00; 0x5c; 0xff])).1 = [0x00; 0x5c; 0xff].
Proof. refine (proj2 (escapeSeqDecode_decodes [0x00; 0x5c; 0xff]) _). apply wf_bytesb_true. reflexivity. Defined.

(** ** jsDecode *)

(** The digits of an escape [u{H...H}], after its backslash. *)
Definition jsBrace (s : bytes) : option bytes :=
  match s with
  | u :: b :: r =>
      let ds := prefixRun ValidHex 6 r in
      if (u =? 0x75) && (b =? 0x7b) && (0 <? length ds)%nat && HasPrefix (drop (length ds) r) [0x7d]
      then Some ds else None
  | _ => None
  end.

(** The low byte of a code point, the full width forms moved to ASCII. *)
Definition foldWidth (code : Z) : Z :=
  if (code >=? 0xff01) && (code <=? 0xff5e) then u8 (u8 code + 0x20) else u8 code.

(** The byte of an escape [uHHHH], after its backslash. *)
Definition jsU4 (s : bytes) : option Z :=
  match s with
  | u :: r =>
      match hexPair r, hexPair (drop 2 r) with
      | Some hi, Some lo => if u =? 0x75 then Some (foldWidth (hi * 256 + lo)) else None
      | _, _ => None
      end
  | [] => None
  end.

Definition jsX2 (s : bytes) : option Z :=
  match s with u :: r => if u =? 0x78 then hexPair r else None | [] => None end.

(** An octal digit makes a NUL byte, and takes the byte after it with it. *)
Definition jsToken (s : bytes) : nat * bytes * bool :=
  match s with
  | [] => (0%nat, [], false)
  | x :: s1 =>
      if x =? 0x5c then
        match jsBrace s1, jsU4 s1, jsX2 s1, s1 with
        | Some ds, _, _, _ => ((length ds + 4)%nat, [foldWidth (hexCode ds)], true)
        | None, Some v, _, _ => (6%nat, [v], true)
        | None, None, Some v, _ => (4%nat, [v], true)
        | None, None, None, y :: r =>
            if isODigit y then (if (length r =? 0)%nat then 2%nat else 3%nat, [0x00], true)
            else (2%nat, [default y (letterEscape y)], true)
        | None, None, None, [] => (1%nat, [x], false)
        end
      else (1%nat, [x], false)
  end.

Lemma jsExtended_eq input pos r :
  drop pos input = r → (pos ≤ length input)%nat →
  jsExtendedUnicodeEscapeLen input pos =
  Done (let ds := prefixRun ValidHex 6 r in
        if (0 <? length ds)%nat && HasPrefix (drop (length ds) r) [0x7d] then length ds else 0%nat).
Proof.
  intros E Hp. unfold jsExtendedUnicodeEscapeLen. rewrite runEnd_eq, Nat.add_0_r, E. run_simpl. cbv zeta.
  cbn [Nat.add]. set (n := length (prefixRun ValidHex 6 r)).
  destruct (Nat.eqb_spec n 0) as [->|Hn]; [done|]. destruct (Nat.ltb_spec 0 n); [|lia]. cbn [orb andb].
  assert (drop (pos + n) input = drop n r) as Ed by (by rewrite <- drop_drop, E).
  destruct (Nat.leb_spec (length input) (pos + n)) as [Hge|Hlt].
  - rewrite <- Ed, drop_ge by lia. done.
  - destruct (drop (pos + n) input) as [|x t] eqn:Ex; [by apply drop_nonempty in Ex|].
    pose proof (index_drop _ _ 0 _ Ex) as H0. rewrite Nat.add_0_r in H0. rewrite H0, index_cons_0. run_simpl.
    rewrite <- Ed. cbn [HasPrefix]. rewrite (Z.eqb_sym x), andb_true_r. by destruct (0x7d =? x).
Qed.

(** Reading the rest [s] of the input, whose first byte is at [i]. *)
Lemma rest_lengths input i x (s : bytes) :
  drop i input = x :: s → (∀ k, index input (i + S k) = index s k) ∧ length input = (i + S (length s))%nat ∧
  ∀ k, drop (i + S k) input = drop k s.
Proof.
  intros E. split; [intros k; by rewrite (index_drop _ _ _ _ E)|]. split; [by apply drop_cons_length in E|].
  intros k. by rewrite <- drop_drop, E.
Qed.

Lemma jsBrace_eq input i x s :
  drop i input = x :: s →
  (brace ← (i + 2 <? length input)%nat &&?
     (u ← index input (i + 1); (u =? 0x75) &&? (b ← index input (i + 2); Done (b =? 0x7b)));
   (if (brace : bool) then jsExtendedUnicodeEscapeLen input (i + 3) else Done 0%nat)) =
  Done (match jsBrace s with Some ds => length ds | None => 0%nat end).
Proof.
  intros E. destruct (rest_lengths _ _ _ _ E) as (Hx & Hl & Hd). unfold jsBrace.
  destruct s as [|u [|b r]]; cbn [length] in Hl.
  1, 2: destruct (Nat.ltb_spec (i + 2) (length input)); [lia|done].
  destruct (Nat.ltb_spec (i + 2) (length input)); [|lia]. cbn [and_then]. rewrite !Hx, index_cons_S, !index_cons_0. run_simpl.
  destruct (u =? 0x75); [|done]. run_simpl. destruct (b =? 0x7b); [|done]. cbn [andb].
  rewrite (jsExtended_eq _ _ r); [|by rewrite Hd|lia]. cbv zeta. by destruct (_ && _).
Qed.

Lemma isF_hexPair a b r hi : hexPair (a :: b :: r) = Some hi → isF a && isF b = (hi =? 255).
Proof.
  unfold hexPair. destruct (hexDigitToByte a) as [h|] eqn:Ea, (hexDigitToByte b) as [l|] eqn:Eb; try done.
  intros [= <-]. pose proof (hexDigit_range _ _ Ea) as [Ha Hh]. pose proof (hexDigit_range _ _ Eb) as [Hb Hl].
  assert (∀ c n, is_byte c → hexDigitToByte c = Some n → isF c = (n =? 15)) as H.
  { intros c n Hc. pose proof (forall_byte (λ c, match hexDigitToByte c with Some n => eqb (isF c) (n =? 15) | None => true end)) as H.
    specialize (H ltac:(by vm_compute) c Hc). cbv beta in H. intros E. rewrite E in H. by apply eqb_prop in H. }
  rewrite (H a h Ha Ea), (H b l Hb Eb). lia.
Qed.

Lemma jsU4_guard input i x s :
  drop i input = x :: s →
  (i + 5 <? length input)%nat &&? (u ← index input (i + 1); (u =? 0x75) &&?
    (h ← hexPairAt input (i + 2); h &&? hexPairAt input (i + 4))) =
  Done (match jsU4 s with Some _ => true | None => false end).
Proof.
  intros E. destruct (rest_lengths _ _ _ _ E) as (Hx & Hl & Hd). unfold jsU4.
  destruct (Nat.ltb_spec (i + 5) (length input)) as [H5|H5]; cbn [and_then].
  - destruct s as [|u r]; cbn [length] in Hl; [lia|]. rewrite Hx, index_cons_0. run_simpl.
    rewrite (hexPairAt_eq input (i + 2) r), (hexPairAt_eq input (i + 4) (drop 2 r)); [|by rewrite Hd|lia|by rewrite Hd|lia].
    run_simpl. by destruct (u =? 0x75), (hexPair r), (hexPair (drop 2 r)).
  - destruct s as [|u [|a [|b [|c [|e r]]]]]; cbn [length] in Hl; try lia; cbn; repeat case_match; done.
Qed.

Lemma jsU4_value input i x s v :
  drop i input = x :: s → jsU4 s = Some v →
  ∃ lo h1 h2, slice input (i + 4) (length input) = Done (drop 3 s) ∧ X2c (drop 3 s) = Done lo ∧
    index input (i + 2) = Done h1 ∧ index input (i + 3) = Done h2 ∧
    (if (lo >? 0x00) && (lo <? 0x5f) && isF h1 && isF h2 then u8 (lo + 0x20) else lo) = v ∧
    (5 ≤ length s)%nat ∧ is_byte v.
Proof.
  intros E Hv. destruct (rest_lengths _ _ _ _ E) as (Hx & Hl & Hd). unfold jsU4 in Hv.
  destruct s as [|u [|a [|b r]]]; [discriminate Hv..|].
  destruct (hexPair (a :: b :: r)) as [hi|] eqn:Eh; [|done]. cbn [drop] in *. rewrite ?drop_0 in *.
  destruct (hexPair r) as [lo|] eqn:El; [|done]. destruct (u =? 0x75); [|done]. injection Hv as <-.
  exists lo, a, b. pose proof (X2c_hexPair _ _ El) as [Hx2 Hlo]. pose proof (X2c_hexPair _ _ Eh) as [_ Hhi].
  assert (2 ≤ length r)%nat as Hr by (destruct r as [|? [|? ?]]; cbn in *; try done; lia).
  cbn [length] in Hl. rewrite slice_ok by lia. rewrite Hd. cbn [drop]. rewrite drop_0, take_ge by lia.
  split; [done|]. split; [done|]. rewrite !Hx. split; [done|]. split; [done|].
  rewrite <- andb_assoc, (isF_hexPair _ _ _ _ Eh). unfold foldWidth, u8, is_byte in *.
  split; [split_ifs; try lia; dlia|]. split; [cbn; lia|]. split_ifs; dlia.
Qed.

(** The octal branch never parses a digit: what it collects starts with the
    backslash. *)
Lemma octalBuf_backslash input i y r :
  drop i input = 0x5c :: y :: r → isODigit y = true →
  ∃ buf, octalBuf input i 0 3 [] = Done buf ∧ index buf 0 = Done 0x5c ∧
    let buf' := if (length buf =? 3)%nat && (0x5c >? 0x33) then take 2 buf else buf in
    parseInt8 buf' = 0 ∧ length buf' = if (length r =? 0)%nat then 1%nat else 2%nat.
Proof.
  intros E Hy. destruct (rest_lengths _ _ _ _ E) as (Hx & Hl & _).
  pose proof (index_drop _ _ 0 _ E) as H0. cbn [length] in Hl. cbn [octalBuf]. cbn [Nat.add].
  destruct (Nat.ltb_spec (i + 1 + 0) (length input)); [|lia].
  rewrite H0, (Hx 0%nat), !index_cons_0. run_simpl. rewrite Hy. run_simpl. cbn [app].
  destruct r as [|z r]; cbn [length] in *.
  - destruct (Nat.ltb_spec (i + 1 + 1) (length input)); [lia|]. by exists [0x5c].
  - destruct (Nat.ltb_spec (i + 1 + 1) (length input)); [|lia].
    rewrite (Hx 1%nat), index_cons_S, index_cons_0. run_simpl.
    destruct (isODigit z); run_simpl; [|by exists [0x5c; y]]. cbn [app].
    destruct r as [|w r]; cbn [length] in *.
    + destruct (Nat.ltb_spec (i + 1 + 2) (length input)); [lia|]. by exists [0x5c; y].
    + destruct (Nat.ltb_spec (i + 1 + 2) (length input)); [|lia].
      rewrite (Hx 2%nat), !index_cons_S, index_cons_0. run_simpl.
      exists [0x5c; y; z]. split; [by destruct (negb _)|]. done.
Qed.

Lemma jsX2_guard input i x s :
  drop i input = x :: s →
  (i + 3 <? length input)%nat &&? (u ← index input (i + 1); (u =? 0x78) &&? hexPairAt input (i + 2)) =
  Done (match jsX2 s with Some _ => true | None => false end).
Proof.
  intros E. destruct (rest_lengths _ _ _ _ E) as (Hx & Hl & Hd). unfold jsX2.
  destruct (Nat.ltb_spec (i + 3) (length input)) as [H3|H3]; cbn [and_then].
  - destruct s as [|u r]; cbn [length] in Hl; [lia|]. rewrite Hx, index_cons_0. run_simpl.
    destruct (u =? 0x78); [|done]. cbn [and_then]. apply hexPairAt_eq; [by rewrite Hd|lia].
  - destruct s as [|u [|a [|b r]]]; cbn [length] in Hl; try lia; cbn; repeat case_match; done.
Qed.

Lemma jsStep_token input i c d ch :
  length d = length input → (c ≤ i < length input)%nat →
  let '(k, out, fl) := jsToken (drop i input) in
  jsStep input (i, c, d, ch) = Done ((i + k)%nat, (c + length out)%nat, write_at d c out, ch || fl).
Proof.
  intros Hl Hi. destruct (drop i input) as [|x s] eqn:E; [by apply drop_nonempty in E; [|lia]|].
  destruct (rest_lengths _ _ _ _ E) as (Hx & Hlen & Hd). pose proof (index_drop _ _ 0 _ E) as H0.
  rewrite Nat.add_0_r in H0. unfold jsStep. rewrite H0, index_cons_0. cbn [mbind run_bind].
  assert (∀ v, store d c v = Done (write_at d c [v])) as Hst by (intros; apply store_write_at; lia).
  unfold jsToken. destruct (Z.eqb_spec x 0x5c) as [->|_]; [|rewrite Hst; cbn; by rewrite orb_false_r].
  pose proof (jsBrace_eq input i _ s E) as Hb.
  destruct ((i + 2 <? length input)%nat &&? _) as [brace| |]; [|discriminate Hb..]. cbn [mbind run_bind] in Hb |- *.
  rewrite Hb. cbn [mbind run_bind]. destruct (jsBrace s) as [ds|] eqn:Eb.
  { unfold jsBrace in Eb. destruct s as [|u [|b r]]; try discriminate Eb. cbv zeta in Eb.
    destruct (prefixRun_take ValidHex 6 r) as (Ht & _ & Hle & _). revert Ht Hle Eb.
    set (run_ := prefixRun ValidHex 6 r). intros Ht Hle Eb.
    destruct ((u =? 0x75) && (b =? 0x7b) && (0 <? length run_)%nat && HasPrefix (drop (length run_) r) [0x7d]) eqn:Eg;
      [|discriminate Eb]. injection Eb as <-. apply andb_true_iff in Eg as [Eg _]. apply andb_true_iff in Eg as [_ ->].
    cbn [length] in Hlen. rewrite slice_ok by lia. run_simpl. rewrite Hd. cbn [drop]. rewrite drop_0.
    replace (i + 3 + length run_ - (i + 3))%nat with (length run_) by lia. rewrite <- Ht, Hst. run_simpl.
    rewrite orb_true_r. done. }
  change (0 <? 0)%nat with false. cbv iota. rewrite (jsU4_guard _ _ _ _ E). cbn [mbind run_bind]. destruct (jsU4 s) as [v|] eqn:Eu.
  { destruct (jsU4_value _ _ _ _ _ E Eu) as (lo & h1 & h2 & Hs & H2 & Hi2 & Hi3 & <- & _).
    rewrite Hs. run_simpl. rewrite H2. run_simpl. rewrite Hi2, Hi3. run_simpl. rewrite Hst. run_simpl. by rewrite orb_true_r. }
  rewrite (jsX2_guard _ _ _ _ E). cbn [mbind run_bind]. destruct (jsX2 s) as [v|] eqn:Ex.
  { destruct s as [|u r]; [done|]. cbn in Ex. destruct (u =? 0x78); [|done]. cbn [length] in Hlen.
    rewrite slice_ok by lia. run_simpl. rewrite Hd. cbn [drop]. rewrite drop_0, take_ge by lia.
    destruct (X2c_hexPair _ _ Ex) as [-> _]. run_simpl. rewrite Hst. run_simpl. by rewrite orb_true_r. }
  destruct s as [|y r]; cbn [length] in Hlen.
  { destruct (Nat.ltb_spec (i + 1) (length input)); [lia|]. rewrite slice_ok by lia. run_simpl. rewrite E.
    replace (length input - i)%nat with 1%nat by lia. cbn [take]. unfold copyAt. rewrite decide_True by lia. run_simpl.
    rewrite orb_false_r. cbn [length take]. repeat f_equal. unfold write_at. cbn [length].
    destruct (length d - c)%nat eqn:Ed; [lia|]. done. }
  destruct (Nat.ltb_spec (i + 1) (length input)); [|lia]. rewrite Hx, index_cons_0. run_simpl.
  destruct (isODigit y) eqn:Ey; [|rewrite Hst; run_simpl; by rewrite orb_true_r].
  destruct (octalBuf_backslash _ _ _ _ E Ey) as (buf & -> & Hbuf & Hp & Hlb). run_simpl. rewrite Hbuf. run_simpl.
  cbv zeta in Hp, Hlb. rewrite Hp, Hlb, Hst. run_simpl. rewrite orb_true_r. repeat f_equal.
  by destruct (length r =? 0)%nat.
Qed.

Lemma jsBrace_length s ds :
  jsBrace s = Some ds → (length ds + 3 ≤ length s)%nat.
Proof.
  unfold jsBrace. destruct s as [|u [|b r]]; try done. cbv zeta. destruct (_ && _ && _ && _) eqn:E; [|done].
  intros H. assert (ds = prefixRun ValidHex 6 r) as -> by congruence. clear H.
  apply andb_true_iff in E as [_ [t Ht]%HasPrefix_spec].
  apply (f_equal length) in Ht. rewrite length_drop in Ht. cbn [length app] in *. lia.
Qed.

Lemma hexPair_length s v : hexPair s = Some v → (2 ≤ length s)%nat.
Proof. destruct s as [|a [|b r]]; [done..|]. intros _. cbn. lia. Qed.

Lemma foldWidth_byte code : is_byte (foldWidth code).
Proof. unfold foldWidth. destruct (_ && _); apply u8_is_byte. Qed.

Lemma jsToken_ok : token_ok jsToken.
Proof.
  intros s Hs. destruct s as [|x s]; [done|]. unfold jsToken. destruct (x =? 0x5c); [|cbn; lia].
  destruct (jsBrace s) as [ds|] eqn:Eb; [apply jsBrace_length in Eb; cbn; lia|].
  destruct (jsU4 s) as [v|] eqn:Eu.
  { unfold jsU4 in Eu. destruct s as [|u r]; [done|]. destruct (hexPair r); [|done].
    destruct (hexPair (drop 2 r)) eqn:E2; [|done]. apply hexPair_length in E2. rewrite length_drop in E2. cbn. lia. }
  destruct (jsX2 s) as [v|] eqn:Ex.
  { destruct s as [|u r]; [done|]. cbn in Ex. destruct (u =? 0x78); [|done]. apply hexPair_length in Ex. cbn. lia. }
  destruct s as [|y r]; [cbn; lia|]. destruct (isODigit y); [|cbn; lia]. destruct r; cbn; lia.
Qed.

Lemma jsToken_honest : token_honest jsToken.
Proof.
  intros s Hs Hw. destruct s as [|x s]; [done|]. apply Forall_cons in Hw as [Hx Hw]. unfold jsToken.
  destruct (x =? 0x5c); [|split; [by apply wf_single|done]].
  destruct (jsBrace s) as [ds|] eqn:Eb; [split; [apply wf_single, foldWidth_byte|done]|].
  destruct (jsU4 s) as [v|] eqn:Eu.
  { split; [|done]. apply wf_single. unfold jsU4 in Eu. repeat case_match; simplify_eq. apply foldWidth_byte. }
  destruct (jsX2 s) as [v|] eqn:Ex.
  { split; [|done]. apply wf_single. unfold jsX2 in Ex. repeat case_match; simplify_eq. by eapply X2c_hexPair. }
  destruct s as [|y r]; [split; [by apply wf_single|done]|]. apply Forall_cons in Hw as [Hy _].
  destruct (isODigit y); (split; [apply wf_single|done]); [unfold is_byte; lia|].
  destruct (letterEscape y) eqn:El; [by eapply letterEscape_byte|done].
Qed.

Lemma jsDecode_eq data : jsDecode data = Done (decodeTokens jsToken data, None).
Proof.
  assert (∀ x t, x ≠ 0x5c → jsToken (x :: t) = (1%nat, [x], false)) as Hp
    by (intros x t Hx; cbn; by rewrite (proj2 (Z.eqb_neq _ _) Hx)).
  pose proof (tokens_from_first jsToken (jsStep data) data jsToken_ok Hp (jsStep_token data)) as H.
  unfold jsDecode, doJsDecode. destruct (IndexByte data 0x5c) as [i|]; [|by injection H as <-].
  rewrite H. by destruct (decodeTokens _ _).
Qed.

Lemma jsDecode_honest : honest jsDecode.
Proof.
  intros data Hd. rewrite jsDecode_eq.
  destruct (decodeTokens_honest jsToken data jsToken_ok jsToken_honest Hd) as [Hw Hf].
  destruct (decodeTokens jsToken data) as [out changed]. cbn in *. auto.
Qed.

(** [jsDecode] decodes in place without an access out of range, by tokens:
    the escapes with braces, four or two hexadecimal digits, full width forms
    moved to ASCII, and letter escapes.  It inverts the two-digit escapes of
    any byte string. *)
Theorem jsDecode_decodes data :
  jsDecode data = Done (decodeTokens jsToken data, None) ∧
  (wf_bytes data → (decodeTokens jsToken (flat_map hexEscape data)).1 = data).
Proof.
  split; [apply jsDecode_eq|]. induction 1 as [|b data Hb _ IH]; [done|]. cbn [flat_map].
  assert (jsToken (hexEscape b ++ flat_map hexEscape data) = (4%nat, [b], true)) as Ht.
  { assert (0 <= b / 16 < 16 ∧ 0 <= b mod 16 < 16 ∧ b / 16 * 16 + b mod 16 = b) as (H1 & H2 & H3)
      by (unfold is_byte in Hb; dlia).
    unfold hexEscape at 1. cbn [app]. unfold jsToken. change (0x5c =? 0x5c) with true. cbv iota.
    unfold jsBrace, jsU4, jsX2, hexPair. change (0x78 =? 0x75) with false. change (0x78 =? 0x78) with true. cbn [andb].
    rewrite (proj1 (hexTable_digit _ H1)), (proj1 (hexTable_digit _ H2)), H3. by repeat case_match. }
  rewrite decodeTokens_cons, Ht by (done || apply jsToken_ok). cbn [fst snd].
  change (drop 4 (hexEscape b ++ flat_map hexEscape data)) with (flat_map hexEscape data).
  unfold emit. cbn [fst app]. by rewrite IH.
Qed.

Lemma jsDecode_decodes_witness :
  (decodeTokens jsToken (flat_map hexEscape [0x3c; 0x5c; 0xff])).1 = [0x3c; 0x5c; 0xff].
Proof. refine (proj2 (jsDecode_decodes [0x3c; 0x5c; 0xff]) _). apply wf_bytesb_true. reflexivity. Defined.

(** An octal escape is not decoded: whatever its digits are, [jsDecode]
    writes a NUL byte and drops the byte that follows the first digit, octal or
    not. *)
Theorem jsDecode_octal y z r :
  isODigit y = true →
  wp (jsDecode (0x5c :: y :: z :: r)) (λ '(out, changed, err), ∃ rest,
    out = 0x00 :: rest ∧ changed = true ∧ err = None ∧
    wp (jsDecode r) (λ '(out', _, _), out' = rest)).
Proof.
  intros Hy. rewrite !jsDecode_eq, decodeTokens_cons by (done || apply jsToken_ok).
  assert (jsToken (0x5c :: y :: z :: r) = (3%nat, [0x00], true)) as ->.
  { unfold jsToken. cbn [Z.eqb Pos.eqb]. unfold jsBrace, jsU4, jsX2, isODigit in *.
    replace (y =? 0x75) with false by lia. replace (y =? 0x78) with false by lia.
    replace ((y >=? 0x30) && (y <=? 0x37)) with true. cbn [andb length Nat.eqb].
    by destruct (hexPair (z :: r)), (hexPair (drop 2 (z :: r))). }
  cbn [fst snd drop emit]. rewrite drop_0. destruct (decodeTokens jsToken r) as [out changed].
  exists out. done.
Qed.

Lemma jsDecode_octal_witness :
  wp (jsDecode (str "\074script")) (λ '(out, changed, err), ∃ rest,
    out = 0x00 :: rest ∧ changed = true ∧ err = None ∧
    wp (jsDecode (str "4script")) (λ '(out', _, _), out' = rest)).
Proof. apply (jsDecode_octal 0x30 0x37 (str "4script")). reflexivity. Defined.

(** ** cssDecode *)

Lemma hexRun_length n s : (hexRun n s ≤ length s)%nat.
Proof. revert s. induction n as [|n IH]; intros [|x s]; cbn; try lia. destruct (ValidHex x); [specialize (IH s)|]; lia. Qed.

Lemma cssStep_ok s :
  s ≠ [] → (length (cssStep s).1 < length s)%nat ∧ (wf_bytes s → wf_bytes (cssStep s).1 ∧ wf_bytes (cssStep s).2).
Proof.
  intros Hs. destruct s as [|x r]; [done|]. unfold cssStep. destruct (x =? 0x5c).
  - destruct r as [|y r1]; [cbn; split; [lia|done]|]. pose proof (hexRun_length 6 (y :: r1)) as Hj.
    destruct (Nat.ltb_spec 0 (hexRun 6 (y :: r1))) as [H0|H0].
    + set (j := hexRun 6 (y :: r1)) in *. cbn [fst snd].
      assert (length (drop j (y :: r1)) < length (x :: y :: r1))%nat as Hl by (rewrite length_drop; cbn in *; lia).
      split; [destruct (drop j (y :: r1)); [cbn; lia|]; destruct (isspace _); cbn in *; lia|].
      intros [_ Hw]%Forall_cons. apply (Forall_drop _ j) in Hw. split; [|apply EncodeRune_wf].
      destruct (drop j (y :: r1)) as [|sp rest]; [constructor|]. destruct (isspace sp); [by apply Forall_cons in Hw as [_ Hw]|done].
    + destruct (y =? 0x0a); cbn [fst snd length]; (split; [lia|]); intros [_ [Hy Hr]%Forall_cons]%Forall_cons;
        (split; [done|]); [constructor|by apply wf_single].
  - cbn [fst snd length]. split; [lia|]. intros [Hx Hr]%Forall_cons. split; [done|by apply wf_single].
Qed.

Lemma cssLoop_ok fuel s : ∀ d,
  (length s ≤ fuel)%nat → ∃ out, cssLoop fuel s d = Done (d ++ out) ∧ (wf_bytes s → wf_bytes out).
Proof.
  revert s. induction fuel as [|fuel IH]; intros s d Hl.
  { destruct s; [|cbn in Hl; lia]. exists []. by rewrite app_nil_r. }
  destruct s as [|x r]; [exists []; by rewrite app_nil_r|]. cbn [cssLoop].
  destruct (cssStep_ok (x :: r)) as [Hlt Hw]; [done|]. destruct (cssStep (x :: r)) as [s' out1]. cbn [fst snd] in *.
  destruct (IH s' (d ++ out1)) as (out & -> & Hw'); [cbn in *; lia|]. exists (out1 ++ out).
  split; [by rewrite app_assoc|]. intros Hwf. destruct (Hw Hwf). apply Forall_app. auto.
Qed.

Lemma cssLoop_fuel fuel fuel' s d :
  (length s ≤ fuel)%nat → (length s ≤ fuel')%nat → cssLoop fuel s d = cssLoop fuel' s d.
Proof.
  revert fuel' s d. induction fuel as [|fuel IH]; intros fuel' s d H1 H2.
  { destruct s; [|cbn in H1; lia]. by destruct fuel'. }
  destruct s as [|x r]; [by destruct fuel'|]. destruct fuel' as [|fuel']; [cbn in H2; lia|]. cbn [cssLoop].
  destruct (cssStep_ok (x :: r)) as [Hlt _]; [done|]. destruct (cssStep (x :: r)) as [s' out1]. cbn [fst length] in *.
  apply IH; lia.
Qed.

Lemma cssDecode_honest : honest cssDecode.
Proof.
  intros data Hd. unfold cssDecode. destruct (IndexByte data 0x5c) as [i|]; [|done]. unfold cssDecodeInplace.
  destruct (cssLoop_ok (length data) (drop i data) (take i data)) as (out & -> & Hw); [rewrite length_drop; lia|]. cbn.
  split; [|done]. apply Forall_app. split; [by apply Forall_take|]. by apply Hw, Forall_drop.
Qed.

(** The six-digit escape of a code point. *)
Definition cssEscape (r : Z) : bytes :=
  0x5c :: ((λ k, c2xTable !!! Z.to_nat ((r / 16 ^ k) mod 16)) <$> [5; 4; 3; 2; 1; 0]).

Lemma xsingle2c_digit n : 0 <= n < 16 → xsingle2c (c2xTable !!! Z.to_nat n) = n ∧ ValidHex (c2xTable !!! Z.to_nat n) = true.
Proof.
  intros Hn. assert (n ∈ seqZ 0 16) as Hin by (apply elem_of_seqZ; lia).
  assert (Forall (λ n, bool_decide (xsingle2c (c2xTable !!! Z.to_nat n) = n ∧ ValidHex (c2xTable !!! Z.to_nat n) = true) = true)
    (seqZ 0 16)) as H by (repeat constructor).
  rewrite Forall_forall in H. exact (bool_decide_eq_true_1 _ (H n Hin)).
Qed.

Lemma ValidHex_digit x : ValidHex (c2xTable !!! Z.to_nat (x mod 16)) = true.
Proof. apply xsingle2c_digit. by apply Z.mod_pos_bound. Qed.

Lemma hexCode_app ds n code :
  0 <= n < 16 → hexCode ds = code → hexCode (ds ++ [c2xTable !!! Z.to_nat n]) = code * 16 + n.
Proof.
  intros Hn <-. unfold hexCode. rewrite foldl_app. cbn [foldl].
  destruct (xsingle2c_digit n Hn) as [-> _]. by apply lor_shiftl.
Qed.

Lemma cssEscape_code r : 0 <= r < 16 ^ 6 → hexCode (tail (cssEscape r)) = r.
Proof.
  intros Hr. unfold cssEscape. cbn [tail fmap list_fmap].
  set (d k := (r / 16 ^ k) mod 16). fold (d 5) (d 4) (d 3) (d 2) (d 1) (d 0).
  assert (∀ k, 0 <= d k < 16) as Hd by (intros k; apply Z.mod_pos_bound; lia).
  pose proof (hexCode_app [] _ _ (Hd 5) eq_refl) as H1. pose proof (hexCode_app _ _ _ (Hd 4) H1) as H2.
  pose proof (hexCode_app _ _ _ (Hd 3) H2) as H3. pose proof (hexCode_app _ _ _ (Hd 2) H3) as H4.
  pose proof (hexCode_app _ _ _ (Hd 1) H4) as H5. pose proof (hexCode_app _ _ _ (Hd 0) H5) as H6.
  cbn [app] in H6. rewrite H6. unfold d. clear -Hr. change (hexCode []) with 0. dlia.
Qed.

(** The rune that an escape of the value [r] stands for. *)
Definition cssRune (r : Z) : Z :=
  if r =? 0 then RuneError else if (0xff01 <=? r) && (r <=? 0xff5e) then r - 0xfee0 else r.

Lemma cssStep_escape r rest :
  0 <= r < 16 ^ 6 → (∀ c, head rest = Some c → isspace c = false) →
  cssStep (cssEscape r ++ rest) = (rest, EncodeRune (cssRune r)).
Proof.
  intros Hr Hsp. pose proof (cssEscape_code r Hr) as Hc. unfold cssEscape in *. cbn [tail fmap list_fmap app] in *.
  unfold cssStep. cbn [Z.eqb Pos.eqb hexRun].
  rewrite !ValidHex_digit. cbn [Nat.ltb Nat.leb take drop].
  rewrite drop_0, take_0. unfold cssCode. rewrite Hc. unfold cssRune. rewrite Z.geb_leb. f_equal.
  - destruct rest as [|c rest]; [done|]. by rewrite (Hsp c).
  - destruct (Z.eqb_spec r 0); [done|done].
Qed.

Lemma cssLoop_escapes rs : ∀ d fuel,
  Forall (λ r, 0 <= r < 16 ^ 6) rs → (length rs ≤ fuel)%nat →
  cssLoop fuel (flat_map cssEscape rs) d = Done (d ++ flat_map (EncodeRune ∘ cssRune) rs).
Proof.
  induction rs as [|r rs IH]; intros d fuel Hrs Hf; [destruct fuel; cbn; by rewrite app_nil_r|].
  apply Forall_cons in Hrs as [Hr Hrs]. destruct fuel as [|fuel]; [cbn in Hf; lia|]. cbn [flat_map].
  assert (cssStep (cssEscape r ++ flat_map cssEscape rs) = (flat_map cssEscape rs, EncodeRune (cssRune r))) as Hs.
  { apply cssStep_escape; [done|]. destruct rs as [|r' rs]; [done|]. by intros c [= <-]. }
  unfold cssEscape in Hs at 1. unfold cssEscape at 1. cbn [app cssLoop] in *. rewrite Hs.
  rewrite (IH _ fuel Hrs) by (cbn in Hf; lia). by rewrite <- app_assoc.
Qed.

(** Round trip of cssDecode.  A string of six-digit CSS escapes is decoded
    to the UTF-8 encoding of the code points, in order; the value zero, a
    surrogate and a value beyond U+10FFFF give U+FFFD, and a full-width ASCII
    code point gives its ASCII character. *)
Theorem cssDecode_escapes r rs :
  Forall (λ r, 0 <= r < 16 ^ 6) (r :: rs) →
  cssDecode (flat_map cssEscape (r :: rs)) = Done (flat_map (EncodeRune ∘ cssRune) (r :: rs), true, None).
Proof.
  intros Hrs. unfold cssDecode. change (IndexByte (flat_map cssEscape (r :: rs)) 0x5c) with (Some 0%nat).
  unfold cssDecodeInplace. rewrite drop_0, take_0, cssLoop_escapes; [done|done|].
  clear. induction (r :: rs) as [|x xs IH]; [done|]. cbn [flat_map]. rewrite length_app. cbn in *. lia.
Qed.

Lemma cssDecode_escapes_witness :
  cssDecode (str "\00003c\00ff53\0020ac\000000") = Done (str "<s" ++ [0xe2; 0x82; 0xac; 0xef; 0xbf; 0xbd], true, None).
Proof.
  change (str "\00003c\00ff53\0020ac\000000") with (flat_map cssEscape [0x3c; 0xff53; 0x20ac; 0]).
  rewrite (cssDecode_escapes 0x3c [0xff53; 0x20ac; 0]); [reflexivity|]. repeat constructor; intros; discriminate.
Defined.
