(* ===== verification/Base64.v ===== *)
(** The Base64 transformations: src/internal/transformations/base64decode.go,
    base64decodeext.go and base64encode.go, with the decoder and the encoder of
    the package encoding/base64 that they call.

    The strict decoder tries the library's decoder first and falls back on its
    own loop.  The theorems show that the two agree wherever the first succeeds,
    so that the strict decoder is the loop; that the loop decodes the longest
    prefix of the input over the alphabet, and the forgiving one the input
    without the bytes outside it; and that both undo the encoder. *)

From S2P Require Import Prelude GoLib StringUtil UrlTransform TextTransform.

(** ** The transformations *)

Definition base64DecMap : list Z := [
  127; 127; 127; 127; 127; 127; 127; 127; 127; 127;
  127; 127; 127; 127; 127; 127; 127; 127; 127; 127;
  127; 127; 127; 127; 127; 127; 127; 127; 127; 127;
  127; 127; 127; 127; 127; 127; 127; 127; 127; 127;
  127; 127; 127; 62; 127; 127; 127; 63; 52; 53;
  54; 55; 56; 57; 58; 59; 60; 61; 127; 127;
  127; 64; 127; 127; 127; 0; 1; 2; 3; 4;
  5; 6; 7; 8; 9; 10; 11; 12; 13; 14;
  15; 16; 17; 18; 19; 20; 21; 22; 23; 24;
  25; 127; 127; 127; 127; 127; 127; 26; 27; 28;
  29; 30; 31; 32; 33; 34; 35; 36; 37; 38;
  39; 40; 41; 42; 43; 44; 45; 46; 47; 48;
  49; 50; 51; 127; 127; 127; 127; 127].

Definition newline (c : Z) : bool := (c =? 0x0d) || (c =? 0x0a).

Fixpoint beginsBase64Encoding (src : bytes) : run bool :=
  match src with
  | [] => Done false
  | current :: src =>
      if newline current then beginsBase64Encoding src
      else (current <? 128) &&? (m ← index base64DecMap (Z.to_nat current); Done (negb (m =? 127) && negb (current =? 0x3d)))
  end.

(** The loop over the first 64 bytes. *)
Fixpoint fastPathLoop (src : bytes) (seenData : bool) : run bool :=
  match src with
  | [] => Done seenData
  | current :: src =>
      if newline current then fastPathLoop src seenData
      else if current >=? 128 then Done false
      else
        m ← index base64DecMap (Z.to_nat current);
        if (m =? 127) || (negb seenData && (current =? 0x3d)) then Done false
        else fastPathLoop src true
  end.

Definition hasBase64FastPathPrefix (src : bytes) : run bool := fastPathLoop (take 64 src) false.

(** encoding/base64: the alphabet of [StdEncoding] and [RawStdEncoding]. *)
Definition encodeStd : bytes := str "ABCDEFGHIJKLMNOPQRSTUVWXYZabcdefghijklmnopqrstuvwxyz0123456789+/".

(** [decodeMap]: the value of a byte of the alphabet. *)
Definition decodeMap (c : Z) : option Z := Z.of_nat <$> firstIndex (Z.eqb c) encodeStd.

(** The bytes of [dlen] values of six bits. *)
Definition quantumBytes (dbuf : list Z) : bytes :=
  let d k := default 0 (dbuf !! k) in
  let val := Z.lor (Z.lor (Z.lor (Z.shiftl (d 0%nat) 18) (Z.shiftl (d 1%nat) 12)) (Z.shiftl (d 2%nat) 6)) (d 3%nat) in
  take (length dbuf - 1) [u8 (Z.shiftr val 16); u8 (Z.shiftr val 8); u8 val].

Fixpoint skipNewlines (src : bytes) : bytes :=
  match src with
  | c :: r => if newline c then skipNewlines r else src
  | [] => []
  end.

(** [decodeQuantum] with its loop over the input and [Decode] around it: [dbuf]
    holds the values read of the quantum at hand, [None] is a
    CorruptInputError.  [padding] tells [StdEncoding] from [RawStdEncoding]. *)
Fixpoint Decode (padding : bool) (dbuf : list Z) (src dst : bytes) : option bytes :=
  match src with
  | [] =>
      match length dbuf with
      | O => Some dst
      | 1%nat => None
      | _ => if padding then None else Some (dst ++ quantumBytes dbuf)
      end
  | c :: src =>
      match decodeMap c with
      | Some out =>
          let dbuf := dbuf ++ [out] in
          if (length dbuf =? 4)%nat then Decode padding [] src (dst ++ quantumBytes dbuf)
          else Decode padding dbuf src dst
      | None =>
          if newline c then Decode padding dbuf src dst
          else if negb (padding && (c =? 0x3d)) then None
          else
            match length dbuf with
            | 2%nat =>
                match skipNewlines src with
                | c' :: rest =>
                    if negb (c' =? 0x3d) then None
                    else match skipNewlines rest with [] => Some (dst ++ quantumBytes dbuf) | _ => None end
                | [] => None
                end
            | 3%nat => match skipNewlines src with [] => Some (dst ++ quantumBytes dbuf) | _ => None end
            | _ => None
            end
      end
  end.

(** The loop over [src]: the values [n], [x] and [dst] at its end. *)
Fixpoint base64Loop (ext : bool) (src : bytes) (n x : Z) (dst : bytes) : run (Z * Z * bytes) :=
  match src with
  | [] => Done (n, x, dst)
  | currChar :: src =>
      if ext && (IsSpace currChar || (currChar =? 0x2e)) then base64Loop ext src n x dst
      else if newline currChar then base64Loop ext src n x dst
      else if (currChar =? 0x3d) || (currChar =? 0x20) then Done (n, x, dst)
      else
        let currChar :=
          if ext then if currChar =? 0x2d then 0x2b else if currChar =? 0x5f then 0x2f else currChar else currChar in
        decodedChar ← (if currChar <=? 127 then index base64DecMap (Z.to_nat currChar) else Done 127);
        if decodedChar =? 127 then
          if ext then base64Loop ext src n x dst else Done (n, x, dst)
        else
          let x := Z.lor (Z.shiftl x 6) (Z.land decodedChar 0x3f) in
          let n := n + 1 in
          if n =? 4 then base64Loop ext src 0 0 (dst ++ [u8 (Z.shiftr x 16); u8 (Z.shiftr x 8); u8 x])
          else base64Loop ext src n x dst
  end.

(** The loop and the characters that remain after it. *)
Definition base64Slow (src : bytes) (ext : bool) : run bytes :=
  '(n, x, dst) ← base64Loop ext src 0 0 [];
  Done (if n =? 2 then dst ++ [u8 (Z.shiftr (Z.shiftl x 12) 16)]
        else if n =? 3 then let x := Z.shiftl x 6 in dst ++ [u8 (Z.shiftr x 16); u8 (Z.shiftr x 8)]
        else dst).

(** [beginsBase64Encoding(src) && hasBase64FastPathPrefix(src)] *)
Definition fastPath (src : bytes) : run bool :=
  begins ← beginsBase64Encoding src; begins &&? hasBase64FastPathPrefix src.

Definition doBase64decode (src : bytes) (ext : bool) : run bytes :=
  if (length src =? 0)%nat then Done src else
  decoded ← (if ext then Done (@None bytes) else
    fast ← fastPath src;
    Done (match fast with
          | true => Decode (if IndexByte src 0x3d then true else false) [] src []
          | false => None
          end));
  match decoded with
  | Some out => Done out
  | None => base64Slow src ext
  end.

Definition base64decode : transformation := λ data, res ← doBase64decode data false; Done (res, true, None).

Definition base64decodeext : transformation := λ data, res ← doBase64decode data true; Done (res, true, None).

(** [StdEncoding.EncodeToString]. *)
Definition encodeDigit (val : Z) (shift : Z) : Z := encodeStd !!! Z.to_nat (Z.land (Z.shiftr val shift) 0x3f).

Fixpoint EncodeToString (src : bytes) : bytes :=
  match src with
  | a :: b :: c :: src =>
      let val := Z.lor (Z.lor (Z.shiftl a 16) (Z.shiftl b 8)) c in
      [encodeDigit val 18; encodeDigit val 12; encodeDigit val 6; encodeDigit val 0] ++ EncodeToString src
  | [a; b] =>
      let val := Z.lor (Z.shiftl a 16) (Z.shiftl b 8) in
      [encodeDigit val 18; encodeDigit val 12; encodeDigit val 6; 0x3d]
  | [a] =>
      let val := Z.shiftl a 16 in
      [encodeDigit val 18; encodeDigit val 12; 0x3d; 0x3d]
  | [] => []
  end.

Definition base64encode : transformation := λ data, Done (EncodeToString data, true, None).

(** ** The bytes of a sequence of six-bit values *)

(** The values of a string, up to the first byte that ends the decoding: a
    newline is skipped; the strict decoder stops at the first byte outside the
    alphabet, the forgiving one skips it, and takes '-' and '_' for '+' and '/'. *)
Definition urlAlphabet (c : Z) : Z := if c =? 0x2d then 0x2b else if c =? 0x5f then 0x2f else c.

Fixpoint sextets (ext : bool) (src : bytes) : list Z :=
  match src with
  | [] => []
  | c :: src =>
      if c =? 0x3d then []
      else match decodeMap (if ext then urlAlphabet c else c) with
      | Some v => v :: sextets ext src
      | None => if ext || newline c then sextets ext src else []
      end
  end.

(** Four values are three bytes; two or three that remain are one or two. *)
Fixpoint sextetBytes (l : list Z) : bytes :=
  match l with
  | a :: b :: c :: d :: l => [a * 4 + b / 16; b mod 16 * 16 + c / 4; c mod 4 * 64 + d] ++ sextetBytes l
  | [a; b; c] => [a * 4 + b / 16; b mod 16 * 16 + c / 4]
  | [a; b] => [a * 4 + b / 16]
  | _ => []
  end.

Definition sextet (v : Z) : Prop := 0 <= v < 64.

Lemma decodeMap_sextet c v : decodeMap c = Some v → sextet v.
Proof.
  unfold decodeMap. intros (i & H & ->)%fmap_Some. apply firstIndex_Some in H as [H _].
  change (length encodeStd) with 64%nat in H. unfold sextet. lia.
Qed.

Definition decMapAgrees (c : Z) : bool := bool_decide (
  base64DecMap !! Z.to_nat c =
    (if c <=? 127 then Some (if c =? 0x3d then 64 else default 127 (decodeMap c)) else None) ∧
  (if c <=? 127 then None else decodeMap c) = None).

Lemma decodeMap_byte c : is_byte c →
  base64DecMap !! Z.to_nat c =
    (if c <=? 127 then Some (if c =? 0x3d then 64 else default 127 (decodeMap c)) else None) ∧
  (if c <=? 127 then None else decodeMap c) = None.
Proof.
  intros Hc. apply (bool_decide_eq_true_1 _). apply (forall_byte decMapAgrees); [vm_compute; reflexivity|done].
Qed.

Lemma decodeMap_pad : decodeMap 0x3d = None.
Proof. reflexivity. Qed.

Lemma newline_decodeMap c : newline c = true → decodeMap c = None ∧ c =? 0x3d = false.
Proof. unfold newline. rewrite orb_true_iff, !Z.eqb_eq. by intros [-> | ->]. Qed.

Lemma default_127 c : default 127 (decodeMap c) =? 127 = true ↔ decodeMap c = None.
Proof.
  destruct (decodeMap c) as [v|] eqn:E; [|done]. apply decodeMap_sextet in E. unfold sextet in E. cbn.
  rewrite Z.eqb_eq. split; [lia|done].
Qed.

(** ** The loop *)

(** The value of the characters since the last group of four. *)
Definition pendingValue (p : list Z) : Z := foldl (λ x v, x * 64 + v) 0 p.

Lemma pendingValue_snoc p v :
  sextet v → Z.lor (Z.shiftl (pendingValue p) 6) (Z.land v 0x3f) = pendingValue (p ++ [v]).
Proof.
  intros Hv. unfold pendingValue. rewrite foldl_app. change 0x3f with (Z.ones 6). rewrite Z.land_ones by lia.
  unfold sextet in Hv. rewrite Z.mod_small by lia. cbn [foldl]. by rewrite lor_shiftl by lia.
Qed.

Definition finish (n x : Z) (dst : bytes) : bytes :=
  if n =? 2 then dst ++ [u8 (Z.shiftr (Z.shiftl x 12) 16)]
  else if n =? 3 then dst ++ [u8 (Z.shiftr (Z.shiftl x 6) 16); u8 (Z.shiftr (Z.shiftl x 6) 8)]
  else dst.

Ltac sextet_arith :=
  unfold u8, pendingValue; cbn [foldl]; rewrite ?Z.shiftr_div_pow2, ?Z.shiftl_mul_pow2 by lia;
  repeat match goal with H : sextet _ |- _ => unfold sextet in H end; repeat (f_equal; try dlia).

Lemma finish_bytes p dst :
  Forall sextet p → (length p < 4)%nat →
  finish (Z.of_nat (length p)) (pendingValue p) dst = dst ++ sextetBytes p.
Proof.
  intros Hp Hl. destruct p as [|a [|b [|c [|d p]]]]; cbn [length] in *; [..|lia];
    unfold finish; cbn [Z.of_nat Pos.of_succ_nat Pos.succ Z.eqb Pos.eqb sextetBytes]; rewrite ?app_nil_r; try done;
    decompose_Forall; sextet_arith.
Qed.

Lemma group_bytes p v l :
  Forall sextet (p ++ [v]) → (length p = 3)%nat → let x := pendingValue (p ++ [v]) in
  sextetBytes ((p ++ [v]) ++ l) = [u8 (Z.shiftr x 16); u8 (Z.shiftr x 8); u8 x] ++ sextetBytes l.
Proof.
  intros Hp Hl. destruct p as [|a [|b [|c [|d p]]]]; try discriminate Hl. cbn [app] in *. decompose_Forall.
  cbn zeta. cbn [sextetBytes]. sextet_arith.
Qed.

Lemma decodedChar_eq c : is_byte c →
  (if c <=? 127 then index base64DecMap (Z.to_nat c) else Done 127) =
  Done (if c =? 0x3d then 64 else default 127 (decodeMap c)).
Proof.
  intros Hc. destruct (decodeMap_byte c Hc) as [H1 H2]. unfold index. rewrite H1.
  destruct (c <=? 127) eqn:E; [done|]. rewrite H2. destruct (Z.eqb_spec c 0x3d); [subst; done|done].
Qed.

Lemma urlAlphabet_byte c : is_byte c → is_byte (urlAlphabet c).
Proof. unfold urlAlphabet. intros Hc. split_ifs; done. Qed.

Lemma urlAlphabet_pad c : c =? 0x3d = false → urlAlphabet c =? 0x3d = false.
Proof. unfold urlAlphabet. intros Hc. split_ifs; done. Qed.

(** The bytes that the forgiving decoder skips before it looks at the map. *)
Lemma skipped_byte c :
  is_byte c → IsSpace c || (c =? 0x2e) = true → decodeMap (urlAlphabet c) = None ∧ c =? 0x3d = false.
Proof.
  intros Hc H. pose (P c := implb (IsSpace c || (c =? 0x2e)) (bool_decide (decodeMap (urlAlphabet c) = None ∧ c =? 0x3d = false))).
  assert (P c = true) as HP by (apply forall_byte; [vm_compute; reflexivity|done]).
  unfold P in HP. rewrite H in HP. by apply bool_decide_eq_true_1 in HP.
Qed.

Lemma newline_url c : newline c = true → decodeMap (urlAlphabet c) = None.
Proof. unfold newline. rewrite orb_true_iff, !Z.eqb_eq. by intros [-> | ->]. Qed.

Lemma sextets_skip (ext : bool) c src :
  (decodeMap (if ext then urlAlphabet c else c) = None) → c =? 0x3d = false → ext || newline c = true →
  sextets ext (c :: src) = sextets ext src.
Proof. intros H1 H2 H3. cbn [sextets]. by rewrite H1, H2, H3. Qed.

Lemma base64Loop_ok ext src : ∀ p dst,
  wf_bytes src → Forall sextet p → (length p < 4)%nat →
  wp (base64Loop ext src (Z.of_nat (length p)) (pendingValue p) dst)
    (λ '(n, x, d), finish n x d = dst ++ sextetBytes (p ++ sextets ext src)).
Proof.
  induction src as [|c src IH]; intros p dst Hs Hp Hl.
  { cbn [base64Loop wp sextets]. rewrite app_nil_r. by apply finish_bytes. }
  apply Forall_cons in Hs as [Hc Hs]. cbn [base64Loop]. destruct (ext && _) eqn:Hskip.
  { apply andb_true_iff in Hskip as [-> Hskip]. destruct (skipped_byte c Hc Hskip). rewrite sextets_skip by done. by apply IH. }
  destruct (newline c) eqn:Hn.
  { rewrite sextets_skip; [by apply IH|..|by rewrite Hn, orb_true_r]; [|by apply newline_decodeMap].
    destruct ext; [by apply newline_url|by apply newline_decodeMap]. }
  destruct (c =? 0x3d) eqn:Hpad.
  { cbn [orb wp sextets]. rewrite Hpad, app_nil_r. by apply finish_bytes. }
  cbn [orb]. destruct (Z.eqb_spec c 0x20) as [->|_].
  { destruct ext; [done|]. cbn [wp]. change (sextets false (0x20 :: src)) with (@nil Z). rewrite app_nil_r. by apply finish_bytes. }
  fold (urlAlphabet c). cbn [sextets]. rewrite Hpad.
  set (c' := if ext then urlAlphabet c else c).
  assert (is_byte c' ∧ c' =? 0x3d = false) as [Hc' Hpad'].
  { subst c'. destruct ext; [|done]. split; [by apply urlAlphabet_byte|by apply urlAlphabet_pad]. }
  rewrite decodedChar_eq, Hpad' by done. cbn [mbind run_bind]. destruct (decodeMap c') as [v|] eqn:Ev; cbn [default from_option]; unfold id.
  - apply decodeMap_sextet in Ev. destruct (Z.eqb_spec v 127); [unfold sextet in Ev; lia|].
    assert (Forall sextet (p ++ [v])) as Hpv by (apply Forall_app; split; [done|by constructor]).
    rewrite pendingValue_snoc by done. destruct (Z.eqb_spec (Z.of_nat (length p) + 1) 4) as [H4|H4].
    + match goal with |- wp (base64Loop _ _ 0 0 ?d') _ =>
        pose proof (IH [] d' Hs ltac:(constructor) ltac:(cbn; lia)) as IH' end.
      eapply wp_mono; [exact IH'|]. intros [[n' x] d] ->. cbn [app].
      pose proof (group_bytes p v (sextets ext src) Hpv ltac:(lia)) as Hg. cbn zeta in Hg.
      rewrite <- (app_assoc p [v]) in Hg. cbn [app] in Hg. rewrite Hg. by rewrite <- app_assoc.
    + replace (Z.of_nat (length p) + 1) with (Z.of_nat (length (p ++ [v]))) by (rewrite length_app; cbn; lia).
      eapply wp_mono; [apply IH; [done|done|rewrite length_app; cbn; lia]|]. intros [[n' x] d] ->. by rewrite <- app_assoc.
  - rewrite Z.eqb_refl. destruct ext; [by apply IH|]. rewrite Hn. cbn [orb wp]. rewrite app_nil_r. by apply finish_bytes.
Qed.

Lemma base64Slow_eq src ext : wf_bytes src → base64Slow src ext = Done (sextetBytes (sextets ext src)).
Proof.
  intros Hs. pose proof (base64Loop_ok ext src [] [] Hs ltac:(constructor) ltac:(cbn; lia)) as H.
  apply wp_elim in H as ([[n x] d] & E & H). unfold base64Slow. change (base64Loop ext src 0 0 [] = Done (n, x, d)) in E.
  rewrite E. cbn [mbind run_bind]. cbn [app] in H. by rewrite <- H.
Qed.

(** ** The library's decoder *)

Lemma quantumValue a b c d :
  sextet a → sextet b → sextet c → sextet d →
  Z.lor (Z.lor (Z.lor (Z.shiftl a 18) (Z.shiftl b 12)) (Z.shiftl c 6)) d = a * 2 ^ 18 + b * 2 ^ 12 + c * 2 ^ 6 + d.
Proof.
  unfold sextet. intros Ha Hb Hc Hd. rewrite <- !Z.lor_assoc, (lor_shiftl c d 6) by lia.
  rewrite (lor_shiftl b (c * 2 ^ 6 + d) 12), lor_shiftl by lia. lia.
Qed.

Lemma quantumBytes_eq dbuf :
  Forall sextet dbuf → (2 ≤ length dbuf ≤ 4)%nat → quantumBytes dbuf = sextetBytes dbuf.
Proof.
  intros Hd Hl. assert (∀ k, sextet (default 0 (dbuf !! k))) as Hk.
  { intros k. destruct (dbuf !! k) as [v|] eqn:E; [|done]. by eapply Forall_lookup_1 in Hd. }
  unfold quantumBytes. rewrite quantumValue by done.
  destruct dbuf as [|a [|b [|c [|d [|e p]]]]]; cbn [length] in *; try lia; decompose_Forall;
    cbn [Nat.sub take sextetBytes lookup list_lookup default from_option app]; sextet_arith.
Qed.

Lemma sextetBytes_group g l :
  Forall sextet g → (length g = 4)%nat → sextetBytes (g ++ l) = sextetBytes g ++ sextetBytes l.
Proof. intros Hg Hl. destruct g as [|a [|b [|c [|d [|e p]]]]]; try discriminate Hl. reflexivity. Qed.

Lemma Decode_ok padding src : ∀ dbuf dst out,
  Forall sextet dbuf → (length dbuf < 4)%nat → Decode padding dbuf src dst = Some out →
  out = dst ++ sextetBytes (dbuf ++ sextets false src).
Proof.
  induction src as [|c src IH]; intros dbuf dst out Hd Hl H; cbn [Decode sextets] in H |- *.
  - rewrite app_nil_r. destruct (length dbuf) as [|[|n]] eqn:El; [|done|].
    + destruct dbuf; [|done]. injection H as <-. by rewrite app_nil_r.
    + destruct padding; [done|]. injection H as <-. rewrite quantumBytes_eq by (done || lia). done.
  - destruct (decodeMap c) as [v|] eqn:Ev.
    + assert (c =? 0x3d = false) as ->. { apply Z.eqb_neq. intros ->. by rewrite decodeMap_pad in Ev. }
      apply decodeMap_sextet in Ev. assert (Forall sextet (dbuf ++ [v])) as Hv by (apply Forall_app; split; [done|by constructor]).
      change (v :: sextets false src) with ([v] ++ sextets false src). rewrite app_assoc.
      assert (length (dbuf ++ [v]) = S (length dbuf)) as Hlen by (rewrite length_app; cbn; lia).
      destruct (Nat.eqb_spec (length (dbuf ++ [v])) 4) as [E4|E4]; rewrite Hlen in E4.
      * apply IH in H; [|constructor|cbn; lia]. subst out. rewrite (sextetBytes_group (dbuf ++ [v])) by (done || lia).
        rewrite quantumBytes_eq by (done || lia). by rewrite <- app_assoc.
      * apply IH in H; [done|done|]. rewrite Hlen. lia.
    + destruct (newline c) eqn:En.
      { destruct (newline_decodeMap c En) as [_ ->]. cbn [orb]. by apply IH. }
      assert (out = dst ++ quantumBytes dbuf ∧ (2 ≤ length dbuf)%nat) as [-> H2].
      { destruct (negb _); [done|]. destruct (length dbuf) as [|[|[|[|n]]]]; try done.
        - destruct (skipNewlines src) as [|c' rest]; [done|]. destruct (negb _); [done|].
          destruct (skipNewlines rest); [|done]. split; [congruence|lia].
        - destruct (skipNewlines src); [|done]. split; [congruence|lia]. }
      rewrite quantumBytes_eq by (done || lia). destruct (c =? 0x3d); cbn [orb]; by rewrite app_nil_r.
Qed.

Lemma beginsBase64Encoding_total src : wf_bytes src → ∃ b, beginsBase64Encoding src = Done b.
Proof.
  induction src as [|c src IH]; intros Hs; [by eexists|]. apply Forall_cons in Hs as [Hc Hs]. cbn [beginsBase64Encoding].
  destruct (newline c); [by apply IH|]. destruct (Z.ltb_spec c 128); [|by eexists]. cbn [and_then].
  pose proof (decodedChar_eq c Hc) as E. destruct (Z.leb_spec c 127); [|lia]. rewrite E. by eexists.
Qed.

Lemma fastPathLoop_total src : ∀ seen, wf_bytes src → ∃ b, fastPathLoop src seen = Done b.
Proof.
  induction src as [|c src IH]; intros seen Hs; [by eexists|]. apply Forall_cons in Hs as [Hc Hs]. cbn [fastPathLoop].
  destruct (newline c); [by apply IH|]. rewrite Z.geb_leb. destruct (Z.leb_spec 128 c); [by eexists|].
  pose proof (decodedChar_eq c Hc) as E. destruct (Z.leb_spec c 127); [|lia]. rewrite E. cbn [mbind run_bind].
  destruct (_ || _); [by eexists|by apply IH].
Qed.

Lemma fastPath_total src : wf_bytes src → ∃ b, fastPath src = Done b.
Proof.
  intros Hs. unfold fastPath. destruct (beginsBase64Encoding_total src Hs) as ([] & ->); [|by eexists].
  cbn [mbind run_bind and_then]. apply fastPathLoop_total. by apply Forall_take.
Qed.

Lemma doBase64decode_eq src ext : wf_bytes src → doBase64decode src ext = base64Slow src ext.
Proof.
  intros Hs. unfold doBase64decode. destruct (Nat.eqb_spec (length src) 0); [by destruct src|].
  destruct ext; [done|]. destruct (fastPath_total src Hs) as ([] & ->); cbn [mbind run_bind]; [|done].
  destruct (Decode _ _ _ _) as [out|] eqn:E; [|done]. apply Decode_ok in E; [|constructor|cbn; lia].
  rewrite base64Slow_eq by done. by rewrite E.
Qed.

Lemma base64decode_eq data : wf_bytes data → base64decode data = Done (sextetBytes (sextets false data), true, None).
Proof. intros Hd. unfold base64decode. by rewrite doBase64decode_eq, base64Slow_eq. Qed.

Lemma base64decodeext_eq data : wf_bytes data → base64decodeext data = Done (sextetBytes (sextets true data), true, None).
Proof. intros Hd. unfold base64decodeext. by rewrite doBase64decode_eq, base64Slow_eq. Qed.

(** The fast path of the strict Base64 decoder is only faster.  On every
    byte string, whether it takes the path through encoding/base64 or not,
    base64Decode returns the bytes of the values of the longest prefix over the
    Base64 alphabet, newlines skipped, that its own loop computes. *)
Theorem base64decode_fast src :
  wf_bytes src → doBase64decode src false = base64Slow src false ∧
  base64decode src = Done (sextetBytes (sextets false src), true, None).
Proof. intros Hs. split; [by apply doBase64decode_eq|by apply base64decode_eq]. Qed.

Lemma base64decode_fast_witness :
  fastPath (str "QUJDRA=") = Done true ∧ Decode true [] (str "QUJDRA=") [] = None ∧
  base64decode (str "QUJDRA=") = Done (str "ABCD", true, None).
Proof.
  split; [reflexivity|]. split; [reflexivity|].
  refine (eq_trans (proj2 (base64decode_fast (str "QUJDRA=") _)) _); [by apply wf_bytesb_true|reflexivity].
Defined.

(** ** The encoder *)

Lemma encodeStd_digit v : sextet v →
  let c := encodeStd !!! Z.to_nat v in
  decodeMap c = Some v ∧ urlAlphabet c = c ∧ c =? 0x3d = false ∧ is_byte c.
Proof.
  intros Hv. set (P v := let c := encodeStd !!! Z.to_nat v in
    bool_decide (decodeMap c = Some v ∧ urlAlphabet c = c ∧ c =? 0x3d = false ∧ 0 ≤ c < 256)).
  assert (forallb P (seqZ 0 64) = true) as HP by (vm_compute; reflexivity).
  rewrite forallb_forall in HP. specialize (HP v). apply bool_decide_eq_true_1 in HP; [done|].
  apply list_elem_of_In, elem_of_seqZ. unfold sextet in Hv. lia.
Qed.

Lemma sextets_digit ext v src : sextet v → sextets ext ((encodeStd !!! Z.to_nat v) :: src) = v :: sextets ext src.
Proof.
  intros Hv. destruct (encodeStd_digit v Hv) as (H1 & H2 & H3 & _). cbn [sextets]. rewrite H3.
  destruct ext; rewrite ?H2, H1; done.
Qed.

Lemma encodeDigit_sextet val s : 0 <= s → encodeDigit val s = encodeStd !!! Z.to_nat (val / 2 ^ s mod 64).
Proof.
  intros Hs. unfold encodeDigit. change 0x3f with (Z.ones 6). by rewrite Z.land_ones, Z.shiftr_div_pow2 by lia.
Qed.

Lemma mod_sextet x : sextet (x mod 64).
Proof. unfold sextet. dlia. Qed.

(** Induction by groups of three. *)
Fixpoint bytes_ind3 (P : bytes → Prop) (H0 : P []) (H1 : ∀ a, P [a]) (H2 : ∀ a b, P [a; b])
    (H3 : ∀ a b c l, P l → P (a :: b :: c :: l)) (l : bytes) : P l :=
  match l with
  | [] => H0
  | [a] => H1 a
  | [a; b] => H2 a b
  | a :: b :: c :: l => H3 a b c l (bytes_ind3 P H0 H1 H2 H3 l)
  end.

Lemma EncodeToString_wf l : wf_bytes (EncodeToString l).
Proof.
  assert (∀ v s, 0 <= s → is_byte (encodeDigit v s)) as Hd.
  { intros v s Hs. rewrite encodeDigit_sextet by done. apply encodeStd_digit, mod_sextet. }
  induction l using bytes_ind3; cbn [EncodeToString app]; repeat (apply Forall_cons; split); try done; by apply Hd.
Qed.

(** The four values of three bytes. *)
Lemma group_digits a b c :
  is_byte a → is_byte b → is_byte c → let val := a * 2 ^ 16 + (b * 2 ^ 8 + c) in
  val / 2 ^ 18 mod 64 = a / 4 ∧ val / 2 ^ 12 mod 64 = a mod 4 * 16 + b / 16 ∧
  val / 2 ^ 6 mod 64 = b mod 16 * 4 + c / 64 ∧ val / 2 ^ 0 mod 64 = c mod 64.
Proof. unfold is_byte. intros Ha Hb Hc. cbn zeta. repeat split; dlia. Qed.

Lemma sextet_group a b c :
  is_byte a → is_byte b → is_byte c →
  a / 4 * 4 + (a mod 4 * 16 + b / 16) / 16 = a ∧
  (a mod 4 * 16 + b / 16) mod 16 * 16 + (b mod 16 * 4 + c / 64) / 4 = b ∧
  (b mod 16 * 4 + c / 64) mod 4 * 64 + c mod 64 = c.
Proof. unfold is_byte. intros Ha Hb Hc. repeat split; dlia. Qed.

(** The digits of a group, decoded. *)
Lemma sextets_group ext a b c n rest :
  is_byte a → is_byte b → is_byte c → let val := a * 2 ^ 16 + (b * 2 ^ 8 + c) in
  sextets ext (take n [encodeDigit val 18; encodeDigit val 12; encodeDigit val 6; encodeDigit val 0] ++ rest) =
  take n [a / 4; a mod 4 * 16 + b / 16; b mod 16 * 4 + c / 64; c mod 64] ++ sextets ext rest.
Proof.
  intros Ha Hb Hc. cbn zeta. destruct (group_digits a b c Ha Hb Hc) as (H1 & H2 & H3 & H4). cbn zeta in *.
  rewrite !encodeDigit_sextet by lia. rewrite <- H1, <- H2, <- H3, <- H4.
  destruct n as [|[|[|[|n]]]]; cbn [take app]; rewrite ?take_nil; cbn [app]; rewrite ?sextets_digit by apply mod_sextet; done.
Qed.

Lemma sextets_EncodeToString ext l : wf_bytes l → sextetBytes (sextets ext (EncodeToString l)) = l.
Proof.
  assert (is_byte 0) as H0 by done.
  induction l as [|a|a b|a b c l IH] using bytes_ind3; intros Hl; [done|..]; cbn [EncodeToString].
  - apply Forall_cons in Hl as [Ha _]. rewrite Z.shiftl_mul_pow2 by lia.
    replace (a * 2 ^ 16) with (a * 2 ^ 16 + (0 * 2 ^ 8 + 0)) by lia.
    refine (eq_trans (f_equal sextetBytes (sextets_group ext a 0 0 2 [0x3d; 0x3d] Ha H0 H0)) _).
    cbn [take app sextets Z.eqb Pos.eqb sextetBytes]. by destruct (sextet_group a 0 0 Ha H0 H0) as (-> & _).
  - apply Forall_cons in Hl as [Ha [Hb _]%Forall_cons]. unfold is_byte in *.
    rewrite (Z.shiftl_mul_pow2 b 8), lor_shiftl by lia.
    replace (b * 2 ^ 8) with (b * 2 ^ 8 + 0) by lia.
    refine (eq_trans (f_equal sextetBytes (sextets_group ext a b 0 3 [0x3d] Ha Hb H0)) _).
    cbn [take app sextets Z.eqb Pos.eqb sextetBytes]. by destruct (sextet_group a b 0 Ha Hb H0) as (-> & -> & _).
  - apply Forall_cons in Hl as [Ha [Hb [Hc Hl]%Forall_cons]%Forall_cons]. unfold is_byte in *.
    rewrite <- Z.lor_assoc, (lor_shiftl b c 8), lor_shiftl by lia.
    refine (eq_trans (f_equal sextetBytes (sextets_group ext a b c 4 (EncodeToString l) Ha Hb Hc)) _).
    cbn [take app sextetBytes]. destruct (sextet_group a b c Ha Hb Hc) as (-> & -> & ->). by rewrite IH.
Qed.

(** Base64 round trip.  Both base64Decode and base64DecodeExt return the
    bytes that base64Encode encoded. *)
Theorem base64_roundtrip data :
  wf_bytes data → wp (base64encode data) (λ '(out, _, _),
    base64decode out = Done (data, true, None) ∧ base64decodeext out = Done (data, true, None)).
Proof.
  intros Hd. cbn. pose proof (EncodeToString_wf data). rewrite base64decode_eq, base64decodeext_eq by done.
  by rewrite !sextets_EncodeToString.
Qed.

Lemma base64_roundtrip_witness :
  wp (base64encode (str "ab?>")) (λ '(out, _, _), base64decode out = Done (str "ab?>", true, None)).
Proof.
  assert (wf_bytes (str "ab?>")) as Hw by (by apply wf_bytesb_true).
  eapply wp_mono; [exact (base64_roundtrip (str "ab?>") Hw)|]. intros [[out changed] err] [H _]. exact H.
Defined.

Lemma sextets_sextet ext src : Forall sextet (sextets ext src).
Proof.
  induction src as [|c src IH]; cbn [sextets]; [constructor|]. destruct (c =? 0x3d); [constructor|].
  destruct (decodeMap _) as [v|] eqn:E; [constructor; [by eapply decodeMap_sextet|done]|]. destruct (_ || _); [done|constructor].
Qed.

(** Induction by groups of four. *)
Fixpoint sextets_ind4 (P : list Z → Prop) (H0 : P []) (H1 : ∀ a, P [a]) (H2 : ∀ a b, P [a; b]) (H3 : ∀ a b c, P [a; b; c])
    (H4 : ∀ a b c d l, P l → P (a :: b :: c :: d :: l)) (l : list Z) : P l :=
  match l with
  | [] => H0
  | [a] => H1 a
  | [a; b] => H2 a b
  | [a; b; c] => H3 a b c
  | a :: b :: c :: d :: l => H4 a b c d l (sextets_ind4 P H0 H1 H2 H3 H4 l)
  end.

Lemma sextetBytes_wf l : Forall sextet l → wf_bytes (sextetBytes l).
Proof.
  assert (∀ a b, sextet a → sextet b → is_byte (a * 4 + b / 16)) as Hx by (unfold sextet, is_byte; intros; dlia).
  assert (∀ b c, sextet b → sextet c → is_byte (b mod 16 * 16 + c / 4)) as Hy by (unfold sextet, is_byte; intros; dlia).
  assert (∀ c d, sextet c → sextet d → is_byte (c mod 4 * 64 + d)) as Hz by (unfold sextet, is_byte; intros; dlia).
  induction l as [|a|a b|a b c|a b c d l IH] using sextets_ind4; intros Hl; decompose_Forall; cbn [sextetBytes app];
    repeat (apply Forall_cons; split); try done; auto.
Qed.

Lemma base64decode_honest : honest base64decode.
Proof. intros data Hd. rewrite base64decode_eq by done. split; [apply sextetBytes_wf, sextets_sextet|done]. Qed.

Lemma base64decodeext_honest : honest base64decodeext.
Proof. intros data Hd. rewrite base64decodeext_eq by done. split; [apply sextetBytes_wf, sextets_sextet|done]. Qed.

Lemma base64encode_honest : honest base64encode.
Proof. intros data Hd. split; [apply EncodeToString_wf|done]. Qed.
