(* ===== verification/PathTransform.v ===== *)
(** The transformations of paths: src/internal/transformations/normalise_path.go
    and normalise_path_win.go, with [path.Clean] of the standard library.

    [Clean] is modelled as its loop over the bytes of the path.  The theorems
    show that it computes the path of the components that remain when "."
    and empty components are dropped and ".." removes the component before it,
    and describe what normalisePath and normalisePathWin return. *)

From S2P Require Import Prelude GoLib StringUtil UrlTransform TextTransform.

Definition slash : Z := 0x2f.
Definition dot : bytes := [0x2e].
Definition dotdot : bytes := [0x2e; 0x2e].

(** ** path.Clean *)

(** The scan back to the separator before the last element: [out.w] after it. *)
Fixpoint backtrack (out : bytes) (dd w : nat) : nat :=
  match w with
  | O => O
  | S w' => if (dd <? w)%nat && negb (out !!! w =? slash) then backtrack out dd w' else w
  end.

(** [r == n || path[r] == '/'] *)
Definition ended (rest : bytes) : bool := match rest with [] => true | c :: _ => c =? slash end.

(** A real path element: it ends at the next slash. *)
Fixpoint element (rest : bytes) : bytes * bytes :=
  match rest with
  | [] => ([], [])
  | c :: r => if c =? slash then ([], rest) else let '(x, r) := element r in (c :: x, r)
  end.

(** One iteration: what is left of the path, the output and [dotdot]. *)
Definition cleanStep (rooted : bool) (st : bytes * bytes * nat) : bytes * bytes * nat :=
  let '(rest, out, dd) := st in
  let real :=
    let slashed := if rooted then negb (length out =? 1)%nat else negb (length out =? 0)%nat in
    let '(x, r) := element rest in
    (r, out ++ (if slashed then [slash] else []) ++ x, dd) in
  match rest with
  | [] => st
  | c :: r1 =>
      if c =? slash then (r1, out, dd)
      else if (c =? 0x2e) && ended r1 then (r1, out, dd)
      else match r1 with
      | c2 :: r2 =>
          if (c =? 0x2e) && (c2 =? 0x2e) && ended r2 then
            if (dd <? length out)%nat then (r2, take (backtrack out dd (length out - 1)) out, dd)
            else if negb rooted then
              let out := out ++ (if (0 <? length out)%nat then [slash] else []) ++ dotdot in
              (r2, out, length out)
            else (r2, out, dd)
          else real
      | [] => real
      end
  end.

(** Every iteration consumes a byte of the path. *)
Fixpoint cleanLoop (fuel : nat) (rooted : bool) (st : bytes * bytes * nat) : run bytes :=
  match fuel, st.1.1 with
  | _, [] => Done st.1.2
  | O, _ => OutOfFuel
  | S fuel, _ => cleanLoop fuel rooted (cleanStep rooted st)
  end.

Definition Clean (path : bytes) : run bytes :=
  match path with
  | [] => Done dot
  | c :: r =>
      out ← (if c =? slash then cleanLoop (length r) true (r, [slash], 1%nat)
             else cleanLoop (length path) false (path, [], 0%nat));
      Done (if (length out =? 0)%nat then dot else out)
  end.

(** ** normalisePath *)

Definition normalisePath : transformation := λ data,
  let leng := length data in
  if (leng <? 1)%nat then Done (data, false, None) else
  clean ← Clean data;
  if clean =s dot then Done ([], true, None) else
  last ← index data (length data - 1);
  if last =? slash then
    let result := clean ++ [slash] in Done (result, negb (data =s result), None)
  else Done (clean, negb (data =s clean), None).

(** ** normalisePathWin *)

Definition isASCIILetter (b : Z) : bool := ((b >=? 0x61) && (b <=? 0x7a)) || ((b >=? 0x41) && (b <=? 0x5a)).

Definition isAllDots (s : bytes) : bool := forallb (Z.eqb 0x2e) s.

(** The two loops over the components of a path: [body] is run at every slash
    and at the end, with the bytes since the last one. *)
Definition eachComponent {St} (body : St → bytes → run St) (data : bytes) (st : St) : run St :=
  '(st, _) ← foldM (λ '(st, start) i,
    skip ← negb (i =? length data)%nat &&? (c ← index data i; Done (negb (c =? slash)));
    if (skip : bool) then Done (st, start) else
    seg ← slice data start i;
    st ← body st seg;
    Done (st, S i)) (seq 0 (S (length data))) (st, 0%nat);
  Done st.

(** The state is whether the loop has returned. *)
Definition hasTrimmableComponent (data : bytes) : run bool :=
  eachComponent (λ (found : bool) seg,
    if found then Done true
    else if negb (isAllDots seg) then
      last ← index seg (length seg - 1); Done ((last =? 0x2e) || (last =? 0x20))
    else Done false) data false.

(** [buf] and [wroteAny]. *)
Definition stripWindowsTrailingDotsAndSpaces (data : bytes) : run bytes :=
  trimmable ← hasTrimmableComponent data;
  if negb trimmable then Done data else
  '(buf, _) ← eachComponent (λ '(buf, wroteAny) seg,
    let write seg := Done (buf ++ (if wroteAny : bool then [slash] else []) ++ seg, true) in
    if negb (isAllDots seg) then
      let trimmed := TrimRight seg [0x2e; 0x20] in
      if trimmed =s [] then Done (buf, wroteAny) else write trimmed
    else write seg) data ([], false);
  Done buf.

(** The first colon of the final component ends it. *)
Definition stripStream (data : bytes) : bytes :=
  match LastIndexByte data slash with
  | Some idx =>
      match IndexByte (drop (idx + 1) data) 0x3a with
      | Some colon => take (idx + 1 + colon) data
      | None => data
      end
  | None =>
      match IndexByte data 0x3a with
      | Some colon => take colon data
      | None => data
      end
  end.

Definition stripWindowsADS (data : bytes) : bytes :=
  let '(prefix, data) :=
    match data with
    | c0 :: c1 :: rest => if (c1 =? 0x3a) && isASCIILetter c0 then ([c0; c1], rest) else ([], data)
    | _ => ([], data)
    end in
  let '(trailingSlash, data) :=
    match last data with
    | Some c => if c =? slash then ([slash], take (length data - 1) data) else ([], data)
    | None => ([], data)
    end in
  prefix ++ stripStream data ++ trailingSlash.

Definition normalisePathWin : transformation := λ data,
  if (length data <? 1)%nat then Done (data, false, None) else
  let original := data in
  '(clean, _, err) ← normalisePath (ReplaceByte data 0x5c [slash]);
  match err with
  | Some e => Done (clean, false, Some e)
  | None =>
      stripped ← stripWindowsTrailingDotsAndSpaces (stripWindowsADS clean);
      Done (stripped, negb (original =s stripped), None)
  end.

(** ** Clean by components *)

(** The path of a list of components. *)
Definition render (rooted : bool) (l : list bytes) : bytes := (if rooted then [slash] else []) ++ Join l slash.

(** A component, after those in [stack]. *)
Definition cleanComponent (rooted : bool) (stack : list bytes) (x : bytes) : list bytes :=
  if (x =s []) || (x =s dot) then stack
  else if x =s dotdot then
    match last stack with
    | None => if rooted then stack else [dotdot]
    | Some y => if y =s dotdot then stack ++ [dotdot] else take (length stack - 1) stack
    end
  else stack ++ [x].

Definition cleaned (rooted : bool) (path : bytes) : list bytes :=
  foldl (cleanComponent rooted) [] (Split path slash).

(** A name: neither empty, nor "." nor "..", and without a slash. *)
Definition name (x : bytes) : Prop := x ≠ [] ∧ x ≠ dot ∧ x ≠ dotdot ∧ Forall (λ c, c ≠ slash) x.

(** The components of a clean path: names, after a run of ".." that a rooted
    path does not have. *)
Definition normal (rooted : bool) (l : list bytes) : Prop :=
  ∃ k names, l = replicate k dotdot ++ names ∧ Forall name names ∧ (rooted = true → k = 0%nat).

(** What the loop keeps of the components that it has read. *)
Definition state_of (rooted : bool) (l : list bytes) (out : bytes) (dd : nat) : Prop :=
  ∃ k names, l = replicate k dotdot ++ names ∧ Forall name names ∧ (rooted = true → k = 0%nat) ∧
    out = render rooted l ∧ dd = length (render rooted (replicate k dotdot)).

Lemma render_snoc rooted l x :
  render rooted (l ++ [x]) = render rooted l ++ (if (length l =? 0)%nat then [] else [slash]) ++ x.
Proof.
  unfold render. destruct (Nat.eqb_spec (length l) 0) as [E|E].
  - destruct l; [|done]. by rewrite !app_nil_r.
  - rewrite Join_snoc by (by intros ->). by rewrite <- app_assoc.
Qed.

Lemma render_prefix rooted l1 l2 : (length (render rooted l1) ≤ length (render rooted (l1 ++ l2)))%nat.
Proof.
  induction l2 as [|x l2 IH] using rev_ind; [by rewrite app_nil_r|].
  rewrite app_assoc, render_snoc. rewrite !length_app. lia.
Qed.

Lemma render_lt rooted l x : x ≠ [] → (length (render rooted l) < length (render rooted (l ++ [x])))%nat.
Proof. intros Hx. rewrite render_snoc, !length_app. destruct x; [done|]. cbn. lia. Qed.

Lemma render_length rooted l :
  Forall (λ x, x ≠ []) l →
  (length (render rooted l) =? (if rooted then 1 else 0))%nat = (length l =? 0)%nat.
Proof.
  intros Hl. destruct l as [|x l]; [by destruct rooted|]. cbn [length Nat.eqb]. apply Nat.eqb_neq.
  apply Forall_cons in Hl as [Hx _]. pose proof (render_lt rooted [] x Hx) as H1. pose proof (render_prefix rooted [x] l) as H2.
  cbn [app] in *. destruct rooted; cbn in H1 |- *; cbn in H2; lia.
Qed.

(** The scan stops where the last element began. *)
Lemma backtrack_to out dd p w :
  (p ≤ w)%nat → (dd ≤ p)%nat → (∀ i, p < i ≤ w → out !!! i ≠ slash)%nat → (p = dd ∨ out !!! p = slash) →
  backtrack out dd w = p.
Proof.
  intros Hpw Hdd Hno Hp. induction w as [|w IH]; [cbn; lia|]. cbn [backtrack].
  destruct (decide (p = S w)) as [->|].
  - destruct Hp as [->|Hp].
    + by rewrite Nat.ltb_irrefl.
    + rewrite Hp, Z.eqb_refl. by rewrite andb_false_r.
  - rewrite (proj2 (Nat.ltb_lt dd (S w))) by lia. pose proof (Hno (S w) ltac:(lia)) as Hx.
    apply Z.eqb_neq in Hx. rewrite Hx. cbn [negb andb]. apply IH; [lia|]. intros i Hi. apply Hno. lia.
Qed.

Lemma backtrack_render rooted k names x :
  name x → let l := replicate k dotdot ++ names in let out := render rooted (l ++ [x]) in
  take (backtrack out (length (render rooted (replicate k dotdot))) (length out - 1)) out = render rooted l.
Proof.
  intros (Hx & _ & _ & Hs). cbn zeta. set (l := replicate k dotdot ++ names). rewrite render_snoc.
  set (sep := if (length l =? 0)%nat then [] else [slash]).
  assert (1 ≤ length x)%nat as Hlx by (destruct x; [done|cbn; lia]).
  rewrite (backtrack_to _ _ (length (render rooted l))); [by rewrite take_app_length|..].
  - rewrite !length_app. lia.
  - apply render_prefix.
  - intros i Hi. rewrite !length_app in Hi. rewrite lookup_total_app_r by lia.
    assert (length sep ≤ 1)%nat by (subst sep; by destruct (_ =? _)%nat; cbn; lia).
    rewrite lookup_total_app_r by lia.
    refine (Forall_lookup_1 (λ c, c ≠ slash) x _ _ Hs (list_lookup_lookup_total_lt _ _ _)). lia.
  - destruct (Nat.eqb_spec (length l) 0) as [E|E].
    + left. destruct l as [|y l'] eqn:El; [|done]. apply app_eq_nil in El as [Hk _]. by rewrite Hk.
    + right. subst sep. destruct (Nat.eqb_spec (length l) 0); [done|].
      rewrite lookup_total_app_r by lia. by rewrite Nat.sub_diag.
Qed.

Lemma ended_spec rest : ended rest = true ↔ rest = [] ∨ ∃ r, rest = slash :: r.
Proof.
  destruct rest as [|c r]; cbn; [by split; [left|]|]. rewrite Z.eqb_eq. split.
  - intros ->. right. by exists r.
  - by intros [|[r' [= -> ->]]].
Qed.

Lemma element_spec rest x r :
  element rest = (x, r) → rest = x ++ r ∧ Forall (λ c, c ≠ slash) x ∧ ended r = true.
Proof.
  revert x r. induction rest as [|c rest IH]; intros x r; cbn; [by intros [= <- <-]|].
  destruct (Z.eqb_spec c slash) as [->|Hc]; [by intros [= <- <-]|].
  destruct (element rest) as [x' r']. destruct (IH x' r' eq_refl) as (-> & Hx & Hr). intros [= <- <-].
  split; [done|]. split; [by constructor|done].
Qed.

(** Reading a component. *)
Lemma fold_component rooted stack x r :
  Forall (λ c, c ≠ slash) x → ended r = true →
  foldl (cleanComponent rooted) stack (Split (x ++ r) slash) =
  foldl (cleanComponent rooted) (cleanComponent rooted stack x) (Split r slash).
Proof.
  intros Hx [->|[r' ->]]%ended_spec.
  - by rewrite app_nil_r, Split_none.
  - rewrite Split_app by done. change (Split (slash :: r') slash) with ([] :: Split r' slash). done.
Qed.

Lemma name_nonempty names : Forall name names → Forall (λ x, x ≠ []) names.
Proof. intros H. eapply Forall_impl; [exact H|]. by intros x (? & _). Qed.

Lemma state_nonempty k names : Forall name names → Forall (λ x, x ≠ []) (replicate k dotdot ++ names).
Proof. intros H. apply Forall_app. split; [by apply Forall_replicate|by apply name_nonempty]. Qed.

(** One component read by the loop, by the kind of the component. *)
Lemma state_name rooted l out dd x :
  state_of rooted l out dd → name x →
  state_of rooted (cleanComponent rooted l x)
    (out ++ (if if rooted then negb (length out =? 1)%nat else negb (length out =? 0)%nat then [slash] else []) ++ x) dd.
Proof.
  intros (k & names & -> & Hn & Hk & -> & ->) Hx. pose proof Hx as (Hx1 & Hx2 & Hx3 & _).
  unfold cleanComponent. apply bytes_eqb_neq in Hx1, Hx2, Hx3. rewrite Hx1, Hx2, Hx3. cbn [orb].
  exists k, (names ++ [x]). rewrite app_assoc. split; [done|]. split; [apply Forall_app; split; [done|by constructor]|].
  split; [done|]. split; [|done]. rewrite render_snoc. f_equal. f_equal.
  pose proof (render_length rooted _ (state_nonempty k names Hn)) as Hl.
  destruct rooted; rewrite Hl; by destruct (length (replicate k dotdot ++ names)).
Qed.

Lemma state_dotdot rooted l out dd :
  state_of rooted l out dd →
  let l' := cleanComponent rooted l dotdot in
  if (dd <? length out)%nat then state_of rooted l' (take (backtrack out dd (length out - 1)) out) dd
  else if rooted then state_of rooted l' out dd
  else let out' := out ++ (if (0 <? length out)%nat then [slash] else []) ++ dotdot in state_of rooted l' out' (length out').
Proof.
  intros (k & names & -> & Hn & Hk & -> & ->). cbn zeta. unfold cleanComponent.
  change ((dotdot =s []) || (dotdot =s dot)) with false. change (dotdot =s dotdot) with true. cbn iota.
  destruct names as [|x names _] using rev_ind.
  - rewrite app_nil_r, Nat.ltb_irrefl. destruct rooted.
    + rewrite Hk by done. exists 0%nat, []. done.
    + pose proof (render_length false _ (state_nonempty k [] ltac:(constructor))) as Hl. rewrite app_nil_r in Hl.
      assert (replicate k dotdot ++ [dotdot] = replicate (S k) dotdot) as Hs by (by rewrite replicate_S_end).
      assert (render false (replicate k dotdot) ++ (if (0 <? length (render false (replicate k dotdot)))%nat then [slash] else []) ++ dotdot
        = render false (replicate (S k) dotdot)) as ->.
      { rewrite <- Hs, render_snoc. f_equal. f_equal. rewrite <- Hl. by destruct (length (render false _)). }
      assert (last (replicate k dotdot) = if (k =? 0)%nat then None else Some dotdot) as ->.
      { destruct k; [done|]. by rewrite replicate_S_end, last_snoc. }
      exists (S k), []. rewrite !app_nil_r. destruct k as [|k]; [done|]. cbn [Nat.eqb]. change (dotdot =s dotdot) with true.
      cbn iota. by rewrite Hs.
  - apply Forall_app in Hn as [Hn [Hx _]%Forall_cons].
    rewrite app_assoc in *. rewrite last_snoc. destruct Hx as (Hx1 & Hx2 & Hx3 & Hx4).
    assert (x =s dotdot = false) as -> by (by apply bytes_eqb_neq).
    rewrite (proj2 (Nat.ltb_lt _ _)).
    + exists k, names. rewrite length_app, Nat.add_sub, take_app_length. split; [done|]. split; [done|]. split; [done|].
      split; [|done]. by apply backtrack_render.
    + eapply Nat.le_lt_trans; [apply (render_prefix rooted _ names)|]. by apply render_lt.
Qed.

Lemma cleanComponent_skip rooted l x : x = [] ∨ x = dot → cleanComponent rooted l x = l.
Proof. by intros [-> | ->]. Qed.

(** A step reads at most one component. *)
Definition stepped (rooted : bool) (l : list bytes) (rest : bytes) (st : bytes * bytes * nat) : Prop :=
  let '(rest', out', dd') := st in
  (length rest' < length rest)%nat ∧ ∃ l', state_of rooted l' out' dd' ∧
    foldl (cleanComponent rooted) l (Split rest slash) = foldl (cleanComponent rooted) l' (Split rest' slash).

Lemma stepped_component rooted l x r out dd :
  Forall (λ c, c ≠ slash) x → x ≠ [] → ended r = true → state_of rooted (cleanComponent rooted l x) out dd →
  stepped rooted l (x ++ r) (r, out, dd).
Proof.
  intros Hx Hx0 Hr Hst. split; [rewrite length_app; destruct x; [done|cbn; lia]|].
  exists (cleanComponent rooted l x). split; [done|]. by apply fold_component.
Qed.

Lemma stepped_element rooted l rest out dd :
  rest ≠ [] → ended rest = false → state_of rooted l out dd → (∀ r, ended r = true → rest ≠ dot ++ r) →
  (∀ r, ended r = true → rest ≠ dotdot ++ r) →
  let '(x, r) := element rest in
  stepped rooted l rest
    (r, out ++ (if if rooted then negb (length out =? 1)%nat else negb (length out =? 0)%nat then [slash] else []) ++ x, dd).
Proof.
  intros H0 Hs Hst Hd1 Hd2. destruct (element rest) as [x r] eqn:E. apply element_spec in E as (-> & Hx & Hr).
  assert (x ≠ []) as Hx0 by (intros ->; cbn [app] in Hs; congruence).
  apply stepped_component; [done|done|done|]. apply state_name; [done|]. repeat split; [done|..|done]; intros ->.
  - by apply (Hd1 r).
  - by apply (Hd2 r).
Qed.

Lemma cleanStep_ok rooted l rest out dd :
  rest ≠ [] → state_of rooted l out dd → stepped rooted l rest (cleanStep rooted (rest, out, dd)).
Proof.
  intros H0 Hst. destruct rest as [|c r1]; [done|]. unfold cleanStep. cbv zeta.
  destruct (Z.eqb_spec c slash) as [->|Hc].
  { split; [cbn; lia|]. exists l. split; [done|].
    change (Split (slash :: r1) slash) with ([] :: Split r1 slash). reflexivity. }
  destruct ((c =? 0x2e) && ended r1) eqn:E1.
  { apply andb_true_iff in E1 as [->%Z.eqb_eq E1]. change (0x2e :: r1) with (dot ++ r1).
    apply stepped_component; [by repeat constructor|done|done|]. by rewrite cleanComponent_skip by (by right). }
  assert (∀ r, ended r = true → c :: r1 ≠ dot ++ r) as Hd1.
  { intros r Hr [= -> ->]. by rewrite Hr in E1. }
  assert (ended (c :: r1) = false) as He by (cbn; by apply Z.eqb_neq).
  destruct r1 as [|c2 r2].
  { assert (∀ r, ended r = true → [c] ≠ dotdot ++ r) as Hd2 by done.
    pose proof (stepped_element rooted l [c] out dd ltac:(done) He Hst Hd1 Hd2) as H. by destruct (element [c]). }
  destruct ((c =? 0x2e) && (c2 =? 0x2e) && ended r2) eqn:E2.
  - rewrite !andb_true_iff, !Z.eqb_eq in E2. destruct E2 as [[-> ->] E2]. change (0x2e :: 0x2e :: r2) with (dotdot ++ r2).
    pose proof (state_dotdot rooted l out dd Hst) as H. cbv zeta in H.
    destruct (dd <? length out)%nat; [|destruct rooted; cbn [negb]];
      (apply stepped_component; [by repeat constructor|done|done|exact H]).
  - assert (∀ r, ended r = true → c :: c2 :: r2 ≠ dotdot ++ r) as Hd2.
    { intros r Hr [= -> -> ->]. by rewrite Hr in E2. }
    pose proof (stepped_element rooted l (c :: c2 :: r2) out dd ltac:(done) He Hst Hd1 Hd2) as H.
    by destruct (element (c :: c2 :: r2)).
Qed.

Lemma cleanLoop_ok rooted fuel : ∀ l rest out dd,
  (length rest ≤ fuel)%nat → state_of rooted l out dd →
  ∃ out', cleanLoop fuel rooted (rest, out, dd) = Done out' ∧
    let l' := foldl (cleanComponent rooted) l (Split rest slash) in out' = render rooted l' ∧ normal rooted l'.
Proof.
  induction fuel as [|fuel IH]; intros l rest out dd Hl Hst.
  { destruct rest; [|cbn in Hl; lia]. exists out. split; [done|]. destruct Hst as (k & names & -> & ? & ? & -> & _).
    split; [done|]. by exists k, names. }
  destruct rest as [|c r].
  { exists out. split; [done|]. destruct Hst as (k & names & -> & ? & ? & -> & _).
    split; [done|]. by exists k, names. }
  cbn [cleanLoop fst snd]. pose proof (cleanStep_ok rooted l (c :: r) out dd ltac:(done) Hst) as Hs.
  destruct (cleanStep rooted (c :: r, out, dd)) as [[rest' out'] dd']. destruct Hs as (Hlt & l' & Hst' & Hf).
  rewrite Hf. apply (IH l' rest' out' dd'); [cbn in *; lia|done].
Qed.

Definition isRooted (path : bytes) : bool := match path with c :: _ => c =? slash | [] => false end.

Lemma cleaned_slash rooted r : cleaned rooted (slash :: r) = cleaned rooted r.
Proof. unfold cleaned. change (Split (slash :: r) slash) with ([] :: Split r slash). reflexivity. Qed.

Lemma Clean_eq path :
  path ≠ [] → let rooted := isRooted path in let l := cleaned rooted path in
  Clean path = Done (if (length (render rooted l) =? 0)%nat then dot else render rooted l) ∧ normal rooted l.
Proof.
  intros Hp. cbn zeta. destruct path as [|c r]; [done|]. unfold Clean, isRooted.
  assert (∀ rooted, state_of rooted [] (render rooted []) (length (render rooted []))) as H0.
  { intros rooted. by exists 0%nat, []. }
  destruct (Z.eqb_spec c slash) as [->|Hc].
  - destruct (cleanLoop_ok true (length r) [] r [slash] 1 ltac:(lia) (H0 true)) as (out & -> & -> & Hn).
    rewrite cleaned_slash. by split.
  - destruct (cleanLoop_ok false (length (c :: r)) [] (c :: r) [] 0 ltac:(lia) (H0 false)) as (out & -> & -> & Hn).
    by split.
Qed.

Lemma cleanComponent_name rooted l x : name x → cleanComponent rooted l x = l ++ [x].
Proof.
  intros (H1 & H2 & H3 & _). unfold cleanComponent. apply bytes_eqb_neq in H1, H2, H3. by rewrite H1, H2, H3.
Qed.

Lemma cleanComponent_dotdots k : cleanComponent false (replicate k dotdot) dotdot = replicate (S k) dotdot.
Proof.
  unfold cleanComponent. change ((dotdot =s []) || (dotdot =s dot)) with false. change (dotdot =s dotdot) with true. cbn iota.
  destruct k as [|k]; [done|]. rewrite (replicate_S_end k), last_snoc. change (dotdot =s dotdot) with true. cbn iota.
  by rewrite <- replicate_S_end, <- replicate_S_end.
Qed.

(** The components of a clean path are left as they are. *)
Lemma fold_normal rooted l : normal rooted l → foldl (cleanComponent rooted) [] l = l.
Proof.
  intros (k & names & -> & Hn & Hk). rewrite foldl_app.
  assert (foldl (cleanComponent rooted) [] (replicate k dotdot) = replicate k dotdot) as ->.
  { destruct rooted; [by rewrite Hk|]. clear. induction k as [|k IH]; [done|].
    rewrite replicate_S_end, foldl_app, IH. cbn [foldl]. by rewrite cleanComponent_dotdots, <- replicate_S_end. }
  induction names as [|x names IH] using rev_ind; [by rewrite app_nil_r|].
  apply Forall_app in Hn as [Hn [Hx _]%Forall_cons]. rewrite foldl_app. cbn [foldl]. rewrite IH by done.
  by rewrite cleanComponent_name, app_assoc.
Qed.

Lemma normal_noslash rooted l : normal rooted l → Forall (Forall (λ c, c ≠ slash)) l.
Proof.
  intros (k & names & -> & Hn & _). apply Forall_app. split; [apply Forall_replicate; by repeat constructor|].
  eapply Forall_impl; [exact Hn|]. by intros x (_ & _ & _ & ?).
Qed.

(** A clean path, or one with a slash after it, has the components it is made of. *)
Lemma cleaned_render rooted l tail :
  normal rooted l → tail = [] ∨ tail = [slash] → cleaned rooted (render rooted l ++ tail) = l.
Proof.
  intros Hn Ht. assert (cleaned rooted (Join l slash ++ tail) = l) as H.
  { pose proof (fold_normal rooted l Hn) as Hf. pose proof (normal_noslash rooted l Hn) as Hs. unfold cleaned.
    destruct Ht as [-> | ->].
    - rewrite app_nil_r. destruct l as [|x l]; [done|]. by rewrite Split_Join.
    - destruct l as [|x l]; [by destruct rooted|].
      change (Join (x :: l) slash ++ [slash]) with (Join (x :: l) slash ++ slash :: []).
      rewrite <- (Join_snoc (x :: l) [] slash), Split_Join; [|by destruct l|apply Forall_app; split; [done|apply Forall_cons; split; constructor]|done].
      rewrite foldl_app, Hf. reflexivity. }
  unfold render. destruct rooted; [|done]. cbn [app]. by rewrite cleaned_slash.
Qed.

Lemma isRooted_render rooted l tail :
  normal rooted l → rooted = true ∨ l ≠ [] → isRooted (render rooted l ++ tail) = rooted.
Proof.
  intros Hn Hl. destruct rooted; [done|]. destruct Hl as [|Hl]; [done|]. destruct l as [|x l]; [done|].
  pose proof (normal_noslash _ _ Hn) as Hs. apply Forall_cons in Hs as [Hs _].
  assert (x ≠ []) as Hx. { destruct Hn as (k & names & E & Hn & _). pose proof (state_nonempty k names Hn) as H.
    rewrite <- E in H. by apply Forall_cons in H as [H _]. }
  destruct x as [|c x]; [done|]. apply Forall_cons in Hs as [Hc _].
  unfold render. destruct l; cbn; by apply Z.eqb_neq.
Qed.

Lemma render_not_dot rooted l : normal rooted l → render rooted l ≠ dot.
Proof.
  intros Hn E. destruct rooted; [done|]. unfold render in E. cbn [app] in E.
  destruct l as [|x l]; [done|]. pose proof (Split_Join (x :: l) slash ltac:(done) (normal_noslash _ _ Hn)) as H.
  rewrite E in H. change (Split dot slash) with [dot] in H. injection H as <- <-.
  destruct Hn as ([|[|k]] & names & El & Hn & _); [|done|done]. cbn [replicate app] in El. subst names.
  apply Forall_cons in Hn as [(_ & H & _) _]. done.
Qed.

Lemma render_empty rooted l : normal rooted l → (length (render rooted l) =? 0)%nat = negb rooted && (length l =? 0)%nat.
Proof.
  intros (k & names & -> & Hn & _). pose proof (render_length rooted _ (state_nonempty k names Hn)) as H.
  destruct rooted; [done|exact H].
Qed.

Definition trailing (data : bytes) : bytes := if decide (last data = Some slash) then [slash] else [].

Lemma index_last (data : bytes) : data ≠ [] → ∃ c, index data (length data - 1) = Done c ∧ last data = Some c.
Proof.
  intros H. destruct data as [|c data _] using rev_ind; [done|]. exists c. rewrite last_snoc. split; [|done].
  apply index_Some. rewrite length_app, lookup_app_r by (cbn; lia). cbn. by replace (_ - _)%nat with 0%nat by lia.
Qed.

Lemma normalisePath_eq data :
  data ≠ [] → let rooted := isRooted data in let l := cleaned rooted data in
  let out := if negb rooted && (length l =? 0)%nat then [] else render rooted l ++ trailing data in
  normalisePath data = Done (out, negb (data =s out), None) ∧ normal rooted l.
Proof.
  intros Hd. destruct (Clean_eq data Hd) as [Hc Hn]. cbn zeta in *. split; [|done].
  unfold normalisePath. destruct (Nat.ltb_spec (length data) 1) as [Hlt|_]; [destruct data; [done|cbn in Hlt; lia]|].
  rewrite Hc. cbn [mbind run_bind]. rewrite (render_empty _ _ Hn). destruct (negb _ && _).
  { change (dot =s dot) with true. cbn iota. assert (data =s [] = false) as -> by (by apply bytes_eqb_neq). done. }
  pose proof (render_not_dot _ _ Hn) as Hdot. apply bytes_eqb_neq in Hdot. rewrite Hdot.
  destruct (index_last data Hd) as (c & -> & Hl). cbn [mbind run_bind]. unfold trailing. rewrite Hl.
  destruct (Z.eqb_spec c slash) as [->|Hcs].
  - by rewrite decide_True.
  - rewrite decide_False by congruence. by rewrite app_nil_r.
Qed.

(** What normalisePath returns.  The output is a path of names that are
    neither empty, "." nor "..", after a run of ".." components only when the
    input is not rooted, with the slash at the end that the input had; it is
    never an error and the changed flag tells whether the output differs. *)
Theorem normalisePath_normal data :
  wp (normalisePath data) (λ '(out, changed, err), err = None ∧ changed = negb (data =s out) ∧
    ∃ l tail, out = render (isRooted data) l ++ tail ∧ normal (isRooted data) l ∧ (tail = [] ∨ tail = trailing data)).
Proof.
  destruct (decide (data = [])) as [->|Hd].
  { split; [done|]. split; [done|]. exists [], []. split; [done|]. split; [by exists 0%nat, []|by left]. }
  destruct (normalisePath_eq data Hd) as [E Hn]. cbn zeta in *. rewrite E. cbn [wp]. split; [done|]. split; [done|].
  set (l := cleaned (isRooted data) data) in *. destruct (negb _ && _) eqn:E0.
  - exists l, []. split; [|by split; [|left]]. apply andb_true_iff in E0 as [->%negb_true_iff El%Nat.eqb_eq]. by destruct l.
  - exists l, (trailing data). split; [done|]. by split; [|right].
Qed.

Lemma last_render rooted l : normal rooted l → l ≠ [] → last (render rooted l) ≠ Some slash.
Proof.
  intros Hn Hl. pose proof (normal_noslash _ _ Hn) as Hs.
  assert (Forall (λ x, x ≠ []) l) as H0. { destruct Hn as (k & names & -> & Hn & _). by apply state_nonempty. }
  destruct l as [|x l _] using rev_ind; [done|]. rewrite render_snoc.
  apply Forall_app in Hs as [_ [Hx _]%Forall_cons]. apply Forall_app in H0 as [_ [Hx0 _]%Forall_cons].
  destruct x as [|c x _] using rev_ind; [done|]. rewrite !app_assoc, last_snoc.
  apply Forall_app in Hx as [_ [Hc _]%Forall_cons]. congruence.
Qed.

Lemma trailing_cases data : trailing data = [] ∨ trailing data = [slash].
Proof. unfold trailing. case_decide; auto. Qed.

Lemma normalisePath_again rooted l tail :
  normal rooted l → rooted = true ∨ l ≠ [] → tail = [] ∨ tail = [slash] →
  render rooted l ++ tail ≠ [slash] → normalisePath (render rooted l ++ tail) = Done (render rooted l ++ tail, false, None).
Proof.
  intros Hn Hl Ht Hroot. set (out := render rooted l ++ tail).
  assert (render rooted l ≠ []) as Hne.
  { intros E. pose proof (render_empty rooted l Hn) as H. rewrite E in H. symmetry in H. cbn in H.
    apply andb_true_iff in H as [->%negb_true_iff H%Nat.eqb_eq]. destruct Hl; [done|]. by destruct l. }
  assert (out ≠ []) as Ho by (subst out; by destruct (render rooted l)).
  destruct (normalisePath_eq out Ho) as [E _]. cbn zeta in E.
  assert (isRooted out = rooted) as Hr by (by apply isRooted_render).
  assert (cleaned rooted out = l) as Hc by (by apply cleaned_render). rewrite Hr, Hc in E.
  rewrite <- (render_empty rooted l Hn) in E. destruct (Nat.eqb_spec (length (render rooted l)) 0) as [El|_]; [by destruct (render rooted l)|].
  assert (trailing out = tail) as Htl.
  { unfold trailing, out. destruct Ht as [-> | ->]; [|by rewrite last_snoc, decide_True].
    rewrite app_nil_r. apply decide_False. destruct l as [|x l]; [|by apply last_render].
    destruct Hl as [->|]; [|done]. subst out. by rewrite app_nil_r in Hroot. }
  rewrite Htl in E. fold out in E. rewrite E. by rewrite (proj2 (bytes_eqb_eq out out) eq_refl).
Qed.

(** NormalisePath is idempotent, except at the root.  Normalising an
    output of normalisePath again returns it unchanged, unless that output is
    "/", which a second pass turns into "//". *)
Theorem normalisePath_idempotent data :
  wp (normalisePath data) (λ '(out, _, _),
    normalisePath out = if out =s [slash] then Done ([slash; slash], true, None) else Done (out, false, None)).
Proof.
  destruct (decide (data = [])) as [->|Hd]; [done|].
  destruct (normalisePath_eq data Hd) as [E Hn]. cbn zeta in *. rewrite E. cbn [wp].
  set (rooted := isRooted data) in *. set (l := cleaned rooted data) in *. destruct (negb rooted && _) eqn:E0; [done|].
  destruct (render rooted l ++ trailing data =s [slash]) eqn:Er.
  { apply bytes_eqb_eq in Er. by rewrite Er. }
  apply bytes_eqb_neq in Er. apply normalisePath_again; [done|..|apply trailing_cases|done].
  destruct rooted; [by left|]. right. intros El. by rewrite El in E0.
Qed.

Lemma cleaned_wf rooted data : wf_bytes data → Forall wf_bytes (cleaned rooted data).
Proof.
  intros Hd. apply (Split_wf _ slash) in Hd. unfold cleaned. assert (Forall wf_bytes (@nil bytes)) as H0 by constructor.
  revert H0. generalize (@nil bytes). induction (Split data slash) as [|x xs IH]; intros l Hl; [done|].
  apply Forall_cons in Hd as [Hx Hxs]. cbn [foldl]. apply IH; [done|]. unfold cleanComponent.
  assert (wf_bytes dotdot) by (by apply wf_bytesb_true).
  destruct (_ || _); [done|]. destruct (x =s dotdot); [|apply Forall_app; split; [done|by constructor]].
  destruct (last l) as [y|]; [destruct (y =s dotdot); [apply Forall_app; split; [done|by constructor]|by apply Forall_take]|].
  destruct rooted; [done|by constructor].
Qed.

Lemma normalisePath_honest : honest normalisePath.
Proof.
  intros data Hd. destruct (decide (data = [])) as [->|H0]; [done|].
  destruct (normalisePath_eq data H0) as [E _]. cbn zeta in *. rewrite E. cbn [wp].
  assert (wf_bytes [slash]) as Hs by (by apply wf_bytesb_true). split.
  - destruct (negb _ && _); [constructor|]. apply Forall_app. split.
    + unfold render. apply Forall_app. split; [by destruct (isRooted data)|]. apply Join_wf; [done|by apply cleaned_wf].
    + by destruct (trailing_cases data) as [-> | ->].
  - intros Hf%negb_false_iff%bytes_eqb_eq _. done.
Qed.

(** ** The components of a Windows path *)

Lemma eachComponent_from {St} (body : St → bytes → run St) data rest : ∀ pre cur st,
  data = pre ++ cur ++ rest → Forall (λ c, c ≠ slash) cur →
  ('(st, _) ← foldM (λ '(st, start) i,
      skip ← negb (i =? length data)%nat &&? (c ← index data i; Done (negb (c =? slash)));
      if (skip : bool) then Done (st, start) else
      seg ← slice data start i;
      st ← body st seg;
      Done (st, S i)) (seq (length pre + length cur) (S (length rest))) (st, length pre); Done st) =
  foldM body (match Split rest slash with x :: xs => (cur ++ x) :: xs | [] => [] end) st.
Proof.
  induction rest as [|c rest IH]; intros pre cur st -> Hcur.
  - assert (slice (pre ++ cur ++ []) (length pre) (length pre + length cur) = Done cur) as Hs.
    { rewrite slice_ok by (rewrite !length_app; lia). rewrite drop_app_length, app_nil_r.
      replace (_ - _)%nat with (length cur) by lia. by rewrite firstn_all. }
    cbn [seq foldM Split]. rewrite !app_nil_r in *. rewrite length_app, Nat.eqb_refl. cbn [negb and_then mbind run_bind].
    rewrite Hs. cbn [mbind run_bind]. by destruct (body st cur).
  - set (data := pre ++ cur ++ c :: rest) in *.
    assert (index data (length pre + length cur) = Done c) as Hi.
    { apply index_Some. subst data. rewrite app_assoc, lookup_app_r by (rewrite length_app; lia).
      rewrite length_app, Nat.sub_diag. done. }
    assert ((length pre + length cur =? length data)%nat = false) as Hne.
    { apply Nat.eqb_neq. subst data. rewrite !length_app. cbn. lia. }
    assert (slice data (length pre) (length pre + length cur) = Done cur) as Hs.
    { subst data. rewrite slice_ok by (rewrite !length_app; cbn; lia). rewrite drop_app_length.
      replace (_ - _)%nat with (length cur) by lia. by rewrite take_app_length. }
    cbn [length]. cbn [seq foldM]. rewrite Hne. cbn [negb and_then]. rewrite Hi. cbn [mbind run_bind Split].
    destruct (Z.eqb_spec c slash) as [->|Hc]; cbn [negb].
    + rewrite Hs. cbn [mbind run_bind]. rewrite app_nil_r. cbn [foldM]. destruct (body st cur) as [st'| |]; [|done|done].
      cbn [mbind run_bind]. specialize (IH (pre ++ cur ++ [slash]) [] st').
      rewrite !length_app in IH. cbn [length] in IH. rewrite !Nat.add_0_r, Nat.add_assoc, Nat.add_1_r in IH. refine (eq_trans (IH _ _) _).
      * subst data. by rewrite <- !app_assoc.
      * constructor.
      * pose proof (Split_nonempty rest slash). by destruct (Split rest slash).
    + specialize (IH pre (cur ++ [c]) st). rewrite length_app in IH. cbn [length] in IH.
      rewrite Nat.add_1_r, Nat.add_succ_r in IH. refine (eq_trans (IH _ _) _).
      * subst data. by rewrite <- app_assoc.
      * apply Forall_app. split; [done|by constructor].
      * pose proof (Split_nonempty rest slash). destruct (Split rest slash); [done|]. by rewrite <- app_assoc.
Qed.

Lemma eachComponent_eq {St} (body : St → bytes → run St) data st :
  eachComponent body data st = foldM body (Split data slash) st.
Proof.
  unfold eachComponent. refine (eq_trans (eachComponent_from body data data [] [] st eq_refl _) _); [constructor|].
  pose proof (Split_nonempty data slash). by destruct (Split data slash).
Qed.

(** What Windows makes of a component: [None] when nothing remains of it. *)
Definition trimComponent (seg : bytes) : option bytes :=
  if isAllDots seg then Some seg
  else let trimmed := TrimRight seg [0x2e; 0x20] in if trimmed =s [] then None else Some trimmed.

Lemma TrimRight_snoc x c set : TrimRight (x ++ [c]) set = if byte_in c set then TrimRight x set else x ++ [c].
Proof.
  unfold TrimRight. rewrite reverse_snoc. cbn [TrimLeft]. destruct (byte_in c set); [done|].
  by rewrite reverse_cons, reverse_involutive.
Qed.

(** A component that ends in neither a dot nor a space. *)
Definition kept (seg : bytes) : bool :=
  isAllDots seg || match last seg with Some c => negb ((c =? 0x2e) || (c =? 0x20)) | None => true end.

Lemma trimComponent_kept seg : kept seg = true → trimComponent seg = Some seg.
Proof.
  unfold kept, trimComponent. destruct (isAllDots seg) eqn:Ed; [done|]. cbn [orb].
  destruct seg as [|c seg _] using rev_ind; [done|]. rewrite last_snoc, TrimRight_snoc. intros Hc%negb_true_iff.
  unfold byte_in. cbn [existsb]. rewrite orb_false_r, Hc. by destruct seg.
Qed.

Lemma trimComponent_result seg x : trimComponent seg = Some x → kept x = true.
Proof.
  unfold trimComponent. destruct (isAllDots seg) eqn:Ed; [by intros [= <-]; unfold kept; rewrite Ed|].
  destruct (_ =s []) eqn:Et; [done|]. intros [= <-]. clear Et Ed. unfold kept. apply orb_true_iff. right.
  induction seg as [|c seg IH] using rev_ind; [done|]. rewrite TrimRight_snoc.
  destruct (byte_in c _) eqn:Ec; [done|]. rewrite last_snoc. unfold byte_in in Ec. cbn [existsb] in Ec.
  rewrite orb_false_r in Ec. by rewrite Ec.
Qed.

Lemma hasTrimmableComponent_eq data :
  hasTrimmableComponent data = Done (existsb (λ seg, negb (kept seg)) (Split data slash)).
Proof.
  unfold hasTrimmableComponent. rewrite eachComponent_eq. match goal with |- foldM ?b _ _ = _ => set (body := b) end.
  assert (∀ segs found, foldM body segs found = Done (found || existsb (λ seg, negb (kept seg)) segs)) as H; [|by rewrite H].
  intros segs. induction segs as [|seg segs IH]; intros found; cbn [foldM existsb]; [by rewrite orb_false_r|].
  destruct found; [exact (IH true)|]. assert (body false seg = Done (negb (kept seg))) as ->.
  { unfold body, kept. destruct (isAllDots seg) eqn:Ed; [done|]. cbn [negb orb].
    destruct (index_last seg) as (c & -> & ->); [by intros ->|]. cbn [mbind run_bind]. by rewrite negb_involutive. }
  exact (IH _).
Qed.

Lemma strip_loop segs : ∀ done,
  foldM (λ '(buf, wroteAny) seg,
    let write seg := Done (buf ++ (if wroteAny : bool then [slash] else []) ++ seg, true) in
    if negb (isAllDots seg) then
      let trimmed := TrimRight seg [0x2e; 0x20] in
      if trimmed =s [] then Done (buf, wroteAny) else write trimmed
    else write seg) segs (Join done slash, negb (length done =? 0)%nat) =
  let l := done ++ omap trimComponent segs in Done (Join l slash, negb (length l =? 0)%nat).
Proof.
  induction segs as [|seg segs IH]; intros done; [by rewrite app_nil_r|]. cbv zeta in *. cbn [foldM omap list_omap].
  assert (∀ x, (Join done slash ++ (if negb (length done =? 0)%nat then [slash] else []) ++ x, true) =
    (Join (done ++ [x]) slash, negb (length (done ++ [x]) =? 0)%nat)) as Hw.
  { intros x. rewrite length_app. cbn [length]. rewrite Nat.add_1_r. cbn [Nat.eqb negb]. f_equal.
    destruct done as [|y done]; [done|]. by rewrite Join_snoc. }
  destruct (trimComponent seg) as [x|] eqn:Et; unfold trimComponent in Et; destruct (isAllDots seg); cbn [negb]; try discriminate Et;
    [injection Et as <-|destruct (TrimRight seg _ =s []); [discriminate Et|injection Et as <-]|
     destruct (TrimRight seg _ =s []); [|discriminate Et]]; rewrite ?Hw; cbn [mbind run_bind]; rewrite IH; rewrite <- ?app_assoc; done.
Qed.

Lemma omap_kept l : existsb (λ seg, negb (kept seg)) l = false → omap trimComponent l = l.
Proof.
  induction l as [|x l IH]; [done|]. cbn [existsb omap list_omap]. intros [Hx%negb_false_iff Hl]%orb_false_iff.
  rewrite trimComponent_kept by done. by rewrite IH.
Qed.

Lemma strip_eq data :
  stripWindowsTrailingDotsAndSpaces data = Done (Join (omap trimComponent (Split data slash)) slash).
Proof.
  unfold stripWindowsTrailingDotsAndSpaces. rewrite hasTrimmableComponent_eq. cbn [mbind run_bind].
  destruct (existsb _ _) eqn:E; cbn [negb].
  - rewrite eachComponent_eq. pose proof (strip_loop (Split data slash) []) as H. cbv zeta in H.
    change (Join [] slash, negb (length (@nil bytes) =? 0)%nat) with (@nil Z, false) in H. rewrite H. done.
  - rewrite omap_kept by done. by rewrite Join_Split.
Qed.

(** The fast test of stripWindowsTrailingDotsAndSpaces only saves work.
    On every string it returns the components as Windows resolves them: those
    of dots alone as they are, the others without the dots and spaces at
    their end, and without the ones of which nothing remains. *)
Theorem stripWindows_spec data :
  stripWindowsTrailingDotsAndSpaces data = Done (Join (omap trimComponent (Split data slash)) slash).
Proof. apply strip_eq. Qed.

Lemma TrimLeft_Forall (P : Z → Prop) s set : Forall P s → Forall P (TrimLeft s set).
Proof. destruct (TrimLeft_suffix s set) as (p & E & _). rewrite E at 1. by intros [_ H]%Forall_app. Qed.

Lemma TrimRight_Forall (P : Z → Prop) s set : Forall P s → Forall P (TrimRight s set).
Proof. intros H. unfold TrimRight. apply Forall_reverse, TrimLeft_Forall. by apply Forall_reverse. Qed.

Lemma trimComponent_Forall (P : Z → Prop) segs : Forall (Forall P) segs → Forall (Forall P) (omap trimComponent segs).
Proof.
  induction 1 as [|seg segs Hs _ IH]; cbn; [constructor|]. destruct (trimComponent seg) as [x|] eqn:E; [|done].
  constructor; [|done]. unfold trimComponent in E. destruct (isAllDots seg); [by injection E as <-|].
  destruct (_ =s []); [done|]. injection E as <-. by apply TrimRight_Forall.
Qed.

Lemma trimComponent_all_kept segs : Forall (λ x, kept x = true) (omap trimComponent segs).
Proof.
  induction segs as [|seg segs IH]; cbn; [constructor|]. destruct (trimComponent seg) as [x|] eqn:E; [|done].
  constructor; [by eapply trimComponent_result|done].
Qed.

Lemma normalisePathWin_eq data :
  data ≠ [] → wp (normalisePath (ReplaceByte data 0x5c [slash])) (λ '(clean, _, _),
    let out := Join (omap trimComponent (Split (stripWindowsADS clean) slash)) slash in
    normalisePathWin data = Done (out, negb (data =s out), None)).
Proof.
  intros Hd. assert (ReplaceByte data 0x5c [slash] ≠ []) as Hr.
  { destruct data as [|c data]; [done|]. cbn. by destruct (c =? 0x5c). }
  destruct (normalisePath_eq _ Hr) as [E _]. cbn zeta in E. rewrite E. cbn [wp]. unfold normalisePathWin.
  destruct (Nat.ltb_spec (length data) 1) as [Hlt|_]; [destruct data; [done|cbn in Hlt; lia]|].
  rewrite E. cbn [mbind run_bind]. by rewrite strip_eq.
Qed.

(** What normalisePathWin returns.  No component of the output ends in a
    dot or a space unless it is made of dots; it is never an error and the
    changed flag tells whether the output differs from the input. *)
Theorem normalisePathWin_components data :
  wp (normalisePathWin data) (λ '(out, changed, err), err = None ∧ changed = negb (data =s out) ∧
    Forall (λ x, kept x = true) (Split out slash)).
Proof.
  destruct (decide (data = [])) as [->|Hd].
  { split; [done|]. split; [done|]. by repeat constructor. }
  pose proof (normalisePathWin_eq data Hd) as H. apply wp_elim in H as ([[clean c] e] & _ & H). cbv zeta in H. rewrite H.
  cbn [wp]. split; [done|]. split; [done|]. set (l := omap trimComponent _).
  assert (Forall (λ x, kept x = true) l) as Hk by apply trimComponent_all_kept.
  assert (Forall (Forall (λ c, c ≠ slash)) l) as Hs by apply trimComponent_Forall, Split_elems.
  destruct l as [|x l]; [by repeat constructor|]. by rewrite Split_Join.
Qed.

Lemma stripStream_wf data : wf_bytes data → wf_bytes (stripStream data).
Proof.
  intros Hd. unfold stripStream.
  destruct (LastIndexByte data slash); [destruct (IndexByte (drop _ data) 0x3a)|destruct (IndexByte data 0x3a)];
    try done; by apply Forall_take.
Qed.

Lemma stripWindowsADS_wf data : wf_bytes data → wf_bytes (stripWindowsADS data).
Proof.
  intros Hd. unfold stripWindowsADS.
  assert (∀ p d, wf_bytes p → wf_bytes d → wf_bytes (let '(trailingSlash, data) :=
    match last d with Some c => if c =? slash then ([slash], take (length d - 1) d) else ([], d) | None => ([], d) end in
    p ++ stripStream data ++ trailingSlash)) as H.
  { intros p d Hp Hw. assert (wf_bytes [slash]) by (by apply wf_bytesb_true).
    destruct (last d) as [c|]; [destruct (c =? slash)|]; repeat (apply Forall_app; split); try done;
      try apply stripStream_wf; try done; by apply Forall_take. }
  destruct data as [|c0 [|c1 rest]]; [by apply (H [] [])|by apply (H [] [c0])|].
  destruct ((c1 =? 0x3a) && isASCIILetter c0); [|by apply (H [] (c0 :: c1 :: rest))].
  apply Forall_cons in Hd as [H0 [H1 Hr]%Forall_cons]. apply (H [c0; c1] rest); [by repeat (constructor; [done|])|done].
Qed.

Lemma normalisePathWin_honest : honest normalisePathWin.
Proof.
  intros data Hd. destruct (decide (data = [])) as [->|H0]; [done|].
  pose proof (normalisePathWin_eq data H0) as H.
  assert (wf_bytes (ReplaceByte data 0x5c [slash])) as Hr by (apply ReplaceByte_wf; [done|by apply wf_bytesb_true]).
  pose proof (normalisePath_honest _ Hr) as Hn.
  destruct (normalisePath _) as [[[clean c] e]| |]; [|done|done]. cbn [wp] in *. cbv zeta in H. rewrite H. cbn [wp].
  destruct Hn as [Hw _]. split.
  - apply Join_wf; [done|]. by apply trimComponent_Forall, Split_wf, stripWindowsADS_wf.
  - by intros Hf%negb_false_iff%bytes_eqb_eq _.
Qed.

(** A component of spaces after the final one hides its stream from
    stripWindowsADS. *)
Lemma normalisePathWin_stream :
  normalisePathWin (str "web.config::$DATA\ ") = Done (str "web.config::$DATA", true, None).
Proof. reflexivity. Qed.
