(* ===== verification/Transformations.v ===== *)
(** The registry of transformations and the ones that call a library:
    src/internal/transformations/transformations.go, md5.go, sha1.go and
    html_entity_decode.go.

    The digests of crypto/md5 and crypto/sha1, the state of crypto/fips140 and
    [html.UnescapeString] of golang.org/x/net are parameters.  The theorems
    are about every transformation that a rule can name: it returns on every
    byte string, and tells when it has changed it. *)

From S2P Require Import Prelude GoLib StringUtil BestFit UrlTransform TextTransform CommentTransform EscapeTransform Base64 PathTransform.

(** The map [transformations]. *)
Notation registry := (gmap bytes transformation).

Section registry.
Context `{U : !Unicode}.

(** [html.UnescapeString] *)
Context (UnescapeString : bytes → bytes).
(** [md5.New], [Write] and [Sum], on a string that is not empty; the same for sha1. *)
Context (md5Sum sha1Sum : bytes → bytes).
(** [fips140.Enabled()] *)
Context (fipsEnabled : bool).

(** ** htmlEntityDecode, md5, sha1 *)

Definition htmlEntityDecode : transformation := λ data,
  match IndexByte data 0x26 with
  | None => Done (data, false, None)
  | Some _ =>
      let transformedData := UnescapeString data in
      Done (transformedData, negb (length data =? length transformedData)%nat, None)
  end.

Definition emptyMD5 : bytes :=
  [0xd4; 0x1d; 0x8c; 0xd9; 0x8f; 0x00; 0xb2; 0x04; 0xe9; 0x80; 0x09; 0x98; 0xec; 0xf8; 0x42; 0x7e].

(** Writing to a digest gives no error. *)
Definition md5T : transformation := λ data,
  if fipsEnabled then Done (data, false, Some errMD5NotAvailableFIPS)
  else if (length data =? 0)%nat then Done (emptyMD5, true, None)
  else Done (md5Sum data, true, None).

Definition emptySHA1 : bytes :=
  [0xda; 0x39; 0xa3; 0xee; 0x5e; 0x6b; 0x4b; 0x0d; 0x32; 0x55; 0xbf; 0xef; 0x95; 0x60; 0x18; 0x90; 0xaf; 0xd8; 0x07; 0x09].

Definition sha1T : transformation := λ data,
  if fipsEnabled then Done (data, false, Some errSHA1NotAvailableFIPS)
  else if (length data =? 0)%nat then Done (emptySHA1, true, None)
  else Done (sha1Sum data, true, None).

(** ** The registry *)

Definition Register (name : bytes) (trans : transformation) (transformations : registry) : registry :=
  <[ToLower name := trans]> transformations.

(** [None] is the error "invalid transformation name". *)
Definition GetTransformation (transformations : registry) (name : bytes) : option transformation :=
  transformations !! ToLower name.

(** The calls of [Register] in [init]. *)
Definition registered : list (bytes * transformation) := [
  (str "base64Decode", base64decode);
  (str "base64DecodeExt", base64decodeext);
  (str "base64Encode", base64encode);
  (str "cmdLine", cmdLine);
  (str "compressWhitespace", compressWhitespace);
  (str "cssDecode", cssDecode);
  (str "escapeSeqDecode", escapeSeqDecode);
  (str "hexDecode", hexDecode);
  (str "hexEncode", hexEncode);
  (str "htmlEntityDecode", htmlEntityDecode);
  (str "jsDecode", jsDecode);
  (str "length", lengthT);
  (str "lowercase", lowerCase);
  (str "md5", md5T);
  (str "none", none);
  (str "normalisePath", normalisePath);
  (str "normalisePathWin", normalisePathWin);
  (str "normalizePath", normalisePath);
  (str "normalizePathWin", normalisePathWin);
  (str "removeComments", removeComments);
  (str "removeCommentsChar", removeCommentsChar);
  (str "removeNulls", removeNulls);
  (str "removeWhitespace", removeWhitespace);
  (str "replaceComments", replaceComments);
  (str "replaceNulls", replaceNulls);
  (str "sha1", sha1T);
  (str "uppercase", upperCase);
  (str "urlDecode", urlDecode);
  (str "urlDecodeUni", urlDecodeUni);
  (str "urlEncode", urlEncode);
  (str "utf8toUnicode", utf8ToUnicode);
  (str "trim", trim);
  (str "trimLeft", trimLeft);
  (str "trimRight", trimRight)].

Definition init : registry := foldl (λ m '(name, trans), Register name trans m) ∅ registered.
End registry.

(** ** The transformations of URLs are honest *)

Lemma uniFit_byte cp : is_byte (uniFit cp).
Proof.
  unfold uniFit. destruct (unicodeBestFitASCII !! cp) as [b|] eqn:E.
  - apply unicodeBestFitASCII_ascii in E. unfold is_byte. lia.
  - unfold is_byte. destruct (Z.ltb_spec 0xff00 cp), (Z.ltb_spec cp 0xff5f); cbn [andb]; dlia.
Qed.

Lemma hexPair_byte a b h l : hexDigitToByte a = Some h → hexDigitToByte b = Some l → is_byte (h * 16 + l).
Proof. intros [_ H1]%hexDigit_range [_ H2]%hexDigit_range. unfold is_byte. lia. Qed.

Lemma emit_wf out fl r : wf_bytes out → wf_bytes r.1 → wf_bytes (emit out fl r).1.
Proof. intros H1 H2. apply Forall_app. by split. Qed.

Lemma uniDecode_wf s : wf_bytes s → wf_bytes (uniDecode s).1.
Proof.
  remember (length s) as n eqn:Hn. assert (length s ≤ n)%nat as Hs by lia. clear Hn.
  revert s Hs. induction n as [|n IH]; intros [|x r] Hs Hw; [constructor|cbn in Hs; lia|constructor|].
  cbn in Hs. apply Forall_cons in Hw as [Hx Hr]. cbn [uniDecode].
  assert (wf_bytes (emit [x] false (uniDecode r)).1) as Hone by (apply emit_wf; [by apply wf_single|apply IH; [lia|done]]).
  destruct (x =? 0x2b); [apply emit_wf; [by apply wf_single|apply IH; [lia|done]]|].
  destruct (x =? 0x25); [|done]. destruct r as [|u r1]; [done|]. cbn in Hs. pose proof Hr as [Hu Hr1]%Forall_cons.
  destruct (_ || _).
  - assert (wf_bytes (emit [x; u] false (uniDecode r1)).1) as Htwo.
    { apply emit_wf; [constructor; [done|by apply wf_single]|apply IH; [lia|done]]. }
    destruct r1 as [|a [|b [|c [|e r5]]]]; [done..|].
    destruct (hexDigitToByte a), (hexDigitToByte b), (hexDigitToByte c), (hexDigitToByte e); try done.
    apply emit_wf; [apply wf_single, uniFit_byte|]. apply IH; [cbn in Hs; lia|].
    by apply Forall_cons in Hr1 as [_ [_ [_ [_ ?]%Forall_cons]%Forall_cons]%Forall_cons].
  - destruct r1 as [|v r2]; [done|].
    destruct (hexDigitToByte u) eqn:E1, (hexDigitToByte v) eqn:E2; try done.
    apply emit_wf; [apply wf_single; by eapply hexPair_byte|]. apply IH; [cbn in Hs; lia|].
    by apply Forall_cons in Hr1 as [_ ?].
Qed.

Lemma urlToken_byte s : wf_bytes s → is_byte (urlToken s).2.
Proof.
  intros Hs. destruct s as [|x r]; [done|]. apply Forall_cons in Hs as [Hx _]. cbn [urlToken].
  destruct (x =? 0x25); [|by destruct (x =? 0x2b)]. destruct r as [|a [|b r]]; [done|done|].
  destruct (hexDigitToByte a) eqn:E1, (hexDigitToByte b) eqn:E2; try done. by eapply hexPair_byte.
Qed.

Lemma unescapeLoop_wf s : wf_bytes s → wf_bytes (unescapeLoop s).
Proof.
  remember (length s) as n eqn:Hn. assert (length s ≤ n)%nat as Hs by lia. clear Hn.
  revert s Hs. induction n as [|n IH]; intros s Hs Hw; [destruct s; [constructor|cbn in Hs; lia]|].
  destruct (decide (s = [])) as [->|H0]; [constructor|]. rewrite unescapeLoop_token by done.
  pose proof (urlToken_bounds s H0). constructor; [by apply urlToken_byte|]. apply IH; [rewrite length_drop; lia|by apply Forall_drop].
Qed.

Lemma urlDecode_honest : honest urlDecode.
Proof.
  intros data Hd. rewrite urlDecode_eq. cbn [wp]. rewrite queryUnescape_eq. split; [by apply unescapeLoop_wf|].
  unfold ContainsAny. destruct (IndexAny data _) as [i|] eqn:E; [done|]. intros _ _. apply IndexAny_None in E.
  pose proof (unescapeLoop_plain data E []) as H. cbn in H. by rewrite !app_nil_r in H.
Qed.

Lemma urlDecodeUni_honest : honest urlDecodeUni.
Proof.
  intros data Hd. rewrite urlDecodeUni_eq. cbn [wp]. split; [by apply uniDecode_wf|].
  destruct (uniDecode_flag data) as (_ & Hf & _). auto.
Qed.

Lemma encoded_wf b : is_byte b → wf_bytes (encoded b).
Proof. intros Hb. apply wf_bytesb_true. apply (forall_byte (λ b, wf_bytesb (encoded b))); [by vm_compute|done]. Qed.

Lemma flat_map_wf (f : Z → bytes) s : (∀ b, is_byte b → wf_bytes (f b)) → wf_bytes s → wf_bytes (flat_map f s).
Proof. intros Hf. induction 1 as [|b s Hb _ IH]; [constructor|]. cbn [flat_map]. apply Forall_app. auto. Qed.

Lemma urlEncode_honest : honest urlEncode.
Proof.
  intros data Hd. rewrite urlEncode_eq by done. cbn [wp]. split; [by apply flat_map_wf; [apply encoded_wf|]|].
  intros H _. by apply encoded_flag.
Qed.

Lemma hexEncode_honest : honest hexEncode.
Proof.
  intros data Hd. split; [|done]. apply flat_map_wf; [|done]. intros b Hb. apply wf_bytesb_true.
  apply (forall_byte (λ b, wf_bytesb [c2xTable !!! Z.to_nat (b / 16); c2xTable !!! Z.to_nat (b mod 16)])); [by vm_compute|done].
Qed.

Lemma hexDecodeString_wf s out : hexDecodeString s = Some out → wf_bytes out.
Proof.
  remember (length s) as n eqn:Hn. assert (length s ≤ n)%nat as Hs by lia. clear Hn.
  revert s out Hs. induction n as [|n IH]; intros [|a [|b s]] out Hs; cbn in *; try lia; try done;
    [intros [= <-]; constructor..|].
  destruct (hexDigitToByte a) eqn:E1, (hexDigitToByte b) eqn:E2; try done. intros (out' & E & ->)%fmap_Some.
  constructor; [by eapply hexPair_byte|]. eapply IH; [|exact E]. lia.
Qed.

Lemma hexDecode_honest : honest hexDecode.
Proof.
  intros data Hd. unfold hexDecode. destruct (hexDecodeString data) eqn:E; cbn [wp]; [|by split; [constructor|]].
  split; [by eapply hexDecodeString_wf|done].
Qed.

Lemma lengthT_honest : honest lengthT.
Proof. intros data Hd. split; [apply Itoa_wf|done]. Qed.

Lemma none_honest : honest none.
Proof. by intros data Hd. Qed.

(** ** The registry *)

Lemma last_in {A} (l : list A) x : last l = Some x → x ∈ l.
Proof. intros (l' & ->)%last_Some. apply elem_of_app. right. by left. Qed.

Section theorems.
Context `{U : !Unicode} (UnescapeString md5Sum sha1Sum : bytes → bytes) (fipsEnabled : bool).
Notation registered' := (registered UnescapeString md5Sum sha1Sum fipsEnabled).
Notation init' := (init UnescapeString md5Sum sha1Sum fipsEnabled).

Lemma GetTransformation_eq name :
  GetTransformation init' name = snd <$> last (filter (λ nt, ToLower nt.1 = ToLower name) registered').
Proof.
  unfold GetTransformation, init, Register. generalize registered'. intros l.
  assert (∀ m, (foldl (λ (m : registry) '(n, t), <[ToLower n := t]> m) m l : registry) !! ToLower name =
    match last (filter (λ nt, ToLower nt.1 = ToLower name) l) with Some nt => Some nt.2 | None => m !! ToLower name end) as H.
  { induction l as [|[n t] l IH]; intros m; [done|]. cbn [foldl]. rewrite IH. rewrite filter_cons. cbn [fst].
    destruct (decide (ToLower n = ToLower name)) as [->|Hk].
    - rewrite lookup_insert_eq, last_cons. by destruct (last _).
    - by rewrite lookup_insert_ne. }
  rewrite H. destruct (last _); [done|]. apply lookup_empty.
Qed.

Lemma GetTransformation_registered name t :
  GetTransformation init' name = Some t → ∃ n, (n, t) ∈ registered' ∧ ToLower n = ToLower name.
Proof.
  rewrite GetTransformation_eq. intros ([n t'] & E & ->)%fmap_Some. apply last_in, list_elem_of_filter in E as [Ek E].
  by exists n.
Qed.

(** The names differ whatever their case. *)
Lemma registered_names n t n' t' :
  (n, t) ∈ registered' → (n', t') ∈ registered' → ToLower n = ToLower n' → (n, t) = (n', t').
Proof.
  assert (Forall (λ nt, asciib nt.1 = true) registered') as Ha by (repeat (apply Forall_cons; split; [reflexivity|]); constructor).
  assert (NoDup ((λ nt : bytes * transformation, (lowerByte <$> nt.1 : bytes)) <$> registered')) as Hn.
  { apply (bool_decide_unpack _). vm_compute. reflexivity. }
  intros H1 H2 E. rewrite Forall_forall in Ha. pose proof (Ha _ H1) as A1. pose proof (Ha _ H2) as A2. cbn [fst] in *.
  rewrite !ToLower_ascii in E by (by apply asciib_true).
  apply list_elem_of_lookup in H1 as [i H1], H2 as [j H2].
  assert (i = j) as ->; [|congruence]. eapply (NoDup_lookup _ i j (lowerByte <$> n)); [exact Hn|..]; rewrite list_lookup_fmap.
  - by rewrite H1.
  - rewrite H2. cbn. by rewrite E.
Qed.
(** What the libraries return are byte strings. *)
Context (Unescape_wf : ∀ s, wf_bytes s → wf_bytes (UnescapeString s)).
Context (md5_wf : ∀ s, wf_bytes s → wf_bytes (md5Sum s)) (sha1_wf : ∀ s, wf_bytes s → wf_bytes (sha1Sum s)).

Lemma md5T_honest : honest (md5T md5Sum fipsEnabled).
Proof.
  intros data Hd. unfold md5T. destruct fipsEnabled; [done|].
  destruct (_ =? _)%nat; (split; [|done]); [by apply wf_bytesb_true|by apply md5_wf].
Qed.

Lemma sha1T_honest : honest (sha1T sha1Sum fipsEnabled).
Proof.
  intros data Hd. unfold sha1T. destruct fipsEnabled; [done|].
  destruct (_ =? _)%nat; (split; [|done]); [by apply wf_bytesb_true|by apply sha1_wf].
Qed.

(** The transformations whose flag does not tell every change. *)
Definition unreliable : list bytes := [str "removeWhitespace"; str "htmlEntityDecode"].

Lemma registered_honest_except n t : (n, t) ∈ registered' → n ∉ unreliable → honest t.
Proof.
  assert (Forall (λ nt : bytes * transformation, nt.1 ∈ unreliable ∨ honest nt.2) registered') as H.
  { unfold registered. repeat (apply Forall_cons; split); [..|by apply Forall_nil];
      first [left; by apply (bool_decide_unpack _) | right; cbn [snd]];
      first [apply base64decode_honest | apply base64decodeext_honest | apply base64encode_honest | apply cmdLine_honest
        | apply compressWhitespace_honest | apply cssDecode_honest | apply escapeSeqDecode_honest | apply hexDecode_honest
        | apply hexEncode_honest | apply jsDecode_honest | apply lengthT_honest | apply lowerCase_honest | apply md5T_honest
        | apply none_honest | apply normalisePath_honest | apply normalisePathWin_honest | apply removeComments_honest
        | apply removeCommentsChar_honest | apply removeNulls_honest | apply replaceComments_honest | apply replaceNulls_honest
        | apply sha1T_honest | apply upperCase_honest | apply urlDecode_honest | apply urlDecodeUni_honest
        | apply urlEncode_honest | apply utf8ToUnicode_honest | apply trim_honest | apply trimLeft_honest | apply trimRight_honest]. }
  intros Hn Hu. rewrite Forall_forall in H. by destruct (H _ Hn).
Qed.
Lemma removeWhitespace_wf data : wf_bytes data → wf_bytes (flat_map keepRune (runes data)).
Proof.
  intros Hd. rewrite <- (runes_concat data) in Hd. induction (runes data) as [|rb rs IH]; [constructor|].
  cbn [fmap list_fmap concat flat_map] in *. apply Forall_app in Hd as [Hr Hd]. apply Forall_app. split; [|by apply IH].
  unfold keepRune. destruct (isWhitespace _ _); [constructor|]. destruct (isInvalid _); [by apply wf_bytesb_true|done].
Qed.

(** C37: Every transformation that a rule can name returns.  Whatever name the
    registry knows and whatever the bytes it is given, the transformation
    terminates without a panic and gives a byte string. *)
Theorem registered_total name t data :
  GetTransformation init' name = Some t → wf_bytes data → wp (t data) (λ '(out, _, _), wf_bytes out).
Proof.
  intros (n & Hn & _)%GetTransformation_registered Hd. destruct (decide (n ∈ unreliable)) as [Hu|Hu].
  - assert ((str "removeWhitespace", removeWhitespace) ∈ registered') as H1 by (apply list_elem_of_In; cbn; tauto).
    assert ((str "htmlEntityDecode", htmlEntityDecode UnescapeString) ∈ registered') as H2 by (apply list_elem_of_In; cbn; tauto).
    apply elem_of_cons in Hu as [-> | ->%list_elem_of_singleton].
    + pose proof (registered_names _ _ _ _ Hn H1 eq_refl) as [= ->]. rewrite removeWhitespace_eq. by apply removeWhitespace_wf.
    + pose proof (registered_names _ _ _ _ Hn H2 eq_refl) as [= ->]. unfold htmlEntityDecode.
      destruct (IndexByte data 0x26); [by apply Unescape_wf|done].
  - eapply wp_mono; [by apply (registered_honest_except n t Hn Hu)|]. by intros [[out changed] err] [Hw _].
Qed.

(** C36: What a transformation reports.  Every transformation of the registry
    but removeWhitespace and htmlEntityDecode that reports neither a change
    nor an error returns its input. *)
Theorem registered_honest name t data :
  GetTransformation init' name = Some t → Forall (λ n, ToLower n ≠ ToLower name) unreliable → wf_bytes data →
  wp (t data) (λ '(out, changed, err), changed = false → err = None → out = data).
Proof.
  intros (n & Hn & E)%GetTransformation_registered Hu Hd. eapply wp_mono; [apply (registered_honest_except n t Hn); [|done]|].
  - intros H. rewrite Forall_forall in Hu. by apply (Hu n).
  - by intros [[out changed] err] [_ Hw].
Qed.

Lemma GetTransformation_ok n t name :
  (n, t) ∈ registered' → ToLower name = ToLower n → GetTransformation init' name = Some t.
Proof.
  intros Hn E. rewrite GetTransformation_eq. destruct (last (filter _ _)) as [[n' t']|] eqn:El.
  - apply last_in, list_elem_of_filter in El as [En Hn']. cbn [fst] in En. cbn [fmap option_fmap option_map snd].
    assert ((n', t') = (n, t)) as [= -> ->]; [|done]. apply registered_names; [done|done|congruence].
  - exfalso. apply last_None in El. assert ((n, t) ∈ filter (λ nt, ToLower nt.1 = ToLower name) registered') as H.
    { by apply list_elem_of_filter. }
    rewrite El in H. by apply elem_of_nil in H.
Qed.
(** The registry ignores case.  A name of the registry, written in any
    case, gives the transformation that it was registered with. *)
Theorem GetTransformation_finds n t name :
  (n, t) ∈ registered' → ToLower name = ToLower n → GetTransformation init' name = Some t.
Proof. apply GetTransformation_ok. Qed.
End theorems.

(** Libraries for the examples: no entity is known, and every digest is zero. *)
Definition exampleUnescape (s : bytes) : bytes := s.
Definition exampleSum (_ : bytes) : bytes := replicate 16 0.

Lemma exampleSum_wf s : wf_bytes s → wf_bytes (exampleSum s).
Proof. intros _. by apply wf_bytesb_true. Qed.

Definition exampleRegistry : registry := init (U := latin1) exampleUnescape exampleSum exampleSum false.

Lemma exampleRegistry_js : GetTransformation (U := latin1) exampleRegistry (str "JSDECODE") = Some jsDecode.
Proof.
  apply (GetTransformation_ok (U := latin1) exampleUnescape exampleSum exampleSum false (str "jsDecode")).
  - apply list_elem_of_In. cbn. tauto.
  - vm_compute. reflexivity.
Qed.

Lemma registered_total_witness : wp (jsDecode (str "\\u0041")) (λ '(out, _, _), wf_bytes out).
Proof.
  apply (registered_total (U := latin1) exampleUnescape exampleSum exampleSum false (λ s H, H) exampleSum_wf exampleSum_wf
    (str "JSDECODE") jsDecode (str "\\u0041") exampleRegistry_js). by apply wf_bytesb_true.
Defined.

Lemma registered_honest_witness : wp (jsDecode (str "plain")) (λ '(out, changed, err), changed = false → err = None → out = str "plain").
Proof.
  apply (registered_honest (U := latin1) exampleUnescape exampleSum exampleSum false exampleSum_wf exampleSum_wf
    (str "JSDECODE") jsDecode (str "plain") exampleRegistry_js).
  - apply (bool_decide_unpack _). vm_compute. reflexivity.
  - by apply wf_bytesb_true.
Defined.

Lemma GetTransformation_finds_witness : GetTransformation (U := latin1) exampleRegistry (str "JsDecode") = Some jsDecode.
Proof.
  apply (GetTransformation_finds (U := latin1) exampleUnescape exampleSum exampleSum false (str "jsDecode") jsDecode (str "JsDecode")).
  - apply list_elem_of_In. cbn. tauto.
  - vm_compute. reflexivity.
Defined.
