(* ===== verification/Variables.v ===== *)
(** The variables of the rule language:
    src/internal/variables/variables.go (the enumeration) and
    variablesmap.gen.go (their names, which ones take a key, and the parser of
    a name).  The constructors are kept in a module of their own because their
    names are short. *)

From S2P Require Import Prelude GoLib.

Module V.
Inductive RuleVariable : Set :=
| Unknown | ResponseContentType | UniqueID | ArgsCombinedSize | FilesCombinedSize
| FullRequestLength | InboundDataError | MatchedVar | MatchedVarName | MultipartDataAfter
| OutboundDataError | QueryString | RemoteAddr | RemoteHost | RemotePort | ReqbodyError
| ReqbodyErrorMsg | ReqbodyProcessorError | ReqbodyProcessorErrorMsg | ReqbodyProcessor
| RequestBasename | RequestBody | RequestBodyLength | RequestFilename | RequestLine
| RequestMethod | RequestProtocol | RequestURI | RequestURIRaw | ResponseBody
| ResponseContentLength | ResponseProtocol | ResponseStatus | ServerAddr | ServerName
| ServerPort | HighestSeverity | StatusLine | Duration | ResponseHeadersNames
| RequestHeadersNames | Args | ArgsGet | ArgsPost | ArgsPath | FilesSizes | FilesNames
| FilesTmpContent | MultipartFilename | MultipartName | MatchedVarsNames | MatchedVars | Files
| RequestCookies | RequestHeaders | ResponseHeaders | ResBodyProcessor | Geo
| RequestCookiesNames | FilesTmpNames | ArgsNames | ArgsGetNames | ArgsPostNames | TX | Rule
| JSON | Env | UrlencodedError | ResponseArgs | ResponseXML | RequestXML | XML
| MultipartPartHeaders | ResBodyError | ResBodyErrorMsg | ResBodyProcessorError
| ResBodyProcessorErrorMsg | Time | TimeDay | TimeEpoch | TimeHour | TimeMin | TimeMon
| TimeSec | TimeWday | TimeYear | AuthType | FullRequest | MultipartBoundaryQuoted
| MultipartBoundaryWhitespace | MultipartCrlfLfLines | MultipartDataBefore
| MultipartFileLimitExceeded | MultipartHeaderFolding | MultipartInvalidHeaderFolding
| MultipartInvalidPart | MultipartInvalidQuoting | MultipartLfLine | MultipartMissingSemicolon
| MultipartStrictError | MultipartUnmatchedBoundary | PathInfo | Sessionid | Userid | IP.
End V.
Abbreviation RuleVariable := V.RuleVariable.

(** The value of the enumeration. *)
Definition ord (v : RuleVariable) : Z :=
  match v with
  | V.Unknown => 0 | V.ResponseContentType => 1 | V.UniqueID => 2 | V.ArgsCombinedSize => 3
  | V.FilesCombinedSize => 4 | V.FullRequestLength => 5 | V.InboundDataError => 6
  | V.MatchedVar => 7 | V.MatchedVarName => 8 | V.MultipartDataAfter => 9
  | V.OutboundDataError => 10 | V.QueryString => 11 | V.RemoteAddr => 12 | V.RemoteHost => 13
  | V.RemotePort => 14 | V.ReqbodyError => 15 | V.ReqbodyErrorMsg => 16
  | V.ReqbodyProcessorError => 17 | V.ReqbodyProcessorErrorMsg => 18 | V.ReqbodyProcessor => 19
  | V.RequestBasename => 20 | V.RequestBody => 21 | V.RequestBodyLength => 22
  | V.RequestFilename => 23 | V.RequestLine => 24 | V.RequestMethod => 25
  | V.RequestProtocol => 26 | V.RequestURI => 27 | V.RequestURIRaw => 28 | V.ResponseBody => 29
  | V.ResponseContentLength => 30 | V.ResponseProtocol => 31 | V.ResponseStatus => 32
  | V.ServerAddr => 33 | V.ServerName => 34 | V.ServerPort => 35 | V.HighestSeverity => 36
  | V.StatusLine => 37 | V.Duration => 38 | V.ResponseHeadersNames => 39
  | V.RequestHeadersNames => 40 | V.Args => 41 | V.ArgsGet => 42 | V.ArgsPost => 43
  | V.ArgsPath => 44 | V.FilesSizes => 45 | V.FilesNames => 46 | V.FilesTmpContent => 47
  | V.MultipartFilename => 48 | V.MultipartName => 49 | V.MatchedVarsNames => 50
  | V.MatchedVars => 51 | V.Files => 52 | V.RequestCookies => 53 | V.RequestHeaders => 54
  | V.ResponseHeaders => 55 | V.ResBodyProcessor => 56 | V.Geo => 57
  | V.RequestCookiesNames => 58 | V.FilesTmpNames => 59 | V.ArgsNames => 60
  | V.ArgsGetNames => 61 | V.ArgsPostNames => 62 | V.TX => 63 | V.Rule => 64 | V.JSON => 65
  | V.Env => 66 | V.UrlencodedError => 67 | V.ResponseArgs => 68 | V.ResponseXML => 69
  | V.RequestXML => 70 | V.XML => 71 | V.MultipartPartHeaders => 72 | V.ResBodyError => 73
  | V.ResBodyErrorMsg => 74 | V.ResBodyProcessorError => 75 | V.ResBodyProcessorErrorMsg => 76
  | V.Time => 77 | V.TimeDay => 78 | V.TimeEpoch => 79 | V.TimeHour => 80 | V.TimeMin => 81
  | V.TimeMon => 82 | V.TimeSec => 83 | V.TimeWday => 84 | V.TimeYear => 85 | V.AuthType => 86
  | V.FullRequest => 87 | V.MultipartBoundaryQuoted => 88 | V.MultipartBoundaryWhitespace => 89
  | V.MultipartCrlfLfLines => 90 | V.MultipartDataBefore => 91
  | V.MultipartFileLimitExceeded => 92 | V.MultipartHeaderFolding => 93
  | V.MultipartInvalidHeaderFolding => 94 | V.MultipartInvalidPart => 95
  | V.MultipartInvalidQuoting => 96 | V.MultipartLfLine => 97
  | V.MultipartMissingSemicolon => 98 | V.MultipartStrictError => 99
  | V.MultipartUnmatchedBoundary => 100 | V.PathInfo => 101 | V.Sessionid => 102
  | V.Userid => 103 | V.IP => 104
  end.

(** The variables in the order of their values. *)
Definition allVariables : list RuleVariable :=
  [V.Unknown; V.ResponseContentType; V.UniqueID; V.ArgsCombinedSize; V.FilesCombinedSize;
   V.FullRequestLength; V.InboundDataError; V.MatchedVar; V.MatchedVarName;
   V.MultipartDataAfter; V.OutboundDataError; V.QueryString; V.RemoteAddr; V.RemoteHost;
   V.RemotePort; V.ReqbodyError; V.ReqbodyErrorMsg; V.ReqbodyProcessorError;
   V.ReqbodyProcessorErrorMsg; V.ReqbodyProcessor; V.RequestBasename; V.RequestBody;
   V.RequestBodyLength; V.RequestFilename; V.RequestLine; V.RequestMethod; V.RequestProtocol;
   V.RequestURI; V.RequestURIRaw; V.ResponseBody; V.ResponseContentLength; V.ResponseProtocol;
   V.ResponseStatus; V.ServerAddr; V.ServerName; V.ServerPort; V.HighestSeverity; V.StatusLine;
   V.Duration; V.ResponseHeadersNames; V.RequestHeadersNames; V.Args; V.ArgsGet; V.ArgsPost;
   V.ArgsPath; V.FilesSizes; V.FilesNames; V.FilesTmpContent; V.MultipartFilename;
   V.MultipartName; V.MatchedVarsNames; V.MatchedVars; V.Files; V.RequestCookies;
   V.RequestHeaders; V.ResponseHeaders; V.ResBodyProcessor; V.Geo; V.RequestCookiesNames;
   V.FilesTmpNames; V.ArgsNames; V.ArgsGetNames; V.ArgsPostNames; V.TX; V.Rule; V.JSON; V.Env;
   V.UrlencodedError; V.ResponseArgs; V.ResponseXML; V.RequestXML; V.XML;
   V.MultipartPartHeaders; V.ResBodyError; V.ResBodyErrorMsg; V.ResBodyProcessorError;
   V.ResBodyProcessorErrorMsg; V.Time; V.TimeDay; V.TimeEpoch; V.TimeHour; V.TimeMin;
   V.TimeMon; V.TimeSec; V.TimeWday; V.TimeYear; V.AuthType; V.FullRequest;
   V.MultipartBoundaryQuoted; V.MultipartBoundaryWhitespace; V.MultipartCrlfLfLines;
   V.MultipartDataBefore; V.MultipartFileLimitExceeded; V.MultipartHeaderFolding;
   V.MultipartInvalidHeaderFolding; V.MultipartInvalidPart; V.MultipartInvalidQuoting;
   V.MultipartLfLine; V.MultipartMissingSemicolon; V.MultipartStrictError;
   V.MultipartUnmatchedBoundary; V.PathInfo; V.Sessionid; V.Userid; V.IP].

Definition Name (v : RuleVariable) : bytes :=
  str match v with
  | V.Unknown => "UNKNOWN" | V.ResponseContentType => "RESPONSE_CONTENT_TYPE"
  | V.UniqueID => "UNIQUE_ID" | V.ArgsCombinedSize => "ARGS_COMBINED_SIZE"
  | V.FilesCombinedSize => "FILES_COMBINED_SIZE" | V.FullRequestLength => "FULL_REQUEST_LENGTH"
  | V.InboundDataError => "INBOUND_DATA_ERROR" | V.MatchedVar => "MATCHED_VAR"
  | V.MatchedVarName => "MATCHED_VAR_NAME" | V.MultipartDataAfter => "MULTIPART_DATA_AFTER"
  | V.OutboundDataError => "OUTBOUND_DATA_ERROR" | V.QueryString => "QUERY_STRING"
  | V.RemoteAddr => "REMOTE_ADDR" | V.RemoteHost => "REMOTE_HOST"
  | V.RemotePort => "REMOTE_PORT" | V.ReqbodyError => "REQBODY_ERROR"
  | V.ReqbodyErrorMsg => "REQBODY_ERROR_MSG"
  | V.ReqbodyProcessorError => "REQBODY_PROCESSOR_ERROR"
  | V.ReqbodyProcessorErrorMsg => "REQBODY_PROCESSOR_ERROR_MSG"
  | V.ReqbodyProcessor => "REQBODY_PROCESSOR" | V.RequestBasename => "REQUEST_BASENAME"
  | V.RequestBody => "REQUEST_BODY" | V.RequestBodyLength => "REQUEST_BODY_LENGTH"
  | V.RequestFilename => "REQUEST_FILENAME" | V.RequestLine => "REQUEST_LINE"
  | V.RequestMethod => "REQUEST_METHOD" | V.RequestProtocol => "REQUEST_PROTOCOL"
  | V.RequestURI => "REQUEST_URI" | V.RequestURIRaw => "REQUEST_URI_RAW"
  | V.ResponseBody => "RESPONSE_BODY" | V.ResponseContentLength => "RESPONSE_CONTENT_LENGTH"
  | V.ResponseProtocol => "RESPONSE_PROTOCOL" | V.ResponseStatus => "RESPONSE_STATUS"
  | V.ServerAddr => "SERVER_ADDR" | V.ServerName => "SERVER_NAME"
  | V.ServerPort => "SERVER_PORT" | V.HighestSeverity => "HIGHEST_SEVERITY"
  | V.StatusLine => "STATUS_LINE" | V.Duration => "DURATION"
  | V.ResponseHeadersNames => "RESPONSE_HEADERS_NAMES"
  | V.RequestHeadersNames => "REQUEST_HEADERS_NAMES" | V.Args => "ARGS"
  | V.ArgsGet => "ARGS_GET" | V.ArgsPost => "ARGS_POST" | V.ArgsPath => "ARGS_PATH"
  | V.FilesSizes => "FILES_SIZES" | V.FilesNames => "FILES_NAMES"
  | V.FilesTmpContent => "FILES_TMP_CONTENT" | V.MultipartFilename => "MULTIPART_FILENAME"
  | V.MultipartName => "MULTIPART_NAME" | V.MatchedVarsNames => "MATCHED_VARS_NAMES"
  | V.MatchedVars => "MATCHED_VARS" | V.Files => "FILES"
  | V.RequestCookies => "REQUEST_COOKIES" | V.RequestHeaders => "REQUEST_HEADERS"
  | V.ResponseHeaders => "RESPONSE_HEADERS" | V.ResBodyProcessor => "RES_BODY_PROCESSOR"
  | V.Geo => "GEO" | V.RequestCookiesNames => "REQUEST_COOKIES_NAMES"
  | V.FilesTmpNames => "FILES_TMPNAMES" | V.ArgsNames => "ARGS_NAMES"
  | V.ArgsGetNames => "ARGS_GET_NAMES" | V.ArgsPostNames => "ARGS_POST_NAMES" | V.TX => "TX"
  | V.Rule => "RULE" | V.JSON => "JSON" | V.Env => "ENV"
  | V.UrlencodedError => "URLENCODED_ERROR" | V.ResponseArgs => "RESPONSE_ARGS"
  | V.ResponseXML => "RESPONSE_XML" | V.RequestXML => "REQUEST_XML" | V.XML => "XML"
  | V.MultipartPartHeaders => "MULTIPART_PART_HEADERS" | V.ResBodyError => "RES_BODY_ERROR"
  | V.ResBodyErrorMsg => "RES_BODY_ERROR_MSG"
  | V.ResBodyProcessorError => "RES_BODY_PROCESSOR_ERROR"
  | V.ResBodyProcessorErrorMsg => "RES_BODY_PROCESSOR_ERROR_MSG" | V.Time => "TIME"
  | V.TimeDay => "TIME_DAY" | V.TimeEpoch => "TIME_EPOCH" | V.TimeHour => "TIME_HOUR"
  | V.TimeMin => "TIME_MIN" | V.TimeMon => "TIME_MON" | V.TimeSec => "TIME_SEC"
  | V.TimeWday => "TIME_WDAY" | V.TimeYear => "TIME_YEAR" | V.AuthType => "AUTH_TYPE"
  | V.FullRequest => "FULL_REQUEST" | V.MultipartBoundaryQuoted => "MULTIPART_BOUNDARY_QUOTED"
  | V.MultipartBoundaryWhitespace => "MULTIPART_BOUNDARY_WHITESPACE"
  | V.MultipartCrlfLfLines => "MULTIPART_CRLF_LF_LINES"
  | V.MultipartDataBefore => "MULTIPART_DATA_BEFORE"
  | V.MultipartFileLimitExceeded => "MULTIPART_FILE_LIMIT_EXCEEDED"
  | V.MultipartHeaderFolding => "MULTIPART_HEADER_FOLDING"
  | V.MultipartInvalidHeaderFolding => "MULTIPART_INVALID_HEADER_FOLDING"
  | V.MultipartInvalidPart => "MULTIPART_INVALID_PART"
  | V.MultipartInvalidQuoting => "MULTIPART_INVALID_QUOTING"
  | V.MultipartLfLine => "MULTIPART_LF_LINE"
  | V.MultipartMissingSemicolon => "MULTIPART_MISSING_SEMICOLON"
  | V.MultipartStrictError => "MULTIPART_STRICT_ERROR"
  | V.MultipartUnmatchedBoundary => "MULTIPART_UNMATCHED_BOUNDARY" | V.PathInfo => "PATH_INFO"
  | V.Sessionid => "SESSIONID" | V.Userid => "USERID" | V.IP => "IP"
  end.

Definition CanBeSelected (v : RuleVariable) : bool :=
  match v with
  | V.ResponseHeadersNames | V.RequestHeadersNames | V.Args | V.ArgsGet | V.ArgsPost
  | V.ArgsPath | V.FilesSizes | V.FilesNames | V.FilesTmpContent | V.MultipartFilename
  | V.MultipartName | V.MatchedVarsNames | V.MatchedVars | V.Files | V.RequestCookies
  | V.RequestHeaders | V.ResponseHeaders | V.Geo | V.RequestCookiesNames | V.FilesTmpNames
  | V.ArgsNames | V.ArgsGetNames | V.ArgsPostNames | V.TX | V.Rule | V.JSON | V.Env
  | V.ResponseArgs | V.ResponseXML | V.RequestXML | V.XML | V.MultipartPartHeaders => true
  | _ => false
  end.

Definition rulemapRevEntries : list (string * RuleVariable) :=
  [("UNKNOWN", V.Unknown); ("RESPONSE_CONTENT_TYPE", V.ResponseContentType);
   ("UNIQUE_ID", V.UniqueID); ("ARGS_COMBINED_SIZE", V.ArgsCombinedSize);
   ("FILES_COMBINED_SIZE", V.FilesCombinedSize); ("FULL_REQUEST_LENGTH", V.FullRequestLength);
   ("INBOUND_DATA_ERROR", V.InboundDataError); ("MATCHED_VAR", V.MatchedVar);
   ("MATCHED_VAR_NAME", V.MatchedVarName); ("MULTIPART_DATA_AFTER", V.MultipartDataAfter);
   ("OUTBOUND_DATA_ERROR", V.OutboundDataError); ("QUERY_STRING", V.QueryString);
   ("REMOTE_ADDR", V.RemoteAddr); ("REMOTE_HOST", V.RemoteHost); ("REMOTE_PORT", V.RemotePort);
   ("REQBODY_ERROR", V.ReqbodyError); ("REQBODY_ERROR_MSG", V.ReqbodyErrorMsg);
   ("REQBODY_PROCESSOR_ERROR", V.ReqbodyProcessorError);
   ("REQBODY_PROCESSOR_ERROR_MSG", V.ReqbodyProcessorErrorMsg);
   ("REQBODY_PROCESSOR", V.ReqbodyProcessor); ("REQUEST_BASENAME", V.RequestBasename);
   ("REQUEST_BODY", V.RequestBody); ("REQUEST_BODY_LENGTH", V.RequestBodyLength);
   ("REQUEST_FILENAME", V.RequestFilename); ("REQUEST_LINE", V.RequestLine);
   ("REQUEST_METHOD", V.RequestMethod); ("REQUEST_PROTOCOL", V.RequestProtocol);
   ("REQUEST_URI", V.RequestURI); ("REQUEST_URI_RAW", V.RequestURIRaw);
   ("RESPONSE_BODY", V.ResponseBody); ("RESPONSE_CONTENT_LENGTH", V.ResponseContentLength);
   ("RESPONSE_PROTOCOL", V.ResponseProtocol); ("RESPONSE_STATUS", V.ResponseStatus);
   ("SERVER_ADDR", V.ServerAddr); ("SERVER_NAME", V.ServerName); ("SERVER_PORT", V.ServerPort);
   ("HIGHEST_SEVERITY", V.HighestSeverity); ("STATUS_LINE", V.StatusLine);
   ("DURATION", V.Duration); ("RESPONSE_HEADERS_NAMES", V.ResponseHeadersNames);
   ("REQUEST_HEADERS_NAMES", V.RequestHeadersNames); ("ARGS", V.Args); ("ARGS_GET", V.ArgsGet);
   ("ARGS_POST", V.ArgsPost); ("ARGS_PATH", V.ArgsPath); ("FILES_SIZES", V.FilesSizes);
   ("FILES_NAMES", V.FilesNames); ("FILES_TMP_CONTENT", V.FilesTmpContent);
   ("MULTIPART_FILENAME", V.MultipartFilename); ("MULTIPART_NAME", V.MultipartName);
   ("MATCHED_VARS_NAMES", V.MatchedVarsNames); ("MATCHED_VARS", V.MatchedVars);
   ("FILES", V.Files); ("REQUEST_COOKIES", V.RequestCookies);
   ("REQUEST_HEADERS", V.RequestHeaders); ("RESPONSE_HEADERS", V.ResponseHeaders);
   ("RES_BODY_PROCESSOR", V.ResBodyProcessor); ("GEO", V.Geo);
   ("REQUEST_COOKIES_NAMES", V.RequestCookiesNames); ("FILES_TMPNAMES", V.FilesTmpNames);
   ("ARGS_NAMES", V.ArgsNames); ("ARGS_GET_NAMES", V.ArgsGetNames);
   ("ARGS_POST_NAMES", V.ArgsPostNames); ("TX", V.TX); ("RULE", V.Rule); ("JSON", V.JSON);
   ("ENV", V.Env); ("URLENCODED_ERROR", V.UrlencodedError); ("RESPONSE_ARGS", V.ResponseArgs);
   ("RESPONSE_XML", V.ResponseXML); ("REQUEST_XML", V.RequestXML); ("XML", V.XML);
   ("MULTIPART_PART_HEADERS", V.MultipartPartHeaders); ("RES_BODY_ERROR", V.ResBodyError);
   ("RES_BODY_ERROR_MSG", V.ResBodyErrorMsg);
   ("RES_BODY_PROCESSOR_ERROR", V.ResBodyProcessorError);
   ("RES_BODY_PROCESSOR_ERROR_MSG", V.ResBodyProcessorErrorMsg); ("TIME", V.Time);
   ("TIME_DAY", V.TimeDay); ("TIME_EPOCH", V.TimeEpoch); ("TIME_HOUR", V.TimeHour);
   ("TIME_MIN", V.TimeMin); ("TIME_MON", V.TimeMon); ("TIME_SEC", V.TimeSec);
   ("TIME_WDAY", V.TimeWday); ("TIME_YEAR", V.TimeYear); ("AUTH_TYPE", V.AuthType);
   ("FULL_REQUEST", V.FullRequest); ("MULTIPART_BOUNDARY_QUOTED", V.MultipartBoundaryQuoted);
   ("MULTIPART_BOUNDARY_WHITESPACE", V.MultipartBoundaryWhitespace);
   ("MULTIPART_CRLF_LF_LINES", V.MultipartCrlfLfLines);
   ("MULTIPART_DATA_BEFORE", V.MultipartDataBefore);
   ("MULTIPART_FILE_LIMIT_EXCEEDED", V.MultipartFileLimitExceeded);
   ("MULTIPART_HEADER_FOLDING", V.MultipartHeaderFolding);
   ("MULTIPART_INVALID_HEADER_FOLDING", V.MultipartInvalidHeaderFolding);
   ("MULTIPART_INVALID_PART", V.MultipartInvalidPart);
   ("MULTIPART_INVALID_QUOTING", V.MultipartInvalidQuoting);
   ("MULTIPART_LF_LINE", V.MultipartLfLine);
   ("MULTIPART_MISSING_SEMICOLON", V.MultipartMissingSemicolon);
   ("MULTIPART_STRICT_ERROR", V.MultipartStrictError);
   ("MULTIPART_UNMATCHED_BOUNDARY", V.MultipartUnmatchedBoundary); ("PATH_INFO", V.PathInfo);
   ("SESSIONID", V.Sessionid); ("USERID", V.Userid); ("IP", V.IP)].

Definition rulemapRev : gmap bytes RuleVariable :=
  list_to_map ((λ kv : string * RuleVariable, (str kv.1, kv.2)) <$> rulemapRevEntries).

Definition Parse `{Unicode} (v : bytes) : option RuleVariable := rulemapRev !! ToUpper v.

(** ** Decidable equality and countability, through the value *)

Lemma allVariables_ord v : allVariables !! Z.to_nat (ord v) = Some v.
Proof. by destruct v. Qed.

#[global] Instance ord_inj : Inj (=) (=) ord.
Proof.
  intros v w E. pose proof (allVariables_ord v) as Hv. rewrite E, allVariables_ord in Hv. congruence.
Qed.

#[global] Instance RuleVariable_eq_dec : EqDecision RuleVariable.
Proof. intros v w. destruct (decide (ord v = ord w)) as [E|N]; [left|right]; [by apply ord_inj|congruence]. Defined.

#[global] Instance RuleVariable_countable : Countable RuleVariable :=
  inj_countable ord (λ z, allVariables !! Z.to_nat z) allVariables_ord.

(** ** Names *)

Lemma allVariables_all v : v ∈ allVariables.
Proof. eapply list_elem_of_lookup_2, allVariables_ord. Qed.

Lemma forall_variables (P : RuleVariable → bool) : forallb P allVariables = true → ∀ v, P v = true.
Proof.
  intros H v. rewrite forallb_forall in H. apply H, list_elem_of_In, allVariables_all.
Qed.

Lemma Name_upper `{Unicode} v : ToUpper (Name v) = Name v.
Proof.
  assert (∀ v, asciib (Name v) && bool_decide (upperByte <$> Name v = Name v) = true) as H'.
  { apply forall_variables. by vm_compute. }
  specialize (H' v). apply andb_true_iff in H' as [H1 H2%bool_decide_eq_true].
  by rewrite ToUpper_ascii by (by apply asciib_true).
Qed.

Lemma rulemapRev_Name v : rulemapRev !! Name v = Some v.
Proof.
  apply (bool_decide_eq_true_1 _).
  exact (forall_variables (λ v, bool_decide (rulemapRev !! Name v = Some v)) ltac:(by vm_compute) v).
Qed.

Lemma rulemapRev_names k v : rulemapRev !! k = Some v → k = Name v.
Proof.
  intros H. apply elem_of_list_to_map_2 in H.
  assert (Forall (λ kv : bytes * RuleVariable, kv.1 = Name kv.2)
    ((λ kv : string * RuleVariable, (str kv.1, kv.2)) <$> rulemapRevEntries)) as HF.
  { apply (bool_decide_eq_true_1 _). by vm_compute. }
  rewrite Forall_forall in HF. by apply HF in H.
Qed.

(** Parsing the name of a variable, written in any case, gives that
    variable, and nothing else parses: the name table and the parser table,
    generated separately, agree on all variables. *)
Theorem Parse_Name `{Unicode} s v : Parse s = Some v ↔ ToUpper s = Name v.
Proof.
  unfold Parse. split; [apply rulemapRev_names|]. intros ->. apply rulemapRev_Name.
Qed.

(** Names identify variables. *)
#[global] Instance Name_inj : Inj (=) (=) Name.
Proof.
  intros v w E. pose proof (rulemapRev_Name v) as H. rewrite E, rulemapRev_Name in H. congruence.
Qed.
