(* ===== verification/Types.v ===== *)
(** The small types of the engine: src/types/phase.go, severity.go, waf.go and
    src/internal/corazatypes/allow_type.go, with their parsers. *)

From S2P Require Import Prelude GoLib.

(** ** Phases *)

Definition PhaseUnknown : Z := 0.
Definition PhaseRequestHeaders : Z := 1.
Definition PhaseRequestBody : Z := 2.
Definition PhaseResponseHeaders : Z := 3.
Definition PhaseResponseBody : Z := 4.
Definition PhaseLogging : Z := 5.

Definition ParseRulePhase (phase : bytes) : option Z :=
  let i := if phase =s str "request" then 2
           else if phase =s str "response" then 4
           else if phase =s str "logging" then 5
           else default 0 (Atoi phase) in
  if (i >? 5) || (i <? 1) then None else Some i.

(** ** Severities *)

Definition RuleSeverityUnset : Z := -1.

Definition severityNames : list bytes :=
  str <$> ["emergency"; "alert"; "critical"; "error"; "warning"; "notice"; "info"; "debug"].

(** [RuleSeverity.String] *)
Definition severityString (rs : Z) : bytes :=
  if rs =? 0 then str "emergency" else if rs =? 1 then str "alert"
  else if rs =? 2 then str "critical" else if rs =? 3 then str "error"
  else if rs =? 4 then str "warning" else if rs =? 5 then str "notice"
  else if rs =? 6 then str "info" else if rs =? 7 then str "debug"
  else str "unknown".

Definition ParseRuleSeverity `{Unicode} (input : bytes) : option Z :=
  if (length input =? 1)%nat then
    s ← Atoi input; if (s <? 0) || (s >? 7) then None else Some s
  else
    let l := ToLower input in
    if l =s str "emergency" then Some 0 else if l =s str "alert" then Some 1
    else if l =s str "critical" then Some 2 else if l =s str "error" then Some 3
    else if l =s str "warning" then Some 4 else if l =s str "notice" then Some 5
    else if l =s str "info" then Some 6 else if l =s str "debug" then Some 7
    else None.

(** ** Engine settings *)

Inductive AuditEngineStatus := AuditEngineOn | AuditEngineOff | AuditEngineRelevantOnly.
Inductive RuleEngineStatus := RuleEngineOn | RuleEngineDetectionOnly | RuleEngineOff.
Inductive UploadKeepFilesStatus := UploadKeepFilesOff | UploadKeepFilesOn | UploadKeepFilesRelevantOnly.
Inductive BodyLimitAction := BodyLimitActionProcessPartial | BodyLimitActionReject.
Inductive AllowType := AllowTypeUnset | AllowTypeAll | AllowTypePhase | AllowTypeRequest.

#[global] Instance AuditEngineStatus_eq_dec : EqDecision AuditEngineStatus.
Proof. solve_decision. Defined.
#[global] Instance RuleEngineStatus_eq_dec : EqDecision RuleEngineStatus.
Proof. solve_decision. Defined.
#[global] Instance UploadKeepFilesStatus_eq_dec : EqDecision UploadKeepFilesStatus.
Proof. solve_decision. Defined.
#[global] Instance BodyLimitAction_eq_dec : EqDecision BodyLimitAction.
Proof. solve_decision. Defined.
#[global] Instance AllowType_eq_dec : EqDecision AllowType.
Proof. solve_decision. Defined.

Definition ParseAuditEngineStatus `{Unicode} (as_ : bytes) : option AuditEngineStatus :=
  let l := ToLower as_ in
  if l =s str "on" then Some AuditEngineOn
  else if l =s str "off" then Some AuditEngineOff
  else if l =s str "relevantonly" then Some AuditEngineRelevantOnly
  else None.

Definition ParseRuleEngineStatus `{Unicode} (re : bytes) : option RuleEngineStatus :=
  let l := ToLower re in
  if l =s str "on" then Some RuleEngineOn
  else if l =s str "detectiononly" then Some RuleEngineDetectionOnly
  else if l =s str "off" then Some RuleEngineOff
  else None.

(** [RuleEngineStatus.String] *)
Definition ruleEngineString (re : RuleEngineStatus) : bytes :=
  match re with
  | RuleEngineOn => str "On"
  | RuleEngineDetectionOnly => str "DetectionOnly"
  | RuleEngineOff => str "Off"
  end.

Definition ParseUploadKeepFilesStatus `{Unicode} (s : bytes) : option UploadKeepFilesStatus :=
  let l := ToLower s in
  if l =s str "on" then Some UploadKeepFilesOn
  else if l =s str "off" then Some UploadKeepFilesOff
  else if l =s str "relevantonly" then Some UploadKeepFilesRelevantOnly
  else None.

(** ** Audit log parts *)

Abbreviation AuditLogParts := bytes (only parsing).

Definition orderedAuditLogParts : AuditLogParts := str "BCDEFGHIJK".

(** [AuditLogPart(p)] of a rune keeps its low byte. *)
Definition auditLogPart (p : Z) : Z := u8 p.

Definition ParseAuditLogParts (opts : bytes) : option AuditLogParts :=
  if negb (HasPrefix opts (str "A")) then None
  else if negb (HasSuffix opts (str "Z")) then None
  else
    let middleParts := take (length opts - 2) (drop 1 opts) in
    if forallb (λ p, byte_in (auditLogPart p) orderedAuditLogParts) (runes middleParts).*1
    then Some opts else None.

(** The set of the current parts after the modification. *)
Definition modifyParts (isAddition : bool) (partsToModify : list Z) (partsMap : gset Z) : gset Z :=
  foldl (λ m p, if isAddition then m ∪ {[auditLogPart p]} else m ∖ {[auditLogPart p]})
    partsMap partsToModify.

Definition ApplyAuditLogParts (base : AuditLogParts) (modification : bytes) : option AuditLogParts :=
  match modification with
  | [] => None
  | m0 :: rest =>
      if negb (m0 =? 0x2b) && negb (m0 =? 0x2d) then ParseAuditLogParts modification else
      let isAddition := m0 =? 0x2b in
      let partsToModify := (runes rest).*1 in
      if forallb (λ p, negb ((p =? 0x41) || (p =? 0x5a)) && byte_in (auditLogPart p) orderedAuditLogParts)
           partsToModify
      then
        let partsMap := modifyParts isAddition partsToModify (list_to_set base) in
        Some (filter (λ part, part ∈ partsMap) orderedAuditLogParts)
      else None
  end.

(** ** Interruptions *)

Record Interruption := mkInterruption {
  it_RuleID : Z;
  it_Action : bytes;
  it_Status : Z;
  it_Data : bytes;
}.

#[global] Instance Interruption_eq_dec : EqDecision Interruption.
Proof. solve_decision. Defined.

(** ** Phases and severities parse back *)

(** A phase parses exactly when it is one of the three names or a number
    from 1 to 5, so a parsed phase is a phase that the engine evaluates. *)
Theorem ParseRulePhase_spec s p :
  ParseRulePhase s = Some p ↔
  (s = str "request" ∧ p = PhaseRequestBody) ∨ (s = str "response" ∧ p = PhaseResponseBody) ∨
  (s = str "logging" ∧ p = PhaseLogging) ∨ (Atoi s = Some p ∧ 1 <= p <= 5).
Proof.
  unfold ParseRulePhase.
  destruct (s =s str "request") eqn:E1; [apply bytes_eqb_eq in E1 as ->; vm_compute; naive_solver|].
  destruct (s =s str "response") eqn:E2; [apply bytes_eqb_eq in E2 as ->; vm_compute; naive_solver|].
  destruct (s =s str "logging") eqn:E3; [apply bytes_eqb_eq in E3 as ->; vm_compute; naive_solver|].
  apply bytes_eqb_neq in E1, E2, E3.
  destruct (Atoi s) as [i|]; simpl; split_ifs; naive_solver lia.
Qed.

Lemma severity_names_lower `{Unicode} rs :
  0 <= rs <= 7 → ToLower (severityString rs) = severityString rs.
Proof.
  intros Hrs. assert (rs ∈ seqZ 0 8) as Hin by (apply elem_of_seqZ; lia).
  assert (Forall (λ rs, asciib (severityString rs) = true ∧
    lowerByte <$> severityString rs = severityString rs) (seqZ 0 8)) as HF.
  { apply (bool_decide_eq_true_1 _). by vm_compute. }
  rewrite Forall_forall in HF. destruct (HF rs Hin) as [Ha Hl].
  by rewrite ToLower_ascii by (by apply asciib_true).
Qed.

(** Every severity parses back from its name and from its digit; whatever
    parses is between emergency (0) and debug (7), never the unset value. *)
Theorem ParseRuleSeverity_String `{Unicode} rs :
  (0 <= rs <= 7 → ParseRuleSeverity (severityString rs) = Some rs ∧
                  ParseRuleSeverity (Itoa rs) = Some rs) ∧
  (∀ s, ParseRuleSeverity s = Some rs → 0 <= rs <= 7).
Proof.
  split.
  - intros Hrs. split.
    + unfold ParseRuleSeverity. rewrite severity_names_lower by done.
      assert (rs = 0 ∨ rs = 1 ∨ rs = 2 ∨ rs = 3 ∨ rs = 4 ∨ rs = 5 ∨ rs = 6 ∨ rs = 7)
        as [->|[->|[->|[->|[->|[->|[->| ->]]]]]]] by lia; by vm_compute.
    + unfold ParseRuleSeverity.
      assert (rs = 0 ∨ rs = 1 ∨ rs = 2 ∨ rs = 3 ∨ rs = 4 ∨ rs = 5 ∨ rs = 6 ∨ rs = 7)
        as [->|[->|[->|[->|[->|[->|[->| ->]]]]]]] by lia; by vm_compute.
  - intros s. unfold ParseRuleSeverity. destruct (length s =? 1)%nat.
    + destruct (Atoi s) as [i|]; simpl; [|done]. split_ifs; intros; simplify_eq; lia.
    + split_ifs; intros; simplify_eq; lia.
Qed.

(** ** Audit log parts *)

Lemma modifyParts_elem add ps m p :
  p ∈ modifyParts add ps m ↔
    if add then p ∈ m ∨ p ∈ auditLogPart <$> ps else p ∈ m ∧ p ∉ auditLogPart <$> ps.
Proof.
  unfold modifyParts. revert m. induction ps as [|q ps IH]; intros m; simpl.
  - destruct add; set_solver.
  - rewrite IH. destruct add; set_solver.
Qed.

(** A "+" or "-" modification yields the parts B to K of the base with the
    named parts added or removed, in canonical order and without duplicates. *)
Theorem ApplyAuditLogParts_spec base (add : bool) rest parts :
  ApplyAuditLogParts base ((if add then 0x2b else 0x2d) :: rest) = Some parts →
  (∀ p, p ∈ parts ↔ p ∈ orderedAuditLogParts ∧
     if add then p ∈ base ∨ p ∈ auditLogPart <$> (runes rest).*1
     else p ∈ base ∧ p ∉ auditLogPart <$> (runes rest).*1) ∧
  NoDup parts ∧ parts `sublist_of` orderedAuditLogParts.
Proof.
  intros H. unfold ApplyAuditLogParts in H.
  assert (parts = filter (λ part, part ∈ modifyParts add (runes rest).*1 (list_to_set base))
    orderedAuditLogParts) as ->.
  { destruct add; simpl in H; destruct (forallb _ _); by simplify_eq. }
  split; [|split].
  - intros p. rewrite list_elem_of_filter, modifyParts_elem.
    destruct add; rewrite elem_of_list_to_set; tauto.
  - apply NoDup_filter. apply (bool_decide_eq_true_1 _). by vm_compute.
  - apply sublist_filter.
Qed.

Lemma ApplyAuditLogParts_spec_witness :
  ∃ parts, ApplyAuditLogParts (str "ABCZ") (str "+EF") = Some parts ∧
    parts `sublist_of` orderedAuditLogParts.
Proof.
  exists (str "BCEF"). split; [by vm_compute|].
  apply (ApplyAuditLogParts_spec (str "ABCZ") true (str "EF")). by vm_compute.
Defined.

(** The mandatory parts A and Z of an absolute value are lost by any
    modification that is applied to it, although they are documented as parts
    that cannot be removed. *)
Theorem ApplyAuditLogParts_drops_mandatory base m0 rest parts :
  ApplyAuditLogParts base (m0 :: rest) = Some parts → m0 = 0x2b ∨ m0 = 0x2d →
  0x41 ∉ parts ∧ 0x5a ∉ parts.
Proof.
  intros H Hm. unfold ApplyAuditLogParts in H.
  destruct (negb (m0 =? 0x2b) && negb (m0 =? 0x2d)) eqn:E; [lia|].
  destruct (forallb _ _) in H; simplify_eq.
  split; rewrite list_elem_of_filter; intros [_ Hin]; revert Hin;
    apply (bool_decide_eq_false_1 _); by vm_compute.
Qed.

Lemma ApplyAuditLogParts_drops_mandatory_witness :
  0x41 ∉ str "BCE" ∧ 0x5a ∉ str "BCE".
Proof.
  apply (ApplyAuditLogParts_drops_mandatory (str "ABCZ") 0x2b (str "E")); [by vm_compute|by left].
Defined.
