(* ===== verification/Collections.v ===== *)
(** The collections of a transaction: src/internal/collections (map.go,
    named.go, concat.go, sized.go, single.go, noop.go, matches.go) and the
    match data of src/internal/corazarules/rule_match.go.

    A [Map] is a Go map from a folded key to the list of its entries, each with
    the key as it was written.  The order in which Go ranges over a map is not
    specified: it is the class [MapOrder], and what iterates over a map takes
    an instance.  Every statement about two iterations takes two instances. *)

From S2P Require Import Prelude GoLib Variables.

(** The order of a [range] over a map: some order of its entries. *)
Class MapOrder := {
  range : ∀ {A}, gmap bytes A → list (bytes * A);
  range_perm {A} (m : gmap bytes A) : range m ≡ₚ map_to_list m;
}.

(** A compiled regular expression, as its [MatchString]. *)
Definition regex : Type := bytes → bool.

(** ** Match data *)

Record MatchData := mkMatchData {
  Variable_ : RuleVariable;
  Key_ : bytes;
  Value_ : bytes;
  Message_ : bytes;
  Data_ : bytes;
  ChainLevel_ : Z;
}.
#[global] Instance MatchData_eta : Eta MatchData := λ x,
  mkMatchData x.(Variable_) x.(Key_) x.(Value_) x.(Message_) x.(Data_) x.(ChainLevel_).

#[global] Instance MatchData_eq_dec : EqDecision MatchData.
Proof. solve_decision. Defined.

(** The composite literals of the collections leave the last fields zero. *)
Definition matchData (v : RuleVariable) (key value : bytes) : MatchData :=
  mkMatchData v key value [] [] 0.

Record Match := mkMatch { m_Variable : RuleVariable; m_Key : bytes; m_Value : bytes }.

#[global] Instance Match_eq_dec : EqDecision Match.
Proof. solve_decision. Defined.

(** ** Map *)

Record keyValue := mkKV { kv_key : bytes; kv_value : bytes }.

#[global] Instance keyValue_eq_dec : EqDecision keyValue.
Proof. solve_decision. Defined.

Record Map := mkMap {
  isCaseSensitive : bool;
  data : gmap bytes (list keyValue);
  variable : RuleVariable;
}.
#[global] Instance Map_eta : Eta Map := λ x, mkMap x.(isCaseSensitive) x.(data) x.(variable).

Definition NewMap (v : RuleVariable) : Map := mkMap false ∅ v.
Definition NewCaseSensitiveKeyMap (v : RuleVariable) : Map := mkMap true ∅ v.

Section map.
Context `{!Unicode, !MapOrder}.
Implicit Types c : Map.

Definition foldKey c (key : bytes) : bytes :=
  if negb c.(isCaseSensitive) then ToLower key else key.

(** [c.data[key]], nil when the key is absent. *)
Definition entries c (key : bytes) : list keyValue := default [] (c.(data) !! key).

Definition Get c (key : bytes) : list bytes :=
  if (size c.(data) =? 0)%nat then []
  else kv_value <$> entries c (foldKey c key).

Definition mapMatch c (d : keyValue) : MatchData := matchData c.(variable) d.(kv_key) d.(kv_value).

Definition FindAll c : list MatchData := flat_map (λ kd, mapMatch c <$> kd.2) (range c.(data)).

Definition FindRegex c (key : regex) : list MatchData :=
  let matched := snd <$> filter (λ kd, key kd.1 = true) (range c.(data)) in
  flat_map (λ d, mapMatch c <$> d) matched.

Definition FindString c (key : bytes) : list MatchData :=
  if key =s [] then FindAll c
  else if (size c.(data) =? 0)%nat then []
  else mapMatch c <$> entries c (foldKey c key).

Definition asMatch c (d : keyValue) : Match := mkMatch c.(variable) d.(kv_key) d.(kv_value).

Definition AppendMatches c (result : list Match) : list Match :=
  foldl (λ r kd, foldl (λ r d, r ++ [asMatch c d]) r kd.2) result (range c.(data)).

Definition AppendMatchesRegex c (result : list Match) (key : regex) : list Match :=
  foldl (λ r kd, if negb (key kd.1) then r else foldl (λ r d, r ++ [asMatch c d]) r kd.2)
    result (range c.(data)).

Definition AppendMatchesString c (result : list Match) (key : bytes) : list Match :=
  if key =s [] then AppendMatches c result
  else foldl (λ r d, r ++ [asMatch c d]) result (entries c (foldKey c key)).

Definition Add c (key value : bytes) : Map :=
  let aVal := mkKV key value in
  let key := foldKey c key in
  c <| data ::= <[key := entries c key ++ [aVal]]> |>.

(** The reuse of the backing array when its capacity allows is not visible:
    no other slice shares it. *)
Definition Set_ c (key : bytes) (values : list bytes) : Map :=
  let originalKey := key in
  let key := foldKey c key in
  c <| data ::= <[key := mkKV originalKey <$> values]> |>.

Definition SetIndex c (key : bytes) (i : Z) (value : bytes) : run Map :=
  let originalKey := key in
  let key := foldKey c key in
  let values := entries c key in
  let av := mkKV originalKey value in
  if (length values =? 0)%nat then Done (c <| data ::= <[key := [av]]> |>)
  else if Z.of_nat (length values) <=? i then Done (c <| data ::= <[key := values ++ [av]]> |>)
  else if i <? 0 then Panic
  else values ← store values (Z.to_nat i) av; Done (c <| data ::= <[key := values]> |>).

Definition Remove c (key : bytes) : Map :=
  let key := foldKey c key in
  if (size c.(data) =? 0)%nat then c else c <| data ::= delete key |>.

Definition Reset c : Map := c <| data := ∅ |>.

Definition Len c : Z := Z.of_nat (size c.(data)).

(** ** NamedCollectionNames: the keys of a named collection *)

Definition nameMatch (rv : RuleVariable) (d : keyValue) : MatchData :=
  matchData rv d.(kv_key) d.(kv_key).
Definition nameAsMatch (rv : RuleVariable) (d : keyValue) : Match :=
  mkMatch rv d.(kv_key) d.(kv_key).

Definition Names_FindAll rv c : list MatchData :=
  flat_map (λ kd, nameMatch rv <$> kd.2) (range c.(data)).

Definition Names_FindRegex rv c (key : regex) : list MatchData :=
  let matched := snd <$> filter (λ kd, key kd.1 = true) (range c.(data)) in
  flat_map (λ d, nameMatch rv <$> d) matched.

Definition Names_FindString rv c (key : bytes) : list MatchData := nameMatch rv <$> entries c key.

Definition Names_AppendMatches rv c (result : list Match) : list Match :=
  foldl (λ r kd, foldl (λ r d, r ++ [nameAsMatch rv d]) r kd.2) result (range c.(data)).

Definition Names_AppendMatchesRegex rv c (result : list Match) (key : regex) : list Match :=
  foldl (λ r kd, if negb (key kd.1) then r else foldl (λ r d, r ++ [nameAsMatch rv d]) r kd.2)
    result (range c.(data)).

Definition Names_AppendMatchesString rv c (result : list Match) (key : bytes) : list Match :=
  foldl (λ r d, r ++ [nameAsMatch rv d]) result (entries c key).
End map.

(** ** Views *)

(** The keyed collections that a transaction concatenates. *)
Inductive KeyedView :=
| KMap (c : Map)
| KNames (rv : RuleVariable) (c : Map).

(** What [Transaction.Collection] returns: a single value, a keyed collection,
    a concatenation, a total size, or nothing. *)
Inductive View :=
| VSingle (v : RuleVariable) (value : bytes)
| VKeyed (k : KeyedView)
| VConcatKeyed (v : RuleVariable) (ks : list KeyedView)
| VSize (v : RuleVariable) (cs : list Map)
| VNoop.

Section views.
Context `{!Unicode, !MapOrder}.

Definition Keyed_FindAll (k : KeyedView) : list MatchData :=
  match k with KMap c => FindAll c | KNames rv c => Names_FindAll rv c end.
Definition Keyed_FindRegex (k : KeyedView) (key : regex) : list MatchData :=
  match k with KMap c => FindRegex c key | KNames rv c => Names_FindRegex rv c key end.
Definition Keyed_FindString (k : KeyedView) (key : bytes) : list MatchData :=
  match k with KMap c => FindString c key | KNames rv c => Names_FindString rv c key end.
Definition Keyed_Get (k : KeyedView) (key : bytes) : list bytes :=
  match k with KMap c => Get c key | KNames rv c => Get c key end.

Definition Keyed_AppendMatches (k : KeyedView) (r : list Match) : list Match :=
  match k with KMap c => AppendMatches c r | KNames rv c => Names_AppendMatches rv c r end.
Definition Keyed_AppendMatchesRegex (k : KeyedView) (r : list Match) (key : regex) : list Match :=
  match k with KMap c => AppendMatchesRegex c r key | KNames rv c => Names_AppendMatchesRegex rv c r key end.
Definition Keyed_AppendMatchesString (k : KeyedView) (r : list Match) (key : bytes) : list Match :=
  match k with KMap c => AppendMatchesString c r key | KNames rv c => Names_AppendMatchesString rv c r key end.

Definition replaceVariable (v : RuleVariable) (md : list MatchData) : list MatchData :=
  (λ m, m <| Variable_ := v |>) <$> md.

(** [setMatchVariable(result[start:], v)] *)
Definition setMatchVariable (start : nat) (v : RuleVariable) (r : list Match) : list Match :=
  take start r ++ ((λ m, mkMatch v m.(m_Key) m.(m_Value)) <$> drop start r).

Definition Concat_Get (ks : list KeyedView) (key : bytes) : list bytes :=
  let keyL := ToLower key in
  foldl (λ res k, res ++ Keyed_Get k keyL) [] ks.
Definition Concat_FindAll v (ks : list KeyedView) : list MatchData :=
  foldl (λ res k, res ++ replaceVariable v (Keyed_FindAll k)) [] ks.
Definition Concat_FindRegex v (ks : list KeyedView) (key : regex) : list MatchData :=
  foldl (λ res k, res ++ replaceVariable v (Keyed_FindRegex k key)) [] ks.
Definition Concat_FindString v (ks : list KeyedView) (key : bytes) : list MatchData :=
  foldl (λ res k, res ++ replaceVariable v (Keyed_FindString k key)) [] ks.

(** All the concatenated collections are appenders. *)
Definition Concat_AppendMatches v (ks : list KeyedView) (r : list Match) : list Match :=
  foldl (λ r k, setMatchVariable (length r) v (Keyed_AppendMatches k r)) r ks.
Definition Concat_AppendMatchesRegex v ks (r : list Match) (key : regex) : list Match :=
  foldl (λ r k, setMatchVariable (length r) v (Keyed_AppendMatchesRegex k r key)) r ks.
Definition Concat_AppendMatchesString v ks (r : list Match) (key : bytes) : list Match :=
  foldl (λ r k, setMatchVariable (length r) v (Keyed_AppendMatchesString k r key)) r ks.

(** [SizeCollection.size] *)
Definition collectionSize (cs : list Map) : Z :=
  foldl (λ i c, foldl (λ i kd, foldl (λ i v,
    i + (Z.of_nat (length v.(kv_key)) + Z.of_nat (length v.(kv_value)))) i kd.2)
    i (range c.(data))) 0 cs.

Definition View_FindAll (w : View) : list MatchData :=
  match w with
  | VSingle v value => [matchData v [] value]
  | VKeyed k => Keyed_FindAll k
  | VConcatKeyed v ks => Concat_FindAll v ks
  | VSize v cs => [matchData v [] (Itoa (collectionSize cs))]
  | VNoop => []
  end.

Definition View_AppendMatches (w : View) (r : list Match) : list Match :=
  match w with
  | VSingle v value => r ++ [mkMatch v [] value]
  | VKeyed k => Keyed_AppendMatches k r
  | VConcatKeyed v ks => Concat_AppendMatches v ks r
  | VSize v cs => r ++ [mkMatch v [] (Itoa (collectionSize cs))]
  | VNoop => r
  end.
End views.

(** ** The appenders and the finders agree *)

Definition toMatch (m : MatchData) : Match := mkMatch m.(Variable_) m.(Key_) m.(Value_).

Lemma foldl_append {A B} (f : A → B) (l : list A) r : foldl (λ r x, r ++ [f x]) r l = r ++ (f <$> l).
Proof.
  revert r. induction l as [|x l IH]; intros r; csimpl; [by rewrite app_nil_r|].
  rewrite IH. by rewrite <- app_assoc.
Qed.

Lemma foldl_flat_map {A B} (f : A → list B) (l : list A) r :
  foldl (λ r x, r ++ f x) r l = r ++ flat_map f l.
Proof.
  revert r. induction l as [|x l IH]; intros r; csimpl; [by rewrite app_nil_r|].
  rewrite IH. by rewrite <- app_assoc.
Qed.

Lemma foldl_ext_eq {A B} (f g : A → B → A) l r :
  (∀ r x, f r x = g r x) → foldl f r l = foldl g r l.
Proof. intros H. revert r. induction l as [|x l IH]; intros r; simpl; [done|]. by rewrite H, IH. Qed.

Lemma fmap_flat_map {A B C} (f : B → C) (g : A → list B) l :
  f <$> flat_map g l = flat_map (λ x, f <$> g x) l.
Proof. induction l as [|x l IH]; [done|]. csimpl. by rewrite fmap_app, IH. Qed.

Lemma flat_map_fmap {A B C} (f : A → B) (g : B → list C) l :
  flat_map g (f <$> l) = flat_map (λ x, g (f x)) l.
Proof. induction l as [|x l IH]; [done|]. csimpl. by rewrite IH. Qed.

Lemma flat_map_perm {A B} (f : A → list B) l k : l ≡ₚ k → flat_map f l ≡ₚ flat_map f k.
Proof.
  induction 1 as [| |x y l|]; [done|simpl; by f_equiv| |by etrans].
  simpl. by rewrite !app_assoc, (Permutation_app_comm (f y)).
Qed.

Lemma flat_map_if {A B} (b : A → bool) (f : A → list B) l :
  flat_map (λ x, if b x then f x else []) l = flat_map f (filter (λ x, b x = true) l).
Proof.
  induction l as [|x l IH]; [done|]. simpl. rewrite filter_cons.
  destruct (b x) eqn:E; [rewrite decide_True by done|rewrite decide_False by done]; simpl; by rewrite IH.
Qed.

Lemma flat_map_ext_eq {A B} (f g : A → list B) l : (∀ x, f x = g x) → flat_map f l = flat_map g l.
Proof. intros H. induction l as [|x l IH]; [done|]. simpl. by rewrite H, IH. Qed.

(** [foldl_append] under the two loops of the appenders. *)
Lemma foldl2_append {A B C} (f : A → B) (g : C → list A) (b : C → bool) l r :
  foldl (λ r x, if negb (b x) then r else foldl (λ r d, r ++ [f d]) r (g x)) r l =
  r ++ flat_map (λ x, f <$> g x) (filter (λ x, b x = true) l).
Proof.
  rewrite <- flat_map_if, <- foldl_flat_map. apply foldl_ext_eq. intros r' x.
  destruct (b x); simpl; [apply foldl_append|by rewrite app_nil_r].
Qed.

Lemma foldl2_append_all {A B C} (f : A → B) (g : C → list A) l r :
  foldl (λ r x, foldl (λ r d, r ++ [f d]) r (g x)) r l = r ++ flat_map (λ x, f <$> g x) l.
Proof. rewrite <- foldl_flat_map. apply foldl_ext_eq. intros. apply foldl_append. Qed.

(** The match data of a keyed collection, in terms of its entries. *)
Definition Keyed_var (k : KeyedView) : RuleVariable :=
  match k with KMap c => c.(variable) | KNames rv c => rv end.
Definition Keyed_data (k : KeyedView) : gmap bytes (list keyValue) :=
  match k with KMap c | KNames _ c => c.(data) end.
Definition Keyed_match (k : KeyedView) (d : keyValue) : Match :=
  match k with KMap c => asMatch c d | KNames rv _ => nameAsMatch rv d end.

Section appenders.
Context `{!Unicode}.

Lemma Keyed_FindAll_eq (o : MapOrder) k :
  toMatch <$> Keyed_FindAll k = flat_map (λ kd, Keyed_match k <$> kd.2) (range (Keyed_data k)).
Proof.
  destruct k as [c|rv c]; simpl; unfold FindAll, Names_FindAll; rewrite fmap_flat_map;
    apply flat_map_ext_eq; intros x; rewrite <- list_fmap_compose; by apply list_fmap_ext.
Qed.

Lemma Keyed_AppendMatches_eq (o : MapOrder) k r :
  Keyed_AppendMatches k r = r ++ flat_map (λ kd, Keyed_match k <$> kd.2) (range (Keyed_data k)).
Proof. destruct k; apply foldl2_append_all. Qed.

Lemma Keyed_FindRegex_eq (o : MapOrder) k key :
  toMatch <$> Keyed_FindRegex k key =
  flat_map (λ kd, Keyed_match k <$> kd.2) (filter (λ kd, key kd.1 = true) (range (Keyed_data k))).
Proof.
  destruct k as [c|rv c]; simpl; unfold FindRegex, Names_FindRegex;
    rewrite fmap_flat_map, flat_map_fmap; apply flat_map_ext_eq; intros x;
    rewrite <- list_fmap_compose; by apply list_fmap_ext.
Qed.

Lemma Keyed_AppendMatchesRegex_eq (o : MapOrder) k r key :
  Keyed_AppendMatchesRegex k r key =
  r ++ flat_map (λ kd, Keyed_match k <$> kd.2) (filter (λ kd, key kd.1 = true) (range (Keyed_data k))).
Proof. destruct k; exact (foldl2_append _ snd (λ kd, key kd.1) _ r). Qed.

Lemma range_perm2 (o1 o2 : MapOrder) {A} (m : gmap bytes A) :
  @range o1 A m ≡ₚ @range o2 A m.
Proof. by rewrite !range_perm. Qed.

Lemma entries_empty c key : size c.(data) = 0%nat → entries c key = [].
Proof. intros Hs%map_size_empty_inv. unfold entries. by rewrite Hs, lookup_empty. Qed.

Lemma Keyed_String_eq (o1 o2 : MapOrder) k r key :
  ∃ l, toMatch <$> @Keyed_FindString _ o1 k key ≡ₚ l ∧
       @Keyed_AppendMatchesString _ o2 k r key = r ++ l.
Proof.
  destruct k as [c|rv c]; simpl.
  - unfold FindString, AppendMatchesString. destruct (key =s []) eqn:E.
    + eexists. split; [|apply (Keyed_AppendMatches_eq o2 (KMap c))].
      etrans; [apply reflexive_eq, (Keyed_FindAll_eq o1 (KMap c))|]. apply flat_map_perm, range_perm2.
    + rewrite foldl_append. eexists. split; [|done].
      destruct (size c.(data) =? 0)%nat eqn:Es.
      * apply Nat.eqb_eq in Es. by rewrite entries_empty.
      * rewrite <- list_fmap_compose. by apply reflexive_eq, list_fmap_ext.
  - unfold Names_FindString, Names_AppendMatchesString. rewrite foldl_append.
    eexists. split; [|done]. rewrite <- list_fmap_compose. by apply reflexive_eq, list_fmap_ext.
Qed.
End appenders.

Lemma replaceVariable_toMatch v l :
  toMatch <$> replaceVariable v l = (λ m, mkMatch v m.(m_Key) m.(m_Value)) <$> (toMatch <$> l).
Proof. unfold replaceVariable. rewrite <- !list_fmap_compose. by apply list_fmap_ext. Qed.

Lemma setMatchVariable_app v r l :
  setMatchVariable (length r) v (r ++ l) = r ++ ((λ m, mkMatch v m.(m_Key) m.(m_Value)) <$> l).
Proof. unfold setMatchVariable. by rewrite take_app_length, drop_app_length. Qed.

(** The concatenation of finders and appenders that agree one by one. *)
Lemma Concat_agree v (find : KeyedView → list MatchData) (app : KeyedView → list Match → list Match) ks r :
  (∀ k r, ∃ l, toMatch <$> find k ≡ₚ l ∧ app k r = r ++ l) →
  ∃ l, toMatch <$> foldl (λ res k, res ++ replaceVariable v (find k)) [] ks ≡ₚ l ∧
       foldl (λ r k, setMatchVariable (length r) v (app k r)) r ks = r ++ l.
Proof.
  intros H. rewrite foldl_flat_map, app_nil_l. revert r.
  induction ks as [|k ks IH]; intros r; simpl; [exists []; by rewrite app_nil_r|].
  destruct (H k r) as (l & Hp & ->). rewrite setMatchVariable_app.
  destruct (IH (r ++ ((λ m, mkMatch v m.(m_Key) m.(m_Value)) <$> l))) as (l' & Hp' & ->).
  eexists. rewrite <- app_assoc. split; [|done].
  by rewrite fmap_app, replaceVariable_toMatch, Hp, Hp'.
Qed.

Section agreement.
Context `{U : !Unicode}.

Lemma Keyed_All_agree (o1 o2 : MapOrder) k r :
  ∃ l, toMatch <$> @Keyed_FindAll o1 k ≡ₚ l ∧ @Keyed_AppendMatches o2 k r = r ++ l.
Proof.
  eexists. split; [|apply Keyed_AppendMatches_eq]. rewrite Keyed_FindAll_eq.
  apply flat_map_perm, range_perm2.
Qed.

Lemma Keyed_Regex_agree (o1 o2 : MapOrder) key k r :
  ∃ l, toMatch <$> @Keyed_FindRegex o1 k key ≡ₚ l ∧ @Keyed_AppendMatchesRegex o2 k r key = r ++ l.
Proof.
  eexists. split; [|apply Keyed_AppendMatchesRegex_eq]. rewrite Keyed_FindRegex_eq.
  apply flat_map_perm. by rewrite (range_perm2 o1 o2).
Qed.

Lemma collectionSize_sum (o : MapOrder) cs :
  collectionSize cs =
  Z.of_nat (sum_list (flat_map (λ c, flat_map (λ kd : bytes * list keyValue,
    (λ v, length v.(kv_key) + length v.(kv_value))%nat <$> kd.2) (range c.(data))) cs)).
Proof.
  unfold collectionSize. rewrite <- (Nat.add_0_l (sum_list _)). change 0 with (Z.of_nat 0).
  generalize O as n.
  assert (Hin : ∀ (l : list keyValue) n,
    foldl (λ i v, i + (Z.of_nat (length v.(kv_key)) + Z.of_nat (length v.(kv_value)))) (Z.of_nat n) l =
    Z.of_nat (n + sum_list ((λ v, length v.(kv_key) + length v.(kv_value))%nat <$> l))).
  { induction l as [|v l IH]; intros n; csimpl; [lia|].
    rewrite <- Nat2Z.inj_add, <- Nat2Z.inj_add, IH. lia. }
  assert (Hmid : ∀ (l : list (bytes * list keyValue)) n,
    foldl (λ i kd, foldl (λ i v, i + (Z.of_nat (length v.(kv_key)) + Z.of_nat (length v.(kv_value)))) i kd.2)
      (Z.of_nat n) l =
    Z.of_nat (n + sum_list (flat_map (λ kd : bytes * list keyValue,
      (λ v, length v.(kv_key) + length v.(kv_value))%nat <$> kd.2) l))).
  { induction l as [|kd l IH]; intros n; simpl; [lia|]. rewrite Hin, IH, sum_list_with_app. lia. }
  induction cs as [|c cs IH]; intros n; simpl; [lia|]. rewrite Hmid, IH, sum_list_with_app. lia.
Qed.

Lemma collectionSize_order (o1 o2 : MapOrder) cs : @collectionSize o1 cs = @collectionSize o2 cs.
Proof.
  rewrite !collectionSize_sum. f_equal. apply (sum_list_with_Permutation_proper id).
  induction cs as [|c cs IH]; [done|]. simpl. f_equiv; [|done].
  apply flat_map_perm, range_perm2.
Qed.
End agreement.

Lemma View_agree `{U : Unicode} (o1 o2 : MapOrder) w r :
  ∃ l, toMatch <$> @View_FindAll o1 w ≡ₚ l ∧ @View_AppendMatches o2 w r = r ++ l.
Proof.
  destruct w as [v' value|k|v' ks'|v' cs|]; simpl.
  - by eexists.
  - apply Keyed_All_agree.
  - apply Concat_agree. intros. apply Keyed_All_agree.
  - rewrite (collectionSize_order o1 o2). by eexists.
  - exists []. by rewrite app_nil_r.
Qed.

(** For every collection of a transaction, the allocation-free appenders
    append exactly what the finders return (variable, key and value of every
    match), whatever the iteration orders of the two traversals: for all the
    values, for a regular expression and for a key, on single values, maps,
    names, concatenations and sizes. *)
Theorem appenders_agree `{U : Unicode} (o1 o2 : MapOrder) (r : list Match) (v : RuleVariable)
    (w : View) (ks : list KeyedView) (key : regex) (s : bytes) :
  (∃ l, toMatch <$> @View_FindAll o1 w ≡ₚ l ∧ @View_AppendMatches o2 w r = r ++ l) ∧
  (∃ l, toMatch <$> @Concat_FindRegex o1 v ks key ≡ₚ l ∧
        @Concat_AppendMatchesRegex o2 v ks r key = r ++ l) ∧
  (∃ l, toMatch <$> @Concat_FindString U o1 v ks s ≡ₚ l ∧
        @Concat_AppendMatchesString U o2 v ks r s = r ++ l) ∧
  (∀ k, ∃ l, toMatch <$> @Keyed_FindRegex o1 k key ≡ₚ l ∧
        @Keyed_AppendMatchesRegex o2 k r key = r ++ l) ∧
  (∀ k, ∃ l, toMatch <$> @Keyed_FindString U o1 k s ≡ₚ l ∧
        @Keyed_AppendMatchesString U o2 k r s = r ++ l).
Proof.
  split; [|split; [|split; [|split]]].
  - apply View_agree.
  - apply Concat_agree. intros. apply Keyed_Regex_agree.
  - apply Concat_agree. intros. apply Keyed_String_eq.
  - intros k. apply Keyed_Regex_agree.
  - intros k. apply Keyed_String_eq.
Qed.

(** ** The laws of a map *)

(** Entries are stored under the folded form of the key they were added with. *)
Definition wf_map `{Unicode} (c : Map) : Prop :=
  ∀ k l, c.(data) !! k = Some l → Forall (λ d, foldKey c d.(kv_key) = k) l.

Section laws.
Context `{U : !Unicode}.
Implicit Types c : Map.

Lemma Get_entries c key : Get c key = kv_value <$> entries c (foldKey c key).
Proof.
  unfold Get. destruct (size c.(data) =? 0)%nat eqn:E; [|done].
  apply Nat.eqb_eq in E. by rewrite entries_empty.
Qed.

(** The entries after the entries of one key are replaced. *)
Lemma entries_update c key l key' :
  entries (c <| data ::= <[key := l]> |>) key' = if decide (key = key') then l else entries c key'.
Proof.
  unfold entries. cbn. case_decide; subst; [by rewrite lookup_insert_eq|by rewrite lookup_insert_ne].
Qed.

Lemma wf_update c key l :
  wf_map c → Forall (λ d, foldKey c d.(kv_key) = key) l → wf_map (c <| data ::= <[key := l]> |>).
Proof.
  intros Hwf Hl k l'. cbn. destruct (decide (key = k)) as [->|Hne].
  - rewrite lookup_insert_eq. by intros [= <-].
  - rewrite lookup_insert_ne by done. apply Hwf.
Qed.

Lemma wf_entries c key : wf_map c → Forall (λ d, foldKey c d.(kv_key) = key) (entries c key).
Proof. intros Hwf. unfold entries. destruct (c.(data) !! key) eqn:E; [by eapply Hwf|constructor]. Qed.

Lemma wf_NewMap v : wf_map (NewMap v).
Proof. intros k l. cbn. by rewrite lookup_empty. Qed.

Lemma wf_Add c key value : wf_map c → wf_map (Add c key value).
Proof.
  intros Hwf. apply wf_update; [done|]. apply Forall_app. split; [by apply wf_entries|by constructor].
Qed.

Lemma wf_Set c key values : wf_map c → wf_map (Set_ c key values).
Proof. intros Hwf. apply wf_update; [done|]. apply Forall_fmap. by apply Forall_true. Qed.

Lemma wf_SetIndex c key i value c' : wf_map c → SetIndex c key i value = Done c' → wf_map c'.
Proof.
  intros Hwf Hs. unfold SetIndex in Hs. pose proof (wf_entries c (foldKey c key) Hwf) as He.
  destruct (_ =? _)%nat; [simplify_eq; apply wf_update; [done|by constructor]|].
  destruct (_ <=? _); [simplify_eq; apply wf_update; [done|apply Forall_app; split; [done|by constructor]]|].
  destruct (i <? 0); [done|]. unfold store in Hs. case_decide; [|done]. simpl in Hs. simplify_eq.
  apply wf_update; [done|]. by apply Forall_insert.
Qed.

Lemma wf_Remove c key : wf_map c → wf_map (Remove c key).
Proof.
  intros Hwf. unfold Remove. case_match; [done|]. intros k l. cbn.
  rewrite lookup_delete_Some. intros [_ ?]. by eapply Hwf.
Qed.

Lemma Remove_entries c key key' :
  entries (Remove c key) key' = if decide (foldKey c key = key') then [] else entries c key'.
Proof.
  unfold Remove. destruct (size c.(data) =? 0)%nat eqn:E.
  - apply Nat.eqb_eq in E. rewrite entries_empty by done. by case_decide.
  - unfold entries. cbn. case_decide; subst; [by rewrite lookup_delete_eq|by rewrite lookup_delete_ne].
Qed.

Lemma SetIndex_spec c key i value :
  ∃ l, SetIndex c key (Z.of_nat i) value = Done (c <| data ::= <[foldKey c key := l]> |>) ∧
    kv_value <$> l = if decide (i < length (Get c key))%nat
                     then <[i := value]> (Get c key) else Get c key ++ [value].
Proof.
  unfold SetIndex. rewrite Get_entries, length_fmap. set (l := entries c (foldKey c key)).
  destruct (length l =? 0)%nat eqn:E0.
  - exists [mkKV key value]. split; [done|]. rewrite decide_False by lia.
    destruct l; [done|simpl in E0; lia].
  - destruct (Z.of_nat (length l) <=? Z.of_nat i) eqn:E1.
    + eexists. split; [done|]. rewrite decide_False, fmap_app by lia. done.
    + assert ((Z.of_nat i <? 0) = false) as -> by lia.
      rewrite Nat2Z.id, store_lt by lia. eexists. split; [done|].
      rewrite decide_True by lia. by rewrite list_fmap_insert.
Qed.
End laws.

(** The operations of a map, read back with [Get]: under keys with the same
    folded form [Add] appends, [Set] replaces, [Remove] empties and [SetIndex]
    replaces one value or appends when the index is past the end; other keys
    are untouched. *)
Theorem Get_laws `{U : Unicode} (c : Map) (key key' value : bytes) (values : list bytes) (i : nat) :
  let same := decide (foldKey c key = foldKey c key') in
  Get (Add c key value) key' = (if same then Get c key' ++ [value] else Get c key') ∧
  Get (Set_ c key values) key' = (if same then values else Get c key') ∧
  Get (Remove c key) key' = (if same then [] else Get c key') ∧
  (∃ c', SetIndex c key (Z.of_nat i) value = Done c' ∧
    Get c' key' = if same then
      (if decide (i < length (Get c key))%nat then <[i := value]> (Get c key') else Get c key' ++ [value])
      else Get c key').
Proof.
  rewrite !Get_entries. change (foldKey (Add _ _ _) key') with (foldKey c key').
  change (foldKey (Set_ _ _ _) key') with (foldKey c key').
  assert (foldKey (Remove c key) key' = foldKey c key') as -> by (unfold Remove; by case_match).
  unfold Add, Set_. rewrite !entries_update, Remove_entries.
  split; [|split; [|split]]; [case_decide as E; [rewrite <- E, fmap_app|]; done| |by case_decide|].
  { case_decide; [|done]. rewrite <- list_fmap_compose. apply list_fmap_id. }
  destruct (SetIndex_spec c key i value) as (l & -> & Hl). eexists. split; [done|].
  rewrite !Get_entries in Hl. rewrite Get_entries, entries_update.
  change (foldKey (setf data _ c) key') with (foldKey c key').
  destruct (decide (foldKey c key = foldKey c key')) as [E|]; [|done]. by rewrite <- E.
Qed.

Lemma filter_flat_map {A B} (P : B → Prop) `{∀ x, Decision (P x)} (f : A → list B) l :
  filter P (flat_map f l) = flat_map (λ x, filter P (f x)) l.
Proof. induction l as [|x l IH]; [done|]. simpl. by rewrite filter_app, IH. Qed.

Lemma filter_all {A} (P : A → Prop) `{∀ x, Decision (P x)} l : Forall P l → filter P l = l.
Proof. induction 1 as [|x l Hx Hl IH]; [done|]. rewrite filter_cons, decide_True by done. by rewrite IH. Qed.

Lemma filter_none {A} (P : A → Prop) `{∀ x, Decision (P x)} l : Forall (λ x, ¬ P x) l → filter P l = [].
Proof. induction 1 as [|x l Hx Hl IH]; [done|]. by rewrite filter_cons, decide_False by done. Qed.

(** Filtering all the entries by a predicate of their folded key is filtering
    the keys of the map. *)
Lemma FindAll_filter `{U : Unicode} (o : MapOrder) c (P : bytes → Prop) `{∀ x, Decision (P x)} :
  wf_map c →
  filter (λ m, P (foldKey c m.(Key_))) (FindAll c) =
  flat_map (λ kd, mapMatch c <$> kd.2) (filter (λ kd, P kd.1) (range c.(data))).
Proof.
  intros Hwf. unfold FindAll. rewrite filter_flat_map.
  assert (Hin : ∀ kd, kd ∈ range c.(data) → Forall (λ d, foldKey c d.(kv_key) = kd.1) kd.2).
  { intros [k l] Hin. rewrite range_perm in Hin. apply elem_of_map_to_list in Hin. by apply Hwf in Hin. }
  induction (range c.(data)) as [|[k l] r IH]; [done|]. simpl. rewrite filter_cons. simpl.
  specialize (Hin (k, l) ltac:(left)) as Hl. simpl in Hl.
  rewrite IH by (intros; apply Hin; by right). case_decide as E.
  - rewrite filter_all; [done|]. apply Forall_fmap. eapply Forall_impl; [exact Hl|]. by intros d <-.
  - rewrite filter_none; [done|]. apply Forall_fmap. eapply Forall_impl; [exact Hl|]. by intros d <-.
Qed.

Lemma filter_key_range (o : MapOrder) {A} (m : gmap bytes A) k :
  filter (λ kd, kd.1 = k) (range m) ≡ₚ match m !! k with Some x => [(k, x)] | None => [] end.
Proof.
  rewrite range_perm.
  assert (Hnone : ∀ m : gmap bytes A, m !! k = None → filter (λ kd, kd.1 = k) (map_to_list m) = []).
  { intros m' Hm. apply filter_none, Forall_forall. intros [k' x] Hin%elem_of_map_to_list. naive_solver. }
  destruct (m !! k) as [x|] eqn:E; [|by rewrite Hnone].
  rewrite <- (map_to_list_delete m k x E), filter_cons_True by done.
  by rewrite Hnone by apply lookup_delete_eq.
Qed.

(** In a map built by its operations, selecting by a key returns exactly
    the entries whose key has the same folded form, and selecting by a regular
    expression those whose folded key matches: nothing is lost in the index. *)
Theorem Find_selects `{U : Unicode} (o : MapOrder) (c : Map) (key : bytes) (re : regex) :
  wf_map c → key ≠ [] →
  FindString c key ≡ₚ filter (λ m, foldKey c m.(Key_) = foldKey c key) (FindAll c) ∧
  FindRegex c re = filter (λ m, re (foldKey c m.(Key_)) = true) (FindAll c).
Proof.
  intros Hwf Hk. split.
  - symmetry. etrans; [apply reflexive_eq,
      (FindAll_filter o c (λ k, k = @foldKey U c key) (H := λ k, decide_rel eq k _) Hwf)|].
    rewrite (flat_map_perm _ _ _ (filter_key_range o c.(data) (foldKey c key))).
    unfold FindString. apply bytes_eqb_neq in Hk as ->.
    destruct (size c.(data) =? 0)%nat eqn:E.
    + apply Nat.eqb_eq, map_size_empty_inv in E. by rewrite E, lookup_empty.
    + unfold entries. destruct (c.(data) !! foldKey c key); [|done]. simpl. by rewrite app_nil_r.
  - symmetry. etrans; [exact (FindAll_filter o c (λ k, re k = true) Hwf)|].
    unfold FindRegex. by rewrite flat_map_fmap.
Qed.

(** An order to evaluate examples with. *)
Definition listOrder : MapOrder := {| range A m := map_to_list m; range_perm A m := reflexivity _ |}.

Lemma Find_selects_witness :
  let c := @Add latin1 (@Add latin1 (NewMap V.ArgsGet) (str "Id") (str "1")) (str "ID") (str "2") in
  @FindString latin1 listOrder c (str "iD") ≡ₚ
    filter (λ m, @foldKey latin1 c m.(Key_) = @foldKey latin1 c (str "iD")) (@FindAll listOrder c) ∧
  @FindRegex listOrder c (λ s, true) =
    filter (λ m, true = true) (@FindAll listOrder c).
Proof.
  apply (@Find_selects latin1 listOrder _ (str "iD") (λ _, true)); [|done].
  apply wf_Add, wf_Add, wf_NewMap.
Defined.
