(* ===== verification/Matchers.v ===== *)
(** The searches for literals of src/internal/operators/rxprefilter.go: the
    matcher of one literal that ignores case (Horspool's table), the
    matcher of many literals (a table of pairs of bytes after Wu and Manber),
    the coarse filter by required bytes, and the byte-wise comparisons under
    them.

    The reference is substring search, [Contains], on the input with its ASCII
    letters in lower case where a matcher ignores case.  The theorems show that
    the two exact matchers compute it, within range and in at most as many steps
    as the input has bytes, and that the filter never rejects an input that
    contains one of its literals. *)

From S2P Require Import Prelude GoLib.

(** An array that is indexed by bytes. *)
Definition array (A : Type) : Type := Z → A.
Definition set_byte {A} (f : array A) (c : Z) (v : A) : array A := λ x, if x =? c then v else f x.

(** [for pos < limit]: the body returns true ([None]) or moves on. *)
Fixpoint scan (fuel limit : nat) (step : nat → run (option nat)) (pos : nat) : run bool :=
  if (pos <? limit)%nat then
    match fuel with
    | O => OutOfFuel
    | S fuel =>
        next ← step pos;
        match next with
        | None => Done true
        | Some pos => scan fuel limit step pos
        end
    end
  else Done false.

(** ** Bytes *)

Definition byteRarity (value : Z) : Z :=
  if byte_in value (str "etaoinshr") then 0
  else if byte_in value (str "dlucmfywgpbv") then 1
  else if byte_in value (str "kjqxz") then 2
  else 3.

(** [if c >= 'A' && c <= 'Z' { c += 'a' - 'A' }] is [lowerByte] of [GoLib];
    this is [if c >= 'a' && c <= 'z' { c -= 'a' - 'A' }]. *)
Definition upperOf (c : Z) : Z := if (c >=? 0x61) && (c <=? 0x7a) then c - 0x20 else c.

Fixpoint equalFoldASCIIBytes (value lower : bytes) : run bool :=
  match value with
  | [] => Done true
  | c :: value =>
      match lower with
      | [] => Panic
      | l :: lower => if negb (lowerByte c =? l) then Done false else equalFoldASCIIBytes value lower
      end
  end.

(** The copy starts at the first capital. *)
Fixpoint lowerASCII (value : bytes) : bytes :=
  match value with
  | [] => []
  | c :: rest => if (c <? 0x41) || (c >? 0x5a) then c :: lowerASCII rest else lowerByte <$> value
  end.

Definition containsByte (values : bytes) (target : Z) : bool := existsb (Z.eqb target) values.

(** The index of the rarest byte: [needle[index]] over [needle[anchor]]. *)
Definition anchorOf (needle : bytes) : nat :=
  foldl (λ anchor index, if byteRarity (needle !!! index) >? byteRarity (needle !!! anchor) then index else anchor)
    0%nat (seq 1 (length needle - 1)).

(** ** isASCII *)

(** [asciiWord] on a machine with words of eight bytes. *)
Definition asciiWordSize : nat := 8.
Definition asciiHighBits : Z := 0x8080808080808080.

Definition asciiWord (s : bytes) : run Z :=
  foldM (λ w k, c ← index s k; Done (Z.lor w (Z.shiftl c (8 * Z.of_nat k)))) (seq 0 asciiWordSize) 0.

(** [s] without its first words, as long as no byte of them has its high bit;
    [None] when one has. *)
Fixpoint asciiWords (fuel : nat) (words : nat) (s : bytes) : run (option bytes) :=
  if (length s <? words * asciiWordSize)%nat then Done (Some s) else
  match fuel with
  | O => OutOfFuel
  | S fuel =>
      w ← foldM (λ w k, s' ← slice s (k * asciiWordSize) (length s); x ← asciiWord s'; Done (Z.lor w x)) (seq 0 words) 0;
      if negb (Z.land w asciiHighBits =? 0) then Done None
      else s ← slice s (words * asciiWordSize) (length s); asciiWords fuel words s
  end.

Definition isASCII (s : bytes) : run bool :=
  rest ← asciiWords (length s) 4 s;
  match rest with
  | None => Done false
  | Some s =>
      rest ← asciiWords (length s) 1 s;
      match rest with
      | None => Done false
      | Some s => Done (forallb (λ c, negb (c >? 0x7f)) s)
      end
  end.

Definition allASCIIStrings (ss : list bytes) : run bool :=
  foldM (λ (ok : bool) s, if ok then isASCII s else Done false) ss true.

(** ** containsFoldASCII *)

(** The next position of the anchor in [s[searchStart : lastAnchor+1]]. *)
Definition anchorStep (s needle : bytes) (anchorOffset : nat) (lower upper : Z) (lastAnchor searchStart : nat)
    : run (option (option nat)) :=
  candidates ← slice s searchStart (lastAnchor + 1);
  let next := IndexByte candidates lower in
  let next :=
    if negb (upper =? lower) then
      match IndexByte candidates upper, next with
      | Some u, Some n => if (u <? n)%nat then Some u else next
      | u, None => u
      | None, _ => next
      end
    else next in
  match next with
  | None => Done None
  | Some next =>
      let anchor := (searchStart + next)%nat in
      let candidate := (anchor - anchorOffset)%nat in
      part ← slice s candidate (candidate + length needle);
      found ← equalFoldASCIIBytes part needle;
      Done (Some (if (found : bool) then None else Some (anchor + 1)%nat))
  end.

(** The loop leaves with [false] when there is no anchor left: the position
    after the last one says so. *)
Definition containsFoldASCIIOnly (s needle : bytes) : run bool :=
  let nlen := length needle in
  if (nlen =? 0)%nat then Done true else
  if (length s <? nlen)%nat then Done false else
  let lastStart := (length s - nlen)%nat in
  let anchorOffset := anchorOf needle in
  lower ← index needle anchorOffset;
  let upper := upperOf lower in
  let lastAnchor := (lastStart + anchorOffset)%nat in
  scan (S (length s)) (lastAnchor + 1) (λ searchStart,
    r ← anchorStep s needle anchorOffset lower upper lastAnchor searchStart;
    match r with
    | None => Done (Some (lastAnchor + 1)%nat)
    | Some found => Done found
    end) anchorOffset.

Definition containsFoldASCII (s needle : bytes) : run bool :=
  if (length needle =? 0)%nat then Done true else
  if (length s <? length needle)%nat then Done false else
  ascii ← isASCII needle;
  if (ascii : bool) then containsFoldASCIIOnly s needle else Done true.

(** ** One literal, ignoring case *)

Record foldedLiteralMatcher := mkFolded {
  fm_needle : bytes;
  fm_shift : array Z;
  fm_anchorLower : Z;
  fm_anchorUpper : Z;
  fm_indexed : bool;
}.

Definition maxUint16 : Z := 0xffff.

(** The table after the entry of [needle[index]]. *)
Definition shiftEntry (needle : bytes) (table : array Z) (index : nat) : array Z :=
  let shift := Z.of_nat (length needle - 1 - index) in
  let shift := if shift >? maxUint16 then maxUint16 else shift in
  let lower := lowerByte (needle !!! index) in
  let table := if shift <? table lower then set_byte table lower shift else table in
  if (lower >=? 0x61) && (lower <=? 0x7a) then set_byte table (lower - 0x20) (table lower) else table.

Definition newFoldedLiteralMatcher (needle : bytes) : run foldedLiteralMatcher :=
  let plain := mkFolded needle (λ _, 0) 0 0 false in
  if (length needle <? 2)%nat then Done plain else
  ascii ← isASCII needle;
  if negb ascii then Done plain else
  anchorLower ← index needle (anchorOf needle);
  let defaultShift := Z.of_nat (length needle) in
  let defaultShift := if defaultShift >? maxUint16 then maxUint16 else defaultShift in
  let shift := foldl (shiftEntry needle) (λ _, defaultShift) (seq 0 (length needle - 1)) in
  Done (mkFolded needle shift anchorLower (upperOf anchorLower) true).

Definition foldedStep (m : foldedLiteralMatcher) (value : bytes) (end_ : nat) : run (option nat) :=
  let start := (end_ + 1 - length m.(fm_needle))%nat in
  part ← slice value start (end_ + 1);
  found ← equalFoldASCIIBytes part m.(fm_needle);
  if (found : bool) then Done None else
  current ← index value end_;
  Done (Some (end_ + Z.to_nat (m.(fm_shift) (lowerByte current)))%nat).

Definition foldedMatch (m : foldedLiteralMatcher) (value : bytes) : run bool :=
  if negb m.(fm_indexed) then containsFoldASCII value m.(fm_needle) else
  if match IndexByte value m.(fm_anchorLower) with Some _ => false | None =>
       (m.(fm_anchorUpper) =? m.(fm_anchorLower)) ||
       match IndexByte value m.(fm_anchorUpper) with Some _ => false | None => true end end
  then Done false
  else scan (S (length value)) (length value) (foldedStep m value) (length m.(fm_needle) - 1).

(** ** Required bytes *)

(** [[4]uint64]: a set of bytes. *)
Notation bitmap := (list Z) (only parsing).
Definition noBits : bitmap := replicate 4 0.
Definition setBit (bits : bitmap) (value : Z) : bitmap :=
  alter (λ w, Z.lor w (Z.shiftl 1 (Z.land value 63))) (Z.to_nat (Z.shiftr value 6)) bits.

(** The bytes of a value. *)
Definition presentBits (value : bytes) : bitmap := foldl setBit noBits value.

(** [present[index]&bits[index] != 0] for some word. *)
Definition intersects (present bits : bitmap) : bool :=
  existsb (λ '(p, b), negb (Z.land p b =? 0)) (zip present bits).

Record requiredByteMatcher := mkRequired {
  rm_bytes : array bool;
  rm_bits : bitmap;
  rm_characters : bytes;
  rm_ascii : bool;
}.

Definition addByte (value : Z) (caseFold : bool) (st : array bool * bitmap) : array bool * bitmap :=
  let '(bs, bits) := st in
  let bs := set_byte bs value true in
  let bits := setBit bits value in
  if caseFold && (value >=? 0x61) && (value <=? 0x7a) then
    let upper := value - 0x20 in (set_byte bs upper true, setBit bits upper)
  else (bs, bits).

(** The distinct bytes of a needle. *)
Definition byteGroup (needle : bytes) : bytes :=
  foldl (λ group value, if containsByte group value then group else group ++ [value]) [] needle.

Definition countBytes (groups : list bytes) (covered : list bool) : array Z :=
  foldl (λ counts '(cov, group),
    if cov : bool then counts
    else foldl (λ counts value, set_byte counts value (counts value + 1)) counts group) (λ _, 0) (zip covered groups).

Definition bestByte (counts : array Z) : Z :=
  foldl (λ best value,
    if (counts value >? counts best) || ((counts value =? counts best) && (byteRarity value >? byteRarity best))
    then value else best) 0 (seqZ 1 255).

(** Every iteration covers a needle that is not empty. *)
Fixpoint chooseBytes (fuel : nat) (caseFold : bool) (groups : list bytes) (covered : list bool) (st : array bool * bitmap)
    : run (array bool * bitmap) :=
  if forallb id covered then Done st else
  match fuel with
  | O => OutOfFuel
  | S fuel =>
      let best := bestByte (countBytes groups covered) in
      chooseBytes fuel caseFold groups
        (zip_with (λ (cov : bool) group, cov || containsByte group best) covered groups) (addByte best caseFold st)
  end.

Definition newRequiredByteMatcher (needles : list bytes) (caseFold : bool) : run requiredByteMatcher :=
  let groups := byteGroup <$> needles in
  '(bs, bits) ← chooseBytes (length needles) caseFold groups (replicate (length groups) false) (λ _, false, noBits);
  let selected := filter (λ value, bs value = true) (seqZ 0 256) in
  let ascii := forallb (λ value, value <? RuneSelf) selected in
  Done (mkRequired bs bits (if ascii then selected else []) ascii).

Definition requiredMatch (m : requiredByteMatcher) (value : bytes) : bool :=
  if m.(rm_ascii) then ContainsAny value m.(rm_characters) else existsb m.(rm_bytes) value.

(** ** Many literals *)

Record indexedMatcher := mkIndexed {
  im_shift : array Z;
  im_endBuckets : array (list bytes);
  im_pairShift : option (array Z);
  im_pairBuckets : array (list bytes);
  im_minLen : nat;
  im_caseFold : bool;
  im_required : option requiredByteMatcher;
}.

Definition bytePair (first second : Z) : Z := Z.lor (Z.shiftl first 8) second.
Definition foldedBytePair (first second : Z) : Z := bytePair (lowerByte first) (lowerByte second).

(** [if shift < table[key] { table[key] = shift }] *)
Definition lower_to (table : array Z) (key shift : Z) : array Z :=
  if shift <? table key then set_byte table key shift else table.

Definition push_bucket (buckets : array (list bytes)) (key : Z) (needle : bytes) : array (list bytes) :=
  set_byte buckets key (buckets key ++ [needle]).

(** The pair at [i] of a needle. *)
Definition pairAt (needle : bytes) (i : nat) : run Z :=
  a ← index needle i; b ← index needle (i + 1); Done (bytePair a b).

Definition pairShifts (minLen : nat) (needles : list bytes) (table : array Z) : run (array Z) :=
  foldM (λ table needle,
    foldM (λ table i, pair ← pairAt needle i; Done (lower_to table pair (u8 (Z.of_nat (minLen - 2 - i)))))
      (seq 0 (minLen - 1)) table) needles table.

Definition pairBuckets (minLen : nat) (needles : list bytes) : run (array (list bytes)) :=
  foldM (λ buckets needle, pair ← pairAt needle (minLen - 2); Done (push_bucket buckets pair needle)) needles (λ _, []).

Definition buildPairIndex (needles : list bytes) (m : indexedMatcher) : run indexedMatcher :=
  let maxShift := Z.of_nat (m.(im_minLen) - 1) in
  let maxShift := if maxShift >? 255 then 255 else maxShift in
  shifts ← pairShifts m.(im_minLen) needles (λ _, u8 maxShift);
  buckets ← pairBuckets m.(im_minLen) needles;
  Done (mkIndexed m.(im_shift) m.(im_endBuckets) (Some shifts) buckets m.(im_minLen) m.(im_caseFold) m.(im_required)).

(** The table of single bytes, for needles of which one has a single byte. *)
Definition byteShifts (minLen : nat) (caseFold : bool) (needles : list bytes) (table : array Z) : run (array Z) :=
  foldM (λ table needle,
    foldM (λ table i,
      c ← index needle i;
      let shift := u8 (Z.of_nat (minLen - 1 - i)) in
      let table := lower_to table c shift in
      Done (if caseFold && (c >=? 0x61) && (c <=? 0x7a) then lower_to table (c - 0x20) shift else table))
      (seq 0 minLen) table) needles table.

Definition endBuckets (minLen : nat) (needles : list bytes) : run (array (list bytes)) :=
  foldM (λ buckets needle,
    if (minLen =? 0)%nat then Panic else
    c ← index needle (minLen - 1); Done (push_bucket buckets c needle)) needles (λ _, []).

Definition shortest (needles : list bytes) : nat :=
  match needles with
  | [] => 0%nat
  | n :: needles => foldl (λ m needle, if (length needle <? m)%nat then length needle else m) (length n) needles
  end.

Definition newIndexedMatcher (needles : list bytes) (caseFold : bool) : run indexedMatcher :=
  if (length needles =? 0)%nat then Done (mkIndexed (λ _, 0) (λ _, []) None (λ _, []) 0 caseFold None) else
  let normalized := if caseFold then lowerASCII <$> needles else needles in
  required ← newRequiredByteMatcher normalized caseFold;
  let minLen := shortest normalized in
  let m := mkIndexed (λ _, 0) (λ _, []) None (λ _, []) minLen caseFold (Some required) in
  if (2 <=? minLen)%nat then buildPairIndex normalized m else
  let maxShift := Z.of_nat minLen in
  let maxShift := if maxShift >? 255 then 255 else maxShift in
  shift ← byteShifts minLen caseFold normalized (λ _, u8 maxShift);
  buckets ← endBuckets minLen normalized;
  Done (mkIndexed shift buckets None (λ _, []) minLen caseFold (Some required)).

(** [value[start:start+len(needle)]] is a needle of the bucket. *)
Fixpoint verify (eq : bytes → bytes → run bool) (value : bytes) (start : nat) (bucket : list bytes) : run bool :=
  match bucket with
  | [] => Done false
  | needle :: bucket =>
      let matchEnd := (start + length needle)%nat in
      found ← (matchEnd <=? length value)%nat &&? (part ← slice value start matchEnd; eq part needle);
      if (found : bool) then Done true else verify eq value start bucket
  end.

(** One position of the window: [shift] and [bucket] are those of its edge. *)
Definition windowStep (eq : bytes → bytes → run bool) (value : bytes) (minLen : nat) (end_ : nat) (shift : Z)
    (bucket : list bytes) : run (option nat) :=
  if negb (shift =? 0) then Done (Some (end_ + Z.to_nat shift)%nat) else
  found ← verify eq value (end_ + 1 - minLen) bucket;
  Done (if (found : bool) then None else Some (end_ + 1)%nat).

Definition windowMatch (m : indexedMatcher) (pairOf : Z → Z → Z) (keyOf : Z → Z) (eq : bytes → bytes → run bool)
    (value : bytes) : run bool :=
  let minLen := m.(im_minLen) in
  if (minLen =? 0)%nat || (length value <? minLen)%nat then Done false else
  match m.(im_pairShift) with
  | Some pairShift =>
      scan (S (length value)) (length value) (λ end_,
        a ← index value (end_ - 1); b ← index value end_;
        let pair := pairOf a b in
        windowStep eq value minLen end_ (pairShift pair) (m.(im_pairBuckets) pair)) (minLen - 1)
  | None =>
      scan (S (length value)) (length value) (λ index_,
        c ← index value index_;
        windowStep eq value minLen index_ (m.(im_shift) c) (m.(im_endBuckets) (keyOf c))) (minLen - 1)
  end.

Definition matchCaseSensitive (m : indexedMatcher) : bytes → run bool :=
  windowMatch m bytePair id (λ part needle, Done (part =s needle)).
Definition matchFold (m : indexedMatcher) : bytes → run bool :=
  windowMatch m foldedBytePair lowerByte equalFoldASCIIBytes.

Definition indexedMatch (m : indexedMatcher) (value : bytes) : run bool :=
  if m.(im_caseFold) then matchFold m value else matchCaseSensitive m value.

(** ** Searching *)

(** [x] is in [s] at [i]. *)
Definition at_ (s : bytes) (i : nat) (x : bytes) : Prop := take (length x) (drop i s) = x.
#[global] Instance at_dec s i x : Decision (at_ s i x) := list_eq_dec _ _.

Lemma HasPrefix_take s x : HasPrefix s x = true ↔ take (length x) s = x.
Proof.
  rewrite HasPrefix_spec. split.
  - intros (r & ->). by rewrite take_app_length.
  - intros E. exists (drop (length x) s). rewrite <- E at 1. by rewrite take_drop.
Qed.

Lemma at_length s i x : at_ s i x → x ≠ [] → (i + length x ≤ length s)%nat.
Proof.
  unfold at_. intros E Hx. apply (f_equal length) in E. rewrite length_take, length_drop in E.
  assert (length x ≠ 0)%nat by (by destruct x). lia.
Qed.

Lemma Contains_at s x : Contains s x = true ↔ ∃ i, (i + length x ≤ length s)%nat ∧ at_ s i x.
Proof.
  unfold at_. induction s as [|c s IH].
  - cbn [Contains]. rewrite orb_false_r, HasPrefix_take. split.
    + intros E. exists 0%nat. split; [|done]. rewrite take_nil in E. by rewrite <- E.
    + intros (i & Hi & E). cbn in Hi. destruct x; [done|cbn in Hi; lia].
  - cbn [Contains]. rewrite orb_true_iff, HasPrefix_take, IH. split.
    + intros [E|(i & Hi & E)].
      * exists 0%nat. split; [|done]. apply (f_equal length) in E. rewrite length_take in E. lia.
      * exists (S i). split; [cbn; lia|done].
    + intros ([|i] & Hi & E); [by left|right]. exists i. split; [cbn in Hi; lia|done].
Qed.

Lemma Contains_app s x : Contains s x = true ↔ ∃ p r, s = p ++ x ++ r.
Proof.
  rewrite Contains_at. split.
  - intros (i & Hi & E). exists (take i s), (drop (length x) (drop i s)). rewrite <- E at 1. by rewrite !take_drop.
  - intros (p & r & ->). exists (length p). split; [rewrite !length_app; lia|].
    unfold at_. by rewrite drop_app_length, take_app_length.
Qed.

Lemma at_char s i x k : at_ s i x → (k < length x)%nat → s !!! (i + k)%nat = x !!! k.
Proof.
  unfold at_. intros E Hk. transitivity (take (length x) (drop i s) !!! k); [|by rewrite E].
  by rewrite lookup_total_take, lookup_total_drop, decide_True.
Qed.

(** A search that moves past no hit finds one if there is one. *)
Lemma scan_ok (hit : nat → Prop) lo limit step :
  (∀ pos, (lo ≤ pos < limit)%nat → ∃ r, step pos = Done r ∧
    match r with
    | None => ∃ q, (q < limit)%nat ∧ hit q
    | Some p => (pos < p)%nat ∧ ∀ q, (pos ≤ q < p)%nat → (q < limit)%nat → ¬ hit q
    end) →
  ∀ fuel pos, (lo ≤ pos)%nat → (limit - pos ≤ fuel)%nat →
  ∃ b, scan fuel limit step pos = Done b ∧ if b : bool then ∃ q, (q < limit)%nat ∧ hit q else ∀ q, (pos ≤ q < limit)%nat → ¬ hit q.
Proof.
  intros Hstep fuel. induction fuel as [|fuel IH]; intros pos Hlo Hf; cbn [scan].
  { destruct (Nat.ltb_spec pos limit); [lia|]. exists false. split; [done|]. intros q Hq. lia. }
  destruct (Nat.ltb_spec pos limit); [|exists false; split; [done|]; intros q Hq; lia].
  destruct (Hstep pos) as ([p|] & -> & Hr); [done|..]; cbn [mbind run_bind].
  - destruct Hr as [Hp Hno]. destruct (IH p) as (b & -> & Hb); [lia|lia|]. exists b. split; [done|].
    destruct b; [done|]. intros q Hq. destruct (decide (q < p)%nat); [apply Hno; lia|apply Hb; lia].
  - by exists true.
Qed.

(** ** Bytes *)

Lemma lowerByte_lower c : lowerByte (lowerByte c) = lowerByte c.
Proof. unfold lowerByte, in_range. split_ifs; lia. Qed.

Lemma lowerByte_byte c : is_byte c → is_byte (lowerByte c).
Proof. unfold lowerByte, in_range, is_byte. split_ifs; lia. Qed.

Definition fold (s : bytes) : bytes := lowerByte <$> s.

Lemma lowerASCII_eq s : lowerASCII s = fold s.
Proof.
  induction s as [|c s IH]; [done|]. cbn [lowerASCII]. destruct (_ || _) eqn:E; [|done]. rewrite IH.
  unfold fold. cbn. f_equal. unfold lowerByte, in_range. split_ifs; lia.
Qed.

Lemma equalFold_eq value lower :
  length value = length lower → equalFoldASCIIBytes value lower = Done (fold value =s lower).
Proof.
  revert lower. induction value as [|c value IH]; intros [|l lower] Hl; try discriminate Hl; [done|].
  cbn [equalFoldASCIIBytes]. destruct (Z.eqb_spec (lowerByte c) l) as [<-|Hc]; cbn [negb].
  - rewrite IH by (by injection Hl). f_equal. unfold fold. cbn. apply eq_true_iff_eq. rewrite !bytes_eqb_eq. split; congruence.
  - f_equal. symmetry. apply bytes_eqb_neq. unfold fold. cbn. congruence.
Qed.

(** ** isASCII *)

Lemma highBits_spec n : 0 <= n → Z.testbit asciiHighBits n = (n <? 64) && (n mod 8 =? 7).
Proof.
  intros Hn. destruct (Z.ltb_spec n 64) as [H|H]; cbn [andb].
  - assert (forallb (λ n, Bool.eqb (Z.testbit asciiHighBits n) (n mod 8 =? 7)) (seqZ 0 64) = true) as HF by (vm_compute; reflexivity).
    rewrite forallb_forall in HF. apply Bool.eqb_prop, HF, list_elem_of_In, elem_of_seqZ. lia.
  - apply Z.bits_above_log2; [done|]. change (Z.log2 asciiHighBits) with 63. lia.
Qed.

Definition highBit (w : Z) (j : nat) : bool := Z.testbit w (8 * Z.of_nat j + 7).

Lemma highBits_zero w : Z.land w asciiHighBits =? 0 = forallb (λ j, negb (highBit w j)) (seq 0 8).
Proof.
  apply eq_true_iff_eq. rewrite Z.eqb_eq, forallb_forall. split.
  - intros E j Hj%list_elem_of_In%elem_of_seq. apply negb_true_iff. unfold highBit.
    assert (Z.testbit (Z.land w asciiHighBits) (8 * Z.of_nat j + 7) = false) as H by (by rewrite E, Z.bits_0).
    rewrite Z.land_spec, highBits_spec in H by lia.
    rewrite (proj2 (Z.ltb_lt _ 64)), (proj2 (Z.eqb_eq _ 7)) in H by dlia. by rewrite andb_true_r in H.
  - intros H. apply Z.bits_inj'. intros n Hn. rewrite Z.land_spec, Z.bits_0, highBits_spec by done.
    destruct (Z.ltb_spec n 64); [|by rewrite andb_false_r]. destruct (Z.eqb_spec (n mod 8) 7); [|by rewrite andb_false_r].
    rewrite andb_true_r. specialize (H (Z.to_nat (n / 8))). unfold highBit in H.
    replace (8 * Z.of_nat (Z.to_nat (n / 8)) + 7) with n in H by dlia. apply negb_true_iff, H.
    apply list_elem_of_In, elem_of_seq. dlia.
Qed.

Lemma highBit_lor a b j : highBit (Z.lor a b) j = highBit a j || highBit b j.
Proof. apply Z.lor_spec. Qed.

Lemma highBit_byte c k j : is_byte c → highBit (Z.shiftl c (8 * Z.of_nat k)) j = (j =? k)%nat && (c >? 0x7f).
Proof.
  intros Hc. unfold highBit. rewrite Z.shiftl_spec by lia. unfold is_byte in Hc.
  destruct (Nat.eqb_spec j k) as [->|Hjk]; cbn [andb].
  - replace (_ - _) with 7 by lia. pose (P c := Bool.eqb (Z.testbit c 7) (c >? 0x7f)).
    assert (P c = true) as H by (apply forall_byte; [vm_compute; reflexivity|done]). by apply Bool.eqb_prop in H.
  - destruct (decide (j < k)%nat); [apply Z.testbit_neg_r; lia|].
    destruct (decide (c = 0)) as [->|]; [apply Z.bits_0|].
    apply Z.bits_above_log2; [lia|]. apply Z.log2_lt_pow2; [lia|]. eapply Z.lt_le_trans; [apply Hc|].
    change 256 with (2 ^ 8). apply Z.pow_le_mono_r; lia.
Qed.

Definition asciiByte (c : Z) : bool := negb (c >? 0x7f).

Lemma asciiWord_bits s : wf_bytes s → (8 ≤ length s)%nat →
  ∃ w, asciiWord s = Done w ∧ ∀ j, (j < 8)%nat → highBit w j = (s !!! j >? 0x7f).
Proof.
  intros Hs Hl. unfold asciiWord.
  assert (∀ n, (n ≤ 8)%nat → ∃ w, foldM (λ w k, c ← index s k; Done (Z.lor w (Z.shiftl c (8 * Z.of_nat k)))) (seq 0 n) 0 = Done w ∧
    ∀ j, highBit w j = (j <? n)%nat && (s !!! j >? 0x7f)) as H.
  { induction n as [|n IH]; intros Hn.
    - exists 0. split; [done|]. intros j. apply Z.bits_0.
    - destruct IH as (w & E & Hw); [lia|]. rewrite seq_S, foldM_app, E. cbn [mbind run_bind foldM].
      rewrite index_lt by lia. cbn [mbind run_bind]. eexists. split; [done|]. intros j.
      rewrite highBit_lor, Hw, highBit_byte; [|apply (Forall_lookup_total_1 is_byte s); [done|lia]]. cbn [Nat.add].
      destruct (Nat.eqb_spec j n) as [->|]; [by rewrite Nat.ltb_irrefl, (proj2 (Nat.ltb_lt n (S n))) by lia|].
      cbn [andb]. rewrite orb_false_r. f_equal. apply eq_true_iff_eq. rewrite !Nat.ltb_lt. lia. }
  destruct (H 8%nat) as (w & E & Hw); [lia|]. exists w. split; [done|]. intros j Hj. rewrite Hw.
  by rewrite (proj2 (Nat.ltb_lt j 8)) by lia.
Qed.

Lemma asciiBlock_bits words s : wf_bytes s → (words * 8 ≤ length s)%nat →
  ∃ w, foldM (λ w k, s' ← slice s (k * asciiWordSize) (length s); x ← asciiWord s'; Done (Z.lor w x)) (seq 0 words) 0 = Done w ∧
    (Z.land w asciiHighBits =? 0) = forallb asciiByte (take (words * 8) s).
Proof.
  intros Hs Hl.
  assert (∀ n, (n ≤ words)%nat → ∃ w, foldM (λ w k, s' ← slice s (k * asciiWordSize) (length s); x ← asciiWord s'; Done (Z.lor w x)) (seq 0 n) 0 = Done w ∧
    ∀ j, (j < 8)%nat → (highBit w j = false ↔ ∀ k, (k < n)%nat → asciiByte (s !!! (k * 8 + j)%nat) = true)) as H.
  { induction n as [|n IH]; intros Hn.
    - exists 0. split; [done|]. intros j Hj. split; [lia|]. intros _. apply Z.bits_0.
    - destruct IH as (w & E & Hw); [lia|]. rewrite seq_S, foldM_app, E. cbn [mbind run_bind foldM Nat.add].
      unfold asciiWordSize. rewrite slice_ok by lia. cbn [mbind run_bind].
      destruct (asciiWord_bits (take (length s - n * 8) (drop (n * 8) s))) as (x & -> & Hx).
      { by apply Forall_take, Forall_drop. }
      { rewrite length_take, length_drop. lia. }
      cbn [mbind run_bind]. eexists. split; [done|]. intros j Hj. rewrite highBit_lor, orb_false_iff, Hw, Hx by done.
      rewrite lookup_total_take, decide_True, lookup_total_drop by lia. unfold asciiByte. rewrite <- negb_true_iff. split.
      + intros [H1 H2] k Hk. destruct (decide (k = n)) as [->|]; [done|]. apply H1. lia.
      + intros H. split; [|apply H; lia]. intros k Hk. apply H. lia. }
  destruct (H words) as (w & E & Hw); [lia|]. exists w. split; [done|]. rewrite highBits_zero.
  apply eq_true_iff_eq. rewrite !forallb_forall. split.
  - intros Hb c (i & Hi)%list_elem_of_In%list_elem_of_lookup. apply lookup_take_Some in Hi as [Hi Hlt].
    assert (highBit w (i mod 8) = false) as Hz.
    { apply negb_true_iff, Hb, list_elem_of_In, elem_of_seq. pose proof (Nat.mod_upper_bound i 8). lia. }
    rewrite Hw in Hz by (apply Nat.mod_upper_bound; lia). specialize (Hz (i / 8)%nat).
    rewrite Nat.mul_comm, <- Nat.div_mod_eq in Hz. rewrite (list_lookup_total_correct _ _ _ Hi) in Hz. apply Hz.
    apply Nat.Div0.div_lt_upper_bound. lia.
  - intros Ha j Hj%list_elem_of_In%elem_of_seq. apply negb_true_iff, Hw; [lia|]. intros k Hk. apply Ha, list_elem_of_In.
    apply list_elem_of_lookup. exists (k * 8 + j)%nat. apply lookup_take_Some. split; [|lia].
    apply list_lookup_lookup_total_lt. lia.
Qed.

Lemma asciiWords_ok words fuel : ∀ s, (1 ≤ words)%nat → wf_bytes s → (length s ≤ fuel)%nat →
  ∃ r, asciiWords fuel words s = Done r ∧
    match r with
    | None => forallb asciiByte s = false
    | Some s' => wf_bytes s' ∧ forallb asciiByte s = forallb asciiByte s'
    end.
Proof.
  induction fuel as [|fuel IH]; intros s Hw Hs Hl; cbn [asciiWords]; unfold asciiWordSize in *.
  { destruct (Nat.ltb_spec (length s) (words * 8)); [by exists (Some s)|lia]. }
  destruct (Nat.ltb_spec (length s) (words * 8)); [by exists (Some s)|].
  destruct (asciiBlock_bits words s Hs) as (w & E & Hb); [done|]. unfold asciiWordSize in E. rewrite E. cbn [mbind run_bind].
  rewrite Hb. assert (forallb asciiByte s = forallb asciiByte (take (words * 8) s) && forallb asciiByte (drop (words * 8) s)) as Hsp.
  { by rewrite <- forallb_app, take_drop. }
  destruct (forallb asciiByte (take (words * 8) s)); cbn [negb].
  - rewrite slice_ok by lia. cbn [mbind run_bind]. rewrite (take_ge (drop _ _)) by (rewrite length_drop; lia).
    destruct (IH (drop (words * 8) s)) as (r & -> & Hr); [done|by apply Forall_drop|rewrite length_drop; lia|].
    exists r. split; [done|]. rewrite Hsp. done.
  - exists None. split; [done|]. by rewrite Hsp.
Qed.

Lemma isASCII_eq s : wf_bytes s → isASCII s = Done (forallb asciiByte s).
Proof.
  intros Hs. unfold isASCII. destruct (asciiWords_ok 4 (length s) s) as (r & -> & Hr); [lia|done|done|].
  cbn [mbind run_bind]. destruct r as [s'|]; [|by rewrite Hr]. destruct Hr as [Hs' ->].
  destruct (asciiWords_ok 1 (length s') s') as (r & -> & Hr); [lia|done|done|].
  cbn [mbind run_bind]. destruct r as [s''|]; [by destruct Hr as [_ ->]|by rewrite Hr].
Qed.

Lemma allASCIIStrings_eq ss : Forall wf_bytes ss → allASCIIStrings ss = Done (forallb (forallb asciiByte) ss).
Proof.
  unfold allASCIIStrings. intros Hs.
  assert (∀ ok, foldM (λ (ok : bool) s, if ok then isASCII s else Done false) ss ok = Done (ok && forallb (forallb asciiByte) ss)) as H;
    [|apply H].
  induction Hs as [|s ss Hs _ IH]; intros ok; cbn [foldM forallb]; [by rewrite andb_true_r|].
  destruct ok; cbn [andb]; [|exact (IH false)]. rewrite isASCII_eq by done. cbn [mbind run_bind]. apply IH.
Qed.

(** ** One literal, ignoring case *)

Lemma fold_length s : length (fold s) = length s.
Proof. apply length_fmap. Qed.

Lemma fold_lookup s i : (i < length s)%nat → fold s !!! i = lowerByte (s !!! i).
Proof.
  intros Hi. apply list_lookup_total_correct. unfold fold. by rewrite list_lookup_fmap, list_lookup_lookup_total_lt.
Qed.

Lemma fold_at s i x : at_ (fold s) i x ↔ fold (take (length x) (drop i s)) = x.
Proof. unfold at_, fold. by rewrite <- fmap_drop, <- fmap_take. Qed.

(** The comparison of a part of the input with a needle. *)
Lemma compare_at s i x : (i + length x ≤ length s)%nat →
  (part ← slice s i (i + length x); equalFoldASCIIBytes part x) = Done (bool_decide (at_ (fold s) i x)).
Proof.
  intros Hi. rewrite slice_ok by lia. cbn [mbind run_bind]. replace (i + length x - i)%nat with (length x) by lia.
  rewrite equalFold_eq by (rewrite length_take, length_drop; lia). f_equal. apply eq_true_iff_eq.
  rewrite bytes_eqb_eq, bool_decide_eq_true. symmetry. apply fold_at.
Qed.

(** The needles of the matchers that ignore case are in lower case. *)
Definition lowered (x : bytes) : Prop := Forall (λ c, lowerByte c = c) x.

Lemma fold_lowered x : lowered (fold x).
Proof. unfold lowered, fold. apply Forall_fmap, Forall_true. intros c. apply lowerByte_lower. Qed.

Lemma lowered_char x i : lowered x → (i < length x)%nat → lowerByte (x !!! i) = x !!! i.
Proof. intros Hx Hi. exact (Forall_lookup_total_1 (λ c, lowerByte c = c) x i Hx Hi). Qed.

Lemma lower_or_upper c l : lowerByte l = l → lowerByte c = l ↔ c = l ∨ c = upperOf l.
Proof. unfold lowerByte, upperOf, in_range. intros Hl. split; [|intros [-> | ->]]; revert Hl; split_ifs; lia. Qed.

Lemma IndexByte_first s c :
  match IndexByte s c with
  | Some i => (i < length s)%nat ∧ s !!! i = c ∧ ∀ j, (j < i)%nat → s !!! j ≠ c
  | None => ∀ j, (j < length s)%nat → s !!! j ≠ c
  end.
Proof.
  destruct (IndexByte s c) as [i|] eqn:E.
  - apply IndexByte_Some in E as [Hi Hn]. pose proof (lookup_lt_Some _ _ _ Hi) as Hl. split; [done|].
    split; [by apply list_lookup_total_correct|]. intros j Hj.
    pose proof (Forall_lookup_total_1 (λ x, x ≠ c) (take i s) j Hn) as H. rewrite length_take in H.
    rewrite lookup_total_take, decide_True in H by lia. apply H. lia.
  - apply IndexByte_None in E. intros j Hj. exact (Forall_lookup_total_1 (λ x, x ≠ c) s j E Hj).
Qed.

Lemma anchorOf_lt needle : needle ≠ [] → (anchorOf needle < length needle)%nat.
Proof.
  intros Hn. assert (0 < length needle)%nat as Hl by (destruct needle; [done|cbn; lia]). unfold anchorOf.
  assert (∀ l a, (a < length needle)%nat → Forall (λ i, (i < length needle)%nat) l →
    (foldl (λ anchor index, if byteRarity (needle !!! index) >? byteRarity (needle !!! anchor) then index else anchor) a l
      < length needle)%nat) as H.
  { induction l as [|i l IH]; intros a Ha Hf; [done|]. apply Forall_cons in Hf as [Hi Hf]. cbn [foldl].
    apply IH; [|done]. by destruct (_ >? _). }
  apply H; [done|]. apply Forall_forall. intros i Hi%elem_of_seq. lia.
Qed.

(** The next place where the anchor may be. *)
Lemma anchor_first candidates l : lowerByte l = l →
  let next := IndexByte candidates l in
  match (if negb (upperOf l =? l) then
      match IndexByte candidates (upperOf l), next with
      | Some u, Some n => if (u <? n)%nat then Some u else next
      | u, None => u
      | None, _ => next
      end
    else next) with
  | Some n => (n < length candidates)%nat ∧ ∀ j, (j < n)%nat → lowerByte (candidates !!! j) ≠ l
  | None => ∀ j, (j < length candidates)%nat → lowerByte (candidates !!! j) ≠ l
  end.
Proof.
  intros Hl. cbv zeta. pose proof (IndexByte_first candidates l) as H1. pose proof (IndexByte_first candidates (upperOf l)) as H2.
  assert (∀ c, lowerByte c ≠ l ↔ c ≠ l ∧ c ≠ upperOf l) as Hc.
  { intros c. rewrite lower_or_upper by done. tauto. }
  destruct (Z.eqb_spec (upperOf l) l) as [Eu|Eu]; cbn [negb].
  - destruct (IndexByte candidates l) as [n|].
    + split; [tauto|]. intros j Hj. apply Hc. rewrite Eu. split; by apply H1.
    + intros j Hj. apply Hc. rewrite Eu. split; by apply H1.
  - destruct (IndexByte candidates (upperOf l)) as [u|], (IndexByte candidates l) as [n|];
      [destruct (Nat.ltb_spec u n)|..]; repeat (split; [tauto|]); try (split; [tauto|]);
      intros j Hj; apply Hc; split; first [apply H1; lia | apply H2; lia].
Qed.

Lemma Contains_hits s x a (hit : nat → Prop) limit :
  x ≠ [] → (∀ q, hit q ↔ (a ≤ q)%nat ∧ at_ s (q - a) x) → (limit + length x = length s + a + 1)%nat →
  ∀ b : bool, (if b then ∃ q, (q < limit)%nat ∧ hit q else ∀ q, (a ≤ q < limit)%nat → ¬ hit q) → b = Contains s x.
Proof.
  intros Hx Hh Hl b Hb. assert (length x ≠ 0)%nat by (by destruct x). symmetry. destruct b.
  - destruct Hb as (q & Hq & [Haq Hat]%Hh). apply Contains_at. exists (q - a)%nat. split; [lia|done].
  - apply not_true_iff_false. rewrite Contains_at. intros (i & Hi & H0). apply (Hb (i + a)%nat); [lia|].
    apply Hh. split; [lia|]. by rewrite Nat.add_sub.
Qed.

Lemma hit_char s x a q : (a < length x)%nat → (a ≤ q)%nat → (q < length s)%nat → at_ (fold s) (q - a) x → lowerByte (s !!! q) = x !!! a.
Proof.
  intros Ha Hq Hs H. rewrite <- fold_lookup by done. rewrite <- (at_char _ _ _ a H Ha). f_equal. lia.
Qed.

Lemma containsFoldASCIIOnly_eq s needle :
  lowered needle → containsFoldASCIIOnly s needle = Done (Contains (fold s) needle).
Proof.
  intros Hlow. unfold containsFoldASCIIOnly. destruct (Nat.eqb_spec (length needle) 0) as [E|E].
  { destruct needle; [|done]. f_equal. symmetry. apply Contains_app. by exists [], (fold s). }
  assert (needle ≠ []) as Hne by (by intros ->). destruct (Nat.ltb_spec (length s) (length needle)) as [Hlt|Hle].
  { f_equal. symmetry. apply not_true_iff_false. rewrite Contains_at, fold_length. intros (i & Hi & _). lia. }
  pose proof (anchorOf_lt needle Hne) as Ha. set (a := anchorOf needle) in *. rewrite index_lt by done. cbn [mbind run_bind].
  set (lower := needle !!! a). set (lastAnchor := (length s - length needle + a)%nat).
  pose (hit q := (a ≤ q)%nat ∧ at_ (fold s) (q - a) needle).
  assert (∀ pos q, (pos ≤ q < lastAnchor + 1)%nat → hit q →
    lowerByte (take (lastAnchor + 1 - pos) (drop pos s) !!! (q - pos)%nat) = lower) as Hchar.
  { intros pos q Hq [Hqa H]. rewrite lookup_total_take, decide_True, lookup_total_drop by lia.
    replace (pos + (q - pos))%nat with q by lia. apply hit_char; [done|done|lia|done]. }
  edestruct (scan_ok hit a (lastAnchor + 1)) with (fuel := S (length s)) (pos := a) as (b & Hb & Hs); [|done|lia|rewrite Hb].
  - intros pos Hpos. unfold anchorStep. rewrite slice_ok by lia. cbn [mbind run_bind].
    pose proof (anchor_first (take (lastAnchor + 1 - pos) (drop pos s)) lower (lowered_char needle a Hlow Ha)) as Hf. cbv zeta in Hf.
    destruct (if negb (upperOf lower =? lower) then _ else _) as [k|].
    + destruct Hf as [Hk Hno]. rewrite length_take, length_drop in Hk. cbn [mbind run_bind].
      assert (pos + k - a + length needle ≤ length s)%nat as Hin by lia.
      pose proof (compare_at s (pos + k - a) needle Hin) as Hcmp.
      destruct (slice s (pos + k - a) (pos + k - a + length needle)) as [part| |]; [|done|done]. cbn [mbind run_bind] in *.
      rewrite Hcmp. cbn [mbind run_bind]. eexists. split; [done|]. case_bool_decide as Hat.
      * exists (pos + k)%nat. split; [lia|]. split; [lia|done].
      * split; [lia|]. intros q Hq Hlim Hhit. destruct (decide (q = pos + k)%nat) as [->|]; [by destruct Hhit|].
        apply (Hno (q - pos)%nat); [lia|]. apply Hchar; [lia|done].
    + cbn [mbind run_bind]. eexists. split; [done|]. split; [lia|]. intros q Hq _ Hhit.
      apply (Hf (q - pos)%nat); [rewrite length_take, length_drop; lia|]. apply Hchar; [lia|done].
  - f_equal. apply (Contains_hits (fold s) needle a hit (lastAnchor + 1)); [done|done|rewrite fold_length; lia|done].
Qed.

Lemma lowered_wf_ascii s needle : wf_bytes needle → lowered needle → forallb asciiByte needle = true →
  containsFoldASCII s needle = Done (Contains (fold s) needle).
Proof.
  intros Hw Hlow Ha. unfold containsFoldASCII. destruct (Nat.eqb_spec (length needle) 0) as [E|E].
  { destruct needle; [|done]. f_equal. symmetry. apply Contains_app. by exists [], (fold s). }
  destruct (Nat.ltb_spec (length s) (length needle)) as [Hlt|Hle].
  { f_equal. symmetry. apply not_true_iff_false. rewrite Contains_at, fold_length. intros (i & Hi & _). lia. }
  rewrite isASCII_eq, Ha by done. cbn [mbind run_bind]. by apply containsFoldASCIIOnly_eq.
Qed.

(** The table lets the search move at most to the next place where the byte at
    the end of the window can be in the needle. *)
Definition shifts_ok (needle : bytes) (k : nat) (table : array Z) : Prop :=
  ∀ c, lowerByte c = c → 1 <= table c <= Z.of_nat (length needle) ∧
    ∀ i, (i < k)%nat → needle !!! i = c → table c <= Z.of_nat (length needle - 1 - i).

Lemma shiftEntry_ok needle k table :
  lowered needle → (k < length needle - 1)%nat → shifts_ok needle k table → shifts_ok needle (S k) (shiftEntry needle table k).
Proof.
  intros Hlow Hk Ht c Hc. unfold shiftEntry. rewrite lowered_char by (done || lia). set (x := needle !!! k).
  set (shift := if Z.of_nat (length needle - 1 - k) >? maxUint16 then maxUint16 else Z.of_nat (length needle - 1 - k)).
  assert (1 <= shift <= Z.of_nat (length needle - 1 - k)) as Hs.
  { subst shift. destruct (Z.gtb_spec (Z.of_nat (length needle - 1 - k)) maxUint16); unfold maxUint16 in *; lia. }
  set (t1 := if shift <? table x then set_byte table x shift else table).
  assert ((if (x >=? 0x61) && (x <=? 0x7a) then set_byte t1 (x - 0x20) (t1 x) else t1) c = t1 c) as ->.
  { destruct ((x >=? 0x61) && (x <=? 0x7a)) eqn:E; [|done]. unfold set_byte. destruct (Z.eqb_spec c (x - 0x20)); [|done].
    unfold lowerByte, in_range in Hc. revert Hc. split_ifs; lia. }
  destruct (Ht c Hc) as [H1 H2]. assert (t1 c = if c =? x then Z.min shift (table x) else table c) as ->.
  { subst t1. unfold set_byte. destruct (Z.ltb_spec shift (table x)), (Z.eqb_spec c x) as [->|]; lia. }
  destruct (Z.eqb_spec c x) as [->|Hcx].
  - split; [lia|]. intros i Hi E. destruct (decide (i = k)) as [->|]; [lia|]. specialize (H2 i). lia.
  - split; [lia|]. intros i Hi E. apply H2; [|done]. destruct (decide (i = k)) as [->|]; [by rewrite <- E in Hcx|lia].
Qed.

Lemma shifts_built needle D :
  lowered needle → (2 ≤ length needle)%nat → 1 <= D <= Z.of_nat (length needle) →
  shifts_ok needle (length needle - 1) (foldl (shiftEntry needle) (λ _, D) (seq 0 (length needle - 1))).
Proof.
  intros Hlow Hl HD.
  assert (∀ k, (k ≤ length needle - 1)%nat → shifts_ok needle k (foldl (shiftEntry needle) (λ _, D) (seq 0 k))) as H; [|by apply H].
  induction k as [|k IH]; intros Hk; [intros c Hc; split; [exact HD|intros i Hi; lia]|].
  rewrite seq_S, foldl_app. cbn [foldl Nat.add]. apply shiftEntry_ok; [done|lia|apply IH; lia].
Qed.

Lemma newFoldedLiteralMatcher_eq needle :
  wf_bytes needle → ∃ m, newFoldedLiteralMatcher needle = Done m ∧ m.(fm_needle) = needle ∧
    m.(fm_indexed) = (2 <=? length needle)%nat && forallb asciiByte needle ∧
    (m.(fm_indexed) = true → lowered needle →
      shifts_ok needle (length needle - 1) m.(fm_shift) ∧ m.(fm_anchorLower) = needle !!! anchorOf needle ∧
      m.(fm_anchorUpper) = upperOf (needle !!! anchorOf needle)).
Proof.
  intros Hw. unfold newFoldedLiteralMatcher. destruct (Nat.ltb_spec (length needle) 2) as [Hl|Hl].
  { eexists. split; [done|]. cbn [fm_needle fm_indexed]. destruct (Nat.leb_spec 2 (length needle)); [lia|].
    split; [done|]. by split. }
  rewrite (proj2 (Nat.leb_le 2 _)) by done. rewrite isASCII_eq by done. cbn [mbind run_bind andb].
  destruct (forallb asciiByte needle); cbn [negb]; [|by eexists]. assert (needle ≠ []) as Hne by (by intros ->; cbn in Hl; lia).
  rewrite index_lt by (by apply anchorOf_lt). cbn [mbind run_bind]. eexists. split; [done|].
  cbn [fm_needle fm_indexed fm_shift fm_anchorLower fm_anchorUpper]. split; [done|]. split; [done|].
  intros _ Hlow. split; [|done]. apply shifts_built; [done|done|].
  destruct (Z.gtb_spec (Z.of_nat (length needle)) maxUint16); unfold maxUint16 in *; lia.
Qed.

Lemma foldedStep_ok m value pos needle :
  m.(fm_needle) = needle → lowered needle → (2 ≤ length needle)%nat → shifts_ok needle (length needle - 1) m.(fm_shift) →
  (length needle - 1 ≤ pos < length value)%nat →
  let hit q := (length needle - 1 ≤ q)%nat ∧ at_ (fold value) (q - (length needle - 1)) needle in
  ∃ r, foldedStep m value pos = Done r ∧
    match r with
    | None => ∃ q, (q < length value)%nat ∧ hit q
    | Some p => (pos < p)%nat ∧ ∀ q, (pos ≤ q < p)%nat → (q < length value)%nat → ¬ hit q
    end.
Proof.
  intros Hm Hlow Hl Hsh Hpos. cbv zeta. unfold foldedStep. rewrite Hm. set (n := length needle) in *.
  replace (pos + 1 - n)%nat with (pos - (n - 1))%nat by lia.
  assert (pos - (n - 1) + n ≤ length value)%nat as Hin by lia. pose proof (compare_at value (pos - (n - 1)) needle Hin) as Hcmp.
  fold n in Hcmp. replace (pos - (n - 1) + n)%nat with (pos + 1)%nat in Hcmp by lia.
  destruct (slice value (pos - (n - 1)) (pos + 1)) as [part| |]; [|done|done]. cbn [mbind run_bind] in *. rewrite Hcmp.
  cbn [mbind run_bind]. case_bool_decide as Hat.
  { exists None. split; [done|]. exists pos. split; [lia|]. split; [lia|done]. }
  rewrite index_lt by lia. cbn [mbind run_bind]. eexists. split; [done|].
  destruct (Hsh (lowerByte (value !!! pos)) (lowerByte_lower _)) as [Hb Hi]. fold n in Hb, Hi. split; [lia|].
  intros q Hq Hqv [Hqn H]. destruct (decide (q = pos)) as [->|Hne]; [done|].
  destruct (decide (q - (n - 1) ≤ pos)%nat) as [Hov|]; [|lia].
  assert (pos - (q - (n - 1)) < length needle)%nat as Hk by (fold n; lia).
  specialize (Hi (pos - (q - (n - 1)))%nat ltac:(lia)).
  rewrite <- (at_char _ _ _ _ H Hk), <- fold_lookup in Hi by lia.
  replace (q - (n - 1) + (pos - (q - (n - 1))))%nat with pos in Hi by lia. specialize (Hi eq_refl).
  rewrite fold_lookup in Hi by lia. lia.
Qed.

Lemma anchor_absent value c l : lowerByte l = l → IndexByte value l = None → (upperOf l = l ∨ IndexByte value (upperOf l) = None) →
  c ∈ value → lowerByte c ≠ l.
Proof.
  intros Hl H1 H2 Hc E. apply lower_or_upper in E; [|done]. rewrite IndexByte_None, Forall_forall in H1.
  destruct H2 as [H2|H2]; [rewrite H2 in E; destruct E; by apply (H1 c)|].
  rewrite IndexByte_None, Forall_forall in H2. destruct E; [by apply (H1 c)|by apply (H2 c)].
Qed.

(** The literal matcher computes substring search on the folded input. *)
Lemma foldedMatch_eq needle value :
  wf_bytes needle → lowered needle → forallb asciiByte needle = true →
  (m ← newFoldedLiteralMatcher needle; foldedMatch m value) = Done (Contains (fold value) needle).
Proof.
  intros Hw Hlow Ha. destruct (newFoldedLiteralMatcher_eq needle Hw) as (m & -> & Hn & Hi & Hm). cbn [mbind run_bind].
  unfold foldedMatch. rewrite Hi, Ha, andb_true_r in *. destruct (Nat.leb_spec 2 (length needle)) as [Hl|Hl]; cbn [negb].
  2:{ rewrite Hn. by apply lowered_wf_ascii. }
  destruct (Hm eq_refl Hlow) as (Hsh & Hlo & Hup). rewrite Hlo, Hup, Hn. set (l := needle !!! anchorOf needle).
  assert (needle ≠ []) as Hne by (by intros ->; cbn in Hl; lia). pose proof (anchorOf_lt needle Hne) as Hlt.
  assert (lowerByte l = l) as Hll by (by apply lowered_char).
  destruct (match IndexByte value l with Some _ => false | None => _ end) eqn:E.
  - f_equal. symmetry. apply not_true_iff_false. rewrite Contains_at, fold_length. intros (i & Hin & H).
    destruct (IndexByte value l) eqn:E1; [done|]. apply orb_true_iff in E.
    apply (anchor_absent value (value !!! (i + anchorOf needle)%nat) l); [done|done|..].
    + destruct E as [E|E]; [left; by apply Z.eqb_eq|right; by destruct (IndexByte value (upperOf l))].
    + apply list_elem_of_lookup_total_2. lia.
    + rewrite <- fold_lookup by lia. by apply at_char.
  - edestruct (scan_ok (λ q, (length needle - 1 ≤ q)%nat ∧ at_ (fold value) (q - (length needle - 1)) needle)
      (length needle - 1) (length value) (foldedStep m value)) with (fuel := S (length value)) as (b & -> & Hb); [|done|lia|].
    + intros pos Hpos. by apply foldedStep_ok.
    + f_equal. eapply Contains_hits; [done|..|exact Hb]; [done|]. rewrite fold_length. lia.
Qed.

(** ** Required bytes *)

Definition hasBit (bits : bitmap) (c : Z) : bool := Z.testbit (bits !!! Z.to_nat (Z.shiftr c 6)) (Z.land c 63).

Lemma word_index c : is_byte c → Z.shiftr c 6 = c / 64 ∧ Z.land c 63 = c mod 64 ∧ (Z.to_nat (Z.shiftr c 6) < 4)%nat.
Proof.
  intros Hc. change 63 with (Z.ones 6). rewrite Z.land_ones, Z.shiftr_div_pow2 by lia. unfold is_byte in Hc.
  change (2 ^ 6) with 64. repeat split. dlia.
Qed.

Lemma hasBit_set bits v c : is_byte v → is_byte c → length bits = 4%nat →
  hasBit (setBit bits v) c = (c =? v) || hasBit bits c.
Proof.
  intros Hv Hc Hl. destruct (word_index v Hv) as (Ev1 & Ev2 & Hv3), (word_index c Hc) as (Ec1 & Ec2 & Hc3).
  unfold hasBit, setBit. set (i := Z.to_nat (Z.shiftr v 6)) in *. set (j := Z.to_nat (Z.shiftr c 6)) in *.
  destruct (decide (i = j)) as [Eij|Hij].
  - rewrite Eij. rewrite (list_lookup_total_correct _ _ (Z.lor (bits !!! j) (Z.shiftl 1 (Z.land v 63)))).
    2:{ rewrite list_lookup_alter_eq. rewrite list_lookup_lookup_total_lt by lia. done. }
    rewrite Z.lor_spec, orb_comm. f_equal. rewrite Ec2, Ev2, Z.shiftl_spec by dlia. unfold is_byte in *.
    subst i j. rewrite Ev1, Ec1 in Eij. destruct (Z.eqb_spec c v) as [->|Hcv].
    + by rewrite Z.sub_diag.
    + destruct (decide (c mod 64 - v mod 64 < 0)); [by apply Z.testbit_neg_r|].
      apply Z.bits_above_log2; [done|]. cbn. dlia.
  - destruct (Z.eqb_spec c v) as [->|_]; [done|]. cbn [orb]. f_equal. by apply list_lookup_total_alter_ne.
Qed.

Lemma setBit_length bits v : length (setBit bits v) = length bits.
Proof. apply length_alter. Qed.

(** The bits of a word. *)
Lemma setBit_word bits v i n : is_byte v → length bits = 4%nat → 0 <= n →
  Z.testbit (setBit bits v !!! i) n = ((i =? Z.to_nat (v / 64))%nat && (n =? v mod 64)) || Z.testbit (bits !!! i) n.
Proof.
  intros Hv Hl Hn. destruct (word_index v Hv) as (E1 & E2 & H3). unfold setBit. rewrite E1, E2 in *.
  destruct (Nat.eqb_spec i (Z.to_nat (v / 64))) as [->|Hi]; [|by rewrite list_lookup_total_alter_ne].
  rewrite (list_lookup_total_correct _ _ (Z.lor (bits !!! Z.to_nat (v / 64)) (Z.shiftl 1 (v mod 64)))).
  2:{ rewrite list_lookup_alter_eq. rewrite list_lookup_lookup_total_lt by lia. done. }
  rewrite Z.lor_spec, orb_comm, Z.shiftl_spec by lia. f_equal. destruct (Z.eqb_spec n (v mod 64)) as [->|Hne]; [by rewrite Z.sub_diag|].
  destruct (decide (n - v mod 64 < 0)); [by apply Z.testbit_neg_r|]. apply Z.bits_above_log2; [done|]. cbn. lia.
Qed.

Lemma presentBits_word value i n : wf_bytes value → (i < 4)%nat → 0 <= n →
  Z.testbit (presentBits value !!! i) n = (n <? 64) && containsByte value (64 * Z.of_nat i + n).
Proof.
  intros Hw Hi Hn. unfold presentBits.
  enough (∀ l bits, wf_bytes l → length bits = 4%nat →
    Z.testbit (foldl setBit bits l !!! i) n = (n <? 64) && containsByte l (64 * Z.of_nat i + n) || Z.testbit (bits !!! i) n) as H.
  { rewrite H by done. unfold noBits. rewrite lookup_total_replicate_2 by done. by rewrite Z.bits_0, orb_false_r. }
  clear Hw value. induction l as [|v l IH]; intros bits Hl Hb; [cbn; by rewrite andb_false_r|].
  apply Forall_cons in Hl as [Hv Hl]. cbn [foldl]. rewrite IH, setBit_word by (done || by rewrite setBit_length).
  unfold containsByte. cbn [existsb]. unfold is_byte in Hv.
  assert ((i =? Z.to_nat (v / 64))%nat && (n =? v mod 64) = (n <? 64) && (64 * Z.of_nat i + n =? v)) as ->.
  { destruct (Nat.eqb_spec i (Z.to_nat (v / 64))), (Z.eqb_spec n (v mod 64)), (Z.ltb_spec n 64), (Z.eqb_spec (64 * Z.of_nat i + n) v); try done; dlia. }
  by destruct (n <? 64), (_ =? v), (existsb _ l), (Z.testbit _ _).
Qed.

Lemma presentBits_length value : length (presentBits value) = 4%nat.
Proof.
  unfold presentBits. enough (∀ l bits, length (foldl setBit bits l) = length bits) as H by (by rewrite H).
  induction l as [|v l IH]; intros bits; [done|]. cbn [foldl]. by rewrite IH, setBit_length.
Qed.

Lemma containsByte_true l c : containsByte l c = true ↔ c ∈ l.
Proof.
  unfold containsByte. rewrite existsb_exists, list_elem_of_In. split; [|intros H; exists c; by rewrite Z.eqb_refl].
  by intros (x & Hx & ->%Z.eqb_eq).
Qed.

Lemma hasBit_present value c : wf_bytes value → is_byte c → hasBit (presentBits value) c = containsByte value c.
Proof.
  intros Hw Hc. destruct (word_index c Hc) as (E1 & E2 & Hi). unfold hasBit. unfold is_byte in Hc.
  rewrite presentBits_word by (done || dlia). rewrite E1, E2 in *. replace (c mod 64 <? 64) with true by dlia. cbn [andb]. f_equal. dlia.
Qed.

Lemma presentBits_spec value : wf_bytes value →
  length (presentBits value) = 4%nat ∧ ∀ c, c ∈ value → hasBit (presentBits value) c = true.
Proof.
  intros Hw. split; [apply presentBits_length|]. intros c Hc. rewrite hasBit_present; [by apply containsByte_true|done|].
  rewrite Forall_forall in Hw. auto.
Qed.

(** A byte in both sets. *)
Lemma intersects_true present bits c :
  is_byte c → length present = 4%nat → length bits = 4%nat → hasBit present c = true → hasBit bits c = true →
  intersects present bits = true.
Proof.
  intros Hc Hp Hb H1 H2. unfold intersects. apply existsb_exists. destruct (word_index c Hc) as (_ & E2 & Hi).
  set (i := Z.to_nat (Z.shiftr c 6)) in *. exists (present !!! i, bits !!! i). split.
  - apply list_elem_of_In, list_elem_of_lookup. exists i. apply lookup_zip_with_Some.
    exists (present !!! i), (bits !!! i). rewrite !list_lookup_lookup_total_lt by lia. done.
  - apply negb_true_iff, Z.eqb_neq. intros E. assert (Z.testbit (Z.land (present !!! i) (bits !!! i)) (Z.land c 63) = false) as Hz.
    { by rewrite E, Z.bits_0. }
    unfold hasBit in *. fold i in H1, H2. by rewrite Z.land_spec, H1, H2 in Hz.
Qed.

Lemma byteGroup_elem needle c : c ∈ byteGroup needle ↔ c ∈ needle.
Proof.
  unfold byteGroup. assert (∀ l g, c ∈ foldl (λ group value, if containsByte group value then group else group ++ [value]) g l ↔ c ∈ g ∨ c ∈ l) as H.
  { induction l as [|v l IH]; intros g; cbn [foldl]; [split; [by left|by intros [|?%elem_of_nil]]|].
    rewrite IH, elem_of_cons. destruct (containsByte g v) eqn:E.
    - apply containsByte_true in E. split; [tauto|]. intros [|[->|]]; tauto.
    - rewrite elem_of_app, list_elem_of_singleton. tauto. }
  rewrite H. split; [by intros [?%elem_of_nil|]|by right].
Qed.

Lemma bestByte_best counts : is_byte (bestByte counts) ∧ ∀ c, is_byte c → counts c <= counts (bestByte counts).
Proof.
  unfold bestByte. set (f := λ best value, if (_ >? _) || _ then value else best).
  assert (∀ n, (n ≤ 255)%nat → let b := foldl f 0 (seqZ 1 (Z.of_nat n)) in
    0 <= b <= Z.of_nat n ∧ ∀ c, 0 <= c <= Z.of_nat n → counts c <= counts b) as H.
  { induction n as [|n IH]; intros Hn; cbv zeta.
    - change (seqZ 1 (Z.of_nat 0)) with (@nil Z). cbn [foldl]. split; [lia|]. intros c Hc. by replace c with 0 by lia.
    - destruct IH as [Hb Hm]; [lia|]. cbv zeta in *. rewrite seqZ_S, foldl_app by lia. cbn [foldl].
      set (b := foldl f 0 (seqZ 1 (Z.of_nat n))) in *. set (v := 1 + Z.of_nat n).
      assert (counts b <= counts (f b v) ∧ counts v <= counts (f b v) ∧ (f b v = b ∨ f b v = v)) as (H1 & H2 & H3).
      { unfold f. destruct (Z.gtb_spec (counts v) (counts b)), (Z.eqb_spec (counts v) (counts b)), (byteRarity v >? byteRarity b);
          cbn [orb andb]; lia. }
      split; [lia|]. intros c Hc. destruct (decide (c = v)) as [->|]; [done|]. specialize (Hm c). lia. }
  destruct (H 255%nat) as [H1 H2]; [lia|]. cbv zeta in *. change (Z.of_nat 255) with 255 in *. split; [unfold is_byte; lia|]. intros c Hc. apply H2. unfold is_byte in Hc. lia.
Qed.

Lemma count_group group : ∀ counts c,
  let counts' := foldl (λ counts value, set_byte counts value (counts value + 1)) counts group in
  counts c <= counts' c ∧ (c ∈ group → counts c < counts' c) ∧ (c ∉ group → counts' c = counts c).
Proof.
  induction group as [|v group IH]; intros counts c; cbv zeta; cbn [foldl].
  { split; [done|]. split; [by intros ?%elem_of_nil|done]. }
  destruct (IH (set_byte counts v (counts v + 1)) c) as (H1 & H2 & H3). cbv zeta in *.
  assert (set_byte counts v (counts v + 1) c = if c =? v then counts v + 1 else counts c) as Es by done.
  rewrite Es in H1, H2, H3. rewrite elem_of_cons. destruct (Z.eqb_spec c v) as [E|Hc]; [subst v|].
  - split; [lia|]. split; [lia|tauto].
  - split; [done|]. split; [by intros [|]; auto|]. intros H. apply H3. tauto.
Qed.

Lemma countBytes_pos groups covered c :
  0 < countBytes groups covered c ↔ ∃ i group, covered !! i = Some false ∧ groups !! i = Some group ∧ c ∈ group.
Proof.
  unfold countBytes. set (f := λ counts '(cov, group), _).
  assert (∀ l (counts : array Z), 0 <= counts c → 0 <= foldl f counts l c ∧
    (0 < foldl f counts l c ↔ 0 < counts c ∨ ∃ i group, l !! i = Some (false, group) ∧ c ∈ group)) as H.
  { induction l as [|[cov group] l IH]; intros counts Hc; cbn [foldl].
    - split; [done|]. split; [by left|]. by intros [|(i & g & E & _)].
    - destruct (count_group group counts c) as (H1 & H2 & H3). cbv zeta in *.
      assert (0 <= f counts (cov, group) c) as Hf by (unfold f; destruct cov; lia).
      destruct (IH (f counts (cov, group)) Hf) as [Hp Hq]. split; [done|]. rewrite Hq. unfold f at 1.
      destruct cov.
      + split; intros [|(i & g & E & Hg)]; [by left|right; by exists (S i), g|by left|].
        right. destruct i as [|i]; [done|]. by exists i, g.
      + split.
        * intros [H|(i & g & E & Hg)]; [|right; by exists (S i), g].
          destruct (decide (c ∈ group)) as [Hin|Hin]; [right; by exists 0%nat, group|left; by rewrite <- H3].
        * intros [H|([|i] & g & E & Hg)]; [left; lia|injection E as <-; left; specialize (H2 Hg); lia|right; by exists i, g]. }
  destruct (H (zip covered groups) (λ _, 0)) as [_ Hq]; [done|]. rewrite Hq. split.
  - intros [|(i & g & E & Hg)]; [lia|]. apply lookup_zip_with_Some in E as (x & y & [= <- <-] & E1 & E2). by exists i, g.
  - intros (i & g & E1 & E2 & Hg). right. exists i, g. split; [|done]. apply lookup_zip_with_Some. by exists false, g.
Qed.

(** The bytes and the bits agree, and hold the capital of every letter when
    case is ignored. *)
Definition coherent (caseFold : bool) (st : array bool * bitmap) : Prop :=
  length st.2 = 4%nat ∧ (∀ c, is_byte c → hasBit st.2 c = st.1 c) ∧
  (caseFold = true → ∀ c, 0x61 <= c <= 0x7a → st.1 c = true → st.1 (c - 0x20) = true).

Lemma addByte_ok value caseFold st :
  is_byte value → coherent caseFold st →
  coherent caseFold (addByte value caseFold st) ∧ (addByte value caseFold st).1 value = true ∧
  ∀ c, st.1 c = true → (addByte value caseFold st).1 c = true.
Proof.
  intros Hv (Hl & Hb & Hf). destruct st as [bs bits]. cbn [fst snd] in *.
  assert (∀ c, set_byte bs value true c = (c =? value) || bs c) as Hs by (intros c; unfold set_byte; by destruct (c =? value)).
  unfold addByte. destruct (caseFold && (value >=? 0x61) && (value <=? 0x7a)) eqn:E; cbn [fst snd].
  - set (up := value - 0x20). assert (is_byte up) as Hup by (unfold is_byte in *; subst up; lia).
    assert (∀ c, set_byte (set_byte bs value true) up true c = (c =? up) || ((c =? value) || bs c)) as Hs2.
    { intros c. unfold set_byte at 1. rewrite Hs. by destruct (c =? up). }
    split; [|split].
    + unfold coherent. cbn [fst snd]. split; [by rewrite !setBit_length|]. split.
      * intros c Hc. rewrite !hasBit_set by (by rewrite ?setBit_length). by rewrite Hs2, Hb.
      * intros Hcf c Hc. rewrite !Hs2. destruct (Z.eqb_spec c up) as [->|_]; [subst up; lia|].
        destruct (Z.eqb_spec c value) as [->|_]; [by rewrite Z.eqb_refl|]. cbn [orb]. intros H.
        rewrite (Hf Hcf c Hc H). by rewrite !orb_true_r.
    + rewrite Hs2, Z.eqb_refl. by rewrite orb_true_r.
    + intros c H. rewrite Hs2, H. by rewrite !orb_true_r.
  - split; [|split].
    + unfold coherent. cbn [fst snd]. split; [by rewrite setBit_length|]. split.
      * intros c Hc. by rewrite hasBit_set, Hs, Hb.
      * intros Hcf c Hc. rewrite !Hs. subst caseFold. destruct (Z.eqb_spec c value) as [->|_]; [lia|]. cbn [orb]. intros H.
        rewrite (Hf eq_refl c Hc H). by rewrite orb_true_r.
    + by rewrite Hs, Z.eqb_refl.
    + intros c H. rewrite Hs, H. by rewrite orb_true_r.
Qed.

Definition uncovered (covered : list bool) : nat := length (filter (λ b, b = false) covered).

Lemma uncovered_lt covered groups best i group :
  covered !! i = Some false → groups !! i = Some group → containsByte group best = true → length covered = length groups →
  (uncovered (zip_with (λ (cov : bool) group, cov || containsByte group best) covered groups) < uncovered covered)%nat.
Proof.
  unfold uncovered. revert i groups. induction covered as [|cov covered IH]; intros i [|g groups] Hc Hg Hb Hl; try done.
  cbn [zip_with]. rewrite !filter_cons. destruct i as [|i].
  - injection Hc as ->. injection Hg as ->. rewrite Hb. cbn [orb]. rewrite decide_False, decide_True by done. cbn [length].
    clear IH Hb. injection Hl as Hl. apply le_n_S. revert groups Hl.
    induction covered as [|cov covered IH]; intros [|g groups] Hl; try done. cbn [zip_with]. rewrite !filter_cons.
    specialize (IH groups ltac:(by injection Hl)). destruct cov, (containsByte g best); cbn [orb]; repeat case_decide; try done; cbn [length]; lia.
  - specialize (IH i groups Hc Hg Hb ltac:(by injection Hl)).
    destruct cov, (containsByte g best); cbn [orb]; repeat case_decide; try done; cbn [length]; lia.
Qed.

Lemma forallb_id_false covered : forallb id covered = false → ∃ i, covered !! i = Some false.
Proof.
  induction covered as [|b covered IH]; cbn; [done|]. destruct b; cbn; [|by exists 0%nat].
  intros H. destruct (IH H) as (i & Hi). by exists (S i).
Qed.

Lemma all_covered covered (groups : list bytes) (P : bytes → Prop) :
  forallb id covered = true → length covered = length groups →
  (∀ i g, covered !! i = Some true → groups !! i = Some g → P g) → Forall P groups.
Proof.
  intros Hall Hl H. apply Forall_forall. intros g (i & Hi)%list_elem_of_lookup. apply (H i); [|done].
  destruct (lookup_lt_is_Some_2 covered i) as [b Eb]; [rewrite Hl; by eapply lookup_lt_Some|]. rewrite Eb. f_equal.
  rewrite forallb_forall in Hall. apply Hall, list_elem_of_In, list_elem_of_lookup. by exists i.
Qed.

(** The byte that is chosen is in a needle that is not covered. *)
Lemma best_uncovered groups covered i :
  Forall (λ g, g ≠ [] ∧ wf_bytes g) groups → length covered = length groups → covered !! i = Some false →
  let best := bestByte (countBytes groups covered) in
  is_byte best ∧ ∃ j g, covered !! j = Some false ∧ groups !! j = Some g ∧ best ∈ g.
Proof.
  intros Hg Hl Hi best. destruct (bestByte_best (countBytes groups covered)) as [Hb Hmax]. fold best in Hb, Hmax.
  split; [done|]. apply countBytes_pos.
  destruct (lookup_lt_is_Some_2 groups i) as [g Eg]; [rewrite <- Hl; by eapply lookup_lt_Some|].
  rewrite Forall_forall in Hg. destruct (Hg g) as [Hne Hw]; [by eapply list_elem_of_lookup_2|]. destruct g as [|c g]; [done|].
  apply Forall_cons in Hw as [Hc _]. eapply Z.lt_le_trans; [|apply (Hmax c Hc)]. apply countBytes_pos. exists i, (c :: g).
  split; [done|]. split; [done|by left].
Qed.

Lemma chooseBytes_ok caseFold groups fuel : ∀ covered st,
  Forall (λ g, g ≠ [] ∧ wf_bytes g) groups → length covered = length groups → (uncovered covered ≤ fuel)%nat →
  coherent caseFold st →
  (∀ i g, covered !! i = Some true → groups !! i = Some g → ∃ c, c ∈ g ∧ st.1 c = true) →
  ∃ st', chooseBytes fuel caseFold groups covered st = Done st' ∧ coherent caseFold st' ∧
    Forall (λ g, ∃ c, c ∈ g ∧ st'.1 c = true) groups.
Proof.
  induction fuel as [|fuel IH]; intros covered st Hg Hl Hf Hst Hcov; cbn [chooseBytes];
    (destruct (forallb id covered) eqn:Eall; [exists st; split; [done|]; split; [done|]; by eapply all_covered|]);
    destruct (forallb_id_false covered Eall) as (i & Hi); destruct (best_uncovered groups covered i Hg Hl Hi) as (Hb & j & g & Hj & Hgj & Hin);
    set (best := bestByte (countBytes groups covered)) in *;
    pose proof (uncovered_lt covered groups best j g Hj Hgj (proj2 (containsByte_true g best) Hin) Hl); [lia|].
  destruct (addByte_ok best caseFold st Hb Hst) as (Hst' & Hbest & Hmono).
  apply IH; [done|rewrite length_zip_with; lia|lia|done|].
  intros k g' Hk Hgk. apply lookup_zip_with_Some in Hk as (b & g'' & Eq & Hb' & Hg''). assert (g'' = g') as -> by congruence.
  symmetry in Eq. apply orb_true_iff in Eq as [->|Hc].
  - destruct (Hcov k g' Hb' Hgk) as (c & Hc & Hs). exists c. auto.
  - apply containsByte_true in Hc. by exists best.
Qed.

Lemma ContainsAny_existsb s set : ContainsAny s set = existsb (λ c, byte_in c set) s.
Proof.
  unfold ContainsAny. induction s as [|c s IH]; [done|]. cbn [IndexAny existsb]. destruct (byte_in c set); [done|].
  cbn [orb]. rewrite <- IH. by destruct (IndexAny s set).
Qed.

Lemma existsb_ext_in (f g : Z → bool) l : (∀ c, In c l → f c = g c) → existsb f l = existsb g l.
Proof. induction l as [|c l IH]; intros H; [done|]. cbn. rewrite (H c), IH; [done|..|by left]. intros x Hx. apply H. by right. Qed.

Lemma selected_byte (bs : array bool) c : is_byte c → byte_in c (filter (λ value, bs value = true) (seqZ 0 256)) = bs c.
Proof.
  intros Hc. unfold byte_in. apply eq_true_iff_eq. rewrite existsb_exists. split.
  - intros (x & Hx%list_elem_of_In%list_elem_of_filter & E%Z.eqb_eq). subst x. tauto.
  - intros Hb. exists c. split; [|apply Z.eqb_refl]. apply list_elem_of_In, list_elem_of_filter. split; [done|].
    apply elem_of_seqZ. unfold is_byte in Hc. lia.
Qed.

(** The filter holds a byte of every needle. *)
Record required_ok (caseFold : bool) (needles : list bytes) (m : requiredByteMatcher) : Prop := {
  ro_coherent : coherent caseFold (m.(rm_bytes), m.(rm_bits));
  ro_covers : Forall (λ needle, ∃ c, c ∈ needle ∧ m.(rm_bytes) c = true) needles;
  ro_match : ∀ value, wf_bytes value → requiredMatch m value = existsb m.(rm_bytes) value;
}.

Lemma newRequiredByteMatcher_ok needles caseFold :
  Forall (λ x, x ≠ [] ∧ wf_bytes x) needles →
  ∃ m, newRequiredByteMatcher needles caseFold = Done m ∧ required_ok caseFold needles m.
Proof.
  intros Hn. unfold newRequiredByteMatcher.
  destruct (chooseBytes_ok caseFold (byteGroup <$> needles) (length needles) (replicate (length (byteGroup <$> needles)) false)
    (λ _, false, noBits)) as ([bs bits] & -> & Hc & Hg).
  - apply Forall_fmap. eapply Forall_impl; [exact Hn|]. intros x [H1 H2]. cbn. split.
    + destruct x as [|c x]; [done|]. intros E. assert (c ∈ byteGroup (c :: x)) as H by (apply byteGroup_elem, elem_of_cons; by left).
      rewrite E in H. by apply elem_of_nil in H.
    + apply Forall_forall. intros c Hc. apply (byteGroup_elem x) in Hc. rewrite Forall_forall in H2. by apply H2.
  - by rewrite length_replicate.
  - unfold uncovered. rewrite length_fmap. etransitivity; [apply length_filter|]. by rewrite length_replicate.
  - split; [done|]. split; [|done]. intros c Hc. cbn [fst snd]. unfold hasBit, noBits.
    destruct (word_index c Hc) as (_ & _ & Hi). rewrite lookup_total_replicate_2 by done. apply Z.bits_0.
  - intros i g Hi. apply lookup_replicate in Hi as [Hi _]. done.
  - cbn [mbind run_bind]. eexists. split; [done|]. split; cbn [rm_bytes rm_bits]; [done|..].
    + rewrite Forall_forall in Hg. apply Forall_forall. intros x Hx.
      destruct (Hg (byteGroup x)) as (c & Hin & Hb); [by apply list_elem_of_fmap_2|]. apply (byteGroup_elem x) in Hin. by exists c.
    + intros value Hv. unfold requiredMatch. cbn [rm_ascii rm_characters rm_bytes]. destruct (forallb _ _); [|done].
      rewrite ContainsAny_existsb. apply existsb_ext_in. intros c Hc'%list_elem_of_In. rewrite Forall_forall in Hv.
      apply selected_byte. by apply Hv.
Qed.

Lemma fold_elem s c : c ∈ fold s → ∃ c', c' ∈ s ∧ lowerByte c' = c.
Proof. unfold fold. intros (c' & -> & H)%list_elem_of_fmap. by exists c'. Qed.

(** An input that holds a needle passes the filter. *)
Lemma required_sound caseFold needles m needle value :
  required_ok caseFold needles m → needle ∈ needles → wf_bytes value →
  Contains (if caseFold then fold value else value) needle = true →
  ∃ c, c ∈ value ∧ m.(rm_bytes) c = true.
Proof.
  intros [(_ & _ & Hf) Hc _] Hn Hw Hcont. rewrite Forall_forall in Hc. destruct (Hc needle Hn) as (c & Hcn & Hb).
  apply Contains_app in Hcont as (p & r & E). assert (c ∈ (if caseFold then fold value else value)) as Hin.
  { rewrite E, !elem_of_app. tauto. }
  destruct caseFold; [|by exists c]. apply fold_elem in Hin as (c' & Hc' & <-). exists c'. split; [done|].
  unfold lowerByte, in_range in Hb. destruct ((0x41 <=? c') && (c' <=? 0x5a)) eqn:Er; [|done].
  specialize (Hf eq_refl (c' + 0x20)). cbn [fst] in Hf. replace (c' + 0x20 - 0x20) with c' in Hf by lia. apply Hf; [lia|done].
Qed.

Lemma requiredMatch_sound caseFold needles m needle value :
  required_ok caseFold needles m → needle ∈ needles → wf_bytes value →
  Contains (if caseFold then fold value else value) needle = true → requiredMatch m value = true.
Proof.
  intros Hm Hn Hw Hcont. destruct (required_sound _ _ _ _ _ Hm Hn Hw Hcont) as (c & Hc & Hb).
  rewrite (ro_match _ _ _ Hm) by done. apply existsb_exists. exists c. split; [by apply list_elem_of_In|done].
Qed.

Lemma requiredBits_sound caseFold needles m needle value :
  required_ok caseFold needles m → needle ∈ needles → wf_bytes value →
  Contains (if caseFold then fold value else value) needle = true → intersects (presentBits value) m.(rm_bits) = true.
Proof.
  intros Hm Hn Hw Hcont. destruct (required_sound _ _ _ _ _ Hm Hn Hw Hcont) as (c & Hc & Hb).
  destruct (ro_coherent _ _ _ Hm) as (Hl & Hbits & _). destruct (presentBits_spec value Hw) as [Hpl Hp].
  assert (is_byte c) as Hbyte by (rewrite Forall_forall in Hw; by apply Hw).
  apply (intersects_true _ _ c); [done|done|done|by apply Hp|by rewrite Hbits].
Qed.

(** ** Many literals *)

Lemma u8_le x : 0 <= x → 0 <= u8 x <= x.
Proof. intros Hx. unfold u8. split; [apply Z.mod_pos_bound; lia|apply Z.mod_le; lia]. Qed.

(** A table that only went down from another. *)
Definition below (t t' : array Z) : Prop := ∀ c, 0 <= t' c <= t c.

Lemma below_refl t : (∀ c, 0 <= t c) → below t t.
Proof. intros H c. specialize (H c). lia. Qed.

Lemma below_trans t1 t2 t3 : below t1 t2 → below t2 t3 → below t1 t3.
Proof. intros H1 H2 c. specialize (H1 c). specialize (H2 c). lia. Qed.

Lemma lower_to_below t key shift : (∀ c, 0 <= t c) → 0 <= shift → below t (lower_to t key shift) ∧ lower_to t key shift key <= shift.
Proof.
  intros Ht Hs. unfold lower_to, set_byte. split.
  - intros c. specialize (Ht c). destruct (Z.ltb_spec shift (t key)); [|lia]. destruct (Z.eqb_spec c key) as [->|]; lia.
  - destruct (Z.ltb_spec shift (t key)); [by rewrite Z.eqb_refl|lia].
Qed.

(** A loop that lowers the table, and what an iteration leaves stays. *)
Lemma foldM_below {A} (f : array Z → A → run (array Z)) (P : A → array Z → Prop) l :
  (∀ x t, x ∈ l → (∀ c, 0 <= t c) → ∃ t', f t x = Done t' ∧ below t t' ∧ P x t') →
  (∀ x t t', P x t → below t t' → P x t') →
  ∀ t, (∀ c, 0 <= t c) → ∃ t', foldM f l t = Done t' ∧ below t t' ∧ Forall (λ x, P x t') l.
Proof.
  intros Hf Hp. induction l as [|x l IH]; intros t Ht; cbn [foldM].
  { exists t. split; [done|]. split; [by apply below_refl|constructor]. }
  destruct (Hf x t) as (t1 & -> & Hb1 & Hx); [by left|done|]. cbn [mbind run_bind].
  destruct IH with (t := t1) as (t2 & -> & Hb2 & Hl).
  - intros y t' Hy. apply Hf. by right.
  - intros c. apply Hb1.
  - exists t2. split; [done|]. split; [by eapply below_trans|]. constructor; [by eapply Hp|done].
Qed.

Lemma shortest_spec n needles :
  Forall (λ x, (shortest (n :: needles) ≤ length x)%nat) (n :: needles) ∧ ∃ x, x ∈ n :: needles ∧ length x = shortest (n :: needles).
Proof.
  unfold shortest. set (f := λ m needle, _).
  assert (∀ l m, (foldl f m l ≤ m)%nat ∧ Forall (λ x, (foldl f m l ≤ length x)%nat) l ∧
    (foldl f m l = m ∨ ∃ x, x ∈ l ∧ length x = foldl f m l)) as H.
  { induction l as [|x l IH]; intros m; cbn [foldl]; [split; [done|]; split; [constructor|by left]|].
    destruct (IH (f m x)) as (H1 & H2 & H3). assert (f m x ≤ m ∧ f m x ≤ length x ∧ (f m x = m ∨ f m x = length x))%nat as (F1 & F2 & F3).
    { unfold f. destruct (Nat.ltb_spec (length x) m); lia. }
    split; [lia|]. split; [constructor; [lia|done]|]. destruct H3 as [H3|(y & Hy & E)].
    - rewrite H3. destruct F3 as [F3|F3]; [by left|right]. exists x. split; [by left|done].
    - right. exists y. split; [by right|done]. }
  destruct (H needles (length n)) as (H1 & H2 & H3). split; [by constructor|].
  destruct H3 as [H3|(y & Hy & E)]; [exists n; split; [by left|done]|exists y; split; [by right|done]].
Qed.

Lemma push_bucket_elem buckets key needle k x :
  x ∈ push_bucket buckets key needle k ↔ x ∈ buckets k ∨ (k = key ∧ x = needle).
Proof.
  unfold push_bucket, set_byte. destruct (Z.eqb_spec k key) as [->|Hk].
  - rewrite elem_of_app, list_elem_of_singleton. tauto.
  - tauto.
Qed.

(** The buckets hold each needle under its key. *)
Lemma foldM_buckets (keyOf : bytes → run Z) (key : bytes → Z) needles :
  (∀ x, x ∈ needles → keyOf x = Done (key x)) →
  ∀ buckets, ∃ b, foldM (λ buckets needle, k ← keyOf needle; Done (push_bucket buckets k needle)) needles buckets = Done b ∧
    ∀ k x, x ∈ b k ↔ x ∈ buckets k ∨ (x ∈ needles ∧ key x = k).
Proof.
  intros Hk. induction needles as [|n needles IH]; intros buckets; cbn [foldM].
  { exists buckets. split; [done|]. intros k x. split; [by left|]. by intros [|[?%elem_of_nil _]]. }
  rewrite Hk by (by left). cbn [mbind run_bind].
  destruct IH with (buckets := push_bucket buckets (key n) n) as (b & -> & Hb); [intros x Hx; apply Hk; by right|].
  exists b. split; [done|]. intros k x. rewrite Hb, push_bucket_elem, elem_of_cons. naive_solver.
Qed.

Section window.
Context (norm : Z → Z) (eq : bytes → bytes → run bool).
Context (eq_ok : ∀ part needle, length part = length needle → eq part needle = Done ((norm <$> part : bytes) =s needle)).

Lemma verify_ok value start bucket :
  (start ≤ length value)%nat → Forall (λ x, x ≠ []) bucket →
  verify eq value start bucket = Done (existsb (λ x, bool_decide (at_ (norm <$> value) start x)) bucket).
Proof.
  intros Hs. induction 1 as [|x bucket Hx _ IH]; cbn [verify existsb]; [done|].
  destruct (Nat.leb_spec (start + length x) (length value)) as [Hle|Hgt]; cbn [and_then].
  - rewrite slice_ok by lia. cbn [mbind run_bind]. replace (start + length x - start)%nat with (length x) by lia.
    rewrite eq_ok by (rewrite length_take, length_drop; lia). cbn [mbind run_bind].
    assert (((norm <$> take (length x) (drop start value) : bytes) =s x) = bool_decide (at_ (norm <$> value) start x)) as ->.
    { apply eq_true_iff_eq. rewrite bytes_eqb_eq, bool_decide_eq_true. unfold at_. by rewrite <- fmap_drop, <- fmap_take. }
    destruct (bool_decide _); [done|exact IH].
  - cbn [mbind run_bind]. rewrite bool_decide_eq_false_2; [exact IH|]. intros H%at_length; [|done].
    rewrite length_fmap in H. lia.
Qed.

(** One position: the shift passes no needle, and the bucket of a zero shift
    holds every needle that can be there. *)
Lemma windowStep_ok value minLen pos shift bucket (needles : list bytes) :
  (1 ≤ minLen)%nat → (minLen - 1 ≤ pos < length value)%nat → 0 <= shift →
  Forall (λ x, x ≠ []) needles → (∀ x, x ∈ bucket → x ∈ needles) →
  let hit q := (minLen - 1 ≤ q)%nat ∧ ∃ x, x ∈ needles ∧ at_ (norm <$> value) (q - (minLen - 1)) x in
  (∀ q, (pos ≤ q < pos + Z.to_nat shift)%nat → (q < length value)%nat → ¬ hit q) →
  (∀ x, x ∈ needles → at_ (norm <$> value) (pos - (minLen - 1)) x → x ∈ bucket) →
  ∃ r, windowStep eq value minLen pos shift bucket = Done r ∧
    match r with
    | None => ∃ q, (q < length value)%nat ∧ hit q
    | Some p => (pos < p)%nat ∧ ∀ q, (pos ≤ q < p)%nat → (q < length value)%nat → ¬ hit q
    end.
Proof.
  intros Hm Hpos Hs Hne Hsub hit Hshift Hbucket. unfold windowStep. destruct (Z.eqb_spec shift 0) as [->|Hz]; cbn [negb].
  - replace (pos + 1 - minLen)%nat with (pos - (minLen - 1))%nat by lia. rewrite verify_ok; [|lia|].
    2:{ apply Forall_forall. intros x Hx. rewrite Forall_forall in Hne. by apply Hne, Hsub. }
    cbn [mbind run_bind]. eexists. split; [done|]. destruct (existsb _ _) eqn:E.
    + apply existsb_exists in E as (x & Hx%list_elem_of_In & Hat%bool_decide_eq_true_1). exists pos. split; [lia|].
      split; [lia|]. exists x. auto.
    + split; [lia|]. intros q Hq _ [_ (x & Hx & Hat)]. replace q with pos in Hat by lia.
      apply not_true_iff_false in E. apply E, existsb_exists. exists x. split; [by apply list_elem_of_In, Hbucket|].
      by apply bool_decide_eq_true_2.
  - eexists. split; [done|]. split; [lia|done].
Qed.

Lemma window_contains value minLen (needles : list bytes) (b : bool) :
  (1 ≤ minLen)%nat → (minLen ≤ length value)%nat → Forall (λ x, (minLen ≤ length x)%nat) needles →
  let hit q := (minLen - 1 ≤ q)%nat ∧ ∃ x, x ∈ needles ∧ at_ (norm <$> value) (q - (minLen - 1)) x in
  (if b then ∃ q, (q < length value)%nat ∧ hit q else ∀ q, (minLen - 1 ≤ q < length value)%nat → ¬ hit q) →
  b = existsb (Contains (norm <$> value)) needles.
Proof.
  intros Hm Hl Hn hit Hb. rewrite Forall_forall in Hn. symmetry. destruct b.
  - destruct Hb as (q & Hq & Hq1 & x & Hx & Hat). apply existsb_exists. exists x. split; [by apply list_elem_of_In|].
    apply Contains_at. exists (q - (minLen - 1))%nat. split; [|done]. apply at_length; [done|]. intros ->.
    specialize (Hn [] Hx). cbn in Hn. lia.
  - apply not_true_iff_false. rewrite existsb_exists. intros (x & Hx%list_elem_of_In & (i & Hi & Hat)%Contains_at).
    specialize (Hn x Hx). rewrite length_fmap in Hi. apply (Hb (i + (minLen - 1))%nat); [lia|]. split; [lia|]. exists x.
    split; [done|]. by rewrite Nat.add_sub.
Qed.
End window.

(** The pair of a needle at [i]. *)
Definition needlePair (x : bytes) (i : nat) : Z := bytePair (x !!! i) (x !!! (i + 1)%nat).

Lemma pairAt_eq x i : (i + 1 < length x)%nat → pairAt x i = Done (needlePair x i).
Proof. intros Hi. unfold pairAt. rewrite index_lt by lia. cbn [mbind run_bind]. rewrite index_lt by lia. done. Qed.

Lemma pairShifts_ok minLen needles D :
  (2 ≤ minLen)%nat → Forall (λ x, (minLen ≤ length x)%nat) needles → 0 <= D →
  ∃ T, pairShifts minLen needles (λ _, D) = Done T ∧ (∀ k, 0 <= T k <= D) ∧
    ∀ x i, x ∈ needles → (i ≤ minLen - 2)%nat → T (needlePair x i) <= Z.of_nat (minLen - 2 - i).
Proof.
  intros Hm Hn HD. rewrite Forall_forall in Hn.
  pose (P x (t : array Z) := ∀ i, (i ≤ minLen - 2)%nat → t (needlePair x i) <= Z.of_nat (minLen - 2 - i)).
  destruct (foldM_below (λ table needle, foldM (λ table i, pair ← pairAt needle i;
      Done (lower_to table pair (u8 (Z.of_nat (minLen - 2 - i))))) (seq 0 (minLen - 1)) table) P needles) with (t := λ _ : Z, D)
    as (T & E & Hb & HT).
  - intros x t Hx Ht. destruct (foldM_below (λ table i, pair ← pairAt x i;
      Done (lower_to table pair (u8 (Z.of_nat (minLen - 2 - i))))) (λ i t, t (needlePair x i) <= Z.of_nat (minLen - 2 - i))
      (seq 0 (minLen - 1))) with (t := t) as (t' & -> & Hb & Hi).
    + intros i t0 Hi%elem_of_seq Ht0. specialize (Hn x Hx). rewrite pairAt_eq by lia. cbn [mbind run_bind].
      pose proof (u8_le (Z.of_nat (minLen - 2 - i)) ltac:(lia)) as Hu.
      destruct (lower_to_below t0 (needlePair x i) (u8 (Z.of_nat (minLen - 2 - i))) Ht0 ltac:(lia)) as [H1 H2].
      eexists. split; [done|]. split; [done|]. lia.
    + intros i t1 t2 H1 H2. specialize (H2 (needlePair x i)). lia.
    + done.
    + exists t'. split; [done|]. split; [done|]. intros i Hi'. rewrite Forall_forall in Hi. apply Hi, elem_of_seq. lia.
  - intros x t t' H1 H2 i Hi. specialize (H1 i Hi). specialize (H2 (needlePair x i)). lia.
  - intros _. done.
  - exists T. split; [done|]. split; [exact Hb|]. intros x i Hx. rewrite Forall_forall in HT. by apply HT.
Qed.

Section pair_index.
Context (norm : Z → Z) (eq : bytes → bytes → run bool).
Context (eq_ok : ∀ part needle, length part = length needle → eq part needle = Done ((norm <$> part : bytes) =s needle)).

Lemma norm_lookup value i : (i < length value)%nat → (norm <$> value : bytes) !!! i = norm (value !!! i).
Proof. intros Hi. apply list_lookup_total_correct. by rewrite list_lookup_fmap, list_lookup_lookup_total_lt. Qed.

Lemma pair_search value minLen needles (T : array Z) (B : array (list bytes)) :
  (2 ≤ minLen ≤ length value)%nat → Forall (λ x, (minLen ≤ length x)%nat) needles →
  (∀ k, 0 <= T k <= Z.of_nat (minLen - 1)) →
  (∀ x i, x ∈ needles → (i ≤ minLen - 2)%nat → T (needlePair x i) <= Z.of_nat (minLen - 2 - i)) →
  (∀ k x, x ∈ B k ↔ x ∈ needles ∧ needlePair x (minLen - 2) = k) →
  scan (S (length value)) (length value) (λ end_,
    a ← index value (end_ - 1); b ← index value end_;
    let pair := bytePair (norm a) (norm b) in windowStep eq value minLen end_ (T pair) (B pair)) (minLen - 1) =
  Done (existsb (Contains (norm <$> value)) needles).
Proof.
  intros Hm Hn HT Hsh HB. pose proof Hn as Hn'. rewrite Forall_forall in Hn'. set (v := (norm <$> value : bytes)).
  assert (Forall (λ x, x ≠ []) needles) as Hne.
  { apply Forall_forall. intros x Hx ->. specialize (Hn' [] Hx). cbn in Hn'. lia. }
  pose (hit q := (minLen - 1 ≤ q)%nat ∧ ∃ x, x ∈ needles ∧ at_ v (q - (minLen - 1)) x).
  match goal with |- scan _ _ ?step _ = _ =>
    destruct (scan_ok hit (minLen - 1) (length value) step) with (fuel := S (length value)) (pos := (minLen - 1)%nat)
      as (b & -> & Hb); [|done|lia|] end.
  2:{ f_equal. apply (window_contains norm value minLen needles b); [lia|lia|done|done]. }
  intros pos Hpos. rewrite !index_lt by lia. cbn [mbind run_bind]. cbv zeta.
  rewrite <- !norm_lookup by lia. fold v.
  assert (∀ q x, (minLen - 1 ≤ q)%nat → x ∈ needles → at_ v (q - (minLen - 1)) x → (q - (minLen - 1) ≤ pos - 1)%nat → (pos ≤ q)%nat →
    bytePair (v !!! (pos - 1)%nat) (v !!! pos) = needlePair x (pos - 1 - (q - (minLen - 1)))) as Hkey.
  { intros q x Hq Hx Hat Hlo Hhi. specialize (Hn' x Hx). unfold needlePair.
    rewrite <- !(at_char _ _ _ _ Hat) by lia. f_equal; f_equal; lia. }
  apply windowStep_ok with (norm := norm) (needles := needles); [done|lia|lia|apply HT|done|..].
  - intros x Hx. by apply HB in Hx as [Hx _].
  - intros q Hq Hqv [Hq1 (x & Hx & Hat)]. fold v in Hat. destruct (decide (q - (minLen - 1) ≤ pos - 1)%nat) as [Hov|Hov].
    + rewrite (Hkey q x) in Hq by (done || lia). specialize (Hsh x (pos - 1 - (q - (minLen - 1)))%nat Hx ltac:(lia)). lia.
    + specialize (HT (bytePair (v !!! (pos - 1)%nat) (v !!! pos))). lia.
  - intros x Hx Hat. apply HB. split; [done|]. rewrite (Hkey pos x) by (done || lia). f_equal. lia.
Qed.
End pair_index.

Definition normOf (caseFold : bool) : Z → Z := if caseFold then lowerByte else id.

Lemma byteShifts_ok caseFold needles D :
  Forall (λ x, (1 ≤ length x)%nat ∧ (caseFold = true → lowered x)) needles → 0 <= D →
  ∃ T, byteShifts 1 caseFold needles (λ _, D) = Done T ∧ (∀ k, 0 <= T k <= D) ∧
    ∀ x c, x ∈ needles → normOf caseFold c = x !!! 0%nat → T c = 0.
Proof.
  intros Hn HD. rewrite Forall_forall in Hn.
  pose (P (x : bytes) (t : array Z) := ∀ c, normOf caseFold c = x !!! 0%nat → t c <= 0).
  destruct (foldM_below (λ table needle, foldM (λ table i,
      c ← index needle i;
      let shift := u8 (Z.of_nat (1 - 1 - i)) in
      let table := lower_to table c shift in
      Done (if caseFold && (c >=? 0x61) && (c <=? 0x7a) then lower_to table (c - 0x20) shift else table)) (seq 0 1) table) P needles)
    with (t := λ _ : Z, D) as (T & E & Hb & HT).
  - intros x t Hx Ht. destruct (Hn x Hx) as [Hl Hlow]. cbn [seq foldM]. rewrite index_lt by lia. cbn [mbind run_bind]. cbv zeta.
    change (u8 (Z.of_nat (1 - 1 - 0))) with 0. set (x0 := x !!! 0%nat) in *.
    destruct (lower_to_below t x0 0 Ht ltac:(done)) as [B1 L1].
    assert (∀ c, 0 <= lower_to t x0 0 c) as Ht1 by (intros c; apply B1).
    destruct (lower_to_below (lower_to t x0 0) (x0 - 0x20) 0 Ht1 ltac:(done)) as [B2 L2].
    eexists. split; [done|]. destruct (caseFold && (x0 >=? 0x61) && (x0 <=? 0x7a)) eqn:Ec.
    + split; [by eapply below_trans|]. intros c Hc. destruct caseFold; [|done]. cbn [normOf] in Hc.
      apply lower_or_upper in Hc; [|apply lowered_char; [by apply Hlow|lia]]. unfold upperOf in Hc. cbn [andb] in Ec. fold x0 in Hc.
      rewrite Ec in Hc. destruct Hc as [-> | ->]; [|done]. specialize (B2 x0). lia.
    + split; [done|]. intros c Hc. destruct caseFold; [|by cbn in Hc; unfold id in Hc; subst c].
      cbn [normOf] in Hc. apply lower_or_upper in Hc; [|apply lowered_char; [by apply Hlow|lia]]. unfold upperOf in Hc.
      cbn [andb] in Ec. fold x0 in Hc. rewrite Ec in Hc. by destruct Hc as [-> | ->].
  - intros x t t' H1 H2 c Hc. specialize (H1 c Hc). specialize (H2 c). lia.
  - intros _. done.
  - exists T. split; [done|]. split; [exact Hb|]. intros x c Hx Hc. rewrite Forall_forall in HT. specialize (HT x Hx c Hc).
    specialize (Hb c). lia.
Qed.

Lemma byte_search caseFold eq value needles (T : array Z) (B : array (list bytes)) :
  (∀ part needle, length part = length needle → eq part needle = Done ((normOf caseFold <$> part : bytes) =s needle)) →
  (1 ≤ length value)%nat → Forall (λ x, (1 ≤ length x)%nat) needles →
  (∀ k, 0 <= T k <= 1) → (∀ x c, x ∈ needles → normOf caseFold c = x !!! 0%nat → T c = 0) →
  (∀ k x, x ∈ B k ↔ x ∈ needles ∧ x !!! 0%nat = k) →
  scan (S (length value)) (length value) (λ index_,
    c ← index value index_; windowStep eq value 1 index_ (T c) (B (normOf caseFold c))) 0 =
  Done (existsb (Contains (normOf caseFold <$> value)) needles).
Proof.
  intros Heq Hl Hn HT Hz HB. pose proof Hn as Hn'. rewrite Forall_forall in Hn'. set (v := (normOf caseFold <$> value : bytes)).
  assert (Forall (λ x, x ≠ []) needles) as Hne.
  { apply Forall_forall. intros x Hx ->. specialize (Hn' [] Hx). cbn in Hn'. lia. }
  pose (hit q := (1 - 1 ≤ q)%nat ∧ ∃ x, x ∈ needles ∧ at_ v (q - (1 - 1)) x).
  match goal with |- scan _ _ ?step _ = _ =>
    destruct (scan_ok hit 0 (length value) step) with (fuel := S (length value)) (pos := 0%nat) as (b & -> & Hb); [|done|lia|] end.
  2:{ f_equal. apply (window_contains (normOf caseFold) value 1 needles b); [done|done|done|done]. }
  intros pos Hpos. rewrite index_lt by lia. cbn [mbind run_bind].
  assert (∀ x, x ∈ needles → at_ v (pos - (1 - 1)) x → normOf caseFold (value !!! pos) = x !!! 0%nat) as Hkey.
  { intros x Hx Hat. specialize (Hn' x Hx). rewrite <- (at_char _ _ _ 0 Hat) by lia. unfold v.
    rewrite norm_lookup by lia. f_equal. f_equal. lia. }
  apply windowStep_ok with (norm := normOf caseFold) (needles := needles); [done|done|lia|apply HT|done|..].
  - intros x Hx. by apply HB in Hx as [Hx _].
  - intros q Hq Hqv [_ (x & Hx & Hat)]. fold v in Hat. specialize (HT (value !!! pos)). replace q with pos in Hat by lia.
    rewrite (Hz x) in Hq; [cbn in Hq; lia|done|by apply Hkey].
  - intros x Hx Hat. apply HB. split; [done|]. symmetry. by apply Hkey.
Qed.

Lemma normOf_eq (caseFold : bool) part needle : length part = length needle →
  (if caseFold then equalFoldASCIIBytes part needle else Done (part =s needle)) = Done ((normOf caseFold <$> part : bytes) =s needle).
Proof. intros H. destruct caseFold; [by apply equalFold_eq|]. cbn [normOf]. by rewrite list_fmap_id. Qed.

(** The needles as the matcher keeps them. *)
Definition normalized (caseFold : bool) (needles : list bytes) : list bytes := if caseFold then fold <$> needles else needles.

Lemma normalized_wf caseFold needles :
  Forall (λ x, x ≠ [] ∧ wf_bytes x) needles →
  Forall (λ x, x ≠ [] ∧ wf_bytes x ∧ (caseFold = true → lowered x)) (normalized caseFold needles).
Proof.
  intros H. unfold normalized. destruct caseFold; [|eapply Forall_impl; [exact H|]; naive_solver].
  apply Forall_fmap. eapply Forall_impl; [exact H|]. intros x [H1 H2]. cbn. split; [by destruct x|].
  split; [|intros _; apply fold_lowered]. apply Forall_fmap. eapply Forall_impl; [exact H2|]. apply lowerByte_byte.
Qed.

Lemma existsb_too_long v (needles : list bytes) :
  Forall (λ x, (length v < length x)%nat) needles → existsb (Contains v) needles = false.
Proof.
  intros H. apply not_true_iff_false. rewrite existsb_exists. intros (x & Hx%list_elem_of_In & (i & Hi & _)%Contains_at).
  rewrite Forall_forall in H. specialize (H x Hx). lia.
Qed.

(** What the construction of a matcher promises to its users. *)
Record indexed_ok (caseFold : bool) (needles : list bytes) (m : indexedMatcher) : Prop := {
  io_match : ∀ value, indexedMatch m value = Done (existsb (Contains (normOf caseFold <$> value)) (normalized caseFold needles));
  io_required : needles ≠ [] → ∃ r, m.(im_required) = Some r ∧ required_ok caseFold (normalized caseFold needles) r;
}.

Lemma indexedMatch_fold m value :
  indexedMatch m value =
  windowMatch m (λ a b, bytePair (normOf m.(im_caseFold) a) (normOf m.(im_caseFold) b)) (normOf m.(im_caseFold))
    (λ part needle, if m.(im_caseFold) then equalFoldASCIIBytes part needle else Done (part =s needle)) value.
Proof. unfold indexedMatch, matchFold, matchCaseSensitive. by destruct (im_caseFold m). Qed.

Lemma buildPairIndex_ok caseFold ns req :
  (2 ≤ shortest ns)%nat → Forall (λ x, (shortest ns ≤ length x)%nat) ns →
  ∃ m, buildPairIndex ns (mkIndexed (λ _, 0) (λ _, []) None (λ _, []) (shortest ns) caseFold (Some req)) = Done m ∧
    m.(im_required) = Some req ∧ ∀ value, indexedMatch m value = Done (existsb (Contains (normOf caseFold <$> value)) ns).
Proof.
  intros Hm Hn. unfold buildPairIndex. cbn [im_minLen im_shift im_endBuckets im_caseFold im_required].
  set (D := if Z.of_nat (shortest ns - 1) >? 255 then 255 else Z.of_nat (shortest ns - 1)).
  assert (u8 D = D ∧ 0 <= D <= Z.of_nat (shortest ns - 1)) as [-> HD].
  { subst D. destruct (Z.gtb_spec (Z.of_nat (shortest ns - 1)) 255); (split; [apply u8_id; unfold is_byte|]; lia). }
  destruct (pairShifts_ok (shortest ns) ns D Hm Hn ltac:(lia)) as (T & -> & HT & Hsh). cbn [mbind run_bind].
  destruct (foldM_buckets (λ needle, pairAt needle (shortest ns - 2)) (λ x, needlePair x (shortest ns - 2)) ns) with (buckets := λ _ : Z, @nil bytes)
    as (B & EB & HB).
  { intros x Hx. rewrite Forall_forall in Hn. specialize (Hn x Hx). apply pairAt_eq. lia. }
  unfold pairBuckets. rewrite EB. cbn [mbind run_bind]. eexists. split; [done|]. split; [done|].
  intros value. rewrite indexedMatch_fold. unfold windowMatch. cbn [im_caseFold im_minLen im_pairShift im_pairBuckets].
  destruct (Nat.eqb_spec (shortest ns) 0); [lia|]. destruct (Nat.ltb_spec (length value) (shortest ns)); cbn [orb].
  - rewrite existsb_too_long; [done|]. eapply Forall_impl; [exact Hn|]. intros x Hx. cbn in Hx. rewrite length_fmap. lia.
  - apply pair_search; [intros; by apply normOf_eq|lia|done|intros k; specialize (HT k); lia|done|].
    intros k x. rewrite HB. split; [by intros [?%elem_of_nil|]|by right].
Qed.

Lemma newIndexedMatcher_ok needles caseFold :
  Forall (λ x, x ≠ [] ∧ wf_bytes x) needles → ∃ m, newIndexedMatcher needles caseFold = Done m ∧ indexed_ok caseFold needles m.
Proof.
  intros Hw. unfold newIndexedMatcher. destruct needles as [|n needles].
  { eexists. split; [done|]. split; [|done]. intros value. rewrite indexedMatch_fold. by destruct caseFold. }
  cbn [length Nat.eqb]. set (all := n :: needles) in *.
  assert ((if caseFold then lowerASCII <$> all else all) = normalized caseFold all) as ->.
  { unfold normalized. destruct caseFold; [|done]. apply list_fmap_ext. intros i x _. apply lowerASCII_eq. }
  set (ns := normalized caseFold all). pose proof (normalized_wf caseFold all Hw) as Hns. fold ns in Hns.
  destruct (newRequiredByteMatcher_ok ns caseFold) as (req & -> & Hreq).
  { eapply Forall_impl; [exact Hns|]. by intros y (? & ? & _). }
  cbn [mbind run_bind]. assert (∃ n' ns', ns = n' :: ns') as (n' & ns' & Ens) by (subst ns all; destruct caseFold; cbn; eauto).
  destruct (shortest_spec n' ns') as [Hle (x & Hx & Ex)]. rewrite <- Ens in Hle, Hx, Ex.
  assert (1 ≤ shortest ns)%nat as H1.
  { rewrite Forall_forall in Hns. destruct (Hns x Hx) as [Hne _]. destruct x; [done|]. cbn in Ex. lia. }
  destruct (Nat.leb_spec 2 (shortest ns)) as [H2|H2].
  { destruct (buildPairIndex_ok caseFold ns req H2 Hle) as (m & -> & Hr & Hmt). exists m. split; [done|]. split; [done|].
    intros _. by exists req. }
  replace (shortest ns) with 1%nat in * by lia.
  change (u8 (if Z.of_nat 1 >? 255 then 255 else Z.of_nat 1)) with 1.
  destruct (byteShifts_ok caseFold ns 1) as (T & -> & HT & Hz); [eapply Forall_impl; [exact Hns|]; intros y (Hy & _ & ?); split; [destruct y; [done|cbn; lia]|done]|done|].
  cbn [mbind run_bind]. unfold endBuckets. cbn [Nat.eqb Nat.sub].
  destruct (foldM_buckets (λ needle, index needle 0) (λ x, x !!! 0%nat) ns) with (buckets := λ _ : Z, @nil bytes) as (B & EB & HB).
  { intros y Hy. rewrite Forall_forall in Hns. destruct (Hns y Hy) as [Hne _]. by destruct y. }
  rewrite EB. cbn [mbind run_bind]. eexists. split; [done|]. split; [|by intros _; exists req].
  intros value. rewrite indexedMatch_fold. unfold windowMatch. cbn [im_caseFold im_minLen im_pairShift im_shift im_endBuckets Nat.eqb orb].
  destruct (Nat.ltb_spec (length value) 1).
  - rewrite existsb_too_long; [done|]. eapply Forall_impl; [exact Hle|]. intros y Hy. cbn in Hy. rewrite length_fmap. lia.
  - apply byte_search; [intros; by apply normOf_eq|done|done|done|done|].
    intros k y. rewrite HB. split; [by intros [?%elem_of_nil|]|by right].
Qed.

(** C24: The search for many literals, by an index of the pairs (or bytes) at
    the end of a window and a table of shifts, finds one exactly when the
    input, with its case folded if case is ignored, contains one of them. *)
Theorem newIndexedMatcher_search needles caseFold value :
  Forall (λ x, x ≠ [] ∧ wf_bytes x) needles →
  ∃ m, newIndexedMatcher needles caseFold = Done m ∧
    indexedMatch m value = Done (existsb (Contains (normOf caseFold <$> value)) (normalized caseFold needles)).
Proof. intros Hw. destruct (newIndexedMatcher_ok needles caseFold Hw) as (m & E & Hm). exists m. split; [done|apply Hm]. Qed.

Lemma newIndexedMatcher_search_witness :
  ∃ m, newIndexedMatcher [str "Select"; str "UNION"; str "sleep("] true = Done m ∧
    indexedMatch m (str "1 uNiOn all") = Done true.
Proof. apply (newIndexedMatcher_search [str "Select"; str "UNION"; str "sleep("] true (str "1 uNiOn all")). repeat (constructor; [split; [done|by apply wf_bytesb_true]|]). constructor. Defined.

(** The search for one literal in lower case, by the anchor byte that is
    rarest and a table of shifts, finds it exactly when the input with its
    letters in lower case contains it. *)
Theorem foldedMatch_search needle value :
  wf_bytes needle → lowered needle → forallb asciiByte needle = true →
  (m ← newFoldedLiteralMatcher needle; foldedMatch m value) = Done (Contains (fold value) needle).
Proof. apply foldedMatch_eq. Qed.

Lemma foldedMatch_search_witness :
  (m ← newFoldedLiteralMatcher (str "xp_cmd"); foldedMatch m (str "EXEC XP_CmdShell")) = Done true.
Proof.
  rewrite (foldedMatch_search (str "xp_cmd") (str "EXEC XP_CmdShell")); [reflexivity|by apply wf_bytesb_true|by repeat constructor|reflexivity].
Defined.

(** The choice of required bytes ends for literals that are not empty, and
    every input that contains one of them has a required byte, in the input and
    in the set of its bytes. *)
Theorem newRequiredByteMatcher_covers needles caseFold value :
  Forall (λ x, x ≠ [] ∧ wf_bytes x) needles → wf_bytes value →
  ∃ m, newRequiredByteMatcher needles caseFold = Done m ∧
    (∀ needle, needle ∈ needles → Contains (if caseFold then fold value else value) needle = true →
      requiredMatch m value = true ∧ intersects (presentBits value) m.(rm_bits) = true).
Proof.
  intros Hn Hv. destruct (newRequiredByteMatcher_ok needles caseFold Hn) as (m & E & Hm). exists m. split; [done|].
  intros needle Hin Hc. split; [by eapply requiredMatch_sound|by eapply requiredBits_sound].
Qed.

Lemma newRequiredByteMatcher_covers_witness :
  ∃ m, newRequiredByteMatcher [str "select"; str "union"] true = Done m ∧
    (∀ needle, needle ∈ [str "select"; str "union"] → Contains (fold (str "UNION")) needle = true →
      requiredMatch m (str "UNION") = true ∧ intersects (presentBits (str "UNION")) m.(rm_bits) = true).
Proof.
  apply (newRequiredByteMatcher_covers [str "select"; str "union"] true (str "UNION")); [|by apply wf_bytesb_true].
  repeat (constructor; [split; [done|by apply wf_bytesb_true]|]). constructor.
Defined.
