(* ===== verification/TransactionCaches.v ===== *)
(** The caches that a transaction keeps while its rules are evaluated:
    src/internal/corazawaf/transaction.go and the keys and values of
    src/internal/corazawaf/rulegroup.go.  What fills them and what they give is in
    [TransformCache] and [Prefilter]; here are their contents and their resets. *)

From S2P Require Import Prelude GoLib StringUtil UrlTransform Variables Types Collections Matchers.

(** ** Transformed values *)

Record transformationKey := mkKey {
  k_input : Z;
  k_inputLength : nat;
  k_argVariable : RuleVariable;
  k_transformationsID : Z;
  k_multiMatch : bool;
}.

#[global] Instance transformationKey_eq_dec : EqDecision transformationKey.
Proof. solve_decision. Defined.

#[global] Instance transformationKey_countable : Countable transformationKey.
Proof.
  refine (inj_countable' (λ k, (k.(k_input), k.(k_inputLength), k.(k_argVariable), k.(k_transformationsID), k.(k_multiMatch)))
    (λ '(a, b, c, d, e), mkKey a b c d e) _).
  by intros [].
Defined.

Record transformationValue := mkValue {
  tv_input : bytes;
  tv_arg : bytes;
  tv_errs : list terror;
  tv_changed : bool;
}.

Abbreviation Cache := (gmap transformationKey transformationValue) (only parsing).

(** ** Single transformations *)

Record transformationStepKey := mkStepKey {
  sk_input : Z;
  sk_inputLength : nat;
  sk_transformationID : Z;
}.

#[global] Instance transformationStepKey_eq_dec : EqDecision transformationStepKey.
Proof. solve_decision. Defined.

#[global] Instance transformationStepKey_countable : Countable transformationStepKey.
Proof.
  refine (inj_countable' (λ k, (k.(sk_input), k.(sk_inputLength), k.(sk_transformationID)))
    (λ '(a, b, c), mkStepKey a b c) _).
  by intros [].
Defined.

Record transformationStepValue := mkStepValue {
  sv_input : bytes;
  sv_output : bytes;
  sv_changed : bool;
  sv_err : option terror;
}.

Record transformationStepCache := mkStepCache {
  sc_values : gmap transformationStepKey transformationStepValue;
  sc_retainedBytes : Z;
}.

(** ** Byte sets *)

Record bytePresenceCacheEntry := mkPresence { bp_value : gostring; bp_present : bitmap }.

(** The four entries of a transaction, and the one that is written next. *)
Record presenceCache := mkPresenceCache {
  bytePresenceCache : list bytePresenceCacheEntry;
  bytePresenceNext : nat;
}.

Definition emptyPresence : presenceCache := mkPresenceCache (replicate 4 (mkPresence (mkGo 0 []) noBits)) 0.

(** ** The buffer of matches *)

(** [fieldMatches]: the backing array of the slice, up to its capacity, and its
    length. *)
Record matchBuffer := mkMatchBuffer {
  mb_array : list Match;
  mb_length : nat;
}.

(** [collections.Match{}] *)
Definition zeroMatch : Match := mkMatch V.Unknown [] [].

Definition maxRetainedFieldMatches : nat := Z.to_nat 256.

(** ** The caches of a transaction *)

Record txCaches := mkCaches {
  transformationCache : Cache;
  stepCache : transformationStepCache;
  fieldMatches : matchBuffer;
  presence : presenceCache;
}.
#[global] Instance txCaches_eta : Eta txCaches := λ x,
  mkCaches x.(transformationCache) x.(stepCache) x.(fieldMatches) x.(presence).

(** Those of a new transaction. *)
Definition newCaches : txCaches := mkCaches ∅ (mkStepCache ∅ 0) (mkMatchBuffer [] 0) emptyPresence.

(** A map that is cleared and a new one only differ in the memory they hold. *)
Definition resetTransformationCaches (c : txCaches) : txCaches :=
  c <| transformationCache := ∅ |> <| stepCache := mkStepCache ∅ 0 |>.

Definition clearFieldMatches (b : matchBuffer) : matchBuffer :=
  if (maxRetainedFieldMatches <? length b.(mb_array))%nat then mkMatchBuffer [] 0
  else mkMatchBuffer (replicate (length b.(mb_array)) zeroMatch) 0.

Definition clearPresence (c : presenceCache) : presenceCache :=
  mkPresenceCache (replicate (length c.(bytePresenceCache)) (mkPresence (mkGo 0 []) noBits)) 0.

(** What closing a transaction does to its caches. *)
Definition closeCaches (c : txCaches) : txCaches :=
  (resetTransformationCaches c) <| fieldMatches ::= clearFieldMatches |> <| presence ::= clearPresence |>.

(** The caches after a close are those of a new transaction but for the memory of
    the buffer of matches, which holds no match. *)
Lemma closeCaches_new c : length c.(presence).(bytePresenceCache) = 4%nat →
  ∃ n, (n ≤ maxRetainedFieldMatches)%nat ∧
    closeCaches c = newCaches <| fieldMatches := mkMatchBuffer (replicate n zeroMatch) 0 |>.
Proof.
  destruct c as [? ? [array len] [entries next]]. cbn [presence bytePresenceCache]. intros Hl.
  assert (∃ n, (n ≤ maxRetainedFieldMatches)%nat ∧
    clearFieldMatches (mkMatchBuffer array len) = mkMatchBuffer (replicate n zeroMatch) 0) as (n & Hn & E).
  { unfold clearFieldMatches. cbn [mb_array].
    destruct (Nat.ltb_spec maxRetainedFieldMatches (length array)); [exists 0%nat|exists (length array)]; split; [lia|done..]. }
  exists n. split; [done|]. unfold closeCaches, setf. cbn -[clearFieldMatches]. rewrite E. unfold clearPresence.
  cbn [bytePresenceCache]. by rewrite Hl.
Qed.
