(* ===== verification/Prefilter.v ===== *)
(** The filters before regular expressions: the analysis of
    src/internal/operators/rxprefilter.go, and the cache of byte sets that they
    share, from src/internal/corazawaf/transaction.go.

    An expression is the tree that regexp/syntax gives; its meaning is the
    relation [matches] on the runes of the input.  The theorems show that a
    filter never rejects an input that the expression matches, but for
    literals with the rune U+0130, where it does. *)

From S2P Require Import Prelude GoLib StringUtil UrlTransform Variables Types Collections Matchers TransactionCaches.

(** ** Package regexp/syntax *)

(** A node with its operation, and whether its flags have FoldCase. *)
Inductive regexp :=
  | OpNoMatch (foldCase : bool)
  | OpEmptyMatch (foldCase : bool)
  | OpLiteral (foldCase : bool) (Rune : list Z)
  | OpCharClass (foldCase : bool) (Rune : list Z)
  | OpAnyCharNotNL (foldCase : bool)
  | OpAnyChar (foldCase : bool)
  | OpBeginLine (foldCase : bool)
  | OpEndLine (foldCase : bool)
  | OpBeginText (foldCase : bool)
  | OpEndText (foldCase : bool)
  | OpWordBoundary (foldCase : bool)
  | OpNoWordBoundary (foldCase : bool)
  | OpCapture (foldCase : bool) (Sub : regexp)
  | OpStar (foldCase : bool) (Sub : regexp)
  | OpPlus (foldCase : bool) (Sub : regexp)
  | OpQuest (foldCase : bool) (Sub : regexp)
  | OpRepeat (foldCase : bool) (Min : nat) (Max : option nat) (Sub : regexp)
  | OpConcat (foldCase : bool) (Sub : list regexp)
  | OpAlternate (foldCase : bool) (Sub : list regexp).

(** The folding of letter case: [foldEq r c] when [c] is in the orbit of [r]
    under [unicode.SimpleFold].  The facts are those of the Unicode tables that
    the analysis relies on. *)
Class UnicodeFold := {
  foldEq : Z → Z → bool;
  foldEq_refl r : foldEq r r = true;
  foldEq_error r : foldEq r RuneError = true → r = RuneError;
  foldEq_ascii r c : 0 <= r < RuneSelf → foldEq r c = true →
    (0 <= c < RuneSelf ∧ lowerByte c = lowerByte r) ∨ c = 0x17f ∨ c = 0x212a;
  foldEq_kelvin c : foldEq 0x212a c = true → c = 0x4b ∨ c = 0x6b ∨ c = 0x212a;
}.

(** The runes outside ASCII whose lower case is in it: U+0130 and U+212A. *)
Class LowerToASCII `{U : !Unicode} := {
  lower_to_ascii r : valid_rune r → uniLower r < RuneSelf →
    0 <= r < RuneSelf ∨ r = 0x130 ∨ (r = 0x212a ∧ uniLower r = 0x6b);
}.
Arguments LowerToASCII U : clear implicits.

Section semantics.
Context `{F : !UnicodeFold}.

(** A step of the input: a rune and the bytes that it was decoded from; an
    invalid byte is U+FFFD. *)
Notation steps := (list (Z * bytes)).

Definition isWordRune (r : Z) : bool :=
  in_range 0x41 r 0x5a || in_range 0x61 r 0x7a || in_range 0x30 r 0x39 || (r =? 0x5f).

Definition wordAt (s : option (Z * bytes)) : bool := match s with Some rb => isWordRune rb.1 | None => false end.

Definition runeMatches (foldCase : bool) (r c : Z) : Prop := if foldCase then foldEq r c = true else r = c.

Fixpoint inClass (ranges : list Z) (c : Z) : Prop :=
  match ranges with
  | lo :: hi :: ranges => lo <= c <= hi ∨ inClass ranges c
  | _ => False
  end.

(** [matches re pre mid post]: [re] matches [mid] between [pre] and [post]. *)
Inductive matches : regexp → steps → steps → steps → Prop :=
  | m_empty fl pre post : matches (OpEmptyMatch fl) pre [] post
  | m_literal fl rs pre mid post : Forall2 (runeMatches fl) rs mid.*1 → matches (OpLiteral fl rs) pre mid post
  | m_class fl rs pre c post : inClass rs c.1 → matches (OpCharClass fl rs) pre [c] post
  | m_anyNotNL fl pre c post : c.1 ≠ 0x0a → matches (OpAnyCharNotNL fl) pre [c] post
  | m_any fl pre c post : matches (OpAnyChar fl) pre [c] post
  | m_beginLine fl pre post : pre = [] ∨ fst <$> last pre = Some 0x0a → matches (OpBeginLine fl) pre [] post
  | m_endLine fl pre post : post = [] ∨ fst <$> head post = Some 0x0a → matches (OpEndLine fl) pre [] post
  | m_beginText fl post : matches (OpBeginText fl) [] [] post
  | m_endText fl pre : matches (OpEndText fl) pre [] []
  | m_word fl pre post : wordAt (last pre) ≠ wordAt (head post) → matches (OpWordBoundary fl) pre [] post
  | m_noWord fl pre post : wordAt (last pre) = wordAt (head post) → matches (OpNoWordBoundary fl) pre [] post
  | m_capture fl re pre mid post : matches re pre mid post → matches (OpCapture fl re) pre mid post
  | m_star0 fl re pre post : matches (OpStar fl re) pre [] post
  | m_star1 fl re pre mid1 mid2 post :
      matches re pre mid1 (mid2 ++ post) → matches (OpStar fl re) (pre ++ mid1) mid2 post →
      matches (OpStar fl re) pre (mid1 ++ mid2) post
  | m_plus fl re pre mid1 mid2 post :
      matches re pre mid1 (mid2 ++ post) → matches (OpStar fl re) (pre ++ mid1) mid2 post →
      matches (OpPlus fl re) pre (mid1 ++ mid2) post
  | m_quest0 fl re pre post : matches (OpQuest fl re) pre [] post
  | m_quest1 fl re pre mid post : matches re pre mid post → matches (OpQuest fl re) pre mid post
  | m_repeat0 fl max re pre post : matches (OpRepeat fl 0 max re) pre [] post
  | m_repeat1 fl min max re pre mid1 mid2 post :
      max ≠ Some 0%nat →
      matches re pre mid1 (mid2 ++ post) → matches (OpRepeat fl (min - 1) (Nat.pred <$> max) re) (pre ++ mid1) mid2 post →
      matches (OpRepeat fl min max re) pre (mid1 ++ mid2) post
  | m_concat0 fl pre post : matches (OpConcat fl []) pre [] post
  | m_concat1 fl re rest pre mid1 mid2 post :
      matches re pre mid1 (mid2 ++ post) → matches (OpConcat fl rest) (pre ++ mid1) mid2 post →
      matches (OpConcat fl (re :: rest)) pre (mid1 ++ mid2) post
  | m_alternate fl re rest pre mid post : re ∈ rest → matches re pre mid post → matches (OpAlternate fl rest) pre mid post.

(** [MatchString]: a match at any place of the input. *)
Definition Matches (re : regexp) (s : bytes) : Prop :=
  ∃ pre mid post, runes s = pre ++ mid ++ post ∧ matches re pre mid post.
End semantics.

(** ** The minimum length of a match *)

(** [utf8.RuneLen] *)
Definition RuneLen (r : Z) : Z :=
  if r <? 0 then -1
  else if r <=? 0x7f then 1
  else if r <=? 0x7ff then 2
  else if (0xd800 <=? r) && (r <=? 0xdfff) then -1
  else if r <=? 0xffff then 3
  else if r <=? 0x10ffff then 4
  else -1.

Definition literalLen (rs : list Z) : Z := foldl (λ n r, if r =? RuneError then n + 1 else n + RuneLen r) 0 rs.

Fixpoint minLen (re : regexp) : Z :=
  match re with
  | OpLiteral _ rs => literalLen rs
  | OpAnyCharNotNL _ | OpAnyChar _ | OpCharClass _ _ => 1
  | OpCapture _ sub => minLen sub
  | OpConcat _ sub => foldl Z.add 0 (minLen <$> sub)
  | OpAlternate _ sub =>
      match minLen <$> sub with
      | [] => 0
      | m :: rest => foldl (λ m v, if v <? m then v else m) m rest
      end
  | OpPlus _ sub => minLen sub
  | OpRepeat _ min _ sub => if (min =? 0)%nat then 0 else Z.of_nat min * minLen sub
  | _ => 0
  end.

(** ** The literals of an expression *)

Inductive literals := allRequired (l : list bytes) | anyRequired (l : list bytes).

Definition longest (ss : list bytes) : bytes :=
  match ss with
  | [] => []
  | s :: ss => foldl (λ best s, if (length best <? length s)%nat then s else best) s ss
  end.

Definition anyTooShort (ss : list bytes) (min : nat) : bool := existsb (λ s, (length s <? min)%nat) ss.
Definition filterShort (ss : list bytes) (min : nat) : list bytes := filter (λ s, min ≤ length s)%nat ss.

(** The same value as [shortest] of [Matchers]. *)
Definition shortestLength (values : list bytes) : nat := shortest values.

(** The first of the groups with the longest shortest literal, and among those
    with the fewest literals. *)
Definition bestAnyRequired (groups : list (list bytes)) : list bytes :=
  (foldl (λ '(best, bestMinLen) group,
    match group with
    | [] => (best, bestMinLen)
    | _ =>
        let minLen := shortest group in
        if (bestMinLen <? minLen)%nat ||
           ((minLen =? bestMinLen)%nat && ((length best =? 0)%nat || (length group <? length best)%nat))
        then (group, minLen) else (best, bestMinLen)
    end) ([], 0%nat) groups).1.

(** [hasFlag(re, syntax.FoldCase)] *)
Fixpoint hasFoldCase (re : regexp) : bool :=
  match re with
  | OpNoMatch fl | OpEmptyMatch fl | OpLiteral fl _ | OpCharClass fl _ | OpAnyCharNotNL fl | OpAnyChar fl
  | OpBeginLine fl | OpEndLine fl | OpBeginText fl | OpEndText fl | OpWordBoundary fl | OpNoWordBoundary fl => fl
  | OpCapture fl sub | OpStar fl sub | OpPlus fl sub | OpQuest fl sub | OpRepeat fl _ _ sub => fl || hasFoldCase sub
  | OpConcat fl sub | OpAlternate fl sub => fl || existsb hasFoldCase sub
  end.

Section extraction.
Context `{U : !Unicode}.

(** [string(runes)], in lower case when the comparison ignores case. *)
Definition literalOf (rs : list Z) (ci : bool) : bytes :=
  let s := flat_map EncodeRune rs in if ci then ToLower s else s.

Definition maxClassLiterals : Z := 64.

(** The loop over the ranges of a class. *)
Fixpoint classLiterals (ranges : list Z) (ci : bool) (literals : list bytes) : option (list bytes) :=
  match ranges with
  | low :: high :: ranges =>
      if (low <? 0) || (high >? 0x7f) || (high - low + 1 >? maxClassLiterals - Z.of_nat (length literals)) then None
      else classLiterals ranges ci (literals ++ ((λ value, literalOf [value] ci) <$> seqZ low (high - low + 1)))
  | _ => Some literals
  end.

(** What the children of a concatenation require. *)
Definition collect (lits : list (option literals)) : list bytes * list (list bytes) :=
  foldl (λ '(all, alternatives) l,
    match l with
    | None => (all, alternatives)
    | Some (allRequired v) => (all ++ v, alternatives)
    | Some (anyRequired v) => (all, alternatives ++ [v])
    end) ([], []) lits.

Definition concatLiterals (lits : list (option literals)) : option literals :=
  let '(all, alternatives) := collect lits in
  let best := bestAnyRequired alternatives in
  if negb (length all =? 0)%nat then
    if negb (length best =? 0)%nat && (length (longest all) <? shortestLength best)%nat then Some (anyRequired best)
    else Some (allRequired all)
  else if (length best =? 0)%nat then None
  else Some (anyRequired best).

(** The literals of the branches; [None] when a branch has none. *)
Fixpoint branchLiterals (lits : list (option literals)) (acc : list bytes) : option (list bytes) :=
  match lits with
  | [] => Some acc
  | None :: _ => None
  | Some (allRequired v) :: lits => branchLiterals lits (acc ++ [longest v])
  | Some (anyRequired v) :: lits => branchLiterals lits (acc ++ v)
  end.

Fixpoint extractLiterals (re : regexp) (ci : bool) : option literals :=
  match re with
  | OpLiteral _ rs => if existsb (Z.eqb RuneError) rs then None else Some (allRequired [literalOf rs ci])
  | OpCharClass _ rs =>
      match classLiterals rs ci [] with
      | None | Some [] => None
      | Some l => Some (anyRequired l)
      end
  | OpCapture _ sub => extractLiterals sub ci
  | OpConcat _ sub => concatLiterals ((λ re, extractLiterals re ci) <$> sub)
  | OpAlternate _ sub =>
      match branchLiterals ((λ re, extractLiterals re ci) <$> sub) [] with
      | None | Some [] => None
      | Some l => Some (anyRequired l)
      end
  | OpPlus _ sub => extractLiterals sub ci
  | OpRepeat _ min _ sub => if (1 <=? min)%nat then extractLiterals sub ci else None
  | _ => None
  end.

Definition extractedLiteralsAreASCII (lits : literals) : run bool :=
  match lits with allRequired l | anyRequired l => allASCIIStrings l end.
End extraction.

(** ** The cache of byte sets *)

Fixpoint loadPresence (entries : list bytePresenceCacheEntry) (value : gostring) : option bitmap :=
  match entries with
  | [] => None
  | entry :: entries =>
      if (length entry.(bp_value).(go_val) =? length value.(go_val))%nat && negb (length value.(go_val) =? 0)%nat
         && (entry.(bp_value).(go_ptr) =? value.(go_ptr))
      then Some entry.(bp_present) else loadPresence entries value
  end.

Definition LoadBytePresence (value : gostring) (cache : presenceCache) : option bitmap :=
  loadPresence cache.(bytePresenceCache) value.

Definition StoreBytePresence (value : gostring) (present : bitmap) (cache : presenceCache) : run presenceCache :=
  entries ← store cache.(bytePresenceCache) cache.(bytePresenceNext) (mkPresence value present);
  Done (mkPresenceCache entries ((cache.(bytePresenceNext) + 1) mod length cache.(bytePresenceCache))).

Definition cachedBytePresenceMinInputBytes : nat := 512.

(** [tx.(bytePresenceCache)]: a transaction state may have no such cache. *)
Definition cacheFor (tx : option presenceCache) (value : gostring) : option presenceCache :=
  if (length value.(go_val) <? cachedBytePresenceMinInputBytes)%nat then None else tx.

(** [matchWithState] of a required-byte matcher. *)
Definition requiredMatchWithState (m : requiredByteMatcher) (tx : option presenceCache) (value : gostring)
    : run (bool * option presenceCache) :=
  match cacheFor tx value with
  | None => Done (requiredMatch m value.(go_val), tx)
  | Some cache =>
      match LoadBytePresence value cache with
      | Some present => Done (intersects present m.(rm_bits), tx)
      | None =>
          if requiredMatch m value.(go_val) then Done (true, tx)
          else cache ← StoreBytePresence value (presentBits value.(go_val)) cache; Done (false, Some cache)
      end
  end.

Definition possibleFromCache (m : requiredByteMatcher) (tx : option presenceCache) (value : gostring) : bool :=
  match cacheFor tx value with
  | None => true
  | Some cache =>
      match LoadBytePresence value cache with
      | None => true
      | Some present => intersects present m.(rm_bits)
      end
  end.

(** [matchWithState] of a matcher of many literals. *)
Definition indexedMatchWithState (m : indexedMatcher) (tx : option presenceCache) (value : gostring) : run bool :=
  if match m.(im_required) with Some r => negb (possibleFromCache r tx value) | None => false end then Done false
  else indexedMatch m value.(go_val).

(** ** The filter of an expression *)

Definition filter_ : Type := bytes → run bool.
Definition stateFilter : Type := option presenceCache → gostring → run (bool * option presenceCache).

Record compiledPrefilter := mkPrefilter {
  pf_match : option filter_;
  pf_matchWithState : option stateFilter;
}.
Definition noPrefilter : compiledPrefilter := mkPrefilter None None.

Definition anyRequiredMaxNeedles : nat := 256.
Definition linearAnyRequiredMaxNeedles : nat := 32.

Definition containsNeedle (needle : bytes) : filter_ := λ s, Done (Contains s needle).

(** The filter of one literal. *)
Definition oneNeedle (ci : bool) (needle : bytes) : run filter_ :=
  if ci then m ← newFoldedLiteralMatcher needle; Done (foldedMatch m) else Done (containsNeedle needle).

(** [newFoldedLiteralMatchers], or the needles themselves. *)
Definition needleFilters (ci : bool) (needles : list bytes) : run (list filter_) :=
  foldM (λ fs needle, f ← oneNeedle ci needle; Done (fs ++ [f])) needles [].

Fixpoint allFilters (fs : list filter_) : filter_ := λ s,
  match fs with
  | [] => Done true
  | f :: fs => ok ← f s; if (ok : bool) then allFilters fs s else Done false
  end.

Fixpoint anyFilter (fs : list filter_) : filter_ := λ s,
  match fs with
  | [] => Done false
  | f :: fs => ok ← f s; if (ok : bool) then Done true else anyFilter fs s
  end.

(** The filter, the matcher for the cache, and whether it fills the cache. *)
Definition allRequiredFilter (ci : bool) (v : list bytes) : run (filter_ * requiredByteMatcher * bool) :=
  let filtered := filterShort v 2 in
  let filtered := match filtered with [] => [longest v] | _ => filtered end in
  fs ← needleFilters ci filtered;
  cacheMatcher ← newRequiredByteMatcher [longest filtered] ci;
  Done (allFilters fs, cacheMatcher, false).

Definition anyRequiredFilter (ci : bool) (v : list bytes) : run (option (filter_ * requiredByteMatcher * bool)) :=
  if anyTooShort v 1 then Done None else
  ascii ← allASCIIStrings v;
  if (length v =? 1)%nat then
    fs ← needleFilters ci v;
    cacheMatcher ← newRequiredByteMatcher v ci;
    Done (Some (anyFilter fs, cacheMatcher, false))
  else if ci && negb ascii then Done None
  else
    cacheMatcher ← newRequiredByteMatcher v ci;
    if anyTooShort v 2 then Done (Some (λ s, Done (requiredMatch cacheMatcher s), cacheMatcher, true))
    else if (length v <=? linearAnyRequiredMaxNeedles)%nat then
      fs ← needleFilters ci v; Done (Some (anyFilter fs, cacheMatcher, false))
    else if (length v <=? anyRequiredMaxNeedles)%nat then
      m ← newIndexedMatcher v ci; Done (Some (indexedMatch m, cacheMatcher, false))
    else Done (Some (λ s, Done (requiredMatch cacheMatcher s), cacheMatcher, true)).

(** The runes U+017F and U+212A fold to the letters s and k. *)
Definition longS : bytes := [0xc5; 0xbf].
Definition kelvin : bytes := [0xe2; 0x84; 0xaa].
Definition foldsToASCII (s : bytes) : bool := Contains s longS || Contains s kelvin.

Definition withExceptions (ci : bool) (pf : filter_) : filter_ :=
  if ci then λ s, ok ← pf s; if (ok : bool) then Done true else Done (foldsToASCII s) else pf.

Definition statefulOf (ci : bool) (pf : filter_) (cacheMatcher : requiredByteMatcher) (populateCache : bool) : stateFilter :=
  let stateful : stateFilter := λ tx value,
    if populateCache then requiredMatchWithState cacheMatcher tx value
    else if negb (possibleFromCache cacheMatcher tx value) then Done (false, tx)
    else ok ← pf value.(go_val); Done (ok, tx) in
  if ci then λ tx value,
    '(ok, tx) ← stateful tx value;
    if (ok : bool) then Done (true, tx) else Done (foldsToASCII value.(go_val), tx)
  else stateful.

(** [re] is the parsed and simplified expression, [None] if it has no parse. *)
Definition compilePrefilter `{U : !Unicode} (re : option regexp) : run compiledPrefilter :=
  match re with
  | None => Done noPrefilter
  | Some re =>
      let caseInsensitive := hasFoldCase re in
      match extractLiterals re caseInsensitive with
      | None => Done noPrefilter
      | Some lits =>
          ascii ← extractedLiteralsAreASCII lits;
          if caseInsensitive && negb ascii then Done noPrefilter else
          pf ← match lits with
               | allRequired v => f ← allRequiredFilter caseInsensitive v; Done (Some f)
               | anyRequired v => anyRequiredFilter caseInsensitive v
               end;
          match pf with
          | None => Done noPrefilter
          | Some (pf, cacheMatcher, populateCache) =>
              Done (mkPrefilter (Some (withExceptions caseInsensitive pf))
                      (Some (statefulOf caseInsensitive pf cacheMatcher populateCache)))
          end
      end
  end.

Definition minMatchLength (re : option regexp) : Z := match re with None => 0 | Some re => minLen re end.

(** [extractExactMatch]: the literal between the anchors, and whether it
    ignores case. *)
Fixpoint extractExactMatch (re : regexp) : bytes * bool :=
  match re with
  | OpCapture _ sub => extractExactMatch sub
  | OpConcat _ [OpBeginText _; OpLiteral fl rs; OpEndText _] =>
      if existsb (Z.eqb RuneError) rs then ([], false) else (flat_map EncodeRune rs, fl)
  | _ => ([], false)
  end.

(** ** Induction on expressions *)

Lemma regexp_nested (P : regexp → Prop) :
  (∀ re, match re with
         | OpCapture _ sub | OpStar _ sub | OpPlus _ sub | OpQuest _ sub | OpRepeat _ _ _ sub => P sub
         | OpConcat _ sub | OpAlternate _ sub => Forall P sub
         | _ => True
         end → P re) → ∀ re, P re.
Proof.
  intros H. fix IH 1. intros re. apply H. destruct re; try exact I; try apply IH;
    (induction Sub as [|re Sub IHs]; constructor; [apply IH|exact IHs]).
Qed.

(** [P] holds of every literal, with its flag. *)
Fixpoint literals_all (P : bool → list Z → Prop) (re : regexp) : Prop :=
  match re with
  | OpLiteral fl rs => P fl rs
  | OpCapture _ sub | OpStar _ sub | OpPlus _ sub | OpQuest _ sub | OpRepeat _ _ _ sub => literals_all P sub
  | OpConcat _ sub | OpAlternate _ sub => foldr and True (literals_all P <$> sub)
  | _ => True
  end.

Lemma foldr_and_Forall {A} (P : A → Prop) l : foldr and True (P <$> l) ↔ Forall P l.
Proof.
  induction l as [|x l IH]; cbn; [by split; [constructor|]|]. rewrite IH. split; [by intros [? ?]; constructor|].
  by intros [? ?]%Forall_cons.
Qed.

Section soundness.
Context `{U : !Unicode} `{F : !UnicodeFold} `{L : !LowerToASCII U}.
Notation steps := (list (Z * bytes)).

(** The bytes of a part of the input. *)
Definition bytesOf (l : steps) : bytes := concat l.*2.

Lemma bytesOf_app l1 l2 : bytesOf (l1 ++ l2) = bytesOf l1 ++ bytesOf l2.
Proof. unfold bytesOf. by rewrite fmap_app, concat_app. Qed.

Lemma matches_concat fl sub pre mid post :
  matches (OpConcat fl sub) pre mid post →
  ∃ mids, mid = concat mids ∧ Forall2 (λ re m, ∃ pre' post', matches re pre' m post') sub mids.
Proof.
  intros H. remember (OpConcat fl sub) as re eqn:E. revert sub E.
  induction H; intros sub E; try discriminate E; injection E as ? ?; subst.
  - exists []. by split; [|constructor].
  - destruct (IHmatches2 rest eq_refl) as (mids & -> & Hm). exists (mid1 :: mids). split; [done|]. constructor; [eauto|done].
Qed.

(** Every repetition that is required matches. *)
Lemma matches_repeat fl min max re pre mid post :
  matches (OpRepeat fl min max re) pre mid post → (1 ≤ min)%nat →
  ∃ mid1 mid2 pre' post', mid = mid1 ++ mid2 ∧ matches re pre' mid1 post' ∧
    ∃ pre2 max2, matches (OpRepeat fl (min - 1) max2 re) pre2 mid2 post.
Proof.
  intros H Hm. inversion H; subst; [lia|]. exists mid1, mid2. eauto 10.
Qed.

(** ** The minimum length *)

Lemma rune_valid_len rb : rune_of rb → rb.1 = RuneError ∨ Z.of_nat (length rb.2) = RuneLen rb.1.
Proof.
  intros [b Hb|b Hb|r b Hv Hr E Hl]; cbn [fst snd].
  - right. unfold RuneLen, RuneSelf in *. cbn [length]. destruct (Z.ltb_spec b 0); [lia|]. by destruct (Z.leb_spec b 0x7f); [|lia].
  - by left.
  - right. subst b. clear Hl. unfold RuneSelf, valid_rune in *. unfold EncodeRune, RuneLen, in_range, encode3. split_ifs; cbn [length]; lia.
Qed.

Lemma RuneLen_mono r c : r <= c → valid_rune c → RuneLen r <= RuneLen c.
Proof. unfold RuneLen, valid_rune. intros H Hc. split_ifs; lia. Qed.

Lemma rune_of_valid rb : rune_of rb → valid_rune rb.1.
Proof. intros [b Hb|b Hb|r b Hv _ _ _]; cbn; [|unfold RuneError|done]; unfold valid_rune, RuneSelf in *; lia. Qed.

Lemma rune_of_len rb : rune_of rb → (1 ≤ length rb.2)%nat.
Proof. intros [b Hb|b Hb|r b Hv Hr E Hl]; cbn; lia. Qed.

(** The parser keeps a literal that ignores case by the smallest rune of each
    orbit. *)
Definition minimal (fl : bool) (rs : list Z) : Prop := fl = true → Forall (λ r : Z, ∀ c : Z, foldEq r c = true → r <= c) rs.

Lemma literalLen_cons r rs : literalLen (r :: rs) = (if r =? RuneError then 1 else RuneLen r) + literalLen rs.
Proof.
  unfold literalLen. cbn [foldl].
  assert (∀ rs a, foldl (λ n r, if r =? RuneError then n + 1 else n + RuneLen r) a rs =
    a + foldl (λ n r, if r =? RuneError then n + 1 else n + RuneLen r) 0 rs) as H.
  { clear. induction rs as [|r rs IH]; intros a; cbn [foldl]; [lia|]. rewrite IH, (IH (if r =? RuneError then 0 + 1 else 0 + RuneLen r)).
    destruct (r =? RuneError); lia. }
  rewrite H. destruct (r =? RuneError); lia.
Qed.

Lemma literal_len fl rs (mid : steps) :
  minimal fl rs → Forall rune_of mid → Forall2 (runeMatches fl) rs mid.*1 → literalLen rs <= Z.of_nat (length (bytesOf mid)).
Proof.
  revert mid. induction rs as [|r rs IH]; intros mid Hm Hmid H.
  { cbn. lia. }
  destruct mid as [|c mid]; [by inversion H|]. cbn [fmap list_fmap] in H. apply Forall2_cons in H as [Hr H].
  apply Forall_cons in Hmid as [Hc Hmid]. rewrite literalLen_cons. change (bytesOf (c :: mid)) with (c.2 ++ bytesOf mid).
  rewrite length_app, Nat2Z.inj_add.
  assert (literalLen rs <= Z.of_nat (length (bytesOf mid))) as Hrest.
  { apply IH; [|done|done]. intros Hf. specialize (Hm Hf). by apply Forall_cons in Hm as [_ Hm]. }
  pose proof (rune_of_len c Hc). destruct (Z.eqb_spec r RuneError) as [->|Hne]; [lia|].
  destruct (rune_valid_len c Hc) as [He|Hl].
  - exfalso. unfold runeMatches in Hr. destruct fl; [rewrite He in Hr; by apply foldEq_error in Hr|congruence].
  - rewrite Hl. enough (RuneLen r <= RuneLen c.1) by lia. apply RuneLen_mono; [|by apply rune_of_valid].
    unfold runeMatches in Hr. destruct fl; [|lia]. specialize (Hm eq_refl). apply Forall_cons in Hm as [Hm _]. by apply Hm.
Qed.

Lemma foldl_add l a : foldl Z.add a l = a + foldl Z.add 0 l.
Proof. revert a. induction l as [|x l IH]; intros a; cbn [foldl]; [lia|]. rewrite IH, (IH (0 + x)). lia. Qed.

Lemma foldl_min l m : let r := foldl (λ m v, if v <? m then v else m) m l in r <= m ∧ Forall (λ v, r <= v) l.
Proof.
  revert m. induction l as [|x l IH]; intros m; cbv zeta; cbn [foldl]; [split; [lia|constructor]|].
  destruct (IH (if x <? m then x else m)) as [H1 H2]. cbv zeta in *. destruct (Z.ltb_spec x m); (split; [lia|]); (constructor; [lia|done]).
Qed.

Lemma repeat_len fl re m min : ∀ max pre (mid : steps) post,
  (∀ pre mid post, matches re pre mid post → Forall rune_of mid → m <= Z.of_nat (length (bytesOf mid))) →
  matches (OpRepeat fl min max re) pre mid post → Forall rune_of mid → Z.of_nat min * m <= Z.of_nat (length (bytesOf mid)).
Proof.
  induction min as [|min IH]; intros max pre mid post Hre H Hmid; [lia|].
  destruct (matches_repeat _ _ _ _ _ _ _ H) as (mid1 & mid2 & pre' & post' & -> & H1 & pre2 & max2 & H2); [lia|].
  apply Forall_app in Hmid as [Hm1 Hm2]. rewrite bytesOf_app, length_app.
  pose proof (Hre _ _ _ H1 Hm1). rewrite Nat.sub_succ, Nat.sub_0_r in H2. specialize (IH _ _ _ _ Hre H2 Hm2). lia.
Qed.

Lemma concat_len sub (mids : list steps) :
  Forall2 (λ re m, minLen re <= Z.of_nat (length (bytesOf m))) sub mids →
  foldl Z.add 0 (minLen <$> sub) <= Z.of_nat (length (bytesOf (concat mids))).
Proof.
  induction 1 as [|re m sub mids H _ IH]; [cbn; lia|]. cbn [fmap list_fmap foldl concat].
  rewrite foldl_add, bytesOf_app, length_app. lia.
Qed.

Lemma minLen_ok re : ∀ pre (mid : steps) post,
  literals_all minimal re → matches re pre mid post → Forall rune_of mid → minLen re <= Z.of_nat (length (bytesOf mid)).
Proof.
  induction re as [re IH] using regexp_nested. intros pre mid post Hl H Hmid.
  assert (∀ c : Z * bytes, rune_of c → 1 <= Z.of_nat (length (bytesOf [c]))) as H1.
  { intros c Hc. pose proof (rune_of_len c Hc). unfold bytesOf. cbn [fmap list_fmap concat]. rewrite app_nil_r. lia. }
  destruct re; cbn [minLen literals_all] in *; try lia.
  - inversion H; subst. by eapply literal_len.
  - inversion H; subst. apply Forall_cons in Hmid as [? _]. by apply H1.
  - inversion H; subst. apply Forall_cons in Hmid as [? _]. by apply H1.
  - inversion H; subst. apply Forall_cons in Hmid as [? _]. by apply H1.
  - inversion H; subst. by eapply IH.
  - inversion H; subst. apply Forall_app in Hmid as [Hm _]. rewrite bytesOf_app, length_app.
    enough (minLen re <= Z.of_nat (length (bytesOf mid1))) by lia. by eapply IH.
  - destruct (Nat.eqb_spec Min 0); [lia|]. eapply repeat_len; [|exact H|done]. intros. by eapply IH.
  - apply matches_concat in H as (mids & -> & Hm). apply foldr_and_Forall in Hl. apply concat_len.
    revert IH Hl Hmid. induction Hm as [|re m sub mids (pre' & post' & Hre) _ IHm]; [constructor|].
    intros [IHre IH]%Forall_cons [Hl1 Hl2]%Forall_cons [Hm1 Hm2]%Forall_app. constructor; [by eapply IHre|by apply IHm].
  - inversion H as [| | | | | | | | | | | | | | | | | | | | |? re' ? ? ? ? Hin Hre]; subst.
    apply foldr_and_Forall in Hl. rewrite Forall_forall in IH, Hl.
    assert (minLen re' <= Z.of_nat (length (bytesOf mid))) as Hr by (eapply IH; eauto).
    destruct Sub as [|re0 Sub]; [by apply elem_of_nil in Hin|]. cbn [fmap list_fmap].
    destruct (foldl_min (minLen <$> Sub) (minLen re0)) as [Ha Hb]. cbv zeta in *. apply elem_of_cons in Hin as [->|Hin]; [lia|].
    rewrite Forall_forall in Hb. specialize (Hb (minLen re') (list_elem_of_fmap_2 _ _ _ Hin)). lia.
Qed.

(** ** What is collected *)

Lemma foldl_longest (ss : list bytes) : ∀ best, foldl (λ best s, if (length best <? length s)%nat then s else best) best ss ∈ best :: ss.
Proof.
  induction ss as [|s ss IH]; intros best; cbn [foldl]; [set_solver|].
  specialize (IH (if (length best <? length s)%nat then s else best)). destruct (_ <? _)%nat; set_solver.
Qed.

Lemma longest_elem ss : ss ≠ [] → longest ss ∈ ss.
Proof. destruct ss as [|s ss]; [done|]. intros _. apply foldl_longest. Qed.

Lemma bestAnyRequired_elem groups : bestAnyRequired groups ≠ [] → bestAnyRequired groups ∈ groups.
Proof.
  unfold bestAnyRequired. intros H.
  enough (∀ groups best n, (foldl (λ '(best, bestMinLen) group,
    match group with
    | [] => (best, bestMinLen)
    | _ => let minLen := shortest group in
        if (bestMinLen <? minLen)%nat || ((minLen =? bestMinLen)%nat && ((length best =? 0)%nat || (length group <? length best)%nat))
        then (group, minLen) else (best, bestMinLen)
    end) (best, n) groups).1 ∈ best :: groups) as Hin by (specialize (Hin groups [] 0%nat); set_solver).
  clear. induction groups as [|g groups IH]; intros best n; cbn [foldl]; [set_solver|].
  destruct g as [|x g]; [specialize (IH best n); set_solver|]. cbv zeta.
  match goal with |- context [if ?b then _ else _] => destruct b end.
  - specialize (IH (x :: g) (shortest (x :: g))). set_solver.
  - specialize (IH best n). set_solver.
Qed.

Lemma collect_elem lits :
  (∀ x, x ∈ (collect lits).1 → ∃ w, Some (allRequired w) ∈ lits ∧ x ∈ w) ∧
  (∀ g, g ∈ (collect lits).2 → Some (anyRequired g) ∈ lits).
Proof.
  unfold collect. enough (∀ lits all alts, let r := foldl (λ '(all, alternatives) l,
    match l with
    | None => (all, alternatives)
    | Some (allRequired v) => (all ++ v, alternatives)
    | Some (anyRequired v) => (all, alternatives ++ [v])
    end) (all, alts) lits in
    (∀ x, x ∈ r.1 → x ∈ all ∨ ∃ w, Some (allRequired w) ∈ lits ∧ x ∈ w) ∧
    (∀ g, g ∈ r.2 → g ∈ alts ∨ Some (anyRequired g) ∈ lits)) as H.
  { destruct (H lits [] []) as [H1 H2]. split; intros x Hx; [destruct (H1 x Hx)|destruct (H2 x Hx)]; set_solver. }
  clear. induction lits as [|l lits IH]; intros all alts; cbv zeta; cbn [foldl]; [cbn; set_solver|].
  destruct l as [[v|v]|].
  - destruct (IH (all ++ v) alts) as [H1 H2]. cbv zeta in *. split; intros x Hx.
    + destruct (H1 x Hx) as [?|(w & ? & ?)]; [set_solver|]. right. exists w. set_solver.
    + destruct (H2 x Hx); set_solver.
  - destruct (IH all (alts ++ [v])) as [H1 H2]. cbv zeta in *. split; intros x Hx.
    + destruct (H1 x Hx) as [?|(w & ? & ?)]; [set_solver|]. right. exists w. set_solver.
    + destruct (H2 x Hx); set_solver.
  - destruct (IH all alts) as [H1 H2]. cbv zeta in *. split; intros x Hx.
    + destruct (H1 x Hx) as [?|(w & ? & ?)]; [set_solver|]. right. exists w. set_solver.
    + destruct (H2 x Hx); set_solver.
Qed.

Lemma concatLiterals_elem lits l : concatLiterals lits = Some l →
  match l with
  | allRequired v => v ≠ [] ∧ ∀ x, x ∈ v → ∃ w, Some (allRequired w) ∈ lits ∧ x ∈ w
  | anyRequired v => v ≠ [] ∧ Some (anyRequired v) ∈ lits
  end.
Proof.
  unfold concatLiterals. pose proof (collect_elem lits) as [Ha Hb]. destruct (collect lits) as [all alts]. cbn [fst snd] in *.
  assert (length (bestAnyRequired alts) ≠ 0%nat → bestAnyRequired alts ≠ [] ∧ Some (anyRequired (bestAnyRequired alts)) ∈ lits) as Hbest.
  { intros Hl. assert (bestAnyRequired alts ≠ []) as Hne by (by intros E; rewrite E in Hl). split; [done|]. by apply Hb, bestAnyRequired_elem. }
  destruct (Nat.eqb_spec (length all) 0), (Nat.eqb_spec (length (bestAnyRequired alts)) 0); cbn [negb andb]; intros H; simplify_eq;
    [by apply Hbest|split; [by intros ->|done]|].
  destruct (_ <? _)%nat; simplify_eq; [by apply Hbest|split; [by intros ->|done]].
Qed.

Lemma branchLiterals_elem lits : ∀ acc v, branchLiterals lits acc = Some v →
  (∀ x, x ∈ acc → x ∈ v) ∧
  (∀ l, l ∈ lits → ∃ w, l = Some w ∧ match w with allRequired w => longest w ∈ v | anyRequired w => ∀ x, x ∈ w → x ∈ v end) ∧
  (∀ x, x ∈ v → x ∈ acc ∨ ∃ w, (Some (allRequired w) ∈ lits ∧ x = longest w) ∨ (Some (anyRequired w) ∈ lits ∧ x ∈ w)).
Proof.
  induction lits as [|l lits IH]; intros acc v H; cbn [branchLiterals] in H.
  { simplify_eq. split_and!; set_solver. }
  destruct l as [[w|w]|]; [| |done]; destruct (IH _ _ H) as (H1 & H2 & H3); (split_and!; [set_solver| |]).
  - intros l [->|Hl]%elem_of_cons; [|by apply H2]. eexists. split; [done|]. apply H1. set_solver.
  - intros x Hx. destruct (H3 x Hx) as [?|(w' & ?)]; [|right; exists w'; set_solver].
    destruct (decide (x ∈ acc)); [by left|]. right. exists w. set_solver.
  - intros l [->|Hl]%elem_of_cons; [|by apply H2]. eexists. split; [done|]. intros x Hx. apply H1. set_solver.
  - intros x Hx. destruct (H3 x Hx) as [?|(w' & ?)]; [|right; exists w'; set_solver].
    destruct (decide (x ∈ acc)); [by left|]. right. exists w. set_solver.
Qed.

(** ** One literal *)

Lemma rune_of_bytes rb : rune_of rb → rb.1 ≠ RuneError → rb.2 = EncodeRune rb.1.
Proof.
  intros [b Hb|b Hb|r b Hv Hr E Hl]; cbn [fst snd]; intros Hne; [|done|done].
  unfold EncodeRune, RuneSelf, in_range in *. by replace ((0 <=? b) && (b <=? 0x7f)) with true by lia.
Qed.

Definition ascii (x : bytes) : Prop := forallb asciiByte x = true.

Lemma ascii_app x y : ascii (x ++ y) ↔ ascii x ∧ ascii y.
Proof. unfold ascii. by rewrite forallb_app, andb_true_iff. Qed.

Lemma ascii_encode r : valid_rune r → ascii (EncodeRune r) → 0 <= r < RuneSelf ∧ EncodeRune r = [r].
Proof.
  unfold ascii, EncodeRune, encode3, valid_rune, RuneSelf, in_range. intros Hv. split_ifs; cbn [forallb andb]; unfold asciiByte;
    intros H; (split; [lia|]); try done; exfalso; lia.
Qed.

(** The lower case of a rune that is encoded. *)
Definition validOf (r : Z) : Z := if decide (valid_rune r) then r else RuneError.

Lemma EncodeRune_validOf r : EncodeRune r = EncodeRune (validOf r) ∧ valid_rune (validOf r).
Proof.
  unfold validOf. destruct (decide (valid_rune r)) as [Hv|Hv]; [done|]. unfold valid_rune, RuneError in *. split; [|lia].
  unfold EncodeRune, in_range. split_ifs; lia || done.
Qed.

Lemma ToLower_encode r s : ToLower (EncodeRune r ++ s) = EncodeRune (uniLower (validOf r)) ++ ToLower s.
Proof.
  destruct (EncodeRune_validOf r) as [-> Hv]. unfold ToLower, MapRunes. rewrite runes_encode by done. cbn [flat_map fst].
  pose proof (uniLower_valid _ Hv) as Hl. cbv zeta. by replace (uniLower (validOf r) <? 0) with false by (unfold valid_rune in Hl; lia).
Qed.

(** The rune of a literal that is ASCII in lower case, and one that it matches. *)
Lemma ascii_rune fl r c : rune_of c → runeMatches fl r c.1 → r ≠ RuneError → r ≠ 0x130 →
  ascii (EncodeRune (uniLower (validOf r))) →
  fold c.2 = EncodeRune (uniLower (validOf r)) ∨ c.2 = longS ∨ c.2 = kelvin.
Proof.
  intros Hc Hm Hne Hdot Ha. destruct (EncodeRune_validOf r) as [_ Hv]. pose proof (uniLower_valid _ Hv) as Hlv.
  destruct (ascii_encode _ Hlv Ha) as [Hlow ->].
  assert (validOf r = r ∧ (0 <= r < RuneSelf ∨ r = 0x212a)) as [Er Hr].
  { unfold validOf in *. destruct (decide (valid_rune r)).
    - split; [done|]. destruct (lower_to_ascii r Hv) as [?|[?|[? _]]]; [lia|by left|done|by right].
    - rewrite uniLower_error in Hlow. unfold RuneError, RuneSelf in Hlow. lia. }
  rewrite Er in *. clear Er.
  assert (∀ k, 0 <= k < RuneSelf → c.1 = k → c.2 = [k]) as Hbyte.
  { intros k Hk E. rewrite rune_of_bytes; [|done|unfold RuneSelf, RuneError in *; lia]. rewrite E. unfold EncodeRune, in_range, RuneSelf in *.
    by replace ((0 <=? k) && (k <=? 0x7f)) with true by lia. }
  assert (c.1 = 0x17f → c.2 = longS) as HS by (intros E; rewrite rune_of_bytes, E by (rewrite ?E; done); reflexivity).
  assert (c.1 = 0x212a → c.2 = kelvin) as HK by (intros E; rewrite rune_of_bytes, E by (rewrite ?E; done); reflexivity).
  destruct Hr as [Hr| ->].
  - assert (uniLower r = lowerByte r) as -> by (by rewrite uniLower_ascii).
    destruct fl; cbn [runeMatches] in Hm; [|left; by rewrite (Hbyte r)].
    destruct (foldEq_ascii r c.1 Hr Hm) as [[Hk E]|[E|E]]; [|by right; left; apply HS|by right; right; apply HK].
    left. rewrite (Hbyte c.1) by done. cbn. by rewrite E.
  - destruct (lower_to_ascii 0x212a Hv) as [H|[H|[_ ->]]]; [lia|unfold RuneSelf in H; lia|lia|].
    destruct fl; cbn [runeMatches] in Hm; [|by right; right; apply HK].
    destruct (foldEq_kelvin c.1 Hm) as [E|[E|E]]; [| |by right; right; apply HK]; left; rewrite (Hbyte c.1); unfold RuneSelf; rewrite ?E; done || lia.
Qed.

(** The literal is in the input, with its case folded if case is ignored, or
    the input has one of the exceptions. *)
Definition found (ci : bool) (s x : bytes) : Prop :=
  (ci = true → ascii x) → Contains (normOf ci <$> s) x = true ∨ (ci = true ∧ foldsToASCII s = true).

Lemma Contains_part a s b x : Contains s x = true → Contains (a ++ s ++ b) x = true.
Proof.
  rewrite !Contains_app. intros (p & r & ->). exists (a ++ p), (r ++ b). by rewrite !(assoc app).
Qed.

Lemma foldsToASCII_part a s b : foldsToASCII s = true → foldsToASCII (a ++ s ++ b) = true.
Proof. unfold foldsToASCII. rewrite !orb_true_iff. intros [H|H]; [left|right]; by apply Contains_part. Qed.

Lemma found_part ci a s b x : found ci s x → found ci (a ++ s ++ b) x.
Proof.
  intros H Ha. destruct (H Ha) as [Hc|[? Hc]]; [left|right; split; [done|by apply foldsToASCII_part]].
  rewrite !fmap_app. by apply Contains_part.
Qed.

Lemma exact_literal rs (mid : steps) :
  Forall rune_of mid → rs = mid.*1 → existsb (Z.eqb RuneError) rs = false → bytesOf mid = flat_map EncodeRune rs.
Proof.
  intros Hm -> . induction Hm as [|c mid Hc _ IH]; [done|]. cbn [fmap list_fmap existsb flat_map]. intros [Hr Hrs]%orb_false_iff.
  change (bytesOf (c :: mid)) with (c.2 ++ bytesOf mid). rewrite IH by done. rewrite (rune_of_bytes c); [done|done|lia].
Qed.

Lemma folded_literal fl rs : ∀ mid : steps,
  Forall rune_of mid → Forall2 (runeMatches fl) rs mid.*1 → existsb (Z.eqb RuneError) rs = false → Forall (λ r, r ≠ 0x130) rs →
  ascii (ToLower (flat_map EncodeRune rs)) →
  fold (bytesOf mid) = ToLower (flat_map EncodeRune rs) ∨ foldsToASCII (bytesOf mid) = true.
Proof.
  induction rs as [|r rs IH]; intros [|c mid] Hmid Hm; cbn [fmap list_fmap] in Hm; try by inversion Hm.
  { intros _ _ _. by left. }
  apply Forall2_cons in Hm as [Hr Hm]. apply Forall_cons in Hmid as [Hc Hmid]. cbn [existsb flat_map].
  intros [Hne Hrs]%orb_false_iff [Hdot Hd]%Forall_cons. rewrite ToLower_encode, ascii_app. intros [Ha1 Ha2].
  change (bytesOf (c :: mid)) with (c.2 ++ bytesOf mid).
  destruct (ascii_rune fl r c Hc Hr ltac:(lia) Hdot Ha1) as [E|E].
  - destruct (IH mid Hmid Hm Hrs Hd Ha2) as [E2|E2].
    + left. unfold fold in *. rewrite fmap_app. f_equal; [exact E|exact E2].
    + right. rewrite <- (app_nil_r (bytesOf mid)). by apply foldsToASCII_part.
  - right. apply (foldsToASCII_part [] c.2). destruct E as [-> | ->]; reflexivity.
Qed.

(** What is asked of the literals of an expression. *)
Definition okLit (ci fl : bool) (rs : list Z) : Prop :=
  rs ≠ [] ∧ (ci = false → fl = false) ∧ (ci = true → Forall (λ r, r ≠ 0x130) rs).

Lemma literal_found ci fl rs (mid : steps) :
  okLit ci fl rs → Forall rune_of mid → Forall2 (runeMatches fl) rs mid.*1 → existsb (Z.eqb RuneError) rs = false →
  found ci (bytesOf mid) (literalOf rs ci).
Proof.
  intros (_ & Hfl & Hd) Hmid Hm Hne Ha. unfold literalOf in *. destruct ci.
  - destruct (folded_literal fl rs mid Hmid Hm Hne (Hd eq_refl) (Ha eq_refl)) as [E|E]; [left|by right].
    change (normOf true <$> bytesOf mid) with (fold (bytesOf mid)). rewrite E. apply Contains_app. exists [], []. by rewrite app_nil_r.
  - rewrite Hfl in Hm by done. left.
    assert (rs = mid.*1) as E by (clear -Hm; induction Hm as [|? ? ? ? E _ IH]; [done|by cbn in E; f_equal]).
    rewrite (exact_literal rs mid) by done. unfold normOf. rewrite list_fmap_id. apply Contains_app. exists [], []. by rewrite app_nil_r.
Qed.

(** ** A class of runes *)

Lemma classLiterals_elem ci n : ∀ ranges acc v, (length ranges ≤ n)%nat → classLiterals ranges ci acc = Some v →
  (∀ x, x ∈ acc → x ∈ v) ∧
  (∀ c, inClass ranges c → 0 <= c < RuneSelf ∧ literalOf [c] ci ∈ v) ∧
  (∀ x, x ∈ v → x ∈ acc ∨ ∃ c, x = literalOf [c] ci).
Proof.
  induction n as [|n IH]; intros ranges acc v Hn H.
  { destruct ranges; [|cbn in Hn; lia]. cbn in H. simplify_eq. split_and!; [done|done|by left]. }
  destruct ranges as [|lo [|hi ranges]]; cbn [classLiterals inClass] in *; [simplify_eq; split_and!; [done|done|by left]..|].
  destruct (_ || _) eqn:E in H; [done|]. destruct (IH ranges _ v ltac:(cbn in Hn; lia) H) as (H1 & H2 & H3). split_and!.
  - intros x Hx. apply H1, elem_of_app. by left.
  - intros c [Hc|Hc]; [|by apply H2]. split; [unfold RuneSelf; lia|]. apply H1, elem_of_app. right.
    apply list_elem_of_fmap. exists c. split; [done|]. apply elem_of_seqZ. lia.
  - intros x Hx. destruct (H3 x Hx) as [[?|Hs]%elem_of_app|?]; [by left| |by right]. apply list_elem_of_fmap in Hs as (c & -> & _). eauto.
Qed.

Lemma class_found ci fl ranges v pre (mid : steps) post :
  classLiterals ranges ci [] = Some v → Forall rune_of mid → matches (OpCharClass fl ranges) pre mid post →
  Exists (found ci (bytesOf mid)) v.
Proof.
  intros Hv Hmid H. inversion H as [| |? ? ? c ? Hc| | | | | | | | | | | | | | | | | | |]; subst.
  destruct (classLiterals_elem ci _ _ _ _ (le_n _) Hv) as (_ & Hin & _). destruct (Hin c.1 Hc) as [Hr Hl].
  apply Exists_exists. eexists. split; [exact Hl|]. apply literal_found with false; [|done|by repeat constructor|].
  - split_and!; [done|done|]. intros _. constructor; [unfold RuneSelf in Hr; lia|constructor].
  - cbn [existsb]. unfold RuneSelf, RuneError in *. rewrite orb_false_r. lia.
Qed.

(** ** All literals *)

Definition holds (ci : bool) (s : bytes) (l : literals) : Prop :=
  match l with allRequired v => Forall (found ci s) v | anyRequired v => Exists (found ci s) v end.

Lemma holds_part ci a s b l : holds ci s l → holds ci (a ++ s ++ b) l.
Proof.
  destruct l; cbn; intros H; [eapply Forall_impl|eapply Exists_impl]; try exact H; intros x; apply found_part.
Qed.

(** An element is found if the literals hold and it is one that all require. *)
Lemma holds_all ci s v x : holds ci s (allRequired v) → x ∈ v → found ci s x.
Proof. cbn. rewrite Forall_forall. auto. Qed.

Lemma bytesOf_mid (mids : list steps) i m : mids !! i = Some m → ∃ a b, bytesOf (concat mids) = a ++ bytesOf m ++ b.
Proof.
  intros H. rewrite <- (take_drop_middle mids i m H), concat_app, bytesOf_app. cbn [concat]. rewrite bytesOf_app. eauto.
Qed.

Lemma concat_holds ci sub (mids : list steps) l :
  Forall2 (λ re m, ∀ l, extractLiterals re ci = Some l → holds ci (bytesOf m) l) sub mids →
  concatLiterals ((λ re, extractLiterals re ci) <$> sub) = Some l → holds ci (bytesOf (concat mids)) l.
Proof.
  intros Hs Hl. assert (∀ l, Some l ∈ (λ re, extractLiterals re ci) <$> sub → holds ci (bytesOf (concat mids)) l) as Hsub.
  { intros l' (re & E & [i Hi]%list_elem_of_lookup)%list_elem_of_fmap. destruct (Forall2_lookup_l _ _ _ _ _ Hs Hi) as (m & Hm & Hh).
    destruct (bytesOf_mid mids i m Hm) as (a & b & ->). by apply holds_part, Hh. }
  apply concatLiterals_elem in Hl. destruct l as [v|v]; destruct Hl as [_ Hl]; [|by apply Hsub].
  apply Forall_forall. intros x Hx. destruct (Hl x Hx) as (w & Hw & Hxw). eapply holds_all; [by apply Hsub|done].
Qed.

(** Every list of literals that are all required has one. *)
Definition nonempty (l : literals) : Prop := match l with allRequired v | anyRequired v => v ≠ [] end.

Lemma extract_nonempty re : ∀ ci l, extractLiterals re ci = Some l → nonempty l.
Proof.
  induction re as [re IH] using regexp_nested. intros ci l H. destruct re; cbn [extractLiterals] in H; try done; try by eapply IH.
  - destruct (existsb _ _); simplify_eq. done.
  - destruct (classLiterals _ _ _) as [[|x v]|]; simplify_eq. done.
  - destruct (1 <=? Min)%nat; [|done]. by eapply IH.
  - apply concatLiterals_elem in H. destruct l; by destruct H.
  - destruct (branchLiterals _ _) as [[|x v]|]; simplify_eq. done.
Qed.

Lemma branch_holds ci sub re s v :
  re ∈ sub → (∀ l, extractLiterals re ci = Some l → holds ci s l) →
  branchLiterals ((λ re, extractLiterals re ci) <$> sub) [] = Some v → Exists (found ci s) v.
Proof.
  intros Hin Hre H. apply branchLiterals_elem in H as (_ & Hb & _).
  destruct (Hb (extractLiterals re ci)) as (w & Ew & Hw); [by apply list_elem_of_fmap; eauto|]. specialize (Hre w Ew).
  apply Exists_exists. pose proof (extract_nonempty re ci w Ew) as Hne. destruct w as [w|w].
  - exists (longest w). split; [done|]. eapply holds_all; [exact Hre|]. by apply longest_elem.
  - apply Exists_exists in Hre as (x & Hx & Hf). eauto.
Qed.

Lemma extract_holds ci re : ∀ pre (mid : steps) post l,
  literals_all (okLit ci) re → matches re pre mid post → Forall rune_of mid →
  extractLiterals re ci = Some l → holds ci (bytesOf mid) l.
Proof.
  induction re as [re IH] using regexp_nested. intros pre mid post l Hok H Hmid Hl.
  destruct re; cbn [extractLiterals literals_all] in *; try done.
  - destruct (existsb _ _) eqn:E; simplify_eq. constructor; [|constructor]. inversion H; subst. by eapply literal_found.
  - destruct (classLiterals _ _ _) as [[|x v]|] eqn:E; simplify_eq. by eapply class_found.
  - inversion H; subst. by eapply IH.
  - inversion H; subst. rewrite bytesOf_app. apply Forall_app in Hmid as [? _]. apply (holds_part ci []). by eapply IH.
  - destruct (Nat.leb_spec 1 Min); [|done]. destruct (matches_repeat _ _ _ _ _ _ _ H) as (m1 & m2 & p & q & -> & Hm & _); [done|].
    rewrite bytesOf_app. apply Forall_app in Hmid as [? _]. apply (holds_part ci []). by eapply IH.
  - apply matches_concat in H as (mids & -> & Hm). apply foldr_and_Forall in Hok. eapply concat_holds; [|exact Hl]. clear Hl.
    revert IH Hok Hmid. induction Hm as [|re m sub mids (pre' & post' & Hre) _ IHm]; [constructor|].
    intros [IHre IH]%Forall_cons [Hl1 Hl2]%Forall_cons [Hm1 Hm2]%Forall_app. constructor; [intros; by eapply IHre|by apply IHm].
  - inversion H as [| | | | | | | | | | | | | | | | | | | | |? re' ? ? ? ? Hin Hre]; subst.
    destruct (branchLiterals _ _) as [[|x v]|] eqn:E; simplify_eq. apply foldr_and_Forall in Hok. rewrite Forall_forall in IH, Hok.
    eapply branch_holds; [exact Hin| |exact E]. intros. by eapply IH; eauto.
Qed.

(** ** The literals can be searched *)

Definition elements (l : literals) : list bytes := match l with allRequired v | anyRequired v => v end.

Definition good (ci : bool) (x : bytes) : Prop := x ≠ [] ∧ wf_bytes x ∧ (ci = true → ToLower x = x).

Lemma encode_wf rs : wf_bytes (flat_map EncodeRune rs).
Proof. induction rs; [constructor|]. apply Forall_app. split; [apply EncodeRune_wf|done]. Qed.

Lemma literalOf_good rs ci : rs ≠ [] → good ci (literalOf rs ci).
Proof.
  intros Hne. assert (flat_map EncodeRune rs ≠ []) as He.
  { destruct rs as [|r rs]; [done|]. cbn [flat_map]. pose proof (EncodeRune_length r). destruct (EncodeRune r); [cbn in *; lia|done]. }
  unfold literalOf. destruct ci; split_and!; try done.
  - apply ToLower_nonempty; [apply encode_wf|done].
  - apply ToLower_wf.
  - intros _. apply ToLower_idem, encode_wf.
  - apply encode_wf.
Qed.

Lemma extract_good ci re : ∀ l, literals_all (okLit ci) re → extractLiterals re ci = Some l → Forall (good ci) (elements l).
Proof.
  induction re as [re IH] using regexp_nested. intros l Hok Hl.
  destruct re; cbn [extractLiterals literals_all] in *; try done; try by eapply IH.
  - destruct (existsb _ _); simplify_eq. constructor; [|constructor]. by apply literalOf_good, Hok.
  - destruct (classLiterals _ _ _) as [[|x v]|] eqn:E; simplify_eq. apply Forall_forall. intros y Hy.
    destruct (classLiterals_elem ci _ _ _ _ (le_n _) E) as (_ & _ & Hin). destruct (Hin y Hy) as [?|[c ->]]; [set_solver|].
    by apply literalOf_good.
  - destruct (1 <=? Min)%nat; [|done]. by eapply IH.
  - apply foldr_and_Forall in Hok. rewrite Forall_forall in IH, Hok.
    assert (∀ l, Some l ∈ (λ re, extractLiterals re ci) <$> Sub → Forall (good ci) (elements l)) as Hsub.
    { intros l' (re & E & Hin)%list_elem_of_fmap. by eapply IH; eauto. }
    apply concatLiterals_elem in Hl. destruct l as [v|v]; destruct Hl as [_ Hl]; [|by apply (Hsub (anyRequired v))].
    apply Forall_forall. intros x Hx. destruct (Hl x Hx) as (w & Hw & Hxw). specialize (Hsub _ Hw). rewrite Forall_forall in Hsub. auto.
  - apply foldr_and_Forall in Hok. rewrite Forall_forall in IH, Hok.
    destruct (branchLiterals _ _) as [[|y v]|] eqn:E; simplify_eq. apply branchLiterals_elem in E as (_ & _ & Hin).
    apply Forall_forall. intros x Hx. destruct (Hin x Hx) as [?|(w & [[Hw ->]|[Hw Hxw]])]; [set_solver| |].
    all: apply list_elem_of_fmap in Hw as (re & E & Hre); pose proof (IH re Hre _ (Hok re Hre) (eq_sym E)) as Hg; cbn [elements] in Hg.
    all: rewrite Forall_forall in Hg; apply Hg; try done.
    apply longest_elem. symmetry in E. by apply extract_nonempty in E.
Qed.

(** A literal that the matchers accept. *)
Definition ready (ci : bool) (x : bytes) : Prop := x ≠ [] ∧ wf_bytes x ∧ (ci = true → lowered x ∧ ascii x).

Lemma ascii_range x : wf_bytes x → ascii x → Forall (λ c, 0 <= c < RuneSelf) x.
Proof.
  unfold ascii. intros Hw Ha. apply Forall_forall. intros c Hc. rewrite Forall_forall in Hw. specialize (Hw c Hc).
  rewrite forallb_forall in Ha. specialize (Ha c (proj1 (list_elem_of_In _ _) Hc)). unfold asciiByte, is_byte, RuneSelf in *. lia.
Qed.

Lemma good_ready ci x : good ci x → (ci = true → ascii x) → ready ci x.
Proof.
  intros (Hne & Hw & Hlow) Ha. split_and!; [done|done|]. intros Hci. split; [|by apply Ha].
  rewrite <- (Hlow Hci), ToLower_ascii by (apply ascii_range; auto). apply fold_lowered.
Qed.

(** ** The filter of the literals *)

(** The literals are in the input. *)
Definition present (ci : bool) (l : literals) (s : bytes) : Prop :=
  match l with
  | allRequired v => Forall (λ x, Contains (normOf ci <$> s) x = true) v
  | anyRequired v => Exists (λ x, Contains (normOf ci <$> s) x = true) v
  end.

Lemma holds_present ci s l : Forall (λ x, ci = true → ascii x) (elements l) → holds ci s l →
  present ci l s ∨ (ci = true ∧ foldsToASCII s = true).
Proof.
  destruct l as [v|v]; cbn [elements holds present]; intros Ha H.
  - destruct (decide (ci = true ∧ foldsToASCII s = true)) as [|Hno]; [by right|]. left. rewrite Forall_forall in *. intros x Hx.
    destruct (H x Hx (Ha x Hx)); [done|tauto].
  - apply Exists_exists in H as (x & Hx & Hf). rewrite Forall_forall in Ha. destruct (Hf (Ha x Hx)); [|tauto]. left. apply Exists_exists. eauto.
Qed.

(** A filter that returns, and accepts when the literals are in the input. *)
Definition filter_sound (ci : bool) (l : literals) (pf : filter_) : Prop :=
  ∀ s, wf_bytes s → ∃ b, pf s = Done b ∧ (present ci l s → b = true).

(** The same of the bytes that are required, in the input or in a cached set. *)
Definition matcher_sound (ci : bool) (l : literals) (m : requiredByteMatcher) : Prop :=
  ∀ s, wf_bytes s → present ci l s → requiredMatch m s = true ∧ intersects (presentBits s) m.(rm_bits) = true.

Lemma oneNeedle_ok ci x : ready ci x →
  ∃ f, oneNeedle ci x = Done f ∧ ∀ s, f s = Done (Contains (normOf ci <$> s) x).
Proof.
  intros (Hne & Hw & Hci). unfold oneNeedle. destruct ci.
  - destruct (Hci eq_refl) as [Hlow Ha]. destruct (newFoldedLiteralMatcher_eq x Hw) as (m & E & _). exists (foldedMatch m).
    rewrite E. split; [done|]. intros s. pose proof (foldedMatch_eq x s Hw Hlow Ha) as H. by rewrite E in H.
  - exists (containsNeedle x). split; [done|]. intros s. unfold normOf. by rewrite list_fmap_id.
Qed.

Lemma needleFilters_ok ci needles : Forall (ready ci) needles →
  ∃ fs, needleFilters ci needles = Done fs ∧ Forall2 (λ f x, ∀ s, f s = Done (Contains (normOf ci <$> s) x)) fs needles.
Proof.
  unfold needleFilters. intros Hn.
  enough (∀ fs : list filter_, ∃ fs' : list filter_,
    foldM (λ fs needle, f ← oneNeedle ci needle; Done (fs ++ [f])) needles fs = Done (fs ++ fs') ∧
    Forall2 (λ f x, ∀ s, f s = Done (Contains (normOf ci <$> s) x)) fs' needles) as H.
  { destruct (H []) as (fs & E & Hfs). exists fs. split; [exact E|exact Hfs]. }
  induction Hn as [|x needles Hx _ IH]; intros fs; cbn [foldM]; [exists []; by rewrite app_nil_r|].
  destruct (oneNeedle_ok ci x Hx) as (f & -> & Hf). cbn [mbind run_bind]. destruct (IH (fs ++ [f])) as (fs' & E & Hfs').
  exists (f :: fs'). split; [etrans; [exact E|by rewrite <- (assoc app)]|by constructor].
Qed.

Lemma allFilters_eq ci fs needles s : Forall2 (λ f x, ∀ s, f s = Done (Contains (normOf ci <$> s) x)) fs needles →
  allFilters fs s = Done (forallb (Contains (normOf ci <$> s)) needles).
Proof.
  induction 1 as [|f x fs needles Hf _ IH]; [done|]. cbn [allFilters forallb]. rewrite Hf. cbn [mbind run_bind]. by destruct (Contains _ _).
Qed.

Lemma anyFilter_eq ci fs needles s : Forall2 (λ f x, ∀ s, f s = Done (Contains (normOf ci <$> s) x)) fs needles →
  anyFilter fs s = Done (existsb (Contains (normOf ci <$> s)) needles).
Proof.
  induction 1 as [|f x fs needles Hf _ IH]; [done|]. cbn [anyFilter existsb]. rewrite Hf. cbn [mbind run_bind]. by destruct (Contains _ _).
Qed.

Lemma present_existsb ci v s : present ci (anyRequired v) s → existsb (Contains (normOf ci <$> s)) v = true.
Proof. cbn. intros (x & Hx & H)%Exists_exists. apply existsb_exists. exists x. split; [by apply list_elem_of_In|done]. Qed.

Lemma normOf_if (ci : bool) s : normOf ci <$> s = if ci then fold s else s.
Proof. destruct ci; [done|]. apply list_fmap_id. Qed.

(** Any of the literals, or the one that is chosen of those that are all
    required, gives the bytes of the matcher. *)
Lemma required_matcher ci l needles :
  Forall (ready ci) needles → (∀ s, present ci l s → Exists (λ x, Contains (normOf ci <$> s) x = true) needles) →
  ∃ m, newRequiredByteMatcher needles ci = Done m ∧ matcher_sound ci l m.
Proof.
  intros Hr Hl. destruct (newRequiredByteMatcher_ok needles ci) as (m & -> & Hm).
  { eapply Forall_impl; [exact Hr|]. intros x (? & ? & _). done. }
  exists m. split; [done|]. intros s Hs Hp. apply Hl, Exists_exists in Hp as (x & Hx & Hc). rewrite normOf_if in Hc.
  split; [by eapply requiredMatch_sound|by eapply requiredBits_sound].
Qed.

Lemma filtered_elem v : v ≠ [] →
  let filtered := match filterShort v 2 with [] => [longest v] | _ => filterShort v 2 end in
  filtered ≠ [] ∧ ∀ x, x ∈ filtered → x ∈ v.
Proof.
  intros Hv. cbv zeta. destruct (filterShort v 2) as [|y l] eqn:E.
  - split; [done|]. intros x Hx. apply list_elem_of_singleton in Hx as ->. by apply longest_elem.
  - split; [done|]. intros x Hx. rewrite <- E in Hx. unfold filterShort in Hx. by apply list_elem_of_filter in Hx as [_ ?].
Qed.

Lemma allRequiredFilter_ok ci v : v ≠ [] → Forall (ready ci) v →
  ∃ pf m b, allRequiredFilter ci v = Done (pf, m, b) ∧ filter_sound ci (allRequired v) pf ∧ matcher_sound ci (allRequired v) m.
Proof.
  intros Hv Hr. unfold allRequiredFilter. destruct (filtered_elem v Hv) as [Hne Hin]. cbv zeta in *.
  set (fl := match filterShort v 2 with [] => [longest v] | _ => filterShort v 2 end) in *. rewrite Forall_forall in Hr.
  assert (Forall (ready ci) fl) as Hfl by (apply Forall_forall; auto).
  destruct (needleFilters_ok ci fl Hfl) as (fs & -> & Hfs). cbn [mbind run_bind].
  destruct (required_matcher ci (allRequired v) [longest fl]) as (m & -> & Hm).
  { constructor; [|constructor]. apply Hr, Hin. by apply longest_elem. }
  { cbn. intros s Hs. apply Exists_cons_hd. rewrite Forall_forall in Hs. apply Hs, Hin. by apply longest_elem. }
  cbn [mbind run_bind]. exists (allFilters fs), m, false. split; [done|]. split; [|done].
  intros s Hs. rewrite (allFilters_eq ci fs fl s Hfs). eexists. split; [done|]. cbn. rewrite Forall_forall. intros Hp.
  apply forallb_forall. intros x Hx. apply Hp, Hin. by apply list_elem_of_In.
Qed.

Lemma normalized_ready ci v : Forall (ready ci) v → normalized ci v = v.
Proof.
  intros Hr. unfold normalized. destruct ci; [|done]. induction Hr as [|x v (_ & _ & Hx) _ IH]; [done|].
  destruct (Hx eq_refl) as [Hlow _]. cbn. f_equal; [|exact IH]. unfold fold. clear Hx. induction Hlow; cbn; by f_equal.
Qed.

Lemma anyRequiredFilter_ok ci v : v ≠ [] → Forall (ready ci) v →
  ∃ o, anyRequiredFilter ci v = Done o ∧
    ∀ pf m b, o = Some (pf, m, b) → filter_sound ci (anyRequired v) pf ∧ matcher_sound ci (anyRequired v) m.
Proof.
  intros Hv Hr. unfold anyRequiredFilter. destruct (anyTooShort v 1); [by exists None|].
  rewrite allASCIIStrings_eq by (eapply Forall_impl; [exact Hr|]; by intros x (_ & ? & _)). cbn [mbind run_bind].
  destruct (needleFilters_ok ci v Hr) as (fs & -> & Hfs). destruct (required_matcher ci (anyRequired v) v Hr) as (m & -> & Hm); [done|].
  destruct (newIndexedMatcher_ok v ci) as (im & -> & Him).
  { eapply Forall_impl; [exact Hr|]. by intros x (? & ? & _). }
  assert (filter_sound ci (anyRequired v) (anyFilter fs)) as Hany.
  { intros s Hs. rewrite (anyFilter_eq ci fs v s Hfs). eexists. split; [done|]. apply present_existsb. }
  assert (filter_sound ci (anyRequired v) (λ s, Done (requiredMatch m s))) as Hreq.
  { intros s Hs. eexists. split; [done|]. intros Hp. by apply Hm. }
  assert (filter_sound ci (anyRequired v) (indexedMatch im)) as Hind.
  { intros s Hs. rewrite (io_match _ _ _ Him s), normalized_ready by done. eexists. split; [done|]. apply present_existsb. }
  cbn [mbind run_bind]. destruct (_ =? _)%nat; [eexists; split; [done|]; intros ? ? ? [= <- <- <-]; done|].
  destruct (ci && _); [by exists None|]. destruct (anyTooShort v 2); [eexists; split; [done|]; intros ? ? ? [= <- <- <-]; done|].
  destruct (_ <=? _)%nat; [eexists; split; [done|]; intros ? ? ? [= <- <- <-]; done|].
  destruct (_ <=? _)%nat; eexists; (split; [done|]); intros ? ? ? [= <- <- <-]; done.
Qed.

(** ** The cache of byte sets *)

(** Every entry has the bytes of its value. *)
Definition presence_ok (cache : presenceCache) : Prop :=
  length cache.(bytePresenceCache) = 4%nat ∧ (cache.(bytePresenceNext) < 4)%nat ∧
  Forall (λ e, e.(bp_present) = presentBits e.(bp_value).(go_val)) cache.(bytePresenceCache).

(** Strings are immutable and the entries keep theirs alive: the bytes at a
    pointer are the same ones. *)
Definition presence_live (value : gostring) (cache : presenceCache) : Prop :=
  Forall (λ e, e.(bp_value).(go_ptr) = value.(go_ptr) → length e.(bp_value).(go_val) = length value.(go_val) →
    value.(go_val) ≠ [] → e.(bp_value).(go_val) = value.(go_val)) cache.(bytePresenceCache).

Lemma emptyPresence_ok : presence_ok emptyPresence.
Proof. split_and!; [done|cbn; lia|]. by repeat constructor. Qed.

Lemma LoadBytePresence_ok value cache bits :
  presence_ok cache → presence_live value cache → LoadBytePresence value cache = Some bits → bits = presentBits value.(go_val).
Proof.
  unfold LoadBytePresence, presence_live. intros (_ & _ & Hok) Hlive. induction Hok as [|e entries He _ IH]; [done|].
  apply Forall_cons in Hlive as [Hl Hlive]. cbn [loadPresence]. destruct (_ && _) eqn:E; [|by apply IH]. intros [= <-].
  rewrite He. f_equal. apply andb_prop in E as [[E1 E2]%andb_prop E3]. apply Hl; [lia|lia|]. intros E0. by rewrite E0 in E2.
Qed.

Lemma StoreBytePresence_ok value cache : presence_ok cache →
  ∃ cache', StoreBytePresence value (presentBits value.(go_val)) cache = Done cache' ∧ presence_ok cache'.
Proof.
  intros (Hl & Hn & Hok). unfold StoreBytePresence. rewrite store_lt by lia. cbn [mbind run_bind]. eexists. split; [done|].
  split_and!; cbn [bytePresenceCache bytePresenceNext].
  - by rewrite length_insert.
  - rewrite Hl. apply Nat.mod_upper_bound. lia.
  - by apply Forall_insert.
Qed.

(** What the state has for a value, if it has a cache. *)
Definition tx_ok (tx : option presenceCache) : Prop := match tx with Some cache => presence_ok cache | None => True end.
Definition tx_live (value : gostring) (tx : option presenceCache) : Prop :=
  match tx with Some cache => presence_live value cache | None => True end.

Lemma requiredMatchWithState_ok ci l m tx value :
  matcher_sound ci l m → wf_bytes value.(go_val) → tx_ok tx → tx_live value tx →
  ∃ b tx', requiredMatchWithState m tx value = Done (b, tx') ∧ tx_ok tx' ∧ (present ci l value.(go_val) → b = true).
Proof.
  intros Hm Hw Hok Hlive. unfold requiredMatchWithState, cacheFor. destruct (_ <? _)%nat.
  { do 2 eexists. split; [done|]. split; [done|]. intros Hp. by apply Hm. }
  destruct tx as [cache|]; [|do 2 eexists; split; [done|]; split; [done|]; intros Hp; by apply Hm].
  destruct (LoadBytePresence value cache) as [bits|] eqn:E.
  - apply LoadBytePresence_ok in E as ->; [|done|done]. do 2 eexists. split; [done|]. split; [done|]. intros Hp. by apply Hm.
  - destruct (requiredMatch m value.(go_val)) eqn:Er.
    + do 2 eexists. split; [done|]. done.
    + destruct (StoreBytePresence_ok value cache Hok) as (cache' & -> & Hok'). cbn [mbind run_bind]. do 2 eexists. split; [done|].
      split; [done|]. intros Hp. destruct (Hm _ Hw Hp) as [H _]. by rewrite H in Er.
Qed.

Lemma possibleFromCache_ok ci l m tx value :
  matcher_sound ci l m → wf_bytes value.(go_val) → tx_ok tx → tx_live value tx →
  present ci l value.(go_val) → possibleFromCache m tx value = true.
Proof.
  intros Hm Hw Hok Hlive Hp. unfold possibleFromCache, cacheFor. destruct (_ <? _)%nat; [done|]. destruct tx as [cache|]; [|done].
  destruct (LoadBytePresence value cache) as [bits|] eqn:E; [|done]. apply LoadBytePresence_ok in E as ->; [|done|done]. by apply Hm.
Qed.

Lemma statefulOf_ok ci l pf m populate tx value :
  filter_sound ci l pf → matcher_sound ci l m → wf_bytes value.(go_val) → tx_ok tx → tx_live value tx →
  ∃ b tx', statefulOf ci pf m populate tx value = Done (b, tx') ∧ tx_ok tx' ∧
    (present ci l value.(go_val) ∨ (ci = true ∧ foldsToASCII value.(go_val) = true) → b = true).
Proof.
  intros Hpf Hm Hw Hok Hlive. unfold statefulOf.
  set (st := λ tx value, if populate then requiredMatchWithState m tx value
    else if negb (possibleFromCache m tx value) then Done (false, tx) else ok ← pf value.(go_val); Done (ok, tx)).
  assert (∃ b tx', st tx value = Done (b, tx') ∧ tx_ok tx' ∧ (present ci l value.(go_val) → b = true)) as (b & tx' & E & Hok' & Hb).
  { unfold st. destruct populate; [by eapply requiredMatchWithState_ok|]. destruct (possibleFromCache m tx value) eqn:Ep; cbn [negb].
    - destruct (Hpf _ Hw) as (b & -> & Hb). cbn [mbind run_bind]. eauto 10.
    - do 2 eexists. split; [done|]. split; [done|]. intros Hp. by rewrite (possibleFromCache_ok ci l m tx value) in Ep. }
  unfold st in E. destruct ci; cbv beta zeta.
  - rewrite E. cbn [mbind run_bind]. destruct b; do 2 eexists; (split; [done|]); (split; [done|]); [done|].
    intros [Hp|[_ ?]]; [|done]. by apply Hb in Hp.
  - exists b, tx'. split; [exact E|]. split; [done|]. intros [?|[? _]]; [auto|done].
Qed.

Lemma withExceptions_ok ci l pf s :
  filter_sound ci l pf → wf_bytes s →
  ∃ b, withExceptions ci pf s = Done b ∧ (present ci l s ∨ (ci = true ∧ foldsToASCII s = true) → b = true).
Proof.
  intros Hpf Hs. destruct (Hpf s Hs) as (b & E & Hb). unfold withExceptions. destruct ci.
  - rewrite E. cbn [mbind run_bind]. destruct b; eexists; (split; [done|]); [done|]. intros [Hp|[_ ?]]; [by apply Hb in Hp|done].
  - exists b. split; [done|]. intros [?|[? _]]; [auto|done].
Qed.

(** ** The filter of an expression *)

(** Literals are not empty, and have not the rune U+0130. *)
Definition analysable (re : regexp) : Prop := literals_all (λ _ rs, rs ≠ [] ∧ 0x130 ∉ rs) re.

Lemma existsb_false_elem {A} (f : A → bool) l x : existsb f l = false → x ∈ l → f x = false.
Proof.
  intros H Hx. apply not_true_iff_false. intros E. apply not_true_iff_false in H. apply H, existsb_exists. exists x.
  by rewrite <- list_elem_of_In.
Qed.

Lemma analysable_ok ci re : analysable re → (ci = false → hasFoldCase re = false) → literals_all (okLit ci) re.
Proof.
  unfold analysable. induction re as [re IH] using regexp_nested. intros Ha Hci.
  destruct re; cbn [literals_all hasFoldCase] in *; try done;
    try (apply IH; [done|]; intros E; specialize (Hci E); apply orb_false_iff in Hci as [_ Hci]; done);
    [|apply foldr_and_Forall, Forall_forall; apply foldr_and_Forall in Ha; rewrite Forall_forall in IH, Ha;
      intros re Hre; apply IH; [done|auto|]; intros E; specialize (Hci E); apply orb_false_iff in Hci as [_ Hci];
      by eapply existsb_false_elem in Hci..].
  destruct Ha as [Hne Hd]. split; [done|]. split; [done|]. intros _. apply Forall_forall. intros r Hr ->. done.
Qed.

(** The expression matches only where its literals are. *)
Lemma Matches_holds re ci l s : literals_all (okLit ci) re → wf_bytes s → extractLiterals re ci = Some l → Matches re s → holds ci s l.
Proof.
  intros Hok Hs Hl (pre & mid & post & E & H). pose proof (runes_of s Hs) as Hr. rewrite E in Hr.
  apply Forall_app in Hr as [_ [Hmid _]%Forall_app].
  assert (s = bytesOf pre ++ bytesOf mid ++ bytesOf post) as -> by (by rewrite <- !bytesOf_app, <- E; unfold bytesOf; rewrite runes_concat).
  apply holds_part. by eapply extract_holds.
Qed.

(** The filters of an expression return on every input, accept the inputs that
    the expression matches, and keep the cache. *)
Record prefilter_ok (re : regexp) (pf : compiledPrefilter) : Prop := {
  po_match f s : pf.(pf_match) = Some f → wf_bytes s → ∃ b, f s = Done b ∧ (Matches re s → b = true);
  po_state f tx value : pf.(pf_matchWithState) = Some f → wf_bytes value.(go_val) → tx_ok tx → tx_live value tx →
    ∃ b tx', f tx value = Done (b, tx') ∧ tx_ok tx' ∧ (Matches re value.(go_val) → b = true);
}.

Lemma noPrefilter_ok re : prefilter_ok re noPrefilter.
Proof. by split. Qed.

Lemma compiled_ok re ci l pf m populate :
  (∀ s, wf_bytes s → Matches re s → present ci l s ∨ (ci = true ∧ foldsToASCII s = true)) →
  filter_sound ci l pf → matcher_sound ci l m →
  prefilter_ok re (mkPrefilter (Some (withExceptions ci pf)) (Some (statefulOf ci pf m populate))).
Proof.
  intros Hl Hpf Hm. split; cbn [pf_match pf_matchWithState].
  - intros f s [= <-] Hs. destruct (withExceptions_ok ci l pf s Hpf Hs) as (b & -> & Hb). eauto.
  - intros f tx value [= <-] Hs Hok Hlive. destruct (statefulOf_ok ci l pf m populate tx value) as (b & tx' & -> & Hok' & Hb); eauto 10.
Qed.

Lemma compilePrefilter_ok re : analysable re → ∃ pf, compilePrefilter (Some re) = Done pf ∧ prefilter_ok re pf.
Proof.
  intros Ha. unfold compilePrefilter. set (ci := hasFoldCase re).
  assert (literals_all (okLit ci) re) as Hok by (by apply analysable_ok).
  destruct (extractLiterals re ci) as [l|] eqn:El; [|eauto using noPrefilter_ok].
  pose proof (extract_good ci re l Hok El) as Hg. pose proof (extract_nonempty re ci l El) as Hne.
  assert (extractedLiteralsAreASCII l = Done (forallb (forallb asciiByte) (elements l))) as ->.
  { destruct l; apply allASCIIStrings_eq; (eapply Forall_impl; [exact Hg|]); by intros x (_ & ? & _). }
  cbn [mbind run_bind]. destruct (ci && negb _) eqn:Eci; [eauto using noPrefilter_ok|].
  assert (Forall (λ x, ci = true → ascii x) (elements l)) as Hascii.
  { apply Forall_forall. intros x Hx E. rewrite E in Eci. cbn in Eci. apply negb_false_iff in Eci. rewrite forallb_forall in Eci.
    apply Eci. by apply list_elem_of_In. }
  assert (Forall (ready ci) (elements l)) as Hr.
  { rewrite Forall_forall in *. intros x Hx. apply good_ready; auto. }
  assert (∀ s, wf_bytes s → Matches re s → present ci l s ∨ (ci = true ∧ foldsToASCII s = true)) as Hp.
  { intros s Hs Hm. apply holds_present; [done|]. by eapply Matches_holds. }
  destruct l as [v|v]; cbn [elements nonempty] in *.
  - destruct (allRequiredFilter_ok ci v Hne Hr) as (pf & m & b & -> & Hpf & Hm). cbn [mbind run_bind].
    eexists. split; [done|]. by eapply compiled_ok.
  - destruct (anyRequiredFilter_ok ci v Hne Hr) as (o & -> & Ho). cbn [mbind run_bind]. destruct o as [[[pf m] b]|]; [|eauto using noPrefilter_ok].
    destruct (Ho pf m b eq_refl) as [Hpf Hm]. eexists. split; [done|]. by eapply compiled_ok.
Qed.

(** C22: The filter that is built from the literals of an expression (folded
    literals, the index of many literals, or the bytes that are required)
    returns on every input, and never rejects an input that the expression
    matches, if no literal has the rune U+0130. *)
Theorem compilePrefilter_sound re s :
  analysable re → wf_bytes s →
  ∃ pf, compilePrefilter (Some re) = Done pf ∧
    ∀ f, pf.(pf_match) = Some f → ∃ b, f s = Done b ∧ (Matches re s → b = true).
Proof.
  intros Ha Hs. destruct (compilePrefilter_ok re Ha) as (pf & E & Hpf). exists pf. split; [done|]. intros f Hf.
  by apply (po_match _ _ Hpf).
Qed.

(** The filter that uses the cached byte sets of a transaction keeps every
    entry the set of its value's bytes, and it too never rejects an input that
    the expression matches. *)
Theorem compilePrefilter_state re tx value :
  analysable re → wf_bytes value.(go_val) → tx_ok tx → tx_live value tx →
  ∃ pf, compilePrefilter (Some re) = Done pf ∧
    ∀ f, pf.(pf_matchWithState) = Some f →
      ∃ b tx', f tx value = Done (b, tx') ∧ tx_ok tx' ∧ (Matches re value.(go_val) → b = true).
Proof.
  intros Ha Hs Hok Hlive. destruct (compilePrefilter_ok re Ha) as (pf & E & Hpf). exists pf. split; [done|]. intros f Hf.
  by apply (po_state _ _ Hpf).
Qed.

Lemma minMatchLength_ok re s :
  literals_all minimal re → wf_bytes s → Matches re s → minMatchLength (Some re) <= Z.of_nat (length s).
Proof.
  intros Hl Hs (pre & mid & post & E & H). pose proof (runes_of s Hs) as Hr. rewrite E in Hr.
  apply Forall_app in Hr as [_ [Hmid _]%Forall_app]. pose proof (minLen_ok re pre mid post Hl H Hmid) as Hm. cbn [minMatchLength].
  assert (s = bytesOf pre ++ bytesOf mid ++ bytesOf post) as -> by (by rewrite <- !bytesOf_app, <- E; unfold bytesOf; rewrite runes_concat).
  rewrite !length_app. lia.
Qed.

(** C38: An input that is shorter than [minMatchLength] of an expression, which
    counts the bytes of literals in UTF-8 and one byte for any other rune, is
    not matched by it. *)
Theorem minMatchLength_bound re s :
  literals_all minimal re → wf_bytes s → Z.of_nat (length s) < minMatchLength (Some re) → ¬ Matches re s.
Proof. intros Hl Hs Hlt H. pose proof (minMatchLength_ok re s Hl Hs H). lia. Qed.

(** With U+0130, whose lower case is the letter i, in a literal that
    ignores case, the filter rejects an input that the expression matches: the
    expression (?i)İX and the input İX. *)
Theorem compilePrefilter_dotted :
  uniLower 0x130 = 0x69 →
  let re := OpLiteral true [0x130; 0x58] in
  let s := [0xc4; 0xb0; 0x58] in
  Matches re s ∧ ∃ pf f, compilePrefilter (Some re) = Done pf ∧ pf.(pf_match) = Some f ∧ f s = Done false.
Proof.
  intros Hdot. cbv zeta. split.
  - exists [], [(0x130, [0xc4; 0xb0]); (0x58, [0x58])], []. split; [reflexivity|]. apply m_literal.
    repeat constructor; apply foldEq_refl.
  - assert (literalOf [0x130; 0x58] true = [0x69; 0x78]) as El.
    { unfold literalOf. cbn [flat_map app]. rewrite !ToLower_encode. replace (validOf 0x130) with 0x130 by reflexivity.
      rewrite Hdot. replace (validOf 0x58) with 0x58 by reflexivity. rewrite (uniLower_ascii 0x58) by (unfold RuneSelf; lia). reflexivity. }
    set (x := [0x69; 0x78]) in *.
    assert (Forall (ready true) [x]) as Hr.
    { constructor; [|constructor]. split_and!; [done|by apply wf_bytesb_true|]. intros _. split; [by repeat constructor|done]. }
    assert (extractLiterals (OpLiteral true [0x130; 0x58]) true = Some (allRequired [x])) as Ex by (cbn [extractLiterals]; by rewrite El).
    unfold compilePrefilter. cbn [hasFoldCase]. rewrite Ex. cbn [extractedLiteralsAreASCII].
    rewrite allASCIIStrings_eq by (constructor; [by apply wf_bytesb_true|constructor]).
    unfold allRequiredFilter. replace (filterShort [x] 2) with [x] by reflexivity.
    destruct (needleFilters_ok true [x] Hr) as (fs & Ef & Hfs). destruct (required_matcher true (anyRequired [x]) [x] Hr) as (m & Em & _); [done|].
    replace (forallb (forallb asciiByte) [x]) with true by reflexivity. cbn [mbind run_bind andb negb]. rewrite Ef. cbn [mbind run_bind]. replace (longest [x]) with x by reflexivity. rewrite Em. cbn [mbind run_bind].
    do 2 eexists. split; [done|]. split; [done|]. unfold withExceptions. by rewrite (allFilters_eq true fs [x] _ Hfs).
Qed.
End soundness.

(** ** Tables for evaluating the model *)

(** ASCII, Latin-1, and the runes above that have a case in ASCII. *)
Definition dottedLower (r : Z) : Z := if r =? 0x130 then 0x69 else if r =? 0x212a then 0x6b else latin1Lower r.

Definition dotted : Unicode.
Proof.
  refine {| uniLower := dottedLower; uniUpper := latin1Upper |};
    unfold dottedLower, latin1Lower, latin1Upper, in_range, valid_rune, RuneSelf, RuneError;
    intros; split_ifs; lia.
Defined.

Definition foldKey (r : Z) : Z :=
  if r =? 0x17f then 0x73 else if r =? 0x212a then 0x6b else if in_range 0 r 0x7f then lowerByte r else r.

Definition asciiFold : UnicodeFold.
Proof.
  refine {| foldEq r c := foldKey r =? foldKey c |}; unfold foldKey, lowerByte, in_range, RuneSelf, RuneError;
    intros; repeat case_match; lia.
Defined.

Definition dottedASCII : LowerToASCII dotted.
Proof. constructor. cbn. unfold dottedLower, latin1Lower, in_range, valid_rune, RuneSelf. intros r. split_ifs; lia. Defined.

(** (?i)(?:union|select) *)
Definition exampleRe : regexp :=
  OpAlternate false [OpLiteral true [0x55; 0x4e; 0x49; 0x4f; 0x4e]; OpLiteral true [0x53; 0x45; 0x4c; 0x45; 0x43; 0x54]].

Lemma exampleRe_analysable : analysable exampleRe.
Proof. cbn. split_and!; done || set_solver. Qed.

Lemma compilePrefilter_sound_witness :
  ∃ pf, @compilePrefilter dotted (Some exampleRe) = Done pf ∧
    ∀ f, pf.(pf_match) = Some f → ∃ b, f (str "id=1 UnIoN all") = Done b ∧ (@Matches asciiFold exampleRe (str "id=1 UnIoN all") → b = true).
Proof.
  apply (@compilePrefilter_sound dotted asciiFold dottedASCII exampleRe (str "id=1 UnIoN all") exampleRe_analysable).
  by apply wf_bytesb_true.
Defined.

Lemma compilePrefilter_state_witness :
  ∃ pf, @compilePrefilter dotted (Some exampleRe) = Done pf ∧
    ∀ f, pf.(pf_matchWithState) = Some f →
      ∃ b tx', f (Some emptyPresence) (mkGo 64 (replicate 600 0x61)) = Done (b, tx') ∧ tx_ok tx' ∧
        (@Matches asciiFold exampleRe (replicate 600 0x61) → b = true).
Proof.
  apply (@compilePrefilter_state dotted asciiFold dottedASCII exampleRe (Some emptyPresence) (mkGo 64 (replicate 600 0x61)) exampleRe_analysable).
  - by apply wf_bytesb_true.
  - apply emptyPresence_ok.
  - by repeat constructor.
Defined.

Lemma minMatchLength_bound_witness : ¬ @Matches asciiFold exampleRe (str "sel").
Proof.
  apply (@minMatchLength_bound asciiFold exampleRe (str "sel")); [|by apply wf_bytesb_true|reflexivity].
  cbn. split_and!; try done; intros _; repeat (constructor; [cbn; intros c; unfold foldKey, lowerByte, in_range; split_ifs; lia|]); constructor.
Defined.

Lemma compilePrefilter_dotted_witness :
  @Matches asciiFold (OpLiteral true [0x130; 0x58]) [0xc4; 0xb0; 0x58] ∧
  ∃ pf f, @compilePrefilter dotted (Some (OpLiteral true [0x130; 0x58])) = Done pf ∧ pf.(pf_match) = Some f ∧
    f [0xc4; 0xb0; 0x58] = Done false.
Proof. exact (@compilePrefilter_dotted dotted asciiFold eq_refl). Defined.
