(* ===== verification/RxBinary.v ===== *)
(** The filter before expressions on bytes: src/internal/operators/rxprefilter_binary.go.

    A clause is a set of bytes; an expression has a list of clauses, of which
    every input that it matches has one.  The bytes of a clause are looked for
    in the input, or in the set of its bytes that the transaction has cached. *)

From S2P Require Import Prelude GoLib Matchers TransactionCaches Prefilter.

Definition maxBinaryRequiredClauses : nat := 64.
Definition maxBinaryRequiredBytesPerClause : nat := 8.

Record binaryRequiredClause := mkClause { cl_bits : bitmap; cl_bytes : bytes }.

Record binaryRequiredPrefilter := mkBinaryPrefilter {
  minimumBytes : Z;
  clauses : list binaryRequiredClause;
}.

Definition newBinaryRequiredClause (values : bytes) : binaryRequiredClause :=
  mkClause (foldl setBit noBits values) values.

(** The best of the values that are not selected. *)
Definition rarest (present : array bool) (values : bytes) : option Z :=
  foldl (λ best value,
    if present value then best
    else match best with
         | None => Some value
         | Some b =>
             if (byteRarity value >? byteRarity b) || ((byteRarity value =? byteRarity b) && (value <? b))
             then Some value else best
         end) None values.

(** [n] more bytes are selected at most. *)
Fixpoint selectLoop (n : nat) (values : bytes) (present : array bool) (selected : bytes) : bytes :=
  match n with
  | 0%nat => selected
  | S n =>
      match rarest present values with
      | None => selected
      | Some value => selectLoop n values (set_byte present value true) (selected ++ [value])
      end
  end.

Definition selectBinaryRequiredBytes (values : bytes) : bytes :=
  selectLoop maxBinaryRequiredBytesPerClause values (λ _, false) [].

Definition foldsBinary (current : Z) : bool :=
  ((current >=? 0x41) && (current <=? 0x5a)) || ((current >=? 0x61) && (current <=? 0x7a)) || (current >=? 0x80).

(** The bytes of a literal that are the same in every case. *)
Fixpoint literalValues (foldCase : bool) (rs : list Z) (present : array bool) (values : bytes) : option bytes :=
  match rs with
  | [] => Some values
  | value :: rs =>
      if (value <? 0) || (value >? 255) then None
      else if foldCase && foldsBinary value then literalValues foldCase rs present values
      else if negb (present value) then literalValues foldCase rs (set_byte present value true) (values ++ [value])
      else literalValues foldCase rs present values
  end.

Definition binaryLiteralConstraint (foldCase : bool) (rs : list Z) : option (list binaryRequiredClause) :=
  match literalValues foldCase rs (λ _, false) [] with
  | None | Some [] => None
  | Some values => Some [newBinaryRequiredClause (selectBinaryRequiredBytes values)]
  end.

Definition deduplicateBinaryRequiredClauses (clauses : list binaryRequiredClause) : list binaryRequiredClause :=
  (foldl (λ '(seen, result) clause,
    if decide (clause.(cl_bits) ∈ seen) then (seen, result)
    else (clause.(cl_bits) :: seen, result ++ [clause])) ([] : list bitmap, []) clauses).2.

Definition combineBinaryRequiredConstraints (left right : list binaryRequiredClause) : list binaryRequiredClause :=
  if (maxBinaryRequiredClauses <? length left * length right)%nat then
    if (length right <? length left)%nat then right else left
  else
    deduplicateBinaryRequiredClauses
      (flat_map (λ leftClause, (λ rightClause,
         newBinaryRequiredClause (selectBinaryRequiredBytes (leftClause.(cl_bytes) ++ rightClause.(cl_bytes)))) <$> right) left).

(** The children that are useful, combined. *)
Definition combineStep (combined : list binaryRequiredClause) (child : option (list binaryRequiredClause)) : list binaryRequiredClause :=
  match child with
  | None => combined
  | Some child => if (length combined =? 0)%nat then child else combineBinaryRequiredConstraints combined child
  end.

(** The clauses of the branches; a branch that never matches has none. *)
Fixpoint alternativeClauses (children : list (bool * option (list binaryRequiredClause))) (alternatives : list binaryRequiredClause)
    : option (list binaryRequiredClause) :=
  match children with
  | [] => Some alternatives
  | (true, _) :: children => alternativeClauses children alternatives
  | (false, None) :: _ => None
  | (false, Some child) :: children =>
      if (maxBinaryRequiredClauses <? length alternatives + length child)%nat then None
      else alternativeClauses children (alternatives ++ child)
  end.

Definition isNoMatch (re : regexp) : bool := match re with OpNoMatch _ => true | _ => false end.

(** [None] when the constraint is not useful. *)
Fixpoint extractBinaryRequiredConstraint (re : regexp) : option (list binaryRequiredClause) :=
  match re with
  | OpLiteral fl rs => binaryLiteralConstraint fl rs
  | OpCapture _ sub | OpPlus _ sub => extractBinaryRequiredConstraint sub
  | OpRepeat _ min _ sub => if (min =? 0)%nat then None else extractBinaryRequiredConstraint sub
  | OpConcat _ sub =>
      match foldl combineStep [] (extractBinaryRequiredConstraint <$> sub) with
      | [] => None
      | combined => Some combined
      end
  | OpAlternate _ sub =>
      match alternativeClauses ((λ re, (isNoMatch re, extractBinaryRequiredConstraint re)) <$> sub) [] with
      | None | Some [] => None
      | Some alternatives => Some (deduplicateBinaryRequiredClauses alternatives)
      end
  | _ => None
  end.

(** The largest [int]. *)
Definition maxInt : Z := 2 ^ 63 - 1.

(** The sum, with 0 when it overflows. *)
Fixpoint totalBytes (minimums : list Z) (total : Z) : Z :=
  match minimums with
  | [] => total
  | minimum :: minimums => if minimum >? maxInt - total then 0 else totalBytes minimums (total + minimum)
  end.

Fixpoint binaryMinimumMatchBytes (re : regexp) : Z :=
  match re with
  | OpLiteral _ rs => Z.of_nat (length rs)
  | OpAnyCharNotNL _ | OpAnyChar _ | OpCharClass _ _ => 1
  | OpCapture _ sub | OpPlus _ sub => binaryMinimumMatchBytes sub
  | OpConcat _ sub => totalBytes (binaryMinimumMatchBytes <$> sub) 0
  | OpAlternate _ sub =>
      match binaryMinimumMatchBytes <$> sub with
      | [] => 0
      | m :: rest => foldl (λ minimum current, if current <? minimum then current else minimum) m rest
      end
  | OpRepeat _ min _ sub =>
      if (min =? 0)%nat then 0
      else
        let minimum := binaryMinimumMatchBytes sub in
        if negb (minimum =? 0) && (Z.of_nat min >? maxInt / minimum) then 0 else Z.of_nat min * minimum
  | _ => 0
  end.

(** [re] is the parsed expression, [None] if it has no parse. *)
Definition compileBinaryRequiredPrefilter (re : option regexp) : option binaryRequiredPrefilter :=
  match re with
  | None => None
  | Some re =>
      match extractBinaryRequiredConstraint re with
      | None | Some [] => None
      | Some constraint => Some (mkBinaryPrefilter (binaryMinimumMatchBytes re) constraint)
      end
  end.

Definition possibleDirect (f : binaryRequiredPrefilter) (value : bytes) : bool :=
  existsb (λ clause, forallb (λ c, match IndexByte value c with Some _ => true | None => false end) clause.(cl_bytes)) f.(clauses).

Definition possibleFromPresence (f : binaryRequiredPrefilter) (present : bitmap) : bool :=
  existsb (λ clause, forallb (λ '(p, required), Z.land p required =? required) (zip present clause.(cl_bits))) f.(clauses).

Definition possible (f : binaryRequiredPrefilter) (tx : option presenceCache) (value : gostring)
    : run (bool * option presenceCache) :=
  if Z.of_nat (length value.(go_val)) <? f.(minimumBytes) then Done (false, tx)
  else
    match cacheFor tx value with
    | None => Done (possibleDirect f value.(go_val), tx)
    | Some cache =>
        match LoadBytePresence value cache with
        | Some present => Done (possibleFromPresence f present, tx)
        | None =>
            if possibleDirect f value.(go_val) then Done (true, tx)
            else cache ← StoreBytePresence value (presentBits value.(go_val)) cache; Done (false, Some cache)
        end
    end.

(** ** Soundness *)

Section soundness.
Context `{F : !UnicodeFold}.
Notation steps := (list (Z * bytes)).

(** Expressions on bytes read every byte as a rune. *)
Definition byteSteps (s : bytes) : steps := (λ c, (c, [c])) <$> s.

Definition BinaryMatches (re : regexp) (s : bytes) : Prop :=
  ∃ pre mid post, byteSteps s = pre ++ mid ++ post ∧ matches re pre mid post.

Lemma byteSteps_vals s : (byteSteps s).*1 = s.
Proof. unfold byteSteps. rewrite <- list_fmap_compose. apply list_fmap_id. Qed.

(** The value has every byte of a clause, of one of the clauses. *)
Definition sat (s : bytes) (clause : binaryRequiredClause) : Prop := ∀ c, c ∈ clause.(cl_bytes) → c ∈ s.
Definition satOne (s : bytes) (cs : list binaryRequiredClause) : Prop := Exists (sat s) cs.

Definition clause_ok (clause : binaryRequiredClause) : Prop :=
  clause.(cl_bits) = presentBits clause.(cl_bytes) ∧ wf_bytes clause.(cl_bytes).

Lemma satOne_mono s s' cs : (∀ c, c ∈ s → c ∈ s') → satOne s cs → satOne s' cs.
Proof. intros Hs H. eapply Exists_impl; [exact H|]. intros clause Hc c Hin. auto. Qed.

Lemma rarest_elem present values v : rarest present values = Some v → v ∈ values.
Proof.
  unfold rarest. intros H. enough (∀ values best, foldl (λ best value,
    if present value then best
    else match best with
         | None => Some value
         | Some b => if (byteRarity value >? byteRarity b) || ((byteRarity value =? byteRarity b) && (value <? b)) then Some value else best
         end) best values = Some v → best = Some v ∨ v ∈ values) as Hin by (destruct (Hin _ _ H); done).
  clear. induction values as [|x values IH]; intros best H; cbn [foldl] in H; [by left|]. apply IH in H as [H|H]; [|set_solver].
  destruct (present x); [by left|]. destruct best as [b|]; [|set_solver]. destruct (_ || _); set_solver.
Qed.

Lemma selectLoop_elem n values : ∀ present selected x,
  x ∈ selectLoop n values present selected → x ∈ selected ∨ x ∈ values.
Proof.
  induction n as [|n IH]; intros present selected x Hx; cbn [selectLoop] in Hx; [by left|].
  destruct (rarest present values) as [v|] eqn:E; [|by left]. apply rarest_elem in E. apply IH in Hx. set_solver.
Qed.

Lemma select_elem values x : x ∈ selectBinaryRequiredBytes values → x ∈ values.
Proof. intros [H|H]%selectLoop_elem; [set_solver|done]. Qed.

Lemma newClause_ok values : wf_bytes values → clause_ok (newBinaryRequiredClause (selectBinaryRequiredBytes values)).
Proof.
  intros Hw. split; [done|]. apply Forall_forall. intros x Hx%select_elem. rewrite Forall_forall in Hw. auto.
Qed.

Lemma newClause_sat s values : (∀ c, c ∈ values → c ∈ s) → sat s (newBinaryRequiredClause (selectBinaryRequiredBytes values)).
Proof. intros H c Hc%select_elem. auto. Qed.

Lemma literalValues_elem fl rs : ∀ present values out, literalValues fl rs present values = Some out →
  ∀ x, x ∈ out → x ∈ values ∨ (x ∈ rs ∧ is_byte x ∧ (fl = true → foldsBinary x = false)).
Proof.
  induction rs as [|r rs IH]; intros present values out H x Hx; cbn [literalValues] in H; [simplify_eq; by left|].
  destruct (_ || _) eqn:Er; [done|]. destruct (fl && foldsBinary r) eqn:Ef.
  { destruct (IH _ _ _ H x Hx) as [?|(? & ? & ?)]; [by left|]. right. set_solver. }
  destruct (negb (present r)); destruct (IH _ _ _ H x Hx) as [Hv|(? & ? & ?)]; try (right; set_solver); [|by left].
  apply elem_of_app in Hv as [?|Hv]; [by left|]. apply list_elem_of_singleton in Hv as ->. right. split; [set_solver|].
  split; [unfold is_byte; lia|]. intros ->. by destruct (foldsBinary r).
Qed.

(** A byte that is the same in every case matches only itself. *)
Lemma runeMatches_same fl r c : is_byte c → runeMatches fl r c → (fl = true → foldsBinary r = false) → is_byte r → c = r.
Proof.
  unfold runeMatches. intros Hc Hm Hf Hr. destruct fl; [|done]. specialize (Hf eq_refl).
  unfold foldsBinary in Hf. destruct (foldEq_ascii r c) as [[Hca E]|[->| ->]]; unfold is_byte, RuneSelf in *; [lia|done| |lia|lia].
  unfold lowerByte, in_range in E. revert E. split_ifs; lia.
Qed.

Definition byteStep (rb : Z * bytes) : Prop := is_byte rb.1.

Lemma literal_sat fl rs cs (mid : steps) : binaryLiteralConstraint fl rs = Some cs →
  Forall byteStep mid → Forall2 (runeMatches fl) rs mid.*1 → satOne mid.*1 cs.
Proof.
  unfold binaryLiteralConstraint. intros H Hmid Hm. destruct (literalValues _ _ _ _) as [[|v vs]|] eqn:E; simplify_eq.
  apply Exists_cons_hd, newClause_sat. intros c Hc. destruct (literalValues_elem _ _ _ _ _ E c Hc) as [?|(Hr & Hb & Hf)]; [set_solver|].
  apply list_elem_of_lookup in Hr as [i Hi]. destruct (Forall2_lookup_l _ _ _ _ _ Hm Hi) as (c' & Hc' & Hrm).
  assert (is_byte c') as Hb'.
  { apply list_lookup_fmap_Some in Hc' as (rb & -> & Hrb). rewrite Forall_lookup in Hmid. by apply (Hmid i). }
  rewrite <- (runeMatches_same fl c c' Hb' Hrm Hf Hb). by eapply list_elem_of_lookup_2.
Qed.

Lemma literal_clauses fl rs cs : binaryLiteralConstraint fl rs = Some cs → cs ≠ [] ∧ Forall clause_ok cs.
Proof.
  unfold binaryLiteralConstraint. intros H. destruct (literalValues _ _ _ _) as [[|v vs]|] eqn:E; simplify_eq. split; [done|].
  constructor; [|constructor]. apply newClause_ok, Forall_forall. intros c Hc.
  destruct (literalValues_elem _ _ _ _ _ E c Hc) as [?|(_ & ? & _)]; [set_solver|done].
Qed.

(** ** Removing duplicates *)

Lemma clause_same a b s : clause_ok a → clause_ok b → a.(cl_bits) = b.(cl_bits) → wf_bytes s → sat s a → sat s b.
Proof.
  intros [Ea Ha] [Eb Hb] E Hs Hsat c Hc. apply Hsat. assert (is_byte c) as Hbyte by (rewrite Forall_forall in Hb; auto).
  apply containsByte_true. by rewrite <- hasBit_present, <- Ea, E, Eb, hasBit_present, containsByte_true.
Qed.

Lemma dedupe_spec cs :
  (∀ c, c ∈ deduplicateBinaryRequiredClauses cs → c ∈ cs) ∧
  (∀ c, c ∈ cs → ∃ c', c' ∈ deduplicateBinaryRequiredClauses cs ∧ c'.(cl_bits) = c.(cl_bits)).
Proof.
  unfold deduplicateBinaryRequiredClauses.
  enough (∀ cs (seen : list bitmap) result, (∀ b, b ∈ seen ↔ ∃ c, c ∈ result ∧ c.(cl_bits) = b) →
    let out := (foldl (λ '(seen, result) clause,
      if decide (clause.(cl_bits) ∈ seen) then (seen, result)
      else (clause.(cl_bits) :: seen, result ++ [clause])) (seen, result) cs).2 in
    (∀ c, c ∈ out → c ∈ result ∨ c ∈ cs) ∧ (∀ c, c ∈ result ++ cs → ∃ c', c' ∈ out ∧ c'.(cl_bits) = c.(cl_bits))) as H.
  { destruct (H cs [] []) as [H1 H2]; [set_solver|]. split; [intros c Hc; destruct (H1 c Hc); set_solver|exact H2]. }
  clear. induction cs as [|x cs IH]; intros seen result Hseen; cbv zeta; cbn [foldl].
  { rewrite app_nil_r. split; [by left|]. intros c Hc. by exists c. }
  destruct (decide (cl_bits x ∈ seen)) as [Hin|Hin].
  - destruct (IH seen result Hseen) as [H1 H2]. split; [intros c Hc; destruct (H1 c Hc); set_solver|]. intros c Hc.
    apply elem_of_app in Hc as [Hc|[->|Hc]%elem_of_cons]; [apply H2; set_solver| |apply H2; set_solver].
    apply Hseen in Hin as (c' & Hc' & E). destruct (H2 c') as (c'' & ? & ?); [set_solver|]. exists c''. split; [done|congruence].
  - destruct (IH (cl_bits x :: seen) (result ++ [x])) as [H1 H2].
    { intros b. rewrite elem_of_cons, Hseen. split.
      - intros [->|(c & ? & ?)]; [exists x|exists c]; set_solver.
      - intros (c & [Hc|Hc]%elem_of_app & <-); [right; eauto|left]. by apply list_elem_of_singleton in Hc as ->. }
    split; [intros c Hc; destruct (H1 c Hc); set_solver|]. intros c Hc. apply H2. set_solver.
Qed.

Lemma dedupe_ok cs : cs ≠ [] → Forall clause_ok cs →
  deduplicateBinaryRequiredClauses cs ≠ [] ∧ Forall clause_ok (deduplicateBinaryRequiredClauses cs).
Proof.
  intros Hne Hok. destruct (dedupe_spec cs) as [H1 H2]. split.
  - destruct cs as [|c cs]; [done|]. destruct (H2 c) as (c' & Hc' & _); [set_solver|]. intros E. rewrite E in Hc'. set_solver.
  - rewrite Forall_forall in *. auto.
Qed.

Lemma dedupe_sat s cs : wf_bytes s → Forall clause_ok cs → satOne s cs → satOne s (deduplicateBinaryRequiredClauses cs).
Proof.
  intros Hs Hok (c & Hc & Hsat)%Exists_exists. destruct (dedupe_spec cs) as [H1 H2]. destruct (H2 c Hc) as (c' & Hc' & E).
  rewrite Forall_forall in Hok. apply Exists_exists. exists c'. split; [done|]. eapply clause_same; [| |by symmetry| |exact Hsat]; auto.
Qed.

(** ** Combination *)

Lemma combine_ok left right :
  left ≠ [] → right ≠ [] → Forall clause_ok left → Forall clause_ok right →
  combineBinaryRequiredConstraints left right ≠ [] ∧ Forall clause_ok (combineBinaryRequiredConstraints left right).
Proof.
  intros Hl Hr Hlo Hro. unfold combineBinaryRequiredConstraints. destruct (_ <? _)%nat; [destruct (_ <? _)%nat; done|].
  apply dedupe_ok.
  - destruct left as [|a left]; [done|]. destruct right as [|b right]; done.
  - apply Forall_forall. intros c Hc. apply list_elem_of_In, in_flat_map in Hc as (a & Ha & Hc).
    apply list_elem_of_In, list_elem_of_fmap in Hc as (b & -> & Hb). apply list_elem_of_In in Ha. rewrite Forall_forall in Hlo, Hro.
    apply newClause_ok, Forall_app. split; [apply (Hlo a Ha)|apply (Hro b Hb)].
Qed.

Lemma combine_sat s left right :
  wf_bytes s → Forall clause_ok left → Forall clause_ok right → satOne s left → satOne s right →
  satOne s (combineBinaryRequiredConstraints left right).
Proof.
  intros Hs Hlo Hro Hl Hr. unfold combineBinaryRequiredConstraints. destruct (_ <? _)%nat; [destruct (_ <? _)%nat; done|].
  apply Exists_exists in Hl as (a & Ha & Hsa). apply Exists_exists in Hr as (b & Hb & Hsb). rewrite Forall_forall in Hlo, Hro.
  apply dedupe_sat; [done| |].
  - apply Forall_forall. intros c Hc. apply list_elem_of_In, in_flat_map in Hc as (a' & Ha' & Hc).
    apply list_elem_of_In, list_elem_of_fmap in Hc as (b' & -> & Hb'). apply list_elem_of_In in Ha'.
    apply newClause_ok, Forall_app. split; [apply (Hlo a' Ha')|apply (Hro b' Hb')].
  - apply Exists_exists. exists (newBinaryRequiredClause (selectBinaryRequiredBytes (a.(cl_bytes) ++ b.(cl_bytes)))). split.
    + apply list_elem_of_In, in_flat_map. exists a. split; [by apply list_elem_of_In|]. apply list_elem_of_In, list_elem_of_fmap. eauto.
    + apply newClause_sat. intros c [Hc|Hc]%elem_of_app; auto.
Qed.

Lemma combineAll_ok children : Forall (λ o, ∀ cs, o = Some cs → cs ≠ [] ∧ Forall clause_ok cs) children →
  ∀ combined, Forall clause_ok combined → Forall clause_ok (foldl combineStep combined children).
Proof.
  induction 1 as [|o children Ho _ IH]; intros combined Hc; [done|]. cbn [foldl]. apply IH. unfold combineStep.
  destruct o as [cs|]; [|done]. destruct (Ho cs eq_refl) as [Hne Hcs]. destruct (Nat.eqb_spec (length combined) 0) as [E|E]; [done|].
  apply combine_ok; [by intros ->|done|done|done].
Qed.

Lemma combineAll_sat s children : wf_bytes s →
  Forall (λ o, ∀ cs, o = Some cs → (cs ≠ [] ∧ Forall clause_ok cs) ∧ satOne s cs) children →
  ∀ combined, Forall clause_ok combined → (combined ≠ [] → satOne s combined) →
  foldl combineStep combined children ≠ [] → satOne s (foldl combineStep combined children).
Proof.
  intros Hs. induction 1 as [|o children Ho _ IH]; intros combined Hc Hsat; [done|]. cbn [foldl]. unfold combineStep at 2 4.
  destruct o as [cs|]; [|by apply IH]. destruct (Ho cs eq_refl) as [[Hne Hcs] Hscs].
  destruct (Nat.eqb_spec (length combined) 0) as [E|E]; [by apply IH|]. assert (combined ≠ []) as Hcne by (by intros ->).
  apply IH; [by apply combine_ok|]. intros _. apply combine_sat; auto.
Qed.

Lemma alternativeClauses_elem children : ∀ acc v, alternativeClauses children acc = Some v →
  (∀ c, c ∈ acc → c ∈ v) ∧
  (∀ o, (false, o) ∈ children → ∃ child, o = Some child ∧ ∀ c, c ∈ child → c ∈ v) ∧
  (∀ c, c ∈ v → c ∈ acc ∨ ∃ child, (false, Some child) ∈ children ∧ c ∈ child).
Proof.
  induction children as [|[no o] children IH]; intros acc v H; cbn [alternativeClauses] in H.
  { simplify_eq. split_and!; set_solver. }
  destruct no.
  - destruct (IH _ _ H) as (H1 & H2 & H3). split_and!; [done| |].
    + intros o' [?|?]%elem_of_cons; [done|auto].
    + intros c Hc. destruct (H3 c Hc) as [?|(child & ? & ?)]; [by left|]. right. exists child. set_solver.
  - destruct o as [child|]; [|done]. destruct (_ <? _)%nat; [done|]. destruct (IH _ _ H) as (H1 & H2 & H3). split_and!; [set_solver| |].
    + intros o' [[= ->]|?]%elem_of_cons; [|auto]. exists child. set_solver.
    + intros c Hc. destruct (H3 c Hc) as [[?|?]%elem_of_app|(child' & ? & ?)]; [by left| |]; right; [exists child|exists child']; set_solver.
Qed.

(** ** All expressions *)

Lemma extract_clauses re : ∀ cs, extractBinaryRequiredConstraint re = Some cs → cs ≠ [] ∧ Forall clause_ok cs.
Proof.
  induction re as [re IH] using regexp_nested. intros cs H.
  destruct re; cbn [extractBinaryRequiredConstraint] in H; try done; try by apply IH.
  - by eapply literal_clauses.
  - destruct (_ =? _)%nat; [done|by apply IH].
  - destruct (foldl _ _ _) as [|c combined] eqn:E; simplify_eq. split; [done|]. rewrite <- E. apply combineAll_ok; [|constructor].
    apply Forall_fmap. eapply Forall_impl; [exact IH|]. done.
  - destruct (alternativeClauses _ _) as [[|c v]|] eqn:E; simplify_eq. apply dedupe_ok; [done|]. apply Forall_forall. intros x Hx.
    apply alternativeClauses_elem in E as (_ & _ & H3). destruct (H3 x Hx) as [?|(child & Hch & Hxc)]; [set_solver|].
    apply list_elem_of_fmap in Hch as (re & [= _ E] & Hre). rewrite Forall_forall in IH.
    destruct (IH re Hre child (eq_sym E)) as [_ Hok]. rewrite Forall_forall in Hok. auto.
Qed.

Lemma vals_wf (mid : steps) : Forall byteStep mid → wf_bytes mid.*1.
Proof. intros H. by apply Forall_fmap. Qed.

Lemma extract_sat re : ∀ pre (mid : steps) post cs,
  matches re pre mid post → Forall byteStep mid → extractBinaryRequiredConstraint re = Some cs → satOne mid.*1 cs.
Proof.
  induction re as [re IH] using regexp_nested. intros pre mid post cs H Hmid Hcs.
  destruct re; cbn [extractBinaryRequiredConstraint] in Hcs; try done.
  - inversion H; subst. by eapply literal_sat.
  - inversion H; subst. by eapply IH.
  - inversion H; subst. apply Forall_app in Hmid as [? _]. rewrite fmap_app. eapply satOne_mono; [|by eapply IH]. set_solver.
  - destruct (Nat.eqb_spec Min 0); [done|]. destruct (matches_repeat _ _ _ _ _ _ _ H) as (m1 & m2 & p & q & -> & Hm & _); [lia|].
    apply Forall_app in Hmid as [? _]. rewrite fmap_app. eapply satOne_mono; [|by eapply IH]. set_solver.
  - apply matches_concat in H as (mids & -> & Hm). pose proof (vals_wf _ Hmid) as Hw.
    destruct (foldl _ _ _) as [|c combined] eqn:E; simplify_eq. rewrite <- E. apply combineAll_sat; [done| |constructor|done|by rewrite E].
    apply Forall_fmap, Forall_forall. intros re Hre cs' Hcs'. cbn in Hcs'. split; [by eapply extract_clauses|].
    apply list_elem_of_lookup in Hre as [i Hi]. destruct (Forall2_lookup_l _ _ _ _ _ Hm Hi) as (m & Hmi & pre' & post' & Hre).
    rewrite Forall_lookup in IH. apply (satOne_mono m.*1).
    + intros x Hx. rewrite <- (take_drop_middle mids i m Hmi), concat_app. cbn [concat]. rewrite !fmap_app, !elem_of_app. auto.
    + eapply (IH i re Hi); [exact Hre| |done]. rewrite <- (take_drop_middle mids i m Hmi), concat_app in Hmid.
      apply Forall_app in Hmid as [_ Hmid]. cbn [concat] in Hmid. by apply Forall_app in Hmid as [? _].
  - inversion H as [| | | | | | | | | | | | | | | | | | | | |? re' ? ? ? ? Hin Hre]; subst.
    destruct (alternativeClauses _ _) as [[|c v]|] eqn:E; simplify_eq. apply alternativeClauses_elem in E as (_ & H2 & H3).
    rewrite Forall_forall in IH. apply dedupe_sat; [by apply vals_wf| |].
    + apply Forall_forall. intros x Hx. destruct (H3 x Hx) as [?|(child & Hch & Hxc)]; [set_solver|].
      apply list_elem_of_fmap in Hch as (re & [= _ E] & _). destruct (extract_clauses re child (eq_sym E)) as [_ Hc].
      rewrite Forall_forall in Hc. auto.
    + destruct (H2 (extractBinaryRequiredConstraint re')) as (child & Ec & Hsub).
      { apply list_elem_of_fmap. exists re'. split; [|done]. destruct re'; try done. inversion Hre. }
      apply (IH re' Hin _ _ _ _ Hre Hmid) in Ec. apply Exists_exists in Ec as (x & Hx & Hs). apply Exists_exists. eauto.
Qed.

(** ** The minimum length *)

Lemma totalBytes_nonneg ms : Forall (λ m, 0 <= m) ms → ∀ total, 0 <= total → 0 <= totalBytes ms total.
Proof.
  induction 1 as [|m ms Hm _ IH]; intros total Ht; cbn [totalBytes]; [done|]. destruct (_ >? _); [done|]. apply IH. lia.
Qed.

Lemma binaryMinimum_nonneg re : 0 <= binaryMinimumMatchBytes re.
Proof.
  induction re as [re IH] using regexp_nested. destruct re; cbn [binaryMinimumMatchBytes]; try lia.
  - destruct (_ =? _)%nat; [lia|]. cbv zeta. destruct (_ && _); lia.
  - apply totalBytes_nonneg; [|lia]. by apply Forall_fmap.
  - destruct Sub as [|re Sub]; [done|]. apply Forall_cons in IH as [H0 IH]. cbn [fmap list_fmap].
    generalize dependent (binaryMinimumMatchBytes re). induction IH as [|re' Sub Hre' _ IHs]; intros m Hm; [done|].
    cbn [fmap list_fmap foldl]. apply IHs. destruct (_ <? _); done.
Qed.

Lemma totalBytes_le sub (mids : list steps) : Forall2 (λ re mid, binaryMinimumMatchBytes re <= Z.of_nat (length mid)) sub mids →
  ∀ total, 0 <= total → totalBytes (binaryMinimumMatchBytes <$> sub) total <= total + Z.of_nat (length (concat mids)).
Proof.
  induction 1 as [|re mid sub mids Hm _ IH]; intros total Ht; cbn [totalBytes concat fmap list_fmap]; [cbn; lia|].
  rewrite length_app. destruct (_ >? _); [lia|]. pose proof (binaryMinimum_nonneg re).
  specialize (IH (total + binaryMinimumMatchBytes re)). lia.
Qed.

Lemma repeat_steps fl re m min : ∀ max pre (mid : steps) post,
  (∀ pre mid post, matches re pre mid post → m <= Z.of_nat (length mid)) →
  matches (OpRepeat fl min max re) pre mid post → Z.of_nat min * m <= Z.of_nat (length mid).
Proof.
  induction min as [|min IH]; intros max pre mid post Hre H; [lia|].
  destruct (matches_repeat _ _ _ _ _ _ _ H) as (mid1 & mid2 & pre' & post' & -> & H1 & pre2 & max2 & H2); [lia|].
  rewrite length_app. pose proof (Hre _ _ _ H1). rewrite Nat.sub_succ, Nat.sub_0_r in H2. specialize (IH _ _ _ _ Hre H2). lia.
Qed.

Lemma binaryMinimum_le re : ∀ pre (mid : steps) post, matches re pre mid post → binaryMinimumMatchBytes re <= Z.of_nat (length mid).
Proof.
  induction re as [re IH] using regexp_nested. intros pre mid post H. destruct re; cbn [binaryMinimumMatchBytes]; try lia.
  - inversion H as [|? ? ? ? ? Hm| | | | | | | | | | | | | | | | | | | |]; subst. apply Forall2_length in Hm. rewrite length_fmap in Hm. lia.
  - inversion H; subst. cbn. lia.
  - inversion H; subst. cbn. lia.
  - inversion H; subst. cbn. lia.
  - inversion H; subst. by eapply IH.
  - inversion H; subst. rewrite length_app. enough (binaryMinimumMatchBytes re <= Z.of_nat (length mid1)) by lia. by eapply IH.
  - destruct (Nat.eqb_spec Min 0); [lia|]. cbv zeta. destruct (_ && _); [lia|]. by eapply repeat_steps.
  - apply matches_concat in H as (mids & -> & Hm). apply (totalBytes_le _ mids); [|lia].
    revert IH. induction Hm as [|re m sub mids (pre' & post' & Hre) _ IHm]; [constructor|].
    intros [IHre IH]%Forall_cons. constructor; [by eapply IHre|by apply IHm].
  - inversion H as [| | | | | | | | | | | | | | | | | | | | |? re' ? ? ? ? Hin Hre]; subst. rewrite Forall_forall in IH.
    assert (binaryMinimumMatchBytes re' <= Z.of_nat (length mid)) as Hr by (eapply IH; eauto).
    destruct Sub as [|re0 Sub]; [by apply elem_of_nil in Hin|]. cbn [fmap list_fmap].
    destruct (foldl_min (binaryMinimumMatchBytes <$> Sub) (binaryMinimumMatchBytes re0)) as [Ha Hb]. cbv zeta in *.
    apply elem_of_cons in Hin as [->|Hin]; [lia|]. rewrite Forall_forall in Hb.
    specialize (Hb (binaryMinimumMatchBytes re') (list_elem_of_fmap_2 _ _ _ Hin)). lia.
Qed.

(** ** The filter *)

Lemma IndexByte_elem s c : match IndexByte s c with Some _ => true | None => false end = containsByte s c.
Proof.
  destruct (IndexByte s c) as [i|] eqn:E; symmetry.
  - apply IndexByte_Some in E as [Hi _]. apply containsByte_true. by eapply list_elem_of_lookup_2.
  - apply IndexByte_None in E. apply not_true_iff_false. rewrite containsByte_true. intros H. rewrite Forall_forall in E. by apply (E c).
Qed.

Lemma possibleDirect_sat f s : satOne s f.(clauses) → possibleDirect f s = true.
Proof.
  intros (c & Hc & Hs)%Exists_exists. apply existsb_exists. exists c. split; [by apply list_elem_of_In|].
  apply forallb_forall. intros x Hx. rewrite IndexByte_elem. apply containsByte_true, Hs. by apply list_elem_of_In.
Qed.

Lemma possibleFromPresence_sat f s :
  wf_bytes s → Forall clause_ok f.(clauses) → satOne s f.(clauses) → possibleFromPresence f (presentBits s) = true.
Proof.
  intros Hw Hok (c & Hc & Hs)%Exists_exists. rewrite Forall_forall in Hok. destruct (Hok c Hc) as [Eb Hcw].
  apply existsb_exists. exists c. split; [by apply list_elem_of_In|]. apply forallb_forall. intros [p q] Hpq.
  apply list_elem_of_In, list_elem_of_lookup in Hpq as [i Hi]. rewrite Eb in Hi.
  apply lookup_zip_with_Some in Hi as (? & ? & [= -> ->] & Hp & Hq). pose proof (lookup_lt_Some _ _ _ Hp) as Hi. rewrite presentBits_length in Hi.
  apply list_lookup_total_correct in Hp, Hq. subst. apply Z.eqb_eq, Z.bits_inj'. intros n Hn.
  rewrite Z.land_spec, !presentBits_word by done. destruct (n <? 64); [|done]. cbn [andb].
  destruct (containsByte (cl_bytes c) _) eqn:E; [|by rewrite andb_false_r]. apply containsByte_true, Hs, containsByte_true in E. by rewrite E.
Qed.

Lemma BinaryMatches_sat re f s : compileBinaryRequiredPrefilter (Some re) = Some f → wf_bytes s → BinaryMatches re s →
  f.(minimumBytes) <= Z.of_nat (length s) ∧ satOne s f.(clauses).
Proof.
  intros Hf Hw (pre & mid & post & E & Hm). pose proof (f_equal (fmap fst) E) as Ev. rewrite byteSteps_vals, !fmap_app in Ev.
  assert (Forall byteStep mid) as Hmid.
  { rewrite Ev in Hw. apply Forall_app in Hw as [_ [Hw _]%Forall_app]. apply (proj1 (Forall_fmap _ _ _)) in Hw. exact Hw. }
  cbn in Hf. destruct (extractBinaryRequiredConstraint re) as [[|c cs]|] eqn:Ec; [done| |done]. injection Hf as <-. cbn [minimumBytes clauses]. split.
  - pose proof (binaryMinimum_le re _ _ _ Hm). rewrite Ev, !length_app, !length_fmap. lia.
  - rewrite Ev. eapply satOne_mono; [|by eapply extract_sat]. set_solver.
Qed.

Lemma possible_ok re f tx value :
  compileBinaryRequiredPrefilter (Some re) = Some f → wf_bytes value.(go_val) → tx_ok tx → tx_live value tx →
  ∃ b tx', possible f tx value = Done (b, tx') ∧ tx_ok tx' ∧ (BinaryMatches re value.(go_val) → b = true).
Proof.
  intros Hf Hw Hok Hlive. assert (Forall clause_ok f.(clauses)) as Hc.
  { cbn in Hf. destruct (extractBinaryRequiredConstraint re) as [[|c cs]|] eqn:Ec; simplify_eq. by apply extract_clauses in Ec as [_ ?]. }
  pose proof (BinaryMatches_sat re f value.(go_val) Hf Hw) as Hm. unfold possible.
  destruct (Z.ltb_spec (Z.of_nat (length value.(go_val))) f.(minimumBytes)).
  { do 2 eexists. split; [done|]. split; [done|]. intros [? _]%Hm. lia. }
  unfold cacheFor. destruct (_ <? _)%nat; [|destruct tx as [cache|]].
  - do 2 eexists. split; [done|]. split; [done|]. intros [_ ?]%Hm. by apply possibleDirect_sat.
  - destruct (LoadBytePresence value cache) as [bits|] eqn:E.
    + apply LoadBytePresence_ok in E as ->; [|done|done]. do 2 eexists. split; [done|]. split; [done|].
      intros [_ ?]%Hm. by apply possibleFromPresence_sat.
    + destruct (possibleDirect f value.(go_val)) eqn:Ed; [do 2 eexists; by split|].
      destruct (StoreBytePresence_ok value cache Hok) as (cache' & -> & Hok'). cbn [mbind run_bind]. do 2 eexists. split; [done|].
      split; [done|]. intros [_ Hs]%Hm. apply possibleDirect_sat in Hs. congruence.
  - do 2 eexists. split; [done|]. split; [done|]. intros [_ ?]%Hm. by apply possibleDirect_sat.
Qed.

(** C35: The filter before an expression on bytes, which counts the bytes that a
    match has at least and looks for the rarest bytes of the literals, never
    rejects an input that the expression matches, and keeps the cached byte
    sets of the transaction those of their values. *)
Theorem binaryPrefilter_sound re f tx value :
  compileBinaryRequiredPrefilter (Some re) = Some f → wf_bytes value.(go_val) → tx_ok tx → tx_live value tx →
  ∃ b tx', possible f tx value = Done (b, tx') ∧ tx_ok tx' ∧ (BinaryMatches re value.(go_val) → b = true).
Proof.
  apply possible_ok.
Qed.
End soundness.

(** (?:\xff\x00|<?) *)
Definition exampleBinary : regexp := OpAlternate false [OpLiteral false [0xff; 0]; OpLiteral false [0x3c; 0x3f]].

Lemma binaryPrefilter_sound_witness :
  ∃ f, compileBinaryRequiredPrefilter (Some exampleBinary) = Some f ∧
  ∃ b tx', possible f (Some emptyPresence) (mkGo 64 (replicate 600 0x61)) = Done (b, tx') ∧ tx_ok tx' ∧
    (@BinaryMatches asciiFold exampleBinary (replicate 600 0x61) → b = true).
Proof.
  eexists. split; [reflexivity|].
  apply (@binaryPrefilter_sound asciiFold exampleBinary _ (Some emptyPresence) (mkGo 64 (replicate 600 0x61)) eq_refl).
  - by apply wf_bytesb_true.
  - apply emptyPresence_ok.
  - by repeat constructor.
Defined.
