(* ===== verification/BodyBuffer.v ===== *)
(** The body buffer: src/internal/corazawaf/body_buffer.go.

    A buffer keeps its contents in memory until the memory limit is passed and
    then moves them to a temporary file.  The file system is a parameter of a
    write: it says whether the temporary file can be created and how much of a
    write is stored when the write fails.  Readers are objects shared with the
    caller; they are numbered in the order in which they were created, and the
    buffer records the position of each and whether it is still attached. *)

From S2P Require Import Prelude GoLib.

Record BodyBufferOptions := mkOptions {
  TmpPath : bytes;
  MemoryLimit : Z;
  Limit : Z;
}.

(** An open file: its contents and its offset. *)
Record file := mkFile { f_data : bytes; f_off : nat }.

(** A [bodyBufferReader]; [r_open] is [b.br != nil]. *)
Record bodyBufferReader := mkReader { r_pos : nat; r_open : bool }.

Record BodyBuffer := mkBodyBuffer {
  options : BodyBufferOptions;
  buffer : bytes;
  writer : option file;
  bb_length : Z;
  readers : list bodyBufferReader;
}.
#[global] Instance BodyBuffer_eta : Eta BodyBuffer := λ x,
  mkBodyBuffer x.(options) x.(buffer) x.(writer) x.(bb_length) x.(readers).

(** What the file system does during one [Write]: whether [os.CreateTemp]
    succeeds, and for the dump of the buffer and for the data how many bytes
    are stored when the write fails. *)
Record fsResult := mkFs {
  createOK : bool;
  dumpFails : option nat;
  writeFails : option nat;
}.
Definition fsOK : fsResult := mkFs true None None.

Inductive bbError := ErrLimit | ErrMemoryLimit | ErrFS | ErrEOF.

Definition fileStore (f : file) (data : bytes) : file :=
  mkFile (take f.(f_off) f.(f_data) ++ data ++ drop (f.(f_off) + length data) f.(f_data))
         (f.(f_off) + length data).

(** [os.File.Write]: the number of bytes written and an error. *)
Definition fileWrite (f : file) (data : bytes) (fails : option nat) : file * Z * option bbError :=
  match fails with
  | None => (fileStore f data, Z.of_nat (length data), None)
  | Some n => (fileStore f (take n data), Z.of_nat (length (take n data)), Some ErrFS)
  end.

(** [os.File.Read] into [n] bytes. *)
Definition fileRead (f : file) (n : nat) : file * bytes * option bbError :=
  let got := take n (drop f.(f_off) f.(f_data)) in
  if (length got =? 0)%nat && negb (n =? 0)%nat then (f, [], Some ErrEOF)
  else (mkFile f.(f_data) (f.(f_off) + length got), got, None).

Section bodybuffer.
(** [environment.HasAccessToFS], a build constant. *)
Context (HasAccessToFS : bool).

Definition NewBodyBuffer (o : BodyBufferOptions) : BodyBuffer := mkBodyBuffer o [] None 0 [].

Definition Write (fs : fsResult) (br : BodyBuffer) (data : bytes) : BodyBuffer * Z * option bbError :=
  let len := Z.of_nat (length data) in
  if len =? 0 then (br, 0, None) else
  if br.(bb_length) >? i64 (br.(options).(Limit) - len) then (br, 0, Some ErrLimit) else
  let targetLen := i64 (br.(bb_length) + len) in
  if targetLen >? br.(options).(MemoryLimit) then
    if negb HasAccessToFS then (br, 0, Some ErrMemoryLimit) else
    let toFile (br : BodyBuffer) (f : file) :=
      let br := br <| bb_length := targetLen |> in
      let '(f, n, err) := fileWrite f data fs.(writeFails) in
      (br <| writer := Some f |>, n, err) in
    match br.(writer) with
    | None =>
        if negb fs.(createOK) then (br, 0, Some ErrFS) else
        let '(f, _, err) := fileWrite (mkFile [] 0) br.(buffer) fs.(dumpFails) in
        match err with
        | Some e => (br <| writer := Some f |>, 0, Some e)
        | None => toFile (br <| buffer := [] |>) f
        end
    | Some f => toFile br f
    end
  else (br <| bb_length := targetLen |> <| buffer ::= (λ b, b ++ data) |>, len, None).

(** The bytes handed to the writer, and the error. *)
Definition WriteTo (br : BodyBuffer) : BodyBuffer * bytes * option bbError :=
  match br.(writer) with
  | None => (br <| buffer := [] |>, br.(buffer), None)
  | Some f =>
      let '(f, got, err) := fileRead f (Z.to_nat br.(bb_length)) in
      (br <| writer := Some f |>, got, err)
  end.

(** [Reader] returns the number of the new reader. *)
Definition Reader (br : BodyBuffer) : BodyBuffer * nat :=
  (br <| readers ::= (λ rs, rs ++ [mkReader 0 true]) |>, length br.(readers)).

Definition Size (br : BodyBuffer) : Z := br.(bb_length).

(** [r.Read(p)] with [len(p) = n]: the bytes read and whether EOF is
    returned with them. *)
Definition readAt (br : BodyBuffer) (pos n : nat) : run (bytes * bool) :=
  if negb HasAccessToFS || bool_decide (br.(writer) = None) then
    let buf := br.(buffer) in
    let k := if (length buf <? pos + n)%nat then Z.of_nat (length buf) - Z.of_nat pos else Z.of_nat n in
    if k =? 0 then Done ([], true)
    else if k <? 0 then Panic
    else got ← slice buf pos (pos + Z.to_nat k); Done (take n got, false)
  else
    let data := match br.(writer) with Some f => f.(f_data) | None => [] end in
    let got := take n (drop pos data) in
    Done (got, (length got <? n)%nat).

Definition Read (br : BodyBuffer) (id : nat) (n : nat) : run (BodyBuffer * bytes * bool) :=
  r ← index br.(readers) id;
  if negb r.(r_open) then Done (br, [], true) else
  '(got, eof) ← readAt br r.(r_pos) n;
  Done (br <| readers ::= <[id := mkReader (r.(r_pos) + length got) true]> |>, got, eof).

(** Closing and removing the file only fail in the file system; the state
    after [Reset] is the same. *)
Definition Reset (br : BodyBuffer) : BodyBuffer :=
  let br := br <| buffer := [] |> <| bb_length := 0 |>
               <| readers ::= fmap (λ _, mkReader 0 false) |> in
  if HasAccessToFS then br <| writer := None |> else br.

(** A caller that reads with chunks of [n] bytes until EOF. *)
Fixpoint readAll (fuel : nat) (br : BodyBuffer) (id n : nat) : run (BodyBuffer * bytes) :=
  match fuel with
  | O => OutOfFuel
  | S fuel =>
      '(br, got, eof) ← Read br id n;
      if (eof : bool) then Done (br, got)
      else '(br, rest) ← readAll fuel br id n; Done (br, got ++ rest)
  end.
End bodybuffer.

(** ** Contents and invariant *)

Definition contents (br : BodyBuffer) : bytes :=
  match br.(writer) with None => br.(buffer) | Some f => f.(f_data) end.

(** Once a file is used the memory limit is passed, the memory buffer is empty
    and the file offset is at the end. *)
Definition file_ok (br : BodyBuffer) : Prop :=
  match br.(writer) with
  | Some f => br.(buffer) = [] ∧ f.(f_off) = length f.(f_data) ∧
              br.(options).(MemoryLimit) < br.(bb_length)
  | None => True
  end.

(** The length is the number of bytes kept and respects the limit; readers are
    inside the contents. *)
Record wf_buffer (br : BodyBuffer) : Prop := {
  wf_length : br.(bb_length) = Z.of_nat (length (contents br));
  wf_limit : br.(bb_length) <= br.(options).(Limit) <= maxInt64;
  wf_file : file_ok br;
  wf_readers : Forall (λ r, (r.(r_pos) ≤ length (contents br))%nat) br.(readers);
}.

Lemma wf_NewBodyBuffer o : 0 <= o.(Limit) <= maxInt64 → wf_buffer (NewBodyBuffer o).
Proof. intros H. split; [done|done|done|constructor]. Qed.

Lemma fileStore_end f data :
  f.(f_off) = length f.(f_data) →
  fileStore f data = mkFile (f.(f_data) ++ data) (length (f.(f_data) ++ data)).
Proof.
  intros H. unfold fileStore. by rewrite H, take_ge, drop_ge, app_nil_r, length_app by lia.
Qed.

(** [br'] is [br] grown by [data]. *)
Record grown (br br' : BodyBuffer) (data : bytes) : Prop := {
  gr_contents : contents br' = contents br ++ data;
  gr_options : br'.(options) = br.(options);
  gr_length : br'.(bb_length) = br.(bb_length) + Z.of_nat (length data);
  gr_readers : br'.(readers) = br.(readers);
  gr_file : file_ok br';
}.

Section spec.
Context (fs : bool).
Implicit Types br : BodyBuffer.

Lemma wf_grown br br' data :
  wf_buffer br → grown br br' data →
  br.(bb_length) + Z.of_nat (length data) <= br.(options).(Limit) → wf_buffer br'.
Proof.
  intros [Hl Hlim Hf Hr] [Hc Ho Hlen Hrs Hf'] Hle. split.
  - rewrite Hlen, Hc, length_app, Hl. lia.
  - rewrite Hlen, Ho. lia.
  - done.
  - rewrite Hrs, Hc. eapply Forall_impl; [exact Hr|]. intros r. rewrite length_app. simpl. lia.
Qed.

Lemma Write_grows br data :
  wf_buffer br → fs = true ∨ br.(options).(Limit) <= br.(options).(MemoryLimit) →
  br.(bb_length) + Z.of_nat (length data) <= br.(options).(Limit) →
  ∃ br', Write fs fsOK br data = (br', Z.of_nat (length data), None) ∧ grown br br' data.
Proof.
  intros Hwf Hfs Hle. pose proof Hwf as [Hl Hlim Hf Hr]. unfold Write.
  destruct (Z.of_nat (length data) =? 0) eqn:E0.
  { destruct data; [|simpl in E0; lia]. exists br. split; [done|].
    split; [by rewrite app_nil_r|done|simpl; lia|done|done]. }
  rewrite !i64_id by (unfold in_i64, maxInt64 in *; lia).
  assert ((br.(bb_length) >? br.(options).(Limit) - Z.of_nat (length data)) = false) as -> by lia.
  destruct br as [o buf w len rs]. unfold file_ok in Hf. cbn in *.
  destruct (len + Z.of_nat (length data) >? o.(MemoryLimit)) eqn:Em.
  - assert (fs = true) as -> by (destruct Hfs; [done|lia]). cbn [negb].
    destruct w as [f|]; cbn.
    + destruct Hf as (Hb & Ho & Hm). eexists. split; [done|]. cbn. rewrite fileStore_end by done.
      split; try done. split; [done|]. cbn. split; [done|]. lia.
    + rewrite (fileStore_end (mkFile [] 0)) by done. cbn.
      eexists. split; [done|]. cbn. rewrite fileStore_end by done.
      split; try done. split; [done|]. cbn. split; [done|]. lia.
  - eexists. split; [done|]. destruct w as [f|]; [lia|]. by split.
Qed.

Lemma Write_rejects br data :
  wf_buffer br → 0 <= br.(bb_length) → Z.of_nat (length data) <= maxInt64 →
  br.(options).(Limit) < br.(bb_length) + Z.of_nat (length data) → data ≠ [] →
  ∀ io, Write fs io br data = (br, 0, Some ErrLimit).
Proof.
  intros [Hl Hlim Hf Hr] H0 Hd Hgt Hne io. unfold Write.
  destruct data as [|x data]; [done|]. cbn [length] in *.
  assert ((Z.of_nat (S (length data)) =? 0) = false) as -> by lia.
  rewrite i64_id by (unfold in_i64, maxInt64 in *; lia).
  by assert ((br.(bb_length) >? br.(options).(Limit) - Z.of_nat (S (length data))) = true) as -> by lia.
Qed.

(** One read of at least one byte: it returns the next bytes, and EOF only
    with the last ones. *)
Lemma Read_spec br id pos n :
  (pos ≤ length (contents br))%nat → fs = true ∨ br.(writer) = None → br.(readers) !! id = Some (mkReader pos true) →
  (0 < n)%nat →
  ∃ eof, Read fs br id n =
    Done (br <| readers ::= <[id := mkReader (pos + length (take n (drop pos (contents br)))) true]> |>,
          take n (drop pos (contents br)), eof) ∧
    (eof = true → drop (pos + n) (contents br) = []) ∧
    (eof = false → take n (drop pos (contents br)) ≠ []).
Proof.
  intros Hr Hfs Hid Hn. unfold Read. rewrite (index_Some _ _ _ Hid). run_simpl. cbn [r_open r_pos negb].
  assert (∃ eof, readAt fs br pos n = Done (take n (drop pos (contents br)), eof) ∧
    (eof = true → drop (pos + n) (contents br) = []) ∧
    (eof = false → take n (drop pos (contents br)) ≠ [])) as (eof & -> & He).
  2:{ exists eof. by split. }
  unfold readAt, contents in *. destruct (writer br) as [f|] eqn:Ew.
  - destruct Hfs as [->|?]; [|done]. cbn [negb orb]. rewrite bool_decide_eq_false_2 by done.
    eexists. split; [done|]. rewrite length_take, length_drop. split.
    + intros. apply drop_ge. lia.
    + intros ? E%(f_equal length). rewrite length_take, length_drop in E. simpl in E. lia.
  - rewrite bool_decide_eq_true_2, orb_true_r by done.
    destruct (length br.(buffer) <? pos + n)%nat eqn:E1.
    + destruct (Z.of_nat (length (buffer br)) - Z.of_nat pos =? 0) eqn:E2.
      * exists true. rewrite (drop_ge _ pos), take_nil by lia. split; [done|].
        split; [|done]. intros. apply drop_ge. lia.
      * assert ((Z.of_nat (length br.(buffer)) - Z.of_nat pos <? 0) = false) as -> by lia.
        rewrite slice_ok by lia. run_simpl. eexists. split.
        { do 2 f_equal. rewrite (take_ge (drop pos _)) by (rewrite length_drop; lia). done. }
        split; [done|]. intros _ E%(f_equal length). rewrite length_take, length_drop in E. simpl in E. lia.
    + assert ((Z.of_nat n =? 0) = false) as -> by lia.
      assert ((Z.of_nat n <? 0) = false) as -> by lia.
      rewrite slice_ok by lia. run_simpl. eexists. split.
      { do 2 f_equal. rewrite take_ge by (rewrite length_take, length_drop; lia). f_equal. lia. }
      split; [done|]. intros _ E%(f_equal length). rewrite length_take, length_drop in E. simpl in E. lia.
Qed.

Lemma wf_advance br id r :
  wf_buffer br → (r.(r_pos) ≤ length (contents br))%nat →
  wf_buffer (br <| readers ::= <[id := r]> |>).
Proof.
  intros [Hl Hlim Hf Hr] Hp. split; [done..|]. cbn.
  change (contents (setf readers _ br)) with (contents br). by apply Forall_insert.
Qed.
End spec.

(** ** Invariants of the buffer

    What the operations of a transaction need of an invariant of its buffers:
    [allowed] says what the file system may do during a write. *)
Class BufferInvariant (B : BodyBuffer → Prop) (allowed : fsResult → Prop) : Prop := {
  bi_length br : B br → Z.of_nat (length (contents br)) <= br.(bb_length);
  bi_limit br : B br → br.(bb_length) <= br.(options).(Limit) <= maxInt64;
  bi_reader br : B br → B (br <| readers ::= (λ rs, rs ++ [mkReader 0 true]) |>);
  bi_advance br id r : B br → (r.(r_pos) ≤ length (contents br))%nat → B (br <| readers ::= <[id := r]> |>);
  bi_write io br data : B br → allowed io → Z.of_nat (length data) <= maxInt64 →
    ∃ br' w err, Write true io br data = (br', w, err) ∧ B br' ∧ br'.(options) = br.(options);
}.
#[global] Hint Mode BufferInvariant ! - : typeclass_instances.

Lemma readAll_spec `{!BufferInvariant B allowed} fs n fuel : ∀ br id pos,
  B br → fs = true ∨ br.(writer) = None → br.(readers) !! id = Some (mkReader pos true) →
  (pos ≤ length (contents br))%nat → (0 < n)%nat → (length (contents br) - pos < fuel)%nat →
  ∃ br', readAll fs fuel br id n = Done (br', drop pos (contents br)) ∧ contents br' = contents br ∧
    B br' ∧ br'.(options) = br.(options) ∧ br'.(bb_length) = br.(bb_length).
Proof.
  induction fuel as [|fuel IH]; intros br id pos HB Hfs Hid Hpos Hn Hfuel; [lia|].
  destruct (Read_spec fs br id pos n Hpos Hfs Hid Hn) as (eof & Hread & He & Hne).
  cbn [readAll]. rewrite Hread. run_simpl. clear Hread.
  set (got := take n (drop pos (contents br))) in *.
  assert (Hgot : length got = (n `min` (length (contents br) - pos))%nat)
    by (unfold got; rewrite length_take, length_drop; lia).
  destruct eof.
  - assert (got = drop pos (contents br)) as ->.
    2: { eexists. split; [reflexivity|]. split; [done|]. split; [|done]. apply bi_advance; [done|].
         cbn. rewrite length_drop. lia. }
    specialize (He eq_refl). apply (f_equal length) in He. rewrite length_drop in He. simpl in He.
    apply take_ge. rewrite length_drop. lia.
  - specialize (Hne eq_refl). assert (length got ≠ 0)%nat by (by destruct got).
    set (br1 := br <| readers ::= _ |>). assert (contents br1 = contents br) as Hc by done.
    destruct (IH br1 id (pos + length got)%nat) as (br' & -> & Hc' & HB' & Hrest).
    + apply bi_advance; [done|]. simpl. lia.
    + done.
    + cbn. apply list_lookup_insert_eq. by eapply lookup_lt_Some.
    + rewrite Hc. lia.
    + done.
    + rewrite Hc. lia.
    + run_simpl. exists br'. rewrite Hc', Hc. split; [|by destruct Hrest]. do 2 f_equal.
      rewrite <- drop_drop. unfold got at 1. rewrite <- (take_drop n (drop pos (contents br))) at 3.
      f_equal. rewrite Hgot. destruct (decide (n ≤ length (contents br) - pos)%nat).
      * f_equal. lia.
      * rewrite !drop_ge by (rewrite length_drop; lia). done.
Qed.

(** With a file system that does not fail a write appends its data or changes
    nothing. *)
Lemma Write_wf br data :
  wf_buffer br → Z.of_nat (length data) <= maxInt64 →
  ∃ br' w err, Write true fsOK br data = (br', w, err) ∧ wf_buffer br' ∧ br'.(options) = br.(options) ∧
    if err then br' = br else contents br' = contents br ++ data ∧ w = Z.of_nat (length data).
Proof.
  intros Hwf Hd. pose proof (wf_length _ Hwf) as Hl.
  destruct (Z.le_gt_cases (br.(bb_length) + Z.of_nat (length data)) br.(options).(Limit)) as [Hle|Hgt].
  - destruct (Write_grows true br data Hwf ltac:(by left) Hle) as (br' & Hw & Hg).
    exists br', (Z.of_nat (length data)), None. split; [done|]. split; [by eapply wf_grown|].
    split; [apply Hg|]. split; [apply Hg|done].
  - destruct (decide (data = [])) as [->|Hne].
    + exists br, 0, None. split; [done|]. split; [done|]. split; [done|]. by rewrite app_nil_r.
    + exists br, 0, (Some ErrLimit). split; [|done]. apply Write_rejects; [done|lia|done|lia|done].
Qed.

#[global] Instance wf_invariant : BufferInvariant wf_buffer (eq fsOK).
Proof.
  split.
  - intros br Hwf. rewrite (wf_length _ Hwf). lia.
  - apply wf_limit.
  - intros br [Hl Hlim Hf Hr]. split; [done..|]. cbn. apply Forall_app. split; [done|]. constructor; [cbn; lia|constructor].
  - intros br id r. apply wf_advance.
  - intros io br data Hwf <- Hd. destruct (Write_wf br data Hwf Hd) as (br' & w & err & ? & ? & ? & _). by exists br', w, err.
Qed.

(** With a file system that may fail at any write: a write that fails can leave
    fewer bytes than the length counts, and a buffer whose dump failed keeps its
    memory beside the file. *)
Record sane_buffer (br : BodyBuffer) : Prop := {
  sn_length : Z.of_nat (length (contents br)) <= br.(bb_length);
  sn_limit : br.(bb_length) <= br.(options).(Limit) <= maxInt64;
  sn_writer : match br.(writer) with
    | None => br.(bb_length) = Z.of_nat (length br.(buffer)) ∧
              Forall (λ r, (r.(r_pos) ≤ length br.(buffer))%nat) br.(readers)
    | Some f => f.(f_off) = length f.(f_data) ∧ Z.of_nat (length br.(buffer)) <= br.(bb_length)
    end;
}.

Lemma wf_sane br : wf_buffer br → sane_buffer br.
Proof.
  intros [Hl Hlim Hf Hr]. split; [lia|done|]. unfold file_ok, contents in *. destruct (writer br) as [f|]; [|done].
  destruct Hf as (-> & Ho & _). split; [done|]. cbn. lia.
Qed.

(** A write at the end of a file, whatever is stored of it. *)
Lemma fileWrite_end f data fails : f.(f_off) = length f.(f_data) →
  let f' := (fileWrite f data fails).1.1 in
  f'.(f_off) = length f'.(f_data) ∧ (length f'.(f_data) ≤ length f.(f_data) + length data)%nat ∧
  (length f.(f_data) ≤ length f'.(f_data))%nat.
Proof.
  intros Ho. unfold fileWrite. destruct fails as [n|]; cbn [fst]; rewrite fileStore_end by done; cbn [f_off f_data];
    rewrite length_app; rewrite ?length_take; lia.
Qed.

Lemma Write_sane io br data :
  sane_buffer br → Z.of_nat (length data) <= maxInt64 →
  sane_buffer (Write true io br data).1.1 ∧ (Write true io br data).1.1.(options) = br.(options).
Proof.
  intros Hs Hd. unfold Write. destruct (_ =? 0); [done|]. pose proof Hs as [Hl Hlim Hw].
  assert (0 <= br.(bb_length)) as H0 by lia. rewrite i64_id by (unfold in_i64, maxInt64 in *; lia).
  destruct (Z.gtb_spec (bb_length br) (Limit (options br) - Z.of_nat (length data))) as [|Hle]; [done|].
  rewrite i64_id by (unfold in_i64, maxInt64 in *; lia). cbn [negb].
  destruct br as [o buf [f|] len rs]; unfold contents in *; cbn in Hl, Hlim, Hw, Hle, H0 |- *.
  - destruct Hw as [Ho Hb]. destruct (_ >? _).
    + destruct (fileWrite_end f data io.(writeFails) Ho) as (E1 & E2 & _). destruct (fileWrite _ _ _) as [[f' n] e].
      cbn in *. split; [|done]. split; cbn; [lia..|]. split; [done|lia].
    + split; [|done]. split; cbn; [lia..|]. split; [done|]. rewrite length_app. lia.
  - destruct Hw as [-> Hr]. destruct (_ >? _).
    + destruct io.(createOK); [|done]. cbn [negb].
      destruct (fileWrite_end (mkFile [] 0) buf io.(dumpFails) eq_refl) as (E1 & E2 & _).
      destruct (fileWrite _ buf _) as [[f' n] [e|]]; cbn in *.
      * split; [|done]. split; cbn; [lia..|]. split; [done|lia].
      * destruct (fileWrite_end f' data io.(writeFails) E1) as (E3 & E4 & _). destruct (fileWrite f' data _) as [[f'' n'] e].
        cbn in *. split; [|done]. split; cbn; [lia..|]. split; [done|lia].
    + split; [|done]. split; cbn; rewrite ?length_app; [lia..|]. split; [lia|].
      eapply Forall_impl; [exact Hr|]. intros r. cbn. lia.
Qed.

#[global] Instance sane_invariant : BufferInvariant sane_buffer (λ _, True).
Proof.
  split.
  - apply sn_length.
  - apply sn_limit.
  - intros br [Hl Hlim Hw]. split; [done..|]. cbn. destruct (writer br); [done|]. destruct Hw as [? Hr]. split; [done|].
    apply Forall_app. split; [done|]. constructor; [cbn; lia|constructor].
  - intros br id r [Hl Hlim Hw] Hp. split; [done..|]. cbn. unfold contents in *. destruct (writer br); [done|].
    destruct Hw as [? Hr]. split; [done|]. by apply Forall_insert.
  - intros io br data Hs _ Hd. destruct (Write_sane io br data Hs Hd) as [H1 H2].
    destruct (Write true io br data) as [[br' w] err]. by exists br', w, err.
Qed.

(** A write that fits in the limit appends its data and reports its full
    length, whether the contents stay in memory or move to a file, and keeps
    the buffer well formed; a write that does not fit is refused and changes
    nothing. *)
Theorem Write_spec (fs : bool) (br : BodyBuffer) (data : bytes) :
  wf_buffer br → fs = true ∨ br.(options).(Limit) <= br.(options).(MemoryLimit) →
  Z.of_nat (length data) <= maxInt64 →
  (br.(bb_length) + Z.of_nat (length data) <= br.(options).(Limit) →
   ∃ br', Write fs fsOK br data = (br', Z.of_nat (length data), None) ∧
     contents br' = contents br ++ data ∧ wf_buffer br') ∧
  (br.(options).(Limit) < br.(bb_length) + Z.of_nat (length data) → data ≠ [] →
   ∀ io, Write fs io br data = (br, 0, Some ErrLimit)).
Proof.
  intros Hwf Hfs Hd. split.
  - intros Hle. destruct (Write_grows fs br data Hwf Hfs Hle) as (br' & Hw & Hg).
    exists br'. split; [done|]. split; [apply Hg|by eapply wf_grown].
  - apply Write_rejects; [done| |done]. rewrite (wf_length _ Hwf). lia.
Qed.

(** When the dump of the memory fails after [n] bytes, the error is reported, but
    the file is kept: the same write, done again, succeeds, and what is read back
    misses the bytes of the dump that were not stored, though the length counts
    them. *)
Theorem Write_dump_fails (br : BodyBuffer) (data : bytes) (n : nat) :
  wf_buffer br → br.(writer) = None → data ≠ [] →
  br.(options).(MemoryLimit) < br.(bb_length) + Z.of_nat (length data) <= br.(options).(Limit) →
  ∃ br', Write true (mkFs true (Some n) None) br data = (br', 0, Some ErrFS) ∧
    Size br' = Size br ∧ contents br' = take n (contents br) ∧
    ∃ br'', Write true fsOK br' data = (br'', Z.of_nat (length data), None) ∧
      Size br'' = Size br + Z.of_nat (length data) ∧ contents br'' = take n (contents br) ++ data.
Proof.
  intros [Hl Hlim Hf Hr] Hw Hne [Hm Hle]. assert (0 <= br.(bb_length)) by lia.
  assert (Z.of_nat (length data) =? 0 = false) as E0 by (destruct data; [done|cbn; lia]).
  eexists. split; [|split; [|split]]; [unfold Write..|].
  - rewrite E0, !i64_id, Hw by (unfold in_i64, maxInt64 in *; lia).
    replace (_ >? _) with false by lia. by replace (_ >? _) with true by lia.
  - done.
  - unfold contents. cbn. by rewrite Hw, drop_nil, app_nil_r.
  - eexists. split; [|split].
    + unfold Write. cbn. rewrite E0, !i64_id by (unfold in_i64, maxInt64 in *; lia).
      replace (_ >? _) with false by lia. replace (_ >? _) with true by lia. reflexivity.
    + done.
    + unfold contents. cbn. rewrite Hw, drop_nil, app_nil_r, take_ge, drop_ge by lia. by rewrite app_nil_r.
Qed.

(** A buffer of at most ten bytes, four of them in memory. *)
Definition smallBuffer : BodyBuffer := NewBodyBuffer (mkOptions [] 4 10).

Lemma Write_spec_witness :
  ∃ br', Write true fsOK smallBuffer (str "hello") = (br', 5, None) ∧
    contents br' = str "hello" ∧ wf_buffer br'.
Proof.
  apply (Write_spec true smallBuffer (str "hello")); [|by left|by vm_compute|by vm_compute].
  apply wf_NewBodyBuffer. by vm_compute.
Defined.

(** Writing several chunks, one after the other. *)
Fixpoint writeChunks (fs : bool) (br : BodyBuffer) (chunks : list bytes) : option BodyBuffer :=
  match chunks with
  | [] => Some br
  | data :: chunks =>
      match Write fs fsOK br data with
      | (br, n, None) => if n =? Z.of_nat (length data) then writeChunks fs br chunks else None
      | _ => None
      end
  end.

(** A body that is written in any chunks whose total is within the limit is
    read back unchanged: a reader, with any positive buffer size, returns the
    concatenation of the chunks and then EOF, for every memory limit. *)
Theorem Write_Read_roundtrip (o : BodyBufferOptions) (chunks : list bytes) (n : nat) :
  0 <= o.(Limit) <= maxInt64 → Z.of_nat (length (concat chunks)) <= o.(Limit) → (0 < n)%nat →
  ∃ br, writeChunks true (NewBodyBuffer o) chunks = Some br ∧ br.(bb_length) = Z.of_nat (length (concat chunks)) ∧
    let '(br, id) := Reader br in
    ∃ br', readAll true (S (length (concat chunks))) br id n = Done (br', concat chunks).
Proof.
  intros Ho Hlen Hn.
  assert (Hw : ∀ cs br, wf_buffer br → br.(bb_length) + Z.of_nat (length (concat cs)) <= br.(options).(Limit) →
    ∃ br', writeChunks true br cs = Some br' ∧ wf_buffer br' ∧ contents br' = contents br ++ concat cs).
  { induction cs as [|d cs IH]; intros br Hwf Hle; simpl.
    - exists br. by rewrite app_nil_r.
    - simpl in Hle. rewrite length_app in Hle.
      destruct (Write_grows true br d Hwf) as (br1 & -> & Hg); [by left|lia|].
      rewrite Z.eqb_refl. destruct (IH br1) as (br' & Hw & Hwf' & Hc).
      + eapply wf_grown; [done..|lia].
      + rewrite (gr_length _ _ _ Hg), (gr_options _ _ _ Hg). lia.
      + exists br'. by rewrite Hc, (gr_contents _ _ _ Hg), <- app_assoc. }
  destruct (Hw chunks (NewBodyBuffer o)) as (br & Hwr & Hwf & Hc); [by apply wf_NewBodyBuffer|simpl; lia|].
  change (contents (NewBodyBuffer o)) with (@nil Z) in Hc. rewrite app_nil_l in Hc.
  exists br. split; [done|]. split; [by rewrite (wf_length _ Hwf), Hc|]. cbn.
  set (br1 := br <| readers ::= _ |>).
  destruct (readAll_spec (B := wf_buffer) true n (S (length (concat chunks))) br1 (length br.(readers)) 0) as (br' & Hr & _).
  - by apply bi_reader.
  - by left.
  - cbn. by rewrite lookup_app_r, Nat.sub_diag by lia.
  - lia.
  - done.
  - change (contents br1) with (contents br). rewrite Hc. lia.
  - exists br'. change (contents br1) with (contents br) in Hr. by rewrite Hc, drop_0 in Hr.
Qed.

Lemma Write_Read_roundtrip_witness :
  ∃ br, writeChunks true smallBuffer [str "ab"; str "cdef"; str "g"] = Some br ∧
    br.(bb_length) = 7 ∧
    let '(br, id) := Reader br in
    ∃ br', readAll true 8 br id 3 = Done (br', str "abcdefg").
Proof.
  apply (Write_Read_roundtrip (mkOptions [] 4 10) [str "ab"; str "cdef"; str "g"] 3);
    [by vm_compute|by vm_compute|lia].
Defined.

(** A write keeps the readers. *)
Lemma Write_readers fs io br data : (Write fs io br data).1.1.(readers) = br.(readers).
Proof.
  unfold Write, fileWrite. destruct (_ =? 0); [done|]. destruct (_ >? i64 _); [done|].
  destruct (_ >? _); [|done]. destruct fs; [|done]. cbn [negb].
  destruct br.(writer); [by destruct io.(writeFails)|].
  destruct io.(createOK); [|done]. cbn [negb].
  destruct io.(dumpFails); [done|]. by destruct io.(writeFails).
Qed.

(** After [Reset] the buffer is that of a new one, its temporary file is
    gone, and every reader that was handed out before returns EOF for ever,
    also after new data is written: a connector that kept a reader cannot see
    the body of the next transaction. *)
Theorem Reset_detaches (br : BodyBuffer) (data : bytes) (io : fsResult) (id n : nat) :
  let br0 := Reset true br in
  (br0 <| readers := [] |> = NewBodyBuffer br.(options)) ∧
  let br1 := (Write true io br0 data).1.1 in
  Read true br1 id n = if decide (id < length br.(readers))%nat then Done (br1, [], true) else Panic.
Proof.
  split; [by destruct br|]. unfold Read. rewrite Write_readers. cbn. unfold index.
  rewrite list_lookup_fmap. case_decide as Hid.
  - destruct (lookup_lt_is_Some_2 _ _ Hid) as [r ->]. done.
  - by rewrite lookup_ge_None_2 by lia.
Qed.

(** [WriteTo] on a buffer that has moved to a file returns EOF and hands
    over nothing: it reads at the offset where the last write ended. *)
Theorem WriteTo_spilled_is_empty (br : BodyBuffer) (f : file) :
  wf_buffer br → br.(writer) = Some f → 0 < br.(bb_length) →
  WriteTo br = (br, [], Some ErrEOF).
Proof.
  intros Hwf Hw H0. pose proof (wf_file _ Hwf) as Hf. unfold file_ok in Hf. rewrite Hw in Hf.
  destruct Hf as (Hb & Ho & _). unfold WriteTo, fileRead. rewrite Hw, Ho, drop_ge, take_nil by lia.
  assert ((Z.to_nat br.(bb_length) =? 0)%nat = false) as -> by lia.
  destruct br as [o b w l rs]. simpl in *. by subst.
Qed.

Lemma WriteTo_spilled_is_empty_witness :
  let br := (Write true fsOK smallBuffer (str "hello")).1.1 in
  WriteTo br = (br, [], Some ErrEOF).
Proof.
  apply (WriteTo_spilled_is_empty _ (mkFile (str "hello") 5)); [|by vm_compute..].
  destruct (Write_grows true smallBuffer (str "hello")) as (br' & Hw & Hg);
    [apply wf_NewBodyBuffer; by vm_compute|by left|by vm_compute|].
  rewrite Hw. eapply wf_grown; [apply (wf_NewBodyBuffer (mkOptions [] 4 10))|exact Hg|]; by vm_compute.
Defined.
