(* ===== verification/TransactionState.v ===== *)
(** The state of a transaction and what reads it:
    src/internal/corazawaf/transaction.go (the [Transaction] and
    [TransactionVariables] structs, [Collection], [All], [reset], [GetField],
    [getFieldMatches] and the setters that do not evaluate rules),
    src/internal/corazarules (rule.go, rule_match.go) and the variable
    selectors of src/internal/corazawaf/rule.go.

    The fields of [TransactionVariables] are indexed by the variable they are
    created for; the views over them (names, concatenations, sizes) are
    computed from the maps they refer to, as the Go pointers do. *)

From S2P Require Import Prelude GoLib StringUtil UrlTransform Variables Types Collections Matchers.
From S2P Require Import TransactionCaches BodyBuffer.

(** ** Rule metadata and matched rules *)

Record RuleMetadata := mkRuleMetadata {
  ID_ : Z;
  LogID_ : bytes;
  File_ : bytes;
  Line_ : Z;
  Rev_ : bytes;
  Severity_ : Z;
  Version_ : bytes;
  Tags_ : list bytes;
  Maturity_ : Z;
  Accuracy_ : Z;
  Operator_ : bytes;
  Phase_ : Z;
  Raw_ : bytes;
  SecMark_ : bytes;
  ParentID_ : Z;
}.
#[global] Instance RuleMetadata_eta : Eta RuleMetadata := λ x,
  mkRuleMetadata x.(ID_) x.(LogID_) x.(File_) x.(Line_) x.(Rev_) x.(Severity_) x.(Version_) x.(Tags_)
    x.(Maturity_) x.(Accuracy_) x.(Operator_) x.(Phase_) x.(Raw_) x.(SecMark_) x.(ParentID_).

Inductive DisruptiveAction :=
| DisruptiveActionUnknown | DisruptiveActionAllow | DisruptiveActionDeny
| DisruptiveActionDrop | DisruptiveActionPass | DisruptiveActionRedirect.

(** A missing name gives the zero value. *)
Definition DisruptiveActionMap (name : bytes) : DisruptiveAction :=
  if name =s str "allow" then DisruptiveActionAllow
  else if name =s str "deny" then DisruptiveActionDeny
  else if name =s str "drop" then DisruptiveActionDrop
  else if name =s str "pass" then DisruptiveActionPass
  else if name =s str "redirect" then DisruptiveActionRedirect
  else DisruptiveActionUnknown.

Record MatchedRule := mkMatchedRule {
  mr_Message : bytes;
  mr_Data : bytes;
  mr_URI : bytes;
  mr_TransactionID : bytes;
  mr_Disruptive : bool;
  mr_DisruptiveAction : DisruptiveAction;
  mr_Log : bool;
  mr_Audit : bool;
  mr_ServerIPAddress : bytes;
  mr_ClientIPAddress : bytes;
  mr_MatchedDatas : list MatchData;
  mr_Rule : RuleMetadata;
}.

(** ** Variable selectors *)

Record ruleVariableException := mkException { ex_KeyStr : bytes; ex_KeyRx : option regex }.

Record ruleVariableParams := mkParams {
  rv_Count : bool;
  rv_Variable : RuleVariable;
  rv_KeyRx : option regex;
  rv_KeyStr : bytes;
  rv_Exceptions : list ruleVariableException;
}.
#[global] Instance ruleVariableParams_eta : Eta ruleVariableParams := λ x,
  mkParams x.(rv_Count) x.(rv_Variable) x.(rv_KeyRx) x.(rv_KeyStr) x.(rv_Exceptions).

(** ** Transaction variables *)

Record TransactionVariables := mkVariables {
  singles : gmap RuleVariable bytes;
  maps : gmap RuleVariable Map;
}.
#[global] Instance TransactionVariables_eta : Eta TransactionVariables := λ x,
  mkVariables x.(singles) x.(maps).

(** The fields that are single values and those that are maps, each with the
    variable it was created for. *)
Definition singleVars : list RuleVariable :=
  [V.UrlencodedError; V.ResponseContentType; V.UniqueID; V.FilesCombinedSize;
   V.FullRequestLength; V.InboundDataError; V.MatchedVar; V.MatchedVarName;
   V.MultipartDataAfter; V.OutboundDataError; V.QueryString; V.RemoteAddr; V.RemoteHost;
   V.RemotePort; V.ReqbodyError; V.ReqbodyErrorMsg; V.ReqbodyProcessorError;
   V.ReqbodyProcessorErrorMsg; V.ReqbodyProcessor; V.RequestBasename; V.RequestBody;
   V.RequestBodyLength; V.RequestFilename; V.RequestLine; V.RequestMethod; V.RequestProtocol;
   V.RequestURI; V.RequestURIRaw; V.ResponseBody; V.ResponseContentLength; V.ResponseProtocol;
   V.ResponseStatus; V.ServerAddr; V.ServerName; V.ServerPort; V.HighestSeverity; V.StatusLine;
   V.Duration; V.ResBodyError; V.ResBodyErrorMsg; V.ResBodyProcessorError;
   V.ResBodyProcessorErrorMsg; V.ResBodyProcessor; V.MultipartStrictError; V.Time; V.TimeDay;
   V.TimeEpoch; V.TimeHour; V.TimeMin; V.TimeMon; V.TimeSec; V.TimeWday; V.TimeYear].

Definition mapVars : list RuleVariable :=
  [V.ResponseArgs; V.FilesSizes; V.FilesTmpContent; V.MultipartFilename; V.MultipartName;
   V.MatchedVars; V.RequestCookies; V.RequestHeaders; V.ResponseHeaders; V.Geo; V.TX; V.Rule;
   V.Env; V.Files; V.FilesNames; V.FilesTmpNames; V.ResponseXML; V.RequestXML;
   V.MultipartPartHeaders; V.ArgsGet; V.ArgsPost; V.ArgsPath].

Definition NewTransactionVariables : TransactionVariables :=
  mkVariables (list_to_map ((λ v, (v, [])) <$> singleVars))
              (list_to_map ((λ v, (v, NewMap v)) <$> mapVars)).

(** Reading and writing a field. *)
Definition singleOf (tv : TransactionVariables) (v : RuleVariable) : bytes := default [] (tv.(singles) !! v).
Definition mapOf (tv : TransactionVariables) (v : RuleVariable) : Map := default (NewMap v) (tv.(maps) !! v).
Definition setSingle (v : RuleVariable) (s : bytes) (tv : TransactionVariables) : TransactionVariables :=
  tv <| singles ::= <[v := s]> |>.
Definition setMap (v : RuleVariable) (m : Map) (tv : TransactionVariables) : TransactionVariables :=
  tv <| maps ::= <[v := m]> |>.

(** [Transaction.Collection]; [None] is the nil interface. *)
Definition Collection (tv : TransactionVariables) (idx : RuleVariable) : option View :=
  match idx with
  | V.ResponseContentType | V.UniqueID | V.FilesCombinedSize | V.FullRequestLength
  | V.InboundDataError | V.MatchedVar | V.MatchedVarName | V.MultipartDataAfter
  | V.OutboundDataError | V.QueryString | V.RemoteAddr | V.RemoteHost | V.RemotePort
  | V.ReqbodyError | V.ReqbodyErrorMsg | V.ReqbodyProcessorError | V.ReqbodyProcessorErrorMsg
  | V.ReqbodyProcessor | V.RequestBasename | V.RequestBody | V.RequestBodyLength
  | V.RequestFilename | V.RequestLine | V.RequestMethod | V.RequestProtocol | V.RequestURI
  | V.RequestURIRaw | V.ResponseBody | V.ResponseContentLength | V.ResponseProtocol
  | V.ResponseStatus | V.ServerAddr | V.ServerName | V.ServerPort | V.HighestSeverity
  | V.StatusLine | V.Duration | V.ResBodyProcessor | V.UrlencodedError | V.MultipartStrictError
  | V.Time | V.TimeDay | V.TimeEpoch | V.TimeHour | V.TimeMin | V.TimeMon | V.TimeSec
  | V.TimeWday | V.TimeYear =>
      Some (VSingle idx (singleOf tv idx))
  | V.ArgsGet | V.ArgsPost | V.ArgsPath | V.FilesSizes | V.FilesNames | V.FilesTmpContent
  | V.MultipartFilename | V.MultipartName | V.MatchedVars | V.Files | V.RequestCookies
  | V.RequestHeaders | V.ResponseHeaders | V.Geo | V.FilesTmpNames | V.TX | V.Rule | V.Env
  | V.ResponseArgs | V.ResponseXML | V.RequestXML | V.MultipartPartHeaders =>
      Some (VKeyed (KMap (mapOf tv idx)))
  | V.ArgsCombinedSize => Some (VSize V.ArgsCombinedSize [mapOf tv V.ArgsGet; mapOf tv V.ArgsPost])
  | V.ResponseHeadersNames => Some (VKeyed (KNames V.ResponseHeadersNames (mapOf tv V.ResponseHeaders)))
  | V.RequestHeadersNames => Some (VKeyed (KNames V.RequestHeadersNames (mapOf tv V.RequestHeaders)))
  | V.Args =>
      Some (VConcatKeyed V.Args
        [KMap (mapOf tv V.ArgsGet); KMap (mapOf tv V.ArgsPost); KMap (mapOf tv V.ArgsPath)])
  | V.MatchedVarsNames => Some (VKeyed (KNames V.MatchedVarsNames (mapOf tv V.MatchedVars)))
  | V.RequestCookiesNames => Some (VKeyed (KNames V.RequestCookiesNames (mapOf tv V.RequestCookies)))
  | V.ArgsNames =>
      Some (VConcatKeyed V.ArgsNames
        [KNames V.ArgsGetNames (mapOf tv V.ArgsGet); KNames V.ArgsPostNames (mapOf tv V.ArgsPost);
         KNames V.Unknown (mapOf tv V.ArgsPath)])
  | V.ArgsGetNames => Some (VKeyed (KNames V.ArgsGetNames (mapOf tv V.ArgsGet)))
  | V.ArgsPostNames => Some (VKeyed (KNames V.ArgsPostNames (mapOf tv V.ArgsPost)))
  | V.JSON => None
  | V.XML => Some (VKeyed (KMap (mapOf tv V.RequestXML)))
  | _ => Some VNoop
  end.

(** The variables that [All] visits, in its order. *)
Definition All : list RuleVariable :=
  [V.Args; V.ArgsCombinedSize; V.ArgsGet; V.ArgsGetNames; V.ArgsNames; V.ArgsPath; V.ArgsPost;
   V.ArgsPostNames; V.Duration; V.Env; V.Files; V.FilesCombinedSize; V.FilesNames;
   V.FilesSizes; V.FilesTmpContent; V.FilesTmpNames; V.FullRequestLength; V.Geo;
   V.HighestSeverity; V.InboundDataError; V.MatchedVar; V.MatchedVarName; V.MatchedVars;
   V.MatchedVarsNames; V.MultipartDataAfter; V.MultipartFilename; V.MultipartName;
   V.MultipartPartHeaders; V.MultipartStrictError; V.OutboundDataError; V.QueryString;
   V.RemoteAddr; V.RemoteHost; V.RemotePort; V.ReqbodyError; V.ReqbodyErrorMsg;
   V.ReqbodyProcessor; V.ReqbodyProcessorError; V.ReqbodyProcessorErrorMsg; V.RequestBasename;
   V.RequestBody; V.RequestBodyLength; V.RequestCookies; V.RequestCookiesNames;
   V.RequestFilename; V.RequestHeaders; V.RequestHeadersNames; V.RequestLine; V.RequestMethod;
   V.RequestProtocol; V.RequestURI; V.RequestURIRaw; V.RequestXML; V.ResponseBody;
   V.ResponseContentLength; V.ResponseContentType; V.ResponseHeaders; V.ResponseHeadersNames;
   V.ResponseProtocol; V.ResponseStatus; V.ResponseXML; V.ResponseArgs; V.ResBodyProcessor;
   V.Rule; V.ServerAddr; V.ServerName; V.ServerPort; V.StatusLine; V.TX; V.UniqueID;
   V.UrlencodedError; V.XML; V.Time; V.TimeDay; V.TimeEpoch; V.TimeHour; V.TimeMin; V.TimeMon;
   V.TimeSec; V.TimeWday; V.TimeYear].

(** [reset]: the visited collections that have a [Reset], the single values and
    the maps, are emptied; XML is the map of REQUEST_XML. *)
Definition resetVariables (tv : TransactionVariables) : TransactionVariables :=
  foldl (λ tv v,
    let v := if decide (v = V.XML) then V.RequestXML else v in
    if decide (v ∈ singleVars) then setSingle v [] tv
    else if decide (v ∈ mapVars) then setMap v (Collections.Reset (mapOf tv v)) tv
    else tv) tv All.

(** ** Transaction

    A context is known by a number.  The WAF is an argument of the operations that
    use it, and of the logger only its level is kept.  Of the stop watches only the
    phases they are stored for are kept, in order, not the times. *)

Record Transaction := mkTransaction {
  tx_id : bytes;
  (** The identity of the context, which is only handed on. *)
  tx_context : Z;
  tx_matchedRules : list MatchedRule;
  tx_interruption : option Interruption;
  tx_detectionOnlyInterruption : option Interruption;
  tx_Logdata : bytes;
  tx_SkipAfter : bytes;
  tx_AllowType : AllowType;
  tx_AuditEngine : AuditEngineStatus;
  tx_AuditLogParts : AuditLogParts;
  tx_AuditLogFormat : bytes;
  tx_ForceRequestBodyVariable : bool;
  tx_RequestBodyAccess : bool;
  tx_RequestBodyLimit : Z;
  tx_ForceResponseBodyVariable : bool;
  tx_ResponseBodyAccess : bool;
  tx_ResponseBodyLimit : Z;
  tx_RuleEngine : RuleEngineStatus;
  tx_HashEngine : bool;
  tx_HashEnforcement : bool;
  tx_lastPhase : Z;
  tx_requestBodyBuffer : BodyBuffer;
  tx_responseBodyBuffer : BodyBuffer;
  tx_ruleRemoveByID : gset Z;
  tx_ruleRemoveByIDRanges : list (Z * Z);
  tx_ruleRemoveTargetByID : gmap Z (list ruleVariableParams);
  tx_Skip : Z;
  tx_Capture : bool;
  tx_stopWatches : list Z;
  tx_debugLevel : Z;
  tx_Timestamp : Z;
  tx_audit : bool;
  tx_variables : TransactionVariables;
  tx_caches : txCaches;
}.
#[global] Instance Transaction_eta : Eta Transaction := λ x,
  mkTransaction x.(tx_id) x.(tx_context) x.(tx_matchedRules) x.(tx_interruption) x.(tx_detectionOnlyInterruption)
    x.(tx_Logdata) x.(tx_SkipAfter) x.(tx_AllowType) x.(tx_AuditEngine) x.(tx_AuditLogParts)
    x.(tx_AuditLogFormat) x.(tx_ForceRequestBodyVariable) x.(tx_RequestBodyAccess)
    x.(tx_RequestBodyLimit) x.(tx_ForceResponseBodyVariable) x.(tx_ResponseBodyAccess)
    x.(tx_ResponseBodyLimit) x.(tx_RuleEngine) x.(tx_HashEngine) x.(tx_HashEnforcement)
    x.(tx_lastPhase) x.(tx_requestBodyBuffer) x.(tx_responseBodyBuffer)
    x.(tx_ruleRemoveByID) x.(tx_ruleRemoveByIDRanges) x.(tx_ruleRemoveTargetByID)
    x.(tx_Skip) x.(tx_Capture) x.(tx_stopWatches) x.(tx_debugLevel) x.(tx_Timestamp) x.(tx_audit)
    x.(tx_variables) x.(tx_caches).

(** Access to the variables of a transaction. *)
Definition single (tx : Transaction) (v : RuleVariable) : bytes := singleOf tx.(tx_variables) v.
Definition tmap (tx : Transaction) (v : RuleVariable) : Map := mapOf tx.(tx_variables) v.
Definition withSingle (v : RuleVariable) (s : bytes) (tx : Transaction) : Transaction :=
  tx <| tx_variables ::= setSingle v s |>.
Definition withMap (v : RuleVariable) (f : Map → Map) (tx : Transaction) : Transaction :=
  tx <| tx_variables ::= (λ tv, setMap v (f (mapOf tv v)) tv) |>.

(** ** Operations *)

Definition IsInterrupted (tx : Transaction) : bool :=
  match tx.(tx_interruption) with Some _ => true | None => false end.
Definition IsDetectionOnlyInterrupted (tx : Transaction) : bool :=
  match tx.(tx_detectionOnlyInterruption) with Some _ => true | None => false end.
Definition IsRuleEngineOff (tx : Transaction) : bool := bool_decide (tx.(tx_RuleEngine) = RuleEngineOff).

Definition Interrupt (interruption : Interruption) (tx : Transaction) : Transaction :=
  match tx.(tx_RuleEngine) with
  | RuleEngineOn => tx <| tx_interruption := Some interruption |>
  | RuleEngineDetectionOnly =>
      if negb (IsDetectionOnlyInterrupted tx)
      then tx <| tx_detectionOnlyInterruption := Some interruption |> else tx
  | RuleEngineOff => tx
  end.

Definition Allow (allowType : AllowType) (tx : Transaction) : Transaction :=
  if decide (tx.(tx_RuleEngine) = RuleEngineOn) then tx <| tx_AllowType := allowType |> else tx.

(** [SetIndex(key, 0, value)], the only index that the engine uses. *)
Definition SetIndex0 `{Unicode} (key value : bytes) (c : Map) : Map :=
  match SetIndex c key 0 value with Done c => c | _ => c end.

Section operations.
Context `{U : !Unicode, O : !MapOrder}.

Definition addCookies (values : gmap bytes (list bytes)) (tx : Transaction) : Transaction :=
  foldl (λ tx kv, foldl (λ tx v, withMap V.RequestCookies (λ m, Add m kv.1 v) tx) tx kv.2)
    tx (range values).

Definition AddRequestHeader (key value : bytes) (tx : Transaction) : run Transaction :=
  if key =s [] then Done tx else
  let keyl := ToLower key in
  let tx := withMap V.RequestHeaders (λ m, Add m key value) tx in
  if keyl =s str "content-type" then
    let val := ToLower value in
    Done (if val =s str "application/x-www-form-urlencoded"
          then withSingle V.ReqbodyProcessor (str "URLENCODED") tx
          else if HasPrefix val (str "multipart/form-data")
          then withSingle V.ReqbodyProcessor (str "MULTIPART") tx else tx)
  else if keyl =s str "cookie" then
    values ← ParseCookies value;
    Done (addCookies values tx)
  else Done tx.

Definition AddResponseHeader (key value : bytes) (tx : Transaction) : Transaction :=
  if key =s [] then tx else
  let keyl := ToLower key in
  let tx := withMap V.ResponseHeaders (λ m, Add m key value) tx in
  if keyl =s str "content-type" then
    let '(name, _, _) := Cut value 0x3b in withSingle V.ResponseContentType name tx
  else tx.

Definition CaptureField (i : Z) (value : bytes) (tx : Transaction) : Transaction :=
  if tx.(tx_Capture) then withMap V.TX (SetIndex0 (Itoa i) value) tx else tx.

Definition resetCaptures (tx : Transaction) : Transaction :=
  foldl (λ tx i, withMap V.TX (SetIndex0 [i] []) tx) tx (seqZ 48 10).

(** [Transaction.matchVariable] *)
Definition tx_matchVariable (m : MatchData) (tx : Transaction) : Transaction :=
  let varName := if negb (m.(Key_) =s []) then Name m.(Variable_) ++ str ":" ++ m.(Key_)
                 else Name m.(Variable_) in
  let tx := withSingle V.MatchedVarName [] tx in
  let tx := withMap V.MatchedVars (λ c, Add c varName m.(Value_)) tx in
  let tx := withSingle V.MatchedVar m.(Value_) tx in
  withSingle V.MatchedVarName varName tx.

(** *** Exceptions *)

Fixpoint lowerEqLoop (left right l r : bytes) : bool :=
  match l, r with
  | a :: l, b :: r =>
      if (a >=? RuneSelf) || (b >=? RuneSelf) then ToLower left =s ToLower right else
      let a := if (0x41 <=? a) && (a <=? 0x5a) then u8 (a + 0x20) else a in
      let b := if (0x41 <=? b) && (b <=? 0x5a) then u8 (b + 0x20) else b in
      if negb (a =? b) then false else lowerEqLoop left right l r
  | _, _ => (length left =? length right)%nat
  end.

Definition lowercaseStringsEqual (left right : bytes) : bool := lowerEqLoop left right left right.

Fixpoint exceptionLoop (key : bytes) (lowerKeyReady : bool) (exceptions : list ruleVariableException) : bool :=
  match exceptions with
  | [] => false
  | exception :: exceptions =>
      if (exception.(ex_KeyStr) =s []) && match exception.(ex_KeyRx) with None => true | _ => false end
      then true else
      let lowerKey := ToLower key in
      let '(lowerKeyReady, matches) :=
        match exception.(ex_KeyRx) with
        | Some rx => (true, rx lowerKey)
        | None => (lowerKeyReady, false)
        end in
      if (matches : bool) then true
      else if lowerKeyReady then
        if ToLower exception.(ex_KeyStr) =s lowerKey then true
        else exceptionLoop key lowerKeyReady exceptions
      else if lowercaseStringsEqual exception.(ex_KeyStr) key then true
      else exceptionLoop key lowerKeyReady exceptions
  end.

Definition isRuleVariableException (key : bytes) (exceptions : list ruleVariableException) : bool :=
  exceptionLoop key false exceptions.

(** *** Fields *)

Definition GetField (tx : Transaction) (rv : ruleVariableParams) : list MatchData :=
  match Collection tx.(tx_variables) rv.(rv_Variable) with
  | None => []
  | Some col =>
      let matches :=
        match rv.(rv_KeyRx) with
        | Some rx =>
            match col with
            | VKeyed k => Keyed_FindRegex k rx
            | VConcatKeyed v ks => Concat_FindRegex v ks rx
            | _ => []
            end
        | None =>
            if negb (rv.(rv_KeyStr) =s []) then
              match col with
              | VKeyed k => Keyed_FindString k rv.(rv_KeyStr)
              | VConcatKeyed v ks => Concat_FindString v ks rv.(rv_KeyStr)
              | _ => []
              end
            else View_FindAll col
        end in
      let matches :=
        if negb (length rv.(rv_Exceptions) =? 0)%nat
        then filter (λ c, isRuleVariableException c.(Key_) rv.(rv_Exceptions) = false) matches
        else matches in
      if rv.(rv_Count)
      then [matchData rv.(rv_Variable) rv.(rv_KeyStr) (Itoa (Z.of_nat (length matches)))]
      else matches
  end.

(** The buffer that is reused between calls is emptied first. *)
Definition getFieldMatches (tx : Transaction) (rv : ruleVariableParams) : list Match :=
  match Collection tx.(tx_variables) rv.(rv_Variable) with
  | None => []
  | Some col =>
      let matches :=
        match rv.(rv_KeyRx) with
        | Some rx =>
            match col with
            | VKeyed k => Keyed_AppendMatchesRegex k [] rx
            | VConcatKeyed v ks => Concat_AppendMatchesRegex v ks [] rx
            | _ => []
            end
        | None =>
            if negb (rv.(rv_KeyStr) =s []) then
              match col with
              | VKeyed k => Keyed_AppendMatchesString k [] rv.(rv_KeyStr)
              | VConcatKeyed v ks => Concat_AppendMatchesString v ks [] rv.(rv_KeyStr)
              | _ => []
              end
            else View_AppendMatches col []
        end in
      let matches :=
        if negb (length rv.(rv_Exceptions) =? 0)%nat
        then filter (λ m, isRuleVariableException m.(m_Key) rv.(rv_Exceptions) = false) matches
        else matches in
      if rv.(rv_Count)
      then [mkMatch rv.(rv_Variable) rv.(rv_KeyStr) (Itoa (Z.of_nat (length matches)))]
      else matches
  end.
End operations.

(** *** Removal of rules and targets, connection data *)

Definition RemoveRuleTargetByID (id : Z) (variable : RuleVariable) (key : bytes) (keyRx : option regex)
    (tx : Transaction) : Transaction :=
  let c := mkParams false variable keyRx key [] in
  tx <| tx_ruleRemoveTargetByID ::= (λ m, <[id := default [] (m !! id) ++ [c]]> m) |>.

Definition RemoveRuleByID (id : Z) (tx : Transaction) : Transaction :=
  tx <| tx_ruleRemoveByID ::= (λ s, s ∪ {[id]}) |>.

Definition RemoveRuleByIDRange (start end_ : Z) (tx : Transaction) : Transaction :=
  tx <| tx_ruleRemoveByIDRanges ::= (λ l, l ++ [(start, end_)]) |>.

Definition ProcessConnection (client : bytes) (cPort : Z) (server : bytes) (sPort : Z)
    (tx : Transaction) : Transaction :=
  let p := Itoa cPort in
  let p2 := Itoa sPort in
  withSingle V.ServerPort p2 (withSingle V.ServerAddr server
    (withSingle V.RemotePort p (withSingle V.RemoteAddr client tx))).

Definition SetServerName (serverName : bytes) (tx : Transaction) : Transaction :=
  withSingle V.ServerName serverName tx.

Definition hasLogRelevantMatchedRules (tx : Transaction) : bool :=
  existsb mr_Log tx.(tx_matchedRules).

(** The error variables of the body parsers; [err] is the message. *)
Definition generateRequestBodyError (err : bytes) (tx : Transaction) : Transaction :=
  let tx := withSingle V.ReqbodyError (str "1") tx in
  let tx := withSingle V.ReqbodyErrorMsg (single tx V.ReqbodyProcessor ++ str ": " ++ err) tx in
  let tx := withSingle V.ReqbodyProcessorError (str "1") tx in
  withSingle V.ReqbodyProcessorErrorMsg err tx.

Definition generateResponseBodyError (err : bytes) (tx : Transaction) : Transaction :=
  let tx := withSingle V.ResBodyError (str "1") tx in
  let tx := withSingle V.ResBodyErrorMsg (single tx V.ResBodyProcessor ++ str ": " ++ err) tx in
  let tx := withSingle V.ResBodyProcessorError (str "1") tx in
  withSingle V.ResBodyProcessorErrorMsg err tx.

(** ** Exceptions *)

Section exceptions.
Context `{U : !Unicode}.

Lemma lowerEqLoop_spec left right l : ∀ r,
  wf_bytes l → wf_bytes r →
  (ToLower left = ToLower right ↔ ToLower l = ToLower r) →
  (length left = length right ↔ length l = length r) →
  lowerEqLoop left right l r = (ToLower left =s ToLower right).
Proof.
  induction l as [|a l IH]; intros r Hl Hr Heq Hlen.
  - cbn [lowerEqLoop]. destruct r as [|b r].
    + rewrite (proj2 (bytes_eqb_eq _ _)) by tauto. lia.
    + rewrite (proj2 (bytes_eqb_neq _ _)); [simpl in Hlen; lia|].
      rewrite Heq, ToLower_nil. intros E. by eapply ToLower_nonempty; [exact Hr| |symmetry].
  - destruct r as [|b r]; cbn [lowerEqLoop].
    { rewrite (proj2 (bytes_eqb_neq _ _)); [simpl in Hlen; lia|].
      rewrite Heq, ToLower_nil. intros E. by eapply ToLower_nonempty; [exact Hl| |]. }
    inversion Hl as [|?? Ha Hl']; inversion Hr as [|?? Hb Hr']; subst. unfold is_byte in *.
    destruct ((a >=? RuneSelf) || (b >=? RuneSelf)) eqn:E; [done|].
    rewrite !ToLower_cons_ascii in Heq by (unfold RuneSelf in *; lia).
    set (a' := if (0x41 <=? a) && (a <=? 0x5a) then _ else a).
    set (b' := if (0x41 <=? b) && (b <=? 0x5a) then _ else b).
    assert (a' = lowerByte a) as -> by (unfold a', lowerByte, in_range, u8, RuneSelf in *; split_ifs; dlia).
    assert (b' = lowerByte b) as -> by (unfold b', lowerByte, in_range, u8, RuneSelf in *; split_ifs; dlia).
    destruct (lowerByte a =? lowerByte b) eqn:Eab; cbn [negb].
    + apply Z.eqb_eq in Eab. apply IH; [done..| |simpl in Hlen; lia].
      rewrite Heq, Eab. split; [by intros [=]|by intros ->].
    + apply Z.eqb_neq in Eab. symmetry. apply bytes_eqb_neq. rewrite Heq. by intros [=].
Qed.

Lemma lowercaseStringsEqual_eq left right :
  wf_bytes left → wf_bytes right →
  lowercaseStringsEqual left right = (ToLower left =s ToLower right).
Proof. intros. by apply lowerEqLoop_spec. Qed.

(** When an exception excludes a key. *)
Definition excludes (key : bytes) (e : ruleVariableException) : bool :=
  ((e.(ex_KeyStr) =s []) && match e.(ex_KeyRx) with None => true | _ => false end)
  || match e.(ex_KeyRx) with Some rx => rx (ToLower key) | None => false end
  || (ToLower e.(ex_KeyStr) =s ToLower key).

Lemma exceptionLoop_spec key ready exs :
  wf_bytes key → Forall (λ e, wf_bytes e.(ex_KeyStr)) exs →
  exceptionLoop key ready exs = existsb (excludes key) exs.
Proof.
  intros Hk Hexs. revert ready. induction Hexs as [|e exs He Hexs IH]; intros ready; [done|].
  cbn [exceptionLoop existsb]. unfold excludes at 1.
  destruct (e.(ex_KeyStr) =s []) eqn:E1, e.(ex_KeyRx) as [rx|] eqn:E2; cbn [andb orb].
  - destruct (rx (ToLower key)); [done|]. cbn [orb].
    destruct (ToLower _ =s ToLower _); [done|apply IH].
  - done.
  - destruct (rx (ToLower key)); [done|]. cbn [orb].
    destruct (ToLower _ =s ToLower _); [done|apply IH].
  - rewrite lowercaseStringsEqual_eq by done.
    destruct ready; (destruct (ToLower _ =s ToLower _); [done|apply IH]).
Qed.
End exceptions.

(** The byte-wise comparison of keys agrees with comparing the lower-case
    forms, also when it meets a byte outside ASCII. *)
Theorem lowercaseStringsEqual_spec `{U : Unicode} (left right : bytes) :
  wf_bytes left → wf_bytes right →
  lowercaseStringsEqual left right = true ↔ ToLower left = ToLower right.
Proof. intros. rewrite lowercaseStringsEqual_eq by done. apply bytes_eqb_eq. Qed.

Lemma lowercaseStringsEqual_spec_witness :
  @lowercaseStringsEqual latin1 (str "User-Agent") (str "user-agent") = true ↔
  @ToLower latin1 (str "User-Agent") = @ToLower latin1 (str "user-agent").
Proof. apply (@lowercaseStringsEqual_spec latin1); apply wf_bytesb_true; by vm_compute. Defined.

(** A key is excluded exactly when one exception excludes it: the exception
    has no selector, its regular expression matches the key in lower case, or
    its key equals the key up to case. The lazily computed lower-case form
    does not change the outcome. *)
Theorem isRuleVariableException_spec `{U : Unicode} (key : bytes) (exs : list ruleVariableException) :
  wf_bytes key → Forall (λ e, wf_bytes e.(ex_KeyStr)) exs →
  isRuleVariableException key exs = existsb (excludes key) exs.
Proof. apply exceptionLoop_spec. Qed.

Definition sampleExceptions : list ruleVariableException :=
  [mkException (str "Cookie") None; mkException (str "/^x-/") (Some (λ s, HasPrefix s (str "x-")))].

Lemma isRuleVariableException_spec_witness :
  @isRuleVariableException latin1 (str "X-Id") sampleExceptions =
  existsb (@excludes latin1 (str "X-Id")) sampleExceptions.
Proof.
  apply (@isRuleVariableException_spec latin1).
  - apply wf_bytesb_true. by vm_compute.
  - do 2 (apply Forall_cons_2; [apply wf_bytesb_true; by vm_compute|]). apply Forall_nil_2.
Defined.

(** ** Fields *)

Lemma filter_fmap_perm {A B} (f : A → B) (P : A → Prop) (Q : B → Prop)
    `{∀ x, Decision (P x), ∀ x, Decision (Q x)} l k :
  (∀ x, P x ↔ Q (f x)) → f <$> l ≡ₚ k → f <$> filter P l ≡ₚ filter Q k.
Proof.
  intros HPQ <-. apply reflexive_eq. induction l as [|x l IH]; [done|]. csimpl. rewrite !filter_cons.
  destruct (decide (P x)) as [HP|HP]; [rewrite decide_True by (by apply HPQ)|
    rewrite decide_False by (by rewrite <- HPQ)]; csimpl; by rewrite IH.
Qed.

(** The appenders started with an empty buffer, as a permutation. *)
Lemma agree_nil (l : list MatchData) (a : list Match) :
  (∃ k, toMatch <$> l ≡ₚ k ∧ a = [] ++ k) → toMatch <$> l ≡ₚ a.
Proof. by intros (k & H & ->). Qed.

(** The fields that a rule inspects ([getFieldMatches], which appends to a
    reused buffer) are those of [GetField], up to the order of map iteration:
    same selection by key or regular expression, same exceptions and same
    count. *)
Theorem getFieldMatches_GetField `{U : Unicode} (o1 o2 : MapOrder) (tx : Transaction)
    (rv : ruleVariableParams) :
  toMatch <$> @GetField U o1 tx rv ≡ₚ @getFieldMatches U o2 tx rv.
Proof.
  unfold GetField, getFieldMatches. destruct (Collection _ _) as [col|]; [|done].
  match goal with |- toMatch <$> (if _ then [matchData _ _ (Itoa (Z.of_nat (length
    (if ?b then filter ?P ?l else _))))] else _) ≡ₚ
    (if _ then [mkMatch _ _ (Itoa (Z.of_nat (length (if _ then filter ?Q ?k else _))))] else _) =>
    assert (Hlk : toMatch <$> l ≡ₚ k); [|
    assert (Hf : toMatch <$> (if b then filter P l else l) ≡ₚ if b then filter Q k else k);
      [destruct b; [by apply filter_fmap_perm|done]|]] end.
  - destruct rv.(rv_KeyRx) as [rx|]; [|destruct (rv.(rv_KeyStr) =s [])]; cbn [negb].
    + destruct col; try done; apply agree_nil; [apply Keyed_Regex_agree|].
      apply Concat_agree. intros. apply Keyed_Regex_agree.
    + apply agree_nil, View_agree.
    + destruct col; try done; apply agree_nil; [apply Keyed_String_eq|].
      apply Concat_agree. intros. apply Keyed_String_eq.
  - destruct rv.(rv_Count); [|done]. pose proof (Permutation_length Hf) as Hlen.
    rewrite length_fmap in Hlen. by rewrite Hlen.
Qed.

(** ** Resetting the variables of a pooled transaction *)

Lemma singleOf_setSingle tv v w s : singleOf (setSingle v s tv) w = if decide (v = w) then s else singleOf tv w.
Proof.
  unfold singleOf, setSingle. cbn. case_decide; subst; [by rewrite lookup_insert_eq|by rewrite lookup_insert_ne].
Qed.

Lemma singleOf_setMap tv v w m : singleOf (setMap v m tv) w = singleOf tv w.
Proof. done. Qed.

Lemma mapOf_setMap tv v w m : mapOf (setMap v m tv) w = if decide (v = w) then m else mapOf tv w.
Proof.
  unfold mapOf, setMap. cbn. case_decide; subst; [by rewrite lookup_insert_eq|by rewrite lookup_insert_ne].
Qed.

Lemma mapOf_setSingle tv v w s : mapOf (setSingle v s tv) w = mapOf tv w.
Proof. done. Qed.

#[export] Hint Rewrite singleOf_setSingle singleOf_setMap mapOf_setMap mapOf_setSingle : coraza.

(** The field that a map variable names: XML is the map of REQUEST_XML. *)
Definition storeVar (v : RuleVariable) : RuleVariable := if decide (v = V.XML) then V.RequestXML else v.

(** One visit of [reset]. *)
Definition resetOne (tv : TransactionVariables) (v : RuleVariable) : TransactionVariables :=
  let v := storeVar v in
  if decide (v ∈ singleVars) then setSingle v [] tv
  else if decide (v ∈ mapVars) then setMap v (Collections.Reset (mapOf tv v)) tv
  else tv.

Lemma singleOf_resetOne tv v w :
  singleOf (resetOne tv v) w =
  if decide (w ∈ singleVars ∧ w = storeVar v) then [] else singleOf tv w.
Proof.
  unfold resetOne.
  destruct (decide (storeVar v ∈ singleVars)) as [Hv|Hv].
  - autorewrite with coraza. destruct (decide (storeVar v = w)) as [<-|Hne].
    + by rewrite decide_True.
    + rewrite decide_False; [done|]. by intros [_ ->].
  - rewrite (decide_False (P := w ∈ singleVars ∧ _)); [by case_decide|]. by intros [? ->].
Qed.

Lemma foldl_resetOne_single l : ∀ tv w,
  singleOf (foldl resetOne tv l) w =
  if decide (w ∈ singleVars ∧ w ∈ storeVar <$> l) then [] else singleOf tv w.
Proof.
  induction l as [|v l IH]; intros tv w; csimpl.
  - rewrite decide_False; [done|]. intros [_ H]. by apply elem_of_nil in H.
  - rewrite IH, singleOf_resetOne.
    destruct (decide (w ∈ singleVars ∧ w ∈ storeVar <$> l)) as [H|H].
    + rewrite decide_True; [done|]. rewrite elem_of_cons. tauto.
    + apply decide_ext. rewrite elem_of_cons. tauto.
Qed.

Lemma foldl_resetOne_map l : ∀ tv w,
  w ∈ mapVars → w ∉ singleVars → w ∈ storeVar <$> l → (mapOf (foldl resetOne tv l) w).(data) = ∅.
Proof.
  assert (Hkeep : ∀ tv w v, (mapOf tv w).(data) = ∅ → (mapOf (resetOne tv v) w).(data) = ∅).
  { intros tv w v Hd. unfold resetOne. repeat case_decide;
      autorewrite with coraza; try case_decide; subst; done. }
  assert (Hkeep' : ∀ l tv w, (mapOf tv w).(data) = ∅ → (mapOf (foldl resetOne tv l) w).(data) = ∅).
  { intros l'. induction l' as [|v l' IH]; intros tv w Hd; [exact Hd|]. apply IH, Hkeep, Hd. }
  induction l as [|v l IH]; intros tv w Hm Hs; csimpl; [by intros ?%elem_of_nil|].
  intros [->|Hin]%elem_of_cons; [|by apply IH].
  apply Hkeep'. unfold resetOne.
  rewrite decide_False, decide_True by done. autorewrite with coraza. by rewrite decide_True.
Qed.

(** The single values that [All] does not visit. *)
Definition notReset : list RuleVariable :=
  [V.ResBodyError; V.ResBodyErrorMsg; V.ResBodyProcessorError; V.ResBodyProcessorErrorMsg].

Lemma resetVariables_all (tv : TransactionVariables) (v : RuleVariable) :
  (v ∈ mapVars → (mapOf (resetVariables tv) v).(data) = ∅) ∧
  (v ∈ singleVars → v ∉ notReset → singleOf (resetVariables tv) v = []) ∧
  (v ∈ notReset → singleOf (resetVariables tv) v = singleOf tv v).
Proof.
  change (resetVariables tv) with (foldl resetOne tv All).
  assert (Hv : ∀ P : RuleVariable → bool, forallb P allVariables = true → P v = true)
    by (intros P HP; by apply forall_variables).
  split; [|split].
  - intros Hm. apply foldl_resetOne_map; [done|..].
    + revert Hm. specialize (Hv (λ v, bool_decide (v ∈ mapVars → v ∉ singleVars)) ltac:(by vm_compute)).
      by apply bool_decide_eq_true in Hv.
    + revert Hm. specialize (Hv (λ v, bool_decide (v ∈ mapVars → v ∈ storeVar <$> All)) ltac:(by vm_compute)).
      by apply bool_decide_eq_true in Hv.
  - intros Hs Hn. rewrite foldl_resetOne_single, decide_True; [done|]. split; [done|].
    revert Hs Hn. specialize (Hv (λ v, bool_decide (v ∈ singleVars → v ∉ notReset → v ∈ storeVar <$> All))
      ltac:(by vm_compute)). by apply bool_decide_eq_true in Hv.
  - intros Hn. rewrite foldl_resetOne_single, decide_False; [done|]. intros [_ Hin]. revert Hn Hin.
    specialize (Hv (λ v, bool_decide (v ∈ notReset → v ∉ storeVar <$> All)) ltac:(by vm_compute)).
    by apply bool_decide_eq_true in Hv.
Qed.

(** When a transaction goes back to the pool every map is emptied and every
    single value is cleared, except the four error variables of the response
    body processor, which keep their value for the next transaction. *)
Theorem resetVariables_spec (tv : TransactionVariables) (v : RuleVariable) :
  (v ∈ mapVars → (mapOf (resetVariables tv) v).(data) = ∅) ∧
  (v ∈ singleVars → v ∉ notReset → singleOf (resetVariables tv) v = []) ∧
  (v ∈ notReset → singleOf (resetVariables tv) v = singleOf tv v).
Proof. apply resetVariables_all. Qed.

Lemma resetVariables_spec_witness :
  singleOf (resetVariables (setSingle V.ResBodyError (str "1") NewTransactionVariables)) V.ResBodyError
  = str "1".
Proof.
  rewrite (proj2 (proj2 (resetVariables_spec
    (setSingle V.ResBodyError (str "1") NewTransactionVariables) V.ResBodyError))).
  - by vm_compute.
  - apply (bool_decide_eq_true_1 _). by vm_compute.
Defined.

(** A transaction in which nothing happened yet. *)
Definition emptyTransaction : Transaction :=
  mkTransaction (str "id") 0 [] None None [] [] AllowTypeUnset AuditEngineOff [] [] false false 1024 false false
    1024 RuleEngineOn false false 0 (NewBodyBuffer (mkOptions [] 1024 1024)) (NewBodyBuffer (mkOptions [] 1024 1024))
    ∅ [] ∅ 0 false [] 0 0 false NewTransactionVariables newCaches.
