(* ===== verification/MatchLog.v ===== *)
(** The log entries of a matched rule: src/internal/corazarules/rule_match.go, with
    the quoting of package strconv that its %q verbs use.

    The theorems show that quoting is undone by a reader and hides every quote and
    control character, so that the quoted fields of an entry can be read
    back whatever the request put into them.  The message of an entry is not
    quoted. *)

From S2P Require Import Prelude GoLib StringUtil UrlTransform Variables Types Collections.
From S2P Require Import BodyBuffer TransactionState.

(** ** strconv.Quote *)

(** [unicode.IsPrint], known on ASCII. *)
Class Printable := {
  IsPrint : Z → bool;
  IsPrint_ascii r : 0 <= r < RuneSelf → IsPrint r = in_range 0x20 r 0x7e;
}.

Definition lowerhex (d : Z) : Z := if d <? 10 then 0x30 + d else 0x57 + d.

Fixpoint hexText (k : nat) (v : Z) : bytes :=
  match k with O => [] | S k => hexText k (v / 16) ++ [lowerhex (v mod 16)] end.

(** The letter of a control character that has one. *)
Definition controlLetter (r : Z) : option Z :=
  if r =? 0x07 then Some 0x61 else if r =? 0x08 then Some 0x62 else if r =? 0x0c then Some 0x66
  else if r =? 0x0a then Some 0x6e else if r =? 0x0d then Some 0x72 else if r =? 0x09 then Some 0x74
  else if r =? 0x0b then Some 0x76 else None.

Section quote.
Context `{P : !Printable}.

(** [appendEscapedRune] *)
Definition escapeRune (r : Z) : bytes :=
  if (r =? 0x22) || (r =? 0x5c) then [0x5c; r]
  else if IsPrint r then EncodeRune r
  else
    match controlLetter r with
    | Some c => [0x5c; c]
    | None =>
        if (r <? 0x20) || (r =? 0x7f) then str "\x" ++ hexText 2 r
        else if r <? 0x10000 then str "\u" ++ hexText 4 r
        else str "\U" ++ hexText 8 r
    end.

(** One rune of [appendQuotedWith]; a byte that is not valid is written in
    hexadecimal. *)
Definition escapePiece (rb : Z * bytes) : bytes :=
  match rb with
  | (r, [b]) => if r =? RuneError then str "\x" ++ hexText 2 b else escapeRune r
  | (r, _) => escapeRune r
  end.

Definition Quote (s : bytes) : bytes := [0x22] ++ flat_map escapePiece (runes s) ++ [0x22].
End quote.

(** ** Log entries *)

Definition maxSizeLogMessage : nat := 280.

(** [if len(msg) > maxSizeLogMessage { msg = msg[:maxSizeLogMessage] }] *)
Definition cutMessage (s : bytes) : bytes := take maxSizeLogMessage s.

Section entries.
Context `{P : !Printable}.

(** [[name %q]] *)
Definition logField (name value : bytes) : bytes := str "[" ++ name ++ str " " ++ Quote value ++ str "]".

Definition writeDetails (mr : MatchedRule) (md : MatchData) : bytes :=
  let r := mr.(mr_Rule) in
  logField (str "file") r.(File_) ++ str " " ++ logField (str "line") (Itoa r.(Line_)) ++ str " " ++
  logField (str "id") (Itoa r.(ID_)) ++ str " " ++ logField (str "rev") r.(Rev_) ++ str " " ++
  logField (str "msg") (cutMessage md.(Message_)) ++ str " " ++ logField (str "data") (cutMessage md.(Data_)) ++ str " " ++
  logField (str "severity") (severityString r.(Severity_)) ++ str " " ++ logField (str "ver") r.(Version_) ++ str " " ++
  logField (str "maturity") (Itoa r.(Maturity_)) ++ str " " ++ logField (str "accuracy") (Itoa r.(Accuracy_)) ++
  flat_map (λ t, str " " ++ logField (str "tag") t) r.(Tags_) ++
  str " " ++ logField (str "hostname") mr.(mr_ServerIPAddress) ++ str " " ++ logField (str "uri") mr.(mr_URI) ++
  str " " ++ logField (str "unique_id") mr.(mr_TransactionID).

Definition writeExtraRuleDetails (md : MatchData) (n : Z) : bytes :=
  logField (str "msg_match_" ++ Itoa n) (cutMessage md.(Message_)) ++ str " " ++
  logField (str "data_match_" ++ Itoa n) (cutMessage md.(Data_)).

Definition matchDataText (mr : MatchedRule) (md : MatchData) : bytes :=
  let op := mr.(mr_Rule).(Operator_) in
  if op =s [] then str "Matched."
  else
    str "Matched Operator " ++ op ++ str " matched " ++ cutMessage md.(Value_) ++ str " at " ++ Name md.(Variable_) ++
    (if negb (md.(Key_) =s []) then str ":" ++ md.(Key_) else []) ++ str ".".

Definition writeDisruptiveActionSpecificLog (mr : MatchedRule) : bytes :=
  let phase := str " (phase " ++ Itoa mr.(mr_Rule).(Phase_) ++ str "). " in
  match mr.(mr_DisruptiveAction) with
  | DisruptiveActionAllow => str "Coraza: Access allowed" ++ phase
  | DisruptiveActionDeny => str "Coraza: Access denied" ++ phase
  | DisruptiveActionDrop => str "Coraza: Access dropped" ++ phase
  | DisruptiveActionPass => str "Coraza: Warning. "
  | DisruptiveActionRedirect => str "Coraza: Access redirected" ++ phase
  | DisruptiveActionUnknown => str "Coraza: Custom disruptive action triggered" ++ phase
  end.

(** What both entries begin with. *)
Definition logPrefix (mr : MatchedRule) : bytes :=
  str "[client " ++ Quote mr.(mr_ClientIPAddress) ++ str "] " ++
  (if mr.(mr_Disruptive) then writeDisruptiveActionSpecificLog mr else str "Coraza: Warning. ").

Definition mr_AuditLog (mr : MatchedRule) : bytes :=
  flat_map (λ md, logPrefix mr ++ matchDataText mr md ++ writeDetails mr md) mr.(mr_MatchedDatas).

(** The data after the first, with their positions. *)
Fixpoint extraDetails (mds : list MatchData) (n : Z) : bytes :=
  match mds with
  | [] => []
  | md :: mds =>
      (if negb (md.(Message_) =s []) || negb (md.(Data_) =s []) then writeExtraRuleDetails md n else []) ++
      extraDetails mds (n + 1)
  end.

(** The first data is indexed without a check. *)
Definition ErrorLog (mr : MatchedRule) : run bytes :=
  match mr.(mr_MatchedDatas) with
  | [] => Panic
  | md :: mds =>
      let msg :=
        match List.find (λ md, negb (md.(Message_) =s [])) (md :: mds) with
        | Some m => m.(Message_)
        | None => md.(Message_)
        end in
      Done (logPrefix mr ++ cutMessage msg ++ str " " ++ writeDetails mr md ++ extraDetails mds 1)
  end.
End entries.

(** ** A reader of quoted text *)

Fixpoint readHex (k : nat) (s : bytes) (acc : Z) : option (Z * bytes) :=
  match k with
  | O => Some (acc, s)
  | S k =>
      match s with
      | [] => None
      | c :: s => d ← hexDigitToByte c; readHex k s (acc * 16 + d)
      end
  end.

(** The control character of a letter. *)
Definition letterControl (c : Z) : option Z :=
  if c =? 0x61 then Some 0x07 else if c =? 0x62 then Some 0x08 else if c =? 0x66 then Some 0x0c
  else if c =? 0x6e then Some 0x0a else if c =? 0x72 then Some 0x0d else if c =? 0x74 then Some 0x09
  else if c =? 0x76 then Some 0x0b else if (c =? 0x22) || (c =? 0x5c) then Some c else None.

(** One character or escape: its bytes and the rest; none at a quote. *)
Definition unquoteStep (s : bytes) : option (bytes * bytes) :=
  match s with
  | [] => None
  | 0x5c :: c :: s =>
      match letterControl c with
      | Some b => Some ([b], s)
      | None =>
          if c =? 0x78 then '(v, s) ← readHex 2 s 0; Some ([v], s)
          else if c =? 0x75 then '(v, s) ← readHex 4 s 0; Some (EncodeRune v, s)
          else if c =? 0x55 then '(v, s) ← readHex 8 s 0; Some (EncodeRune v, s)
          else None
      end
  | c :: s => if (c =? 0x22) || (c =? 0x5c) then None else Some ([c], s)
  end.

(** The text up to the next quote that is not escaped, and the rest. *)
Fixpoint unquoteLoop (fuel : nat) (s : bytes) : option (bytes * bytes) :=
  match fuel with
  | O => None
  | S fuel =>
      match unquoteStep s with
      | Some (b, s) => '(d, r) ← unquoteLoop fuel s; Some (b ++ d, r)
      | None => match s with 0x22 :: s => Some ([], s) | _ => None end
      end
  end.

Definition unquote (s : bytes) : option (bytes * bytes) :=
  match s with 0x22 :: s => unquoteLoop (S (length s)) s | _ => None end.

(** ** Quoting is undone *)

Lemma readHex_rest k : ∀ s acc v r, readHex k s acc = Some (v, r) → (length r ≤ length s)%nat.
Proof.
  induction k as [|k IH]; intros s acc v r; cbn [readHex]; [by intros [= _ <-]|]. destruct s as [|c s]; [done|].
  destruct (hexDigitToByte c) as [d|]; cbn; [|done]. intros H%IH. lia.
Qed.

Lemma unquoteStep_rest s b r : unquoteStep s = Some (b, r) → (length r < length s)%nat.
Proof.
  destruct s as [|c s]; [done|]. destruct (decide (c = 0x5c)) as [->|Hc].
  - destruct s as [|e s]; [done|]. cbn [unquoteStep]. destruct (letterControl e) as [x|]; [intros [= _ <-]; cbn; lia|].
    destruct (e =? 0x78), (e =? 0x75), (e =? 0x55); try done;
      intros ([v r'] & H%readHex_rest & [= _ <-])%bind_Some; cbn; lia.
  - intros H. assert (∃ b', Some (b', s) = Some (b, r)) as [b' [= _ <-]]; [|cbn; lia].
    exists [c]. revert H. unfold unquoteStep. repeat case_match; done.
Qed.

(** Whatever the fuel, the text up to the quote and the rest. *)
Definition reads (s d r : bytes) : Prop := ∀ fuel, (length s < fuel)%nat → unquoteLoop fuel s = Some (d, r).

Lemma reads_step s b s' d r : unquoteStep s = Some (b, s') → reads s' d r → reads s (b ++ d) r.
Proof.
  intros Hs Hr fuel Hf. pose proof (unquoteStep_rest _ _ _ Hs). destruct fuel as [|fuel]; [lia|]. cbn [unquoteLoop].
  rewrite Hs, Hr by lia. done.
Qed.

Lemma reads_quote r : reads (0x22 :: r) [] r.
Proof. intros [|fuel] Hf; [lia|]. done. Qed.

Lemma reads_copy bs rest d r : Forall (λ c, c ≠ 0x22 ∧ c ≠ 0x5c) bs → reads rest d r → reads (bs ++ rest) (bs ++ d) r.
Proof.
  intros H Hr. induction H as [|c bs [H1 H2] _ IH]; [done|]. apply (reads_step _ [c] (bs ++ rest)); [|done].
  cbn [app]. unfold unquoteStep. repeat case_match; simplify_eq; try done; lia.
Qed.

Lemma hexDigitToByte_lowerhex d : 0 <= d < 16 → hexDigitToByte (lowerhex d) = Some d.
Proof.
  intros Hd. assert (forallb (λ d, bool_decide (hexDigitToByte (lowerhex d) = Some d)) (seqZ 0 16) = true) as H by by vm_compute.
  rewrite forallb_forall in H. eapply bool_decide_eq_true_1, H, list_elem_of_In, elem_of_seqZ. lia.
Qed.

Lemma readHex_snoc k : ∀ s c t acc, length s = k →
  readHex (S k) (s ++ c :: t) acc = ('(v, _) ← readHex k s acc; d ← hexDigitToByte c; Some (v * 16 + d, t)).
Proof.
  induction k as [|k IH]; intros s c t acc Hl.
  - destruct s; [|done]. cbn. by destruct (hexDigitToByte c).
  - destruct s as [|x s]; [done|]. cbn in Hl. cbn [app readHex] in *. destruct (hexDigitToByte x) as [d|]; cbn; [|done].
    apply IH. lia.
Qed.

Lemma hexText_length k v : length (hexText k v) = k.
Proof. revert v. induction k; intros v; [done|]. cbn. rewrite length_app, IHk. cbn. lia. Qed.

Lemma readHex_nil k : ∀ s acc v r t, readHex k s acc = Some (v, r) → readHex k (s ++ t) acc = Some (v, r ++ t).
Proof.
  induction k as [|k IH]; intros s acc v r t; cbn [readHex]; [by intros [= <- <-]|]. destruct s as [|c s]; [done|]. cbn [app].
  destruct (hexDigitToByte c); cbn; [apply IH|done].
Qed.

Lemma readHex_hexText k : ∀ v t, 0 <= v < 16 ^ Z.of_nat k → readHex k (hexText k v ++ t) 0 = Some (v, t).
Proof.
  induction k as [|k IH]; intros v t Hv; [cbn in *; f_equal; f_equal; lia|].
  cbn [hexText]. rewrite <- app_assoc. cbn [app]. rewrite readHex_snoc by apply hexText_length.
  rewrite <- (app_nil_r (hexText k (v / 16))), IH.
  - cbn. rewrite hexDigitToByte_lowerhex by dlia. cbn. do 2 f_equal. dlia.
  - rewrite Nat2Z.inj_succ, Z.pow_succ_r in Hv by lia. split; [dlia|]. apply Z.div_lt_upper_bound; lia.
Qed.

Section roundtrip.
Context `{P : !Printable}.

Lemma controlLetter_inv r c : controlLetter r = Some c → letterControl c = Some r.
Proof. unfold controlLetter. repeat case_match; intros [= <-]; cbn; repeat f_equal; lia. Qed.

Lemma EncodeRune_high r : RuneSelf <= r → Forall (λ c, c ≠ 0x22 ∧ c ≠ 0x5c) (EncodeRune r).
Proof.
  unfold RuneSelf, EncodeRune, encode3, RuneError. intros Hr. destruct (in_range 0 r 0x7F) eqn:E; [unfold in_range in E; lia|].
  repeat case_match; repeat (apply Forall_cons; split); try apply Forall_nil_2; unfold in_range in *; dlia.
Qed.

Lemma reads_escape r rest d t : valid_rune r → reads rest d t → reads (escapeRune r ++ rest) (EncodeRune r ++ d) t.
Proof.
  intros Hv Hr. assert (0 <= r <= 0x10ffff) as Hb by (unfold valid_rune in Hv; lia). unfold escapeRune.
  destruct ((r =? 0x22) || (r =? 0x5c)) eqn:E1.
  { apply (reads_step _ (EncodeRune r) rest); [|done]. assert (r = 0x22 ∨ r = 0x5c) as [->| ->] by lia; done. }
  destruct (IsPrint r) eqn:E2.
  { apply reads_copy; [|done]. destruct (decide (RuneSelf <= r)) as [H|H]; [by apply EncodeRune_high|].
    unfold EncodeRune. replace (in_range 0 r 0x7F) with true by (unfold in_range, RuneSelf in *; lia).
    apply Forall_cons. split; [lia|apply Forall_nil_2]. }
  destruct (controlLetter r) as [c|] eqn:E3.
  { apply (reads_step _ (EncodeRune r) rest); [|done]. cbn [app unquoteStep]. rewrite (controlLetter_inv _ _ E3).
    do 2 f_equal. unfold EncodeRune. unfold controlLetter in E3. replace (in_range 0 r 0x7F) with true; [done|].
    unfold in_range. repeat case_match; lia || done. }
  destruct ((r <? 0x20) || (r =? 0x7f)) eqn:E4.
  { apply (reads_step _ (EncodeRune r) rest); [|done]. rewrite <- app_assoc.
    change (unquoteStep (str "\x" ++ hexText 2 r ++ rest)) with ('(v, s) ← readHex 2 (hexText 2 r ++ rest) 0; Some ([v], s)).
    rewrite readHex_hexText by (cbn; lia). cbn. do 2 f_equal. unfold EncodeRune.
    by replace (in_range 0 r 0x7F) with true by (unfold in_range; lia). }
  destruct (r <? 0x10000) eqn:E5; (apply (reads_step _ (EncodeRune r) rest); [|done]); rewrite <- app_assoc.
  - change (unquoteStep (str "\u" ++ hexText 4 r ++ rest)) with ('(v, s) ← readHex 4 (hexText 4 r ++ rest) 0; Some (EncodeRune v, s)).
    by rewrite readHex_hexText by (cbn; lia).
  - change (unquoteStep (str "\U" ++ hexText 8 r ++ rest)) with ('(v, s) ← readHex 8 (hexText 8 r ++ rest) 0; Some (EncodeRune v, s)).
    by rewrite readHex_hexText by (cbn; lia).
Qed.

Lemma reads_piece rb rest d t : rune_of rb → reads rest d t → reads (escapePiece rb ++ rest) (rb.2 ++ d) t.
Proof.
  intros Hrb Hr. destruct Hrb as [b Hb|b Hb|r b Hv Hge He Hl]; cbn [escapePiece snd].
  - unfold RuneSelf in Hb. assert (b =? RuneError = false) as -> by (unfold RuneError; lia).
    assert (EncodeRune b = [b]) as He by (unfold EncodeRune; by replace (in_range 0 b 0x7F) with true by (unfold in_range; lia)).
    rewrite <- He. apply reads_escape; [|done]. unfold valid_rune. lia.
  - cbn [Z.eqb]. rewrite Z.eqb_refl. apply (reads_step _ [b] rest); [|done]. rewrite <- app_assoc.
    change (unquoteStep (str "\x" ++ hexText 2 b ++ rest)) with ('(v, s) ← readHex 2 (hexText 2 b ++ rest) 0; Some ([v], s)).
    unfold RuneSelf in Hb. by rewrite readHex_hexText by (cbn; lia).
  - subst b. destruct (EncodeRune r) as [|x [|y l]] eqn:E; cbn in Hl; [lia..|]. rewrite <- E. by apply reads_escape.
Qed.

(** Quoting: the reader gets the text back and stops at the closing quote, whatever
    follows. *)
Theorem unquote_Quote s rest : wf_bytes s → unquote (Quote s ++ rest) = Some (s, rest).
Proof.
  intros Hs. assert (reads (flat_map escapePiece (runes s) ++ 0x22 :: rest) (concat (runes s).*2) rest) as H.
  { pose proof (runes_of s Hs) as H. induction H as [|rb l Hrb _ IH]; [apply reads_quote|].
    cbn [flat_map fmap list_fmap concat]. rewrite <- app_assoc. by apply reads_piece. }
  rewrite runes_concat in H. unfold Quote, unquote. cbn [app]. rewrite <- app_assoc. cbn [app]. apply H. lia.
Qed.
End roundtrip.

(** ** The fields of an entry are read back *)

Definition readField (s : bytes) : option (bytes * bytes * bytes) :=
  match s with
  | 0x5b :: s =>
      let '(name, r, found) := Cut s 0x20 in
      if found : bool then
        '(value, r) ← unquote r;
        match r with 0x5d :: r => Some (name, value, r) | _ => None end
      else None
  | _ => None
  end.

(** Fields, with blanks between them. *)
Fixpoint readFields (fuel : nat) (s : bytes) : option (list (bytes * bytes)) :=
  match s, fuel with
  | [], _ => Some []
  | _, O => None
  | c :: s', S fuel =>
      if c =? 0x20 then readFields fuel s'
      else '(f, r) ← readField s; l ← readFields fuel r; Some (f :: l)
  end.

(** The fields of the details, and of the further data. *)
Definition details (mr : MatchedRule) (md : MatchData) : list (bytes * bytes) :=
  let r := mr.(mr_Rule) in
  [(str "file", r.(File_)); (str "line", Itoa r.(Line_)); (str "id", Itoa r.(ID_)); (str "rev", r.(Rev_));
   (str "msg", cutMessage md.(Message_)); (str "data", cutMessage md.(Data_)); (str "severity", severityString r.(Severity_));
   (str "ver", r.(Version_)); (str "maturity", Itoa r.(Maturity_)); (str "accuracy", Itoa r.(Accuracy_))] ++
  ((λ t, (str "tag", t)) <$> r.(Tags_)) ++
  [(str "hostname", mr.(mr_ServerIPAddress)); (str "uri", mr.(mr_URI)); (str "unique_id", mr.(mr_TransactionID))].

Fixpoint extras (mds : list MatchData) (n : Z) : list (bytes * bytes) :=
  match mds with
  | [] => []
  | md :: mds =>
      (if negb (md.(Message_) =s []) || negb (md.(Data_) =s [])
       then [(str "msg_match_" ++ Itoa n, cutMessage md.(Message_)); (str "data_match_" ++ Itoa n, cutMessage md.(Data_))]
       else []) ++ extras mds (n + 1)
  end.

(** The texts are byte strings. *)
Record wf_matched (mr : MatchedRule) : Prop := {
  wm_rule : wf_bytes mr.(mr_Rule).(File_) ∧ wf_bytes mr.(mr_Rule).(Rev_) ∧ wf_bytes mr.(mr_Rule).(Version_);
  wm_tags : Forall (λ t, wf_bytes t) mr.(mr_Rule).(Tags_);
  wm_request : wf_bytes mr.(mr_ServerIPAddress) ∧ wf_bytes mr.(mr_URI) ∧ wf_bytes mr.(mr_TransactionID);
  wm_datas : Forall (λ md, wf_bytes md.(Message_) ∧ wf_bytes md.(Data_)) mr.(mr_MatchedDatas);
}.

Section fields.
Context `{P : !Printable}.

(** Whatever the fuel, the fields of a text. *)
Definition parses (s : bytes) (l : list (bytes * bytes)) : Prop :=
  ∀ fuel, (length s ≤ fuel)%nat → readFields fuel s = Some l.

Lemma parses_nil : parses [] [].
Proof. by intros [|fuel] _. Qed.

Lemma parses_space s l : parses s l → parses (str " " ++ s) l.
Proof. intros H [|fuel] Hf; cbn in Hf; [lia|]. cbn. apply H. lia. Qed.

Lemma parses_field name value s l : Forall (λ c, c ≠ 0x20) name → wf_bytes value → parses s l →
  parses (logField name value ++ s) ((name, value) :: l).
Proof.
  intros Hn Hv Hs fuel Hf. assert (readField (logField name value ++ s) = Some (name, value, s)) as Hr.
  { unfold logField. rewrite <- !app_assoc. change (str "[" ++ ?x) with (0x5b :: x). change (str " " ++ ?x) with (0x20 :: x).
    cbn [app readField]. rewrite Cut_first by done. rewrite unquote_Quote by done. done. }
  destruct fuel as [|fuel]; [cbn in Hf; lia|]. unfold logField in *. cbn [app readFields] in *.
  change (str "[" ++ ?x) with (0x5b :: x) in *. cbn [app] in *. cbn [readFields]. change (0x5b =? 0x20) with false. cbv iota.
  rewrite Hr. cbn [mbind option_bind]. rewrite Hs; [done|]. cbn [length] in Hf. rewrite length_app in Hf. lia.
Qed.

Lemma cutMessage_wf s : wf_bytes s → wf_bytes (cutMessage s).
Proof. apply Forall_take. Qed.

Lemma severityString_wf rs : wf_bytes (severityString rs).
Proof. unfold severityString. repeat case_match; by apply wf_bytesb_true. Qed.

Lemma name_ok name : forallb (λ c, negb (c =? 0x20)) name = true → Forall (λ c, c ≠ 0x20) name.
Proof. rewrite forallb_forall. intros H. apply Forall_forall. intros c Hc%list_elem_of_In%H. lia. Qed.

Lemma parses_tags tags s l : Forall (λ t, wf_bytes t) tags → parses s l →
  parses (flat_map (λ t, str " " ++ logField (str "tag") t) tags ++ s) (((λ t, (str "tag", t)) <$> tags) ++ l).
Proof.
  intros Ht Hs. induction Ht as [|t tags Ht _ IH]; [done|]. cbn [flat_map fmap list_fmap]. rewrite <- !app_assoc.
  apply parses_space, parses_field; [by apply name_ok|done|done].
Qed.

Lemma parses_details mr md s l : wf_matched mr → wf_bytes md.(Message_) → wf_bytes md.(Data_) → parses s l →
  parses (writeDetails mr md ++ s) (details mr md ++ l).
Proof.
  intros [(Hf & Hrev & Hver) Ht (Hh & Hu & Hid) _] Hm Hd Hs. unfold writeDetails, details. cbv zeta.
  rewrite <- !app_assoc. cbn [app].
  do 9 (apply parses_field; [by apply name_ok|auto using cutMessage_wf, severityString_wf, Itoa_wf|]; apply parses_space).
  apply parses_field; [by apply name_ok|apply Itoa_wf|]. apply parses_tags; [done|]. cbn [app].
  do 3 (apply parses_space, parses_field; [by apply name_ok|done|]). done.
Qed.

Lemma Itoa_no_space n : 0 <= n → Forall (λ c, c ≠ 0x20) (Itoa n).
Proof. intros Hn. destruct (Itoa_digits n Hn) as [_ H]. eapply Forall_impl; [exact H|]. intros c Hc. unfold isDigit in Hc. lia. Qed.

Lemma parses_extras mds : Forall (λ md, wf_bytes md.(Message_) ∧ wf_bytes md.(Data_)) mds → ∀ n, 0 <= n →
  parses (extraDetails mds n) (extras mds n).
Proof.
  induction 1 as [|md mds [Hm Hd] _ IH]; intros n Hn; [apply parses_nil|]. cbn [extraDetails extras].
  destruct (negb _ || negb _); [|apply IH; lia]. unfold writeExtraRuleDetails. rewrite <- !app_assoc. cbn [app].
  assert (∀ s, forallb (λ c, negb (c =? 0x20)) s = true → Forall (λ c, c ≠ 0x20) (s ++ Itoa n)) as Hname.
  { intros s Hs. apply Forall_app. split; [by apply name_ok|by apply Itoa_no_space]. }
  apply parses_field; [by apply Hname|by apply cutMessage_wf|]. apply parses_space.
  apply parses_field; [by apply Hname|by apply cutMessage_wf|]. apply IH. lia.
Qed.

(** C18: An error log entry: after the client, the kind of disruption and the message,
    which is not quoted, the rest can be read back field by field, whatever
    the request and the rule put into the fields.  A match without data panics. *)
Theorem ErrorLog_fields mr : wf_matched mr →
  match mr.(mr_MatchedDatas) with
  | [] => ErrorLog mr = Panic
  | md :: mds => ∃ message fields,
      ErrorLog mr = Done (logPrefix mr ++ message ++ str " " ++ fields) ∧ (length message ≤ maxSizeLogMessage)%nat ∧
      readFields (length fields) fields = Some (details mr md ++ extras mds 1)
  end.
Proof.
  intros Hwf. unfold ErrorLog. pose proof (wm_datas _ Hwf) as Hd. destruct (mr_MatchedDatas mr) as [|md mds]; [done|].
  eexists _, _. split; [done|]. split; [unfold cutMessage; rewrite length_take; lia|].
  apply Forall_cons in Hd as [[Hm Hda] Hd]. apply parses_details; [done..| |lia]. by apply parses_extras.
Qed.
End fields.

(** ** An example *)

Definition asciiPrintable : Printable := {| IsPrint r := in_range 0x20 r 0x7e; IsPrint_ascii _ _ := eq_refl |}.

Definition exampleMatched : MatchedRule :=
  mkMatchedRule (str "SQL") [] (str "/a") (str "id1") true DisruptiveActionDeny true true (str "10.0.0.1") (str "10.0.0.2")
    [mkMatchData V.Args (str "q") (str "x") (str "SQL") ([0x22] ++ str "] [id " ++ [0x22] ++ str "1") 0]
    (mkRuleMetadata 942 [] (str "crs.conf") 7 [] 2 (str "4.0") [str "sqli"] 0 0 (str "@rx x") 2 [] [] 0).

Lemma ErrorLog_fields_witness :
  ∃ message fields, @ErrorLog asciiPrintable exampleMatched = Done (@logPrefix asciiPrintable exampleMatched ++ message ++ str " " ++ fields) ∧
    readFields (length fields) fields =
      Some (details exampleMatched (mkMatchData V.Args (str "q") (str "x") (str "SQL") ([0x22] ++ str "] [id " ++ [0x22] ++ str "1") 0)).
Proof.
  destruct (@ErrorLog_fields asciiPrintable exampleMatched) as (message & fields & E & _ & H).
  - split; cbn [exampleMatched mr_Rule mr_ServerIPAddress mr_URI mr_TransactionID mr_MatchedDatas File_ Rev_ Version_ Tags_].
    + split; [|split]; apply wf_bytesb_true; reflexivity.
    + apply Forall_cons. split; [apply wf_bytesb_true; reflexivity|apply Forall_nil_2].
    + split; [|split]; apply wf_bytesb_true; reflexivity.
    + apply Forall_cons. split; [split; apply wf_bytesb_true; reflexivity|apply Forall_nil_2].
  - exists message, fields. split; [exact E|]. rewrite H. cbn [extras]. rewrite app_nil_r. reflexivity.
Defined.
