(* ===== verification/Rx.v ===== *)
(** The operator @rx: src/internal/operators/rx.go.

    The packages regexp, go-re2 and rsc.io/binaryregexp are parameters: an
    expression that is compiled is its two functions.  What is proved is that
    everything done before the expression is tried (the minimum length, the
    comparison with one literal, the filters and the faster package) changes
    nothing of the operator's result and of what it captures. *)

From S2P Require Import Prelude GoLib StringUtil TextTransform Matchers TransactionCaches Prefilter RxBinary.
From S2P Require Import Variables Types Collections TransactionState.

(** ** Compiled expressions *)

Record Regexp := mkRegexp {
  MatchString : bytes → bool;
  FindStringSubmatchIndex : bytes → option (list Z);
}.

Record rx := mkRx {
  rx_re : Regexp;
  rx_accelerated : option Regexp;
  rx_minLen : Z;
  rx_prefilter : option filter_;
  rx_stateFilter : option stateFilter;
  rx_exactMatch : bytes;
  rx_exactMatchCI : bool;
}.

Record binaryRX := mkBinaryRX {
  brx_re : Regexp;
  brx_prefilter : option binaryRequiredPrefilter;
}.

Inductive rxOperator := RX (o : rx) | BinaryRX (o : binaryRX).

Definition acceleratedRXMinInputBytes : nat := 512.

Section evaluation.
Context `{U : !Unicode} `{F : !UnicodeFold}.

(** ** Captures *)

(** [value[a:b]] *)
Definition substring (value : bytes) (a b : Z) : run bytes :=
  if b <? 0 then Panic else slice value (Z.to_nat a) (Z.to_nat b).

(** The loop of [captureRXMatch], from [index]. *)
Fixpoint captureLoop (pairs : nat) (index : nat) (value : bytes) (match_ : list Z) (tx : Transaction) : run Transaction :=
  match pairs with
  | 0%nat => Done tx
  | S pairs =>
      if (index =? 9)%nat then Done tx
      else
        start ← Prelude.index match_ (2 * index)%nat;
        if start >=? 0 then
          end_ ← Prelude.index match_ (2 * index + 1)%nat;
          field ← substring value start end_;
          captureLoop pairs (index + 1) value match_ (CaptureField (Z.of_nat index) field tx)
        else captureLoop pairs (index + 1) value match_ (CaptureField (Z.of_nat index) [] tx)
  end.

Definition captureRXMatch (tx : Transaction) (value : bytes) (match_ : option (list Z)) : run (Transaction * bool) :=
  match match_ with
  | None => Done (tx, false)
  | Some match_ => tx ← captureLoop (length match_ / 2) 0 value match_ tx; Done (tx, true)
  end.

(** The result of an expression, with its captures. *)
Definition tryRegexp (re : Regexp) (tx : Transaction) (value : bytes) : run (Transaction * bool) :=
  if tx.(tx_Capture) then captureRXMatch tx value (FindStringSubmatchIndex re value)
  else Done (tx, MatchString re value).

(** ** Evaluation *)

(** [strings.EqualFold]: the same number of runes, each in the orbit of the
    other. *)
Fixpoint equalFoldRunes (s t : list Z) : bool :=
  match s, t with
  | [], [] => true
  | sr :: s, tr :: t => foldEq tr sr && equalFoldRunes s t
  | _, _ => false
  end.
Definition EqualFold (s t : bytes) : bool := equalFoldRunes (runes s).*1 (runes t).*1.

(** The filter that is used, if there is one. *)
Definition filtered (o : rx) (cache : option presenceCache) (value : gostring) : run (bool * option presenceCache) :=
  match o.(rx_stateFilter) with
  | Some stateFilter => stateFilter cache value
  | None =>
      match o.(rx_prefilter) with
      | Some prefilter => ok ← prefilter value.(go_val); Done (ok, cache)
      | None => Done (true, cache)
      end
  end.

Definition Evaluate (o : rx) (tx : Transaction) (cache : option presenceCache) (value : gostring)
    : run (Transaction * bool * option presenceCache) :=
  let v := value.(go_val) in
  if Z.of_nat (length v) <? o.(rx_minLen) then Done (tx, false, cache)
  else if negb (o.(rx_exactMatch) =s []) && negb tx.(tx_Capture) && negb (containsByte v 0x0a) then
    Done (tx, if o.(rx_exactMatchCI) then EqualFold v o.(rx_exactMatch) else v =s o.(rx_exactMatch), cache)
  else
    '(ok, cache) ← filtered o cache value;
    if negb ok then Done (tx, false, cache)
    else
      fast ← match o.(rx_accelerated) with
             | Some accelerated =>
                 if (acceleratedRXMinInputBytes <=? length v)%nat then
                   ascii ← isASCII v; Done (if (ascii : bool) then Some accelerated else None)
                 else Done None
             | None => Done None
             end;
      '(tx, b) ← tryRegexp (default o.(rx_re) fast) tx v;
      Done (tx, b, cache).

Definition binaryEvaluate (o : binaryRX) (tx : Transaction) (cache : option presenceCache) (value : gostring)
    : run (Transaction * bool * option presenceCache) :=
  '(ok, cache) ← match o.(brx_prefilter) with
                 | Some f => possible f cache value
                 | None => Done (true, cache)
                 end;
  if negb ok then Done (tx, false, cache)
  else '(tx, b) ← tryRegexp o.(brx_re) tx value.(go_val); Done (tx, b, cache).

End evaluation.

(** ** Bytes in expressions *)

(** [strconv.UnquoteChar] of an escape that begins with a backslash and x: the
    byte of its two hexadecimal digits. *)
Definition unquoteHex (digits : bytes) : option Z :=
  match digits with
  | a :: b :: _ =>
      match hexDigitToByte a, hexDigitToByte b with
      | Some x, Some y => Some (x * 16 + y)
      | _, _ => None
      end
  | _ => None
  end.

(** The loop of [matchesArbitraryBytes] on what is left of the expression. *)
Fixpoint decodeEscapes (fuel : nat) (sub : bytes) (decoded : bytes) : run bytes :=
  match fuel with
  | 0%nat => match sub with [] => Done decoded | _ => OutOfFuel end
  | S fuel =>
      match sub with
      | [] => Done decoded
      | c :: rest =>
          if negb (c =? 0x5c) then decodeEscapes fuel rest (decoded ++ [c])
          else if (length sub <=? 3)%nat then Done (decoded ++ sub)
          else if negb (nth 1 sub 0 =? 0x78) then decodeEscapes fuel rest (decoded ++ [c])
          else
            '(digits, advance) ←
              (if (6 <=? length sub)%nat && (nth 2 sub 0 =? 0x7b) then
                 match IndexByte sub 0x7d with
                 | Some end_ => digits ← slice sub 3 end_; Done (digits, end_)
                 | None => Done (drop 2 sub, 3%nat)
                 end
               else Done (drop 2 sub, 3%nat));
            match unquoteHex digits with
            | None => decodeEscapes fuel rest (decoded ++ [c])
            | Some v => decodeEscapes fuel (drop (advance + 1) sub) (decoded ++ [v])
            end
      end
  end.

Definition matchesArbitraryBytes (expr : bytes) : run bool :=
  decoded ← decodeEscapes (length expr) expr [];
  Done (negb (ValidString decoded)).

(** ** Construction *)

Section construction.
Context `{U : !Unicode} `{F : !UnicodeFold}.

(** [regexp.Compile], [regexp/syntax.Parse] with the flags of Perl followed by
    [Simplify], and the same of the other packages; [None] is an error. *)
Context (Compile : bytes → option Regexp) (Parse : bytes → option regexp).
Context (compileAcceleratedRegexp : bytes → option Regexp).
Context (binaryCompile : bytes → option Regexp) (binaryParse : bytes → option regexp).

(** The build tag that keeps expressions on one line. *)
Context (shouldNotUseMultilineRegexesOperatorByDefault : bool).

Definition newBinaryRX (arguments : bytes) (rxPreFilterEnabled : bool) : option binaryRX :=
  re ← binaryCompile arguments;
  Some (mkBinaryRX re (if rxPreFilterEnabled then compileBinaryRequiredPrefilter (binaryParse arguments) else None)).

Definition rxData (arguments : bytes) : bytes :=
  (if shouldNotUseMultilineRegexesOperatorByDefault then str "(?s)" else str "(?sm)") ++ arguments.

(** [None] when the expression has no parse. *)
Definition newRX (arguments : bytes) (rxPreFilterEnabled : bool) : run (option rxOperator) :=
  let data := rxData arguments in
  binary ← matchesArbitraryBytes data;
  if (binary : bool) then Done (BinaryRX <$> newBinaryRX arguments rxPreFilterEnabled)
  else
    match Compile data with
    | None => Done None
    | Some re =>
        if rxPreFilterEnabled then
          filters ← compilePrefilter (Parse data);
          let '(lit, ci) := match Parse arguments with Some orig => extractExactMatch orig | None => ([], false) end in
          Done (Some (RX (mkRx re (compileAcceleratedRegexp data) (minMatchLength (Parse data))
                            filters.(pf_match) filters.(pf_matchWithState) lit (if lit =s [] then false else ci))))
        else Done (Some (RX (mkRx re None 0 None None [] false)))
    end.
End construction.

(** ** Escapes *)

Lemma escapeDigits_ok c rest : c = 0x5c → nth 1 (c :: rest) 0 = 0x78 →
  wp (if (6 <=? length (c :: rest))%nat && (nth 2 (c :: rest) 0 =? 0x7b) then
        match IndexByte (c :: rest) 0x7d with
        | Some end_ => digits ← slice (c :: rest) 3 end_; Done (digits, end_)
        | None => Done (drop 2 (c :: rest), 3%nat)
        end
      else Done (drop 2 (c :: rest), 3%nat)) (λ _, True).
Proof.
  intros -> Hx. destruct (_ && _) eqn:E; [|done]. apply andb_prop in E as [E1 E2].
  destruct (IndexByte (0x5c :: rest) 0x7d) as [e|] eqn:Ee; [|done].
  pose proof (IndexByte_lt _ _ _ Ee) as Hlt. apply IndexByte_Some in Ee as [He _].
  rewrite slice_ok; [done|]. split; [|lia]. destruct rest as [|b [|a rest]]; cbn [length Nat.leb nth] in *; try done.
  destruct e as [|[|[|e]]]; cbn in He; simplify_eq; lia.
Qed.

Lemma decodeEscapes_ok fuel : ∀ sub decoded, (length sub ≤ fuel)%nat → wp (decodeEscapes fuel sub decoded) (λ _, True).
Proof.
  induction fuel as [|fuel IH]; intros sub decoded Hl; [by destruct sub; [|cbn in Hl; lia]|].
  destruct sub as [|c rest]; cbn [decodeEscapes]; [done|]. cbn [length] in Hl.
  destruct (Z.eqb_spec c 0x5c) as [Ec|]; cbn [negb]; [|apply IH; lia]. destruct (_ <=? 3)%nat; [done|].
  destruct (Z.eqb_spec (nth 1 (c :: rest) 0) 0x78) as [Ex|]; cbn [negb]; [|apply IH; lia].
  destruct (wp_elim _ _ (escapeDigits_ok c rest Ec Ex)) as ([digits advance] & -> & _). cbn [mbind run_bind].
  destruct (unquoteHex digits); [|apply IH; lia]. apply IH. rewrite Nat.add_1_r. cbn [drop]. rewrite length_drop. lia.
Qed.

Lemma matchesArbitraryBytes_ok expr : ∃ b, matchesArbitraryBytes expr = Done b.
Proof.
  unfold matchesArbitraryBytes. destruct (wp_elim _ _ (decodeEscapes_ok (length expr) expr [] (le_n _))) as (d & -> & _). by eexists.
Qed.

(** ** Captures *)

Section captures.
Context `{U : !Unicode}.

(** The indices of the parts of a match: negative, or in the input. *)
Definition pairs_ok (value : bytes) (m : list Z) : Prop :=
  ∀ i, (2 * i + 1 < length m)%nat →
    m !!! (2 * i)%nat < 0 ∨ 0 <= m !!! (2 * i)%nat <= m !!! (2 * i + 1)%nat ∧ m !!! (2 * i + 1)%nat <= Z.of_nat (length value).

(** The part of a group; empty when it has none. *)
Definition group (value : bytes) (m : list Z) (i : nat) : bytes :=
  if m !!! (2 * i)%nat <? 0 then []
  else take (Z.to_nat (m !!! (2 * i + 1)%nat) - Z.to_nat (m !!! (2 * i)%nat)) (drop (Z.to_nat (m !!! (2 * i)%nat)) value).

Lemma captureLoop_eq value m pairs : pairs_ok value m → ∀ index tx, (2 * (index + pairs) ≤ length m)%nat → (index ≤ 9)%nat →
  captureLoop pairs index value m tx =
  Done (foldl (λ tx i, CaptureField (Z.of_nat i) (group value m i) tx) tx (seq index (pairs `min` (9 - index)))).
Proof.
  intros Hm. induction pairs as [|pairs IH]; intros index tx Hl Hi; cbn [captureLoop]; [done|].
  destruct (Nat.eqb_spec index 9) as [->|Hne]; [done|]. rewrite (index_lt m (2 * index)) by lia. cbn [mbind run_bind].
  replace (S pairs `min` (9 - index))%nat with (S (pairs `min` (9 - (index + 1))))%nat by lia. cbn [seq foldl].
  rewrite <- (Nat.add_1_r index). destruct (Z.geb_spec (m !!! (2 * index)%nat) 0) as [Hge|Hlt].
  - rewrite index_lt by lia. cbn [mbind run_bind]. destruct (Hm index) as [?|[H1 H2]]; [lia|lia|]. unfold substring.
    destruct (Z.ltb_spec (m !!! (2 * index + 1)%nat) 0); [lia|]. rewrite slice_ok by lia. cbn [mbind run_bind].
    rewrite IH by lia. unfold group at 3. by destruct (Z.ltb_spec (m !!! (2 * index)%nat) 0); [lia|].
  - rewrite IH by lia. unfold group at 3. by destruct (Z.ltb_spec (m !!! (2 * index)%nat) 0); [|lia].
Qed.

(** When an expression with captures matches, the fields 0 to 8 of TX are
    the whole match and its first eight groups, each the part of the input
    between its indices and empty for a group that took no part; later groups
    are not captured, and no index is out of range. *)
Theorem captureRXMatch_groups tx value m :
  pairs_ok value m →
  captureRXMatch tx value (Some m) =
  Done (foldl (λ tx i, CaptureField (Z.of_nat i) (group value m i) tx) tx (seq 0 (Nat.min (length m / 2) 9)), true).
Proof.
  intros Hm. cbn [captureRXMatch]. rewrite captureLoop_eq; [done|done| |lia]. cbn [plus]. pose proof (Nat.div_mod_eq (length m) 2). lia.
Qed.
End captures.

(** ** The comparison with one literal *)

Section exact.
Context `{F : !UnicodeFold}.

Lemma runes_flat_encode rs : Forall valid_rune rs → (runes (flat_map EncodeRune rs)).*1 = rs.
Proof. induction 1 as [|r rs Hr _ IH]; [done|]. cbn [flat_map]. rewrite runes_encode by done. cbn. by f_equal. Qed.

Lemma equalFoldRunes_spec rs s : equalFoldRunes s rs = true ↔ Forall2 (runeMatches true) rs s.
Proof.
  revert rs. induction s as [|c s IH]; intros [|r rs]; cbn [equalFoldRunes].
  - split; [constructor|done].
  - split; [done|]. intros H. inversion H.
  - split; [done|]. intros H. inversion H.
  - rewrite andb_true_iff, IH. split; [intros [? ?]; by constructor|]. by intros [? ?]%Forall2_cons.
Qed.

Lemma runeMatches_eq rs s : Forall2 (runeMatches false) rs s ↔ rs = s.
Proof.
  split; [induction 1 as [|? ? ? ? E _ IH]; [done|by cbn in E; f_equal]|]. intros ->. induction s; constructor; done.
Qed.

Lemma endText_inv fl pre mid post : matches (OpEndText fl) pre mid post → mid = [] ∧ post = [].
Proof. intros H. by inversion H. Qed.

Lemma anchored_matches fl fl1 fl2 fl3 rs s :
  Matches (OpConcat fl [OpBeginText fl1; OpLiteral fl2 rs; OpEndText fl3]) s ↔ Forall2 (runeMatches fl2) rs (runes s).*1.
Proof.
  split.
  - intros (pre & mid & post & E & H). inversion H as [| | | | | | | | | | | | | | | | | | | |? ? ? ? ? ? ? H1 H2|]; subst; clear H.
    inversion H1; subst. inversion H2 as [| | | | | | | | | | | | | | | | | | | |? ? ? ? ? ? ? H3 H4|]; subst.
    inversion H4 as [| | | | | | | | | | | | | | | | | | | |? ? ? ? ? ? ? H5 H6|]; subst. inversion H6; subst.
    apply endText_inv in H5 as [-> Hp]. cbn [app] in Hp. subst post. inversion H3; subst. rewrite E. cbn [app]. by rewrite !app_nil_r.
  - intros H. exists [], (runes s), []. split; [by rewrite app_nil_r|]. apply (m_concat1 _ _ _ [] [] (runes s) []); [constructor|].
    rewrite <- (app_nil_r (runes s)). apply m_concat1; [by constructor|]. apply (m_concat1 _ _ _ _ [] []); constructor.
Qed.

(** The runes of the literals are scalar values. *)
Definition scalar (re : regexp) : Prop := literals_all (λ _ rs, Forall valid_rune rs) re.

Lemma exactMatch_spec re : ∀ lit ci s, extractExactMatch re = (lit, ci) → lit ≠ [] → scalar re → wf_bytes s →
  (if ci then EqualFold s lit else s =s lit) = true ↔ Matches re s.
Proof.
  induction re as [re IH] using regexp_nested. intros lit ci s H Hne Hsc Hs.
  destruct re; cbn [extractExactMatch] in H; try by simplify_eq.
  - rewrite (IH lit ci s H Hne Hsc Hs). split; intros (pre & mid & post & E & Hm); exists pre, mid, post; (split; [done|]).
    + by constructor.
    + by inversion Hm.
  - destruct Sub as [|begin Sub]; [by simplify_eq|]. destruct begin; try by simplify_eq.
    destruct Sub as [|middle Sub]; [by simplify_eq|]. destruct middle; try by simplify_eq.
    destruct Sub as [|end_ Sub]; [by simplify_eq|]. destruct end_; try by simplify_eq. destruct Sub; [|by simplify_eq].
    destruct (existsb _ _) eqn:Er; simplify_eq.
    rewrite anchored_matches. cbn in Hsc. destruct Hsc as (_ & Hv & _). destruct ci.
    + unfold EqualFold. by rewrite runes_flat_encode, equalFoldRunes_spec.
    + rewrite runeMatches_eq, bytes_eqb_eq. split; [intros ->; by rewrite runes_flat_encode|]. intros E.
      rewrite <- (exact_literal Rune (runes s)); [|by apply runes_of|done|done]. symmetry. apply runes_concat.
Qed.
End exact.

(** ** The operator *)

(** What the operator relies on of the packages: a compiled expression matches
    as its tree says and has a list of indices exactly when it matches; go-re2
    agrees on ASCII; literals are not empty and have the smallest rune of each
    orbit; and the flags s and m change nothing on an input of one line. *)
Class RegexpLaws `{F : !UnicodeFold} (Compile : bytes → option Regexp) (Parse : bytes → option regexp)
    (compileAcceleratedRegexp : bytes → option Regexp) (oneLine : bool) := {
  law_compile data r : Compile data = Some r → ∃ re, Parse data = Some re;
  law_match data r re s : Compile data = Some r → Parse data = Some re → wf_bytes s → MatchString r s = true ↔ Matches re s;
  law_find data r s : Compile data = Some r → wf_bytes s → FindStringSubmatchIndex r s = None ↔ MatchString r s = false;
  law_accelerated data r a s : Compile data = Some r → compileAcceleratedRegexp data = Some a → wf_bytes s →
    forallb asciiByte s = true →
    MatchString a s = MatchString r s ∧ FindStringSubmatchIndex a s = FindStringSubmatchIndex r s;
  law_literals data re : Parse data = Some re → literals_all (λ fl rs, rs ≠ [] ∧ minimal fl rs) re;
  law_lines arguments re orig s : Parse (rxData oneLine arguments) = Some re → Parse arguments = Some orig → wf_bytes s →
    containsByte s 0x0a = false → Matches re s ↔ Matches orig s;
}.

Lemma literals_all_impl (P Q : bool → list Z → Prop) re : (∀ fl rs, P fl rs → Q fl rs) → literals_all P re → literals_all Q re.
Proof.
  intros H. induction re as [re IH] using regexp_nested. intros Hp. destruct re; cbn [literals_all] in *; auto.
  all: apply foldr_and_Forall; apply foldr_and_Forall in Hp; rewrite Forall_forall in *; auto.
Qed.

Lemma literals_all_and (P Q : bool → list Z → Prop) re : literals_all P re → literals_all Q re → literals_all (λ fl rs, P fl rs ∧ Q fl rs) re.
Proof.
  induction re as [re IH] using regexp_nested. intros Hp Hq. destruct re; cbn [literals_all] in *; auto.
  all: apply foldr_and_Forall; apply foldr_and_Forall in Hp, Hq; rewrite Forall_forall in *; auto.
Qed.

Section operator.
Context `{U : !Unicode} `{F : !UnicodeFold} `{L : !LowerToASCII U}.
Context (Compile : bytes → option Regexp) (Parse : bytes → option regexp).
Context (compileAcceleratedRegexp : bytes → option Regexp).
Context (binaryCompile : bytes → option Regexp) (binaryParse : bytes → option regexp).
Context (oneLine : bool).
Context `{Laws : !RegexpLaws Compile Parse compileAcceleratedRegexp oneLine}.
Notation newRX := (newRX Compile Parse compileAcceleratedRegexp binaryCompile binaryParse oneLine).

(** An expression that does not match changes nothing. *)
Lemma tryRegexp_nomatch data r tx v : Compile data = Some r → wf_bytes v → MatchString r v = false → tryRegexp r tx v = Done (tx, false).
Proof.
  intros Hc Hv Hm. unfold tryRegexp. destruct (tx_Capture tx); [|by rewrite Hm].
  apply (law_find data r v Hc Hv) in Hm. by rewrite Hm.
Qed.

(** The expression alone, with the cache as it was. *)
Definition plain (r : Regexp) (tx : Transaction) (cache : option presenceCache) (v : bytes) : run (Transaction * bool * option presenceCache) :=
  '(tx, b) ← tryRegexp r tx v; Done (tx, b, cache).

Lemma newRX_plain arguments r : matchesArbitraryBytes (rxData oneLine arguments) = Done false → Compile (rxData oneLine arguments) = Some r →
  ∃ o, newRX arguments false = Done (Some (RX o)) ∧ ∀ tx cache value, Evaluate o tx cache value = plain r tx cache value.(go_val).
Proof.
  intros Hb Hc. unfold Rx.newRX. rewrite Hb, Hc. cbn [mbind run_bind]. eexists. split; [done|]. intros tx cache value.
  unfold Evaluate, filtered. cbn [rx_minLen rx_exactMatch rx_stateFilter rx_prefilter rx_accelerated rx_re].
  destruct (Z.ltb_spec (Z.of_nat (length value.(go_val))) 0); [lia|]. cbn. done.
Qed.

(** The faster package gives what the expression gives. *)
Lemma accelerated_same data r a tx v : Compile data = Some r → compileAcceleratedRegexp data = Some a → wf_bytes v →
  forallb asciiByte v = true → tryRegexp a tx v = tryRegexp r tx v.
Proof.
  intros Hc Ha Hv Hascii. destruct (law_accelerated data r a v Hc Ha Hv Hascii) as [H1 H2]. unfold tryRegexp. by rewrite H1, H2.
Qed.

(** The rest of [Evaluate], after the length and the literal. *)
Lemma tryFiltered data r re o tx cache value : Compile data = Some r → Parse data = Some re → prefilter_ok re (mkPrefilter o.(rx_prefilter) o.(rx_stateFilter)) →
  o.(rx_re) = r → o.(rx_accelerated) = compileAcceleratedRegexp data →
  wf_bytes value.(go_val) → tx_ok cache → tx_live value cache →
  ∃ cache', tx_ok cache' ∧
    ('(ok, cache) ← filtered o cache value;
     if negb ok then Done (tx, false, cache)
     else
       fast ← match o.(rx_accelerated) with
              | Some accelerated =>
                  if (acceleratedRXMinInputBytes <=? length value.(go_val))%nat then
                    ascii ← isASCII value.(go_val); Done (if (ascii : bool) then Some accelerated else None)
                  else Done None
              | None => Done None
              end;
       '(tx, b) ← tryRegexp (default o.(rx_re) fast) tx value.(go_val);
       Done (tx, b, cache)) = plain r tx cache' value.(go_val).
Proof.
  intros Hc Hp Hok Hre Hacc Hv Htx Hlive.
  assert (∃ b cache', filtered o cache value = Done (b, cache') ∧ tx_ok cache' ∧ (Matches re value.(go_val) → b = true))
    as (b & cache' & -> & Htx' & Hb).
  { unfold filtered. destruct (rx_stateFilter o) as [sf|] eqn:Es; [by apply (po_state _ _ Hok sf)|].
    destruct (rx_prefilter o) as [f|] eqn:Ef; [|by exists true, cache].
    destruct (po_match _ _ Hok f value.(go_val)) as (b & -> & Hb); [done|done|]. by exists b, cache. }
  exists cache'. split; [done|]. cbn [mbind run_bind]. destruct b; cbn [negb].
  - unfold plain. rewrite Hacc, Hre. destruct (compileAcceleratedRegexp data) as [a|] eqn:Ea; [|done].
    destruct (_ <=? _)%nat; [|done]. rewrite isASCII_eq by done. cbn [mbind run_bind].
    destruct (forallb asciiByte _) eqn:Eascii; [|done]. cbn [default id]. by rewrite (accelerated_same data r a).
  - unfold plain. rewrite (tryRegexp_nomatch data); [done|done|done|].
    apply not_true_iff_false. rewrite (law_match data r re) by done. intros Hm. by apply Hb in Hm.
Qed.

Lemma newRX_eq arguments r re : 
  matchesArbitraryBytes (rxData oneLine arguments) = Done false → Compile (rxData oneLine arguments) = Some r →
  Parse (rxData oneLine arguments) = Some re → literals_all (λ _ rs, 0x130 ∉ rs) re →
  (∀ orig, Parse arguments = Some orig → scalar orig) →
  ∃ o, newRX arguments true = Done (Some (RX o)) ∧
    ∀ tx cache value, wf_bytes value.(go_val) → tx_ok cache → tx_live value cache →
      ∃ cache', tx_ok cache' ∧ Evaluate o tx cache value = plain r tx cache' value.(go_val).
Proof.
  intros Hb Hc Hp Hdot Hsc. pose proof (law_literals _ _ Hp) as Hlit.
  assert (analysable re) as Ha.
  { unfold analysable. eapply literals_all_impl; [|exact (literals_all_and _ _ _ Hlit Hdot)]. intros fl rs [[? _] ?]. done. }
  destruct (compilePrefilter_ok re Ha) as (pf & Hpf & Hok). unfold Rx.newRX. rewrite Hb, Hc, Hp, Hpf. cbn [mbind run_bind].
  destruct (match Parse arguments with Some orig => extractExactMatch orig | None => ([], false) end) as [lit ci] eqn:El.
  eexists. split; [done|]. intros tx cache value Hv Htx Hlive.
  assert (∀ v, wf_bytes v → MatchString r v = true ↔ Matches re v) as Hm by (intros; by eapply law_match).
  unfold Evaluate. cbn [rx_minLen rx_exactMatch rx_exactMatchCI]. cbv zeta.
  destruct (Z.ltb_spec (Z.of_nat (length value.(go_val))) (minMatchLength (Some re))) as [Hlt|_].
  { exists cache. split; [done|]. unfold plain. rewrite (tryRegexp_nomatch _ r tx _ Hc Hv); [done|].
    apply not_true_iff_false. rewrite Hm by done. intros H.
    pose proof (minMatchLength_ok re _ (literals_all_impl _ _ re (λ fl rs H, proj2 H) Hlit) Hv H). lia. }
  destruct (negb (lit =s []) && negb (tx_Capture tx) && negb (containsByte value.(go_val) 0x0a)) eqn:Ex.
  - apply andb_prop in Ex as [[Hne Hcap]%andb_prop Hnl]. apply negb_true_iff in Hne, Hcap, Hnl. rewrite Hne.
    exists cache. split; [done|]. unfold plain, tryRegexp. rewrite Hcap. cbn [mbind run_bind]. do 3 f_equal.
    destruct (Parse arguments) as [orig|] eqn:Eo; [|by simplify_eq]. apply bytes_eqb_neq in Hne.
    apply eq_true_iff_eq. rewrite (exactMatch_spec orig lit ci) by auto. rewrite Hm by done. symmetry. by eapply law_lines.
  - destruct pf as [f sf]. apply (tryFiltered (rxData oneLine arguments) r re (mkRx _ _ _ _ _ _ _) tx cache value); done.
Qed.

(** C6: For an expression on code points (not one on bytes) that compiles, whose
    literals have no U+0130 and, as it is written, no surrogates, with regexp
    packages that behave as documented, and with cached byte sets that are those
    of values that are still live: the operator that is built with the filters,
    the comparison with one literal and the faster package gives the result and
    the captures of the one that is built without them, on every input; it changes
    only the cached byte sets, which stay those of their values. *)
Theorem newRX_transparent arguments r re tx cache value :
  matchesArbitraryBytes (rxData oneLine arguments) = Done false → Compile (rxData oneLine arguments) = Some r →
  Parse (rxData oneLine arguments) = Some re → literals_all (λ _ rs, 0x130 ∉ rs) re →
  (∀ orig, Parse arguments = Some orig → scalar orig) →
  wf_bytes value.(go_val) → tx_ok cache → tx_live value cache →
  ∃ filtered unfiltered cache',
    newRX arguments true = Done (Some (RX filtered)) ∧ newRX arguments false = Done (Some (RX unfiltered)) ∧ tx_ok cache' ∧
    Evaluate filtered tx cache value = ('(tx, b, _) ← Evaluate unfiltered tx cache value; Done (tx, b, cache')).
Proof.
  intros Hb Hc Hp Hdot Hsc Hv Htx Hlive. destruct (newRX_plain arguments r Hb Hc) as (o0 & E0 & H0).
  destruct (newRX_eq arguments r re Hb Hc Hp Hdot Hsc) as (o & E & H). destruct (H tx cache value Hv Htx Hlive) as (cache' & Hok & Ev).
  exists o, o0, cache'. split_and!; [done|done|done|]. rewrite Ev, H0. unfold plain. by destruct (tryRegexp r tx value.(go_val)) as [[? ?]| |].
Qed.

(** The operator on bytes likewise gives with its filter what the
    expression gives alone. *)
Theorem binaryRX_transparent arguments r re tx cache value :
  binaryCompile arguments = Some r → binaryParse arguments = Some re →
  (∀ s, wf_bytes s → MatchString r s = true → BinaryMatches re s) →
  (∀ s, wf_bytes s → FindStringSubmatchIndex r s = None ↔ MatchString r s = false) →
  wf_bytes value.(go_val) → tx_ok cache → tx_live value cache →
  ∃ filtered cache', newBinaryRX binaryCompile binaryParse arguments true = Some filtered ∧ tx_ok cache' ∧
    binaryEvaluate filtered tx cache value = ('(tx, b) ← tryRegexp r tx value.(go_val); Done (tx, b, cache')).
Proof.
  intros Hc Hp Hm Hf Hv Htx Hlive. unfold newBinaryRX. rewrite Hc, Hp. cbn [mbind option_bind].
  assert (MatchString r value.(go_val) = false → tryRegexp r tx value.(go_val) = Done (tx, false)) as Hno.
  { intros E. unfold tryRegexp. destruct (tx_Capture tx); [|by rewrite E]. by rewrite (proj2 (Hf _ Hv) E). }
  destruct (compileBinaryRequiredPrefilter (Some re)) as [f|] eqn:Ef.
  - destruct (possible_ok re f cache value Ef Hv Htx Hlive) as (b & cache' & E & Hok & Hb).
    eexists _, cache'. split; [done|]. split; [done|]. unfold binaryEvaluate. cbn [brx_prefilter brx_re]. rewrite E. cbn [mbind run_bind].
    destruct b; cbn [negb]; [done|]. rewrite Hno; [done|]. apply not_true_iff_false. intros H. by apply Hm, Hb in H.
  - eexists _, cache. split; [done|]. split; [done|]. done.
Qed.
End operator.

(** ** An expression for evaluating the model *)

(** The expression x. *)
Definition exampleX (data : bytes) : bool := (data =s str "x") || (data =s str "(?sm)x").
Definition exampleParse (data : bytes) : option regexp := if exampleX data then Some (OpLiteral false [0x78]) else None.
Definition exampleCompile (data : bytes) : option Regexp :=
  if exampleX data then
    Some (mkRegexp (λ s, containsByte s 0x78)
            (λ s, match IndexByte s 0x78 with Some i => Some [Z.of_nat i; Z.of_nat i + 1] | None => None end))
  else None.

Lemma encode_high r c : RuneSelf <= r → c ∈ EncodeRune r → RuneSelf <= c.
Proof.
  unfold RuneSelf, EncodeRune, encode3, in_range, RuneError. intros Hr. split_ifs; rewrite ?elem_of_cons, elem_of_nil; dlia.
Qed.

Lemma ascii_in_runes c s : 0 <= c < RuneSelf → wf_bytes s → c ∈ s ↔ (c, [c]) ∈ runes s.
Proof.
  intros Hc Hs. pose proof (runes_of s Hs) as Hr. rewrite Forall_forall in Hr. rewrite <- (runes_concat s) at 1. split.
  - intros H. apply list_elem_of_In, in_concat in H as (b & Hb & Hcb). apply list_elem_of_In in Hb, Hcb.
    apply list_elem_of_fmap in Hb as ([r b'] & -> & Hrb). destruct (Hr _ Hrb) as [b Hb|b Hb|r' b Hv Hrs E Hl]; cbn in Hcb.
    + by apply list_elem_of_singleton in Hcb as ->.
    + apply list_elem_of_singleton in Hcb as ->. lia.
    + subst b. apply encode_high in Hcb; [lia|done].
  - intros H. apply list_elem_of_In, in_concat. exists [c]. rewrite <- !list_elem_of_In. split; [|by constructor].
    apply list_elem_of_fmap. by exists (c, [c]).
Qed.

Lemma exampleX_matches `{F : !UnicodeFold} s : wf_bytes s → containsByte s 0x78 = true ↔ Matches (OpLiteral false [0x78]) s.
Proof.
  intros Hs. rewrite containsByte_true, ascii_in_runes by (done || (unfold RuneSelf; lia)). split.
  - intros (pre & post & E)%list_elem_of_split. exists pre, [(0x78, [0x78])], post. split; [done|]. by repeat constructor.
  - intros (pre & mid & post & E & H). inversion H as [|? ? ? ? ? Hm| | | | | | | | | | | | | | | | | | | |]; subst.
    destruct mid as [|[c b] [|p mid]]; cbn in Hm; [by inversion Hm| |by apply Forall2_cons in Hm as [_ Hm]; inversion Hm].
    apply Forall2_cons in Hm as [Hm _]. cbn in Hm. subst c.
    pose proof (runes_of s Hs) as Hr. rewrite E in Hr. apply Forall_app in Hr as [_ [Hr _]%Forall_cons].
    rewrite E. apply elem_of_app. right. apply elem_of_cons. left. pose proof (rune_of_bytes _ Hr) as Hb. cbn in Hb. by rewrite Hb.
Qed.

Instance exampleLaws : @RegexpLaws asciiFold exampleCompile exampleParse (λ _, None) false.
Proof.
  assert (∀ data r, exampleCompile data = Some r → exampleX data = true) as HX by (intros data r; unfold exampleCompile; by destruct (exampleX data)).
  split; unfold exampleParse.
  - intros data r H. rewrite (HX data r H). by eexists.
  - intros data r re s H. pose proof (HX data r H) as E. unfold exampleCompile in H. rewrite E in *. intros [= <-] Hs. injection H as <-.
    by apply exampleX_matches.
  - intros data r s H Hs. pose proof (HX data r H) as E. unfold exampleCompile in H. rewrite E in *. injection H as <-. cbn.
    rewrite <- IndexByte_elem. by destruct (IndexByte s 0x78).
  - done.
  - intros data re. destruct (exampleX data); [|done]. intros [= <-]. by repeat split.
  - intros arguments re orig s. destruct (exampleX _); [|done]. intros [= <-]. destruct (exampleX _); [|done]. by intros [= <-].
Defined.

(** A value of one line and one of two, with x in the second. *)
Definition exampleValue : gostring := mkGo 64 (str "abc" ++ [0x0a] ++ str "xyz").

Lemma newRX_transparent_witness :
  ∃ filtered unfiltered cache',
    @newRX dotted exampleCompile exampleParse (λ _, None) (λ _, None) (λ _, None) false (str "x") true = Done (Some (RX filtered)) ∧
    @newRX dotted exampleCompile exampleParse (λ _, None) (λ _, None) (λ _, None) false (str "x") false = Done (Some (RX unfiltered)) ∧
    tx_ok cache' ∧
    @Evaluate dotted asciiFold filtered emptyTransaction (Some emptyPresence) exampleValue =
      ('(tx, b, _) ← @Evaluate dotted asciiFold unfiltered emptyTransaction (Some emptyPresence) exampleValue; Done (tx, b, cache')).
Proof.
  eapply (@newRX_transparent dotted asciiFold dottedASCII exampleCompile exampleParse (λ _, None) (λ _, None) (λ _, None) false exampleLaws);
    [by vm_compute|reflexivity|reflexivity|set_solver| |by apply wf_bytesb_true|apply emptyPresence_ok|by repeat constructor].
  intros orig [= <-]. by repeat constructor.
Defined.

Lemma exampleX_binary s : containsByte s 0x78 = true → @BinaryMatches asciiFold (OpLiteral false [0x78]) s.
Proof.
  intros (pre & post & ->)%containsByte_true%list_elem_of_split. exists (byteSteps pre), [(0x78, [0x78])], (byteSteps post).
  split; [unfold byteSteps; by rewrite fmap_app|]. by repeat constructor.
Qed.

Lemma binaryRX_transparent_witness :
  ∃ filtered cache', newBinaryRX exampleCompile exampleParse (str "x") true = Some filtered ∧ tx_ok cache' ∧
    @binaryEvaluate dotted filtered emptyTransaction (Some emptyPresence) exampleValue =
      ('(tx, b) ← Done (emptyTransaction, true); Done (tx, b, cache')).
Proof.
  destruct (@binaryRX_transparent dotted asciiFold exampleCompile exampleParse (str "x") _ _ emptyTransaction (Some emptyPresence)
    exampleValue eq_refl eq_refl) as (f & cache' & E & Hok & Ev).
  - intros s _. cbn. apply exampleX_binary.
  - intros s _. cbn. rewrite <- IndexByte_elem. by destruct (IndexByte s 0x78).
  - by apply wf_bytesb_true.
  - apply emptyPresence_ok.
  - by repeat constructor.
  - exists f, cache'. split; [exact E|]. split; [exact Hok|]. rewrite Ev. reflexivity.
Defined.

Lemma captureRXMatch_groups_witness :
  @captureRXMatch latin1 emptyTransaction (str "abc") (Some [0; 3; -1; -1; 1; 2]) =
  Done (@CaptureField latin1 2 (str "b") (@CaptureField latin1 1 [] (@CaptureField latin1 0 (str "abc") emptyTransaction)), true).
Proof.
  rewrite (@captureRXMatch_groups latin1 emptyTransaction (str "abc") [0; 3; -1; -1; 1; 2]).
  - reflexivity.
  - intros i Hi. cbn in Hi. destruct i as [|[|[|i]]]; cbn; lia.
Defined.
