(* ===== verification/BodyProcessors.v ===== *)
(** Body processors: src/internal/bodyprocessors, the URLENCODED and RAW
    processors and the registry.  The processors of multipart, JSON and XML
    bodies parse with libraries and are left to the registry, which is an
    argument of the definitions that use it.

    A processor is a function of the mime type, the bytes that it reads from the
    body and the variables of the transaction. *)

From S2P Require Import Prelude GoLib StringUtil UrlTransform Variables Types Collections.
From S2P Require Import BodyBuffer TransactionState.

Record BodyProcessor := mkBodyProcessor {
  ProcessRequest : bytes → bytes → TransactionVariables → run (TransactionVariables * option bytes);
  ProcessResponse : bytes → TransactionVariables → run (TransactionVariables * option bytes);
}.

(** [processors], by name. *)
Abbreviation Registry := (gmap bytes BodyProcessor) (only parsing).

Definition RegisterBodyProcessor (name : bytes) (p : BodyProcessor) (processors : Registry) : Registry :=
  <[name := p]> processors.

Definition GetBodyProcessor `{Unicode} (processors : Registry) (name : bytes) : option BodyProcessor :=
  processors !! ToLower name.

(** [ProcessResponse] of both processors. *)
Definition noResponse (b : bytes) (v : TransactionVariables) : run (TransactionVariables * option bytes) :=
  Done (v, None).

(** The two variables that hold the body. *)
Definition setRequestBody (b : bytes) (v : TransactionVariables) : TransactionVariables :=
  setSingle V.RequestBodyLength (Itoa (Z.of_nat (length b))) (setSingle V.RequestBody b v).

Definition rawProcessRequest (mime b : bytes) (v : TransactionVariables)
    : run (TransactionVariables * option bytes) :=
  Done (setRequestBody b v, None).

Definition rawBodyProcessor : BodyProcessor := mkBodyProcessor rawProcessRequest noResponse.

Section urlencoded.
Context `{U : !Unicode, O : !MapOrder}.

(** [for k, vs := range values { argsCol.Set(k, vs) }] *)
Definition setArgs (values : list (bytes * list bytes)) (c : Map) : Map :=
  foldl (λ c kv, Set_ c kv.1 kv.2) c values.

Definition urlencodedProcessRequest (mime b : bytes) (v : TransactionVariables)
    : run (TransactionVariables * option bytes) :=
  values ← ParseQuery b 0x26;
  let v := setMap V.ArgsPost (setArgs (range values) (mapOf v V.ArgsPost)) v in
  Done (setRequestBody b v, None).

Definition urlencodedBodyProcessor : BodyProcessor := mkBodyProcessor urlencodedProcessRequest noResponse.

(** The processors that the package registers and that are modelled. *)
Definition processors : Registry :=
  RegisterBodyProcessor (str "urlencoded") urlencodedBodyProcessor
    (RegisterBodyProcessor (str "raw") rawBodyProcessor ∅).
End urlencoded.

(** ** Arguments of a body *)

Section args.
Context `{U : !Unicode}.

Lemma setArgs_isCaseSensitive values c : (setArgs values c).(isCaseSensitive) = c.(isCaseSensitive).
Proof.
  unfold setArgs. revert c. induction values as [|[k vs] values IH]; intros c; [done|].
  cbn [foldl]. by rewrite IH.
Qed.

Lemma Get_Set c key values key' :
  Get (Set_ c key values) key' = if decide (foldKey c key = foldKey c key') then values else Get c key'.
Proof.
  rewrite !Get_entries. change (foldKey (Set_ c key values) key') with (foldKey c key').
  unfold Set_. rewrite entries_update. case_decide; [|done].
  rewrite <- list_fmap_compose. apply list_fmap_id.
Qed.

Lemma foldKey_setArgs values c key : foldKey (setArgs values c) key = foldKey c key.
Proof. unfold foldKey. by rewrite setArgs_isCaseSensitive. Qed.

(** The last of the keys with the same folded form wins. *)
Lemma Get_setArgs values c key :
  Get (setArgs values c) key =
    match last (filter (λ kv, foldKey c kv.1 = foldKey c key) values) with
    | Some kv => kv.2
    | None => Get c key
    end.
Proof.
  induction values as [|[k vs] values IH] using rev_ind; [done|].
  unfold setArgs. rewrite foldl_snoc, filter_app. fold (setArgs values c). cbn [fst snd].
  rewrite Get_Set, !foldKey_setArgs, filter_cons, filter_nil. cbn [fst].
  case_decide; [by rewrite last_snoc|]. by rewrite app_nil_r, IH.
Qed.

(** The values given for a key, in order. *)
Definition valuesOf (b key : bytes) : list bytes :=
  (filter (λ kv : bytes * bytes, kv.1 = key) (query_pairs 0x26 true b)).*2.

Definition hasKey (b key : bytes) : Prop := valuesOf b key ≠ [].

Lemma parsed_lookup b key :
  group ∅ (query_pairs 0x26 true b) !! key =
    match valuesOf b key with [] => None | vs => Some vs end.
Proof. rewrite group_lookup, lookup_empty. unfold valuesOf. by destruct (filter _ _).*2. Qed.
End args.

(** What ARGS_POST holds for a key after a form is processed: all the values of
    one of the keys of the form that fold to it, or its old value when there is
    no such key. *)
Lemma urlencoded_lookup `{U : Unicode, O : !MapOrder} mime b v :
  ∃ v', urlencodedProcessRequest mime b v = Done (v', None) ∧
    singleOf v' V.RequestBody = b ∧ singleOf v' V.RequestBodyLength = Itoa (Z.of_nat (length b)) ∧
    let c := mapOf v V.ArgsPost in
    ∀ key,
      (∃ k, hasKey b k ∧ foldKey c k = foldKey c key ∧
         Get (mapOf v' V.ArgsPost) key = valuesOf b k) ∨
      ((∀ k, hasKey b k → foldKey c k ≠ foldKey c key) ∧
         Get (mapOf v' V.ArgsPost) key = Get c key).
Proof.
  unfold urlencodedProcessRequest, ParseQuery. rewrite doParseQuery_eq. run_simpl.
  eexists. split; [done|]. unfold setRequestBody. autorewrite with coraza.
  split; [by repeat case_decide|]. split; [by repeat case_decide|]. rewrite decide_True by done.
  intros key. set (c := mapOf v V.ArgsPost).
  set (m := group ∅ _). rewrite Get_setArgs.
  assert (∀ k vs, (k, vs) ∈ range m ↔ m !! k = Some vs) as Hrange.
  { intros k vs. rewrite range_perm. apply elem_of_map_to_list. }
  destruct (last _) as [[k vs]|] eqn:El.
  - left. apply last_Some_elem_of, list_elem_of_filter in El as [Hf Hin%Hrange].
    unfold m in Hin. rewrite parsed_lookup in Hin. exists k. unfold hasKey.
    destruct (valuesOf b k); [done|]. by simplify_eq.
  - right. split; [|done]. apply last_None in El. intros k Hk Hf.
    assert ((k, valuesOf b k) ∈ range m) as Hin.
    { apply Hrange. unfold m. rewrite parsed_lookup. unfold hasKey in Hk. by destruct (valuesOf b k). }
    apply (not_elem_of_nil (A := bytes * list bytes) (k, valuesOf b k)). rewrite <- El.
    by apply list_elem_of_filter.
Qed.

(** Processing a form keeps the body and its length, and under keys that are
    not spelled in two ways ARGS_POST holds exactly the values of the form. *)
Theorem urlencoded_args `{U : Unicode, O : !MapOrder} (mime b : bytes) (v : TransactionVariables) :
  (∀ k k', hasKey b k → hasKey b k' →
     foldKey (mapOf v V.ArgsPost) k = foldKey (mapOf v V.ArgsPost) k' → k = k') →
  ∃ v', urlencodedProcessRequest mime b v = Done (v', None) ∧
    singleOf v' V.RequestBody = b ∧ singleOf v' V.RequestBodyLength = Itoa (Z.of_nat (length b)) ∧
    ∀ key, hasKey b key → Get (mapOf v' V.ArgsPost) key = valuesOf b key.
Proof.
  intros Hinj. destruct (urlencoded_lookup mime b v) as (v' & HE & H1 & H2 & H).
  exists v'. split; [done|]. split; [done|]. split; [done|]. intros key Hkey.
  destruct (H key) as [(k & Hk & Hf & ->)|[Hno _]].
  - by rewrite (Hinj k key).
  - by destruct (Hno key Hkey).
Qed.

Lemma urlencoded_args_witness :
  ∃ v', @urlencodedProcessRequest latin1 listOrder [] (str "a=1&b=2&a=3") NewTransactionVariables
          = Done (v', None) ∧
    @Get latin1 (mapOf v' V.ArgsPost) (str "a") = [str "1"; str "3"].
Proof.
  destruct (@urlencoded_args latin1 listOrder [] (str "a=1&b=2&a=3") NewTransactionVariables)
    as (v' & HE & _ & _ & H).
  - assert (∀ k, hasKey (str "a=1&b=2&a=3") k → k = str "a" ∨ k = str "b") as Hk.
    { intros k Hk. destruct (decide (k = str "a")); [by left|]. destruct (decide (k = str "b")); [by right|].
      destruct Hk. unfold valuesOf.
      replace (query_pairs 0x26 true (str "a=1&b=2&a=3"))
        with [(str "a", str "1"); (str "b", str "2"); (str "a", str "3")] by (vm_compute; reflexivity).
      rewrite !filter_cons, filter_nil. cbn [fst]. by repeat case_decide. }
    intros k k' H1%Hk H2%Hk. destruct H1 as [->| ->], H2 as [->| ->]; try done; by vm_compute.
  - exists v'. split; [exact HE|]. rewrite H; vm_compute; [reflexivity|discriminate].
Defined.

(** When a form spells a key in two ways that fold to the same key, only the
    values of one of the spellings are inspected: the others are dropped from
    ARGS_POST, whatever the iteration order. *)
Theorem urlencoded_drops `{U : Unicode, O : !MapOrder} (mime b : bytes) (v : TransactionVariables) (key : bytes) :
  hasKey b key →
  ∃ v' k, urlencodedProcessRequest mime b v = Done (v', None) ∧
    hasKey b k ∧ foldKey (mapOf v V.ArgsPost) k = foldKey (mapOf v V.ArgsPost) key ∧
    ∀ key', foldKey (mapOf v V.ArgsPost) key' = foldKey (mapOf v V.ArgsPost) key →
      Get (mapOf v' V.ArgsPost) key' = valuesOf b k.
Proof.
  intros Hkey. destruct (urlencoded_lookup mime b v) as (v' & HE & H1 & H2 & H).
  destruct (H key) as [(k & Hk & Hf & Hg)|[Hno _]]; [|by destruct (Hno key Hkey)].
  exists v', k. split; [done|]. split; [done|]. split; [done|]. intros key' Hf'. rewrite <- Hg.
  assert (foldKey (mapOf v' V.ArgsPost) key' = foldKey (mapOf v' V.ArgsPost) key) as Hfold.
  { revert HE. unfold urlencodedProcessRequest, ParseQuery. rewrite doParseQuery_eq. run_simpl.
    intros [= <-]. unfold setRequestBody. autorewrite with coraza. rewrite decide_True by done.
    by rewrite !foldKey_setArgs. }
  by rewrite !Get_entries, Hfold.
Qed.

Lemma urlencoded_drops_witness :
  ∃ v' k, @urlencodedProcessRequest latin1 listOrder [] (str "id=evil&ID=good") NewTransactionVariables
          = Done (v', None) ∧ hasKey (str "id=evil&ID=good") k ∧
    @Get latin1 (mapOf v' V.ArgsPost) (str "id") = valuesOf (str "id=evil&ID=good") k.
Proof.
  destruct (@urlencoded_drops latin1 listOrder [] (str "id=evil&ID=good") NewTransactionVariables (str "id"))
    as (v' & k & HE & Hk & _ & H); [by vm_compute|].
  exists v', k. split; [exact HE|]. split; [exact Hk|]. by apply H.
Defined.
