(* ===== verification/JsonProcessor.v ===== *)
(** The processor of JSON bodies: src/internal/bodyprocessors/json.go.

    The package gjson is a parameter: [Parse] gives the tree of a text, [Valid]
    whether it is well formed.  A tree is what [gjson.Result.ForEach] shows of
    it.  The recursion limit is the one option of the processor.

    The theorems show which entries the collections get: under a depth limit that
    the body respects every value of the body is there under its path, and the
    processor fails exactly when the body is deeper or not valid.  Member names
    with a dot and names that differ in case are excluded: they share entries. *)

From S2P Require Import Prelude GoLib StringUtil UrlTransform Variables Types Collections.
From S2P Require Import BodyBuffer TransactionState BodyProcessors.

(** [gjson.Result]; a number or a boolean is its text. *)
Inductive gjson :=
| JNull
| JString (s : bytes)
| JRaw (raw : bytes)
| JObject (members : list (bytes * gjson))
| JArray (items : list gjson).

Fixpoint gjson_ind' (P : gjson → Prop) (Hn : P JNull) (Hs : ∀ s, P (JString s)) (Hr : ∀ raw, P (JRaw raw))
    (Ho : ∀ ms, Forall (λ kv, P kv.2) ms → P (JObject ms)) (Ha : ∀ l, Forall P l → P (JArray l)) (j : gjson) : P j :=
  match j with
  | JNull => Hn
  | JString s => Hs s
  | JRaw raw => Hr raw
  | JObject ms => Ho ms ((fix go ms : Forall (λ kv, P kv.2) ms :=
      match ms with
      | [] => Forall_nil_2 _
      | kv :: ms => Forall_cons_2 _ _ _ (gjson_ind' P Hn Hs Hr Ho Ha kv.2) (go ms)
      end) ms)
  | JArray l => Ha l ((fix go l : Forall P l :=
      match l with
      | [] => Forall_nil_2 _
      | x :: l => Forall_cons_2 _ _ _ (gjson_ind' P Hn Hs Hr Ho Ha x) (go l)
      end) l)
  end.

(** The text that is stored for a value that is neither an object nor an
    array. *)
Definition scalar (j : gjson) : option bytes :=
  match j with
  | JNull => Some []
  | JString s => Some s
  | JRaw raw => Some raw
  | JObject _ | JArray _ => None
  end.

Definition childKey (objKey name : bytes) : bytes := objKey ++ [0x2e] ++ name.

(** The loop of [readItems] over the members of an object and over the items of an
    array, whose keys are their indices.  The key of the item that failed is
    still in the buffer when the length of an array is stored. *)
Definition eachMember (readItems : gjson → bytes → Z → gmap bytes bytes → gmap bytes bytes * bool)
    (objKey : bytes) (maxRecursion : Z) : list (bytes * gjson) → gmap bytes bytes → gmap bytes bytes * bool :=
  fix each members res :=
    match members with
    | [] => (res, false)
    | (name, value) :: members =>
        let key := childKey objKey name in
        match scalar value with
        | Some val => each members (<[key := val]> res)
        | None =>
            let '(res, err) := readItems value key (maxRecursion - 1) res in
            if err : bool then (res, true) else each members res
        end
    end.

Definition eachItem (readItems : gjson → bytes → Z → gmap bytes bytes → gmap bytes bytes * bool)
    (objKey : bytes) (maxRecursion : Z) : list gjson → Z → gmap bytes bytes → gmap bytes bytes * bool :=
  fix each items arrayLen res :=
    match items with
    | [] => (if arrayLen >? 0 then <[objKey := Itoa arrayLen]> res else res, false)
    | value :: items =>
        let key := childKey objKey (Itoa arrayLen) in
        match scalar value with
        | Some val => each items (arrayLen + 1) (<[key := val]> res)
        | None =>
            let '(res, err) := readItems value key (maxRecursion - 1) res in
            if err : bool then (<[key := Itoa (arrayLen + 1)]> res, true)
            else each items (arrayLen + 1) res
        end
    end.

(** [readItems], by the forms that [ForEach] tells apart; a scalar is shown as one
    item without a key. *)
Fixpoint readItems (json : gjson) (objKey : bytes) (maxRecursion : Z) (res : gmap bytes bytes)
    : gmap bytes bytes * bool :=
  if maxRecursion =? 0 then (res, true)
  else
    match json with
    | JObject members => eachMember readItems objKey maxRecursion members res
    | JArray items => eachItem readItems objKey maxRecursion items 0 res
    | _ => (<[objKey := Itoa 1]> (<[childKey objKey (Itoa 0) := default [] (scalar json)]> res), false)
    end.

Definition errRecursion : bytes := str "max recursion reached while reading json object".
Definition errInvalidJSON : bytes := str "invalid JSON".

Definition ignoreJSONRecursionLimit : Z := -1.

Section processor.
Context `{U : !Unicode, O : !MapOrder}.
Context (Parse : bytes → option gjson) (Valid : bytes → bool).

(** The entries, and the error. *)
Definition readJSON (s : bytes) (maxRecursion : Z) : gmap bytes bytes * option bytes :=
  let '(res, err) :=
    match Parse s with
    | Some json => readItems json (str "json") maxRecursion ∅
    | None => (∅, maxRecursion =? 0)
    end in
  if err : bool then (res, Some errRecursion)
  else if Valid s then (res, None) else (res, Some errInvalidJSON).

(** [for key, value := range data { col.SetIndex(key, 0, value) }] *)
Definition setIndexes (entries : list (bytes * bytes)) (c : Map) : Map :=
  foldl (λ c kv, SetIndex0 kv.1 kv.2 c) c entries.

(** What both directions do, with their collection, limit and variable. *)
Definition processJSON (col : RuleVariable) (limit : Z) (name ss : bytes) (v : TransactionVariables)
    : run (TransactionVariables * option bytes) :=
  let '(entries, err) := readJSON ss limit in
  let v := setMap col (setIndexes (range entries) (mapOf v col)) v in
  match err with
  | Some e => Done (v, Some e)
  | None => Done (setMap V.TX (Set_ (mapOf v V.TX) name [ss]) v, None)
  end.

Definition jsonProcessRequest (limit : Z) (mime b : bytes) (v : TransactionVariables) :=
  processJSON V.ArgsPost limit (str "json_request_body") b v.

Definition jsonProcessResponse (b : bytes) (v : TransactionVariables) :=
  processJSON V.ResponseArgs ignoreJSONRecursionLimit (str "json_response_body") b v.

Definition jsonBodyProcessor (limit : Z) : BodyProcessor :=
  mkBodyProcessor (jsonProcessRequest limit) jsonProcessResponse.
End processor.

(** ** The reference *)

(** How deep a body is; a scalar counts as one level. *)
Definition maxOf {A} (f : A → Z) : list A → Z :=
  fix go l := match l with [] => 0 | x :: l => Z.max (f x) (go l) end.

Fixpoint depth (j : gjson) : Z :=
  let inner j := match scalar j with Some _ => 0 | None => depth j end in
  match j with
  | JObject members => 1 + maxOf (λ kv, inner kv.2) members
  | JArray items => 1 + maxOf inner items
  | _ => 1
  end.

(** What is written, in order. *)
Definition memberWrites (writes : gjson → bytes → list (bytes * bytes)) (key : bytes)
    : list (bytes * gjson) → list (bytes * bytes) :=
  fix go members :=
    match members with
    | [] => []
    | (name, v) :: members =>
        match scalar v with Some val => [(childKey key name, val)] | None => writes v (childKey key name) end ++ go members
    end.

Definition itemWrites (writes : gjson → bytes → list (bytes * bytes)) (key : bytes)
    : list gjson → Z → list (bytes * bytes) :=
  fix go items i :=
    match items with
    | [] => if i >? 0 then [(key, Itoa i)] else []
    | v :: items =>
        match scalar v with Some val => [(childKey key (Itoa i), val)] | None => writes v (childKey key (Itoa i)) end
          ++ go items (i + 1)
    end.

Fixpoint writes (j : gjson) (key : bytes) : list (bytes * bytes) :=
  match j with
  | JObject members => memberWrites writes key members
  | JArray items => itemWrites writes key items 0
  | _ => [(childKey key (Itoa 0), default [] (scalar j)); (key, Itoa 1)]
  end.

(** A step into a value, and the value at a path. *)
Inductive pathStep := Member (name : bytes) | Item (i : nat).

Definition child (j : gjson) (st : pathStep) : option gjson :=
  match j, st with
  | JObject members, Member name => snd <$> List.find (λ kv, kv.1 =s name) members
  | JArray items, Item i => items !! i
  | _, _ => None
  end.

Fixpoint valueAt (j : gjson) (path : list pathStep) : option gjson :=
  match path with
  | [] => Some j
  | st :: path => v ← child j st; valueAt v path
  end.

Definition stepText (st : pathStep) : bytes :=
  match st with Member name => name | Item i => Itoa (Z.of_nat i) end.

Definition pathFrom (key : bytes) (path : list pathStep) : bytes :=
  foldl (λ key st, childKey key (stepText st)) key path.

Definition pathKey (path : list pathStep) : bytes := pathFrom (str "json") path.

(** No member name has a dot, and none occurs twice in an object. *)
Definition allOf {A} (f : A → bool) : list A → bool :=
  fix go l := match l with [] => true | x :: l => f x && go l end.

Fixpoint plain (j : gjson) : bool :=
  match j with
  | JObject members =>
      bool_decide (NoDup members.*1) && allOf (λ name, negb (byte_in 0x2e name)) members.*1 &&
      allOf (λ kv, plain kv.2) members
  | JArray items => allOf plain items
  | _ => true
  end.

Definition insertAll (res : gmap bytes bytes) (l : list (bytes * bytes)) : gmap bytes bytes :=
  foldl (λ m kv, <[kv.1 := kv.2]> m) res l.

Lemma insertAll_app res l1 l2 : insertAll res (l1 ++ l2) = insertAll (insertAll res l1) l2.
Proof. apply foldl_app. Qed.

Lemma depth_pos j : 1 <= depth j.
Proof.
  assert (∀ A (f : A → Z) l, 0 <= maxOf f l) as H by (intros A f l; induction l; cbn; lia).
  destruct j; cbn; try lia; match goal with |- context [maxOf ?f ?l] => pose proof (H _ f l); lia end.
Qed.

(** Within the limit, the loop writes everything; past it, it fails. *)
Lemma readItems_ok j : ∀ key limit res, limit < 0 ∨ depth j <= limit →
  readItems j key limit res = (insertAll res (writes j key), false).
Proof.
  induction j as [|s|raw|ms IH|l IH] using gjson_ind'; intros key limit res Hl;
    (pose proof (depth_pos JNull) as Hd0; cbn in Hd0);
    try (cbn; destruct (Z.eqb_spec limit 0); [cbn in Hl; lia|done]).
  - assert (limit ≠ 0) as Hz by (pose proof (depth_pos (JObject ms)); lia).
    cbn [readItems writes]. destruct (Z.eqb_spec limit 0) as [|_]; [done|].
    assert (limit < 0 ∨ maxOf (λ kv, match scalar kv.2 with Some _ => 0 | None => depth kv.2 end) ms <= limit - 1) as Hm
      by (cbn in Hl; lia).
    clear Hl. revert res. induction IH as [|[name v] ms Hv _ IHms]; intros res; [done|].
    cbn [eachMember memberWrites maxOf snd] in *. rewrite insertAll_app.
    destruct (scalar v) as [val|] eqn:Es; [apply IHms; lia|].
    rewrite Hv by lia. apply IHms. lia.
  - assert (limit ≠ 0) as Hz by (pose proof (depth_pos (JArray l)); lia).
    cbn [readItems writes]. destruct (Z.eqb_spec limit 0) as [|_]; [done|].
    assert (limit < 0 ∨ maxOf (λ v, match scalar v with Some _ => 0 | None => depth v end) l <= limit - 1) as Hm
      by (cbn in Hl; lia).
    clear Hl. enough (∀ i res, eachItem readItems key limit l i res = (insertAll res (itemWrites writes key l i), false)) by done.
    clear res. induction IH as [|v l Hv _ IHl]; intros i res.
    { cbn. by destruct (i >? 0). }
    cbn [eachItem itemWrites maxOf] in *. rewrite insertAll_app.
    destruct (scalar v) as [val|] eqn:Es; [apply IHl; lia|].
    rewrite Hv by lia. apply IHl. lia.
Qed.

Lemma readItems_error j : ∀ key limit res, 0 <= limit < depth j → (readItems j key limit res).2 = true.
Proof.
  induction j as [|s|raw|ms IH|l IH] using gjson_ind'; intros key limit res Hl;
    try (cbn in *; by destruct (Z.eqb_spec limit 0); [|lia]).
  - cbn [readItems]. destruct (Z.eqb_spec limit 0) as [|Hz]; [done|]. cbn [depth] in Hl.
    assert (limit - 1 < maxOf (λ kv, match scalar kv.2 with Some _ => 0 | None => depth kv.2 end) ms) as Hm by lia.
    assert (0 <= limit - 1) as H0 by lia. clear Hl Hz. revert res. induction IH as [|[name v] ms Hv _ IHms]; intros res; [cbn in Hm; lia|].
    cbn [eachMember maxOf snd] in *. destruct (scalar v) as [val|] eqn:Es; [apply IHms; lia|].
    destruct (Z.ltb_spec (limit - 1) (depth v)) as [Hlt|Hge].
    + specialize (Hv (childKey key name) (limit - 1) res ltac:(lia)).
      destruct (readItems v _ _ res) as [res' err]. cbn in Hv. by subst err.
    + rewrite readItems_ok by lia. apply IHms. lia.
  - cbn [readItems]. destruct (Z.eqb_spec limit 0) as [|Hz]; [done|]. cbn [depth] in Hl.
    assert (limit - 1 < maxOf (λ v, match scalar v with Some _ => 0 | None => depth v end) l) as Hm by lia.
    assert (0 <= limit - 1) as H0 by lia. clear Hl Hz.
    enough (∀ i res, (eachItem readItems key limit l i res).2 = true) by done. clear res.
    induction IH as [|v l Hv _ IHl]; intros i res; [cbn in Hm; lia|].
    cbn [eachItem maxOf] in *. destruct (scalar v) as [val|] eqn:Es; [apply IHl; lia|].
    destruct (Z.ltb_spec (limit - 1) (depth v)) as [Hlt|Hge].
    + specialize (Hv (childKey key (Itoa i)) (limit - 1) res ltac:(lia)).
      destruct (readItems v _ _ res) as [res' err]. cbn in Hv. by subst err.
    + rewrite readItems_ok by lia. apply IHl. lia.
Qed.

(** ** Keys *)

(** A key, or one under it. *)
Definition below (key k : bytes) : Prop := ∃ r, k = key ++ r ∧ (r = [] ∨ ∃ r', r = 0x2e :: r').

Definition undotted (name : bytes) : Prop := byte_in 0x2e name = false.

Lemma undotted_cons c name : undotted (c :: name) ↔ c ≠ 0x2e ∧ undotted name.
Proof.
  unfold undotted. change (byte_in 0x2e (c :: name)) with ((0x2e =? c) || byte_in 0x2e name).
  rewrite orb_false_iff, Z.eqb_neq. naive_solver.
Qed.

Lemma undotted_Itoa i : 0 <= i → undotted (Itoa i).
Proof.
  intros Hi. destruct (Itoa_digits i Hi) as [_ H]. induction H as [|c s Hc _ IH]; [done|].
  apply undotted_cons. split; [|done]. unfold isDigit in Hc. lia.
Qed.

Lemma below_child key name k : below (childKey key name) k → below key k ∧ k ≠ key.
Proof.
  intros (r & -> & _). unfold childKey. rewrite <- !app_assoc. split.
  - exists ([0x2e] ++ name ++ r). split; [done|]. right. by exists (name ++ r).
  - intros E%(f_equal length). rewrite !length_app in E. cbn in E. lia.
Qed.

Lemma below_inj key n n' k : undotted n → undotted n' → below (childKey key n) k → below (childKey key n') k → n = n'.
Proof.
  intros Hn Hn' (r & -> & Hr) (r' & E & Hr'). unfold childKey in E. rewrite <- !app_assoc in E.
  apply app_inv_head, app_inv_head in E. revert n' Hn' E. induction n as [|c n IH]; intros [|c' n'] Hn' E; cbn in E; [done|..].
  - destruct Hr as [->|[? ->]]; [done|]. injection E as <- _. by apply undotted_cons in Hn' as [? _].
  - destruct Hr' as [->|[? ->]]; [done|]. injection E as -> _. by apply undotted_cons in Hn as [? _].
  - injection E as <- E. apply undotted_cons in Hn as [_ Hn], Hn' as [_ Hn']. f_equal. by apply IH.
Qed.

Lemma belowKey_refl key : below key key.
Proof. exists []. split; [by rewrite app_nil_r|by left]. Qed.

(** What one value of an object or array writes. *)
Definition valueWrites (v : gjson) (key : bytes) : list (bytes * bytes) :=
  match scalar v with Some val => [(key, val)] | None => writes v key end.

Lemma memberWrites_eq key ms :
  memberWrites writes key ms = ms ≫= λ kv, valueWrites kv.2 (childKey key kv.1).
Proof. induction ms as [|[n v] ms IH]; [done|]. cbn. by rewrite IH. Qed.

Lemma itemWrites_eq key l : ∀ i, 0 <= i → 
  itemWrites writes key l i =
    (imap (λ n v, (i + Z.of_nat n, v)) l ≫= λ iv, valueWrites iv.2 (childKey key (Itoa iv.1))) ++
    (if i + Z.of_nat (length l) >? 0 then [(key, Itoa (i + Z.of_nat (length l)))] else []).
Proof.
  induction l as [|v l IH]; intros i Hi.
  - cbn. by rewrite Z.add_0_r.
  - cbn [itemWrites imap length]. rewrite IH by lia. cbn. rewrite Z.add_0_r, <- app_assoc.
    replace (i + 1 + Z.of_nat (length l)) with (i + Z.of_nat (S (length l))) by lia. f_equal. f_equal.
    f_equal. apply imap_ext. intros n x _. unfold compose. f_equal. lia.
Qed.

Lemma fmap_fst_bind {A} (f : A → list (bytes * bytes)) l : (l ≫= f).*1 = l ≫= λ x, (f x).*1.
Proof. induction l as [|x l IH]; [done|]. cbn. by rewrite fmap_app, IH. Qed.

Lemma NoDup_pair {A B} (l : list (A * B)) x y y' : NoDup l.*1 → (x, y) ∈ l → (x, y') ∈ l → y = y'.
Proof.
  induction l as [|[a b] l IH]; [intros _ H; by apply not_elem_of_nil in H|].
  cbn. rewrite NoDup_cons, !elem_of_cons. intros [Ha Hn] [H1|H1] [H2|H2]; simplify_eq; [done|..|by apply IH].
  - destruct Ha. by apply (list_elem_of_fmap_2 fst _ _ H2).
  - destruct Ha. by apply (list_elem_of_fmap_2 fst _ _ H1).
Qed.

Lemma allOf_Forall {A} (f : A → bool) l : allOf f l = true ↔ Forall (λ x, f x = true) l.
Proof. induction l as [|x l IH]; [done|]. cbn. by rewrite andb_true_iff, Forall_cons, IH. Qed.

Lemma plain_members ms : plain (JObject ms) = true ↔
  NoDup ms.*1 ∧ Forall undotted ms.*1 ∧ Forall (λ kv, plain kv.2 = true) ms.
Proof.
  cbn [plain]. rewrite !andb_true_iff, bool_decide_eq_true, !allOf_Forall.
  setoid_rewrite negb_true_iff. naive_solver.
Qed.

Lemma valueWrites_below_of v : (∀ key k, k ∈ (writes v key).*1 → below key k) →
  ∀ key k, k ∈ (valueWrites v key).*1 → below key k.
Proof.
  intros H key k. unfold valueWrites. destruct (scalar v); [|apply H].
  intros ->%list_elem_of_singleton. apply belowKey_refl.
Qed.

Lemma writes_below j : ∀ key k, k ∈ (writes j key).*1 → below key k.
Proof.
  assert (∀ key k, k ∈ [childKey key (Itoa 0); key] → below key k) as Hs.
  { intros key k [->|[->|[]%not_elem_of_nil]%elem_of_cons]%elem_of_cons; [|apply belowKey_refl].
    by apply (below_child key (Itoa 0)), belowKey_refl. }
  induction j as [|s|raw|ms IH|l IH] using gjson_ind'; intros key k; cbn [writes]; try apply Hs.
  - rewrite memberWrites_eq, fmap_fst_bind, list_elem_of_bind. intros ([n v] & Hk & Hin).
    rewrite Forall_forall in IH. by eapply below_child, valueWrites_below_of, Hk; apply (IH _ Hin).
  - rewrite itemWrites_eq, fmap_app, elem_of_app, fmap_fst_bind, list_elem_of_bind by done. intros [H|H].
    + destruct H as ([i v] & Hk & Hin). apply list_elem_of_lookup in Hin as [n Hn].
      rewrite list_lookup_imap in Hn. apply fmap_Some in Hn as (x & Hx & [= -> ->]). rewrite Forall_lookup in IH.
      by eapply below_child, valueWrites_below_of, Hk; apply (IH _ _ Hx).
    + destruct (_ >? 0); [|by apply not_elem_of_nil in H]. apply list_elem_of_singleton in H as ->. apply belowKey_refl.
Qed.

Lemma valueWrites_below v key k : k ∈ (valueWrites v key).*1 → below key k.
Proof. apply valueWrites_below_of, writes_below. Qed.

Lemma indexed_lookup {A} i v (l : list A) : (i, v) ∈ imap (λ n v, (0 + Z.of_nat n, v)) l ↔ 0 <= i ∧ l !! Z.to_nat i = Some v.
Proof.
  rewrite list_elem_of_lookup. setoid_rewrite list_lookup_imap. split.
  - intros (n & (x & Hx & [= -> ->])%fmap_Some). split; [lia|]. by replace (Z.to_nat (0 + Z.of_nat n)) with n by lia.
  - intros [Hi Hl]. exists (Z.to_nat i). rewrite Hl. cbn. do 2 f_equal. lia.
Qed.

(** No key is written twice. *)
Lemma writes_NoDup j : plain j = true → ∀ key, NoDup (writes j key).*1.
Proof.
  assert (∀ key, NoDup [childKey key (Itoa 0); key]) as Hs.
  { intros key. apply NoDup_cons. split; [|apply NoDup_singleton]. intros E%list_elem_of_singleton.
    by apply (below_child key (Itoa 0) (childKey key (Itoa 0))); [apply belowKey_refl|]. }
  assert (∀ v, (∀ key, NoDup (writes v key).*1) → ∀ key, NoDup (valueWrites v key).*1) as Hv.
  { intros v H key. unfold valueWrites. destruct (scalar v); [apply NoDup_singleton|apply H]. }
  induction j as [|s|raw|ms IH|l IH] using gjson_ind'; intros Hp key; cbn [writes]; try apply Hs.
  - apply plain_members in Hp as (Hn & Hd & Hp). rewrite memberWrites_eq, fmap_fst_bind.
    rewrite Forall_forall in IH. rewrite Forall_forall in Hp. rewrite Forall_forall in Hd. apply NoDup_bind.
    + intros [n v] [n' v'] k H H' Hk%valueWrites_below Hk'%valueWrites_below. cbn in *.
      assert (n = n') as <-; [|f_equal; by eapply NoDup_pair].
      eapply below_inj, Hk'; [..|exact Hk]; apply Hd; [by apply (list_elem_of_fmap_2 fst _ _ H)|by apply (list_elem_of_fmap_2 fst _ _ H')].
    + intros [n v] H. apply Hv, (IH _ H), (Hp _ H).
    + by eapply NoDup_fmap_1.
  - cbn [plain] in Hp. rewrite allOf_Forall, Forall_forall in Hp. rewrite Forall_forall in IH.
    rewrite itemWrites_eq, fmap_app, fmap_fst_bind by done. apply NoDup_app. split_and!.
    + apply NoDup_bind.
      * intros [i v] [i' v'] k [Hi Hl]%indexed_lookup [Hi' Hl']%indexed_lookup Hk%valueWrites_below Hk'%valueWrites_below. cbn in *.
        assert (i = i') as <-; [|congruence]. apply Itoa_inj; [done..|]. eapply below_inj, Hk'; [by apply undotted_Itoa..|done].
      * intros [i v] [Hi Hl%list_elem_of_lookup_2]%indexed_lookup. by apply Hv, IH, Hp.
      * apply NoDup_alt. intros n n' [i v]. rewrite !list_lookup_imap.
        intros (? & _ & [= -> _])%fmap_Some (? & _ & [= ? _])%fmap_Some. lia.
    + intros k Hk H. apply list_elem_of_bind in Hk as ([i v] & Hk & _). apply valueWrites_below, below_child in Hk as [_ Hk].
      destruct (_ >? 0); [|by apply not_elem_of_nil in H]. by apply list_elem_of_singleton in H.
    + destruct (_ >? 0); [apply NoDup_singleton|constructor].
Qed.

(** ** The entries of a body *)

(** What is stored for a value: the text of a scalar, the length of an array. *)
Definition stored (v : gjson) : option bytes :=
  match v with
  | JObject _ => None
  | JArray [] => None
  | JArray items => Some (Itoa (Z.of_nat (length items)))
  | _ => scalar v
  end.

Lemma child_member ms n v : NoDup ms.*1 → child (JObject ms) (Member n) = Some v ↔ (n, v) ∈ ms.
Proof.
  intros Hn. cbn [child]. rewrite fmap_Some. split.
  - intros ([n' v'] & [Hin E%bytes_eqb_eq]%find_some & ->). cbn in E. subst n'. by apply list_elem_of_In.
  - intros Hin. destruct (List.find _ ms) as [[n' v']|] eqn:E.
    + apply find_some in E as [Hin' E%bytes_eqb_eq]. cbn in E. subst n'. exists (n, v'). split; [done|].
      eapply NoDup_pair; [done..|]. by apply list_elem_of_In.
    + apply list_elem_of_In in Hin. pose proof (find_none _ _ E _ Hin) as H. by apply bytes_eqb_neq in H.
Qed.

Lemma writes_children j key k val : plain j = true → scalar j = None →
  (k, val) ∈ writes j key ↔
    stored j = Some val ∧ k = key ∨ ∃ st v, child j st = Some v ∧ (k, val) ∈ valueWrites v (childKey key (stepText st)).
Proof.
  intros Hp Hs. destruct j as [|s|raw|ms|l]; try done; cbn [writes].
  - apply plain_members in Hp as (Hn & _ & _). rewrite memberWrites_eq, list_elem_of_bind. split.
    + intros ([n v] & H & Hin). right. exists (Member n), v. by rewrite child_member.
    + intros [[? _]|([n|i] & v & Hc & H)]; [done|..|done]. apply child_member in Hc; [|done]. by exists (n, v).
  - rewrite itemWrites_eq, elem_of_app, list_elem_of_bind by done. rewrite Z.add_0_l. split.
    + intros [([i v] & H & [Hi Hl]%indexed_lookup)|H].
      * right. exists (Item (Z.to_nat i)), v. split; [done|]. cbn [stepText]. by rewrite Z2Nat.id.
      * left. destruct l as [|x l]; [by apply not_elem_of_nil in H|].
        destruct (_ >? 0); [|by apply not_elem_of_nil in H]. apply list_elem_of_singleton in H. by simplify_eq.
    + intros [[H ->]|([n|i] & v & Hc & H)]; [|done|].
      * right. destruct l as [|x l]; [done|]. injection H as <-. assert (Z.of_nat (length (x :: l)) >? 0 = true) as -> by (cbn; lia).
        by apply list_elem_of_singleton.
      * left. exists (Z.of_nat i, v). split; [done|]. apply indexed_lookup. split; [lia|]. by rewrite Nat2Z.id.
Qed.

Lemma plain_child j st v : plain j = true → child j st = Some v → plain v = true.
Proof.
  destruct j as [| | |ms|l], st as [n|i]; try done; intros Hp.
  - apply plain_members in Hp as (Hn & _ & Hp). rewrite child_member by done. rewrite Forall_forall in Hp. apply Hp.
  - cbn [plain] in Hp. rewrite allOf_Forall, Forall_lookup in Hp. apply Hp.
Qed.

Lemma scalar_valueAt v val path w : scalar v = Some val → valueAt v path = Some w → path = [] ∧ w = v.
Proof. destruct path as [|st path]; [by intros _ [= <-]|]. by destruct v, st. Qed.

Lemma stored_scalar v val : scalar v = Some val → stored v = Some val.
Proof. by destruct v. Qed.

(** The values under a value, with their paths, are what it writes. *)
Lemma child_valueAt v : plain v = true → ∀ key k val,
  (k, val) ∈ valueWrites v key ↔ ∃ path w, valueAt v path = Some w ∧ stored w = Some val ∧ k = pathFrom key path.
Proof.
  intros Hp. assert (∀ v key k val, scalar v ≠ None →
    (k, val) ∈ valueWrites v key ↔ ∃ path w, valueAt v path = Some w ∧ stored w = Some val ∧ k = pathFrom key path) as Hs.
  { clear. intros v key k val. unfold valueWrites. destruct (scalar v) as [t|] eqn:Es; [|done]. intros _.
    rewrite list_elem_of_singleton. split.
    - intros [= -> ->]. exists [], v. split; [done|]. split; [by apply stored_scalar|done].
    - intros (path & w & H & Hw & ->). destruct (scalar_valueAt _ _ _ _ Es H) as [-> ->].
      rewrite (stored_scalar _ _ Es) in Hw. by injection Hw as ->. }
  assert (∀ v, plain v = true → (∀ st w, child v st = Some w → ∀ key k val,
     (k, val) ∈ valueWrites w key ↔ ∃ path x, valueAt w path = Some x ∧ stored x = Some val ∧ k = pathFrom key path) →
     ∀ key k val, (k, val) ∈ valueWrites v key ↔ ∃ path w, valueAt v path = Some w ∧ stored w = Some val ∧ k = pathFrom key path) as Hc.
  { clear v Hp. intros v Hp IH key k val. destruct (scalar v) eqn:Es; [apply Hs; by rewrite Es|].
    unfold valueWrites. rewrite Es, writes_children by done. split.
    - intros [[H ->]|(st & w & Hw & H)]; [by exists [], v|]. apply (IH _ _ Hw) in H as (path & x & Hx & Hv & ->).
      exists (st :: path), x. cbn [valueAt]. by rewrite Hw.
    - intros ([|st path] & w & Hw & Hv & ->); [left; by injection Hw as ->|right]. cbn [valueAt] in Hw.
      apply bind_Some in Hw as (x & Hx & Hw). exists st, x. split; [done|]. apply (IH _ _ Hx). by exists path, w. }
  induction v as [|s|raw|ms IH|l IH] using gjson_ind'; try (intros; by apply Hs); apply Hc; try done; intros [n|i] w Hw; try done;
    pose proof (plain_child _ _ _ Hp Hw) as Hpw.
  - apply plain_members in Hp as (Hn & _ & _). apply child_member in Hw; [|done]. rewrite Forall_forall in IH. by apply (IH _ Hw).
  - cbn [child] in Hw. rewrite Forall_lookup in IH. by apply (IH _ _ Hw).
Qed.

Lemma insertAll_lookup l k val : NoDup l.*1 → insertAll ∅ l !! k = Some val ↔ (k, val) ∈ l.
Proof.
  induction l as [|[k' v'] l IH] using rev_ind; intros Hn.
  { unfold insertAll. cbn [foldl]. rewrite lookup_empty. split; [done|]. intros H. by apply not_elem_of_nil in H. }
  rewrite fmap_app, NoDup_app in Hn. destruct Hn as (Hn & Hd & _).
  unfold insertAll in *. rewrite foldl_snoc, elem_of_app, list_elem_of_singleton. cbn [fst snd].
  destruct (decide (k' = k)) as [->|Hk].
  - rewrite lookup_insert_eq. split; [intros [= ->]; by right|]. intros [H|[= ->]]; [|done].
    destruct (Hd k); [by apply (list_elem_of_fmap_2 fst _ _ H)|by left].
  - rewrite lookup_insert_ne, IH by done. naive_solver.
Qed.

Section entries.
Context `{U : !Unicode, O : !MapOrder}.
Context (Parse : bytes → option gjson) (Valid : bytes → bool).

(** Reading a body fails exactly when the text is not valid or is deeper than a
    limit that is not negative; within the limit the entries of an object or array,
    whose member names are distinct and without dots, are its scalar values
    and the lengths of its arrays, each under its path, and nothing else. *)
Theorem readJSON_entries s limit j :
  Parse s = Some j → plain j = true → scalar j = None →
  ∃ m err, readJSON Parse Valid s limit = (m, err) ∧
    (err = None ↔ (limit < 0 ∨ depth j <= limit) ∧ Valid s = true) ∧
    (limit < 0 ∨ depth j <= limit → ∀ k val,
       m !! k = Some val ↔ ∃ path v, valueAt j path = Some v ∧ stored v = Some val ∧ k = pathKey path).
Proof.
  intros Hj Hp Hs. unfold readJSON. rewrite Hj. destruct (decide (limit < 0 ∨ depth j <= limit)) as [Hl|Hl].
  - rewrite readItems_ok by done.
    exists (insertAll ∅ (writes j (str "json"))), (if Valid s then None else Some errInvalidJSON).
    split; [by destruct (Valid s)|]. split; [destruct (Valid s); naive_solver|]. intros _ k val.
    rewrite insertAll_lookup by (by apply writes_NoDup).
    rewrite <- (child_valueAt j Hp (str "json") k val). unfold valueWrites. by rewrite Hs.
  - pose proof (readItems_error j (str "json") limit ∅ ltac:(lia)) as H.
    destruct (readItems j (str "json") limit ∅) as [m err]. cbn in H. subst err.
    exists m, (Some errRecursion). split; [done|]. split; [naive_solver|]. by intros ?%Hl.
Qed.

Lemma Get_SetIndex0 c key value key' :
  Get (SetIndex0 key value c) key' =
    (if decide (foldKey c key = foldKey c key') then value :: tail (Get c key') else Get c key').
Proof.
  unfold SetIndex0. destruct (SetIndex_spec c key 0 value) as (l & E0 & Hl). change (Z.of_nat 0) with 0 in E0.
  rewrite E0, !Get_entries, entries_update.
  change (foldKey (setf data _ c) key') with (foldKey c key'). rewrite !Get_entries in Hl.
  destruct (decide (foldKey c key = foldKey c key')) as [E|E]; [|done].
  rewrite Hl, E. destruct (kv_value <$> entries c (foldKey c key')); case_decide; cbn in *; done || lia.
Qed.

Lemma foldKey_SetIndex0 c key value key' : foldKey (SetIndex0 key value c) key' = foldKey c key'.
Proof.
  unfold SetIndex0. destruct (SetIndex_spec c key 0 value) as (l & E & Hl). change (Z.of_nat 0) with 0 in E. by rewrite E.
Qed.

Lemma Get_setIndexes l : ∀ c k,
  (∀ k' val, (k', val) ∈ l → foldKey c k' ≠ foldKey c k) → Get (setIndexes l c) k = Get c k.
Proof.
  unfold setIndexes. induction l as [|[k0 v0] l IH]; intros c k H; [done|]. cbn [foldl fst snd]. rewrite IH.
  - rewrite Get_SetIndex0. case_decide as E; [|done]. by destruct (H k0 v0 ltac:(by left)).
  - intros k' val Hin. rewrite !foldKey_SetIndex0. apply (H k' val). by right.
Qed.

Lemma Get_setIndexes_in l : ∀ c k val, NoDup l.*1 →
  (∀ k1 v1 k2 v2, (k1, v1) ∈ l → (k2, v2) ∈ l → foldKey c k1 = foldKey c k2 → k1 = k2) →
  (k, val) ∈ l → Get (setIndexes l c) k = val :: tail (Get c k).
Proof.
  induction l as [|[k0 v0] l IH]; intros c k val Hn Hf Hin; [by apply not_elem_of_nil in Hin|].
  cbn in Hn. apply NoDup_cons in Hn as [Hk0 Hn]. change (setIndexes ((k0, v0) :: l) c) with (setIndexes l (SetIndex0 k0 v0 c)).
  apply elem_of_cons in Hin as [[= -> ->]|Hin].
  - rewrite Get_setIndexes; [by rewrite Get_SetIndex0, decide_True|].
    intros k' v' H' E. rewrite !foldKey_SetIndex0 in E. apply (Hf k' v' k0 v0) in E; [|by right|by left]. subst k'.
    by apply Hk0, (list_elem_of_fmap_2 fst _ _ H').
  - rewrite IH with (val := val); [|done|..|done].
    + rewrite Get_SetIndex0. case_decide as E; [|done]. apply (Hf k0 v0 k val) in E; [|by left|by right]. subst k.
      by destruct Hk0; apply (list_elem_of_fmap_2 fst _ _ Hin).
    + intros k1 v1 k2 v2 H1 H2. rewrite !foldKey_SetIndex0. apply (Hf k1 v1 k2 v2); by right.
Qed.

(** ** The processor *)

(** C15: For a body that is an object or an array, no deeper than the limit, in
    which no member name has a dot or occurs twice in an object and no two paths
    differ only in case: the processor of requests gives ARGS_POST, which was
    empty, one value for every scalar (its text) and every array that is not empty
    (its length), found under its path, and keeps the text of a valid body for
    @validateSchema; it fails exactly on a body that is not valid, and then has
    still filled ARGS_POST. *)
Theorem jsonProcessRequest_args limit mime s j v :
  Parse s = Some j → plain j = true → scalar j = None → limit < 0 ∨ depth j <= limit →
  (∀ k, Get (mapOf v V.ArgsPost) k = []) →
  (∀ p1 v1 p2 v2, valueAt j p1 = Some v1 → valueAt j p2 = Some v2 →
     foldKey (mapOf v V.ArgsPost) (pathKey p1) = foldKey (mapOf v V.ArgsPost) (pathKey p2) → pathKey p1 = pathKey p2) →
  ∃ v' err, jsonProcessRequest Parse Valid limit mime s v = Done (v', err) ∧ (err = None ↔ Valid s = true) ∧
    (∀ path x val, valueAt j path = Some x → stored x = Some val → Get (mapOf v' V.ArgsPost) (pathKey path) = [val]) ∧
    (err = None → Get (mapOf v' V.TX) (str "json_request_body") = [s]).
Proof.
  intros Hj Hp Hs Hl He Hf. destruct (readJSON_entries s limit j Hj Hp Hs) as (m & err & E & Herr & Hm). specialize (Hm Hl).
  unfold jsonProcessRequest, processJSON. rewrite E.
  set (v1 := setMap V.ArgsPost (setIndexes (range m) (mapOf v V.ArgsPost)) v).
  assert (∀ path x val, valueAt j path = Some x → stored x = Some val → Get (mapOf v1 V.ArgsPost) (pathKey path) = [val]) as Hargs.
  { intros path x val Hx Hval. unfold v1. rewrite mapOf_setMap, decide_True by done.
    rewrite (Get_setIndexes_in _ _ _ val); [by rewrite He|..].
    - rewrite range_perm. apply NoDup_fst_map_to_list.
    - setoid_rewrite range_perm. setoid_rewrite elem_of_map_to_list.
      intros k1 v1' k2 v2' (p1 & x1 & ? & _ & ->)%Hm (p2 & x2 & ? & _ & ->)%Hm. by eapply Hf.
    - rewrite range_perm. apply elem_of_map_to_list, Hm. by exists path, x. }
  destruct err as [e|].
  - exists v1, (Some e). split; [done|]. split; [naive_solver|]. split; [done|]. done.
  - eexists _, None. split; [done|]. split; [naive_solver|]. split.
    + intros path x val Hx Hval. rewrite mapOf_setMap, decide_False by done. by eapply Hargs.
    + intros _. rewrite mapOf_setMap, decide_True, Get_Set, decide_True by done. done.
Qed.
End entries.

(** ** Examples *)

(** The body {'a':{'b':1},'c':['x',null]}, with double quotes. *)
Definition exampleJSON : gjson :=
  JObject [(str "a", JObject [(str "b", JRaw (str "1"))]); (str "c", JArray [JString (str "x"); JNull])].

Definition exampleParseJSON (s : bytes) : option gjson := Some exampleJSON.

Lemma readJSON_entries_witness :
  ∃ m, readJSON exampleParseJSON (λ _, true) (str "body") 2 = (m, None) ∧
    m !! str "json.a.b" = Some (str "1") ∧ m !! str "json.c" = Some (str "2").
Proof.
  destruct (readJSON_entries exampleParseJSON (λ _, true) (str "body") 2 exampleJSON) as (m & err & E & He & Hm).
  - reflexivity.
  - vm_compute. reflexivity.
  - reflexivity.
  - assert (2 < 0 ∨ depth exampleJSON <= 2) as Hd by (right; vm_compute; discriminate).
    exists m. rewrite E. split; [f_equal; apply He; split; [exact Hd|reflexivity]|]. split; apply (Hm Hd).
    + exists [Member (str "a"); Member (str "b")], (JRaw (str "1")). vm_compute. split; [reflexivity|split; reflexivity].
    + exists [Member (str "c")], (JArray [JString (str "x"); JNull]). vm_compute. split; [reflexivity|split; reflexivity].
Defined.

(** Its paths, of which no two fold alike. *)
Definition examplePaths : list (list pathStep) :=
  [[]; [Member (str "a")]; [Member (str "a"); Member (str "b")]; [Member (str "c")];
   [Member (str "c"); Item 0]; [Member (str "c"); Item 1]].

Definition apart (fold : bytes → bytes) (ps : list (list pathStep)) : bool :=
  forallb (λ p1, forallb (λ p2, negb (fold (pathKey p1) =s fold (pathKey p2)) || (pathKey p1 =s pathKey p2)) ps) ps.

Lemma apart_spec fold ps p1 p2 : apart fold ps = true → p1 ∈ ps → p2 ∈ ps →
  fold (pathKey p1) = fold (pathKey p2) → pathKey p1 = pathKey p2.
Proof.
  unfold apart. intros H H1%list_elem_of_In H2%list_elem_of_In E. rewrite forallb_forall in H.
  specialize (H _ H1). rewrite forallb_forall in H. specialize (H _ H2). rewrite E in H.
  apply orb_true_iff in H as [H|H]; [|by apply bytes_eqb_eq]. by rewrite (proj2 (bytes_eqb_eq _ _) eq_refl) in H.
Qed.

Lemma example_paths p v : valueAt exampleJSON p = Some v →
  p ∈ examplePaths.
Proof.
  unfold examplePaths.
  assert (∀ n v, child exampleJSON (Member n) = Some v → (n, v) ∈
    [(str "a", JObject [(str "b", JRaw (str "1"))]); (str "c", JArray [JString (str "x"); JNull])]) as Hm.
  { intros n w H. apply child_member; [|done]. apply (bool_decide_unpack _). vm_compute. reflexivity. }
  destruct p as [|[n|i] p]; [set_solver| |done]. cbn [valueAt]. intros (w & Hw & H)%bind_Some.
  apply Hm in Hw. apply elem_of_cons in Hw as [[= -> ->]|Hw].
  - destruct p as [|[n|i] p]; [set_solver| |done]. cbn [valueAt] in H. apply bind_Some in H as (x & Hx & H).
    apply child_member in Hx; [|apply NoDup_singleton]. apply list_elem_of_singleton in Hx. injection Hx as -> ->.
    destruct p as [|[]]; [set_solver|done..].
  - apply list_elem_of_singleton in Hw. injection Hw as -> ->.
    destruct p as [|[n|i] p]; [set_solver|done|]. cbn [valueAt] in H. apply bind_Some in H as (x & Hx & H).
    destruct i as [|[|i]]; cbn in Hx; [injection Hx as <-..|done]; destruct p as [|[]]; try done; set_solver.
Qed.

Lemma jsonProcessRequest_args_witness :
  ∃ v', @jsonProcessRequest latin1 listOrder exampleParseJSON (λ _, true) 2 [] (str "body") NewTransactionVariables = Done (v', None) ∧
    @Get latin1 (mapOf v' V.ArgsPost) (str "json.c.0") = [str "x"].
Proof.
  destruct (@jsonProcessRequest_args latin1 listOrder exampleParseJSON (λ _, true) 2 [] (str "body") exampleJSON NewTransactionVariables)
    as (v' & err & E & He & Ha & _).
  - reflexivity.
  - vm_compute. reflexivity.
  - reflexivity.
  - right. vm_compute. discriminate.
  - intros k. reflexivity.
  - intros p1 v1 p2 v2 H1%example_paths H2%example_paths. apply (apart_spec _ examplePaths); [|exact H1|exact H2].
    vm_compute. reflexivity.
  - exists v'. destruct He as [_ He]. rewrite <- (He eq_refl). split; [exact E|].
    apply (Ha [Member (str "c"); Item 0] (JString (str "x"))); vm_compute; reflexivity.
Defined.

(** A member whose name has a dot shares its key with a nested member; only the
    later one is kept. *)
Example readJSON_dotted :
  let j := JObject [(str "a.b", JString (str "evil")); (str "a", JObject [(str "b", JString (str "good"))])] in
  readItems j (str "json") (-1) ∅ = ({[ str "json.a.b" := str "good" ]}, false).
Proof. vm_compute. reflexivity. Qed.
