(* ===== verification/MultipartProcessor.v ===== *)
(** The processors of multipart and XML bodies, and the registry of the package:
    src/internal/bodyprocessors/multipart.go, xml.go and bodyprocessors.go.

    The packages mime, mime/multipart and encoding/xml are parameters: the parts
    or tokens that a reader of the body gives, and how it ends.  So are the
    temporary files that keep the uploads. *)

From S2P Require Import Prelude GoLib StringUtil UrlTransform Variables Types Collections.
From S2P Require Import BodyBuffer TransactionState BodyProcessors JsonProcessor.

(** ** Multipart *)

(** How reading a part, or the stream of parts, ends. *)
Inductive readEnd := AtEOF | UnexpectedEOF | ReadFailed (err : bytes).

(** [multipart.Part]: its header, the name that [FormName] gives, and what can be
    read of it. *)
Record Part := mkPart {
  p_Header : gmap bytes (list bytes);
  p_FormName : bytes;
  p_data : bytes;
  p_end : readEnd;
}.

(** The packages and the directory of temporary files. *)
Class Multipart := {
  ParseMediaType : bytes → bytes * gmap bytes bytes + bytes;
  (** The parts of a body for a boundary, and the error of [NextPart] after
      them; none at the end of the stream. *)
  NewReader : bytes → bytes → list Part * option bytes;
  (** [os.CreateTemp] of the n-th part: an error, or a name and the error of
      writing to the file. *)
  CreateTemp : nat → bytes * option bytes + bytes;
}.

Section multipart.
Context `{U : !Unicode, O : !MapOrder, M : !Multipart}.
Context (HasAccessToFS : bool).

(** [p.Header.Get], for a canonical key. *)
Definition headerGet (h : gmap bytes (list bytes)) (key : bytes) : bytes := default [] (h !! key ≫= head).

Definition originFileName (p : Part) : bytes :=
  match ParseMediaType (headerGet p.(p_Header) (str "Content-Disposition")) with
  | inr _ => []
  | inl (_, params) => default [] (params !! str "filename")
  end.

Definition addTo (col : RuleVariable) (key value : bytes) (v : TransactionVariables) : TransactionVariables :=
  setMap col (Add (mapOf v col) key value) v.

Definition strictError (v : TransactionVariables) : TransactionVariables := setSingle V.MultipartStrictError (str "1") v.

(** The header lines of a part. *)
Definition addPartHeaders (p : Part) (v : TransactionVariables) : TransactionVariables :=
  foldl (λ v kvs, foldl (λ v value, addTo V.MultipartPartHeaders p.(p_FormName) (kvs.1 ++ str ": " ++ value) v) v kvs.2)
    v (range p.(p_Header)).

(** What the loop does after a part: go on, leave it, or return an error. *)
Inductive partResult := NextOne | LeaveLoop | ReturnError (err : bytes).

(** How a copy or a read of a part ends. *)
Definition afterRead (e : readEnd) : partResult :=
  match e with AtEOF => NextOne | UnexpectedEOF => LeaveLoop | ReadFailed err => ReturnError err end.

(** The upload of the n-th part: the name of the temporary file, if there is
    one. *)
Definition storeFile (n : nat) (p : Part) (v : TransactionVariables) : TransactionVariables * partResult :=
  if HasAccessToFS then
    match CreateTemp n with
    | inr err => (v, ReturnError err)
    | inl (_, Some err) => (v, ReturnError err)
    | inl (name, None) =>
        match afterRead p.(p_end) with
        | ReturnError err => (v, ReturnError err)
        | r => (addTo V.FilesTmpNames [] name v, r)
        end
    end
  else (v, afterRead p.(p_end)).

(** One part: the variables, the total size and what follows. *)
Definition processPart (n : nat) (p : Part) (v : TransactionVariables) (totalSize : Z)
    : TransactionVariables * Z * partResult :=
  let v := addPartHeaders p v in
  let size := Z.of_nat (length p.(p_data)) in
  let filename := originFileName p in
  if negb (filename =s []) then
    let '(v, r) := storeFile n p v in
    match r with
    | ReturnError err => (strictError v, totalSize, ReturnError err)
    | _ =>
        let totalSize := i64 (totalSize + size) in
        let v := addTo V.Files [] filename v in
        let v := setMap V.FilesSizes (SetIndex0 filename (Itoa size) (mapOf v V.FilesSizes)) v in
        let v := addTo V.FilesNames [] p.(p_FormName) v in
        (setSingle V.FilesCombinedSize (Itoa totalSize) v, totalSize, r)
    end
  else
    match afterRead p.(p_end) with
    | ReturnError err => (strictError v, totalSize, ReturnError err)
    | r =>
        let totalSize := i64 (totalSize + size) in
        let v := addTo V.ArgsPost p.(p_FormName) p.(p_data) v in
        (setSingle V.FilesCombinedSize (Itoa totalSize) v, totalSize, r)
    end.

Fixpoint processParts (n : nat) (ps : list Part) (err : option bytes) (v : TransactionVariables) (totalSize : Z)
    : TransactionVariables * option bytes :=
  match ps with
  | [] => match err with Some e => (strictError v, Some e) | None => (v, None) end
  | p :: ps =>
      match processPart n p v totalSize with
      | (v, totalSize, NextOne) => processParts (S n) ps err v totalSize
      | (v, _, LeaveLoop) => (v, None)
      | (v, _, ReturnError e) => (v, Some e)
      end
  end.

Definition multipartProcessRequest (mimeType b : bytes) (v : TransactionVariables)
    : run (TransactionVariables * option bytes) :=
  match ParseMediaType mimeType with
  | inr err => Done (strictError v, Some err)
  | inl (mediaType, params) =>
      if negb (HasPrefix mediaType (str "multipart/")) then Done (v, Some (str "not a multipart body"))
      else
        let '(ps, err) := NewReader b (default [] (params !! str "boundary")) in
        Done (processParts 0 ps err v 0)
  end.

Definition multipartBodyProcessor : BodyProcessor := mkBodyProcessor multipartProcessRequest noResponse.
End multipart.

(** ** What a multipart body fills in *)

Section parts.
Context `{U : !Unicode, O : !MapOrder, M : !Multipart}.
Context (HasAccessToFS : bool).

Definition isFile (p : Part) : bool := negb (originFileName p =s []).

(** How the n-th part is taken. *)
Definition outcome (n : nat) (p : Part) : partResult :=
  if isFile p && HasAccessToFS then
    match CreateTemp n with
    | inr err | inl (_, Some err) => ReturnError err
    | inl (_, None) => afterRead p.(p_end)
    end
  else afterRead p.(p_end).

(** The parts that are taken, and the error. *)
Fixpoint accepted (n : nat) (ps : list Part) (err : option bytes) : list Part * option bytes :=
  match ps with
  | [] => ([], err)
  | p :: ps =>
      match outcome n p with
      | NextOne => let '(l, e) := accepted (S n) ps err in (p :: l, e)
      | LeaveLoop => ([p], None)
      | ReturnError e => ([], Some e)
      end
  end.

Definition totalBytes (ps : list Part) : Z := foldr (λ p t, Z.of_nat (length p.(p_data)) + t) 0 ps.

(** The fields of the parts are in ARGS_POST and the files in FILES and
    FILES_NAMES, after what was there. *)
Record collected (ps : list Part) (v v' : TransactionVariables) : Prop := {
  co_fold key : foldKey (mapOf v' V.ArgsPost) key = foldKey (mapOf v V.ArgsPost) key;
  co_args key : Get (mapOf v' V.ArgsPost) key = Get (mapOf v V.ArgsPost) key ++
    (p_data <$> filter (λ p, isFile p = false ∧
       foldKey (mapOf v V.ArgsPost) p.(p_FormName) = foldKey (mapOf v V.ArgsPost) key) ps);
  co_files : Get (mapOf v' V.Files) [] = Get (mapOf v V.Files) [] ++ (originFileName <$> filter (λ p, isFile p = true) ps);
  co_names : Get (mapOf v' V.FilesNames) [] = Get (mapOf v V.FilesNames) [] ++ (p_FormName <$> filter (λ p, isFile p = true) ps);
}.

Lemma collected_nil v v' :
  mapOf v' V.ArgsPost = mapOf v V.ArgsPost → mapOf v' V.Files = mapOf v V.Files → mapOf v' V.FilesNames = mapOf v V.FilesNames →
  collected [] v v'.
Proof. intros H1 H2 H3. split; intros; rewrite ?H1, ?H2, ?H3; cbn; by rewrite ?app_nil_r. Qed.

Lemma collected_app ps1 ps2 v v1 v2 : collected ps1 v v1 → collected ps2 v1 v2 → collected (ps1 ++ ps2) v v2.
Proof.
  intros [F1 A1 B1 C1] [F2 A2 B2 C2]. split.
  - intros key. by rewrite F2, F1.
  - intros key. rewrite A2, A1, filter_app, fmap_app, <- app_assoc. do 2 f_equal. f_equal.
    apply list_filter_iff. intros p. by rewrite !F1.
  - by rewrite B2, B1, filter_app, fmap_app, <- app_assoc.
  - by rewrite C2, C1, filter_app, fmap_app, <- app_assoc.
Qed.

Lemma foldKey_Add c key value key' : foldKey (Add c key value) key' = foldKey c key'.
Proof. done. Qed.

Lemma Get_Add c key value key' :
  Get (Add c key value) key' = if decide (foldKey c key = foldKey c key') then Get c key' ++ [value] else Get c key'.
Proof. apply (Get_laws c key key' value [] 0). Qed.

Lemma mapOf_addTo col key value v w :
  mapOf (addTo col key value v) w = if decide (col = w) then Add (mapOf v col) key value else mapOf v w.
Proof. unfold addTo. apply mapOf_setMap. Qed.

Lemma singleOf_addTo col key value v w : singleOf (addTo col key value v) w = singleOf v w.
Proof. apply singleOf_setMap. Qed.

Lemma addPartHeaders_map p v w : w ≠ V.MultipartPartHeaders → mapOf (addPartHeaders p v) w = mapOf v w.
Proof.
  intros Hw. unfold addPartHeaders. generalize (range (p_Header p)). intros l. revert v.
  induction l as [|[k vs] l IH]; intros v; [done|]. cbn [foldl fst snd]. rewrite IH. clear IH. revert v.
  induction vs as [|x vs IH]; intros v; [done|]. cbn [foldl]. rewrite IH, mapOf_addTo. by rewrite decide_False.
Qed.

Lemma addPartHeaders_single p v w : singleOf (addPartHeaders p v) w = singleOf v w.
Proof.
  unfold addPartHeaders. generalize (range (p_Header p)). intros l. revert v.
  induction l as [|[k vs] l IH]; intros v; [done|]. cbn [foldl fst snd]. rewrite IH. clear IH. revert v.
  induction vs as [|x vs IH]; intros v; [done|]. cbn [foldl]. by rewrite IH, singleOf_addTo.
Qed.
End parts.

#[local] Hint Rewrite @mapOf_addTo @singleOf_addTo @addPartHeaders_single : coraza.

Section request.
Context `{U : !Unicode, O : !MapOrder, M : !Multipart}.
Context (HasAccessToFS : bool).

(** The variables that the theorems speak of are apart from one another. *)
Ltac vars := repeat (rewrite ?mapOf_setMap, ?mapOf_setSingle, ?singleOf_setMap, ?singleOf_setSingle, ?mapOf_addTo, ?singleOf_addTo,
    ?addPartHeaders_single; (rewrite ?decide_True by done); (rewrite ?decide_False by done); rewrite ?addPartHeaders_map by done).

Lemma collected_field p v : isFile p = false →
  collected [p] v (addTo V.ArgsPost p.(p_FormName) p.(p_data) (addPartHeaders p v)).
Proof.
  intros Hp. split; intros; vars; rewrite ?foldKey_Add; try done.
  - rewrite Get_Add. rewrite filter_cons, filter_nil. case_decide as E.
    + by rewrite decide_True.
    + rewrite decide_False by naive_solver. by rewrite app_nil_r.
  - rewrite filter_cons, filter_nil, decide_False by (rewrite Hp; done). by rewrite app_nil_r.
  - rewrite filter_cons, filter_nil, decide_False by (rewrite Hp; done). by rewrite app_nil_r.
Qed.

Lemma collected_file p v v1 size : isFile p = true →
  mapOf v1 V.ArgsPost = mapOf v V.ArgsPost → mapOf v1 V.Files = mapOf v V.Files → mapOf v1 V.FilesNames = mapOf v V.FilesNames →
  let v2 := addTo V.Files [] (originFileName p) v1 in
  collected [p] v (addTo V.FilesNames [] p.(p_FormName)
    (setMap V.FilesSizes (SetIndex0 (originFileName p) size (mapOf v2 V.FilesSizes)) v2)).
Proof.
  intros Hp H1 H2 H3. split; intros; vars; rewrite ?H1, ?H2, ?H3; rewrite ?filter_cons, ?filter_nil, ?Hp; try done.
  - rewrite decide_False by naive_solver. by rewrite app_nil_r.
  - by rewrite Get_Add, !decide_True.
  - by rewrite Get_Add, !decide_True.
Qed.

Lemma storeFile_spec n p v : isFile p = true →
  let '(v', r) := storeFile HasAccessToFS n p v in
  r = outcome HasAccessToFS n p ∧ (∀ w, singleOf v' w = singleOf v w) ∧
  ∀ w, w ≠ V.FilesTmpNames → mapOf v' w = mapOf v w.
Proof.
  intros Hp. unfold storeFile, outcome. rewrite Hp. destruct HasAccessToFS; [|done].
  destruct (CreateTemp n) as [[name [err|]]|err]; [done| |done].
  destruct (afterRead (p_end p)); [| |done]; (split; [done|]; split; [intros w; by rewrite singleOf_addTo|]);
    intros w Hw; by rewrite mapOf_addTo, decide_False.
Qed.

Lemma processPart_spec n p v t :
  let '(v', t', r) := processPart HasAccessToFS n p v t in
  r = outcome HasAccessToFS n p ∧
  match r with
  | ReturnError _ => collected [] v v' ∧ singleOf v' V.MultipartStrictError = str "1" ∧
      singleOf v' V.FilesCombinedSize = singleOf v V.FilesCombinedSize
  | _ => collected [p] v v' ∧ singleOf v' V.MultipartStrictError = singleOf v V.MultipartStrictError ∧
      t' = i64 (t + Z.of_nat (length p.(p_data))) ∧ singleOf v' V.FilesCombinedSize = Itoa t'
  end.
Proof.
  unfold processPart. fold (isFile p). destruct (isFile p) eqn:Hp.
  - pose proof (storeFile_spec n p (addPartHeaders p v) Hp) as Hs.
    destruct (storeFile HasAccessToFS n p (addPartHeaders p v)) as [v1 r]. destruct Hs as (-> & Hs1 & Hm1).
    assert (∀ w, w ≠ V.FilesTmpNames → w ≠ V.MultipartPartHeaders → mapOf v1 w = mapOf v w) as Hm.
    { intros w H1 H2. rewrite Hm1 by done. by apply addPartHeaders_map. }
    destruct (outcome HasAccessToFS n p); (split; [done|]).
    3: { split; [apply collected_nil; unfold strictError; vars; by apply Hm|]. unfold strictError. vars. by rewrite Hs1, addPartHeaders_single. }
    all: split; [|vars; by rewrite Hs1, addPartHeaders_single].
    all: apply (collected_app [p] [] v (addTo V.FilesNames [] (p_FormName p) (setMap V.FilesSizes
           (SetIndex0 (originFileName p) (Itoa (Z.of_nat (length (p_data p)))) (mapOf (addTo V.Files [] (originFileName p) v1) V.FilesSizes))
           (addTo V.Files [] (originFileName p) v1))));
      [apply collected_file; [done|by apply Hm..]|apply collected_nil; by vars].
  - assert (outcome HasAccessToFS n p = afterRead (p_end p)) as Ho by (unfold outcome; by rewrite Hp). rewrite <- Ho.
    destruct (outcome HasAccessToFS n p); (split; [done|]).
    3: { split; [apply collected_nil; unfold strictError; by vars|]. unfold strictError. by vars. }
    all: split; [|by vars].
    all: apply (collected_app [p] [] v (addTo V.ArgsPost (p_FormName p) (p_data p) (addPartHeaders p v)));
      [by apply collected_field|apply collected_nil; by vars].
Qed.

Lemma processParts_spec ps err : ∀ n v t,
  let '(v', e) := processParts HasAccessToFS n ps err v t in
  let '(l, e') := accepted HasAccessToFS n ps err in
  e = e' ∧ collected l v v' ∧
  singleOf v' V.MultipartStrictError = match e with Some _ => str "1" | None => singleOf v V.MultipartStrictError end ∧
  singleOf v' V.FilesCombinedSize = match l with [] => singleOf v V.FilesCombinedSize | _ => Itoa (i64 (t + totalBytes l)) end.
Proof.
  induction ps as [|p ps IH]; intros n v t; cbn [processParts accepted].
  - destruct err; (split; [done|]); (split; [apply collected_nil; unfold strictError; by vars|]); unfold strictError; by vars.
  - pose proof (processPart_spec n p v t) as H. destruct (processPart HasAccessToFS n p v t) as [[v1 t1] r].
    destruct H as [-> H]. destruct (outcome HasAccessToFS n p).
    + destruct H as (Hc & Hs & -> & Hz). specialize (IH (S n) v1 (i64 (t + Z.of_nat (length p.(p_data))))).
      destruct (processParts HasAccessToFS (S n) ps err v1 _) as [v2 e]. destruct (accepted HasAccessToFS (S n) ps err) as [l e'].
      destruct IH as (-> & Hc' & Hs' & Hz'). split; [done|]. split; [by apply (collected_app [p] l v v1)|].
      split; [by rewrite Hs', Hs|]. rewrite Hz'. cbn [totalBytes foldr]. destruct l as [|q l].
      * rewrite Hz. cbn. by rewrite Z.add_0_r.
      * rewrite i64_add, <- Z.add_assoc. done.
    + destruct H as (Hc & Hs & -> & Hz). split; [done|]. split; [done|]. split; [done|].
      rewrite Hz. cbn. by rewrite Z.add_0_r.
    + destruct H as (Hc & Hs & Hz). split; [done|]. split; [done|]. done.
Qed.

(** C16: A multipart body: the parts are taken up to the first that cannot be read, a
    part that is cut short included.  Their fields are then in ARGS_POST under
    their names, in order, and the files in FILES and FILES_NAMES;
    FILES_COMBINED_SIZE counts the bytes of both.  MULTIPART_STRICT_ERROR is
    set exactly when the processor fails. *)
Theorem multipart_collects mime b v mediaType params :
  ParseMediaType mime = inl (mediaType, params) → HasPrefix mediaType (str "multipart/") = true →
  ∃ v' err, multipartProcessRequest HasAccessToFS mime b v = Done (v', err) ∧
    let '(ps, e) := NewReader b (default [] (params !! str "boundary")) in
    let '(l, e) := accepted HasAccessToFS 0 ps e in
    err = e ∧ collected l v v' ∧
    singleOf v' V.MultipartStrictError = match err with Some _ => str "1" | None => singleOf v V.MultipartStrictError end ∧
    (l ≠ [] → singleOf v' V.FilesCombinedSize = Itoa (i64 (totalBytes l))).
Proof.
  intros Hm Hp. unfold multipartProcessRequest. rewrite Hm, Hp. cbn [negb].
  destruct (NewReader b _) as [ps e]. pose proof (processParts_spec ps e 0 v 0) as H.
  destruct (processParts HasAccessToFS 0 ps e v 0) as [v' err]. exists v', err. split; [done|].
  destruct (accepted HasAccessToFS 0 ps e) as [l e']. destruct H as (-> & Hc & Hs & Hz). split_and!; [done..|].
  intros Hl. rewrite Hz. by destruct l.
Qed.
End request.

(** ** XML *)

(** [xml.Token], and how the tokens end: at the end of the input, expected or
    not, or with another error. *)
Inductive xmlToken := StartElement (attrs : list bytes) | CharData (text : bytes) | OtherToken.

Class XMLDecoder := { Tokens : bytes → list xmlToken * readEnd }.

Section xml.
Context `{U : !Unicode, O : !MapOrder, X : !XMLDecoder}.

Fixpoint readTokens (tokens : list xmlToken) (attrs content : list bytes) : list bytes * list bytes :=
  match tokens with
  | [] => (attrs, content)
  | StartElement l :: tokens => readTokens tokens (attrs ++ l) content
  | CharData text :: tokens =>
      let c := TrimSpace text in
      readTokens tokens attrs (if negb (c =s []) then content ++ [c] else content)
  | OtherToken :: tokens => readTokens tokens attrs content
  end.

Definition readXML (b : bytes) : list bytes * list bytes + bytes :=
  let '(tokens, e) := Tokens b in
  match e with
  | ReadFailed err => inr err
  | AtEOF | UnexpectedEOF => inl (readTokens tokens [] [])
  end.

Definition xmlProcessRequest (mime b : bytes) (v : TransactionVariables) : run (TransactionVariables * option bytes) :=
  match readXML b with
  | inr err => Done (v, Some err)
  | inl (values, contents) =>
      let col := Set_ (mapOf v V.RequestXML) (str "//@*") values in
      Done (setMap V.RequestXML (Set_ col (str "/*") contents) v, None)
  end.

Definition xmlBodyProcessor : BodyProcessor := mkBodyProcessor xmlProcessRequest noResponse.

Definition attributes (tokens : list xmlToken) : list bytes :=
  flat_map (λ t, match t with StartElement l => l | _ => [] end) tokens.

Definition texts (tokens : list xmlToken) : list bytes :=
  flat_map (λ t, match t with
                 | CharData text => if TrimSpace text =s [] then [] else [TrimSpace text]
                 | _ => []
                 end) tokens.

Lemma readTokens_eq tokens : ∀ attrs content,
  readTokens tokens attrs content = (attrs ++ attributes tokens, content ++ texts tokens).
Proof.
  induction tokens as [|[l|text|] tokens IH]; intros attrs content; cbn [readTokens]; [cbn; by rewrite !app_nil_r|..|by rewrite IH].
  - rewrite IH. cbn. by rewrite <- app_assoc.
  - rewrite IH. cbn. destruct (TrimSpace text =s []); cbn; [done|]. by rewrite <- app_assoc.
Qed.

(** An XML body that can be read, also when it is cut short, gives all attribute
    values and all text that is not blank, in order; otherwise nothing
    changes. *)
Theorem xml_collects mime b v :
  (∃ err, (Tokens b).2 = ReadFailed err ∧ xmlProcessRequest mime b v = Done (v, Some err)) ∨
  ∃ v', xmlProcessRequest mime b v = Done (v', None) ∧
    Get (mapOf v' V.RequestXML) (str "//@*") = attributes (Tokens b).1 ∧
    Get (mapOf v' V.RequestXML) (str "/*") = texts (Tokens b).1.
Proof.
  assert (foldKey (mapOf v V.RequestXML) (str "/*") ≠ foldKey (mapOf v V.RequestXML) (str "//@*")) as Hne.
  { unfold foldKey. destruct (isCaseSensitive _); [done|]. rewrite !ToLower_ascii by (by apply asciib_true). done. }
  unfold xmlProcessRequest, readXML. destruct (Tokens b) as [tokens e]. cbn [fst snd].
  destruct e as [| |err]; [..|left; by exists err]; right; rewrite readTokens_eq; eexists; (split; [done|]);
    rewrite mapOf_setMap, decide_True by done; (split; rewrite !Get_Set).
  all: try (rewrite decide_True by done; done).
  all: rewrite decide_False by done; by rewrite decide_True.
Qed.
End xml.

(** ** The registry of the package *)

Section registry.
Context `{U : !Unicode, O : !MapOrder, M : !Multipart, X : !XMLDecoder}.
Context (HasAccessToFS : bool) (Parse : bytes → option gjson) (Valid : bytes → bool) (limit : Z).

Definition packageProcessors : gmap bytes BodyProcessor :=
  RegisterBodyProcessor (str "json") (jsonBodyProcessor Parse Valid limit)
    (RegisterBodyProcessor (str "multipart") (multipartBodyProcessor HasAccessToFS)
      (RegisterBodyProcessor (str "xml") xmlBodyProcessor processors)).

Lemma json_total col name l s v : wp (processJSON Parse Valid col l name s v) (λ _, True).
Proof. unfold processJSON. destruct (readJSON Parse Valid s l) as [m [e|]]; done. Qed.

Lemma multipart_total mime b v : wp (multipartProcessRequest HasAccessToFS mime b v) (λ _, True).
Proof.
  unfold multipartProcessRequest. destruct (ParseMediaType mime) as [[mt ps]|err]; [|done].
  destruct (negb _); [done|]. by destruct (NewReader b _).
Qed.

Lemma xml_total mime b v : wp (xmlProcessRequest mime b v) (λ _, True).
Proof. unfold xmlProcessRequest. by destruct (readXML b) as [[? ?]|?]. Qed.
End registry.

(** ** An example *)

(** A form with the field a and a file. *)
Definition exampleParts : list Part :=
  [mkPart ∅ (str "a") (str "1") AtEOF;
   mkPart {[ str "Content-Disposition" := [str "file"] ]} (str "upload") (str "data") UnexpectedEOF].

Definition exampleMultipart : Multipart := {|
  ParseMediaType s :=
    if s =s str "file" then inl (str "form-data", {[ str "filename" := str "a.txt" ]})
    else inl (str "multipart/form-data", {[ str "boundary" := str "x" ]});
  NewReader _ _ := (exampleParts, None);
  CreateTemp _ := inl (str "/tmp/crzmp1", None);
|}.

Lemma multipart_collects_witness :
  ∃ v' err, @multipartProcessRequest latin1 listOrder exampleMultipart true (str "form") [] NewTransactionVariables = Done (v', err) ∧
    err = None ∧ @Get latin1 (mapOf v' V.ArgsPost) (str "a") = [str "1"] ∧ @Get latin1 (mapOf v' V.Files) [] = [str "a.txt"] ∧
    singleOf v' V.FilesCombinedSize = str "5".
Proof.
  destruct (@multipart_collects latin1 listOrder exampleMultipart true (str "form") [] NewTransactionVariables
    (str "multipart/form-data") {[ str "boundary" := str "x" ]}) as (v' & err & E & H).
  - reflexivity.
  - reflexivity.
  - exists v', err. split; [exact E|]. destruct H as (He & Hc & _ & Hz).
    assert (Hz' := Hz ltac:(discriminate)). split; [exact He|]. split; [|split].
    + rewrite (co_args _ _ _ Hc). vm_compute. reflexivity.
    + rewrite (co_files _ _ _ Hc). vm_compute. reflexivity.
    + rewrite Hz'. vm_compute. reflexivity.
Defined.
