(* ===== verification/Macro.v ===== *)
(** Macros: src/experimental/plugins/macro/macro.go.

    A macro is compiled to a list of tokens, each a piece of text or a
    variable; expanding it reads the variables of the transaction.  A nil
    collection (JSON) makes the expansion panic, as the Go code calls a method
    of a nil interface. *)

From S2P Require Import Prelude GoLib StringUtil Variables Types Collections BodyBuffer.
From S2P Require Import TransactionState.

Record macroToken := mkToken { tok_text : bytes; tok_variable : RuleVariable; tok_key : bytes }.

#[global] Instance macroToken_eq_dec : EqDecision macroToken.
Proof. solve_decision. Defined.

Record Macro := mkMacro { original : bytes; tokens : list macroToken }.

(** A piece of text: a token of the unknown variable. *)
Definition textToken (text : bytes) : macroToken := mkToken text V.Unknown [].

Definition isValidMacroChar (c : Z) : bool :=
  (c =? 0x5b) || (c =? 0x5d) || (c =? 0x2e) || (c =? 0x5f) || (c =? 0x2d)
  || ((c >=? 0x30) && (c <=? 0x39)) || ((c >=? 0x41) && (c <=? 0x5a)) || ((c >=? 0x61) && (c <=? 0x7a)).

Section macro.
Context `{U : !Unicode}.

(** The loop of [compile] on the rest of the input: [prev] is [input[i-1]],
    [cur] the current token. *)
Fixpoint compileLoop (input : bytes) (prev : Z) (cur : bytes) (isMacro : bool) (toks : list macroToken)
    : option (list macroToken) :=
  match input with
  | [] => Some (if (0 <? length cur)%nat then toks ++ [textToken cur] else toks)
  | c :: rest =>
      let continue :=
        if isMacro then
          if c =? 0x7d then
            if prev =? 0x2e then None else
            let '(varName, key, _) := Cut cur 0x2e in
            match Parse varName with
            | None => None
            | Some v => compileLoop rest c [] false (toks ++ [mkToken cur v (ToLower key)])
            end
          else if negb (isValidMacroChar c) then None
          else match rest with
               | [] => None
               | _ => compileLoop rest c (cur ++ [c]) true toks
               end
        else compileLoop rest c (cur ++ [c]) false toks in
      match rest with
      | d :: rest' =>
          if (c =? 0x25) && (d =? 0x7b) then
            compileLoop rest' d [] true (if (0 <? length cur)%nat then toks ++ [textToken cur] else toks)
          else continue
      | [] => continue
      end
  end.

Definition compile (input : bytes) : option Macro :=
  if (length input =? 0)%nat then None
  else mkMacro input <$> compileLoop input 0 [] false [].

Definition NewMacro (data : bytes) : option Macro :=
  if (length data =? 0)%nat then None else compile data.

Context `{O : !MapOrder}.

Definition expandToken (tx : Transaction) (token : macroToken) : run bytes :=
  if decide (token.(tok_variable) = V.Unknown) then Done token.(tok_text) else
  match Collection tx.(tx_variables) token.(tok_variable) with
  | None => Panic
  | Some col =>
      match col with
      | VKeyed k => Done (default token.(tok_text) (head (Keyed_Get k token.(tok_key))))
      | VConcatKeyed v ks => Done (default token.(tok_text) (head (Concat_Get ks token.(tok_key))))
      | VSingle _ value => Done value
      | VSize _ _ | VNoop => Done (default token.(tok_text) (Value_ <$> head (View_FindAll col)))
      end
  end.

Fixpoint expandTokens (tx : Transaction) (toks : list macroToken) : run bytes :=
  match toks with
  | [] => Done []
  | t :: toks => s ← expandToken tx t; r ← expandTokens tx toks; Done (s ++ r)
  end.

Definition Expand (m : Macro) (tx : Transaction) : run bytes :=
  match m.(tokens) with
  | [t] => expandToken tx t
  | toks => expandTokens tx toks
  end.
End macro.

(** ** Compiling what was printed *)

(** The source text of a token. *)
Definition printToken (t : macroToken) : bytes :=
  if decide (t.(tok_variable) = V.Unknown) then t.(tok_text) else str "%{" ++ t.(tok_text) ++ str "}".

(** Text without a macro opening. *)
Fixpoint noOpening (s : bytes) : bool :=
  match s with
  | [] => true
  | c :: s => negb ((c =? 0x25) && match s with d :: _ => d =? 0x7b | [] => false end) && noOpening s
  end.

Section roundtrip.
Context `{U : !Unicode}.

(** A token that [compile] can produce. *)
Definition wf_token (t : macroToken) : Prop :=
  (t = textToken t.(tok_text) ∧ t.(tok_text) ≠ [] ∧ noOpening t.(tok_text) = true) ∨
  (t.(tok_variable) ≠ V.Unknown ∧ forallb isValidMacroChar t.(tok_text) = true ∧
   last t.(tok_text) ≠ Some 0x2e ∧
   ∃ name key found, Cut t.(tok_text) 0x2e = (name, key, found) ∧
     Parse name = Some t.(tok_variable) ∧ t.(tok_key) = ToLower key).

(** No two pieces of text follow each other. *)
Fixpoint separated (ts : list macroToken) : Prop :=
  match ts with
  | t :: ((u :: _) as ts') =>
      (t.(tok_variable) = V.Unknown → u.(tok_variable) ≠ V.Unknown) ∧ separated ts'
  | _ => True
  end.

(** Reading a variable up to its closing brace. *)
Lemma compileLoop_variable s rest cur toks prev :
  forallb isValidMacroChar s = true → last (prev :: s) ≠ Some 0x2e →
  compileLoop (s ++ 0x7d :: rest) prev cur true toks =
    let '(name, key, _) := Cut (cur ++ s) 0x2e in
    match Parse name with
    | None => None
    | Some v => compileLoop rest 0x7d [] false (toks ++ [mkToken (cur ++ s) v (ToLower key)])
    end.
Proof.
  revert prev cur. induction s as [|c s IH]; intros prev cur Hs Hl.
  - rewrite app_nil_r. cbn [app compileLoop]. simpl in Hl.
    assert ((prev =? 0x2e) = false) as -> by (apply Z.eqb_neq; congruence).
    by destruct rest as [|d rest].
  - simpl in Hs. apply andb_true_iff in Hs as [Hc Hs]. cbn [app compileLoop].
    assert ((c =? 0x25) = false) as -> by (unfold isValidMacroChar in Hc; lia).
    assert ((c =? 0x7d) = false) as -> by (unfold isValidMacroChar in Hc; lia).
    rewrite Hc. cbn [negb andb]. destruct (s ++ 0x7d :: rest) as [|d r] eqn:E; [by destruct s|].
    rewrite IH, <- app_assoc; [done|done|]. by destruct s.
Qed.

(** Reading text up to a macro or the end. *)
Lemma compileLoop_text s rest cur toks prev :
  noOpening s = true → match rest with c :: _ => c ≠ 0x7b | [] => True end →
  compileLoop (s ++ rest) prev cur false toks =
    compileLoop rest (default prev (last s)) (cur ++ s) false toks.
Proof.
  revert prev cur. induction s as [|c s IH]; intros prev cur Hs Hr; [by rewrite app_nil_r|].
  cbn [noOpening] in Hs. apply andb_true_iff in Hs as [Hc Hs]. cbn [app compileLoop].
  assert (match s ++ rest with d :: _ => (c =? 0x25) && (d =? 0x7b) = false | [] => True end) as Ho.
  { destruct s as [|d s]; simpl; [destruct rest; [done|lia]|lia]. }
  assert (default prev (last (c :: s)) = default c (last s)) as -> by (rewrite last_cons; by destruct (last s)).
  destruct (s ++ rest) as [|d r] eqn:E; [|rewrite Ho]; by rewrite IH, <- app_assoc.
Qed.

(** [prev] only matters inside a macro. *)
Lemma compileLoop_prev input prev prev' cur toks :
  compileLoop input prev cur false toks = compileLoop input prev' cur false toks.
Proof. by destruct input as [|c [|d r]]. Qed.

Definition print (ts : list macroToken) : bytes := flat_map printToken ts.

Lemma print_head ts : Forall wf_token ts →
  match ts with t :: _ => t.(tok_variable) ≠ V.Unknown | [] => True end →
  match print ts with c :: _ => c ≠ 0x7b | [] => True end.
Proof.
  destruct 1 as [|t ts Ht Hts]; [done|]. intros Hv. unfold print, printToken. simpl.
  by rewrite decide_False.
Qed.

Lemma compileLoop_print ts : ∀ toks prev,
  Forall wf_token ts → separated ts → compileLoop (print ts) prev [] false toks = Some (toks ++ ts).
Proof.
  induction ts as [|t ts IH]; intros toks prev Hwf Hsep; [by rewrite app_nil_r|].
  inversion Hwf as [|?? Ht Hts]; subst. unfold print. cbn [flat_map]. fold (print ts).
  destruct Ht as [(Et & Hne & Hno)|(Hv & Hvalid & Hlast & name & key & found & Hcut & Hparse & Hkey)].
  - destruct t as [tt tv tk]. cbn in Et, Hne, Hno. unfold textToken in Et. simplify_eq.
    assert (Hsep' : match ts with u :: _ => u.(tok_variable) ≠ V.Unknown | [] => True end).
    { destruct ts as [|u ts]; [done|]. by apply Hsep. }
    unfold printToken at 1. rewrite decide_True by done. cbn [tok_text].
    rewrite compileLoop_text; [|done|by apply print_head]. cbn [app].
    destruct tt as [|x l]; [done|]. destruct ts as [|u ts]; [done|].
    (* a variable follows: the text is flushed when it opens *)
    destruct Hsep as [_ Hsep]. specialize (IH (toks ++ [textToken (x :: l)]) prev Hts Hsep).
    unfold textToken in IH. rewrite <- app_assoc in IH. cbn [app] in IH. rewrite <- IH.
    unfold print, printToken. cbn [flat_map]. rewrite decide_False by done.
    by rewrite <- !app_assoc.
  - unfold printToken. rewrite decide_False by done. rewrite <- !app_assoc.
    change (str "%{") with [0x25; 0x7b]. change (str "}") with [0x7d]. cbn [app compileLoop].
    rewrite !Z.eqb_refl. cbn [andb length Nat.ltb Nat.leb].
    rewrite compileLoop_variable; [|done|].
    + cbn [app]. rewrite Hcut, Hparse. destruct t as [tt tv tk]. cbn in *. subst tk.
      rewrite IH; [by rewrite <- app_assoc|done|]. by destruct ts; [|apply Hsep].
    + by destruct (tok_text t).
Qed.
End roundtrip.

(** Compiling the source text of any sequence of tokens (pieces of text
    without a macro opening, and variables with a parsable name) gives exactly
    those tokens. *)
Theorem compile_print `{U : Unicode} (ts : list macroToken) :
  Forall wf_token ts → separated ts → print ts ≠ [] →
  NewMacro (print ts) = Some (mkMacro (print ts) ts).
Proof.
  intros Hwf Hsep Hne. unfold NewMacro, compile. destruct (print ts) as [|c s] eqn:E; [done|].
  cbn [length Nat.eqb]. rewrite <- E. by rewrite compileLoop_print.
Qed.

Lemma compile_print_witness :
  let ts := [textToken (str "score: "); mkToken (str "TX.Score") V.TX (str "score")] in
  @NewMacro latin1 (print ts) = Some (mkMacro (str "score: %{TX.Score}") ts).
Proof.
  apply (@compile_print latin1); [|by vm_compute|done].
  apply Forall_cons_2; [left; by vm_compute|]. apply Forall_cons_2; [right|apply Forall_nil_2].
  split; [done|]. split; [by vm_compute|]. split; [by vm_compute|].
  exists (str "TX"), (str "Score"), true. by vm_compute.
Defined.

Lemma Expand_total `{U : Unicode} {O : MapOrder} (m : Macro) (tx : Transaction) :
  if existsb (λ t, bool_decide (t.(tok_variable) = V.JSON)) m.(tokens)
  then Expand m tx = Panic else ∃ s, Expand m tx = Done s.
Proof.
  assert (Ht : ∀ t, if bool_decide (t.(tok_variable) = V.JSON) then expandToken tx t = Panic
                    else ∃ s, expandToken tx t = Done s).
  { intros t. unfold expandToken. case_bool_decide as E; [by rewrite E|]. case_decide; [eauto|].
    destruct (Collection _ _) as [[]|] eqn:EC; eauto. by destruct t.(tok_variable). }
  assert (Hts : ∀ ts, if existsb (λ t, bool_decide (t.(tok_variable) = V.JSON)) ts
                      then expandTokens tx ts = Panic else ∃ s, expandTokens tx ts = Done s).
  { induction ts as [|t ts IH]; cbn; [eauto|]. specialize (Ht t).
    destruct (bool_decide _); cbn [orb]; [by rewrite Ht|]. destruct Ht as [s ->]. run_simpl.
    destruct (existsb _ ts); [by rewrite IH|]. destruct IH as [r ->]. run_simpl. eauto. }
  unfold Expand. destruct m.(tokens) as [|t [|u ts]]; [apply (Hts [])| |apply Hts].
  cbn. rewrite orb_false_r. apply Ht.
Qed.

(** Expanding a macro panics exactly when one of its tokens names the JSON
    collection, which has no data; otherwise it returns a string. *)
Theorem Expand_panics `{U : Unicode} {O : MapOrder} (m : Macro) (tx : Transaction) :
  if existsb (λ t, bool_decide (t.(tok_variable) = V.JSON)) m.(tokens)
  then Expand m tx = Panic else ∃ s, Expand m tx = Done s.
Proof. apply Expand_total. Qed.

(** A macro that can be expanded in every transaction. *)
Definition safe_macro (m : option Macro) : Prop :=
  match m with
  | Some m => Forall (λ t, t.(tok_variable) ≠ V.JSON) m.(tokens)
  | None => True
  end.

Lemma Expand_wp `{U : Unicode} {O : MapOrder} m tx : safe_macro (Some m) → wp (Expand m tx) (λ _, True).
Proof.
  intros Hm. pose proof (Expand_total m tx) as H.
  assert (existsb (λ t, bool_decide (t.(tok_variable) = V.JSON)) m.(tokens) = false) as E.
  { apply not_true_iff_false. rewrite existsb_exists. intros (t & Hin & Ht%bool_decide_eq_true).
    simpl in Hm. rewrite Forall_forall in Hm. by apply (Hm t); [apply list_elem_of_In|]. }
  rewrite E in H. by destruct H as [s ->].
Qed.
