(* ===== verification/Rule.v ===== *)
(** Rules: src/internal/corazawaf/rule.go (the [Rule] struct, its setters, its
    transformations and the matching of variables) and the actions it runs:
    src/internal/actions and src/experimental/plugins/plugintypes/action.go.

    Operators and plugin actions are functions of the transaction.  A chained
    rule is the rule with the list of the rules that follow it in its chain. *)

From S2P Require Import Prelude GoLib StringUtil UrlTransform Variables Types Collections.
From S2P Require Import BodyBuffer TransactionState Macro.

(** ** Actions *)

Inductive ActionType :=
| ActionTypeMetadata | ActionTypeDisruptive | ActionTypeData | ActionTypeNondisruptive | ActionTypeFlow.

#[global] Instance ActionType_eq_dec : EqDecision ActionType.
Proof. solve_decision. Defined.

Inductive ctlFunctionType :=
| ctlUnknown | ctlRuleRemoveByID | ctlRuleRemoveByMsg | ctlRuleRemoveByTag
| ctlRuleRemoveTargetByID | ctlRuleRemoveTargetByTag | ctlRuleRemoveTargetByMsg
| ctlAuditEngine | ctlAuditLogParts | ctlForceRequestBodyVariable | ctlRequestBodyAccess
| ctlRequestBodyLimit | ctlRequestBodyProcessor | ctlResponseBodyProcessor | ctlResponseBodyAccess
| ctlResponseBodyLimit | ctlForceResponseBodyVariable | ctlRuleEngine
| ctlHashEngine | ctlHashEnforcement | ctlDebugLogLevel.

#[global] Instance ctlFunctionType_eq_dec : EqDecision ctlFunctionType.
Proof. solve_decision. Defined.

Record ctlFn := mkCtl {
  ctl_action : ctlFunctionType;
  ctl_value : bytes;
  ctl_collection : RuleVariable;
  ctl_colKey : bytes;
  ctl_colKeyRx : option regex;
}.

(** [key] and [value] are nil when the argument has no such part. *)
Record setvarFn := mkSetvar {
  sv_key : option Macro;
  sv_value : option Macro;
  sv_collection : RuleVariable;
  sv_isRemove : bool;
}.

(** The initialised actions, with the data their evaluation uses. *)
Inductive Action :=
| AAccuracy | AAllow (allow : AllowType) | AAuditlog | ABlock | ACapture | AChain | ACtl (a : ctlFn)
| ADeny | ADrop | AExec | AExpirevar | AId | AInitcol | ALog | ALogdata | AMaturity | AMsg | AMultimatch
| ANoauditlog | ANolog | APass | APhase | ARedirect (target : bytes) | ARev
| ASetenv (key : bytes) (value : Macro) | ASetvar (a : setvarFn) | ASeverity | ASkip (n : Z)
| ASkipAfter (marker : bytes) | AStatus | AT | ATag | AVer
| APlugin (ty : ActionType) (f : RuleMetadata → Z → Transaction → run Transaction).

(** [Action.Type] *)
Definition actionType (a : Action) : ActionType :=
  match a with
  | AAccuracy | AId | AMaturity | AMsg | APhase | ARev | ASeverity | ATag | AVer => ActionTypeMetadata
  | AAllow _ | ABlock | ADeny | ADrop | APass | ARedirect _ => ActionTypeDisruptive
  | AStatus => ActionTypeData
  | AChain | ASkip _ | ASkipAfter _ => ActionTypeFlow
  | APlugin ty _ => ty
  | _ => ActionTypeNondisruptive
  end.

Record ruleActionParams := mkAction { act_Name : bytes; act_Function : Action }.

(** ** Operators and transformations *)

Record ruleOperatorParams := mkOperator {
  op_Operator : Transaction → bytes → run (Transaction * bool);
  op_Function : bytes;
  op_Data : bytes;
  op_Negation : bool;
}.

Record ruleTransformationParams := mkTransformation {
  t_Function : transformation;
  t_ID : Z;
}.

(** ** Rules *)

Record Rule := mkRule {
  r_meta : RuleMetadata;
  r_variables : list ruleVariableParams;
  r_operator : option ruleOperatorParams;
  r_transformations : list ruleTransformationParams;
  r_transformationsID : Z;
  r_transformationPrefixIDs : list Z;
  r_actions : list ruleActionParams;
  r_Capture : bool;
  r_DisruptiveStatus : Z;
  r_Msg : option Macro;
  r_LogData : option Macro;
  r_Log : bool;
  r_Audit : bool;
  r_MultiMatch : bool;
  r_HasChain : bool;
}.
#[global] Instance Rule_eta : Eta Rule := λ x,
  mkRule x.(r_meta) x.(r_variables) x.(r_operator) x.(r_transformations) x.(r_transformationsID)
    x.(r_transformationPrefixIDs) x.(r_actions) x.(r_Capture) x.(r_DisruptiveStatus) x.(r_Msg)
    x.(r_LogData) x.(r_Log) x.(r_Audit) x.(r_MultiMatch) x.(r_HasChain).

(** A rule with the rules of its chain, in order: [r.Chain], [r.Chain.Chain], ... *)
Record ChainedRule := mkChained { cr_rule : Rule; cr_chain : list Rule }.

Definition noID : Z := 0.

Definition r_ID (r : Rule) : Z := r.(r_meta).(ID_).
Definition r_ParentID (r : Rule) : Z := r.(r_meta).(ParentID_).
Definition r_Phase (r : Rule) : Z := r.(r_meta).(Phase_).

Definition NewRule : Rule :=
  mkRule (mkRuleMetadata 0 [] [] 0 [] RuleSeverityUnset [] [] 0 0 [] 2 [] [] 0)
    [] None [] 0 [] [] false 0 None None false false false false.

(** ** Setters *)

Definition AddAction (name : bytes) (action : Action) (r : Rule) : Rule :=
  r <| r_actions ::= (λ l, l ++ [mkAction name action]) |>.

Definition ClearDisruptiveActions (r : Rule) : Rule :=
  r <| r_actions ::= filter (λ a, actionType a.(act_Function) ≠ ActionTypeDisruptive) |>.

Definition caseSensitiveVariable (v : RuleVariable) : bool :=
  match v with
  | V.Args | V.ArgsNames | V.ArgsGet | V.ArgsPost | V.ArgsGetNames | V.ArgsPostNames => true
  | _ => false
  end.

Section setters.
Context `{U : !Unicode}.
(** [regexp.Compile]; the memoizer only shares its results. *)
Context (Compile : bytes → option regex).

Definition newRuleVariableParams (v : RuleVariable) (key : bytes) (re : option regex) (iscount : bool)
    : ruleVariableParams :=
  let key := if negb (caseSensitiveVariable v) then ToLower key else key in
  mkParams iscount v re key [].

(** The compiled selector of a key between slashes; [None] is an error. *)
Definition keyRegex (v : RuleVariable) (key : bytes) : option (option regex) :=
  match HasRegex key with
  | Done (true, rx) =>
      let rx := if negb (caseSensitiveVariable v) then ToLower rx else rx in
      Some <$> Compile rx
  | _ => Some None
  end.

Definition AddVariable (v : RuleVariable) (key : bytes) (iscount : bool) (r : Rule) : option Rule :=
  re ← keyRegex v key;
  Some (r <| r_variables ::= (λ l, l ++ [newRuleVariableParams v key re iscount]) |>).

Definition AddVariableNegation (v : RuleVariable) (key : bytes) (r : Rule) : option Rule :=
  re ← keyRegex v key;
  Some (r <| r_variables ::= fmap (λ rv,
    if decide (rv.(rv_Variable) = v)
    then rv <| rv_Exceptions ::= (λ l, l ++ [mkException key re]) |> else rv) |>).
End setters.

Definition SetOperator (op : Transaction → bytes → run (Transaction * bool)) (functionName params : bytes)
    (r : Rule) : Rule :=
  r <| r_operator := Some (mkOperator op functionName params
         match functionName with c :: _ => c =? 0x21 | [] => false end) |>.

(** The global tables of transformation chains: name of each identifier. *)
Record transformationIDs := mkIDs { idToName : list bytes; nameToID : gmap bytes Z }.
#[global] Instance transformationIDs_eta : Eta transformationIDs := λ x, mkIDs x.(idToName) x.(nameToID).

Definition initialIDs : transformationIDs := mkIDs [[]] {[ [] := 0 ]}.

Definition transformationID (currentID : Z) (name : bytes) (g : transformationIDs) : run (transformationIDs * Z) :=
  currName ← index g.(idToName) (Z.to_nat currentID);
  let nextName := currName ++ str "+" ++ name in
  match g.(nameToID) !! nextName with
  | Some id => Done (g, id)
  | None =>
      let id := Z.of_nat (length g.(idToName)) in
      Done (g <| idToName ::= (λ l, l ++ [nextName]) |> <| nameToID ::= <[nextName := id]> |>, id)
  end.

(** [None] is an error; a nil transformation is not modelled. *)
Definition AddTransformation (name : bytes) (t : transformation) (r : Rule) (g : transformationIDs)
    : run (transformationIDs * option Rule) :=
  if name =s [] then Done (g, None) else
  '(g, tid) ← transformationID 0 name g;
  '(g, cid) ← transformationID r.(r_transformationsID) name g;
  Done (g, Some (r <| r_transformations ::= (λ l, l ++ [mkTransformation t tid]) |>
                   <| r_transformationsID := cid |>
                   <| r_transformationPrefixIDs ::= (λ l, l ++ [cid]) |>)).

Definition ClearTransformations (r : Rule) : Rule :=
  r <| r_transformations := [] |> <| r_transformationsID := 0 |> <| r_transformationPrefixIDs := [] |>.

(** ** Transformations of a value *)

Fixpoint executeTransformationsLoop (ts : list ruleTransformationParams) (value : bytes)
    (errs : list terror) : run (bytes * list terror) :=
  match ts with
  | [] => Done (value, errs)
  | t :: ts =>
      '(v, _, err) ← t.(t_Function) value;
      match err with
      | Some e => executeTransformationsLoop ts value (errs ++ [e])
      | None => executeTransformationsLoop ts v errs
      end
  end.

Definition executeTransformations (r : Rule) (value : bytes) : run (bytes * list terror) :=
  executeTransformationsLoop r.(r_transformations) value [].

Fixpoint multimatchLoop (ts : list ruleTransformationParams) (value : bytes) (result : list bytes)
    (errs : list terror) : run (list bytes * list terror) :=
  match ts with
  | [] => Done (result, errs)
  | t :: ts =>
      '(v, changed, err) ← t.(t_Function) value;
      match err with
      | Some e => multimatchLoop ts value result (errs ++ [e])
      | None =>
          if (changed : bool) then multimatchLoop ts v (result ++ [v]) errs
          else multimatchLoop ts value result errs
      end
  end.

Definition executeTransformationsMultimatchInto (r : Rule) (result : list bytes) (value : bytes)
    : run (list bytes * list terror) :=
  multimatchLoop r.(r_transformations) value (result ++ [value]) [].
