(* ===== verification/TransformCache.v ===== *)
(** The cache of transformed values: [transformField] and the transformation
    identifiers of src/internal/corazawaf/rule.go, and the caches of
    src/internal/corazawaf/rulegroup.go.

    The key of a cached value holds the address and the length of the input,
    not the input.  A string of the model has its address, and the entry of the
    cache keeps the input alive: a string at the same address with the same
    length is the same string ([live]). *)

From S2P Require Import Prelude GoLib StringUtil UrlTransform Variables Types Collections.
From S2P Require Import Matchers TransactionCaches BodyBuffer TransactionState Macro Rule.

(** ** The cache of a phase *)

Definition newTransformationKey (arg : gostring) (v : RuleVariable) (transformationsID : Z) (multiMatch : bool)
    : transformationKey :=
  mkKey arg.(go_ptr) (length arg.(go_val)) v transformationsID multiMatch.

(** The longest cached prefix among the first [n] identifiers. *)
Fixpoint findPrefix (cache : Cache) (arg : gostring) (v : RuleVariable) (ids : list Z) (n : nat)
    : option (nat * transformationValue) :=
  match n with
  | O => None
  | S i =>
      match ids !! i with
      | Some id =>
          match cache !! newTransformationKey arg v id false with
          | Some cached => Some (i, cached)
          | None => findPrefix cache arg v ids i
          end
      | None => findPrefix cache arg v ids i
      end
  end.

(** ** The cache of single transformations *)

Definition cachedTransformationStepMinInputBytes : nat := 512.
Definition maxTransformationStepCacheEntries : nat := 512.
Definition maxTransformationStepCacheBytes : Z := Z.shiftl 16 20.

Definition store (key : transformationStepKey) (value : transformationStepValue) (cache : transformationStepCache)
    : transformationStepCache :=
  let input := Z.of_nat (length value.(sv_input)) in
  let output := Z.of_nat (length value.(sv_output)) in
  if (maxTransformationStepCacheEntries <=? size cache.(sc_values))%nat then cache
  else if (maxTransformationStepCacheBytes <? input) || (maxTransformationStepCacheBytes - input <? output) then cache
  else if maxTransformationStepCacheBytes - cache.(sc_retainedBytes) <? input + output then cache
  else mkStepCache (<[key := value]> cache.(sc_values)) (cache.(sc_retainedBytes) + (input + output)).

Section Steps.
(** The address at which a string is kept while the cache holds what it holds. *)
Context (addr : transformationStepCache → bytes → Z).

Definition executeTransformationCached (t : ruleTransformationParams) (input : bytes)
    (cache : transformationStepCache) : run (transformationStepCache * (bytes * bool * option terror)) :=
  let key := mkStepKey (addr cache input) (length input) t.(t_ID) in
  match cache.(sc_values) !! key with
  | Some cached => Done (cache, (cached.(sv_output), cached.(sv_changed), cached.(sv_err)))
  | None =>
      '(output, changed, err) ← t.(t_Function) input;
      Done (store key (mkStepValue input output changed err) cache, (output, changed, err))
  end.

(** One transformation; without a step cache, or on a short value, the
    function is called. *)
Definition executeStep (t : ruleTransformationParams) (value : bytes) (stepCache : option transformationStepCache)
    : run (option transformationStepCache * (bytes * bool * option terror)) :=
  match stepCache with
  | Some c =>
      if (cachedTransformationStepMinInputBytes <=? length value)%nat then
        '(c, res) ← executeTransformationCached t value c; Done (Some c, res)
      else res ← t.(t_Function) value; Done (Some c, res)
  | None => res ← t.(t_Function) value; Done (None, res)
  end.

(** ** The transformations of a field *)

(** The remaining transformations, each result cached: the last loop of
    [transformField] ([None]) and of [transformFieldCached] ([Some]), which
    also keeps whether the value changed. *)
Fixpoint transformFrom (arg : gostring) (v : RuleVariable) (ts : list ruleTransformationParams) (ids : list Z)
    (value : bytes) (errs : list terror) (cache : Cache) (stepCache : option transformationStepCache)
    : run (Cache * option transformationStepCache * (bytes * list terror)) :=
  match ts with
  | [] => Done (cache, stepCache, (value, errs))
  | t :: ts =>
      '(stepCache, (after, changed, err)) ← executeStep t value stepCache;
      let '(value, errs) :=
        match err with Some e => (value, errs ++ [e]) | None => (after, errs) end in
      let changed := match stepCache, err with Some _, None => changed | _, _ => false end in
      match ids with
      | [] => Panic
      | id :: ids =>
          transformFrom arg v ts ids value errs
            (<[newTransformationKey arg v id false := mkValue arg.(go_val) value errs changed]> cache) stepCache
      end
  end.

(** The body that [transformField] and [transformFieldCached] share. *)
Definition transformSearch (r : Rule) (arg : gostring) (v : RuleVariable) (cache : Cache)
    (stepCache : option transformationStepCache)
    : run (Cache * option transformationStepCache * (bytes * list terror)) :=
  if (length r.(r_transformations) =? 0)%nat then Done (cache, stepCache, (arg.(go_val), []))
  else if decide (v = V.TX) then
    res ← executeTransformations r arg.(go_val); Done (cache, stepCache, res)
  else
    let ids := r.(r_transformationPrefixIDs) in
    match findPrefix cache arg v ids (length ids) with
    | Some (i, cached) =>
        if (i =? length ids - 1)%nat then Done (cache, stepCache, (cached.(tv_arg), cached.(tv_errs)))
        else transformFrom arg v (drop (S i) r.(r_transformations)) (drop (S i) ids)
               cached.(tv_arg) cached.(tv_errs) cache stepCache
    | None => transformFrom arg v r.(r_transformations) ids arg.(go_val) [] cache stepCache
    end.

Definition transformField (r : Rule) (arg : gostring) (v : RuleVariable) (cache : Cache)
    : run (Cache * (bytes * list terror)) :=
  '(cache, _, res) ← transformSearch r arg v cache None; Done (cache, res).

Definition transformFieldCached (r : Rule) (arg : gostring) (v : RuleVariable) (cache : Cache)
    (stepCache : option transformationStepCache)
    : run (Cache * option transformationStepCache * (bytes * list terror)) :=
  if match stepCache with None => true | _ => false end
     || (length arg.(go_val) <? cachedTransformationStepMinInputBytes)%nat then
    '(cache, res) ← transformField r arg v cache; Done (cache, stepCache, res)
  else transformSearch r arg v cache stepCache.

(** The cached prefix of a multi-match: the values that changed are collected. *)
Fixpoint multimatchPrefix (cache : Cache) (arg : gostring) (v : RuleVariable) (ids : list Z) (startIdx : nat)
    (value : bytes) (errs : list terror) (result : list bytes) : nat * bytes * list terror * list bytes :=
  match ids with
  | [] => (startIdx, value, errs, result)
  | id :: ids =>
      match cache !! newTransformationKey arg v id true with
      | None => (startIdx, value, errs, result)
      | Some cached =>
          multimatchPrefix cache arg v ids (S startIdx) cached.(tv_arg) cached.(tv_errs)
            (if cached.(tv_changed) then result ++ [cached.(tv_arg)] else result)
      end
  end.

Fixpoint multimatchFrom (arg : gostring) (v : RuleVariable) (ts : list ruleTransformationParams) (ids : list Z)
    (value : bytes) (errs : list terror) (result : list bytes) (cache : Cache)
    (stepCache : option transformationStepCache)
    : run (Cache * option transformationStepCache * (list bytes * list terror)) :=
  match ts with
  | [] => Done (cache, stepCache, (result, errs))
  | t :: ts =>
      '(stepCache, (transformedValue, changed, err)) ← executeStep t value stepCache;
      let '(value, errs, result, changed) :=
        match err with
        | Some e => (value, errs ++ [e], result, false)
        | None =>
            if (changed : bool) then (transformedValue, errs, result ++ [transformedValue], true)
            else (value, errs, result, false)
        end in
      match ids with
      | [] => Panic
      | id :: ids =>
          multimatchFrom arg v ts ids value errs result
            (<[newTransformationKey arg v id true := mkValue arg.(go_val) value errs changed]> cache) stepCache
      end
  end.

Definition transformFieldMultimatchCached (r : Rule) (arg : gostring) (v : RuleVariable) (cache : Cache)
    (stepCache : option transformationStepCache) (result : list bytes)
    : run (Cache * option transformationStepCache * (list bytes * list terror)) :=
  if (length r.(r_transformations) =? 0)%nat
     || (length arg.(go_val) <? cachedTransformationStepMinInputBytes)%nat
     || bool_decide (v = V.TX) then
    res ← executeTransformationsMultimatchInto r result arg.(go_val); Done (cache, stepCache, res)
  else
    let ids := r.(r_transformationPrefixIDs) in
    let '(startIdx, value, errs, result) :=
      multimatchPrefix cache arg v ids 0 arg.(go_val) [] (result ++ [arg.(go_val)]) in
    multimatchFrom arg v (drop startIdx r.(r_transformations)) (drop startIdx ids)
      value errs result cache stepCache.

End Steps.

(** ** Identifiers of chains of transformations *)

Definition chainName (names : list bytes) : bytes := concat ((λ n, 0x2b :: n) <$> names).

Definition noPlus (name : bytes) : Prop := 0x2b ∉ name.

Lemma plus_split n1 n2 r1 r2 :
  noPlus n1 → noPlus n2 → n1 ++ r1 = n2 ++ r2 →
  (r1 = [] ∨ head r1 = Some 0x2b) → (r2 = [] ∨ head r2 = Some 0x2b) → n1 = n2 ∧ r1 = r2.
Proof.
  revert n2. induction n1 as [|c n1 IH]; intros [|d n2] H1 H2 E Hr1 Hr2; cbn [app] in E.
  - done.
  - subst r1. destruct Hr1 as [|[= ->]]; [done|]. destruct H2. by left.
  - subst r2. destruct Hr2 as [|[= ->]]; [done|]. destruct H1. by left.
  - injection E as -> E. apply not_elem_of_cons in H1 as [_ H1]. apply not_elem_of_cons in H2 as [_ H2].
    destruct (IH n2 H1 H2 E Hr1 Hr2) as [-> ->]. done.
Qed.

Lemma chainName_head names : chainName names = [] ∨ head (chainName names) = Some 0x2b.
Proof. destruct names; [by left|by right]. Qed.

(** Without a plus sign in the names, the name of a chain tells the chain. *)
Lemma chainName_inj names names' :
  Forall noPlus names → Forall noPlus names' → chainName names = chainName names' → names = names'.
Proof.
  intros H. revert names'. induction H as [|n names Hn Hns IH]; intros [|n' names'] H' E; try done.
  apply Forall_cons in H' as [Hn' Hns']. injection E as E.
  destruct (plus_split n n' _ _ Hn Hn' E (chainName_head names) (chainName_head names')) as [-> E'].
  by rewrite (IH names' Hns' E').
Qed.

Lemma chainName_snoc names n : chainName (names ++ [n]) = chainName names ++ 0x2b :: n.
Proof. unfold chainName. rewrite fmap_app, concat_app. cbn. by rewrite app_nil_r. Qed.

(** The two tables are inverse. *)
Record wf_ids (g : transformationIDs) : Prop := {
  ids_start : g.(idToName) !! 0%nat = Some [];
  ids_inverse name id : g.(nameToID) !! name = Some id ↔ 0 <= id ∧ g.(idToName) !! Z.to_nat id = Some name;
}.

Lemma initialIDs_wf : wf_ids initialIDs.
Proof.
  split; [done|]. intros name id. cbn. rewrite lookup_singleton_Some. split.
  - by intros [<- <-].
  - intros [H0 H]. destruct (Z.to_nat id) as [|n] eqn:E; [|by destruct n]. injection H as <-.
    split; [done|lia].
Qed.

Lemma transformationID_spec cur name g currName :
  wf_ids g → 0 <= cur → g.(idToName) !! Z.to_nat cur = Some currName →
  ∃ g' id, transformationID cur name g = Done (g', id) ∧ wf_ids g' ∧ 0 <= id ∧
    g'.(idToName) !! Z.to_nat id = Some (currName ++ 0x2b :: name) ∧
    g.(idToName) `prefix_of` g'.(idToName).
Proof.
  intros Hg Hcur Hname. unfold transformationID, index. rewrite Hname. run_simpl.
  change (currName ++ str "+" ++ name) with (currName ++ 0x2b :: name).
  destruct (nameToID g !! _) as [id|] eqn:E.
  - apply (ids_inverse _ Hg) in E as [??]. exists g, id. done.
  - do 2 eexists. split; [reflexivity|]. cbn. rewrite Nat2Z.id.
    assert ((idToName g ++ [currName ++ 0x2b :: name]) !! length (idToName g) = Some (currName ++ 0x2b :: name))
      as Hlast by (rewrite lookup_app_r, Nat.sub_diag by lia; done).
    split; [|split; [lia|split; [done|by apply prefix_app_r]]]. split; cbn.
    + rewrite lookup_app_l; [apply Hg|]. apply lookup_lt_Some in Hname. lia.
    + intros name' id. destruct (decide (currName ++ 0x2b :: name = name')) as [<-|Hne].
      * rewrite lookup_insert_eq. split; [intros [= <-]; rewrite Nat2Z.id; split; [lia|done]|].
        intros [H0 H]. destruct (decide (Z.to_nat id < length (idToName g))%nat) as [Hlt|Hge].
        -- rewrite lookup_app_l in H by done.
           assert (nameToID g !! (currName ++ 0x2b :: name) = Some id) by (by apply (ids_inverse _ Hg)). congruence.
        -- f_equal. apply lookup_lt_Some in H. rewrite length_app in H. cbn in H. lia.
      * rewrite lookup_insert_ne, (ids_inverse _ Hg) by done. split; intros [H0 H]; (split; [done|]).
        -- rewrite lookup_app_l; [done|]. by eapply lookup_lt_Some.
        -- destruct (decide (Z.to_nat id < length (idToName g))%nat) as [Hlt|Hge].
           ++ by rewrite lookup_app_l in H.
           ++ rewrite lookup_app_r in H by lia.
              destruct (Z.to_nat id - length (idToName g))%nat; [|by destruct n]. by injection H.
Qed.

(** ** What the entries of the caches say *)

(** Two computations that end alike, with related results. *)
Definition agrees {A B} (P : A → B → Prop) (m : run A) (m' : run B) : Prop :=
  match m, m' with
  | Done a, Done b => P a b
  | Panic, Panic | OutOfFuel, OutOfFuel => True
  | _, _ => False
  end.

Lemma agrees_bind {A B C D} (P : A → B → Prop) (Q : C → D → Prop) m m' (k : A → run C) (k' : B → run D) :
  agrees P m m' → (∀ a b, P a b → agrees Q (k a) (k' b)) →
  agrees Q (m ≫= k) (m' ≫= k').
Proof. destruct m, m'; cbn; auto; done. Qed.

Lemma agrees_self {A} (m : run A) : agrees eq m m.
Proof. by destruct m. Qed.

(** One transformation of a chain, on the value and the errors so far. *)
Definition stepOne (multi : bool) (f : transformation) (st : bytes * list terror)
    : run (bytes * list terror * bool) :=
  '(v, changed, err) ← f st.1;
  match err with
  | Some e => Done (st.1, st.2 ++ [e], false)
  | None => if multi && negb changed then Done (st.1, st.2, false) else Done (v, st.2, changed)
  end.

Fixpoint chain (multi : bool) (fs : list transformation) (st : bytes * list terror) : run (bytes * list terror) :=
  match fs with
  | [] => Done st
  | f :: fs => '(v, e, _) ← stepOne multi f st; chain multi fs (v, e)
  end.

Lemma chain_app multi fs fs' st :
  chain multi (fs ++ fs') st = (st' ← chain multi fs st; chain multi fs' st').
Proof.
  revert st. induction fs as [|f fs IH]; intros st; cbn; [done|].
  destruct (stepOne multi f st) as [[[v e] c]| |]; run_simpl; [apply IH|done|done].
Qed.

Lemma executeTransformationsLoop_chain ts v e :
  executeTransformationsLoop ts v e = chain false (t_Function <$> ts) (v, e).
Proof.
  revert v e. induction ts as [|t ts IH]; intros v e; cbn; [done|]. unfold stepOne. cbn.
  destruct (t_Function t v) as [[[v' c] [x|]]| |]; run_simpl; by rewrite ?IH.
Qed.

Section Consistency.
(** The registered transformations, by name. *)
Context (fn : bytes → transformation).
Context (addr : transformationStepCache → bytes → Z).
Context (g : transformationIDs).

(** A string at the address of a kept input, with its length, is that input. *)
Definition live (cache : Cache) (arg : gostring) : Prop :=
  ∀ k cv, cache !! k = Some cv → k.(k_input) = arg.(go_ptr) → k.(k_inputLength) = length arg.(go_val) →
  cv.(tv_input) = arg.(go_val).

Definition addr_live : Prop :=
  ∀ cache v k sv, cache.(sc_values) !! k = Some sv → k.(sk_input) = addr cache v →
  k.(sk_inputLength) = length v → sv.(sv_input) = v.

(** The name of an identifier. *)
Definition names_id (id : Z) (names : list bytes) : Prop :=
  0 <= id ∧ g.(idToName) !! Z.to_nat id = Some (chainName names).

(** An entry of the cache is the result of the last transformation of the
    chain that its identifier names, on the input that it keeps. *)
Definition entry_ok (k : transformationKey) (cv : transformationValue) : Prop :=
  ∀ names n, Forall noPlus (names ++ [n]) → names_id k.(k_transformationsID) (names ++ [n]) →
  ∃ st c, chain k.(k_multiMatch) (fn <$> names) (cv.(tv_input), []) = Done st ∧
    stepOne k.(k_multiMatch) (fn n) st = Done (cv.(tv_arg), cv.(tv_errs), c) ∧
    (k.(k_multiMatch) = true → cv.(tv_changed) = c).

Definition cache_ok (cache : Cache) : Prop := map_Forall entry_ok cache.

Definition step_ok (k : transformationStepKey) (sv : transformationStepValue) : Prop :=
  ∀ n, noPlus n → names_id k.(sk_transformationID) [n] →
  fn n sv.(sv_input) = Done (sv.(sv_output), sv.(sv_changed), sv.(sv_err)).

(** What the cache of steps keeps is bounded. *)
Definition kept (sv : transformationStepValue) : Z :=
  Z.of_nat (length sv.(sv_input)) + Z.of_nat (length sv.(sv_output)).

Record steps_ok (cache : transformationStepCache) : Prop := {
  steps_entries : map_Forall step_ok cache.(sc_values);
  steps_size : (size cache.(sc_values) <= maxTransformationStepCacheEntries)%nat;
  steps_kept : map_fold (λ _ sv n, kept sv + n) 0 cache.(sc_values) = cache.(sc_retainedBytes);
  steps_bytes : cache.(sc_retainedBytes) <= maxTransformationStepCacheBytes;
}.

Definition stepCache_ok (c : option transformationStepCache) : Prop := from_option steps_ok True c.

(** The transformations of a rule are those of its list of names, with the
    identifiers of the names and of the prefixes of the list. *)
Definition named (n : bytes) (t : ruleTransformationParams) : Prop :=
  noPlus n ∧ t.(t_Function) = fn n ∧ names_id t.(t_ID) [n].

Definition prefix_ids (pre names : list bytes) (ids : list Z) : Prop :=
  length ids = length names ∧
  ∀ i id, ids !! i = Some id → names_id id (pre ++ take (S i) names).

Record rule_chain (names : list bytes) (r : Rule) : Prop := {
  chain_named : Forall2 named names r.(r_transformations);
  chain_prefixes : prefix_ids [] names r.(r_transformationPrefixIDs);
  chain_id : names_id r.(r_transformationsID) names;
}.

Lemma names_id_inj id names names' :
  Forall noPlus names → Forall noPlus names' → names_id id names → names_id id names' → names = names'.
Proof. intros H H' [_ E] [_ E']. apply chainName_inj; congruence. Qed.

Lemma named_noPlus names ts : Forall2 named names ts → Forall noPlus names.
Proof. induction 1 as [|n t names ts [Hn _] _ IH]; by constructor. Qed.

Lemma named_functions names ts : Forall2 named names ts → t_Function <$> ts = fn <$> names.
Proof. induction 1 as [|n t names ts (_ & E & _) _ IH]; cbn; [done|by rewrite E, IH]. Qed.

(** ** Storing and executing a step *)

Lemma store_ok k sv cache :
  cache.(sc_values) !! k = None → step_ok k sv → steps_ok cache → steps_ok (store k sv cache).
Proof.
  intros Hk Hsv [He Hs Hr Hb]. unfold store. fold (kept sv).
  destruct (Nat.leb_spec maxTransformationStepCacheEntries (size (sc_values cache))); [done|].
  destruct (_ || _); [done|]. destruct (Z.ltb_spec (maxTransformationStepCacheBytes - sc_retainedBytes cache) (kept sv));
    [done|]. split; cbn [sc_values sc_retainedBytes].
  - by apply map_Forall_insert_2.
  - rewrite map_size_insert_None by done. lia.
  - rewrite map_fold_insert_L by (done || (intros; lia)). lia.
  - lia.
Qed.

(** Executing through the cache of steps gives what the function gives, and
    the cache stays consistent. *)
Lemma executeTransformationCached_agrees n t v cache :
  addr_live → steps_ok cache → named n t →
  agrees (λ '(c, res) res', res = res' ∧ steps_ok c)
    (executeTransformationCached addr t v cache) (t.(t_Function) v).
Proof.
  intros Ha Hc (Hn & Hf & Hid). unfold executeTransformationCached.
  destruct (sc_values cache !! _) as [sv|] eqn:E.
  - pose proof (steps_entries _ Hc _ _ E n Hn Hid) as H.
    rewrite (Ha _ _ _ _ E eq_refl eq_refl) in H. by rewrite Hf, H.
  - destruct (t_Function t v) as [[[o c] err]| |] eqn:Ef; [|done|done]. run_simpl. cbn. split; [done|].
    apply store_ok; [done| |done]. intros n' Hn' Hid'. cbn in *.
    assert ([n'] = [n]) as [= ->] by (eapply names_id_inj; eauto). by rewrite <- Hf.
Qed.

Lemma executeStep_agrees n t v sc :
  addr_live → stepCache_ok sc → named n t →
  agrees (λ '(c, res) res', res = res' ∧ stepCache_ok c) (executeStep addr t v sc) (t.(t_Function) v).
Proof.
  intros Ha Hc Hn. unfold executeStep. destruct sc as [c|]; [destruct (_ <=? _)%nat|].
  - pose proof (executeTransformationCached_agrees n t v c Ha Hc Hn) as H.
    destruct (executeTransformationCached addr t v c) as [[c' res]| |], (t_Function t v) as [res'| |]; done.
  - destruct (t_Function t v); cbn; auto.
  - destruct (t_Function t v); cbn; auto.
Qed.

(** ** The loops *)

Lemma cache_insert multi pre n st value errs c changed id arg v cache :
  cache_ok cache → Forall noPlus (pre ++ [n]) → names_id id (pre ++ [n]) →
  chain multi (fn <$> pre) (arg.(go_val), []) = Done st →
  stepOne multi (fn n) st = Done (value, errs, c) → (multi = true → changed = c) →
  cache_ok (<[newTransformationKey arg v id multi := mkValue arg.(go_val) value errs changed]> cache).
Proof.
  intros Hc Hn Hid Hchain Hstep Hchg. apply map_Forall_insert_2; [|done].
  intros names n' Hn' Hid'. cbn in Hid'.
  assert (names ++ [n'] = pre ++ [n]) as E by (by eapply names_id_inj).
  apply app_inj_2 in E as [-> [= ->]]; [|done]. by exists st, c.
Qed.

Lemma prefix_ids_cons pre n names ids :
  prefix_ids pre (n :: names) ids →
  ∃ id ids', ids = id :: ids' ∧ names_id id (pre ++ [n]) ∧ prefix_ids (pre ++ [n]) names ids'.
Proof.
  intros [Hl Hi]. destruct ids as [|id ids']; [done|]. exists id, ids'. split; [done|].
  split; [exact (Hi 0%nat id eq_refl)|]. split; [by injection Hl|].
  intros i id' E. rewrite <- app_assoc. exact (Hi (S i) id' E).
Qed.

Lemma chain_snoc multi pre n st value errs c arg :
  chain multi (fn <$> pre) (arg.(go_val), []) = Done st →
  stepOne multi (fn n) st = Done (value, errs, c) →
  chain multi (fn <$> (pre ++ [n])) (arg.(go_val), []) = Done (value, errs).
Proof. intros H1 H2. rewrite fmap_app, chain_app, H1. run_simpl. cbn. by rewrite H2. Qed.

(** The two caches, after a computation with the given result. *)
Definition caches_ok {A} (out : Cache * option transformationStepCache * A) (res : A) : Prop :=
  out.2 = res ∧ cache_ok out.1.1 ∧ stepCache_ok out.1.2.

Lemma transformFrom_agrees arg v ts ids names pre value errs cache sc :
  addr_live → Forall2 named names ts → Forall noPlus pre → prefix_ids pre names ids →
  chain false (fn <$> pre) (arg.(go_val), []) = Done (value, errs) → cache_ok cache → stepCache_ok sc →
  agrees caches_ok (transformFrom addr arg v ts ids value errs cache sc) (executeTransformationsLoop ts value errs).
Proof.
  intros Ha Hn. revert ids pre value errs cache sc.
  induction Hn as [|n t names ts Hnt Hn IH]; intros ids pre value errs cache sc Hpre Hids Hch Hc Hs; [done|].
  cbn [transformFrom executeTransformationsLoop].
  apply prefix_ids_cons in Hids as (id & ids' & -> & Hid & Hids).
  assert (Forall noPlus (pre ++ [n])) as Hpre'
    by (apply Forall_app; split; [done|]; by apply Forall_singleton, Hnt).
  pose proof (executeStep_agrees n t value sc Ha Hs Hnt) as Hstep. destruct Hnt as (_ & Hf & _).
  destruct (executeStep addr t value sc) as [[sc' res]| |], (t_Function t value) as [res'| |] eqn:E; try done.
  destruct Hstep as [-> Hs']. destruct res' as [[after changed] err]. run_simpl.
  assert (∃ c, stepOne false (fn n) (value, errs)
    = Done (match err with Some e => (value, errs ++ [e]) | None => (after, errs) end, c)) as [c Hone]
    by (unfold stepOne; cbn; rewrite <- Hf, E; run_simpl; destruct err; eauto).
  destruct err as [e|]; (eapply IH; [done|done| |by eapply cache_insert|done]; by eapply chain_snoc).
Qed.

Lemma findPrefix_spec cache arg v ids n i cached :
  findPrefix cache arg v ids n = Some (i, cached) →
  (i < n)%nat ∧ ∃ id, ids !! i = Some id ∧ cache !! newTransformationKey arg v id false = Some cached.
Proof.
  induction n as [|n IH]; cbn [findPrefix]; [done|]. destruct (ids !! n) as [id|] eqn:Eid.
  - destruct (cache !! _) as [cv|] eqn:E; [|intros H; destruct (IH H); split; [lia|done]].
    intros [= <- <-]. split; [lia|]. by exists id.
  - intros H; destruct (IH H); split; [lia|done].
Qed.

Lemma prefix_ids_drop names ids i :
  prefix_ids [] names ids → prefix_ids (take i names) (drop i names) (drop i ids).
Proof.
  intros [Hl Hi]. split; [rewrite !length_drop; lia|]. intros j id E. rewrite lookup_drop in E.
  apply Hi in E. cbn [app] in E. by rewrite take_take_drop, Nat.add_succ_r.
Qed.

(** A cached prefix gives the state of the chain after that prefix. *)
Lemma cached_chain arg v cache names ids i id multi cached :
  live cache arg → cache_ok cache → Forall noPlus names → prefix_ids [] names ids → ids !! i = Some id →
  cache !! newTransformationKey arg v id multi = Some cached →
  ∃ st n c, names !! i = Some n ∧ chain multi (fn <$> take i names) (arg.(go_val), []) = Done st ∧
    stepOne multi (fn n) st = Done (cached.(tv_arg), cached.(tv_errs), c) ∧ (multi = true → cached.(tv_changed) = c).
Proof.
  intros Hl Hc Hn [Hlen Hids] Hid E.
  destruct (lookup_lt_is_Some_2 names i) as [n Hni]; [rewrite <- Hlen; by eapply lookup_lt_Some|].
  pose proof (Hids i id Hid) as Hname. cbn [app] in Hname. rewrite (take_S_r _ _ _ Hni) in Hname.
  destruct (Hc _ _ E (take i names) n) as (st & c & H1 & H2 & H3).
  - rewrite <- (take_S_r _ _ _ Hni). by apply Forall_take.
  - done.
  - rewrite (Hl _ _ E eq_refl eq_refl) in H1. by exists st, n, c.
Qed.

Lemma transformSearch_agrees names r arg v cache sc :
  addr_live → rule_chain names r → live cache arg → cache_ok cache → stepCache_ok sc →
  agrees caches_ok (transformSearch addr r arg v cache sc) (executeTransformations r arg.(go_val)).
Proof.
  intros Ha [Hn Hids _] Hl Hc Hs. unfold transformSearch, executeTransformations.
  pose proof (named_noPlus _ _ Hn) as Hplus. pose proof (Forall2_length _ _ _ Hn) as Hlen.
  destruct (Nat.eqb_spec (length (r_transformations r)) 0) as [E|_].
  { apply nil_length_inv in E. by rewrite E. }
  destruct (decide (v = V.TX)) as [_|_]; [by destruct (executeTransformationsLoop _ _ _)|].
  destruct (findPrefix _ _ _ _ _) as [[i cached]|] eqn:E; [|by apply transformFrom_agrees with names []].
  apply findPrefix_spec in E as (Hi & id & Hid & E).
  destruct (cached_chain arg v cache names _ i id false cached Hl Hc Hplus Hids Hid E)
    as (st & n & c & Hni & Hch & Hst & _).
  pose proof (chain_snoc false _ n _ _ _ _ arg Hch Hst) as Hall. rewrite <- (take_S_r _ _ _ Hni) in Hall.
  assert (executeTransformationsLoop (r_transformations r) (go_val arg) [] =
    executeTransformationsLoop (drop (S i) (r_transformations r)) (tv_arg cached) (tv_errs cached)) as ->.
  { rewrite !executeTransformationsLoop_chain, fmap_drop, (named_functions _ _ Hn).
    rewrite <- (take_drop (S i) (fn <$> names)) at 1. by rewrite chain_app, <- fmap_take, Hall. }
  destruct (Nat.eqb_spec i (length (r_transformationPrefixIDs r) - 1)) as [->|_].
  - rewrite drop_ge; [done|]. rewrite <- Hlen, <- (proj1 Hids). lia.
  - apply transformFrom_agrees with (drop (S i) names) (take (S i) names); try done.
    + by apply Forall2_drop.
    + by apply Forall_take.
    + by apply prefix_ids_drop.
Qed.

Lemma multimatch_step t ts v e value errs c result :
  stepOne true t.(t_Function) (v, e) = Done (value, errs, c) →
  multimatchLoop (t :: ts) v result e = multimatchLoop ts value (if c then result ++ [value] else result) errs.
Proof.
  intros H. cbn. unfold stepOne in H. cbn [fst snd] in H.
  destruct (t_Function t v) as [[[v' ch] [x|]]| |]; try discriminate H; cbn in H |- *; revert H;
    [|destruct ch]; by intros [= <- <- <-].
Qed.

Lemma multimatchFrom_agrees arg v ts ids names pre value errs result cache sc :
  addr_live → Forall2 named names ts → Forall noPlus pre → prefix_ids pre names ids →
  chain true (fn <$> pre) (arg.(go_val), []) = Done (value, errs) → cache_ok cache → stepCache_ok sc →
  agrees caches_ok (multimatchFrom addr arg v ts ids value errs result cache sc) (multimatchLoop ts value result errs).
Proof.
  intros Ha Hn. revert ids pre value errs result cache sc.
  induction Hn as [|n t names ts Hnt Hn IH]; intros ids pre value errs result cache sc Hpre Hids Hch Hc Hs; [done|].
  cbn [multimatchFrom multimatchLoop].
  apply prefix_ids_cons in Hids as (id & ids' & -> & Hid & Hids).
  assert (Forall noPlus (pre ++ [n])) as Hpre'
    by (apply Forall_app; split; [done|]; by apply Forall_singleton, Hnt).
  pose proof (executeStep_agrees n t value sc Ha Hs Hnt) as Hstep. destruct Hnt as (_ & Hf & _).
  destruct (executeStep addr t value sc) as [[sc' res]| |], (t_Function t value) as [res'| |] eqn:E; try done.
  destruct Hstep as [-> Hs']. destruct res' as [[after changed] err]. run_simpl.
  assert (stepOne true (fn n) (value, errs) = Done (match err with
    | Some e => (value, errs ++ [e], false)
    | None => if changed : bool then (after, errs, true) else (value, errs, false) end)) as Hone
    by (unfold stepOne; cbn; rewrite <- Hf, E; run_simpl; by destruct err, changed).
  destruct err as [e|]; [|destruct changed];
    (eapply IH; [done|done| |by eapply cache_insert|done]; by eapply chain_snoc).
Qed.

Lemma multimatchPrefix_spec arg v cache ts ids names pre k value errs result :
  live cache arg → cache_ok cache → Forall2 named names ts → Forall noPlus pre → prefix_ids pre names ids →
  chain true (fn <$> pre) (arg.(go_val), []) = Done (value, errs) →
  ∃ j value' errs' result',
    multimatchPrefix cache arg v ids k value errs result = ((k + j)%nat, value', errs', result') ∧
    multimatchLoop ts value result errs = multimatchLoop (drop j ts) value' result' errs' ∧
    Forall noPlus (pre ++ take j names) ∧
    chain true (fn <$> (pre ++ take j names)) (arg.(go_val), []) = Done (value', errs') ∧
    prefix_ids (pre ++ take j names) (drop j names) (drop j ids).
Proof.
  intros Hl Hc Hn. revert ids pre k value errs result.
  induction Hn as [|n t names ts Hnt Hn IH]; intros ids pre k value errs result Hpre Hids Hch.
  { exists 0%nat, value, errs, result. rewrite Nat.add_0_r. cbn. rewrite app_nil_r.
    destruct ids; [done|]. by destruct Hids. }
  pose proof Hids as Hids0. apply prefix_ids_cons in Hids as (id & ids' & -> & Hid & Hids). cbn [multimatchPrefix].
  destruct (cache !! _) as [cached|] eqn:E.
  2:{ exists 0%nat, value, errs, result. rewrite Nat.add_0_r. cbn. rewrite app_nil_r. done. }
  assert (Forall noPlus (pre ++ [n])) as Hpre'
    by (apply Forall_app; split; [done|]; by apply Forall_singleton, Hnt).
  destruct (Hc _ _ E pre n Hpre' Hid) as (st & c & H1 & H2 & H3). cbn in H1, H2, H3.
  rewrite (Hl _ _ E eq_refl eq_refl), Hch in H1. injection H1 as <-. rewrite (H3 eq_refl).
  destruct (IH ids' (pre ++ [n]) (S k) (tv_arg cached) (tv_errs cached)
    (if c then result ++ [tv_arg cached] else result) Hpre' Hids (chain_snoc true _ n _ _ _ _ arg Hch H2))
    as (j & value' & errs' & result' & E1 & E2 & E3 & E4 & E5).
  exists (S j), value', errs', result'. cbn [take drop]. rewrite (cons_middle n pre). 
  rewrite E1, Nat.add_succ_r. split; [done|]. rewrite app_assoc. split; [|done].
  rewrite <- E2. apply multimatch_step. by rewrite (proj1 (proj2 Hnt)).
Qed.

End Consistency.

Lemma names_id_mono (g g' : transformationIDs) id names :
  g.(idToName) `prefix_of` g'.(idToName) → names_id g id names → names_id g' id names.
Proof. intros Hp [H0 H]. split; [done|]. by eapply prefix_lookup_Some. Qed.

Lemma rule_chain_mono fn (g g' : transformationIDs) names r :
  g.(idToName) `prefix_of` g'.(idToName) → rule_chain fn g names r → rule_chain fn g' names r.
Proof.
  intros Hp [H1 [H2 H3] H4]. split; [|split; [done|]|by eapply names_id_mono].
  - eapply Forall2_impl; [exact H1|]. intros n t (Hn & Hf & Hid). split; [done|]. split; [done|].
    by eapply names_id_mono.
  - intros i id E. eapply names_id_mono; [done|]. by apply H3.
Qed.

Lemma prefix_ids_snoc g names ids n id :
  prefix_ids g [] names ids → names_id g id (names ++ [n]) → prefix_ids g [] (names ++ [n]) (ids ++ [id]).
Proof.
  intros [Hl Hi] Hid. split; [rewrite !length_app; cbn; lia|]. intros i id' E. cbn [app].
  apply lookup_app_Some in E as [E|[Hge E]].
  - rewrite take_app_le by (apply lookup_lt_Some in E; lia). by apply (Hi i).
  - destruct (i - length ids)%nat eqn:Ei; [|by destruct n0]. injection E as <-.
    rewrite take_ge; [done|]. rewrite length_app. cbn. lia.
Qed.

(** Adding a transformation to a rule appends its name to the chain that
    the identifiers of the rule name, keeps the tables of identifiers
    inverse, and keeps the chain of every other rule. *)
Theorem AddTransformation_chain fn g names r name :
  wf_ids g → rule_chain fn g names r → noPlus name → name ≠ [] →
  ∃ g' r', AddTransformation name (fn name) r g = Done (g', Some r') ∧ wf_ids g' ∧
    rule_chain fn g' (names ++ [name]) r' ∧
    ∀ names' r'', rule_chain fn g names' r'' → rule_chain fn g' names' r''.
Proof.
  intros Hg Hr Hn Hne. unfold AddTransformation. rewrite (proj2 (bytes_eqb_neq _ _) Hne).
  destruct (transformationID_spec 0 name g [] Hg ltac:(lia) (ids_start _ Hg))
    as (g1 & tid & -> & Hg1 & Ht0 & Ht & Hp1). run_simpl.
  pose proof (rule_chain_mono _ _ _ _ _ Hp1 Hr) as Hr1. destruct (chain_id _ _ _ _ Hr1) as [H0 Hname].
  destruct (transformationID_spec _ name g1 _ Hg1 H0 Hname) as (g2 & cid & -> & Hg2 & Hc0 & Hc & Hp2). run_simpl.
  exists g2. eexists. split; [reflexivity|]. split; [done|]. rewrite <- chainName_snoc in Hc.
  destruct (rule_chain_mono _ _ _ _ _ Hp2 Hr1) as [R1 R2 R3]. split.
  - split; cbn.
    + apply Forall2_app; [done|]. constructor; [|constructor]. split; [done|]. split; [done|].
      apply (names_id_mono g1); [done|]. split; [done|]. cbn. by rewrite app_nil_r.
    + by apply prefix_ids_snoc.
    + done.
  - intros names' r'' H. apply (rule_chain_mono _ g1), (rule_chain_mono _ g); done.
Qed.

(** C8: the caches do not change the value of a field.  When the entries of
    the caches are what their keys say and no live string has the address of
    a kept input with other contents, the transformed value and the errors
    are those of the chain of transformations, panics included, and the
    caches stay consistent and within their bounds. *)
Theorem transformFieldCached_agrees fn addr g names r arg v cache sc :
  addr_live addr → rule_chain fn g names r → live cache arg → cache_ok fn g cache → stepCache_ok fn g sc →
  agrees (caches_ok fn g) (transformFieldCached addr r arg v cache sc) (executeTransformations r arg.(go_val)).
Proof.
  intros Ha Hr Hl Hc Hs. unfold transformFieldCached.
  destruct (_ || _); [|by eapply transformSearch_agrees].
  pose proof (transformSearch_agrees fn addr g names r arg v cache None Ha Hr Hl Hc I) as H.
  unfold transformField. destruct (transformSearch _ _ _ _ _ _) as [[[c s] res]| |],
    (executeTransformations _ _) as [res'| |]; try done.
  by destruct H as (E & ? & _).
Qed.

(** The caches do not change the values of a multi-match.  Under the same
    conditions the collected values and the errors are those of the chain of
    transformations, whatever prefix of the chain was cached. *)
Theorem transformFieldMultimatchCached_agrees fn addr g names r arg v cache sc result :
  addr_live addr → rule_chain fn g names r → live cache arg → cache_ok fn g cache → stepCache_ok fn g sc →
  agrees (caches_ok fn g) (transformFieldMultimatchCached addr r arg v cache sc result)
    (executeTransformationsMultimatchInto r result arg.(go_val)).
Proof.
  intros Ha [Hn Hids _] Hl Hc Hs. unfold transformFieldMultimatchCached, executeTransformationsMultimatchInto.
  destruct (_ || _); [by destruct (multimatchLoop _ _ _ _)|].
  destruct (multimatchPrefix_spec fn g arg v cache (r_transformations r) _ names [] 0 (go_val arg) []
    (result ++ [go_val arg]) Hl Hc Hn ltac:(constructor) Hids eq_refl) as (j & v' & e' & res' & -> & -> & Hp & Hch & Hids').
  apply (multimatchFrom_agrees fn addr g) with (drop j names) (take j names); try done.
  by apply Forall2_drop.
Qed.

(** ** Examples *)

(** An allocator: a string the cache keeps is found where the cache keeps it,
    when nothing else is kept there; another string has a new address. *)
Definition reuses (cache : transformationStepCache) (v : bytes) (p : Z) : Prop :=
  map_Forall (λ k sv, k.(sk_input) = p → k.(sk_inputLength) = length v → sv.(sv_input) = v) cache.(sc_values).

Definition reuse_addr (cache : transformationStepCache) (v : bytes) : Z :=
  let entries := map_to_list cache.(sc_values) in
  let same := (λ '(k, sv), k.(sk_input)) <$> filter (λ '(k, sv), sv.(sv_input) = v) entries in
  default (1 + foldr (λ '(k, sv), Z.max k.(sk_input)) 0 entries) (head (filter (reuses cache v) same)).

Lemma entries_below (l : list (transformationStepKey * transformationStepValue)) k sv :
  (k, sv) ∈ l → k.(sk_input) <= foldr (λ '(k, sv), Z.max k.(sk_input)) 0 l.
Proof.
  induction l as [|[k' sv'] l IH]; [by intros ?%elem_of_nil|].
  intros [[= <- <-]|H]%elem_of_cons; cbn; [lia|]. specialize (IH H). lia.
Qed.

Lemma reuse_addr_live : addr_live reuse_addr.
Proof.
  intros cache v k sv E. unfold reuse_addr.
  destruct (filter (reuses cache v) _) as [|p ps] eqn:Ef; cbn [head default].
  - pose proof (entries_below (map_to_list (sc_values cache)) k sv) as H.
    rewrite elem_of_map_to_list in H. specialize (H E). cbn. lia.
  - assert (p ∈ p :: ps) as Hp by left. rewrite <- Ef in Hp. apply list_elem_of_filter in Hp as [Hp _].
    intros H1 H2. by apply (Hp k sv E).
Qed.

(** Two transformations with names of their own: one drops the first byte,
    the other doubles the value. *)
Definition exampleFn (name : bytes) : transformation := λ v,
  Done (if name =s str "tail" then (tail v, true, None)
        else if name =s str "twice" then (v ++ v, true, None) else (v, false, Some HexError)).

Definition exampleAdd (name : bytes) (st : run (transformationIDs * option Rule)) : run (transformationIDs * option Rule) :=
  '(g, r) ← st;
  match r with Some r => AddTransformation name (exampleFn name) r g | None => Done (g, None) end.

Definition exampleChain (names : list bytes) : transformationIDs * Rule :=
  match foldl (λ st n, exampleAdd n st) (Done (initialIDs, Some NewRule)) names with
  | Done (g, Some r) => (g, r)
  | _ => (initialIDs, NewRule)
  end.

Definition exampleNames : list bytes := [str "tail"; str "twice"; str "none"].

Lemma AddTransformation_chain_witness :
  ∃ g' r', AddTransformation (str "tail") (exampleFn (str "tail")) NewRule initialIDs = Done (g', Some r') ∧
    wf_ids g' ∧ rule_chain exampleFn g' [str "tail"] r'.
Proof.
  destruct (AddTransformation_chain exampleFn initialIDs [] NewRule (str "tail")) as (g' & r' & H1 & H2 & H3 & _).
  - exact initialIDs_wf.
  - split; [constructor| |done]. split; [done|]. intros [|i] id E; discriminate E.
  - apply (bool_decide_unpack _). vm_compute. reflexivity.
  - discriminate.
  - by exists g', r'.
Defined.

Lemma exampleChain_ok : rule_chain exampleFn (exampleChain exampleNames).1 exampleNames (exampleChain exampleNames).2.
Proof.
  assert (Forall noPlus exampleNames) as Hn by (apply (bool_decide_unpack _); vm_compute; reflexivity).
  repeat (apply Forall_cons in Hn as [? Hn]).
  split; [repeat (apply Forall2_cons; split; [by repeat split|]); by constructor| |done].
  split; [done|]. intros [|[|[|i]]] id [= <-]; done.
Qed.

(** The field that the examples transform, and the caches after it was
    transformed once. *)
Definition exampleField : gostring := mkGo 4096 (replicate 600 97).

Definition exampleCaches {A} (m : run (Cache * option transformationStepCache * A))
    : Cache * option transformationStepCache :=
  match m with Done (c, sc, _) => (c, sc) | _ => (∅, None) end.

Definition exampleOnce : Cache * option transformationStepCache :=
  exampleCaches (transformFieldCached reuse_addr (exampleChain exampleNames).2 exampleField V.Args ∅
    (Some (mkStepCache ∅ 0))).

Definition exampleOnceMulti : Cache * option transformationStepCache :=
  exampleCaches (transformFieldMultimatchCached reuse_addr (exampleChain exampleNames).2 exampleField V.Args ∅
    (Some (mkStepCache ∅ 0)) []).

Lemma emptySteps_ok fn g : stepCache_ok fn g (Some (mkStepCache ∅ 0)).
Proof. split; [apply map_Forall_empty|apply Nat.le_0_l|done|done]. Qed.

(** Every entry of the cache keeps the field. *)
Definition keepsField (cache : Cache) : bool := bool_decide (map_Forall (λ _ cv, cv.(tv_input) = exampleField.(go_val)) cache).

Lemma keepsField_live cache : keepsField cache = true → live cache exampleField.
Proof. intros H%bool_decide_eq_true_1 k cv E _ _. exact (H k cv E). Qed.

Lemma live_empty arg : live ∅ arg.
Proof. intros k cv E. by rewrite lookup_empty in E. Qed.

Lemma caches_after {A} fn g (m : run (Cache * option transformationStepCache * A)) m' :
  agrees (caches_ok fn g) m m' → cache_ok fn g (exampleCaches m).1 ∧ stepCache_ok fn g (exampleCaches m).2.
Proof.
  destruct m as [[[c sc] res]| |], m' as [res'| |]; try done.
  by intros (_ & ? & ?).
Qed.

Lemma transformFieldCached_agrees_witness :
  agrees (caches_ok exampleFn (exampleChain exampleNames).1)
    (transformFieldCached reuse_addr (exampleChain exampleNames).2 exampleField V.Args exampleOnce.1 exampleOnce.2)
    (executeTransformations (exampleChain exampleNames).2 exampleField.(go_val)) ∧ size exampleOnce.1 = 3%nat.
Proof.
  split; [|vm_compute; reflexivity].
  destruct (caches_after exampleFn (exampleChain exampleNames).1 _ _
    (transformFieldCached_agrees exampleFn reuse_addr _ exampleNames _ exampleField V.Args ∅
      (Some (mkStepCache ∅ 0)) reuse_addr_live exampleChain_ok (live_empty _) (map_Forall_empty _) (emptySteps_ok _ _))) as [Hc Hs].
  refine (transformFieldCached_agrees exampleFn reuse_addr _ exampleNames _ _ _ _ _ reuse_addr_live exampleChain_ok _ Hc Hs).
  apply keepsField_live. vm_compute. reflexivity.
Defined.

Lemma transformFieldMultimatchCached_agrees_witness :
  agrees (caches_ok exampleFn (exampleChain exampleNames).1)
    (transformFieldMultimatchCached reuse_addr (exampleChain exampleNames).2 exampleField V.Args
      exampleOnceMulti.1 exampleOnceMulti.2 [])
    (executeTransformationsMultimatchInto (exampleChain exampleNames).2 [] exampleField.(go_val)) ∧
  size exampleOnceMulti.1 = 3%nat.
Proof.
  split; [|vm_compute; reflexivity].
  destruct (caches_after exampleFn (exampleChain exampleNames).1 _ _
    (transformFieldMultimatchCached_agrees exampleFn reuse_addr _ exampleNames _ exampleField V.Args ∅
      (Some (mkStepCache ∅ 0)) [] reuse_addr_live exampleChain_ok (live_empty _) (map_Forall_empty _) (emptySteps_ok _ _))) as [Hc Hs].
  refine (transformFieldMultimatchCached_agrees exampleFn reuse_addr _ exampleNames _ _ _ _ _ _ reuse_addr_live exampleChain_ok _ Hc Hs).
  apply keepsField_live. vm_compute. reflexivity.
Defined.
