(* ===== verification/Actions.v ===== *)
(** The evaluation of actions: src/internal/actions/*.go ([Evaluate] of each
    action, and the parsing of the arguments of ctl, setvar and the others in
    [Init]).

    An action that is evaluated on a rule sees its metadata and its status, and
    ctl sees the rules of the WAF.  A setvar whose value is missing panics when
    it is evaluated, as the Go code calls a method of a nil macro. *)

From S2P Require Import Prelude GoLib StringUtil UrlTransform Variables Types Collections.
From S2P Require Import BodyBuffer TransactionState Macro Rule.

(** ** Ranges and toggles *)

Definition parseOnOff `{Unicode} (s : bytes) : option bool :=
  let val := ToLower s in
  if val =s str "on" then Some true else if val =s str "off" then Some false else None.

Definition parseRange (input : bytes) : option (Z * Z) :=
  let '(in0, in1, ok) := Cut input 0x2d in
  if negb ok then None else
  start ← Atoi in0;
  end_ ← Atoi in1;
  if start >? end_ then None else Some (start, end_).

Definition parseIDOrRange (input : bytes) : option (Z * Z) :=
  if (length input =? 0)%nat then None else
  let '(_, _, ok) := Cut input 0x2d in
  if ok then parseRange input else id ← Atoi input; Some (id, id).

(** [strconv.ParseInt(s, 10, 64)] and [strconv.ParseInt(s, 10, 8)]. *)
Definition ParseInt64 (s : bytes) : option Z := Atoi s.
Definition ParseInt8 (s : bytes) : option Z :=
  n ← Atoi s; if (-128 <=? n) && (n <=? 127) then Some n else None.

(** ** Evaluation *)

Section evaluate.
Context `{U : !Unicode, O : !MapOrder}.
(** [tx.WAF.Rules.GetRules()] *)
Context (rules : list Rule).

Definition removeTargets (sel : Rule → bool) (a : ctlFn) (tx : Transaction) : Transaction :=
  foldl (λ tx r, if sel r
                 then RemoveRuleTargetByID (r_ID r) a.(ctl_collection) a.(ctl_colKey) a.(ctl_colKeyRx) tx
                 else tx) tx rules.

Definition removeRules (sel : Rule → bool) (tx : Transaction) : Transaction :=
  foldl (λ tx r, if sel r then RemoveRuleByID (r_ID r) tx else tx) tx rules.

Definition msgIs (value : bytes) (r : Rule) : bool :=
  match r.(r_Msg) with Some m => m.(original) =s value | None => false end.

Definition ctlEvaluate (a : ctlFn) (tx : Transaction) : Transaction :=
  let value := a.(ctl_value) in
  match a.(ctl_action) with
  | ctlRuleRemoveTargetByID =>
      match parseIDOrRange value with
      | Some (start, end_) => removeTargets (λ r, (r_ID r >=? start) && (r_ID r <=? end_)) a tx
      | None => tx
      end
  | ctlRuleRemoveTargetByTag => removeTargets (λ r, InSlice value r.(r_meta).(Tags_)) a tx
  | ctlRuleRemoveTargetByMsg => removeTargets (msgIs value) a tx
  | ctlAuditEngine =>
      match ParseAuditEngineStatus value with
      | Some ae => tx <| tx_AuditEngine := ae |>
      | None => tx
      end
  | ctlAuditLogParts =>
      match ApplyAuditLogParts tx.(tx_AuditLogParts) value with
      | Some parts => tx <| tx_AuditLogParts := parts |>
      | None => tx
      end
  | ctlForceRequestBodyVariable =>
      match parseOnOff value with
      | Some val => tx <| tx_ForceRequestBodyVariable := val |>
      | None => tx
      end
  | ctlRequestBodyAccess =>
      if tx.(tx_lastPhase) <=? PhaseRequestHeaders then
        match parseOnOff value with
        | Some val => tx <| tx_RequestBodyAccess := val |>
        | None => tx
        end
      else tx
  | ctlRequestBodyLimit =>
      if tx.(tx_lastPhase) <=? PhaseRequestHeaders then
        match ParseInt64 value with
        | Some limit => tx <| tx_RequestBodyLimit := limit |>
        | None => tx
        end
      else tx
  | ctlRequestBodyProcessor =>
      if tx.(tx_lastPhase) <=? PhaseRequestHeaders
      then withSingle V.ReqbodyProcessor (ToUpper value) tx else tx
  | ctlRuleEngine =>
      match ParseRuleEngineStatus value with
      | Some re => tx <| tx_RuleEngine := re |>
      | None => tx
      end
  | ctlRuleRemoveByID =>
      match IndexByte value 0x2d with
      | None => match Atoi value with Some id => RemoveRuleByID id tx | None => tx end
      | Some _ =>
          match parseRange value with
          | Some (start, end_) => RemoveRuleByIDRange start end_ tx
          | None => tx
          end
      end
  | ctlRuleRemoveByMsg => removeRules (msgIs value) tx
  | ctlRuleRemoveByTag => removeRules (λ r, InSlice value r.(r_meta).(Tags_)) tx
  | ctlResponseBodyAccess =>
      if tx.(tx_lastPhase) <=? PhaseResponseHeaders then
        match parseOnOff value with
        | Some val => tx <| tx_ResponseBodyAccess := val |>
        | None => tx
        end
      else tx
  | ctlResponseBodyLimit =>
      if tx.(tx_lastPhase) <=? PhaseResponseHeaders then
        match ParseInt64 value with
        | Some limit => tx <| tx_ResponseBodyLimit := limit |>
        | None => tx
        end
      else tx
  | ctlForceResponseBodyVariable =>
      match parseOnOff value with
      | Some val => tx <| tx_ForceResponseBodyVariable := val |>
      | None => tx
      end
  | ctlResponseBodyProcessor =>
      if tx.(tx_lastPhase) <=? PhaseResponseHeaders
      then withSingle V.ResBodyProcessor (ToUpper value) tx else tx
  | ctlHashEngine | ctlHashEnforcement | ctlUnknown => tx
  | ctlDebugLogLevel =>
      match ParseInt8 value with
      | Some lvl => tx <| tx_debugLevel := lvl |>
      | None => tx
      end
  end.

(** [evaluateTxCollection]; the key is in lower case. *)
Definition setvarCollection (a : setvarFn) (key value : bytes) (tx : Transaction) : Transaction :=
  match Collection tx.(tx_variables) a.(sv_collection) with
  | Some (VKeyed (KMap col)) =>
      let set c := withMap (storeVar a.(sv_collection)) (λ _, c) tx in
      if a.(sv_isRemove) then set (Remove col key) else
      let currentVal := default [] (head (Get col key)) in
      match value with
      | [] => set (Set_ col key [[]])
      | v0 :: rest =>
          if (v0 =? 0x2b) || (v0 =? 0x2d) then
            let arith (val : Z) :=
              match (if negb (currentVal =s []) then Atoi currentVal else Some 0) with
              | None => tx
              | Some cur =>
                  if v0 =? 0x2b then set (Set_ col key [Itoa (i64 (cur + val))])
                  else set (Set_ col key [Itoa (i64 (cur - val))])
              end in
            match rest with
            | [] => arith 0
            | _ =>
                match Atoi rest with
                | Some val => arith val
                | None =>
                    if HasPrefix rest (str "tx.") then tx else set (Set_ col key [value])
                end
            end
          else set (Set_ col key [value])
      end
  | _ => tx
  end.

Definition setvarEvaluate (a : setvarFn) (tx : Transaction) : run Transaction :=
  match a.(sv_key), a.(sv_value) with
  | Some k, Some v =>
      key ← Expand k tx;
      value ← Expand v tx;
      Done (setvarCollection a (ToLower key) value tx)
  | _, _ => Panic
  end.

(** The rule identifier that an interruption reports. *)
Definition reportedID (m : RuleMetadata) : Z := if m.(ID_) =? noID then m.(ParentID_) else m.(ID_).

Definition denyEvaluate (m : RuleMetadata) (status : Z) (tx : Transaction) : Transaction :=
  let status := if status =? 0 then 403 else status in
  Interrupt (mkInterruption (reportedID m) (str "deny") status []) tx.

Definition dropEvaluate (m : RuleMetadata) (status : Z) (tx : Transaction) : Transaction :=
  Interrupt (mkInterruption (reportedID m) (str "drop") status []) tx.

Definition redirectEvaluate (target : bytes) (m : RuleMetadata) (status : Z) (tx : Transaction) : Transaction :=
  let st := if (status =? 301) || (status =? 302) || (status =? 303) || (status =? 307)
            then status else 302 in
  Interrupt (mkInterruption (reportedID m) (str "redirect") st target) tx.

(** The environment variable that setenv sets is outside the model. *)
Definition setenvEvaluate (key : bytes) (value : Macro) (tx : Transaction) : run Transaction :=
  v ← Expand value tx; Done (withMap V.Env (λ c, Set_ c key [v]) tx).

(** [a.Function.Evaluate(r, tx)], with the metadata and the status of [r]. *)
Definition evaluateAction (m : RuleMetadata) (status : Z) (a : Action) (tx : Transaction)
    : run Transaction :=
  match a with
  | AAllow allow => Done (Allow allow tx)
  | ACtl a => Done (ctlEvaluate a tx)
  | ADeny => Done (denyEvaluate m status tx)
  | ADrop => Done (dropEvaluate m status tx)
  | ARedirect target => Done (redirectEvaluate target m status tx)
  | ASetenv key value => setenvEvaluate key value tx
  | ASetvar a => setvarEvaluate a tx
  | ASkip n => Done (tx <| tx_Skip := n |>)
  | ASkipAfter marker => Done (tx <| tx_SkipAfter := marker |>)
  | APlugin _ f => f m status tx
  | _ => Done tx
  end.

Definition evaluateOn (r : Rule) (a : ruleActionParams) (tx : Transaction) : run Transaction :=
  evaluateAction r.(r_meta) r.(r_DisruptiveStatus) a.(act_Function) tx.
End evaluate.

(** ** Initialisation *)

Section init.
Context `{U : !Unicode}.
Context (Compile : bytes → option regex).
(** [transformations.GetTransformation] *)
Context (GetTransformation : bytes → option transformation).

Definition parseCtlAction (action : bytes) : option ctlFunctionType :=
  if action =s str "auditEngine" then Some ctlAuditEngine
  else if action =s str "auditLogParts" then Some ctlAuditLogParts
  else if action =s str "requestBodyAccess" then Some ctlRequestBodyAccess
  else if action =s str "requestBodyLimit" then Some ctlRequestBodyLimit
  else if action =s str "requestBodyProcessor" then Some ctlRequestBodyProcessor
  else if action =s str "forceRequestBodyVariable" then Some ctlForceRequestBodyVariable
  else if action =s str "responseBodyProcessor" then Some ctlResponseBodyProcessor
  else if action =s str "responseBodyAccess" then Some ctlResponseBodyAccess
  else if action =s str "responseBodyLimit" then Some ctlResponseBodyLimit
  else if action =s str "forceResponseBodyVariable" then Some ctlForceResponseBodyVariable
  else if action =s str "ruleEngine" then Some ctlRuleEngine
  else if action =s str "ruleRemoveById" then Some ctlRuleRemoveByID
  else if action =s str "ruleRemoveByMsg" then Some ctlRuleRemoveByMsg
  else if action =s str "ruleRemoveByTag" then Some ctlRuleRemoveByTag
  else if action =s str "ruleRemoveTargetById" then Some ctlRuleRemoveTargetByID
  else if action =s str "ruleRemoveTargetByMsg" then Some ctlRuleRemoveTargetByMsg
  else if action =s str "ruleRemoveTargetByTag" then Some ctlRuleRemoveTargetByTag
  else if action =s str "hashEngine" then Some ctlHashEngine
  else if action =s str "hashEnforcement" then Some ctlHashEnforcement
  else if action =s str "debugLogLevel" then Some ctlDebugLogLevel
  else None.

Definition parseCtl (data : bytes) : option ctlFn :=
  let '(action, ctlVal, ok) := Cut data 0x3d in
  if negb ok then None else
  let '(value, col, ok) := Cut ctlVal 0x3b in
  let '(colname, colkey) :=
    if ok then let '(colname, colkey, _) := Cut col 0x3a in (colname, TrimSpace colkey) else ([], []) in
  let collection := default V.Unknown (Parse (TrimSpace colname)) in
  '(colkey, keyRx) ←
    match HasRegex colkey with
    | Done (true, rxPattern) =>
        if (length rxPattern =? 0)%nat then None
        else rx ← Compile rxPattern; Some ([], Some rx)
    | _ => Some (ToLower colkey, None)
    end;
  act ← parseCtlAction action;
  Some (mkCtl act value collection colkey keyRx).

Definition parseSetvar (data : bytes) : option setvarFn :=
  match data with
  | [] => None
  | d0 :: rest =>
      let '(isRemove, data) := if d0 =? 0x21 then (true, rest) else (false, data) in
      let '(key, val, valOk) := Cut data 0x3d in
      let '(colKey, colVal, colOk) := Cut key 0x2e in
      if negb (ToUpper colKey =s str "TX") then None
      else if TrimSpace colVal =s [] then None
      else
        collection ← Parse colKey;
        k ← (if (colOk : bool) then Some <$> NewMacro colVal else Some None);
        v ← (if (valOk : bool) then Some <$> NewMacro val else Some None);
        Some (mkSetvar k v collection isRemove)
  end.

(** The actions of each kind of argument: none allowed, or at least one byte. *)
Definition noArgs (data : bytes) (r : option (Action * Rule)) : option (Action * Rule) :=
  if (0 <? length data)%nat then None else r.
Definition someArgs (data : bytes) (r : option (Action * Rule)) : option (Action * Rule) :=
  if (length data =? 0)%nat then None else r.

(** [MaybeRemoveQuotes] always returns. *)
Definition unquoted (s : bytes) : bytes := match MaybeRemoveQuotes s with Done t => t | _ => s end.

Definition setMeta (f : RuleMetadata → RuleMetadata) (r : Rule) : Rule := r <| r_meta ::= f |>.

Definition between1and9 (data : bytes) : option Z :=
  n ← Atoi data; if (n <? 1) || (n >? 9) then None else Some n.

(** [Init] of each action other than t: [None] is an error. *)
Definition accuracyInit (data : bytes) (r : Rule) : option (Action * Rule) :=
  n ← between1and9 data; Some (AAccuracy, setMeta (λ m, m <| Accuracy_ := n |>) r).
Definition allowInit (data : bytes) (r : Rule) : option (Action * Rule) :=
  if data =s str "phase" then Some (AAllow AllowTypePhase, r)
  else if data =s str "request" then Some (AAllow AllowTypeRequest, r)
  else if data =s [] then Some (AAllow AllowTypeAll, r) else None.
Definition auditlogInit (data : bytes) (r : Rule) : option (Action * Rule) :=
  noArgs data (Some (AAuditlog, r <| r_Audit := true |>)).
Definition blockInit (data : bytes) (r : Rule) : option (Action * Rule) :=
  noArgs data (Some (ABlock, r)).
Definition captureInit (data : bytes) (r : Rule) : option (Action * Rule) :=
  noArgs data (Some (ACapture, r <| r_Capture := true |>)).
Definition chainInit (data : bytes) (r : Rule) : option (Action * Rule) :=
  noArgs data (Some (AChain, r <| r_HasChain := true |>)).
Definition ctlInit (data : bytes) (r : Rule) : option (Action * Rule) :=
  c ← parseCtl data; Some (ACtl c, r).
Definition denyInit (data : bytes) (r : Rule) : option (Action * Rule) :=
  noArgs data (Some (ADeny, r)).
Definition dropInit (data : bytes) (r : Rule) : option (Action * Rule) :=
  noArgs data (Some (ADrop, r)).
Definition execInit (data : bytes) (r : Rule) : option (Action * Rule) :=
  noArgs data (Some (AExec, r)).
Definition expirevarInit (data : bytes) (r : Rule) : option (Action * Rule) :=
  Some (AExpirevar, r).
Definition idInit (data : bytes) (r : Rule) : option (Action * Rule) :=
  someArgs data (
    i ← Atoi data;
    if i <=? 0 then None
    else Some (AId, setMeta (λ m, m <| ID_ := i |> <| LogID_ := Itoa i |>) r)).
Definition initcolInit (data : bytes) (r : Rule) : option (Action * Rule) :=
  let '(_, _, ok) := Cut data 0x3d in if (ok : bool) then Some (AInitcol, r) else None.
Definition logInit (data : bytes) (r : Rule) : option (Action * Rule) :=
  noArgs data (Some (ALog, r <| r_Log := true |> <| r_Audit := true |>)).
Definition logdataInit (data : bytes) (r : Rule) : option (Action * Rule) :=
  someArgs data (m ← NewMacro data; Some (ALogdata, r <| r_LogData := Some m |>)).
Definition maturityInit (data : bytes) (r : Rule) : option (Action * Rule) :=
  n ← between1and9 data; Some (AMaturity, setMeta (λ m, m <| Maturity_ := n |>) r).
Definition msgInit (data : bytes) (r : Rule) : option (Action * Rule) :=
  let data := unquoted data in
  someArgs data (m ← NewMacro data; Some (AMsg, r <| r_Msg := Some m |>)).
Definition multimatchInit (data : bytes) (r : Rule) : option (Action * Rule) :=
  noArgs data (Some (AMultimatch, r <| r_MultiMatch := true |>)).
Definition noauditlogInit (data : bytes) (r : Rule) : option (Action * Rule) :=
  noArgs data (Some (ANoauditlog, r <| r_Audit := false |>)).
Definition nologInit (data : bytes) (r : Rule) : option (Action * Rule) :=
  noArgs data (Some (ANolog, r <| r_Log := false |> <| r_Audit := false |>)).
Definition passInit (data : bytes) (r : Rule) : option (Action * Rule) :=
  noArgs data (Some (APass, r)).
Definition phaseInit (data : bytes) (r : Rule) : option (Action * Rule) :=
  someArgs data (p ← ParseRulePhase data; Some (APhase, setMeta (λ m, m <| Phase_ := p |>) r)).
Definition redirectInit (data : bytes) (r : Rule) : option (Action * Rule) :=
  someArgs data (Some (ARedirect data, r)).
Definition revInit (data : bytes) (r : Rule) : option (Action * Rule) :=
  someArgs data (Some (ARev, setMeta (λ m, m <| Rev_ := data |>) r)).
Definition setenvInit (data : bytes) (r : Rule) : option (Action * Rule) :=
  someArgs data (
    let '(key, val, ok) := Cut data 0x3d in
    if negb ok then None
    else if (length key =? 0)%nat then None
    else if (length val =? 0)%nat then None
    else m ← NewMacro val; Some (ASetenv key m, r)).
Definition setvarInit (data : bytes) (r : Rule) : option (Action * Rule) :=
  a ← parseSetvar data; Some (ASetvar a, r).
Definition severityInit (data : bytes) (r : Rule) : option (Action * Rule) :=
  someArgs data (s ← ParseRuleSeverity data; Some (ASeverity, setMeta (λ m, m <| Severity_ := s |>) r)).
Definition skipInit (data : bytes) (r : Rule) : option (Action * Rule) :=
  someArgs data (i ← Atoi data; if i <? 1 then None else Some (ASkip i, r)).
Definition skipafterInit (data : bytes) (r : Rule) : option (Action * Rule) :=
  let data := unquoted data in someArgs data (Some (ASkipAfter data, r)).
Definition statusInit (data : bytes) (r : Rule) : option (Action * Rule) :=
  someArgs data (s ← Atoi data; Some (AStatus, r <| r_DisruptiveStatus := s |>)).
Definition tagInit (data : bytes) (r : Rule) : option (Action * Rule) :=
  someArgs data (Some (ATag, setMeta (λ m, m <| Tags_ ::= (λ l, l ++ [data]) |>) r)).
Definition verInit (data : bytes) (r : Rule) : option (Action * Rule) :=
  someArgs data (Some (AVer, setMeta (λ m, m <| Version_ := data |>) r)).

(** [Get(name)] and then [Init(r, data)]. *)
Definition initAction (name data : bytes) (r : Rule) : option (Action * Rule) :=
  let name := ToLower name in
  if name =s str "accuracy" then accuracyInit data r
  else if name =s str "allow" then allowInit data r
  else if name =s str "auditlog" then auditlogInit data r
  else if name =s str "block" then blockInit data r
  else if name =s str "capture" then captureInit data r
  else if name =s str "chain" then chainInit data r
  else if name =s str "ctl" then ctlInit data r
  else if name =s str "deny" then denyInit data r
  else if name =s str "drop" then dropInit data r
  else if name =s str "exec" then execInit data r
  else if name =s str "expirevar" then expirevarInit data r
  else if name =s str "id" then idInit data r
  else if name =s str "initcol" then initcolInit data r
  else if name =s str "log" then logInit data r
  else if name =s str "logdata" then logdataInit data r
  else if name =s str "maturity" then maturityInit data r
  else if name =s str "msg" then msgInit data r
  else if name =s str "multimatch" then multimatchInit data r
  else if name =s str "noauditlog" then noauditlogInit data r
  else if name =s str "nolog" then nologInit data r
  else if name =s str "pass" then passInit data r
  else if name =s str "phase" then phaseInit data r
  else if name =s str "redirect" then redirectInit data r
  else if name =s str "rev" then revInit data r
  else if name =s str "setenv" then setenvInit data r
  else if name =s str "setvar" then setvarInit data r
  else if name =s str "severity" then severityInit data r
  else if name =s str "skip" then skipInit data r
  else if name =s str "skipafter" then skipafterInit data r
  else if name =s str "status" then statusInit data r
  else if name =s str "tag" then tagInit data r
  else if name =s str "ver" then verInit data r
  else None.

(** The transformation action. *)
Definition initT (data : bytes) (r : Rule) (g : transformationIDs)
    : run (transformationIDs * option (Action * Rule)) :=
  if data =s str "none" then Done (g, Some (AT, ClearTransformations r)) else
  match GetTransformation data with
  | None => Done (g, None)
  | Some t =>
      '(g, added) ← AddTransformation data t r g;
      Done (g, match added with Some r => Some (AT, r) | None => None end)
  end.
End init.

(** ** What an action can change *)

(** The parts of a transaction that only its owner changes, and those that
    steer the evaluation of the rules. *)
Definition fixed (tx : Transaction) : bytes * Z * BodyBuffer * BodyBuffer * list Z * list MatchedRule :=
  (tx.(tx_id), tx.(tx_lastPhase), tx.(tx_requestBodyBuffer), tx.(tx_responseBodyBuffer),
   tx.(tx_stopWatches), tx.(tx_matchedRules)).
Definition flow (tx : Transaction) : option Interruption * AllowType * Z * bytes :=
  (tx.(tx_interruption), tx.(tx_AllowType), tx.(tx_Skip), tx.(tx_SkipAfter)).

(** The actions of the repository, with macros that expand. *)
Definition safe_action (a : Action) : Prop :=
  match a with
  | APlugin _ _ => False
  | ASetenv _ v => safe_macro (Some v)
  | ASetvar a =>
      match a.(sv_key), a.(sv_value) with
      | Some k, Some v => safe_macro (Some k) ∧ safe_macro (Some v)
      | _, _ => False
      end
  | _ => True
  end.

Definition setsEngine (a : Action) : bool :=
  match a with ACtl c => bool_decide (c.(ctl_action) = ctlRuleEngine) | _ => false end.

Definition setsLimit (a : Action) : bool :=
  match a with
  | ACtl c => bool_decide (c.(ctl_action) = ctlRequestBodyLimit ∨ c.(ctl_action) = ctlResponseBodyLimit)
  | _ => false
  end.

Definition limits (tx : Transaction) : Z * Z := (tx.(tx_RequestBodyLimit), tx.(tx_ResponseBodyLimit)).

Record effect (a : Action) (tx tx' : Transaction) : Prop := {
  eff_fixed : fixed tx' = fixed tx;
  eff_removed : tx.(tx_ruleRemoveByID) ⊆ tx'.(tx_ruleRemoveByID);
  eff_ranges : tx.(tx_ruleRemoveByIDRanges) ⊆ tx'.(tx_ruleRemoveByIDRanges);
  eff_engine : setsEngine a = false → tx'.(tx_RuleEngine) = tx.(tx_RuleEngine);
  eff_interruption : tx.(tx_RuleEngine) ≠ RuleEngineOn → tx'.(tx_interruption) = tx.(tx_interruption);
  eff_limits : setsLimit a = false → limits tx' = limits tx;
  eff_sticky : is_Some tx.(tx_interruption) → is_Some tx'.(tx_interruption);
  eff_flow : actionType a = ActionTypeNondisruptive → flow tx' = flow tx;
}.

Section effects.
Context `{U : !Unicode, O : !MapOrder}.
Context (rules : list Rule).

Lemma removeTargets_eq sel a l : ∀ tx, ∃ m,
  removeTargets l sel a tx = tx <| tx_ruleRemoveTargetByID := m |>.
Proof.
  unfold removeTargets. induction l as [|r l IH]; intros tx; cbn [foldl].
  - exists tx.(tx_ruleRemoveTargetByID). by destruct tx.
  - destruct (sel r); [|apply IH].
    destruct (IH (RemoveRuleTargetByID (r_ID r) (ctl_collection a) (ctl_colKey a) (ctl_colKeyRx a) tx))
      as [m ->]. by exists m.
Qed.

Lemma removeRules_eq sel l : ∀ tx, ∃ s, tx.(tx_ruleRemoveByID) ⊆ s ∧
  removeRules l sel tx = tx <| tx_ruleRemoveByID := s |>.
Proof.
  unfold removeRules. induction l as [|r l IH]; intros tx; cbn [foldl].
  - exists tx.(tx_ruleRemoveByID). split; [done|]. by destruct tx.
  - destruct (sel r); [|apply IH].
    destruct (IH (RemoveRuleByID (r_ID r) tx)) as (s & Hs & ->). exists s. split; [|done].
    etrans; [|exact Hs]. apply union_subseteq_l.
Qed.

Lemma ctlEvaluate_effect c tx : effect (ACtl c) tx (ctlEvaluate rules c tx).
Proof.
  unfold ctlEvaluate. destruct (ctl_action c) eqn:Ec;
    try (edestruct (removeTargets_eq) as [? ->]); try (edestruct (removeRules_eq) as (? & ? & ->));
    repeat case_match;
    try (edestruct (removeTargets_eq) as [? ->]);
    split; try done; try (apply union_subseteq_l); try (by intros x ?; apply elem_of_app; left);
    try (by cbn; rewrite Ec).
Qed.

Lemma setvarCollection_eq a key value tx : ∃ f,
  setvarCollection a key value tx = tx <| tx_variables ::= f |>.
Proof.
  unfold setvarCollection. repeat case_match;
    first [by exists id; destruct tx | unfold withMap; eexists; reflexivity].
Qed.

Lemma evaluateAction_wp m status a tx :
  safe_action a → wp (evaluateAction rules m status a tx) (effect a tx).
Proof.
  intros Ha. destruct a; try (by split); cbn [evaluateAction]; cbv zeta.
  - unfold Allow. cbn [wp]. case_decide; by split.
  - apply ctlEvaluate_effect.
  - cbn [wp]. unfold denyEvaluate, dropEvaluate, redirectEvaluate, Interrupt. destruct (tx_RuleEngine tx) eqn:E; repeat case_match; by split.
  - cbn [wp]. unfold denyEvaluate, dropEvaluate, redirectEvaluate, Interrupt. destruct (tx_RuleEngine tx) eqn:E; repeat case_match; by split.
  - cbn [wp]. unfold denyEvaluate, dropEvaluate, redirectEvaluate, Interrupt. destruct (tx_RuleEngine tx) eqn:E; repeat case_match; by split.
  - eapply wp_bind; [by apply Expand_wp|]. intros v _. by split.
  - cbn [safe_action] in Ha. unfold setvarEvaluate.
    destruct (sv_key a) as [k|], (sv_value a) as [v|]; try done. destruct Ha as [Hk Hv].
    eapply wp_bind; [by apply Expand_wp|]. intros ks _.
    eapply wp_bind; [by apply Expand_wp|]. intros vs _. cbn [wp].
    destruct (setvarCollection_eq a (ToLower ks) vs tx) as [f ->]. by split.
  - done.
Qed.
End effects.

(** ** Counting with setvar *)

Definition textMacro (s : bytes) : Macro := mkMacro s [textToken s].

(** [setvar:TX.key=+n] *)
Definition increase (key : bytes) (n : Z) : Action :=
  ASetvar (mkSetvar (Some (textMacro key)) (Some (textMacro (str "+" ++ Itoa n))) V.TX false).

Lemma Itoa_nonempty n : in_i64 n → Itoa n ≠ [].
Proof. intros Hn E. pose proof (Atoi_Itoa n Hn) as H. by rewrite E in H. Qed.

Section scores.
Context `{U : !Unicode, O : !MapOrder}.
Context (rules : list Rule) (m : RuleMetadata) (status : Z).

(** The score that [setvar] reads, 0 when it is not set. *)
Definition hasScore (tx : Transaction) (key : bytes) (v : Z) : Prop :=
  in_i64 v ∧ match Get (tmap tx V.TX) key with [] => v = 0 | s :: _ => s = Itoa v end.

Lemma setvarCollection_plus k val key n tx v :
  in_i64 n → hasScore tx key v →
  setvarCollection (mkSetvar k val V.TX false) key (0x2b :: Itoa n) tx =
    withMap V.TX (λ c, Set_ c key [Itoa (i64 (v + n))]) tx.
Proof.
  intros Hn [Hv Hg]. unfold setvarCollection. cbn [sv_collection sv_isRemove Collection].
  change (mapOf (tx_variables tx) V.TX) with (tmap tx V.TX). cbn [Z.eqb Pos.eqb orb].
  destruct (Itoa n) as [|d ds] eqn:En; [by apply Itoa_nonempty in En|]. rewrite <- En.
  rewrite Atoi_Itoa by done. destruct (Get (tmap tx V.TX) key) as [|s l]; cbn [head default].
  - by subst v.
  - subst s. cbn [from_option id]. rewrite (proj2 (bytes_eqb_neq _ _) (Itoa_nonempty v Hv)).
    cbn [negb]. by rewrite Atoi_Itoa.
Qed.

Lemma increase_spec key n tx v :
  in_i64 n → hasScore tx (ToLower key) v →
  ∃ tx', evaluateAction rules m status (increase key n) tx = Done tx' ∧
    Get (tmap tx' V.TX) (ToLower key) = [Itoa (i64 (v + n))].
Proof.
  intros Hn Hs. eexists. split; [reflexivity|].
  change (tok_text (textToken key)) with key.
  change (tok_text (textToken (str "+" ++ Itoa n))) with (0x2b :: Itoa n).
  rewrite (setvarCollection_plus _ _ _ _ _ v) by done. unfold tmap, withMap.
  cbn [tx_variables setf].
  rewrite mapOf_setMap, decide_True by done. rewrite Get_entries. unfold Set_.
  rewrite entries_update, decide_True; done.
Qed.

(** C33: the increments of a score add up, in 64-bit arithmetic, whatever the
    score was and however many rules increase it. *)
Theorem setvar_accumulates key ns tx v :
  hasScore tx (ToLower key) v → Forall in_i64 ns → ns ≠ [] →
  ∃ tx', foldM (λ tx n, evaluateAction rules m status (increase key n) tx) ns tx = Done tx' ∧
    Get (tmap tx' V.TX) (ToLower key) = [Itoa (i64 (v + foldr Z.add 0 ns))].
Proof.
  intros Hs Hns Hne. revert tx v Hs. induction Hns as [|n ns Hn Hns IH]; intros tx v Hs; [done|].
  cbn [foldM foldr]. destruct (increase_spec key n tx v Hn Hs) as (tx1 & -> & Hg). run_simpl.
  destruct ns as [|n' ns]; [exists tx1; by rewrite Z.add_0_r|].
  destruct (IH ltac:(done) tx1 (i64 (v + n))) as (tx' & -> & Hg').
  { split; [apply i64_range|]. by rewrite Hg. }
  exists tx'. split; [done|]. rewrite Hg', i64_add. by rewrite Z.add_assoc.
Qed.
End scores.

Definition exampleMeta : RuleMetadata := NewRule.(r_meta) <| ID_ := 942100 |>.

Lemma setvar_accumulates_witness :
  ∃ tx', foldM (λ tx n, @evaluateAction latin1 listOrder [] exampleMeta 0 (increase (str "Score") n) tx)
      [5; 3; -1] emptyTransaction = Done tx' ∧
    @Get latin1 (tmap tx' V.TX) (str "score") = [str "7"].
Proof.
  apply (@setvar_accumulates latin1 listOrder [] exampleMeta 0 (str "Score") [5; 3; -1] emptyTransaction 0);
    [split; by vm_compute|repeat apply Forall_cons_2; [by vm_compute..|apply Forall_nil_2]|done].
Defined.

(** ** setvar without a value *)

Lemma Cut_found s sep before after found :
  Cut s sep = (before, after, found) → if found then sep ∈ s else sep ∉ s.
Proof.
  intros [Hb Hs]%Cut_spec. destruct found; [subst s; set_solver|]. destruct Hs as [-> _].
  rewrite Forall_forall in Hb. intros Hin. by destruct (Hb sep Hin).
Qed.

(** A setvar is accepted with or without a value, but the one without
    panics when it is evaluated.  With an equals sign both macros are there. *)
Theorem setvar_without_value `{U : Unicode, O : !MapOrder} (data : bytes) (a : setvarFn) (tx : Transaction) :
  parseSetvar data = Some a →
  if decide (0x3d ∈ data) then is_Some a.(sv_key) ∧ is_Some a.(sv_value)
  else setvarEvaluate a tx = Panic.
Proof.
  unfold parseSetvar. destruct data as [|d0 rest]; [done|].
  set (body := if d0 =? 0x21 then rest else d0 :: rest).
  assert (0x3d ∈ body ↔ 0x3d ∈ d0 :: rest) as Hbody.
  { unfold body. destruct (Z.eqb_spec d0 0x21); [|done]. subst. rewrite elem_of_cons. split; [tauto|].
    by intros [?|?]. }
  replace (if d0 =? 33 then (true, rest) else (false, d0 :: rest)) with (d0 =? 33, body)
    by (unfold body; by destruct (d0 =? 33)).
  destruct (Cut body 0x3d) as [[key val] valOk] eqn:Ecut. apply Cut_found in Ecut.
  destruct (Cut key 0x2e) as [[colKey colVal] colOk] eqn:Ekey.
  destruct (negb _); [done|]. destruct (TrimSpace colVal =s []) eqn:Etrim; [done|].
  destruct (Parse colKey) as [col|]; [|done]. cbn [mbind option_bind].
  destruct colOk.
  2: { apply Cut_spec in Ekey as [_ [_ ->]]. by vm_compute in Etrim. }
  destruct (NewMacro colVal) as [k|]; [|done]. cbn [fmap option_fmap option_map mbind option_bind].
  destruct valOk.
  - destruct (NewMacro val) as [v|]; [|done]. intros [= <-]. rewrite decide_True by tauto. by split; eexists.
  - intros [= <-]. by rewrite decide_False by tauto.
Qed.

Lemma setvar_without_value_witness :
  ∃ a, @parseSetvar latin1 (str "!TX.score") = Some a ∧
    @setvarEvaluate latin1 listOrder a emptyTransaction = Panic.
Proof.
  eexists. split; [vm_compute; reflexivity|].
  apply (@setvar_without_value latin1 listOrder (str "!TX.score") _ emptyTransaction).
  vm_compute. reflexivity.
Defined.

(** ** Settings that are frozen *)

(** Once the request headers are processed ctl no longer changes how the
    request body is read, and once the response headers are processed how the
    response body is read. *)
Theorem ctl_frozen `{U : Unicode} (rules : list Rule) (c : ctlFn) (tx : Transaction) :
  let tx' := ctlEvaluate rules c tx in
  (tx.(tx_lastPhase) > PhaseRequestHeaders →
     tx'.(tx_RequestBodyAccess) = tx.(tx_RequestBodyAccess) ∧
     tx'.(tx_RequestBodyLimit) = tx.(tx_RequestBodyLimit) ∧
     single tx' V.ReqbodyProcessor = single tx V.ReqbodyProcessor) ∧
  (tx.(tx_lastPhase) > PhaseResponseHeaders →
     tx'.(tx_ResponseBodyAccess) = tx.(tx_ResponseBodyAccess) ∧
     tx'.(tx_ResponseBodyLimit) = tx.(tx_ResponseBodyLimit) ∧
     single tx' V.ResBodyProcessor = single tx V.ResBodyProcessor).
Proof.
  cbv zeta. unfold ctlEvaluate.
  split; intros Hp; destruct (ctl_action c);
    try (edestruct removeTargets_eq as [? ->]); try (edestruct removeRules_eq as (? & ? & ->));
    repeat case_match; try done; try lia;
    try (edestruct removeTargets_eq as [? ->]); try done;
    unfold single, withSingle; cbn [tx_variables setf];
    (split; [done|split; [done|]]); by rewrite singleOf_setSingle.
Qed.

Definition limitCtl : ctlFn := mkCtl ctlRequestBodyLimit (str "1048576") V.Unknown [] None.

Lemma ctl_frozen_witness :
  let tx := emptyTransaction <| tx_lastPhase := PhaseRequestBody |> in
  (@ctlEvaluate latin1 [] limitCtl tx).(tx_RequestBodyLimit) = 1024.
Proof.
  pose proof (@ctl_frozen latin1 [] limitCtl (emptyTransaction <| tx_lastPhase := PhaseRequestBody |>)) as [H _].
  assert (PhaseRequestBody > PhaseRequestHeaders) as Hp by (by vm_compute).
  apply H in Hp as (_ & Hl & _). exact Hl.
Defined.
