(* ===== verification/RuleGroup.v ===== *)
(** Evaluation of rules: [doEvaluate] and [matchVariable] of
    src/internal/corazawaf/rule.go, [MatchRule] of transaction.go, and the rule
    group of src/internal/corazawaf/rulegroup.go with [Eval], for the default
    build (no multiphase evaluation, rule ids not mandatory).

    Transformed values are computed by the rule's transformations, and the matches
    of a field in a list of their own; that the caches of a transaction give the
    same values is shown in TransformCache.  The evaluation of the model therefore
    empties the caches where the code does, and does not fill them. *)

From S2P Require Import Prelude GoLib StringUtil UrlTransform Variables Types Collections.
From S2P Require Import Matchers TransactionCaches BodyBuffer TransactionState Macro Rule Actions.

Section evaluate.
Context `{U : !Unicode, O : !MapOrder}.
(** The rules of the WAF, which ctl actions select from. *)
Context (rules : list Rule).

(** The expansion of an optional macro; a nil macro leaves the old value. *)
Definition expandOr (m : option Macro) (old : bytes) (tx : Transaction) : run bytes :=
  match m with Some m => Expand m tx | None => Done old end.

(** Evaluation of the actions of some types, in order. *)
Definition runActions (sel : ActionType → bool) (r : Rule) (tx : Transaction) : run Transaction :=
  foldM (λ tx a, if sel (actionType a.(act_Function)) then evaluateOn rules r a tx else Done tx)
    r.(r_actions) tx.

Definition isNondisruptive (t : ActionType) : bool := bool_decide (t = ActionTypeNondisruptive).
Definition isFlowOrDisruptive (t : ActionType) : bool :=
  bool_decide (t = ActionTypeFlow) || bool_decide (t = ActionTypeDisruptive).

(** [Rule.matchVariable] *)
Definition matchVariable (r : Rule) (m : MatchData) (tx : Transaction) : run Transaction :=
  runActions isNondisruptive r (tx_matchVariable m tx).

Definition executeOperator (op : ruleOperatorParams) (data : bytes) (tx : Transaction)
    : run (Transaction * bool) :=
  '(tx, result) ← op.(op_Operator) tx data;
  Done (tx, if op.(op_Negation) then negb result else result).

(** The variables of the RULE collection. *)
Definition setRuleVariables (r : Rule) (tx : Transaction) : run Transaction :=
  let m := r.(r_meta) in
  let set key value tx := withMap V.Rule (SetIndex0 (str key) value) tx in
  let tx := set "id" m.(LogID_) tx in
  tx ← match r.(r_Msg) with Some msg => s ← Expand msg tx; Done (set "msg" s tx) | None => Done tx end;
  let tx := set "rev" m.(Rev_) tx in
  tx ← match r.(r_LogData) with Some d => s ← Expand d tx; Done (set "logdata" s tx) | None => Done tx end;
  Done (set "severity" (severityString m.(Severity_)) tx).

(** The values of an argument that the operator inspects. *)
Definition transformedArgs (r : Rule) (value : bytes) : run (list bytes) :=
  if r.(r_MultiMatch) then '(args, _) ← executeTransformationsMultimatchInto r [] value; Done args
  else '(v, _) ← executeTransformations r value; Done [v].

(** One transformed value of one argument: the operator, and on a match the
    match data. *)
Definition evaluateArg (r : Rule) (op : ruleOperatorParams) (chainLevel : Z) (arg : Match)
    (st : Transaction * list MatchData) (carg : bytes) : run (Transaction * list MatchData) :=
  let '(tx, matchedValues) := st in
  '(tx, match_) ← executeOperator op carg tx;
  if negb match_ then Done (tx, matchedValues) else
  let mr := mkMatchData arg.(m_Variable) arg.(m_Key) carg [] [] chainLevel in
  tx ← matchVariable r mr tx;
  if negb (r_ParentID r =? noID) || negb r.(r_HasChain) then
    message ← expandOr r.(r_Msg) [] tx;
    data ← expandOr r.(r_LogData) [] tx;
    Done (tx, matchedValues ++ [mr <| Message_ := message |> <| Data_ := data |>])
  else Done (tx, matchedValues ++ [mr]).

Definition evaluateValue (r : Rule) (op : ruleOperatorParams) (chainLevel : Z)
    (st : Transaction * list MatchData) (arg : Match) : run (Transaction * list MatchData) :=
  args ← transformedArgs r arg.(m_Value);
  foldM (evaluateArg r op chainLevel arg) args st.

(** One variable of the rule, with the targets removed by ctl. *)
Definition evaluateVariable (r : Rule) (op : ruleOperatorParams) (chainLevel : Z)
    (ecol : list ruleVariableParams)
    (st : Transaction * list MatchData) (v : ruleVariableParams) : run (Transaction * list MatchData) :=
  let exceptions := (λ c, mkException c.(rv_KeyStr) c.(rv_KeyRx)) <$>
                      filter (λ c, c.(rv_Variable) = v.(rv_Variable)) ecol in
  let v := v <| rv_Exceptions ::= (λ l, l ++ exceptions) |> in
  foldM (evaluateValue r op chainLevel) (getFieldMatches st.1 v) st.

(** The matches of the rule itself, without its chain. *)
Definition evaluateRule (r : Rule) (chainLevel : Z) (tx : Transaction)
    : run (Transaction * list MatchData) :=
  let tx := tx <| tx_Capture := r.(r_Capture) |> in
  tx ← setRuleVariables r tx;
  match r.(r_operator) with
  | None =>
      let inner := negb (r_ParentID r =? noID) || r.(r_MultiMatch) in
      message ← (if inner then expandOr r.(r_Msg) [] tx else Done []);
      data ← (if inner then expandOr r.(r_LogData) [] tx else Done []);
      let md := mkMatchData V.Unknown [] [] message data 0 in
      tx ← matchVariable r md tx;
      Done (tx, [md])
  | Some op =>
      let rid := if r_ID r =? noID then r_ParentID r else r_ID r in
      let ecol := default [] (tx.(tx_ruleRemoveTargetByID) !! rid) in
      foldM (evaluateVariable r op chainLevel ecol) r.(r_variables) (tx, [])
  end.

(** [Transaction.MatchRule]; the error log callback is not part of the state. *)
Definition MatchRule (r : Rule) (mds : list MatchData) (tx : Transaction) : Transaction :=
  let tx := tx <| tx_audit ::= (λ a, a || r.(r_Audit)) |> in
  let severity := r.(r_meta).(Severity_) in
  let tx :=
    if negb (severity =? RuleSeverityUnset) then
      let currentVal := default 0 (Atoi (single tx V.HighestSeverity)) in
      if severity <? currentVal then withSingle V.HighestSeverity (Itoa severity) tx else tx
    else tx in
  let disruptive := find (λ a, bool_decide (actionType a.(act_Function) = ActionTypeDisruptive)) r.(r_actions) in
  let withMessage := find (λ md, negb (md.(Message_) =s [])) mds in
  tx <| tx_matchedRules ::= (λ l, l ++ [
    mkMatchedRule
      (match withMessage with Some md => md.(Message_) | None => [] end)
      (match withMessage with Some md => md.(Data_) | None => [] end)
      (single tx V.RequestURI) tx.(tx_id)
      (match disruptive with Some _ => bool_decide (tx.(tx_RuleEngine) = RuleEngineOn) | None => false end)
      (match disruptive with Some a => DisruptiveActionMap a.(act_Name) | None => DisruptiveActionUnknown end)
      r.(r_Log) r.(r_Audit) (single tx V.ServerAddr) (single tx V.RemoteAddr) mds r.(r_meta)]) |>.

(** After the whole chain matched: the postponed expansions, the flow and
    disruptive actions, and the record of the match. *)
Definition finishRule (r : Rule) (matchedValues : list MatchData) (tx : Transaction)
    : run (Transaction * list MatchData) :=
  matchedValues ←
    (if r.(r_HasChain) || match r.(r_operator) with None => true | Some _ => false end then
       match matchedValues with
       | md :: mds =>
           message ← expandOr r.(r_Msg) md.(Message_) tx;
           data ← expandOr r.(r_LogData) md.(Data_) tx;
           Done (md <| Message_ := message |> <| Data_ := data |> :: mds)
       | [] => Panic
       end
     else Done matchedValues);
  tx ← runActions isFlowOrDisruptive r tx;
  Done (if negb (r_ID r =? noID) then MatchRule r matchedValues tx else tx, matchedValues).

(** [doEvaluate]: the rule [r] with the rest of its chain.  Only rules without
    a parent evaluate their chain; each rule of the chain is evaluated with
    its own rest. *)
Fixpoint doEvaluate (chain : list Rule) (r : Rule) (chainLevel : Z) (tx : Transaction)
    : run (Transaction * list MatchData) :=
  '(tx, matchedValues) ← evaluateRule r chainLevel tx;
  match matchedValues with
  | [] => Done (tx, [])
  | _ =>
      if negb (r_ParentID r =? noID) then Done (tx, matchedValues) else
      let fix links (l : list Rule) (chainLevel : Z) (tx : Transaction) (matchedValues : list MatchData)
          : run (Transaction * option (list MatchData)) :=
        match l with
        | [] => Done (tx, Some matchedValues)
        | nr :: l' =>
            let chainLevel := chainLevel + 1 in
            '(tx, matchedChainValues) ← doEvaluate l' nr chainLevel tx;
            match matchedChainValues with
            | [] => Done (tx, None)
            | _ => links l' chainLevel tx (matchedValues ++ matchedChainValues)
            end
        end in
      '(tx, all) ← links chain chainLevel tx matchedValues;
      match all with
      | None => Done (tx, [])
      | Some matchedValues => finishRule r matchedValues tx
      end
  end.

(** [Rule.Evaluate] *)
Definition Evaluate (cr : ChainedRule) (tx : Transaction) : run Transaction :=
  '(tx, _) ← doEvaluate cr.(cr_chain) cr.(cr_rule) 0 tx; Done tx.
End evaluate.

(** ** Rule groups *)

Abbreviation RuleGroup := (list ChainedRule) (only parsing).

Definition cr_ID (c : ChainedRule) : Z := r_ID c.(cr_rule).

Definition FindByID (id : Z) (rg : RuleGroup) : option ChainedRule :=
  find (λ c, cr_ID c =? id) rg.

(** [None] is an error.  The phases inferred from the variables only matter for
    multiphase evaluation. *)
Definition AddRule (rule : ChainedRule) (rg : RuleGroup) : option RuleGroup :=
  if negb (cr_ID rule =? 0) && match FindByID (cr_ID rule) rg with Some _ => true | None => false end
  then None else Some (rg ++ [rule]).

Definition DiscardPendingChain (rg : RuleGroup) : RuleGroup :=
  match last rg with
  | Some c => if c.(cr_rule).(r_HasChain) then take (length rg - 1) rg else rg
  | None => rg
  end.

Fixpoint DeleteByID (id : Z) (rg : RuleGroup) : RuleGroup :=
  match rg with
  | [] => []
  | c :: rg => if cr_ID c =? id then rg else c :: DeleteByID id rg
  end.

Definition DeleteByRange (start end_ : Z) (rg : RuleGroup) : RuleGroup :=
  filter (λ c, cr_ID c < start ∨ cr_ID c > end_) rg.

(** A rule without a message makes [r.Msg.String()] panic. *)
Fixpoint DeleteByMsg (msg : bytes) (rg : RuleGroup) : run RuleGroup :=
  match rg with
  | [] => Done []
  | c :: rg =>
      match c.(cr_rule).(r_Msg) with
      | None => Panic
      | Some m => kept ← DeleteByMsg msg rg; Done (if negb (m.(original) =s msg) then c :: kept else kept)
      end
  end.

Definition DeleteByTag (tag : bytes) (rg : RuleGroup) : RuleGroup :=
  filter (λ c, InSlice tag c.(cr_rule).(r_meta).(Tags_) = false) rg.

Definition Count (rg : RuleGroup) : Z := Z.of_nat (length rg).

(** ** Eval *)

(** What the loop of [Eval] does with a rule. *)
Inductive verdict :=
| Break (tx : Transaction)
| Skip (tx : Transaction)
| Run (tx : Transaction).

Definition inRange (id : Z) (rng : Z * Z) : bool := (id >=? rng.1) && (id <=? rng.2).

Definition judge (phase : Z) (r : Rule) (tx : Transaction) : verdict :=
  if IsInterrupted tx && negb (phase =? PhaseLogging) then Break tx
  else if negb (r_Phase r =? 0) && negb (r_Phase r =? phase) then Skip tx
  else if bool_decide (r_ID r ∈ tx.(tx_ruleRemoveByID)) then Skip tx
  else if existsb (inRange (r_ID r)) tx.(tx_ruleRemoveByIDRanges) then Skip tx
  else if negb (tx.(tx_SkipAfter) =s []) then
    if r.(r_meta).(SecMark_) =s tx.(tx_SkipAfter) then Skip (tx <| tx_SkipAfter := [] |>) else Skip tx
  else if tx.(tx_Skip) >? 0 then Skip (tx <| tx_Skip ::= Z.pred |>)
  else
    match tx.(tx_AllowType) with
    | AllowTypeUnset => Run tx
    | AllowTypePhase => Break tx
    | AllowTypeRequest =>
        if phase =? PhaseRequestHeaders then Break tx
        else if phase =? PhaseRequestBody then Break (tx <| tx_AllowType := AllowTypeUnset |>)
        else Run tx
    | AllowTypeAll => Break tx
    end.

Section eval.
Context `{U : !Unicode, O : !MapOrder}.

(** The matched variables of the previous rule are dropped, the rule is
    evaluated and the capture flag is cleared. *)
Definition runRule (rules : list Rule) (c : ChainedRule) (tx : Transaction) : run Transaction :=
  let tx := if Len (tmap tx V.MatchedVars) >? 0 then withMap V.MatchedVars Collections.Reset tx else tx in
  tx ← Evaluate rules c tx;
  Done (tx <| tx_Capture := false |>).

Fixpoint evalLoop (rules : list Rule) (phase : Z) (rg : RuleGroup) (tx : Transaction) : run Transaction :=
  match rg with
  | [] => Done tx
  | c :: rg =>
      match judge phase c.(cr_rule) tx with
      | Break tx => Done tx
      | Skip tx => evalLoop rules phase rg tx
      | Run tx => tx ← runRule rules c tx; evalLoop rules phase rg tx
      end
  end.

(** The resets at the end of the phase. *)
Definition endPhase (tx : Transaction) : Transaction :=
  let tx := if decide (tx.(tx_AllowType) = AllowTypePhase) then tx <| tx_AllowType := AllowTypeUnset |> else tx in
  tx <| tx_Skip := 0 |>.

Definition Eval (rg : RuleGroup) (phase : Z) (tx : Transaction) : run (Transaction * bool) :=
  let tx := tx <| tx_lastPhase := phase |> <| tx_caches ::= resetTransformationCaches |> in
  tx ← evalLoop (cr_rule <$> rg) phase rg tx;
  let tx := endPhase tx in
  let tx := tx <| tx_stopWatches ::= (λ l, l ++ [phase]) |> in
  Done (tx, IsInterrupted tx).
End eval.

(** ** Invariants of the evaluation

    [P] is an invariant of the evaluation of rules when the bookkeeping of the
    engine keeps it and the operators and actions of the rules keep it.  The
    lemmas below are total: with such rules the evaluation returns. *)

(** What the engine itself changes while it evaluates a rule, and when it
    records a match. *)
Record bookkeeping (P : Transaction → Prop) : Prop := {
  bk_variables tx f : P tx → P (tx <| tx_variables ::= f |>);
  bk_capture tx b : P tx → P (tx <| tx_Capture := b |>);
  bk_caches tx f : P tx → P (tx <| tx_caches ::= f |>);
}.

Record recording (P : Transaction → Prop) : Prop := {
  bk_audit tx f : P tx → P (tx <| tx_audit ::= f |>);
  bk_matched tx mr : P tx → P (tx <| tx_matchedRules ::= (λ l, l ++ [mr]) |>);
}.

Section invariants.
Context `{U : !Unicode, O : !MapOrder}.
Context (rules : list Rule) (P : Transaction → Prop).

Record safe_rule (r : Rule) : Prop := {
  safe_msg : safe_macro r.(r_Msg);
  safe_logdata : safe_macro r.(r_LogData);
  safe_operator op : r.(r_operator) = Some op →
    ∀ tx data, P tx → wp (op.(op_Operator) tx data) (λ res, P res.1);
  safe_transformations : Forall (λ t, ∀ v, wp (t.(t_Function) v) (λ _, True)) r.(r_transformations);
  safe_actions a : a ∈ r.(r_actions) → isNondisruptive (actionType a.(act_Function)) = true →
    ∀ tx, P tx → wp (evaluateOn rules r a tx) P;
}.

(** A rule whose flow and disruptive actions keep [P] too. *)
Record safe_final (r : Rule) : Prop := {
  safe_evaluated : safe_rule r;
  safe_flow a : a ∈ r.(r_actions) → isFlowOrDisruptive (actionType a.(act_Function)) = true →
    ∀ tx, P tx → wp (evaluateOn rules r a tx) P;
}.

Context (HP : bookkeeping P).

Lemma expandOr_wp m old tx : safe_macro m → wp (expandOr m old tx) (λ _, True).
Proof. destruct m; [apply Expand_wp|done]. Qed.

Lemma runActions_wp sel r tx :
  (∀ a, a ∈ r.(r_actions) → sel (actionType a.(act_Function)) = true →
    ∀ tx, P tx → wp (evaluateOn rules r a tx) P) →
  P tx → wp (runActions rules sel r tx) P.
Proof.
  intros Hr HPtx. apply foldM_wp; [|done]. intros tx' a Ha HPtx'.
  destruct (sel _) eqn:E; [by apply Hr|done].
Qed.

Lemma withSingle_inv v s tx : P tx → P (withSingle v s tx).
Proof. apply bk_variables, HP. Qed.

Lemma withMap_inv v f tx : P tx → P (withMap v f tx).
Proof. apply bk_variables, HP. Qed.

Lemma tx_matchVariable_inv m tx : P tx → P (tx_matchVariable m tx).
Proof.
  intros HPtx. unfold tx_matchVariable.
  by apply withSingle_inv, withSingle_inv, withMap_inv, withSingle_inv.
Qed.

Lemma matchVariable_wp r m tx : safe_rule r → P tx → wp (matchVariable rules r m tx) P.
Proof. intros Hr HPtx. apply runActions_wp; [apply Hr|]. by apply tx_matchVariable_inv. Qed.

Lemma setRuleVariables_wp r tx : safe_rule r → P tx → wp (setRuleVariables r tx) P.
Proof.
  intros Hr HPtx. unfold setRuleVariables. cbv zeta.
  eapply wp_bind with (R := P).
  { pose proof (safe_msg _ Hr) as Hm. destruct (r_Msg r) as [m|].
    - eapply wp_bind; [by apply Expand_wp|]. intros s _. by apply withMap_inv, withMap_inv.
    - by apply withMap_inv. }
  intros tx1 HP1. eapply wp_bind with (R := P).
  { pose proof (safe_logdata _ Hr) as Hm. destruct (r_LogData r) as [m|].
    - eapply wp_bind; [by apply Expand_wp|]. intros s _. by apply withMap_inv, withMap_inv.
    - by apply withMap_inv. }
  intros tx2 HP2. by apply withMap_inv.
Qed.

Lemma executeTransformationsLoop_wp ts : ∀ v errs,
  Forall (λ t, ∀ v, wp (t.(t_Function) v) (λ _, True)) ts →
  wp (executeTransformationsLoop ts v errs) (λ _, True).
Proof.
  induction ts as [|t ts IH]; intros v errs Hts; [done|]. inversion Hts as [|?? Ht Hts']; subst.
  cbn [executeTransformationsLoop]. eapply wp_bind; [apply Ht|].
  intros [[v' ch] [e|]] _; by apply IH.
Qed.

Lemma multimatchLoop_wp ts : ∀ v res errs,
  Forall (λ t, ∀ v, wp (t.(t_Function) v) (λ _, True)) ts →
  wp (multimatchLoop ts v res errs) (λ _, True).
Proof.
  induction ts as [|t ts IH]; intros v res errs Hts; [done|]. inversion Hts as [|?? Ht Hts']; subst.
  cbn [multimatchLoop]. eapply wp_bind; [apply Ht|].
  intros [[v' []] [e|]] _; by apply IH.
Qed.

Lemma transformedArgs_wp r v : safe_rule r → wp (transformedArgs r v) (λ _, True).
Proof.
  intros Hr. unfold transformedArgs. destruct (r_MultiMatch r).
  - eapply wp_bind; [by apply multimatchLoop_wp, safe_transformations|]. by intros [] _.
  - eapply wp_bind; [by apply executeTransformationsLoop_wp, safe_transformations|]. by intros [] _.
Qed.

Lemma evaluateArg_wp r op lvl arg st carg :
  safe_rule r → r.(r_operator) = Some op → P st.1 →
  wp (evaluateArg rules r op lvl arg st carg) (λ st, P st.1).
Proof.
  intros Hr Hop HPtx. destruct st as [tx mvs]. unfold evaluateArg, executeOperator.
  eapply wp_bind with (R := λ res, P res.1).
  { eapply wp_bind; [by eapply safe_operator|]. by intros [tx' b] H. }
  intros [tx' m] H. destruct (negb m); [done|]. cbv zeta.
  eapply wp_bind; [by apply matchVariable_wp|]. intros tx'' H'.
  destruct (_ || _); [|done].
  eapply wp_bind; [by apply expandOr_wp, safe_msg|]. intros ? _.
  eapply wp_bind; [by apply expandOr_wp, safe_logdata|]. by intros ? _.
Qed.

Lemma evaluateVariable_wp r op lvl ecol st v :
  safe_rule r → r.(r_operator) = Some op → P st.1 →
  wp (evaluateVariable rules r op lvl ecol st v) (λ st, P st.1).
Proof.
  intros Hr Hop HPtx. apply (foldM_wp _ (λ st, P st.1)); [|done]. intros st' arg _ HPst.
  eapply wp_bind; [by apply transformedArgs_wp|]. intros args _.
  apply (foldM_wp _ (λ st, P st.1)); [|done]. intros st'' carg _ HPst''. by apply evaluateArg_wp.
Qed.

Lemma evaluateRule_wp r lvl tx :
  safe_rule r → P tx → wp (evaluateRule rules r lvl tx) (λ st, P st.1).
Proof.
  intros Hr HPtx. unfold evaluateRule. cbv zeta.
  eapply wp_bind; [apply setRuleVariables_wp; [done|by apply bk_capture]|]. intros tx1 HP1.
  destruct (r_operator r) as [op|] eqn:Eop.
  - apply (foldM_wp _ (λ st, P st.1)); [|done]. intros st v _ HPst. by apply evaluateVariable_wp.
  - eapply wp_bind with (R := λ _, True).
    { destruct (_ || _); [by apply expandOr_wp, safe_msg|done]. }
    intros message _. eapply wp_bind with (R := λ _, True).
    { destruct (_ || _); [by apply expandOr_wp, safe_logdata|done]. }
    intros data _. eapply wp_bind; [by apply matchVariable_wp|]. by intros tx2 HP2.
Qed.

(** The loop over the chain in [doEvaluate]. *)
Fixpoint links (l : list Rule) (lvl : Z) (tx : Transaction) (mvs : list MatchData)
    : run (Transaction * option (list MatchData)) :=
  match l with
  | [] => Done (tx, Some mvs)
  | nr :: l' =>
      '(tx, mcvs) ← doEvaluate rules l' nr (lvl + 1) tx;
      match mcvs with
      | [] => Done (tx, None)
      | _ => links l' (lvl + 1) tx (mvs ++ mcvs)
      end
  end.

Lemma doEvaluate_eq chain r lvl tx :
  doEvaluate rules chain r lvl tx =
    ('(tx, mvs) ← evaluateRule rules r lvl tx;
     match mvs with
     | [] => Done (tx, [])
     | _ =>
         if negb (r_ParentID r =? noID) then Done (tx, mvs) else
         '(tx, all) ← links chain lvl tx mvs;
         match all with None => Done (tx, []) | Some mvs => finishRule rules r mvs tx end
     end).
Proof. by destruct chain. Qed.

(** The rules of a chain have a parent: their flow and disruptive actions are
    never evaluated. *)
Definition chain_ok (chain : list Rule) : Prop :=
  Forall (λ r, safe_rule r ∧ r_ParentID r ≠ noID) chain.

Lemma doEvaluate_child_wp chain r lvl tx :
  safe_rule r → r_ParentID r ≠ noID → P tx → wp (doEvaluate rules chain r lvl tx) (λ st, P st.1).
Proof.
  intros Hr Hpar HPtx. rewrite doEvaluate_eq. eapply wp_bind; [by apply evaluateRule_wp|].
  intros [tx1 [|md mvs]] HP1; [done|]. by replace (r_ParentID r =? noID) with false by lia.
Qed.

Lemma links_wp chain : chain_ok chain → ∀ lvl tx mvs, mvs ≠ [] → P tx →
  wp (links chain lvl tx mvs) (λ st, P st.1 ∧ st.2 ≠ Some []).
Proof.
  induction 1 as [|nr chain [Hnr Hpar] Hch IH]; intros lvl tx mvs Hne HPtx.
  - split; [done|]. cbn [snd]. congruence.
  - cbn [links]. eapply wp_bind; [by apply doEvaluate_child_wp|].
    intros [tx1 [|md mcvs]] HP1; [done|]. apply IH; [by destruct mvs|done].
Qed.

(** [Q] is what the record of the match and the final actions establish. *)
Lemma doEvaluate_wp Q chain r lvl tx :
  safe_rule r → chain_ok chain →
  (∀ tx mvs, mvs ≠ [] → P tx → wp (finishRule rules r mvs tx) Q) →
  (∀ tx mvs, r_ParentID r ≠ noID → P tx → Q (tx, mvs)) →
  (∀ tx, P tx → Q (tx, [])) →
  P tx → wp (doEvaluate rules chain r lvl tx) Q.
Proof.
  intros Hr Hch Hfin Hchild Hnone HPtx. rewrite doEvaluate_eq.
  eapply wp_bind; [by apply evaluateRule_wp|]. intros [tx1 [|md mvs]] HP1; [by apply Hnone|].
  destruct (negb _) eqn:Epar; [apply Hchild; [lia|done]|].
  eapply wp_bind; [by apply links_wp|]. intros [tx2 [mvs2|]] [HP2 Hne]; [|by apply Hnone].
  apply Hfin; [by intros ->|done].
Qed.

Context (HR : recording P).

Lemma MatchRule_inv r mds tx : P tx → P (MatchRule r mds tx).
Proof.
  intros HPtx. unfold MatchRule. cbv zeta. apply bk_matched; [done|].
  destruct (negb _); [|by apply bk_audit]. case_match; [apply withSingle_inv|]; by apply bk_audit.
Qed.

Lemma finishRule_wp r mvs tx :
  safe_final r → mvs ≠ [] → P tx → wp (finishRule rules r mvs tx) (λ st, P st.1).
Proof.
  intros [Hr Hflow] Hmv HPtx. unfold finishRule. eapply wp_bind with (R := λ _, True).
  { destruct (_ || _); [|done]. destruct mvs as [|md mvs]; [done|].
    eapply wp_bind; [by apply expandOr_wp, safe_msg|]. intros ? _.
    eapply wp_bind; [by apply expandOr_wp, safe_logdata|]. by intros ? _. }
  intros mvs' _. eapply wp_bind; [by apply runActions_wp|]. intros tx' HP'.
  apply wp_Done. destruct (negb _); [by apply MatchRule_inv|done].
Qed.

Definition safe_chained (c : ChainedRule) : Prop :=
  safe_final c.(cr_rule) ∧ chain_ok c.(cr_chain).

Lemma Evaluate_wp c tx : safe_chained c → P tx → wp (Evaluate rules c tx) P.
Proof.
  intros [Hr Hch] HPtx. unfold Evaluate. eapply wp_bind with (R := λ st, P st.1).
  - apply doEvaluate_wp; [apply Hr|done| |done..]. intros. by apply finishRule_wp.
  - by intros [tx' mvs] HP'.
Qed.

Lemma runRule_wp c tx : safe_chained c → P tx → wp (runRule rules c tx) P.
Proof.
  intros Hc HPtx. unfold runRule. cbv zeta. eapply wp_bind.
  - apply Evaluate_wp; [done|]. case_match; [by apply withMap_inv|done].
  - intros tx' HP'. by apply bk_capture.
Qed.

(** The changes that [judge] makes. *)
Context (HF : ∀ tx tx', P tx →
  tx' = tx <| tx_SkipAfter := [] |> ∨ tx' = tx <| tx_Skip ::= Z.pred |> ∨
  tx' = tx <| tx_AllowType := AllowTypeUnset |> → P tx').

Lemma judge_inv phase r tx :
  P tx → match judge phase r tx with Break tx' | Skip tx' | Run tx' => P tx' end.
Proof. intros HPtx. unfold judge. repeat case_match; simplify_eq; eauto 10. Qed.

Lemma evalLoop_wp phase rg : Forall safe_chained rg → ∀ tx, P tx → wp (evalLoop rules phase rg tx) P.
Proof.
  induction 1 as [|c rg Hc Hrg IH]; intros tx HPtx; [done|]. cbn [evalLoop].
  pose proof (judge_inv phase (cr_rule c) tx HPtx) as HJ.
  destruct (judge _ _ _); [done|by apply IH|].
  eapply wp_bind; [by apply runRule_wp|]. apply IH.
Qed.
End invariants.

(** ** The identifiers of a group *)

(** The identifiers of the rules that have one are different. *)
Definition uniqueIDs (rg : RuleGroup) : Prop := NoDup (filter (λ id, id ≠ 0) (cr_ID <$> rg)).

Lemma FindByID_Some id rg c : FindByID id rg = Some c → c ∈ rg ∧ cr_ID c = id.
Proof. intros [Hin Heq]%find_some. split; [by apply list_elem_of_In|lia]. Qed.

Lemma FindByID_None id rg : FindByID id rg = None ↔ id ∉ cr_ID <$> rg.
Proof.
  unfold FindByID. rewrite list_elem_of_fmap. split.
  - intros H (c & -> & Hin%list_elem_of_In). apply (find_none _ _ H c) in Hin. lia.
  - intros H. destruct (find _ _) as [c|] eqn:E; [|done]. destruct H.
    apply FindByID_Some in E as [? ?]. by exists c.
Qed.

Lemma DeleteByID_absent id rg : id ∉ cr_ID <$> rg → DeleteByID id rg = rg.
Proof.
  induction rg as [|c rg IH]; [done|]. rewrite fmap_cons, not_elem_of_cons. intros [Hc Hrg].
  cbn [DeleteByID]. replace (cr_ID c =? id) with false by lia. by rewrite IH.
Qed.

Lemma DeleteByID_filter id rg :
  id ≠ 0 → uniqueIDs rg → DeleteByID id rg = filter (λ c, cr_ID c ≠ id) rg.
Proof.
  intros Hid. unfold uniqueIDs. induction rg as [|c rg IH]; [done|].
  rewrite fmap_cons, filter_cons. cbn [DeleteByID]. intros Hnd.
  destruct (Z.eqb_spec (cr_ID c) id) as [He|He].
  - rewrite filter_cons, decide_False by tauto. rewrite decide_True in Hnd by (by rewrite He).
    apply NoDup_cons in Hnd as [Hni Hnd]. rewrite <- IH by done. rewrite DeleteByID_absent; [done|].
    intros Hin. apply Hni. rewrite He. by apply list_elem_of_filter.
  - rewrite filter_cons, decide_True by done. f_equal. apply IH. case_decide; [by apply NoDup_cons in Hnd as [_ Hnd]|done].
Qed.

Lemma uniqueIDs_sublist rg rg' : rg `sublist_of` rg' → uniqueIDs rg' → uniqueIDs rg.
Proof.
  intros Hs Hu. eapply sublist_NoDup; [exact Hu|]. clear Hu.
  induction Hs as [|c rg rg' Hs IH|c rg rg' Hs IH]; [done| |];
    rewrite ?fmap_cons, ?filter_cons; case_decide; first [done|by constructor].
Qed.

Lemma AddRule_spec (rg : RuleGroup) (c : ChainedRule) : uniqueIDs rg →
  match AddRule c rg with
  | Some rg' => rg' = rg ++ [c] ∧ uniqueIDs rg' ∧ (cr_ID c = 0 ∨ cr_ID c ∉ cr_ID <$> rg)
  | None => cr_ID c ≠ 0 ∧ cr_ID c ∈ cr_ID <$> rg
  end.
Proof.
  intros Hu. unfold AddRule. destruct (Z.eqb_spec (cr_ID c) 0) as [Hz|Hz]; cbn [negb andb].
  - split; [done|]. split; [|by left]. unfold uniqueIDs in *. rewrite fmap_app, filter_app.
    cbn. rewrite decide_False by tauto. by rewrite app_nil_r.
  - destruct (FindByID (cr_ID c) rg) as [c'|] eqn:Ef.
    + split; [done|]. apply FindByID_Some in Ef as [Hin <-]. by apply list_elem_of_fmap_2.
    + apply FindByID_None in Ef. split; [done|]. split; [|by right].
      unfold uniqueIDs in *. rewrite fmap_app, filter_app. cbn. rewrite decide_True by done.
      apply NoDup_app. split; [done|]. split; [|apply NoDup_singleton].
      intros x Hx ->%list_elem_of_singleton. by apply list_elem_of_filter in Hx as [_ Hx].
Qed.

(** Adding a rule fails exactly when its identifier is taken and otherwise
    appends it, so that identifiers stay unique; deleting by identifier, by
    range or by tag removes exactly the rules selected. *)
Theorem RuleGroup_ids (rg : RuleGroup) (c : ChainedRule) (id start end_ : Z) (tag : bytes) :
  uniqueIDs rg →
  match AddRule c rg with
  | Some rg' => rg' = rg ++ [c] ∧ uniqueIDs rg' ∧ (cr_ID c = 0 ∨ cr_ID c ∉ cr_ID <$> rg)
  | None => cr_ID c ≠ 0 ∧ cr_ID c ∈ cr_ID <$> rg
  end ∧
  (id ≠ 0 → DeleteByID id rg = filter (λ c, cr_ID c ≠ id) rg) ∧
  uniqueIDs (DeleteByRange start end_ rg) ∧ uniqueIDs (DeleteByTag tag rg) ∧
  (∀ c', c' ∈ DeleteByRange start end_ rg ↔ c' ∈ rg ∧ ¬ (start <= cr_ID c' <= end_)).
Proof.
  intros Hu. split; [|split; [by intros; apply DeleteByID_filter|split; [|split]]].
  - by apply AddRule_spec.
  - eapply uniqueIDs_sublist; [apply sublist_filter|done].
  - eapply uniqueIDs_sublist; [apply sublist_filter|done].
  - intros c'. unfold DeleteByRange. rewrite list_elem_of_filter. split; [intros []; split; [done|lia]|].
    intros []; split; [lia|done].
Qed.

Definition ruleWithID (id : Z) : ChainedRule := mkChained (NewRule <| r_meta ::= (λ m, m <| ID_ := id |>) |>) [].

Lemma RuleGroup_ids_witness :
  AddRule (ruleWithID 3) (ruleWithID <$> [1; 0; 0]) = Some (ruleWithID <$> [1; 0; 0; 3]) ∧
  uniqueIDs (ruleWithID <$> [1; 0; 0; 3]).
Proof.
  split; [done|].
  assert (uniqueIDs (ruleWithID <$> [1; 0; 0])) as Hu by (vm_compute; apply NoDup_singleton).
  destruct (RuleGroup_ids (ruleWithID <$> [1; 0; 0]) (ruleWithID 3) 0 0 0 [] Hu) as [H _].
  exact (proj1 (proj2 H)).
Defined.

(** Deleting by message removes the rules with that message when every rule
    has one, and panics as soon as one rule has none. *)
Theorem DeleteByMsg_spec (msg : bytes) (rg : RuleGroup) :
  DeleteByMsg msg rg =
    if forallb (λ c, match c.(cr_rule).(r_Msg) with Some _ => true | None => false end) rg
    then Done (filter (λ c, original <$> c.(cr_rule).(r_Msg) ≠ Some msg) rg)
    else Panic.
Proof.
  induction rg as [|c rg IH]; [done|]. cbn [DeleteByMsg forallb]. rewrite filter_cons.
  destruct (r_Msg (cr_rule c)) as [m|] eqn:Em; cbn [andb]; [|done]. rewrite IH.
  destruct (forallb _ rg); run_simpl; [|done]. unfold bytes_eqb.
  case_bool_decide; case_decide as Hd; rewrite ?Em in Hd; naive_solver.
Qed.
