(* ===== verification/Engine.v ===== *)
(** The rule engine of src/internal/corazawaf/rulegroup.go and rule.go: what
    the evaluation of a phase guarantees.

    The theorems are total: the evaluation of a group of [sound] rules returns.
    A rule is sound when its actions are those of the repository, its macros
    and transformations always return, and its operator only writes variables and
    caches, as the operators of src/internal/operators do (they capture fields and
    remember byte sets). *)

From S2P Require Import Prelude GoLib StringUtil UrlTransform Variables Types Collections.
From S2P Require Import Matchers TransactionCaches BodyBuffer TransactionState Macro Rule Actions RuleGroup.

(** ** Sound rules *)

Definition sound_operator (op : ruleOperatorParams) : Prop :=
  ∀ tx data, wp (op.(op_Operator) tx data) (λ res, ∃ f g, res.1 = tx <| tx_variables ::= f |> <| tx_caches ::= g |>).

Record sound_rule (r : Rule) : Prop := {
  sound_msg : safe_macro r.(r_Msg);
  sound_logdata : safe_macro r.(r_LogData);
  sound_op op : r.(r_operator) = Some op → sound_operator op;
  sound_transformations : Forall (λ t, ∀ v, wp (t.(t_Function) v) (λ _, True)) r.(r_transformations);
  sound_actions : Forall (λ a, safe_action a.(act_Function)) r.(r_actions);
}.

(** The rules of a chain carry the identifier of their parent. *)
Definition sound_chained (c : ChainedRule) : Prop :=
  sound_rule c.(cr_rule) ∧ Forall (λ r, sound_rule r ∧ r_ParentID r ≠ noID) c.(cr_chain).

Definition allActions (c : ChainedRule) : list Action :=
  act_Function <$> ((c.(cr_rule) :: c.(cr_chain)) ≫= r_actions).

Section engine.
Context `{U : !Unicode, O : !MapOrder}.

(** An invariant that the actions of sound rules keep. *)
Definition kept_by (P : Transaction → Prop) (a : Action) : Prop :=
  ∀ tx tx', P tx → effect a tx tx' → P tx'.

Lemma sound_rule_safe rules P r :
  bookkeeping P → sound_rule r →
  Forall (λ a, actionType a.(act_Function) = ActionTypeNondisruptive → kept_by P a.(act_Function))
    r.(r_actions) →
  safe_rule rules P r.
Proof.
  intros HP Hr Hk. rewrite Forall_forall in Hk. split; try apply Hr.
  - intros op Hop tx data HPtx. eapply wp_mono; [by apply (sound_op _ Hr)|].
    intros res (f & g & ->). by apply bk_caches, bk_variables.
  - intros a Ha Hty%bool_decide_eq_true tx HPtx.
    pose proof (sound_actions _ Hr) as Hs. rewrite Forall_forall in Hs.
    eapply wp_mono; [by apply evaluateAction_wp, Hs|]. intros tx'. by apply Hk.
Qed.

Lemma sound_chained_safe rules P c :
  bookkeeping P → sound_chained c → Forall (kept_by P) (allActions c) →
  safe_chained rules P c.
Proof.
  intros HP [Hr Hch] Hk. unfold allActions in Hk. rewrite Forall_fmap, Forall_forall in Hk.
  split; [split|].
  - apply sound_rule_safe; [done..|]. apply Forall_forall. intros a Ha _. apply Hk.
    apply list_elem_of_bind. exists c.(cr_rule). split; [done|]. by left.
  - intros a Ha _ tx HPtx.
    pose proof (sound_actions _ Hr) as Hs. rewrite Forall_forall in Hs.
    eapply wp_mono; [by apply evaluateAction_wp, Hs|]. intros tx'. apply Hk; [|done].
    apply list_elem_of_bind. exists c.(cr_rule). split; [done|]. by left.
  - rewrite Forall_forall in Hch. apply Forall_forall. intros r Hin.
    destruct (Hch r Hin) as [Hsr Hpar]. split; [|done].
    apply sound_rule_safe; [done..|]. apply Forall_forall. intros a Ha _. apply Hk.
    apply list_elem_of_bind. exists r. split; [done|]. by right.
Qed.

(** ** The frame of a phase *)

Definition buffers (tx : Transaction) : BodyBuffer * BodyBuffer :=
  (tx.(tx_requestBodyBuffer), tx.(tx_responseBodyBuffer)).

(** What the evaluation of rules leaves alone or only extends. *)
Definition framed (tx0 tx : Transaction) : Prop :=
  tx.(tx_id) = tx0.(tx_id) ∧ tx.(tx_lastPhase) = tx0.(tx_lastPhase) ∧ buffers tx = buffers tx0 ∧
  tx.(tx_stopWatches) = tx0.(tx_stopWatches) ∧
  tx0.(tx_ruleRemoveByID) ⊆ tx.(tx_ruleRemoveByID) ∧
  tx0.(tx_ruleRemoveByIDRanges) ⊆ tx.(tx_ruleRemoveByIDRanges) ∧
  tx0.(tx_matchedRules) `prefix_of` tx.(tx_matchedRules).

Lemma framed_refl tx : framed tx tx.
Proof. by repeat split. Qed.

Lemma framed_bookkeeping tx0 : bookkeeping (framed tx0).
Proof. split; intros; assumption. Qed.

Lemma framed_kept tx0 a : kept_by (framed tx0) a.
Proof.
  intros tx tx' (H1 & H2 & H3 & H4 & H5 & H6 & H7) [Hf Hrm Hrg _ _ _ _ _].
  unfold fixed in Hf. simplify_eq. unfold framed, buffers in *. simplify_eq.
  repeat split; try congruence; set_solver.
Qed.

Lemma framed_recording tx0 : recording (framed tx0).
Proof.
  split; [intros; assumption|]. intros tx mr (? & ? & ? & ? & ? & ? & ?).
  repeat split; try assumption. cbn. by apply prefix_app_r.
Qed.

Lemma framed_flow tx0 tx tx' : framed tx0 tx →
  tx' = tx <| tx_SkipAfter := [] |> ∨ tx' = tx <| tx_Skip ::= Z.pred |> ∨
  tx' = tx <| tx_AllowType := AllowTypeUnset |> → framed tx0 tx'.
Proof. by intros H [->|[->| ->]]. Qed.

(** An invariant of sound rules holds at the end of the loop of [Eval], and
    the loop returns. *)
Lemma evalLoop_sound rules P phase rg tx :
  bookkeeping P → recording P →
  (∀ tx tx', P tx → tx' = tx <| tx_SkipAfter := [] |> ∨ tx' = tx <| tx_Skip ::= Z.pred |> ∨
     tx' = tx <| tx_AllowType := AllowTypeUnset |> → P tx') →
  Forall sound_chained rg → Forall (λ c, Forall (kept_by P) (allActions c)) rg →
  P tx → wp (evalLoop rules phase rg tx) P.
Proof.
  intros HP HR HF Hs Hk. apply evalLoop_wp; [done..|].
  rewrite Forall_forall in *. intros c Hc. apply sound_chained_safe; [done|by apply Hs|by apply Hk].
Qed.

(** ** The engine that only detects *)

Definition onlyDetects (engine : RuleEngineStatus) (tx : Transaction) : Prop :=
  tx.(tx_RuleEngine) = engine ∧ tx.(tx_interruption) = None.

Lemma onlyDetects_kept engine a :
  engine ≠ RuleEngineOn → setsEngine a = false → kept_by (onlyDetects engine) a.
Proof.
  intros He Ha tx tx' [H1 H2] Heff. split.
  - by rewrite (eff_engine _ _ _ Heff Ha).
  - by rewrite (eff_interruption _ _ _ Heff); [|congruence].
Qed.

(** ** Removed rules *)

Definition removed (tx : Transaction) (r : Rule) : bool :=
  bool_decide (r_ID r ∈ tx.(tx_ruleRemoveByID)) ||
  existsb (inRange (r_ID r)) tx.(tx_ruleRemoveByIDRanges).

Lemma removed_framed tx0 tx r : framed tx0 tx → removed tx0 r = true → removed tx r = true.
Proof.
  intros (_ & _ & _ & _ & Hs & Hr & _). unfold removed.
  rewrite !orb_true_iff, !bool_decide_eq_true, !existsb_exists. intros [H|(x & Hx & Hin)]; [set_solver|].
  right. exists x. split; [|done]. apply list_elem_of_In, Hr, list_elem_of_In, Hx.
Qed.

Lemma evalLoop_interrupted rules phase rg tx :
  IsInterrupted tx = true → phase ≠ PhaseLogging → evalLoop rules phase rg tx = Done tx.
Proof.
  intros Hi Hp. destruct rg as [|c rg]; [done|]. cbn [evalLoop]. unfold judge. rewrite Hi.
  by replace (phase =? PhaseLogging) with false by lia.
Qed.

Lemma judge_removed phase r tx :
  removed tx r = true →
  judge phase r tx = if IsInterrupted tx && negb (phase =? PhaseLogging) then Break tx else Skip tx.
Proof.
  intros Hr. unfold judge. destruct (_ && _); [done|]. destruct (_ && _); [done|].
  unfold removed in Hr. destruct (bool_decide _); [done|]. cbn [orb] in Hr. by rewrite Hr.
Qed.

(** ** Skipping *)

(** A rule that the phase looks at: of this phase or of every phase, and not
    removed. *)
Definition considered (phase : Z) (tx : Transaction) (r : Rule) : bool :=
  ((r_Phase r =? 0) || (r_Phase r =? phase)) && negb (removed tx r).

Definition running (phase : Z) (tx : Transaction) : Prop :=
  IsInterrupted tx = false ∨ phase = PhaseLogging.

Lemma judge_running phase r tx :
  running phase tx →
  judge phase r tx =
    if negb (considered phase tx r) then Skip tx
    else if negb (tx.(tx_SkipAfter) =s []) then
      if r.(r_meta).(SecMark_) =s tx.(tx_SkipAfter) then Skip (tx <| tx_SkipAfter := [] |>) else Skip tx
    else if tx.(tx_Skip) >? 0 then Skip (tx <| tx_Skip ::= Z.pred |>)
    else
      match tx.(tx_AllowType) with
      | AllowTypeUnset => Run tx
      | AllowTypePhase | AllowTypeAll => Break tx
      | AllowTypeRequest =>
          if phase =? PhaseRequestHeaders then Break tx
          else if phase =? PhaseRequestBody then Break (tx <| tx_AllowType := AllowTypeUnset |>)
          else Run tx
      end.
Proof.
  intros Hrun. unfold judge, considered, removed.
  destruct (IsInterrupted tx && negb (phase =? PhaseLogging)) eqn:Ei.
  { destruct Hrun as [Hrun|Hrun]; [by rewrite Hrun in Ei|lia]. }
  destruct (r_Phase r =? 0), (r_Phase r =? phase), (bool_decide _), (existsb _ _); try done;
    cbn [negb andb orb]; by destruct (tx_AllowType tx).
Qed.

Definition marks (phase : Z) (tx : Transaction) (c : ChainedRule) : Prop :=
  considered phase tx c.(cr_rule) = true ∧ c.(cr_rule).(r_meta).(SecMark_) = tx.(tx_SkipAfter).

Lemma evalLoop_skipAfter_pre rules phase pre rest tx :
  running phase tx → tx.(tx_SkipAfter) ≠ [] → Forall (λ c, ¬ marks phase tx c) pre →
  evalLoop rules phase (pre ++ rest) tx = evalLoop rules phase rest tx.
Proof.
  intros Hrun Hne. induction 1 as [|c pre Hc Hpre IH]; [done|].
  cbn [app evalLoop]. rewrite judge_running by done.
  destruct (considered phase tx (cr_rule c)) eqn:Ec; cbn [negb]; [|apply IH].
  rewrite (proj2 (bytes_eqb_neq _ _) Hne). cbn [negb].
  destruct (_ =s _) eqn:Em; [|apply IH]. destruct Hc. by apply bytes_eqb_eq in Em.
Qed.

(** ** Chains *)

Definition quiet (tx0 tx : Transaction) : Prop :=
  flow tx = flow tx0 ∧ tx.(tx_matchedRules) = tx0.(tx_matchedRules).

Lemma quiet_kept tx0 a :
  actionType a = ActionTypeNondisruptive → kept_by (quiet tx0) a.
Proof.
  intros Ha tx tx' [H1 H2] [Hf _ _ _ _ _ _ Hfl]. specialize (Hfl Ha). unfold fixed in Hf.
  split; [by rewrite Hfl|congruence].
Qed.

Lemma quiet_bookkeeping tx0 : bookkeeping (quiet tx0).
Proof. by split. Qed.

Lemma quiet_safe rules tx0 r : sound_rule r → safe_rule rules (quiet tx0) r.
Proof.
  intros Hr. apply sound_rule_safe; [apply quiet_bookkeeping|done|].
  apply Forall_true. intros a. apply quiet_kept.
Qed.

(** What a rule that matched with its whole chain leaves. *)
Definition recorded (tx0 : Transaction) (r : Rule) (st : Transaction * list MatchData) : Prop :=
  st.2 ≠ [] ∧
  ∃ recs, st.1.(tx_matchedRules) = tx0.(tx_matchedRules) ++ recs ∧
    if r_ID r =? noID then recs = []
    else ∃ mr, recs = [mr] ∧ mr.(mr_Rule) = r.(r_meta) ∧ mr.(mr_MatchedDatas) = st.2.

Lemma MatchRule_record r mds tx : ∃ mr,
  (MatchRule r mds tx).(tx_matchedRules) = tx.(tx_matchedRules) ++ [mr] ∧
  mr.(mr_Rule) = r.(r_meta) ∧ mr.(mr_MatchedDatas) = mds.
Proof.
  unfold MatchRule. cbv zeta. destruct (negb _); [destruct (_ <? _)|];
    (eexists; split; [reflexivity|done]).
Qed.

Lemma finishRule_recorded rules tx0 r mvs tx :
  sound_rule r → mvs ≠ [] → tx.(tx_matchedRules) = tx0.(tx_matchedRules) →
  wp (finishRule rules r mvs tx) (recorded tx0 r).
Proof.
  intros Hr Hne Htx. unfold finishRule. eapply wp_bind with (R := λ mvs, mvs ≠ []).
  { destruct (_ || _); [|done]. destruct mvs as [|md mvs]; [done|].
    eapply wp_bind; [by apply expandOr_wp, Hr|]. intros ? _.
    eapply wp_bind; [by apply expandOr_wp, Hr|]. by intros ? _. }
  intros mvs' Hne'.
  eapply wp_bind; [apply (runActions_wp rules (λ tx, tx.(tx_matchedRules) = tx0.(tx_matchedRules)))|].
  - intros a Ha _ tx1 H1. pose proof (sound_actions _ Hr) as Hs. rewrite Forall_forall in Hs.
    eapply wp_mono; [by apply evaluateAction_wp, Hs|]. intros tx2 [Hf _ _ _ _ _ _ _].
    unfold fixed in Hf. congruence.
  - done.
  - intros tx1 H1. split; [done|]. cbn [fst snd]. destruct (r_ID r =? noID); cbn [negb].
    + exists []. by rewrite app_nil_r.
    + destruct (MatchRule_record r mvs' tx1) as (mr & Hmr & ? & ?). exists [mr].
      rewrite Hmr, H1. split; [done|]. by exists mr.
Qed.

(** The end of the phase, after the loop. *)
Definition closePhase (phase : Z) (tx : Transaction) : Transaction :=
  (endPhase tx) <| tx_stopWatches ::= (λ l, l ++ [phase]) |>.

Lemma Eval_sound P rg phase tx :
  bookkeeping P → recording P →
  (∀ tx tx', P tx → tx' = tx <| tx_SkipAfter := [] |> ∨ tx' = tx <| tx_Skip ::= Z.pred |> ∨
     tx' = tx <| tx_AllowType := AllowTypeUnset |> → P tx') →
  Forall sound_chained rg → Forall (λ c, Forall (kept_by P) (allActions c)) rg →
  P (tx <| tx_lastPhase := phase |>) →
  wp (Eval rg phase tx) (λ res, ∃ tx1, P tx1 ∧ res = (closePhase phase tx1, IsInterrupted tx1)).
Proof.
  intros HP HR HF Hs Hk HPtx. unfold Eval. cbv zeta.
  eapply wp_bind; [apply evalLoop_sound; [done..|by apply bk_caches]|]. intros tx1 HP1. exists tx1. split; [done|].
  f_equal. unfold IsInterrupted, endPhase. by case_decide.
Qed.

(** C4: evaluating a phase with sound rules always returns.  It records the
    phase, leaves the identifier and the body buffers alone, forgets no
    removed rule and no match, and ends with nothing left to skip and without
    an allow of the phase; the result tells whether the transaction is
    interrupted. *)
Theorem Eval_frame rg phase tx :
  Forall sound_chained rg →
  ∃ tx', Eval rg phase tx = Done (tx', IsInterrupted tx') ∧
    tx'.(tx_lastPhase) = phase ∧ tx'.(tx_stopWatches) = tx.(tx_stopWatches) ++ [phase] ∧
    tx'.(tx_id) = tx.(tx_id) ∧ buffers tx' = buffers tx ∧
    tx.(tx_ruleRemoveByID) ⊆ tx'.(tx_ruleRemoveByID) ∧
    tx.(tx_ruleRemoveByIDRanges) ⊆ tx'.(tx_ruleRemoveByIDRanges) ∧
    tx.(tx_matchedRules) `prefix_of` tx'.(tx_matchedRules) ∧
    tx'.(tx_Skip) = 0 ∧ tx'.(tx_AllowType) ≠ AllowTypePhase.
Proof.
  intros Hs. destruct (wp_elim _ _ (Eval_sound (framed (tx <| tx_lastPhase := phase |>)) rg phase tx
    (framed_bookkeeping _) (framed_recording _) (framed_flow _) Hs
    (Forall_true _ _ (λ c, Forall_true _ _ (framed_kept _))) (framed_refl _)))
    as (res & HE & tx1 & (H1 & H2 & H3 & H4 & H5 & H6 & H7) & ->).
  exists (closePhase phase tx1). rewrite HE. split.
  - do 2 f_equal. unfold IsInterrupted, closePhase, endPhase. by case_decide.
  - unfold closePhase, endPhase. case_decide; repeat split; try done; cbn; by rewrite H4.
Qed.

Lemma Eval_onlyDetects rg phase tx :
  Forall sound_chained rg →
  Forall (λ c, Forall (λ a, setsEngine a = false) (allActions c)) rg →
  tx.(tx_RuleEngine) ≠ RuleEngineOn → tx.(tx_interruption) = None →
  wp (Eval rg phase tx) (λ res, ∃ tx1, onlyDetects tx.(tx_RuleEngine) tx1 ∧ res = (closePhase phase tx1, IsInterrupted tx1)).
Proof.
  intros Hs Ha He Hi. apply Eval_sound; [by split|by split| |done| |done].
  - by intros ?? [??] [->|[->| ->]].
  - rewrite Forall_forall in *. intros c Hc. specialize (Ha c Hc).
    rewrite Forall_forall in *. intros a Hin. apply onlyDetects_kept; [done|by apply Ha].
Qed.

(** When the engine is off or only detects, and no rule can change its
    mode, no rule interrupts the transaction. *)
Theorem Eval_detectionOnly rg phase tx :
  Forall sound_chained rg →
  Forall (λ c, Forall (λ a, setsEngine a = false) (allActions c)) rg →
  tx.(tx_RuleEngine) ≠ RuleEngineOn → tx.(tx_interruption) = None →
  ∃ tx', Eval rg phase tx = Done (tx', false) ∧ tx'.(tx_interruption) = None ∧
    tx'.(tx_RuleEngine) = tx.(tx_RuleEngine).
Proof.
  intros Hs Ha He Hi. destruct (wp_elim _ _ (Eval_onlyDetects rg phase tx Hs Ha He Hi)) as (res & -> & tx1 & [H1 H2] & ->).
  exists (closePhase phase tx1). split; [|unfold closePhase, endPhase; by case_decide].
  do 2 f_equal. unfold IsInterrupted. by rewrite H2.
Qed.

(** C23: no rule is evaluated in an interrupted transaction, except in the
    logging phase. *)
Theorem Eval_interrupted rg phase tx :
  IsInterrupted tx = true → phase ≠ PhaseLogging →
  Eval rg phase tx =
    Done ((endPhase (tx <| tx_lastPhase := phase |> <| tx_caches ::= resetTransformationCaches |>))
            <| tx_stopWatches ::= (λ l, l ++ [phase]) |>, true).
Proof.
  intros Hi Hp. unfold Eval. cbv zeta. rewrite evalLoop_interrupted by done. run_simpl.
  do 2 f_equal. unfold IsInterrupted, endPhase in *. by case_decide.
Qed.

(** C30: a rule that is removed from the transaction, by identifier or by
    range, plays no part in the rest of the phase: the phase evaluates as if
    the rule was not in the group. *)
Theorem evalLoop_removed rules phase rg tx :
  Forall sound_chained rg →
  evalLoop rules phase rg tx =
    evalLoop rules phase (filter (λ c, removed tx c.(cr_rule) = false) rg) tx.
Proof.
  intros Hs. enough (∀ tx1, framed tx tx1 → evalLoop rules phase rg tx1 =
    evalLoop rules phase (filter (λ c, removed tx c.(cr_rule) = false) rg) tx1) as Hgen
    by apply Hgen, framed_refl.
  induction Hs as [|c rg Hc Hs IH]; intros tx1 Hfr; [done|].
  cbn [evalLoop]. rewrite filter_cons. destruct (removed tx (cr_rule c)) eqn:Er; case_decide; try done.
  - rewrite judge_removed by (by eapply removed_framed).
    destruct (IsInterrupted tx1 && negb (phase =? PhaseLogging)) eqn:Ei; [|by apply IH].
    apply andb_true_iff in Ei as [Ei Ep]. rewrite evalLoop_interrupted; [done..|lia].
  - cbn [evalLoop]. pose proof (judge_inv _ (framed_flow tx) phase (cr_rule c) tx1 Hfr) as HJ.
    destruct (judge phase (cr_rule c) tx1) as [tx2|tx2|tx2]; [done|by apply IH|].
    assert (wp (runRule rules c tx2) (framed tx)) as Hrun.
    { apply runRule_wp; [apply framed_bookkeeping|apply framed_recording| |done].
      apply sound_chained_safe; [apply framed_bookkeeping|done|].
      apply Forall_true, framed_kept. }
    destruct (wp_elim _ _ Hrun) as (tx3 & -> & Hfr3). run_simpl. by apply IH.
Qed.

(** While a marker is awaited no rule is evaluated.  The evaluation goes on
    with the rules after the first rule of the phase that carries the marker,
    or ends when there is none, and the marker is then still awaited in the
    next phase. *)
Theorem evalLoop_skipAfter rules phase pre tx :
  running phase tx → tx.(tx_SkipAfter) ≠ [] → Forall (λ c, ¬ marks phase tx c) pre →
  evalLoop rules phase pre tx = Done tx ∧
  ∀ c rest, marks phase tx c →
    evalLoop rules phase (pre ++ c :: rest) tx =
      evalLoop rules phase rest (tx <| tx_SkipAfter := [] |>).
Proof.
  intros Hrun Hne Hpre. split.
  - rewrite <- (app_nil_r pre). by rewrite evalLoop_skipAfter_pre.
  - intros c rest [Hc Hm]. rewrite evalLoop_skipAfter_pre by done. cbn [evalLoop].
    rewrite judge_running by done. rewrite Hc. cbn [negb].
    rewrite (proj2 (bytes_eqb_neq _ _) Hne). cbn [negb]. by rewrite (proj2 (bytes_eqb_eq _ _) Hm).
Qed.

(** A skip of [n] passes over the next [n] rules that the phase looks at,
    and over nothing else. *)
Theorem evalLoop_skip rules phase pre rest tx :
  running phase tx → tx.(tx_SkipAfter) = [] →
  Z.of_nat (length (filter (λ c, considered phase tx c.(cr_rule) = true) pre)) <= tx.(tx_Skip) →
  evalLoop rules phase (pre ++ rest) tx =
    evalLoop rules phase rest (tx <| tx_Skip ::= (λ n,
      n - Z.of_nat (length (filter (λ c, considered phase tx c.(cr_rule) = true) pre))) |>).
Proof.
  revert tx. induction pre as [|c pre IH]; intros tx Hrun Hsa Hlen.
  - cbn [app]. f_equal. destruct tx. unfold setf. cbn -[Z.sub]. f_equal. lia.
  - cbn [app evalLoop]. rewrite judge_running by done. rewrite filter_cons in Hlen |- *.
    destruct (considered phase tx (cr_rule c)) eqn:Ec; case_decide; try done; cbn [negb].
    + cbn [length] in Hlen |- *. rewrite (proj2 (bytes_eqb_eq _ _) Hsa). cbn [negb].
      replace (tx_Skip tx >? 0) with true by lia.
      specialize (IH (tx <| tx_Skip ::= Z.pred |>)).
      change (considered phase (tx <| tx_Skip ::= Z.pred |>)) with (considered phase tx) in IH.
      rewrite IH; [|done..|].
      * f_equal. unfold setf. cbn -[Z.sub]. f_equal. lia.
      * cbn. lia.
    + by apply IH.
Qed.

(** Rules that match one after the other, each from the state that the one before
    left, with the matches of each. *)
Inductive matches_all (rules : list Rule) :
  list Rule → Z → Transaction → Transaction → list (list MatchData) → Prop :=
| all_nil lvl tx : matches_all rules [] lvl tx tx []
| all_cons r l lvl tx tx1 tx2 mds groups :
    evaluateRule rules r lvl tx = Done (tx1, mds) → mds ≠ [] → matches_all rules l (lvl + 1) tx1 tx2 groups →
    matches_all rules (r :: l) lvl tx tx2 (mds :: groups).

(** The first of the rules that does not match, and the state it left. *)
Definition fails_at (rules : list Rule) (l : list Rule) (lvl : Z) (tx tx' : Transaction) : Prop :=
  ∃ pre r post tx1 groups, l = pre ++ r :: post ∧ matches_all rules pre lvl tx tx1 groups ∧
    evaluateRule rules r (lvl + Z.of_nat (length pre)) tx1 = Done (tx', []).

(** The same matches, but for the message and the data of the first. *)
Definition same_matches (mds mds' : list MatchData) : Prop :=
  tail mds' = tail mds ∧
  match mds, mds' with
  | md :: _, md' :: _ => (Variable_ md', Key_ md', Value_ md', ChainLevel_ md') = (Variable_ md, Key_ md, Value_ md, ChainLevel_ md)
  | _, _ => mds = [] ∧ mds' = []
  end.

Lemma fails_at_cons rules r l lvl tx tx1 tx' mds :
  evaluateRule rules r lvl tx = Done (tx1, mds) → mds ≠ [] → fails_at rules l (lvl + 1) tx1 tx' →
  fails_at rules (r :: l) lvl tx tx'.
Proof.
  intros HE Hne (pre & nr & post & tx2 & groups & -> & Hall & Hnr).
  exists (r :: pre), nr, post, tx2, (mds :: groups). split; [done|]. split; [by econstructor|].
  cbn [length]. rewrite <- Hnr. f_equal. lia.
Qed.

Lemma doEvaluate_member rules chain r lvl tx :
  r_ParentID r ≠ noID → doEvaluate rules chain r lvl tx = evaluateRule rules r lvl tx.
Proof.
  intros Hp. rewrite doEvaluate_eq. destruct (evaluateRule _ _ _ _) as [[tx1 [|md mds]]| |]; try done. cbn [mbind run_bind].
  by replace (r_ParentID r =? noID) with false by lia.
Qed.

(** The loop over the chain finds the matches of all its rules, or the first that
    has none. *)
Lemma links_all rules chain : Forall (λ r, sound_rule r ∧ r_ParentID r ≠ noID) chain → ∀ lvl tx mvs,
  wp (links rules chain lvl tx mvs) (λ st,
    match st.2 with
    | Some all => ∃ groups, matches_all rules chain (lvl + 1) tx st.1 groups ∧ all = mvs ++ concat groups
    | None => fails_at rules chain (lvl + 1) tx st.1
    end).
Proof.
  induction 1 as [|r chain [Hr Hp] _ IH]; intros lvl tx mvs; cbn [links].
  { exists []. split; [constructor|by rewrite app_nil_r]. }
  rewrite doEvaluate_member by done.
  destruct (wp_elim _ _ (evaluateRule_wp rules (quiet tx) (quiet_bookkeeping tx) r (lvl + 1) tx (quiet_safe rules tx r Hr)
    ltac:(done))) as ([tx1 mds] & HE & _). rewrite HE. cbn [mbind run_bind].
  destruct mds as [|md mds]; [by exists [], r, chain, tx, []; repeat split; [constructor|rewrite Z.add_0_r]|].
  eapply wp_mono; [apply IH|]. intros [tx2 [all|]]; cbn [fst snd].
  - intros (groups & Hall & ->). exists ((md :: mds) :: groups). split; [by econstructor|]. cbn [concat]. by rewrite <- app_assoc.
  - intros Hf. by eapply fails_at_cons.
Qed.

(** The end of a rule that matched: the postponed expansions, the actions and the
    record. *)
Lemma finishRule_ends rules r mvs tx :
  sound_rule r → mvs ≠ [] →
  wp (finishRule rules r mvs tx) (λ st, same_matches mvs st.2 ∧
    ∃ tx2, runActions rules isFlowOrDisruptive r tx = Done tx2 ∧
      st.1 = if r_ID r =? noID then tx2 else MatchRule r st.2 tx2).
Proof.
  intros Hr Hne. unfold finishRule. eapply wp_bind with (R := same_matches mvs).
  { destruct mvs as [|md mvs]; [done|]. destruct (_ || _); [|by split].
    eapply wp_bind; [by apply expandOr_wp, Hr|]. intros ? _.
    eapply wp_bind; [by apply expandOr_wp, Hr|]. by intros ? _. }
  intros mvs' Hs. destruct (wp_elim _ _ (runActions_wp rules (λ _, True) isFlowOrDisruptive r tx
    ltac:(intros a Ha _ tx1 _; pose proof (sound_actions _ Hr) as H; rewrite Forall_forall in H;
          eapply wp_mono; [by apply evaluateAction_wp, H|done]) I)) as (tx2 & HE & _).
  rewrite HE. cbn [mbind run_bind]. split; [done|]. exists tx2. split; [done|]. cbn [fst snd]. by destruct (r_ID r =? noID).
Qed.

(** C5: a rule with its chain, for sound rules whose chain members name their parent.
    Its evaluation returns.  Either the rule and every member of its chain match,
    one after the other, each in the state the one before left: then the result is
    the matches of all of them in order (the message and the data of the first are
    expanded at the end), the flow and disruptive actions of the rule run once, after
    the last member, and a rule with an identifier adds one record with all these
    matches.  Or a member has no match: then the result is empty, the state is the one
    the first such member left, and interruption, allow and skip state and the matched
    rules are as before.  A member itself only evaluates its own matches. *)
Theorem doEvaluate_chain rules c lvl tx :
  sound_chained c →
  ∃ tx' mvs, doEvaluate rules c.(cr_chain) c.(cr_rule) lvl tx = Done (tx', mvs) ∧
    if decide (r_ParentID c.(cr_rule) = noID) then
      (∃ tx1 tx2 groups, matches_all rules (c.(cr_rule) :: c.(cr_chain)) lvl tx tx1 groups ∧ quiet tx tx1 ∧
         same_matches (concat groups) mvs ∧ runActions rules isFlowOrDisruptive c.(cr_rule) tx1 = Done tx2 ∧
         tx' = (if r_ID c.(cr_rule) =? noID then tx2 else MatchRule c.(cr_rule) mvs tx2) ∧
         recorded tx c.(cr_rule) (tx', mvs)) ∨
      (mvs = [] ∧ fails_at rules (c.(cr_rule) :: c.(cr_chain)) lvl tx tx' ∧ quiet tx tx')
    else evaluateRule rules c.(cr_rule) lvl tx = Done (tx', mvs) ∧ quiet tx tx'.
Proof.
  intros [Hr Hch]. set (r := c.(cr_rule)) in *.
  destruct (wp_elim _ _ (evaluateRule_wp rules (quiet tx) (quiet_bookkeeping tx) r lvl tx (quiet_safe rules tx r Hr)
    ltac:(done))) as ([tx1 mds] & HE & Hq1). cbn [fst] in Hq1.
  destruct (decide (r_ParentID r = noID)) as [Hp|Hp].
  2: { exists tx1, mds. by rewrite doEvaluate_member. }
  rewrite doEvaluate_eq, HE. cbn [mbind run_bind]. destruct mds as [|md mds].
  { exists tx1, []. split; [done|]. right. split; [done|]. split; [|done].
    exists [], r, (cr_chain c), tx, []. repeat split; [constructor|by rewrite Z.add_0_r]. }
  replace (r_ParentID r =? noID) with true by lia. cbn [negb].
  assert (chain_ok rules (quiet tx) (cr_chain c)) as Hok.
  { eapply Forall_impl; [exact Hch|]. intros r' [? ?]. split; [by apply quiet_safe|done]. }
  destruct (wp_elim _ _ (links_wp rules (quiet tx) (quiet_bookkeeping tx) (cr_chain c) Hok lvl tx1 (md :: mds) ltac:(done) Hq1))
    as ([tx2 res] & HL & Hq2 & _). pose proof (links_all rules (cr_chain c) Hch lvl tx1 (md :: mds)) as Hall.
  rewrite HL in Hall |- *. cbn [mbind run_bind wp fst snd] in *. destruct res as [all|].
  2: { exists tx2, []. split; [done|]. right. split; [done|]. split; [by eapply fails_at_cons|done]. }
  destruct Hall as (groups & Hall & ->).
  destruct (wp_elim _ _ (finishRule_ends rules r ((md :: mds) ++ concat groups) tx2 Hr ltac:(done)))
    as ([tx' mvs] & HF & Hs & tx3 & Ha & Htx'). cbn [fst snd] in *.
  pose proof (finishRule_recorded rules tx r ((md :: mds) ++ concat groups) tx2 Hr ltac:(done) (proj2 Hq2)) as Hrec.
  rewrite HF in Hrec |- *. exists tx', mvs. split; [done|]. left. exists tx2, tx3, ((md :: mds) :: groups).
  split; [by econstructor|]. by split_and!.
Qed.
End engine.

(** A match lowers HIGHEST_SEVERITY to the severity of the rule when that is
    more severe, and never raises it. *)
Theorem MatchRule_severity (r : Rule) (mds : list MatchData) (tx : Transaction) (v : Z) :
  single tx V.HighestSeverity = Itoa v → in_i64 v →
  single (MatchRule r mds tx) V.HighestSeverity =
    Itoa (if r.(r_meta).(Severity_) =? RuleSeverityUnset then v else Z.min v r.(r_meta).(Severity_)).
Proof.
  intros Hs Hv. unfold MatchRule. cbv zeta. change (single (setf tx_audit _ tx)) with (single tx).
  rewrite Hs, Atoi_Itoa by done. cbn [default]. destruct (_ =? RuleSeverityUnset) eqn:Eu; cbn [negb]; [done|].
  cbn [from_option id]. destruct (Z.ltb_spec (Severity_ (r_meta r)) v).
  - rewrite Z.min_r by lia. unfold single, withSingle. cbn [tx_variables setf].
    by rewrite singleOf_setSingle, decide_True.
  - by rewrite Z.min_l by lia.
Qed.

(** ** An example

    [SecRule REQUEST_URI "@streq evil" "id:1,phase:1,deny"] *)

Definition streqEvil : ruleOperatorParams :=
  mkOperator (λ tx data, Done (tx, data =s str "evil")) (str "@streq") (str "evil") false.

Definition denyRule : ChainedRule :=
  mkChained
    (NewRule <| r_meta ::= (λ m, m <| ID_ := 1 |> <| Phase_ := 1 |>) |>
             <| r_variables := [mkParams false V.RequestURI None [] []] |>
             <| r_operator := Some streqEvil |>
             <| r_actions := [mkAction (str "deny") ADeny] |>)
    [].

Definition evilTransaction : Transaction := withSingle V.RequestURI (str "evil") emptyTransaction.

Definition returned {A} (m : run A) (b : A → bool) : Prop :=
  match m with Done a => b a = true | _ => False end.

Lemma denyRule_sound : sound_chained denyRule.
Proof.
  split; [|apply Forall_nil_2]. split; try done.
  - intros op [= <-] tx data. exists id, id. by destruct tx.
  - by apply Forall_cons_2; [|apply Forall_nil_2].
Qed.

Lemma denyGroup_sound : Forall sound_chained [denyRule].
Proof. apply Forall_cons_2; [apply denyRule_sound|apply Forall_nil_2]. Qed.

Lemma Eval_frame_witness :
  ∃ tx', @Eval latin1 listOrder [denyRule] PhaseRequestHeaders evilTransaction = Done (tx', true) ∧
    tx'.(tx_lastPhase) = PhaseRequestHeaders ∧ tx'.(tx_stopWatches) = [PhaseRequestHeaders].
Proof.
  destruct (@Eval_frame latin1 listOrder [denyRule] PhaseRequestHeaders evilTransaction denyGroup_sound)
    as (tx' & HE & Hl & Hw & _).
  assert (returned (@Eval latin1 listOrder [denyRule] PhaseRequestHeaders evilTransaction) snd) as Hi
    by (vm_compute; reflexivity).
  exists tx'. split; [|split; assumption]. rewrite HE in Hi |- *. cbn [returned snd] in Hi. by rewrite Hi.
Defined.

Lemma Eval_detectionOnly_witness :
  ∃ tx', @Eval latin1 listOrder [denyRule] PhaseRequestHeaders
           (evilTransaction <| tx_RuleEngine := RuleEngineDetectionOnly |>) = Done (tx', false) ∧
    tx'.(tx_interruption) = None.
Proof.
  destruct (@Eval_detectionOnly latin1 listOrder [denyRule] PhaseRequestHeaders
    (evilTransaction <| tx_RuleEngine := RuleEngineDetectionOnly |>)) as (tx' & HE & Hi & _).
  - apply denyGroup_sound.
  - apply Forall_cons_2; [|apply Forall_nil_2]. by apply Forall_cons_2; [|apply Forall_nil_2].
  - done.
  - done.
  - exists tx'. by rewrite HE.
Defined.

Lemma Eval_interrupted_witness :
  let tx := evilTransaction <| tx_interruption := Some (mkInterruption 1 (str "deny") 403 []) |> in
  ∃ tx', @Eval latin1 listOrder [denyRule] PhaseRequestBody tx = Done (tx', true) ∧
    tx'.(tx_matchedRules) = [].
Proof.
  eexists. split.
  - apply (@Eval_interrupted latin1 listOrder [denyRule] PhaseRequestBody
      (evilTransaction <| tx_interruption := Some (mkInterruption 1 (str "deny") 403 []) |>)); by vm_compute.
  - by vm_compute.
Defined.

Lemma evalLoop_removed_witness :
  @evalLoop latin1 listOrder [] PhaseRequestHeaders [denyRule] (RemoveRuleByID 1 evilTransaction) =
    Done (RemoveRuleByID 1 evilTransaction).
Proof.
  rewrite (@evalLoop_removed latin1 listOrder [] PhaseRequestHeaders [denyRule]
    (RemoveRuleByID 1 evilTransaction) denyGroup_sound). reflexivity.
Defined.

Definition marker (label : bytes) : ChainedRule :=
  mkChained (NewRule <| r_meta ::= (λ m, m <| SecMark_ := label |> <| Phase_ := 0 |>) |>) [].

Lemma evalLoop_skipAfter_witness :
  let tx := evilTransaction <| tx_SkipAfter := str "END" |> in
  @evalLoop latin1 listOrder [] PhaseRequestHeaders ([denyRule] ++ [marker (str "END")]) tx =
    Done (tx <| tx_SkipAfter := [] |>).
Proof.
  destruct (@evalLoop_skipAfter latin1 listOrder [] PhaseRequestHeaders [denyRule]
    (evilTransaction <| tx_SkipAfter := str "END" |>)) as [_ H].
  - by left.
  - done.
  - apply Forall_cons_2; [|apply Forall_nil_2]. by intros [_ H].
  - apply (H (marker (str "END")) []). split; by vm_compute.
Defined.

Lemma evalLoop_skip_witness :
  let tx := evilTransaction <| tx_Skip := 1 |> in
  @evalLoop latin1 listOrder [] PhaseRequestHeaders ([denyRule] ++ []) tx = Done (tx <| tx_Skip := 0 |>).
Proof.
  cbv zeta. rewrite (@evalLoop_skip latin1 listOrder [] PhaseRequestHeaders [denyRule] []
    (evilTransaction <| tx_Skip := 1 |>)); [reflexivity|by left|done|by vm_compute].
Defined.

(** The rule with a chain of one member, which matches the same value. *)
Definition chainedRule : ChainedRule :=
  mkChained (denyRule.(cr_rule) <| r_HasChain := true |>)
    [denyRule.(cr_rule) <| r_meta ::= (λ m, m <| ID_ := 0 |> <| ParentID_ := 1 |>) |> <| r_actions := [] |>].

Lemma chainedRule_sound : sound_chained chainedRule.
Proof.
  destruct denyRule_sound as [[H1 H2 H3 H4 H5] _].
  split; [by split|]. apply Forall_cons_2; [|apply Forall_nil_2]. split; [|done]. by split.
Qed.

Lemma doEvaluate_chain_witness :
  ∃ tx' mvs, @doEvaluate latin1 listOrder [] chainedRule.(cr_chain) chainedRule.(cr_rule) 0 evilTransaction = Done (tx', mvs) ∧
    length mvs = 2%nat ∧ recorded evilTransaction chainedRule.(cr_rule) (tx', mvs) ∧
    ∃ tx1 groups, @matches_all latin1 listOrder [] (chainedRule.(cr_rule) :: chainedRule.(cr_chain)) 0 evilTransaction tx1 groups ∧
      same_matches (concat groups) mvs.
Proof.
  destruct (@doEvaluate_chain latin1 listOrder [] chainedRule 0 evilTransaction chainedRule_sound) as (tx' & mvs & HE & HQ).
  rewrite decide_True in HQ by reflexivity. exists tx', mvs. split; [exact HE|].
  assert (returned (@doEvaluate latin1 listOrder [] chainedRule.(cr_chain) chainedRule.(cr_rule) 0 evilTransaction)
            (λ st, (length st.2 =? 2)%nat)) as Hm by (vm_compute; reflexivity).
  rewrite HE in Hm. cbn [returned snd] in Hm. apply Nat.eqb_eq in Hm. split; [exact Hm|].
  destruct HQ as [(tx1 & tx2 & groups & H1 & _ & H2 & _ & _ & H3)|[H _]]; [|rewrite H in Hm; discriminate Hm].
  split; [exact H3|]. exists tx1, groups. split; [exact H1|exact H2].
Defined.

Definition criticalRule : Rule := denyRule.(cr_rule) <| r_meta ::= (λ m, m <| Severity_ := 2 |>) |>.

Lemma MatchRule_severity_witness :
  single (MatchRule criticalRule [] (withSingle V.HighestSeverity (str "5") emptyTransaction))
    V.HighestSeverity = str "2".
Proof.
  rewrite (MatchRule_severity criticalRule []
    (withSingle V.HighestSeverity (str "5") emptyTransaction) 5); by vm_compute.
Defined.
