(* ===== verification/Phases.v ===== *)
(** The processing of a transaction: src/internal/corazawaf/transaction.go from
    [ExtractGetArguments] to [ProcessLogging], the functions that a connector
    calls for a request and its response.

    The WAF is a record of the settings these functions read.  Arguments of the
    model are [url.ParseRequestURI], the registry of body processors, whether
    the build has access to the file system and what the file system does with
    each write.  The writing of the audit log is only told apart from not
    writing it. *)

From S2P Require Import Prelude GoLib StringUtil UrlTransform Variables Types Collections.
From S2P Require Import BodyBuffer TransactionState BodyProcessors Macro Rule Actions RuleGroup.

Record WAF := mkWAF {
  w_Rules : RuleGroup;
  w_RuleEngine : RuleEngineStatus;
  w_ArgumentLimit : Z;
  w_RequestBodyAccess : bool;
  w_RequestBodyLimit : Z;
  w_RequestBodyLimitAction : BodyLimitAction;
  w_requestBodyInMemoryLimit : option Z;
  w_ResponseBodyAccess : bool;
  w_ResponseBodyLimit : Z;
  w_ResponseBodyLimitAction : BodyLimitAction;
  w_ResponseBodyMimeTypes : list bytes;
  w_AuditEngine : AuditEngineStatus;
  w_AuditLogParts : AuditLogParts;
  w_AuditLogFormat : bytes;
  w_AuditLogRelevantStatus : option regex;
  w_RequestBodyJsonDepthLimit : Z;
  w_UploadKeepFiles : UploadKeepFilesStatus;
  w_UploadDir : bytes;
  w_TmpDir : bytes;
  w_debugLevel : Z;
}.

(** A parsed URL: its path, raw query and text. *)
Record URL := mkURL { u_Path : bytes; u_RawQuery : bytes; u_String : bytes }.

(** An [io.Reader]: the bytes it delivers, how many at most (one more than the
    number given) at the n-th read, the error other than EOF after them, and
    its length when it is a [ByteLenger]. *)
Record ioReader := mkIOReader {
  io_data : bytes;
  io_chunk : nat → nat;
  io_err : option bytes;
  io_len : option Z;
}.

Inductive txError :=
| ErrOverflow | ErrBuffer (e : bbError) | ErrReader (e : bytes) | ErrBodyProcessor.

(** The size of the buffer of [io.Copy]. *)
Definition copySize : nat := Z.to_nat 32768.

(** The results of the functions that fill a buffer: interruption, number of
    bytes, error. *)
Definition writeResult : Type := option Interruption * Z * option txError.

Section transaction.
Context `{U : !Unicode, O : !MapOrder}.
Context (HasAccessToFS : bool).
Context (ParseRequestURI : bytes → bytes + URL).
Context (registry : gmap bytes BodyProcessor).
Context (waf : WAF).

(** ** Arguments and URI *)

Definition checkArgumentLimit (c : Map) : bool := Len c >=? waf.(w_ArgumentLimit).

Definition AddGetRequestArgument (key value : bytes) (tx : Transaction) : Transaction :=
  if checkArgumentLimit (tmap tx V.ArgsGet) then tx else withMap V.ArgsGet (λ c, Add c key value) tx.

Definition AddPostRequestArgument (key value : bytes) (tx : Transaction) : Transaction :=
  if checkArgumentLimit (tmap tx V.ArgsPost) then tx else withMap V.ArgsPost (λ c, Add c key value) tx.

Definition AddPathRequestArgument (key value : bytes) (tx : Transaction) : Transaction :=
  if checkArgumentLimit (tmap tx V.ArgsPath) then tx else withMap V.ArgsPath (λ c, Add c key value) tx.

Definition AddResponseArgument (key value : bytes) (tx : Transaction) : Transaction :=
  if Len (tmap tx V.ResponseArgs) >=? waf.(w_ArgumentLimit) then tx
  else withMap V.ResponseArgs (λ c, Add c key value) tx.

Definition ExtractGetArguments (uri : bytes) (tx : Transaction) : run Transaction :=
  data ← ParseQuery uri 0x26;
  Done (foldl (λ tx kvs, foldl (λ tx v, AddGetRequestArgument kvs.1 v tx) tx kvs.2) tx (range data)).

Definition ProcessURI (uri method httpVersion : bytes) (tx : Transaction) : run Transaction :=
  let tx := withSingle V.RequestMethod method tx in
  let tx := withSingle V.RequestProtocol httpVersion tx in
  let tx := withSingle V.RequestURIRaw uri tx in
  let tx := withSingle V.RequestLine (method ++ str " " ++ uri ++ str " " ++ httpVersion) tx in
  let uri := match IndexByte uri 0x23 with Some i => take i uri | None => uri end in
  '(tx, path, query) ←
    match ParseRequestURI uri with
    | inl err =>
        Done (withSingle V.RequestURI uri (withSingle V.UrlencodedError err tx), uri, [])
    | inr u =>
        tx ← ExtractGetArguments u.(u_RawQuery) tx;
        Done (withSingle V.RequestURI u.(u_String) tx, u.(u_Path), u.(u_RawQuery))
    end;
  let basename :=
    match LastIndexAny path [0x2f; 0x5c] with
    | Some offset => if (offset + 1 <? length path)%nat then drop (offset + 1) path else path
    | None => path
    end in
  let tx := withSingle V.RequestBasename basename tx in
  let tx := withSingle V.RequestFilename path tx in
  Done (withSingle V.QueryString query tx).

(** ** Request *)

(** [tx.WAF.Rules.Eval(phase, tx)]; the callers ignore the result. *)
Definition evalPhase (phase : Z) (tx : Transaction) : run Transaction :=
  '(tx, _) ← Eval waf.(w_Rules) phase tx; Done tx.

Definition ProcessRequestHeaders (tx : Transaction) : run (Transaction * option Interruption) :=
  if IsRuleEngineOff tx then Done (tx, None)
  else if tx.(tx_lastPhase) >=? PhaseRequestHeaders then Done (tx, tx.(tx_interruption))
  else if IsInterrupted tx then Done (tx, tx.(tx_interruption))
  else tx ← evalPhase PhaseRequestHeaders tx; Done (tx, tx.(tx_interruption)).

(** Reading a body to its end, as [io.Copy] does. *)
Definition readBody (br : BodyBuffer) (id : nat) : run (BodyBuffer * bytes) :=
  readAll HasAccessToFS (S (length (contents br))) br id copySize.

(** The error of [Reader] is always nil, and with it that of this function. *)
Definition ProcessRequestBody (tx : Transaction) : run (Transaction * option Interruption) :=
  if IsRuleEngineOff tx then Done (tx, None)
  else if IsInterrupted tx then Done (tx, tx.(tx_interruption))
  else if negb (tx.(tx_lastPhase) =? PhaseRequestHeaders) then Done (tx, None)
  else
    tx ←
      (if negb tx.(tx_RequestBodyAccess) || (tx.(tx_requestBodyBuffer).(bb_length) =? 0) then Done tx
       else
         let mimeType := default [] (head (Get (tmap tx V.RequestHeaders) (str "content-type"))) in
         let '(br, reader) := Reader tx.(tx_requestBodyBuffer) in
         let tx := tx <| tx_requestBodyBuffer := br |> in
         let rbp := single tx V.ReqbodyProcessor in
         let '(rbp, tx) :=
           if tx.(tx_ForceRequestBodyVariable) then
             let rbp := if rbp =s [] then str "URLENCODED" else rbp in
             (rbp, withSingle V.ReqbodyProcessor rbp tx)
           else (rbp, tx) in
         let rbp := ToLower rbp in
         if rbp =s [] then Done tx else
         match GetBodyProcessor registry rbp with
         | None => Done (generateRequestBodyError (str "invalid body processor") tx)
         | Some bp =>
             '(br, body) ← readBody br reader;
             '(v, err) ← bp.(ProcessRequest) mimeType body tx.(tx_variables);
             let tx := tx <| tx_requestBodyBuffer := br |> <| tx_variables := v |> in
             Done (match err with Some e => generateRequestBodyError e tx | None => tx end)
         end);
    tx ← evalPhase PhaseRequestBody tx;
    Done (tx, tx.(tx_interruption)).

Definition setAndReturnBodyLimitInterruption (status : Z) (tx : Transaction) : Transaction * writeResult :=
  let it := mkInterruption 0 (str "deny") status [] in
  (tx <| tx_interruption := Some it |>, (Some it, 0, None)).

Definition WriteRequestBody (fs : fsResult) (b : bytes) (tx : Transaction) : run (Transaction * writeResult) :=
  if IsRuleEngineOff tx then Done (tx, (None, 0, None))
  else if negb tx.(tx_RequestBodyAccess) then Done (tx, (None, 0, None))
  else
    let buf := tx.(tx_requestBodyBuffer) in
    let length_ := buf.(bb_length) in
    if tx.(tx_RequestBodyLimit) =? length_ then
      Done (tx, (match waf.(w_RequestBodyLimitAction) with
                 | BodyLimitActionReject => tx.(tx_interruption)
                 | BodyLimitActionProcessPartial => None
                 end, 0, None))
    else
      let writingBytes := Z.of_nat (length b) in
      if length_ >=? maxInt64 - writingBytes then Done (tx, (None, 0, Some ErrOverflow)) else
      let over := i64 (length_ + writingBytes) >=? tx.(tx_RequestBodyLimit) in
      let tx := if over then withSingle V.InboundDataError (str "1") tx else tx in
      match over, waf.(w_RequestBodyLimitAction) with
      | true, BodyLimitActionReject => Done (setAndReturnBodyLimitInterruption 413 tx)
      | _, _ =>
          let writingBytes := if over then i64 (tx.(tx_RequestBodyLimit) - length_) else writingBytes in
          if writingBytes <? 0 then Panic else
          chunk ← slice b 0 (Z.to_nat writingBytes);
          let '(buf, w, err) := Write HasAccessToFS fs buf chunk in
          let tx := tx <| tx_requestBodyBuffer := buf |> in
          match err with
          | Some e => Done (tx, (None, 0, Some (ErrBuffer e)))
          | None =>
              if over then '(tx, _) ← ProcessRequestBody tx; Done (tx, (tx.(tx_interruption), w, None))
              else Done (tx, (tx.(tx_interruption), w, None))
          end
      end.

(** [io.CopyN] from a reader into a buffer: the error other than EOF.  Every
    read delivers at least one byte, so that one step more than there are bytes
    is enough fuel. *)
Fixpoint copyLoop (fuel i : nat) (fs : nat → fsResult) (r : ioReader) (br : BodyBuffer) (rest : bytes)
    (n written : Z) : run (BodyBuffer * Z * option txError) :=
  match fuel with
  | 0%nat => OutOfFuel
  | S fuel =>
      if n <=? 0 then Done (br, written, None)
      else if rest =s [] then Done (br, written, ErrReader <$> r.(io_err))
      else
        let k := (S (r.(io_chunk) i) `min` (copySize `min` Z.to_nat n))%nat in
        let '(br, w, err) := Write HasAccessToFS (fs i) br (take k rest) in
        match err with
        | Some e => Done (br, written + w, Some (ErrBuffer e))
        | None => copyLoop fuel (S i) fs r br (drop k rest) (n - Z.of_nat k) (written + w)
        end
  end.

Definition CopyN (fs : nat → fsResult) (r : ioReader) (br : BodyBuffer) (n : Z)
    : run (BodyBuffer * Z * option txError) :=
  copyLoop (S (length r.(io_data))) 0 fs r br r.(io_data) n 0.

(** After the copy of [ReadRequestBodyFrom]; [partial] is [runProcessRequestBody]. *)
Definition finishRequestBody (partial : bool) (w : Z) (tx : Transaction) : run (Transaction * writeResult) :=
  let full := tx.(tx_requestBodyBuffer).(bb_length) =? tx.(tx_RequestBodyLimit) in
  let tx := if full then withSingle V.InboundDataError (str "1") tx else tx in
  match full, waf.(w_RequestBodyLimitAction) with
  | true, BodyLimitActionReject => Done (setAndReturnBodyLimitInterruption 413 tx)
  | _, _ =>
      if full || partial then '(tx, _) ← ProcessRequestBody tx; Done (tx, (tx.(tx_interruption), w, None))
      else Done (tx, (tx.(tx_interruption), w, None))
  end.

Definition ReadRequestBodyFrom (fs : nat → fsResult) (r : ioReader) (tx : Transaction)
    : run (Transaction * writeResult) :=
  if IsRuleEngineOff tx then Done (tx, (None, 0, None))
  else if negb tx.(tx_RequestBodyAccess) then Done (tx, (None, 0, None))
  else
    let buf := tx.(tx_requestBodyBuffer) in
    let length_ := buf.(bb_length) in
    let limit := tx.(tx_RequestBodyLimit) in
    let copy (n : Z) (partial : bool) (tx : Transaction) :=
      '(buf, w, err) ← CopyN fs r buf n;
      let tx := tx <| tx_requestBodyBuffer := buf |> in
      match err with
      | Some e => Done (tx, (None, w, Some e))
      | None => finishRequestBody partial w tx
      end in
    if limit =? length_ then
      Done (tx, (match waf.(w_RequestBodyLimitAction) with
                 | BodyLimitActionReject => tx.(tx_interruption)
                 | BodyLimitActionProcessPartial => None
                 end, 0, None))
    else
      match r.(io_len) with
      | Some writingBytes =>
          if length_ >=? maxInt64 - writingBytes then Done (tx, (None, 0, Some ErrOverflow)) else
          if i64 (length_ + writingBytes) >=? limit then
            let tx := withSingle V.InboundDataError (str "1") tx in
            match waf.(w_RequestBodyLimitAction) with
            | BodyLimitActionReject => Done (setAndReturnBodyLimitInterruption 413 tx)
            | BodyLimitActionProcessPartial => copy (i64 (limit - length_)) true tx
            end
          else copy writingBytes false tx
      | None => copy (i64 (limit - length_)) false tx
      end.

(** ** Response *)

Definition ProcessResponseHeaders (code : Z) (proto : bytes) (tx : Transaction)
    : run (Transaction * option Interruption) :=
  if IsRuleEngineOff tx then Done (tx, None)
  else if tx.(tx_lastPhase) >=? PhaseResponseHeaders then Done (tx, tx.(tx_interruption))
  else if IsInterrupted tx then Done (tx, tx.(tx_interruption))
  else
    let tx := withSingle V.ResponseStatus (Itoa code) tx in
    let tx := withSingle V.ResponseProtocol proto tx in
    tx ← evalPhase PhaseResponseHeaders tx;
    Done (tx, tx.(tx_interruption)).

Definition IsResponseBodyProcessable (tx : Transaction) : bool :=
  tx.(tx_ForceResponseBodyVariable) || InSlice (single tx V.ResponseContentType) waf.(w_ResponseBodyMimeTypes).

Definition ProcessResponseBody (tx : Transaction)
    : run (Transaction * option Interruption * option txError) :=
  if IsRuleEngineOff tx then Done (tx, None, None)
  else if IsInterrupted tx then Done (tx, tx.(tx_interruption), None)
  else if negb (tx.(tx_lastPhase) =? PhaseResponseHeaders) then Done (tx, None, None)
  else
    '(tx, err) ←
      (if negb tx.(tx_ResponseBodyAccess) || negb (IsResponseBodyProcessable tx) then Done (tx, None)
       else
         let '(br, reader) := Reader tx.(tx_responseBodyBuffer) in
         let tx := tx <| tx_responseBodyBuffer := br |> in
         let bp := single tx V.ResBodyProcessor in
         if negb (bp =s []) then
           match GetBodyProcessor registry bp with
           | None => Done (generateResponseBodyError (str "invalid body processor") tx, Some ErrBodyProcessor)
           | Some b =>
               '(br, body) ← readBody br reader;
               '(v, err) ← b.(ProcessResponse) body tx.(tx_variables);
               let tx := tx <| tx_responseBodyBuffer := br |> <| tx_variables := v |> in
               Done (match err with Some e => generateResponseBodyError e tx | None => tx end, None)
           end
         else
           '(br, body) ← readBody br reader;
           let tx := tx <| tx_responseBodyBuffer := br |> in
           let tx := withSingle V.ResponseContentLength (Itoa (Z.of_nat (length body))) tx in
           Done (withSingle V.ResponseBody body tx, None));
    tx ← evalPhase PhaseResponseBody tx;
    Done (tx, tx.(tx_interruption), err).

Definition WriteResponseBody (fs : fsResult) (b : bytes) (tx : Transaction) : run (Transaction * writeResult) :=
  if IsRuleEngineOff tx then Done (tx, (None, 0, None))
  else if negb tx.(tx_ResponseBodyAccess) then Done (tx, (None, 0, None))
  else
    let buf := tx.(tx_responseBodyBuffer) in
    let length_ := buf.(bb_length) in
    if tx.(tx_ResponseBodyLimit) =? length_ then
      Done (tx, (match waf.(w_ResponseBodyLimitAction) with
                 | BodyLimitActionReject => tx.(tx_interruption)
                 | BodyLimitActionProcessPartial => None
                 end, 0, None))
    else
      let writingBytes := Z.of_nat (length b) in
      let over := i64 (length_ + writingBytes) >=? tx.(tx_ResponseBodyLimit) in
      let tx := if over then withSingle V.OutboundDataError (str "1") tx else tx in
      match over, waf.(w_ResponseBodyLimitAction) with
      | true, BodyLimitActionReject => Done (setAndReturnBodyLimitInterruption 500 tx)
      | _, _ =>
          let writingBytes := if over then i64 (tx.(tx_ResponseBodyLimit) - length_) else writingBytes in
          if writingBytes <? 0 then Panic else
          chunk ← slice b 0 (Z.to_nat writingBytes);
          let '(buf, w, err) := Write HasAccessToFS fs buf chunk in
          let tx := tx <| tx_responseBodyBuffer := buf |> in
          match err with
          | Some e => Done (tx, (None, 0, Some (ErrBuffer e)))
          | None =>
              if over then '(tx, _, err) ← ProcessResponseBody tx; Done (tx, (tx.(tx_interruption), w, err))
              else Done (tx, (tx.(tx_interruption), w, None))
          end
      end.

Definition finishResponseBody (partial : bool) (w : Z) (tx : Transaction) : run (Transaction * writeResult) :=
  let full := tx.(tx_responseBodyBuffer).(bb_length) =? tx.(tx_ResponseBodyLimit) in
  let tx := if full then withSingle V.OutboundDataError (str "1") tx else tx in
  match full, waf.(w_ResponseBodyLimitAction) with
  | true, BodyLimitActionReject => Done (setAndReturnBodyLimitInterruption 500 tx)
  | _, _ =>
      if full || partial
      then '(tx, _, err) ← ProcessResponseBody tx; Done (tx, (tx.(tx_interruption), w, err))
      else Done (tx, (tx.(tx_interruption), w, None))
  end.

Definition ReadResponseBodyFrom (fs : nat → fsResult) (r : ioReader) (tx : Transaction)
    : run (Transaction * writeResult) :=
  if IsRuleEngineOff tx then Done (tx, (None, 0, None))
  else if negb tx.(tx_ResponseBodyAccess) then Done (tx, (None, 0, None))
  else
    let buf := tx.(tx_responseBodyBuffer) in
    let length_ := buf.(bb_length) in
    let limit := tx.(tx_ResponseBodyLimit) in
    let copy (n : Z) (partial : bool) (tx : Transaction) :=
      '(buf, w, err) ← CopyN fs r buf n;
      let tx := tx <| tx_responseBodyBuffer := buf |> in
      match err with
      | Some e => Done (tx, (None, w, Some e))
      | None => finishResponseBody partial w tx
      end in
    if limit =? length_ then
      Done (tx, (match waf.(w_ResponseBodyLimitAction) with
                 | BodyLimitActionReject => tx.(tx_interruption)
                 | BodyLimitActionProcessPartial => None
                 end, 0, None))
    else
      match r.(io_len) with
      | Some writingBytes =>
          if i64 (length_ + writingBytes) >=? limit then
            let tx := withSingle V.OutboundDataError (str "1") tx in
            match waf.(w_ResponseBodyLimitAction) with
            | BodyLimitActionReject => Done (setAndReturnBodyLimitInterruption 500 tx)
            | BodyLimitActionProcessPartial => copy (i64 (limit - length_)) true tx
            end
          else copy writingBytes false tx
      | None => copy (i64 (limit - length_)) false tx
      end.

(** ** Logging *)

(** Whether the transaction is written to the audit log. *)
Definition audited (tx : Transaction) : bool :=
  match tx.(tx_AuditEngine) with
  | AuditEngineOff => false
  | AuditEngineOn => true
  | AuditEngineRelevantOnly =>
      let status :=
        match tx.(tx_interruption), tx.(tx_detectionOnlyInterruption) with
        | Some it, _ => Itoa it.(it_Status)
        | None, Some it => Itoa it.(it_Status)
        | None, None => single tx V.ResponseStatus
        end in
      if tx.(tx_audit) then
        match waf.(w_AuditLogRelevantStatus) with Some re => re status | None => true end
      else
        match waf.(w_AuditLogRelevantStatus) with Some re => re status | None => false end
  end.

(** The new state and whether the audit log is written. *)
Definition ProcessLogging (tx : Transaction) : run (Transaction * bool) :=
  tx ← (if negb (IsRuleEngineOff tx) then evalPhase PhaseLogging tx else Done tx);
  Done (tx, audited tx).
End transaction.
