(* ===== verification/Lifecycle.v ===== *)
(** The life of a transaction as a state machine: the calls of a connector, the
    abstract machine that says which phases may be evaluated when, and the
    simulation of the first by the second
    (src/internal/corazawaf/transaction.go, src/types/transaction.go). *)

From Stdlib Require Import Sorted.
From S2P Require Import Prelude GoLib StringUtil UrlTransform Variables Types Collections.
From S2P Require Import BodyBuffer TransactionState BodyProcessors JsonProcessor MultipartProcessor Macro Rule Actions RuleGroup.
From S2P Require Import Engine Phases.

(** ** The abstract machine

    Its state is the last phase evaluated and all the phases evaluated. *)

Inductive phase_step : Z * list Z → Z * list Z → Prop :=
| step_request_headers p l :
    p < PhaseRequestHeaders → phase_step (p, l) (PhaseRequestHeaders, l ++ [PhaseRequestHeaders])
| step_request_body l :
    phase_step (PhaseRequestHeaders, l) (PhaseRequestBody, l ++ [PhaseRequestBody])
| step_response_headers p l :
    p < PhaseResponseHeaders → phase_step (p, l) (PhaseResponseHeaders, l ++ [PhaseResponseHeaders])
| step_response_body l :
    phase_step (PhaseResponseHeaders, l) (PhaseResponseBody, l ++ [PhaseResponseBody])
| step_logging p l :
    phase_step (p, l) (PhaseLogging, l ++ [PhaseLogging]).

(** Phases 1 to 4 at most once each and in order, then the logging phase any
    number of times. *)
Definition in_order (st : Z * list Z) : Prop :=
  ∃ l n, st.2 = l ++ replicate n PhaseLogging ∧
    StronglySorted Z.lt l ∧ Forall (λ p, PhaseRequestHeaders <= p <= PhaseResponseBody) l ∧
    (n = 0%nat → Forall (λ p, p <= st.1) l) ∧ (n ≠ 0%nat → st.1 = PhaseLogging).

Lemma StronglySorted_snoc l p :
  StronglySorted Z.lt l → Forall (λ q, q < p) l → StronglySorted Z.lt (l ++ [p]).
Proof.
  intros Hs. induction Hs as [|q l Hs IH Hq]; intros Hp; cbn [app].
  - constructor; constructor.
  - inversion Hp; subst. constructor; [by apply IH|]. apply Forall_app. split; [done|]. by constructor.
Qed.

(** Evaluating phase [p] after smaller phases only. *)
Lemma in_order_snoc q l p :
  in_order (q, l) → PhaseRequestHeaders <= p <= PhaseResponseBody → q < p → in_order (p, l ++ [p]).
Proof.
  intros (l0 & n & Hl & Hs & Hr & Hle & Hlog) Hp Hq. cbn [fst snd] in *.
  destruct n as [|n]; [|rewrite Hlog in Hq by done; unfold PhaseLogging, PhaseResponseBody in *; lia].
  exists (l0 ++ [p]), 0%nat. cbn [fst snd]. rewrite Hl. cbn [replicate]. rewrite !app_nil_r.
  specialize (Hle eq_refl). split; [done|]. split.
  { apply StronglySorted_snoc; [done|]. eapply Forall_impl; [done|]. cbn. lia. }
  split; [apply Forall_app; split; [done|by constructor]|]. split; [|done]. intros _.
  apply Forall_app. split; [|by repeat constructor]. eapply Forall_impl; [done|]. cbn. lia.
Qed.

Lemma phase_step_in_order st st' : phase_step st st' → in_order st → in_order st'.
Proof.
  intros [p l Hp|l|p l Hp|l|p l] Hin.
  - by eapply in_order_snoc.
  - by eapply in_order_snoc.
  - by eapply in_order_snoc.
  - by eapply in_order_snoc.
  - destruct Hin as (l0 & n & Hl & Hs & Hr & Hle & Hlog). cbn [fst snd] in *.
    exists l0, (S n). cbn [fst snd]. rewrite Hl, replicate_S_end, <- app_assoc. by repeat split.
Qed.

Lemma in_order_start : in_order (0, []).
Proof. exists [], 0%nat. repeat split; try done; constructor. Qed.

Lemma phase_steps_in_order st : rtc phase_step (0, []) st → in_order st.
Proof.
  intros Hst. eapply (rtc_ind_r (λ st, in_order st)); [apply in_order_start| |done].
  intros st1 st2 _ Hstep. by apply phase_step_in_order.
Qed.

(** ** Calls *)

(** A call that fills a buffer comes with what the file system does meanwhile. *)
Inductive call :=
| CConnection (client : bytes) (cPort : Z) (server : bytes) (sPort : Z)
| CURI (uri method httpVersion : bytes)
| CServerName (name : bytes)
| CRequestHeader (key value : bytes)
| CGetArgument (key value : bytes)
| CPostArgument (key value : bytes)
| CPathArgument (key value : bytes)
| CResponseArgument (key value : bytes)
| CRequestHeaders
| CWriteRequestBody (io : fsResult) (b : bytes)
| CReadRequestBody (io : nat → fsResult) (r : ioReader)
| CRequestBody
| CResponseHeader (key value : bytes)
| CResponseHeaders (code : Z) (proto : bytes)
| CWriteResponseBody (io : fsResult) (b : bytes)
| CReadResponseBody (io : nat → fsResult) (r : ioReader)
| CResponseBody
| CLogging.

(** The state after a call. *)
Definition exec `{U : !Unicode, O : !MapOrder} (ParseRequestURI : bytes → bytes + URL)
    (registry : gmap bytes BodyProcessor) (waf : WAF) (c : call) (tx : Transaction) : run Transaction :=
  let fst_ {A} (m : run (Transaction * A)) := '(tx, _) ← m; Done tx in
  match c with
  | CConnection client cPort server sPort => Done (ProcessConnection client cPort server sPort tx)
  | CURI uri method httpVersion => ProcessURI ParseRequestURI waf uri method httpVersion tx
  | CServerName name => Done (SetServerName name tx)
  | CRequestHeader key value => AddRequestHeader key value tx
  | CGetArgument key value => Done (AddGetRequestArgument waf key value tx)
  | CPostArgument key value => Done (AddPostRequestArgument waf key value tx)
  | CPathArgument key value => Done (AddPathRequestArgument waf key value tx)
  | CResponseArgument key value => Done (AddResponseArgument waf key value tx)
  | CRequestHeaders => fst_ (ProcessRequestHeaders waf tx)
  | CWriteRequestBody io b => fst_ (WriteRequestBody true registry waf io b tx)
  | CReadRequestBody io r => fst_ (ReadRequestBodyFrom true registry waf io r tx)
  | CRequestBody => fst_ (ProcessRequestBody true registry waf tx)
  | CResponseHeader key value => Done (AddResponseHeader key value tx)
  | CResponseHeaders code proto => fst_ (ProcessResponseHeaders waf code proto tx)
  | CWriteResponseBody io b => fst_ (WriteResponseBody true registry waf io b tx)
  | CReadResponseBody io r => fst_ (ReadResponseBodyFrom true registry waf io r tx)
  | CResponseBody => '(tx, _, _) ← ProcessResponseBody true registry waf tx; Done tx
  | CLogging => fst_ (ProcessLogging waf tx)
  end.

(** ** The simulation *)

Definition view (tx : Transaction) : Z * list Z := (tx.(tx_lastPhase), tx.(tx_stopWatches)).

(** Buffers that keep an invariant and respect the limits of the transaction. *)
Record holds (B : BodyBuffer → Prop) (tx : Transaction) : Prop := {
  good_request : B tx.(tx_requestBodyBuffer);
  good_response : B tx.(tx_responseBodyBuffer);
  good_request_limit : tx.(tx_requestBodyBuffer).(options).(Limit) = tx.(tx_RequestBodyLimit);
  good_response_limit : tx.(tx_responseBodyBuffer).(options).(Limit) = tx.(tx_ResponseBodyLimit);
}.

#[global] Arguments good_request {B} tx _.
#[global] Arguments good_response {B} tx _.
#[global] Arguments good_request_limit {B} tx _.
#[global] Arguments good_response_limit {B} tx _.

(** With buffers that were never written with an error. *)
Abbreviation good := (holds wf_buffer) (only parsing).

Lemma good_sane tx : good tx → holds sane_buffer tx.
Proof. intros [????]. split; [by apply wf_sane..|done|done]. Qed.

(** [tx'] follows [tx]: phases as the abstract machine allows, and only logging
    once the transaction is interrupted. *)
Record follows (B : BodyBuffer → Prop) (tx tx' : Transaction) : Prop := {
  fo_good : holds B tx';
  fo_steps : rtc phase_step (view tx) (view tx');
  fo_interrupted : IsInterrupted tx = true →
    IsInterrupted tx' = true ∧
    ∃ k, tx'.(tx_stopWatches) = tx.(tx_stopWatches) ++ replicate k PhaseLogging;
}.

#[global] Arguments fo_good {B} tx tx' _.
#[global] Arguments fo_steps {B} tx tx' _.
#[global] Arguments fo_interrupted {B} tx tx' _.

Section following.
Context {B : BodyBuffer → Prop}.

Lemma follows_refl tx : holds B tx → follows B tx tx.
Proof. intros Hg. split; [done|done|]. intros Hi. split; [done|]. exists 0%nat. by rewrite app_nil_r. Qed.

Lemma follows_trans tx1 tx2 tx3 : follows B tx1 tx2 → follows B tx2 tx3 → follows B tx1 tx3.
Proof.
  intros [G1 S1 I1] [G2 S2 I2]. split; [done|by etrans|]. intros Hi.
  destruct (I1 Hi) as [Hi2 [k1 E1]]. destruct (I2 Hi2) as [Hi3 [k2 E2]]. split; [done|].
  exists (k1 + k2)%nat. by rewrite E2, E1, replicate_add, app_assoc.
Qed.

(** A change of other parts of the state. *)
Lemma follows_still tx tx' :
  holds B tx' → view tx' = view tx → (IsInterrupted tx = true → IsInterrupted tx' = true) → follows B tx tx'.
Proof.
  intros Hg Hv Hi. split; [done|by rewrite Hv|]. intros H. split; [by apply Hi|]. exists 0%nat.
  rewrite app_nil_r. by injection Hv as _ ->.
Qed.

Lemma follows_variables tx f : holds B tx → follows B tx (tx <| tx_variables ::= f |>).
Proof. intros [????]. by apply follows_still. Qed.

Lemma follows_withMap tx v f : holds B tx → follows B tx (withMap v f tx).
Proof. apply follows_variables. Qed.

Lemma follows_withSingle tx v s : holds B tx → follows B tx (withSingle v s tx).
Proof. apply follows_variables. Qed.

#[local] Hint Resolve follows_refl follows_withMap follows_withSingle fo_good : lifecycle.

(** One more update after [tx'] followed [tx]. *)
Lemma follows_variables' tx tx' f : follows B tx tx' → follows B tx (tx' <| tx_variables ::= f |>).
Proof. intros H. eapply follows_trans; [done|]. by apply follows_variables, H. Qed.

(** Only variables change. *)
Definition rewrites (tx tx' : Transaction) : Prop := ∃ tv, tx' = tx <| tx_variables := tv |>.

Lemma rewrites_refl tx : rewrites tx tx.
Proof. exists tx.(tx_variables). by destruct tx. Qed.

Lemma rewrites_trans tx1 tx2 tx3 : rewrites tx1 tx2 → rewrites tx2 tx3 → rewrites tx1 tx3.
Proof. intros [tv1 ->] [tv2 ->]. by exists tv2. Qed.

Lemma rewrites_variables tx tx' f : rewrites tx tx' → rewrites tx (tx' <| tx_variables ::= f |>).
Proof. intros [tv ->]. by eexists. Qed.

Lemma rewrites_follows tx tx' : holds B tx → rewrites tx tx' → follows B tx tx'.
Proof. intros Hg [tv ->]. by apply (follows_variables tx (λ _, tv)). Qed.

Lemma foldl_rewrites {A} (f : Transaction → A → Transaction) l :
  (∀ tx x, rewrites tx (f tx x)) → ∀ tx, rewrites tx (foldl f tx l).
Proof.
  intros Hf. induction l as [|x l IH]; intros tx; cbn [foldl]; [by apply rewrites_refl|].
  eapply rewrites_trans; [by apply Hf|]. apply IH.
Qed.

(** What the two buffers hold. *)
Definition bodies (tx : Transaction) : bytes * bytes :=
  (contents tx.(tx_requestBodyBuffer), contents tx.(tx_responseBodyBuffer)).

(** Follows, with the same bodies. *)
Definition evolves (B : BodyBuffer → Prop) (tx tx' : Transaction) : Prop := follows B tx tx' ∧ bodies tx' = bodies tx.

Lemma evolves_refl tx : holds B tx → evolves B tx tx.
Proof. intros Hg. split; [by apply follows_refl|done]. Qed.
End following.

Section simulation.
Context `{U : !Unicode, O : !MapOrder}.
Context {B : BodyBuffer → Prop} {allowed : fsResult → Prop} `{BI : !BufferInvariant B allowed}.
Context (registry : gmap bytes BodyProcessor).
Context (waf : WAF).

(** The rules are sound and do not change the limits of the bodies. *)
Context (Hsound : Forall sound_chained waf.(w_Rules)).
Context (Hlimits : Forall (λ c, Forall (λ a, setsLimit a = false) (allActions c)) waf.(w_Rules)).
(** The registered processors return. *)
Context (Hreg : map_Forall (λ _ bp,
  (∀ mime b v, wp (bp.(ProcessRequest) mime b v) (λ _, True)) ∧
  (∀ b v, wp (bp.(ProcessResponse) b v) (λ _, True))) registry).

(** What a phase leaves of [tx0]. *)
Definition phased (tx0 tx : Transaction) : Prop :=
  framed tx0 tx ∧ limits tx = limits tx0 ∧
  (is_Some tx0.(tx_interruption) → is_Some tx.(tx_interruption)).

Lemma phased_kept tx0 a : setsLimit a = false → kept_by (phased tx0) a.
Proof.
  intros Ha tx tx' (Hf & Hl & Hi) Heff. split; [by eapply framed_kept|]. split.
  - by rewrite (eff_limits _ _ _ Heff Ha).
  - intros H. by apply (eff_sticky _ _ _ Heff), Hi.
Qed.

Lemma evalPhase_follows p tx :
  holds B tx → phase_step (view tx) (p, tx.(tx_stopWatches) ++ [p]) →
  (IsInterrupted tx = true → p = PhaseLogging) →
  wp (evalPhase waf p tx) (evolves B tx).
Proof.
  intros Hg Hstep Hlog. unfold evalPhase. set (tx0 := tx <| tx_lastPhase := p |>).
  eapply wp_bind; [apply (Eval_sound (phased tx0))|].
  - split; intros ?? H; exact H.
  - split; [intros ?? H; exact H|]. intros tx1 mr (Hf & Hl & Hi).
    split; [by apply framed_recording|done].
  - intros tx1 tx2 (Hf & Hl & Hi) Hj. split; [by eapply framed_flow|]. by destruct Hj as [->|[->| ->]].
  - done.
  - eapply Forall_impl; [exact Hlimits|]. intros c Hc. eapply Forall_impl; [exact Hc|].
    intros a. apply phased_kept.
  - by split; [apply framed_refl|].
  - intros res (tx1 & (Hf & Hl & Hi) & ->). cbn [wp].
    destruct Hf as (_ & Hph & Hb & Hsw & _). unfold buffers in Hb. unfold limits in Hl.
    injection Hb as Hb1 Hb2. injection Hl as Hl1 Hl2.
    assert (view (closePhase p tx1) = (p, tx.(tx_stopWatches) ++ [p])) as Hv.
    { unfold view, closePhase, endPhase. case_decide; cbn; by rewrite Hph, Hsw. }
    assert (IsInterrupted (closePhase p tx1) = IsInterrupted tx1) as Hint
      by (unfold IsInterrupted, closePhase, endPhase; by case_decide).
    split; [|unfold bodies, closePhase, endPhase; case_decide; cbn; by rewrite Hb1, Hb2].
    split.
    + destruct Hg as [G1 G2 G3 G4].
      unfold closePhase, endPhase. case_decide; split; cbn; rewrite ?Hb1, ?Hb2, ?Hl1, ?Hl2; done.
    + rewrite Hv. by apply rtc_once.
    + intros H. rewrite Hint. split.
      * unfold IsInterrupted in *. cbn in Hi. destruct (tx_interruption tx); [|done].
        by destruct (Hi ltac:(done)) as [? ->].
      * exists 1%nat. change (tx_stopWatches (closePhase p tx1)) with (view (closePhase p tx1)).2.
        by rewrite Hv, (Hlog H).
Qed.

(** Reading a body to its end. *)
Lemma readBody_wp br : B br →
  let '(br1, id) := Reader br in
  B br1 ∧ br1.(options) = br.(options) ∧ contents br1 = contents br ∧
  wp (readBody true br1 id) (λ res,
    B res.1 ∧ res.1.(options) = br.(options) ∧ contents res.1 = contents br ∧ res.2 = contents br).
Proof.
  intros HB. unfold Reader. set (br1 := br <| readers ::= _ |>). assert (B br1) as HB1 by by apply bi_reader.
  split; [done|]. split; [done|]. split; [done|]. unfold readBody.
  destruct (readAll_spec (B := B) true copySize (S (length (contents br1))) br1 (length br.(readers)) 0)
    as (br2 & HE & Hc & HB2 & Ho & _); [done|by left| |lia|unfold copySize; lia|lia|].
  - cbn. rewrite lookup_app_r, Nat.sub_diag by lia. done.
  - eapply wp_intro; [exact HE|]. split; [done|]. split; [exact Ho|]. split; [exact Hc|]. by rewrite drop_0.
Qed.

Lemma good_request_buffer tx br :
  holds B tx → B br → br.(options) = tx.(tx_requestBodyBuffer).(options) →
  follows B tx (tx <| tx_requestBodyBuffer := br |>).
Proof. intros [G1 G2 G3 G4] Hwf Ho. apply follows_still; [split; cbn; rewrite ?Ho; done|done|done]. Qed.

Lemma good_response_buffer tx br :
  holds B tx → B br → br.(options) = tx.(tx_responseBodyBuffer).(options) →
  follows B tx (tx <| tx_responseBodyBuffer := br |>).
Proof. intros [G1 G2 G3 G4] Hwf Ho. apply follows_still; [split; cbn; rewrite ?Ho; done|done|done]. Qed.

(** A phase after a preparation that follows [tx]. *)
Lemma evalPhase_then p tx tx1 :
  evolves B tx tx1 → view tx1 = view tx → IsInterrupted tx1 = false →
  phase_step (view tx) (p, tx.(tx_stopWatches) ++ [p]) →
  wp (evalPhase waf p tx1) (evolves B tx).
Proof.
  intros [Hfo Hb] Hv Hi Hstep.
  eapply wp_mono; [apply evalPhase_follows; [apply Hfo| |by rewrite Hi]|].
  - rewrite Hv. change (tx_stopWatches tx1) with (view tx1).2. by rewrite Hv.
  - intros tx2 [Hfo2 Hb2]. split; [by eapply follows_trans|by rewrite Hb2].
Qed.

Lemma ProcessRequestHeaders_follows tx :
  holds B tx → wp (ProcessRequestHeaders waf tx) (λ res, evolves B tx res.1).
Proof.
  intros Hg. unfold ProcessRequestHeaders. destruct (IsRuleEngineOff tx); [by apply evolves_refl|].
  destruct (_ >=? _) eqn:Ep; [by apply evolves_refl|].
  destruct (IsInterrupted tx) eqn:Ei; [by apply evolves_refl|].
  eapply wp_bind; [apply evalPhase_follows; [done|constructor; lia|by rewrite Ei]|]. by intros tx1 H1.
Qed.

Lemma ProcessResponseHeaders_follows code proto tx :
  holds B tx → wp (ProcessResponseHeaders waf code proto tx) (λ res, evolves B tx res.1).
Proof.
  intros Hg. unfold ProcessResponseHeaders. destruct (IsRuleEngineOff tx); [by apply evolves_refl|].
  destruct (_ >=? _) eqn:Ep; [by apply evolves_refl|].
  destruct (IsInterrupted tx) eqn:Ei; [by apply evolves_refl|]. cbv zeta.
  eapply wp_bind; [apply (evalPhase_then PhaseResponseHeaders tx)|by intros tx1 H1];
    [|done|done|constructor; lia].
  split; [|done]. eapply follows_trans; [by apply follows_withSingle|]. apply follows_withSingle.
  by apply fo_good with tx, follows_withSingle.
Qed.

(** What the preparation of a body phase leaves. *)
Definition prepared (B : BodyBuffer → Prop) (tx tx1 : Transaction) : Prop :=
  evolves B tx tx1 ∧ view tx1 = view tx ∧ tx1.(tx_interruption) = tx.(tx_interruption).

Lemma prepared_refl tx : holds B tx → prepared B tx tx.
Proof. intros Hg. split; [by apply evolves_refl|done]. Qed.

Lemma prepared_variables tx tx1 f : prepared B tx tx1 → prepared B tx (tx1 <| tx_variables ::= f |>).
Proof. intros ([Hf Hb] & Hv & Hi). split; [split; [by apply follows_variables'|done]|done]. Qed.

Lemma prepared_request tx tx1 br :
  prepared B tx tx1 → B br → br.(options) = tx1.(tx_requestBodyBuffer).(options) →
  contents br = contents tx1.(tx_requestBodyBuffer) → prepared B tx (tx1 <| tx_requestBodyBuffer := br |>).
Proof.
  intros ([Hf Hb] & Hv & Hi) Hwf Ho Hc. split; [|done]. split.
  - eapply follows_trans; [done|]. apply good_request_buffer; [apply Hf|done|done].
  - rewrite <- Hb. unfold bodies. cbn. by rewrite Hc.
Qed.

Lemma prepared_response tx tx1 br :
  prepared B tx tx1 → B br → br.(options) = tx1.(tx_responseBodyBuffer).(options) →
  contents br = contents tx1.(tx_responseBodyBuffer) → prepared B tx (tx1 <| tx_responseBodyBuffer := br |>).
Proof.
  intros ([Hf Hb] & Hv & Hi) Hwf Ho Hc. split; [|done]. split.
  - eapply follows_trans; [done|]. apply good_response_buffer; [apply Hf|done|done].
  - rewrite <- Hb. unfold bodies. cbn. by rewrite Hc.
Qed.

Lemma prepared_request_error tx tx1 e : prepared B tx tx1 → prepared B tx (generateRequestBodyError e tx1).
Proof. intros H. unfold generateRequestBodyError. by do 4 apply prepared_variables. Qed.

Lemma prepared_response_error tx tx1 e : prepared B tx tx1 → prepared B tx (generateResponseBodyError e tx1).
Proof. intros H. unfold generateResponseBodyError. by do 4 apply prepared_variables. Qed.

Lemma ProcessRequestBody_follows tx :
  holds B tx → wp (ProcessRequestBody true registry waf tx) (λ res, evolves B tx res.1).
Proof.
  intros Hg. unfold ProcessRequestBody. destruct (IsRuleEngineOff tx); [by apply evolves_refl|].
  destruct (IsInterrupted tx) eqn:Ei; [by apply evolves_refl|].
  destruct (negb _) eqn:Ep; [by apply evolves_refl|].
  eapply wp_bind with (R := prepared B tx).
  - destruct (_ || _); [by apply prepared_refl|]. cbv zeta.
    pose proof (readBody_wp _ (good_request _ Hg)) as Hread.
    destruct (Reader (tx_requestBodyBuffer tx)) as [br reader]. destruct Hread as (Hwf & Ho & Hc & Hread).
    pose proof (prepared_request tx tx br (prepared_refl _ Hg) Hwf Ho Hc) as H1.
    set (tx1 := tx <| tx_requestBodyBuffer := br |>) in *.
    set (p := if tx_ForceRequestBodyVariable tx1 then _ else _).
    assert (prepared B tx p.2 ∧ (tx_requestBodyBuffer p.2) = br) as [H2 Hbr].
    { unfold p. destruct (tx_ForceRequestBodyVariable tx1); [|done]. split; [|done].
      by apply prepared_variables. }
    destruct p as [rbp tx2]. cbn [snd] in H2, Hbr. destruct (_ =s _); [done|].
    destruct (GetBodyProcessor registry (ToLower rbp)) as [bp|] eqn:Ebp.
    2: by apply prepared_request_error.
    eapply wp_bind; [exact Hread|]. intros [br2 body] (Hwf2 & Ho2 & Hc2 & _).
    cbn [fst] in Hwf2, Ho2, Hc2.
    eapply wp_bind; [by apply (Hreg _ bp Ebp)|]. intros [v err] _. cbv zeta.
    assert (prepared B tx (tx2 <| tx_requestBodyBuffer := br2 |> <| tx_variables := v |>)) as H3.
    { apply (prepared_variables _ _ (λ _, v)), prepared_request; [done|done| |]; rewrite Hbr; congruence. }
    destruct err as [e|]; [by apply prepared_request_error|done].
  - intros tx1 (Hfo & Hv & Hi). eapply wp_bind; [apply (evalPhase_then PhaseRequestBody tx)|by intros tx2 H2].
    + done.
    + done.
    + unfold IsInterrupted in *. by rewrite Hi.
    + unfold view. replace (tx_lastPhase tx) with PhaseRequestHeaders by lia. constructor.
Qed.

Lemma ProcessResponseBody_follows tx :
  holds B tx → wp (ProcessResponseBody true registry waf tx) (λ res, evolves B tx res.1.1).
Proof.
  intros Hg. unfold ProcessResponseBody. destruct (IsRuleEngineOff tx); [by apply evolves_refl|].
  destruct (IsInterrupted tx) eqn:Ei; [by apply evolves_refl|].
  destruct (negb _) eqn:Ep; [by apply evolves_refl|].
  eapply wp_bind with (R := λ res, prepared B tx res.1).
  - destruct (_ || _); [by apply prepared_refl|]. cbv zeta.
    pose proof (readBody_wp _ (good_response _ Hg)) as Hread.
    destruct (Reader (tx_responseBodyBuffer tx)) as [br reader]. destruct Hread as (Hwf & Ho & Hc & Hread).
    pose proof (prepared_response tx tx br (prepared_refl _ Hg) Hwf Ho Hc) as H1.
    set (tx1 := tx <| tx_responseBodyBuffer := br |>) in *.
    destruct (negb (single tx1 V.ResBodyProcessor =s [])).
    + destruct (GetBodyProcessor registry (single tx1 V.ResBodyProcessor)) as [bp|] eqn:Ebp;
        [|by apply prepared_response_error].
      eapply wp_bind; [exact Hread|]. intros [br2 body] (Hwf2 & Ho2 & Hc2 & _).
    cbn [fst] in Hwf2, Ho2, Hc2.
      eapply wp_bind; [by apply (Hreg _ bp Ebp)|]. intros [v err] _. cbv zeta. cbn [wp fst].
      assert (prepared B tx (tx1 <| tx_responseBodyBuffer := br2 |> <| tx_variables := v |>)) as H3.
      { apply (prepared_variables _ _ (λ _, v)), prepared_response; [done|done| |]; cbn; congruence. }
      destruct err as [e|]; [by apply prepared_response_error|done].
    + eapply wp_bind; [exact Hread|]. intros [br2 body] (Hwf2 & Ho2 & Hc2 & _).
    cbn [fst] in Hwf2, Ho2, Hc2.
      do 2 apply prepared_variables. apply prepared_response; [done|done| |]; cbn; congruence.
  - intros [tx1 err] (Hfo & Hv & Hi). cbn [fst] in *.
    eapply wp_bind; [apply (evalPhase_then PhaseResponseBody tx)|by intros tx2 H2].
    + done.
    + done.
    + unfold IsInterrupted in *. by rewrite Hi.
    + unfold view. replace (tx_lastPhase tx) with PhaseResponseHeaders by lia. constructor.
Qed.

Lemma bodyLimit_follows status tx :
  holds B tx → follows B tx (setAndReturnBodyLimitInterruption status tx).1.
Proof. intros [????]. apply follows_still; [by split|done|done]. Qed.

(** Copying from a reader keeps the invariant of the buffer, whatever the reader
    delivers. *)
Lemma copyLoop_wp io r : (∀ i, allowed (io i)) → ∀ fuel i br rest n written,
  B br → (length rest < fuel)%nat →
  wp (copyLoop true fuel i io r br rest n written)
    (λ res, B res.1.1 ∧ res.1.1.(options) = br.(options)).
Proof.
  intros Hio. induction fuel as [|fuel IH]; intros i br rest n written HB Hfuel; [lia|]. cbn [copyLoop].
  destruct (n <=? 0) eqn:En; [done|]. destruct rest as [|x rest]; [done|].
  replace (x :: rest =s []) with false by (symmetry; by apply bytes_eqb_neq). cbv zeta.
  set (k := (_ `min` _)%nat).
  assert (0 < k ≤ copySize)%nat as Hk by (unfold k, copySize; lia).
  destruct (bi_write (io i) br (take k (x :: rest)) HB (Hio i)) as (br' & w & err & -> & HB' & Ho).
  { rewrite length_take. unfold copySize, maxInt64 in *. lia. }
  destruct err as [e|]; [done|]. eapply wp_mono; [apply IH; [done|]|].
  - rewrite length_drop. cbn [length] in *. lia.
  - intros res [? Ho']. split; [done|]. by rewrite Ho'.
Qed.

Lemma CopyN_wp io r br n :
  (∀ i, allowed (io i)) → B br →
  wp (CopyN true io r br n) (λ res, B res.1.1 ∧ res.1.1.(options) = br.(options)).
Proof. intros Hio HB. apply copyLoop_wp; [done..|lia]. Qed.

(** The part of the data that still fits when the limit is reached. *)
Lemma fitting_bytes br (b : bytes) :
  B br → i64 (br.(bb_length) + Z.of_nat (length b)) >= br.(options).(Limit) →
  i64 (br.(options).(Limit) - br.(bb_length)) = br.(options).(Limit) - br.(bb_length) ∧
  0 <= br.(options).(Limit) - br.(bb_length) <= Z.of_nat (length b).
Proof.
  intros HB Hover. pose proof (bi_length _ HB) as Hl. pose proof (bi_limit _ HB) as Hlim.
  split; [apply i64_id; unfold in_i64, maxInt64 in *; lia|]. split; [lia|].
  destruct (Z.le_gt_cases (br.(bb_length) + Z.of_nat (length b)) maxInt64).
  - rewrite i64_id in Hover by (unfold in_i64, maxInt64 in *; lia). lia.
  - lia.
Qed.

Lemma follows_request_write tx tx1 br :
  follows B tx tx1 → B br → br.(options) = tx1.(tx_requestBodyBuffer).(options) →
  follows B tx (tx1 <| tx_requestBodyBuffer := br |>).
Proof.
  intros H Hwf Ho. eapply follows_trans; [done|]. apply good_request_buffer; [apply H|done|done].
Qed.

Lemma follows_response_write tx tx1 br :
  follows B tx tx1 → B br → br.(options) = tx1.(tx_responseBodyBuffer).(options) →
  follows B tx (tx1 <| tx_responseBodyBuffer := br |>).
Proof.
  intros H Hwf Ho. eapply follows_trans; [done|]. apply good_response_buffer; [apply H|done|done].
Qed.

Lemma WriteRequestBody_follows io b tx :
  holds B tx → allowed io → Z.of_nat (length b) <= maxInt64 →
  wp (WriteRequestBody true registry waf io b tx) (λ res, follows B tx res.1).
Proof.
  intros Hg Hio Hb. unfold WriteRequestBody. destruct (IsRuleEngineOff tx); [by apply follows_refl|].
  destruct (negb _); [by apply follows_refl|]. cbv zeta.
  destruct (_ =? _); [by apply follows_refl|]. destruct (_ >=? _); [by apply follows_refl|].
  pose proof (good_request _ Hg) as Hwf. rewrite <- (good_request_limit _ Hg).
  destruct (i64 _ >=? _) eqn:Eover.
  - pose proof (follows_withSingle tx V.InboundDataError (str "1") Hg) as H1.
    set (tx1 := withSingle V.InboundDataError (str "1") tx) in *.
    change (tx_RequestBodyLimit tx1) with (tx_RequestBodyLimit tx). rewrite <- (good_request_limit _ Hg).
    destruct (w_RequestBodyLimitAction waf).
    2: { apply (follows_trans _ tx1); [done|]. by apply bodyLimit_follows, H1. }
    destruct (fitting_bytes (tx_requestBodyBuffer tx) b Hwf) as [-> Hfit]; [lia|].
    destruct (_ <? 0) eqn:Eneg; [lia|]. rewrite slice_prefix by lia. run_simpl.
    edestruct (bi_write (B := B) io (tx_requestBodyBuffer tx)) as (br & w & err & -> & Hwf' & Ho);
      [done|done|rewrite length_take; lia|].
    pose proof (follows_request_write tx tx1 br H1 Hwf' Ho) as H2.
    destruct err as [e|]; [done|]. eapply wp_bind; [apply ProcessRequestBody_follows, H2|].
    intros [tx3 it] [H3 _]. by eapply follows_trans.
  - destruct (_ <? 0) eqn:Eneg; [lia|]. rewrite slice_prefix by lia. run_simpl.
    edestruct (bi_write (B := B) io (tx_requestBodyBuffer tx)) as (br & w & err & -> & Hwf' & Ho);
      [done|done|rewrite length_take; lia|].
    pose proof (follows_request_write tx tx br (follows_refl _ Hg) Hwf' Ho). by destruct err.
Qed.

Lemma WriteResponseBody_follows io b tx :
  holds B tx → allowed io → Z.of_nat (length b) <= maxInt64 →
  wp (WriteResponseBody true registry waf io b tx) (λ res, follows B tx res.1).
Proof.
  intros Hg Hio Hb. unfold WriteResponseBody. destruct (IsRuleEngineOff tx); [by apply follows_refl|].
  destruct (negb _); [by apply follows_refl|]. cbv zeta. destruct (_ =? _); [by apply follows_refl|].
  pose proof (good_response _ Hg) as Hwf. rewrite <- (good_response_limit _ Hg).
  destruct (i64 _ >=? _) eqn:Eover.
  - pose proof (follows_withSingle tx V.OutboundDataError (str "1") Hg) as H1.
    set (tx1 := withSingle V.OutboundDataError (str "1") tx) in *.
    change (tx_ResponseBodyLimit tx1) with (tx_ResponseBodyLimit tx). rewrite <- (good_response_limit _ Hg).
    destruct (w_ResponseBodyLimitAction waf).
    2: { apply (follows_trans _ tx1); [done|]. by apply bodyLimit_follows, H1. }
    destruct (fitting_bytes (tx_responseBodyBuffer tx) b Hwf) as [-> Hfit]; [lia|].
    destruct (_ <? 0) eqn:Eneg; [lia|]. rewrite slice_prefix by lia. run_simpl.
    edestruct (bi_write (B := B) io (tx_responseBodyBuffer tx)) as (br & w & err & -> & Hwf' & Ho);
      [done|done|rewrite length_take; lia|].
    pose proof (follows_response_write tx tx1 br H1 Hwf' Ho) as H2.
    destruct err as [e|]; [done|]. eapply wp_bind; [apply ProcessResponseBody_follows, H2|].
    intros [[tx3 it] err] [H3 _]. by eapply follows_trans.
  - destruct (_ <? 0) eqn:Eneg; [lia|]. rewrite slice_prefix by lia. run_simpl.
    edestruct (bi_write (B := B) io (tx_responseBodyBuffer tx)) as (br & w & err & -> & Hwf' & Ho);
      [done|done|rewrite length_take; lia|].
    pose proof (follows_response_write tx tx br (follows_refl _ Hg) Hwf' Ho). by destruct err.
Qed.

Lemma finishRequestBody_follows partial w tx :
  holds B tx → wp (finishRequestBody true registry waf partial w tx) (λ res, follows B tx res.1).
Proof.
  intros Hg. unfold finishRequestBody. cbv zeta. destruct (_ =? _).
  - pose proof (follows_withSingle tx V.InboundDataError (str "1") Hg) as H1.
    destruct (w_RequestBodyLimitAction waf).
    + eapply wp_bind; [apply ProcessRequestBody_follows, H1|]. intros [tx2 it] [H2 _]. by eapply follows_trans.
    + eapply follows_trans; [exact H1|]. apply bodyLimit_follows, H1.
  - destruct partial; cbn [orb]; [|destruct (w_RequestBodyLimitAction waf); by apply follows_refl].
    destruct (w_RequestBodyLimitAction waf);
      (eapply wp_bind; [by apply ProcessRequestBody_follows|]; by intros [tx2 it] [H2 _]).
Qed.

Lemma finishResponseBody_follows partial w tx :
  holds B tx → wp (finishResponseBody true registry waf partial w tx) (λ res, follows B tx res.1).
Proof.
  intros Hg. unfold finishResponseBody. cbv zeta. destruct (_ =? _).
  - pose proof (follows_withSingle tx V.OutboundDataError (str "1") Hg) as H1.
    destruct (w_ResponseBodyLimitAction waf).
    + eapply wp_bind; [apply ProcessResponseBody_follows, H1|]. intros [[tx2 it] err] [H2 _].
      by eapply follows_trans.
    + eapply follows_trans; [exact H1|]. apply bodyLimit_follows, H1.
  - destruct partial; cbn [orb]; [|destruct (w_ResponseBodyLimitAction waf); by apply follows_refl].
    destruct (w_ResponseBodyLimitAction waf);
      (eapply wp_bind; [by apply ProcessResponseBody_follows|]; by intros [[tx2 it] err] [H2 _]).
Qed.

Lemma ReadRequestBodyFrom_follows io r tx :
  holds B tx → (∀ i, allowed (io i)) → wp (ReadRequestBodyFrom true registry waf io r tx) (λ res, follows B tx res.1).
Proof.
  intros Hg Hio. unfold ReadRequestBodyFrom. destruct (IsRuleEngineOff tx); [by apply follows_refl|].
  destruct (negb _); [by apply follows_refl|]. cbv zeta.
  assert (∀ n partial tx1, follows B tx tx1 → tx_requestBodyBuffer tx1 = tx_requestBodyBuffer tx →
    wp ('(buf, w, err) ← CopyN true io r (tx_requestBodyBuffer tx) n;
        match err with
        | Some e => Done (tx1 <| tx_requestBodyBuffer := buf |>, (None, w, Some e))
        | None => finishRequestBody true registry waf partial w (tx1 <| tx_requestBodyBuffer := buf |>)
        end) (λ res, follows B tx res.1)) as Hcopy.
  { intros n partial tx1 H1 Hbuf. eapply wp_bind; [apply CopyN_wp; [done|apply Hg]|].
    intros [[br w] err] [Hwf Ho]. cbn [fst] in *.
    assert (follows B tx (tx1 <| tx_requestBodyBuffer := br |>)) as H2.
    { apply follows_request_write; [done|done|by rewrite Hbuf]. }
    destruct err as [e|]; [done|]. eapply wp_mono; [by apply finishRequestBody_follows, H2|].
    intros res H3. by eapply follows_trans. }
  pose proof (follows_withSingle tx V.InboundDataError (str "1") Hg) as H1.
  destruct (_ =? _); [by apply follows_refl|]. destruct (io_len r) as [len|].
  - destruct (_ >=? _); [by apply follows_refl|]. destruct (_ >=? _).
    + destruct (w_RequestBodyLimitAction waf); [by apply Hcopy|].
      eapply follows_trans; [exact H1|]. apply bodyLimit_follows, H1.
    + apply Hcopy; [by apply follows_refl|done].
  - apply Hcopy; [by apply follows_refl|done].
Qed.

Lemma ReadResponseBodyFrom_follows io r tx :
  holds B tx → (∀ i, allowed (io i)) → wp (ReadResponseBodyFrom true registry waf io r tx) (λ res, follows B tx res.1).
Proof.
  intros Hg Hio. unfold ReadResponseBodyFrom. destruct (IsRuleEngineOff tx); [by apply follows_refl|].
  destruct (negb _); [by apply follows_refl|]. cbv zeta.
  assert (∀ n partial tx1, follows B tx tx1 → tx_responseBodyBuffer tx1 = tx_responseBodyBuffer tx →
    wp ('(buf, w, err) ← CopyN true io r (tx_responseBodyBuffer tx) n;
        match err with
        | Some e => Done (tx1 <| tx_responseBodyBuffer := buf |>, (None, w, Some e))
        | None => finishResponseBody true registry waf partial w (tx1 <| tx_responseBodyBuffer := buf |>)
        end) (λ res, follows B tx res.1)) as Hcopy.
  { intros n partial tx1 H1 Hbuf. eapply wp_bind; [apply CopyN_wp; [done|apply Hg]|].
    intros [[br w] err] [Hwf Ho]. cbn [fst] in *.
    assert (follows B tx (tx1 <| tx_responseBodyBuffer := br |>)) as H2.
    { apply follows_response_write; [done|done|by rewrite Hbuf]. }
    destruct err as [e|]; [done|]. eapply wp_mono; [by apply finishResponseBody_follows, H2|].
    intros res H3. by eapply follows_trans. }
  pose proof (follows_withSingle tx V.OutboundDataError (str "1") Hg) as H1.
  destruct (_ =? _); [by apply follows_refl|]. destruct (io_len r) as [len|].
  - destruct (_ >=? _).
    + destruct (w_ResponseBodyLimitAction waf); [by apply Hcopy|].
      eapply follows_trans; [exact H1|]. apply bodyLimit_follows, H1.
    + apply Hcopy; [by apply follows_refl|done].
  - apply Hcopy; [by apply follows_refl|done].
Qed.

Lemma AddGetRequestArgument_rewrites key value tx : rewrites tx (AddGetRequestArgument waf key value tx).
Proof.
  unfold AddGetRequestArgument.
  destruct (checkArgumentLimit _ _); [apply rewrites_refl|apply rewrites_variables, rewrites_refl].
Qed.

Lemma ExtractGetArguments_rewrites uri tx : wp (ExtractGetArguments waf uri tx) (rewrites tx).
Proof.
  unfold ExtractGetArguments, ParseQuery. rewrite doParseQuery_eq. run_simpl.
  apply foldl_rewrites. intros tx1 kvs. apply foldl_rewrites.
  intros tx2 v. by apply AddGetRequestArgument_rewrites.
Qed.

Context (ParseRequestURI : bytes → bytes + URL).

Lemma ProcessURI_rewrites uri method version tx :
  wp (ProcessURI ParseRequestURI waf uri method version tx) (rewrites tx).
Proof.
  unfold ProcessURI. cbv zeta.
  set (uri0 := match IndexByte uri 0x23 with Some i => take i uri | None => uri end).
  set (tx1 := withSingle V.RequestLine _ _).
  assert (rewrites tx tx1) as H1 by (by do 4 apply rewrites_variables; apply rewrites_refl).
  eapply wp_bind with (R := λ res, rewrites tx res.1.1).
  - destruct (ParseRequestURI uri0) as [err|u]; [by do 2 apply rewrites_variables|].
    eapply wp_bind; [apply ExtractGetArguments_rewrites|]. intros tx2 H2. cbn [wp fst].
    apply rewrites_variables. exact (rewrites_trans _ _ _ H1 H2).
  - intros [[tx2 path] query] H2. by do 3 apply rewrites_variables.
Qed.

Lemma AddRequestHeader_rewrites key value tx : wp (AddRequestHeader key value tx) (rewrites tx).
Proof.
  unfold AddRequestHeader. destruct (_ =s _); [by apply rewrites_refl|]. cbv zeta.
  assert (rewrites tx (withMap V.RequestHeaders (λ m, Add m key value) tx)) as H1
    by (apply rewrites_variables, rewrites_refl).
  destruct (_ =s _); [|destruct (_ =s _); [|done]].
  - cbn [wp]. destruct (_ =s _); [by apply rewrites_variables|].
    destruct (HasPrefix _ _); [by apply rewrites_variables|done].
  - destruct (ParseCookies_grouped value) as (m & -> & _). run_simpl.
    eapply rewrites_trans; [exact H1|]. apply foldl_rewrites.
    intros tx2 kv. apply foldl_rewrites. intros. apply rewrites_variables, rewrites_refl.
Qed.

Lemma ProcessLogging_follows tx : holds B tx → wp (ProcessLogging waf tx) (λ res, follows B tx res.1).
Proof.
  intros Hg. unfold ProcessLogging. eapply wp_bind with (R := follows B tx); [|by intros tx1 H1].
  destruct (negb _); [|by apply follows_refl].
  eapply wp_mono; [apply evalPhase_follows; [done|constructor|done]|]. by intros ? [? _].
Qed.

(** The data of a call fit in the memory of the machine. *)
Lemma AddResponseHeader_variables key value tx :
  ∃ f, AddResponseHeader key value tx = tx <| tx_variables ::= f |>.
Proof.
  unfold AddResponseHeader. destruct (_ =s _); [exists id; by destruct tx|].
  destruct (_ =s _); [|by eexists]. destruct (Cut value 0x3b) as [[name ?] ?].
  eexists (λ tv, setSingle _ _ (setMap _ _ tv)). reflexivity.
Qed.

Definition wf_call (c : call) : Prop :=
  match c with
  | CWriteRequestBody _ b | CWriteResponseBody _ b => Z.of_nat (length b) <= maxInt64
  | _ => True
  end.

(** What the file system does during a call. *)
Definition allowed_call (allowed : fsResult → Prop) (c : call) : Prop :=
  match c with
  | CWriteRequestBody io _ | CWriteResponseBody io _ => allowed io
  | CReadRequestBody io _ | CReadResponseBody io _ => ∀ i, allowed (io i)
  | _ => True
  end.

Lemma exec_follows c tx :
  holds B tx → wf_call c → allowed_call allowed c → wp (exec ParseRequestURI registry waf c tx) (follows B tx).
Proof.
  intros Hg Hc Hio. destruct c; cbn [exec wf_call allowed_call] in *.
  - by do 4 apply follows_variables'; apply follows_refl.
  - eapply wp_mono; [apply ProcessURI_rewrites|]. intros tx'. by apply rewrites_follows.
  - by apply follows_withSingle.
  - eapply wp_mono; [apply AddRequestHeader_rewrites|]. intros tx'. by apply rewrites_follows.
  - by apply rewrites_follows, AddGetRequestArgument_rewrites.
  - unfold AddPostRequestArgument. cbn [wp]. case_match; [by apply follows_refl|by apply follows_withMap].
  - unfold AddPathRequestArgument. cbn [wp]. case_match; [by apply follows_refl|by apply follows_withMap].
  - unfold AddResponseArgument. cbn [wp]. case_match; [by apply follows_refl|by apply follows_withMap].
  - eapply wp_bind; [by apply ProcessRequestHeaders_follows|]. by intros [] [? _].
  - eapply wp_bind; [by apply WriteRequestBody_follows|]. by intros [].
  - eapply wp_bind; [by apply ReadRequestBodyFrom_follows|]. by intros [].
  - eapply wp_bind; [by apply ProcessRequestBody_follows|]. by intros [] [? _].
  - cbn [wp]. destruct (AddResponseHeader_variables key value tx) as [f ->]. by apply follows_variables.
  - eapply wp_bind; [by apply ProcessResponseHeaders_follows|]. by intros [] [? _].
  - eapply wp_bind; [by apply WriteResponseBody_follows|]. by intros [].
  - eapply wp_bind; [by apply ReadResponseBodyFrom_follows|]. by intros [].
  - eapply wp_bind; [by apply ProcessResponseBody_follows|]. by intros [[]] [? _].
  - eapply wp_bind; [by apply ProcessLogging_follows|]. by intros [].
Qed.

Lemma calls_follow cs : ∀ tx,
  holds B tx → Forall wf_call cs → Forall (allowed_call allowed) cs →
  wp (foldM (λ tx c, exec ParseRequestURI registry waf c tx) cs tx) (follows B tx).
Proof.
  intros tx Hg Hcs Hio. apply foldM_wp; [|by apply follows_refl]. intros tx1 c Hc H1.
  rewrite Forall_forall in Hcs, Hio. eapply wp_mono; [by apply exec_follows; [apply H1|apply Hcs|apply Hio]|].
  intros tx2. by apply follows_trans.
Qed.
End simulation.

(** ** What holds for every sequence of calls *)

(** Rules that are sound and that do not change the limits of the bodies. *)
Definition sound_waf (waf : WAF) : Prop :=
  Forall sound_chained waf.(w_Rules) ∧
  Forall (λ c, Forall (λ a, setsLimit a = false) (allActions c)) waf.(w_Rules).

(** Body processors that return. *)
Definition sound_registry (registry : gmap bytes BodyProcessor) : Prop :=
  map_Forall (λ _ bp,
    (∀ mime b v, wp (bp.(ProcessRequest) mime b v) (λ _, True)) ∧
    (∀ b v, wp (bp.(ProcessResponse) b v) (λ _, True))) registry.

(** The processors of the package are such a registry, whatever the libraries that
    they call give. *)
Lemma processors_sound `{U : Unicode, O : !MapOrder} : sound_registry processors.
Proof.
  apply map_Forall_insert_2; [|apply map_Forall_insert_2; [|apply map_Forall_empty]].
  - split; [|done]. intros mime b v. cbn [ProcessRequest urlencodedBodyProcessor].
    unfold urlencodedProcessRequest, ParseQuery. by rewrite doParseQuery_eq.
  - done.
Qed.

Theorem packageProcessors_sound `{U : Unicode, O : !MapOrder, M : !Multipart, X : !XMLDecoder} fs Parse Valid limit :
  sound_registry (packageProcessors fs Parse Valid limit).
Proof.
  apply map_Forall_insert_2; [|apply map_Forall_insert_2; [|apply map_Forall_insert_2; [|apply processors_sound]]].
  - split; intros; cbn [ProcessRequest ProcessResponse jsonBodyProcessor];
      unfold jsonProcessRequest, jsonProcessResponse; apply json_total.
  - split; intros; cbn [ProcessRequest ProcessResponse multipartBodyProcessor]; [apply multipart_total|done].
  - split; intros; cbn [ProcessRequest ProcessResponse xmlBodyProcessor]; [apply xml_total|done].
Qed.

Lemma allowed_any cs : Forall (allowed_call (λ _, True)) cs.
Proof. apply Forall_forall. intros c _. by destruct c. Qed.

Section lifecycle.
Context `{U : !Unicode, O : !MapOrder}.

(** With rules that are sound and leave the body limits alone and processors that
    return, a sequence of calls returns, whatever the file system does, and
    evaluates phases only as the abstract machine allows; the buffers stay within
    the limits of the transaction. *)
Theorem calls_refine (ParseRequestURI : bytes → bytes + URL) registry waf cs tx :
  sound_waf waf → sound_registry registry → holds sane_buffer tx → Forall wf_call cs →
  ∃ tx', foldM (λ tx c, exec ParseRequestURI registry waf c tx) cs tx = Done tx' ∧
    rtc phase_step (view tx) (view tx') ∧ holds sane_buffer tx'.
Proof.
  intros [Hs Hl] Hreg Hg Hcs.
  destruct (wp_elim _ _ (calls_follow registry waf Hs Hl Hreg ParseRequestURI cs tx Hg Hcs (allowed_any cs)))
    as (tx' & HE & [Hg' Hst _]). by exists tx'.
Qed.

(** C28: in a transaction whose buffers are within their limits, with rules that
    are sound and leave the body limits alone and body processors that return, an
    interrupted transaction stays interrupted whatever is called on it and
    whatever the file system does: the calls return and no phase but logging is
    evaluated any more. *)
Theorem calls_interrupted (ParseRequestURI : bytes → bytes + URL) registry waf cs tx :
  sound_waf waf → sound_registry registry → holds sane_buffer tx → IsInterrupted tx = true → Forall wf_call cs →
  ∃ tx', foldM (λ tx c, exec ParseRequestURI registry waf c tx) cs tx = Done tx' ∧
    IsInterrupted tx' = true ∧
    ∃ k, tx'.(tx_stopWatches) = tx.(tx_stopWatches) ++ replicate k PhaseLogging.
Proof.
  intros [Hs Hl] Hreg Hg Hi Hcs.
  destruct (wp_elim _ _ (calls_follow registry waf Hs Hl Hreg ParseRequestURI cs tx Hg Hcs (allowed_any cs)))
    as (tx' & HE & [_ _ H]). exists tx'. split; [done|]. by apply H.
Qed.

(** The calls that may evaluate rules or fill a buffer. *)
Definition guarded (c : call) : Prop :=
  match c with
  | CRequestHeaders | CWriteRequestBody _ _ | CReadRequestBody _ _ | CRequestBody
  | CResponseHeaders _ _ | CWriteResponseBody _ _ | CReadResponseBody _ _ | CResponseBody | CLogging => True
  | _ => False
  end.

(** With the rule engine off the calls that process a phase or a body change
    nothing. *)
Theorem exec_off (ParseRequestURI : bytes → bytes + URL) registry waf c tx :
  tx.(tx_RuleEngine) = RuleEngineOff → guarded c → exec ParseRequestURI registry waf c tx = Done tx.
Proof.
  intros He Hc. assert (IsRuleEngineOff tx = true) as Hoff by (by apply bool_decide_eq_true).
  destruct c; try done; cbn [exec];
    unfold ProcessRequestHeaders, WriteRequestBody, ReadRequestBodyFrom, ProcessRequestBody,
      ProcessResponseHeaders, WriteResponseBody, ReadResponseBodyFrom, ProcessResponseBody, ProcessLogging;
    by rewrite Hoff.
Qed.

(** The write of the data that still fits. *)
Lemma partial_write b tx :
  good tx →
  0 <= tx.(tx_RequestBodyLimit) - tx.(tx_requestBodyBuffer).(bb_length) <= Z.of_nat (length b) →
  ∃ br w,
    Write true fsOK tx.(tx_requestBodyBuffer)
      (take (Z.to_nat (tx.(tx_RequestBodyLimit) - tx.(tx_requestBodyBuffer).(bb_length))) b) = (br, w, None) ∧
    good ((withSingle V.InboundDataError (str "1") tx) <| tx_requestBodyBuffer := br |>) ∧
    contents br = take (Z.to_nat tx.(tx_RequestBodyLimit)) (contents tx.(tx_requestBodyBuffer) ++ b).
Proof.
  intros Hg Hfit. pose proof (good_request _ Hg) as Hwf. pose proof (wf_length _ Hwf) as Hlen.
  rewrite <- (good_request_limit _ Hg) in *. set (buf := tx_requestBodyBuffer tx) in *.
  assert (bb_length buf + Z.of_nat (length (take (Z.to_nat (Limit (options buf) - bb_length buf)) b))
    <= Limit (options buf)) as Hle by (rewrite length_take; lia).
  destruct (Write_grows true buf _ Hwf ltac:(by left) Hle) as (br & -> & Hgr).
  assert (wf_buffer br) as Hwf' by (eapply wf_grown; [exact Hwf|exact Hgr|done]).
  do 2 eexists. split; [reflexivity|]. split.
  - pose proof (follows_withSingle tx V.InboundDataError (str "1") Hg) as H1.
    exact (fo_good _ _ (follows_request_write _ _ br H1 Hwf' (gr_options _ _ _ Hgr))).
  - rewrite (gr_contents _ _ _ Hgr), take_app, (take_ge (contents buf)) by lia. do 2 f_equal. lia.
Qed.

(** C34: a write of request data keeps what fits: with partial processing the
    buffer holds the data received so far up to the limit; with rejection it
    holds all of the data or, when the limit is reached, only what it held
    before, and the transaction is interrupted with status 413, also when the
    engine only detects. *)
Theorem WriteRequestBody_stores registry waf b tx :
  sound_waf waf → sound_registry registry → good tx →
  tx.(tx_RuleEngine) ≠ RuleEngineOff → tx.(tx_RequestBodyAccess) = true →
  tx.(tx_requestBodyBuffer).(bb_length) + Z.of_nat (length b) < maxInt64 →
  let old := contents tx.(tx_requestBodyBuffer) in
  let limit := tx.(tx_RequestBodyLimit) in
  ∃ tx' res, WriteRequestBody true registry waf fsOK b tx = Done (tx', res) ∧
    match waf.(w_RequestBodyLimitAction) with
    | BodyLimitActionProcessPartial =>
        contents tx'.(tx_requestBodyBuffer) = take (Z.to_nat limit) (old ++ b)
    | BodyLimitActionReject =>
        if limit <=? Z.of_nat (length (old ++ b)) then
          contents tx'.(tx_requestBodyBuffer) = old ∧
          (limit ≠ Z.of_nat (length old) →
             tx'.(tx_interruption) = Some (mkInterruption 0 (str "deny") 413 []))
        else contents tx'.(tx_requestBodyBuffer) = old ++ b
    end.
Proof.
  intros [Hs Hl] Hreg Hg He Ha Hmax old limit.
  pose proof (good_request _ Hg) as Hwf. pose proof (wf_length _ Hwf) as Hlen. fold old in Hlen.
  pose proof (wf_limit _ Hwf) as Hlim. rewrite (good_request_limit _ Hg) in Hlim. fold limit in Hlim.
  unfold WriteRequestBody. unfold IsRuleEngineOff. rewrite bool_decide_eq_false_2 by done.
  rewrite Ha. cbn [negb]. cbv zeta. fold limit. rewrite length_app, Nat2Z.inj_add.
  set (buf := tx_requestBodyBuffer tx) in *.
  assert (buf.(options).(Limit) = limit) as HL by exact (good_request_limit _ Hg).
  destruct (Z.eqb_spec limit buf.(bb_length)) as [Hfull|Hfull].
  { do 2 eexists. split; [reflexivity|]. destruct (w_RequestBodyLimitAction waf).
    - rewrite take_app_le, take_ge by lia. done.
    - replace (_ <=? _) with true by lia. split; [done|lia]. }
  replace (_ >=? maxInt64 - _) with false by lia. rewrite i64_id by (unfold in_i64, maxInt64 in *; lia).
  destruct (_ >=? limit) eqn:Eover.
  - replace (limit <=? _) with true by lia.
    destruct (w_RequestBodyLimitAction waf).
    + change (tx_RequestBodyLimit (withSingle _ _ tx)) with limit.
      rewrite i64_id by (unfold in_i64, maxInt64 in *; lia).
      destruct (_ <? 0) eqn:Eneg; [lia|]. rewrite slice_prefix by lia. run_simpl.
      destruct (partial_write b tx Hg) as (br & w & Hw & H2 & Hc); [fold buf limit; lia|].
      fold buf limit in Hw. rewrite Hw.
      destruct (wp_elim _ _ (ProcessRequestBody_follows registry waf Hs Hl Hreg _ H2))
        as ([tx3 it] & -> & [_ Hb]). run_simpl. do 2 eexists. split; [reflexivity|].
      injection Hb as -> _. exact Hc.
    + do 2 eexists. by split.
  - replace (limit <=? _) with false by lia.
    destruct (_ <? 0) eqn:Eneg; [lia|]. rewrite Nat2Z.id, slice_prefix, (take_ge b) by lia. run_simpl.
    destruct (Write_grows true buf b Hwf ltac:(by left)) as (br & -> & Hgr);
      [rewrite HL; lia|].
    do 2 eexists. split; [reflexivity|]. cbn [tx_requestBodyBuffer setf].
    rewrite (gr_contents _ _ _ Hgr). fold old.
    destruct (w_RequestBodyLimitAction waf); [|done]. rewrite take_ge; [done|]. rewrite length_app. lia.
Qed.

(** C40: When the limit is lowered below what is buffered, which ctl can do, a
    partial write slices with a negative bound and panics. *)
Theorem WriteRequestBody_panics registry waf fs b tx :
  tx.(tx_RuleEngine) ≠ RuleEngineOff → tx.(tx_RequestBodyAccess) = true →
  waf.(w_RequestBodyLimitAction) = BodyLimitActionProcessPartial →
  - 2 ^ 63 <= tx.(tx_RequestBodyLimit) - tx.(tx_requestBodyBuffer).(bb_length) < 0 →
  0 <= tx.(tx_requestBodyBuffer).(bb_length) →
  tx.(tx_requestBodyBuffer).(bb_length) + Z.of_nat (length b) < maxInt64 →
  WriteRequestBody true registry waf fs b tx = Panic.
Proof.
  intros He Ha Hw Hlim Hlen Hmax. unfold WriteRequestBody. unfold IsRuleEngineOff.
  rewrite bool_decide_eq_false_2 by done. rewrite Ha, Hw. cbn [negb]. cbv zeta.
  replace (_ =? _) with false by lia. replace (_ >=? maxInt64 - _) with false by lia.
  rewrite i64_id by (unfold in_i64, maxInt64 in *; lia). replace (_ >=? _) with true by lia.
  change (tx_RequestBodyLimit (withSingle _ _ tx)) with (tx_RequestBodyLimit tx).
  rewrite i64_id by (unfold in_i64, maxInt64 in *; lia).
  by replace (_ <? 0) with true by lia.
Qed.
End lifecycle.

(** ** Witnesses *)

Definition exampleWAF (action : BodyLimitAction) : WAF :=
  mkWAF [denyRule] RuleEngineOn 100 true 1024 action None true 1024 action [] AuditEngineOff [] [] None
    1024 UploadKeepFilesOff [] [] 0.

Definition openTransaction : Transaction := evilTransaction <| tx_RequestBodyAccess := true |>.

Definition exampleURI (uri : bytes) : bytes + URL := inr (mkURL uri [] uri).

Lemma exampleWAF_sound action : sound_waf (exampleWAF action).
Proof.
  split; [apply denyGroup_sound|]. apply Forall_cons_2; [|apply Forall_nil_2].
  by apply Forall_cons_2; [|apply Forall_nil_2].
Qed.

Definition exampleRegistry : gmap bytes BodyProcessor := @processors latin1 listOrder.

Lemma exampleRegistry_sound : sound_registry exampleRegistry.
Proof. apply processors_sound. Qed.

Lemma openTransaction_good : good openTransaction.
Proof. split; try done; by apply wf_NewBodyBuffer. Qed.

Definition exampleCalls : list call :=
  [CResponseBody; CURI (str "/a") (str "GET") (str "HTTP/1.1"); CRequestHeaders; CRequestHeaders;
   CWriteRequestBody fsOK (str "a=1"); CRequestBody; CLogging; CResponseHeaders 200 (str "HTTP/1.1"); CLogging].

Lemma exampleCalls_wf : Forall wf_call exampleCalls.
Proof. repeat (apply Forall_cons_2; [by vm_compute|]). apply Forall_nil_2. Qed.

Lemma calls_refine_witness :
  ∃ tx', foldM (λ tx c, @exec latin1 listOrder exampleURI exampleRegistry
                          (exampleWAF BodyLimitActionReject) c tx) exampleCalls openTransaction = Done tx' ∧
    rtc phase_step (view openTransaction) (view tx').
Proof.
  destruct (@calls_refine latin1 listOrder exampleURI exampleRegistry (exampleWAF BodyLimitActionReject)
    exampleCalls openTransaction (exampleWAF_sound _) exampleRegistry_sound
    (good_sane _ openTransaction_good) exampleCalls_wf)
    as (tx' & HE & Hst & _). exists tx'. split; assumption.
Defined.

Definition deniedTransaction : Transaction :=
  openTransaction <| tx_interruption := Some (mkInterruption 1 (str "deny") 403 []) |>.

Lemma calls_interrupted_witness :
  ∃ tx', foldM (λ tx c, @exec latin1 listOrder exampleURI exampleRegistry
                          (exampleWAF BodyLimitActionReject) c tx) exampleCalls deniedTransaction = Done tx' ∧
    IsInterrupted tx' = true ∧ ∃ k, tx'.(tx_stopWatches) = [] ++ replicate k PhaseLogging.
Proof.
  apply (@calls_interrupted latin1 listOrder exampleURI exampleRegistry (exampleWAF BodyLimitActionReject)
    exampleCalls deniedTransaction (exampleWAF_sound _) exampleRegistry_sound);
    [apply good_sane|reflexivity|apply exampleCalls_wf].
  split; try done; by apply wf_NewBodyBuffer.
Defined.

Lemma exec_off_witness :
  let tx := openTransaction <| tx_RuleEngine := RuleEngineOff |> in
  @exec latin1 listOrder exampleURI exampleRegistry (exampleWAF BodyLimitActionReject) CRequestHeaders tx = Done tx.
Proof.
  apply (@exec_off latin1 listOrder exampleURI exampleRegistry (exampleWAF BodyLimitActionReject) CRequestHeaders
    (openTransaction <| tx_RuleEngine := RuleEngineOff |>)); done.
Defined.

Lemma WriteRequestBody_stores_witness :
  ∃ tx' res, @WriteRequestBody latin1 listOrder true exampleRegistry (exampleWAF BodyLimitActionReject) fsOK
      (replicate 1024 0x61) openTransaction = Done (tx', res) ∧
    contents tx'.(tx_requestBodyBuffer) = [].
Proof.
  destruct (@WriteRequestBody_stores latin1 listOrder exampleRegistry (exampleWAF BodyLimitActionReject)
    (replicate 1024 0x61) openTransaction (exampleWAF_sound _) exampleRegistry_sound openTransaction_good)
    as (tx' & res & HE & H); [done|done|by vm_compute|].
  exists tx', res. split; [exact HE|]. cbn [exampleWAF w_RequestBodyLimitAction] in H.
  assert (tx_RequestBodyLimit openTransaction <=? Z.of_nat (length (contents
    (tx_requestBodyBuffer openTransaction) ++ replicate 1024 0x61)) = true) as E by (vm_compute; reflexivity).
  rewrite E in H. exact (proj1 H).
Defined.

Lemma WriteRequestBody_panics_witness :
  let tx := openTransaction <| tx_RequestBodyLimit := -1 |> in
  @WriteRequestBody latin1 listOrder true exampleRegistry (exampleWAF BodyLimitActionProcessPartial) fsOK
    (str "a=1") tx = Panic.
Proof.
  apply (@WriteRequestBody_panics latin1 listOrder exampleRegistry (exampleWAF BodyLimitActionProcessPartial) fsOK
    (str "a=1") (openTransaction <| tx_RequestBodyLimit := -1 |>)); by vm_compute.
Defined.
