(* ===== verification/Waf.v ===== *)
(** The WAF and its pool of transactions: src/internal/corazawaf/waf.go
    ([NewWAF], [newTransaction], [Validate]) and [Close] and [setTimeVariables]
    of transaction.go.

    The time is an argument: the date and time of day of a timestamp in the local
    time zone, as package time computes them. *)

From S2P Require Import Prelude GoLib StringUtil UrlTransform Variables Types Collections.
From S2P Require Import Matchers TransactionCaches BodyBuffer TransactionState BodyProcessors Macro Rule Actions RuleGroup.
From S2P Require Import Engine Phases Lifecycle.

(** ** Settings *)

Definition gib : Z := 1073741824.

(** [DefaultRequestBodyJsonDepthLimit] *)
Definition defaultJsonDepthLimit : Z := 1024.
Definition defaultHighestSeverity : Z := 255.

(** [os.TempDir()] is an argument; the log writers are left out. *)
Definition NewWAF (HasAccessToFS : bool) (tempDir : bytes) : WAF :=
  mkWAF [] RuleEngineOn 1000 false 134217728 BodyLimitActionReject None
    false 524288 BodyLimitActionProcessPartial []
    AuditEngineOn [0x42; 0x43; 0x46; 0x48] (str "Native") None
    defaultJsonDepthLimit UploadKeepFilesOff [] (if HasAccessToFS then tempDir else []) 0.

(** Whether the settings are accepted. *)
Definition Validate (HasAccessToFS : bool) (w : WAF) : bool :=
  if w.(w_RequestBodyLimit) <=? 0 then false
  else if w.(w_RequestBodyLimit) >? gib then false
  else if match w.(w_requestBodyInMemoryLimit) with
          | Some m => (m <=? 0) || (w.(w_RequestBodyLimit) <? m)
          | None => false
          end then false
  else if w.(w_ResponseBodyLimit) <=? 0 then false
  else if w.(w_ResponseBodyLimit) >? gib then false
  else if w.(w_ArgumentLimit) <=? 0 then false
  else if w.(w_RequestBodyJsonDepthLimit) <=? 0 then false
  else
    let keeps := negb (bool_decide (w.(w_UploadKeepFiles) = UploadKeepFilesOff)) in
    if HasAccessToFS then negb (keeps && (w.(w_UploadDir) =s [])) else negb keeps.

(** ** Time *)

Record DateTime := mkDateTime {
  dt_year : Z; dt_month : Z; dt_day : Z;
  dt_hour : Z; dt_minute : Z; dt_second : Z;
  (** Sunday is 0. *)
  dt_weekday : Z;
}.

(** Two digits. *)
Definition pad2 (n : Z) : bytes := [48 + n / 10; 48 + n mod 10].

(** [t.Format(time.TimeOnly)] *)
Definition timeOnly (dt : DateTime) : bytes :=
  pad2 dt.(dt_hour) ++ str ":" ++ pad2 dt.(dt_minute) ++ str ":" ++ pad2 dt.(dt_second).

Definition setTimeVariables (civil : Z → DateTime) (timestamp : Z) (tv : TransactionVariables)
    : TransactionVariables :=
  let dt := civil timestamp in
  let t := timeOnly dt in
  let tv := setSingle V.TimeEpoch (Itoa (timestamp / 1000000000)) tv in
  let tv := setSingle V.Time t tv in
  let tv := setSingle V.TimeHour (take 2 t) tv in
  let tv := setSingle V.TimeMin (take 2 (drop 3 t)) tv in
  let tv := setSingle V.TimeSec (take 2 (drop 6 t)) tv in
  let tv := setSingle V.TimeDay (Itoa dt.(dt_day)) tv in
  let tv := setSingle V.TimeMon (Itoa dt.(dt_month)) tv in
  let tv := setSingle V.TimeYear (Itoa dt.(dt_year)) tv in
  setSingle V.TimeWday (Itoa dt.(dt_weekday)) tv.

(** ** Transactions *)

Section pool.
Context `{U : !Unicode}.
Context (HasAccessToFS : bool).
Context (civil : Z → DateTime).

Definition requestBuffer (w : WAF) : BodyBuffer :=
  let requestBodyInMemoryLimit := default w.(w_RequestBodyLimit) w.(w_requestBodyInMemoryLimit) in
  NewBodyBuffer (mkOptions w.(w_TmpDir) requestBodyInMemoryLimit w.(w_RequestBodyLimit)).

Definition responseBuffer (w : WAF) : BodyBuffer :=
  NewBodyBuffer (mkOptions w.(w_TmpDir) w.(w_ResponseBodyLimit) w.(w_ResponseBodyLimit)).

(** The capture variables and the defaults. *)
Definition initVariables (id : bytes) (timestamp : Z) (tv : TransactionVariables) : TransactionVariables :=
  let tv := setMap V.TX (foldl (λ c i, Set_ c (Itoa i) [[]]) (mapOf tv V.TX) (seqZ 0 11)) tv in
  let tv := foldl (λ tv v, setSingle v (str "0") tv) tv
    [V.FilesCombinedSize; V.UrlencodedError; V.FullRequestLength; V.MultipartDataAfter;
     V.OutboundDataError; V.ReqbodyError; V.ReqbodyProcessorError; V.RequestBodyLength; V.Duration] in
  let tv := setSingle V.HighestSeverity (Itoa defaultHighestSeverity) tv in
  let tv := setSingle V.UniqueID id tv in
  setTimeVariables civil timestamp tv.

(** A transaction from the pool is a new one or one that was closed, with its
    buffers, variables and caches; the other fields are set. *)
Definition newTransaction (w : WAF) (id : bytes) (context timestamp : Z) (pooled : option Transaction) : Transaction :=
  let '(request, response, variables, caches) :=
    match pooled with
    | Some tx => (tx.(tx_requestBodyBuffer), tx.(tx_responseBodyBuffer), tx.(tx_variables), tx.(tx_caches))
    | None => (requestBuffer w, responseBuffer w, NewTransactionVariables, newCaches)
    end in
  mkTransaction id context [] None None [] [] AllowTypeUnset w.(w_AuditEngine) w.(w_AuditLogParts) w.(w_AuditLogFormat)
    false w.(w_RequestBodyAccess) w.(w_RequestBodyLimit) false w.(w_ResponseBodyAccess) w.(w_ResponseBodyLimit)
    w.(w_RuleEngine) false false 0 request response ∅ [] ∅ 0 false [] w.(w_debugLevel) timestamp false
    (initVariables id timestamp variables) caches.

(** The transaction that goes back to the pool, and the files that are removed. *)
Definition Close (w : WAF) (tx : Transaction) : Transaction * list bytes :=
  let keepFiles :=
    match w.(w_UploadKeepFiles) with
    | UploadKeepFilesOn => true
    | UploadKeepFilesRelevantOnly => hasLogRelevantMatchedRules tx
    | UploadKeepFilesOff => false
    end in
  let removed := if HasAccessToFS && negb keepFiles then Get (tmap tx V.FilesTmpNames) [] else [] in
  (tx <| tx_variables ::= resetVariables |>
      <| tx_caches ::= closeCaches |>
      <| tx_requestBodyBuffer ::= BodyBuffer.Reset HasAccessToFS |>
      <| tx_responseBodyBuffer ::= BodyBuffer.Reset HasAccessToFS |>, removed).
End pool.

(** ** A transaction from the pool starts like a new one *)

(** Variables that agree, but for those that [reset] leaves alone. *)
Definition same_vars (tv tv' : TransactionVariables) : Prop :=
  (∀ v, v ∉ notReset → singleOf tv v = singleOf tv' v) ∧ (∀ v, mapOf tv v = mapOf tv' v).

#[global] Instance same_vars_equiv : Equivalence same_vars.
Proof.
  split.
  - by intros tv.
  - intros tv tv' [Hs Hm]. by split; intros; symmetry; [apply Hs|apply Hm].
  - intros tv1 tv2 tv3 [Hs Hm] [Hs' Hm']. split; intros.
    + rewrite Hs by done. by apply Hs'.
    + rewrite Hm. apply Hm'.
Qed.

#[global] Instance setSingle_same v s : Proper (same_vars ==> same_vars) (setSingle v s).
Proof.
  intros tv tv' [Hs Hm]. split; intros w; autorewrite with coraza; [|apply Hm].
  intros Hw. case_decide; [done|by apply Hs].
Qed.

#[global] Instance setMap_same v c : Proper (same_vars ==> same_vars) (setMap v c).
Proof.
  intros tv tv' [Hs Hm]. split; intros w; autorewrite with coraza; [apply Hs|].
  case_decide; [done|apply Hm].
Qed.

Lemma foldl_setSingle_same s l tv tv' :
  same_vars tv tv' →
  same_vars (foldl (λ tv v, setSingle v s tv) tv l) (foldl (λ tv v, setSingle v s tv) tv' l).
Proof.
  revert tv tv'. induction l as [|v l IH]; intros tv tv' H; cbn [foldl]; [done|]. apply IH. by rewrite H.
Qed.

#[global] Instance setTimeVariables_same civil timestamp :
  Proper (same_vars ==> same_vars) (setTimeVariables civil timestamp).
Proof. intros tv tv' H. unfold setTimeVariables. cbv zeta. by rewrite H. Qed.

#[global] Instance initVariables_same `{U : Unicode} civil id timestamp :
  Proper (same_vars ==> same_vars) (initVariables civil id timestamp).
Proof.
  intros tv tv' H. unfold initVariables. cbv zeta.
  assert (mapOf tv V.TX = mapOf tv' V.TX) as -> by apply H.
  apply setTimeVariables_same, setSingle_same, setSingle_same, foldl_setSingle_same. by rewrite H.
Qed.

(** Variables of a transaction: values only for the fields there are, and maps
    as they were created. *)
Record wf_variables (tv : TransactionVariables) : Prop := {
  wf_singles v : v ∉ singleVars → singleOf tv v = [];
  wf_maps v : v ∈ mapVars → (mapOf tv v) <| data := ∅ |> = NewMap v;
  wf_no_maps v : v ∉ mapVars → mapOf tv v = NewMap v;
}.

Lemma resetOne_flags tv v w :
  (mapOf (resetOne tv v) w) <| data := ∅ |> = (mapOf tv w) <| data := ∅ |>.
Proof.
  unfold resetOne. repeat case_decide; autorewrite with coraza; try case_decide; by subst.
Qed.

Lemma foldl_resetOne_flags l : ∀ tv w,
  (mapOf (foldl resetOne tv l) w) <| data := ∅ |> = (mapOf tv w) <| data := ∅ |>.
Proof.
  induction l as [|v l IH]; intros tv w; cbn [foldl]; [done|]. by rewrite IH, resetOne_flags.
Qed.

Lemma foldl_resetOne_other l : ∀ tv w,
  w ∉ mapVars → mapOf (foldl resetOne tv l) w = mapOf tv w.
Proof.
  induction l as [|v l IH]; intros tv w Hw; cbn [foldl]; [done|]. rewrite IH by done.
  unfold resetOne. repeat case_decide; autorewrite with coraza; try case_decide; by subst.
Qed.

Lemma NewTransactionVariables_map v : mapOf NewTransactionVariables v = NewMap v.
Proof. by destruct v. Qed.

Lemma NewTransactionVariables_single v : singleOf NewTransactionVariables v = [].
Proof. by destruct v. Qed.

Lemma map_empty_eq (c d : Map) : c.(data) = ∅ → c <| data := ∅ |> = d → c = d.
Proof. destruct c. cbn. by intros ->. Qed.

Lemma resetVariables_new tv :
  wf_variables tv → same_vars (resetVariables tv) NewTransactionVariables.
Proof.
  intros Hwf. split; intros v.
  - intros Hn. rewrite NewTransactionVariables_single. destruct (decide (v ∈ singleVars)) as [Hv|Hv].
    + exact (proj1 (proj2 (resetVariables_all tv v)) Hv Hn).
    + change (resetVariables tv) with (foldl resetOne tv All). rewrite foldl_resetOne_single.
      case_decide; [done|]. exact (wf_singles _ Hwf v Hv).
  - rewrite NewTransactionVariables_map. destruct (decide (v ∈ mapVars)) as [Hv|Hv].
    + apply map_empty_eq; [exact (proj1 (resetVariables_all tv v) Hv)|].
      change (resetVariables tv) with (foldl resetOne tv All). rewrite foldl_resetOne_flags.
      exact (wf_maps _ Hwf v Hv).
    + change (resetVariables tv) with (foldl resetOne tv All). rewrite foldl_resetOne_other by exact Hv.
      exact (wf_no_maps _ Hwf v Hv).
Qed.

(** A buffer after its reset. *)
Lemma Reset_new br o : br.(options) = (NewBodyBuffer o).(options) →
  BodyBuffer.Reset true br = (NewBodyBuffer o) <| readers := (λ _, mkReader 0 false) <$> br.(readers) |>.
Proof. destruct br. cbn. by intros ->. Qed.

(** C7: a transaction of the WAF, with collections of their kinds, a byte-set cache
    of four entries and buffers with the options of the WAF, that was closed and
    comes back from the pool starts like a new one.  Every field is that of a new transaction but for: the four variables
    that [reset] leaves alone, the readers of its buffers, which are detached, and
    the memory of the buffer of matches, which holds none of the old matches and
    at most 256 places.  The caches of transformed values and of byte sets are
    empty. *)
Theorem newTransaction_reuse `{U : Unicode} (civil : Z → DateTime) (w : WAF) (tx : Transaction)
    (id : bytes) (context timestamp : Z) :
  wf_variables tx.(tx_variables) → length tx.(tx_caches).(presence).(bytePresenceCache) = 4%nat →
  tx.(tx_requestBodyBuffer).(options) = (requestBuffer w).(options) →
  tx.(tx_responseBodyBuffer).(options) = (responseBuffer w).(options) →
  let reused := newTransaction civil w id context timestamp (Some (Close true w tx).1) in
  let fresh := newTransaction civil w id context timestamp None in
  same_vars reused.(tx_variables) fresh.(tx_variables) ∧
  ∃ rq rs n, Forall (λ r, r.(r_open) = false) (rq ++ rs) ∧ (n ≤ maxRetainedFieldMatches)%nat ∧
    reused <| tx_variables := fresh.(tx_variables) |> =
      fresh <| tx_requestBodyBuffer ::= (λ b, b <| readers := rq |>) |>
            <| tx_responseBodyBuffer ::= (λ b, b <| readers := rs |>) |>
            <| tx_caches ::= (λ c, c <| fieldMatches := mkMatchBuffer (replicate n zeroMatch) 0 |>) |>.
Proof.
  intros Hwf Hp Hrq Hrs. cbv zeta. split.
  - unfold newTransaction. cbn [tx_variables Close fst setf]. by rewrite resetVariables_new.
  - destruct (closeCaches_new _ Hp) as (n & Hn & Hcl).
    assert (tx_caches (Close true w tx).1 = newCaches <| fieldMatches := mkMatchBuffer (replicate n zeroMatch) 0 |>) as E1
      by exact Hcl.
    assert (tx_requestBodyBuffer (Close true w tx).1 =
      (requestBuffer w) <| readers := (λ _, mkReader 0 false) <$> readers (tx_requestBodyBuffer tx) |>) as E2
      by (cbn; by apply Reset_new).
    assert (tx_responseBodyBuffer (Close true w tx).1 =
      (responseBuffer w) <| readers := (λ _, mkReader 0 false) <$> readers (tx_responseBodyBuffer tx) |>) as E3
      by (cbn; by apply Reset_new).
    exists ((λ _, mkReader 0 false) <$> readers (tx_requestBodyBuffer tx)),
      ((λ _, mkReader 0 false) <$> readers (tx_responseBodyBuffer tx)), n. split; [|split; [exact Hn|]].
    2: { generalize dependent (Close true w tx).1. intros cl E1 E2 E3. unfold newTransaction. rewrite E1, E2, E3. reflexivity. }
    apply Forall_app. split; by apply Forall_fmap, Forall_true.
Qed.

Lemma NewTransactionVariables_wf : wf_variables NewTransactionVariables.
Proof.
  split; intros v _; [apply NewTransactionVariables_single|by rewrite NewTransactionVariables_map|].
  apply NewTransactionVariables_map.
Qed.

Definition noon (timestamp : Z) : DateTime := mkDateTime 2024 2 29 12 0 0 4.

(** A transaction that has left something everywhere. *)
Definition usedTransaction : Transaction :=
  (withSingle V.RequestURI (str "/old") emptyTransaction)
    <| tx_Logdata := str "old" |>
    <| tx_caches := mkCaches {[ mkKey 64 3 V.Args 1 false := mkValue (str "old") (str "OLD") [] true ]} (mkStepCache ∅ 7)
         (mkMatchBuffer [mkMatch V.Args (str "a") (str "old")] 1)
         (mkPresenceCache (replicate 4 (mkPresence (mkGo 64 (str "old")) noBits)) 3) |>.

Lemma newTransaction_reuse_witness :
  let w := exampleWAF BodyLimitActionReject in
  let reused := newTransaction (U := latin1) noon w (str "id2") 1 0 (Some (Close (U := latin1) true w usedTransaction).1) in
  same_vars reused.(tx_variables) (newTransaction (U := latin1) noon w (str "id2") 1 0 None).(tx_variables) ∧
  reused.(tx_caches).(transformationCache) = ∅.
Proof.
  destruct (newTransaction_reuse (U := latin1) noon (exampleWAF BodyLimitActionReject) usedTransaction (str "id2") 1 0)
    as [Hv (rq & rs & n & _ & _ & H)]; [|reflexivity|reflexivity|reflexivity|].
  - split; intros v Hv; cbn [usedTransaction tx_variables withSingle setf]; autorewrite with coraza.
    + case_decide; [|apply NewTransactionVariables_single]. subst. destruct Hv. apply (bool_decide_eq_true_1 _).
      by vm_compute.
    + exact (wf_maps _ NewTransactionVariables_wf v Hv).
    + exact (wf_no_maps _ NewTransactionVariables_wf v Hv).
  - split; [exact Hv|]. exact (f_equal (λ t, t.(tx_caches).(transformationCache)) H).
Defined.

(** ** Serving a request *)

(** What the pool may hold: transactions of this WAF that were closed. *)
Definition reusable `{U : Unicode} (w : WAF) (pooled : option Transaction) : Prop :=
  match pooled with
  | None => True
  | Some tx => ∃ tx0, tx = (Close true w tx0).1 ∧
      tx0.(tx_requestBodyBuffer).(options) = (requestBuffer w).(options) ∧
      tx0.(tx_responseBodyBuffer).(options) = (responseBuffer w).(options)
  end.

Lemma reset_wf br : 0 <= br.(options).(Limit) <= maxInt64 → wf_buffer (BodyBuffer.Reset true br).
Proof.
  intros Hl. split; [done|cbn; lia|done|]. cbn. apply Forall_fmap, Forall_true. cbn. lia.
Qed.

Lemma newTransaction_good `{U : Unicode} civil w id context timestamp pooled :
  Validate true w = true → reusable w pooled →
  good (newTransaction civil w id context timestamp pooled) ∧ view (newTransaction civil w id context timestamp pooled) = (0, []).
Proof.
  intros Hv Hp. unfold Validate in Hv. split; [|by destruct pooled].
  assert (0 <= w.(w_RequestBodyLimit) <= maxInt64 ∧ 0 <= w.(w_ResponseBodyLimit) <= maxInt64) as [H1 H2].
  { unfold maxInt64, gib in *. repeat (case_match; [done|]). lia. }
  destruct pooled as [tx|].
  - destruct Hp as (tx0 & -> & Ho1 & Ho2).
    split; cbn; rewrite ?Ho1, ?Ho2; try done; apply reset_wf; by rewrite ?Ho1, ?Ho2.
  - split; try done; by apply wf_NewBodyBuffer.
Qed.

(** C1: for a WAF with valid settings and rules that are sound and leave the body
    limits alone, with body processors that return, on a transaction that is new
    or taken from the pool, whatever a connector calls, in whatever order, and
    whatever file operations fail meanwhile: every call returns; the phases are
    evaluated in order, phases 1 to 4 at most once each, and nothing but logging
    after logging; and the bodies never exceed the limits of the transaction. *)
Theorem transaction_in_order `{U : Unicode, O : !MapOrder} (ParseRequestURI : bytes → bytes + URL)
    registry (w : WAF) (civil : Z → DateTime) (id : bytes) (context timestamp : Z) (pooled : option Transaction) cs :
  Validate true w = true → sound_waf w → sound_registry registry → reusable w pooled → Forall wf_call cs →
  ∃ tx', foldM (λ tx c, exec ParseRequestURI registry w c tx) cs (newTransaction civil w id context timestamp pooled)
           = Done tx' ∧
    in_order (view tx') ∧
    Z.of_nat (length (contents tx'.(tx_requestBodyBuffer))) <= tx'.(tx_RequestBodyLimit) ∧
    Z.of_nat (length (contents tx'.(tx_responseBodyBuffer))) <= tx'.(tx_ResponseBodyLimit).
Proof.
  intros Hv [Hs Hl] Hreg Hp Hcs. destruct (newTransaction_good civil w id context timestamp pooled Hv Hp) as [Hg H0].
  destruct (wp_elim _ _ (calls_follow registry w Hs Hl Hreg ParseRequestURI cs _ (good_sane _ Hg) Hcs (allowed_any cs)))
    as (tx' & HE & [[G1 G2 G3 G4] Hst _]). exists tx'. split; [done|]. split.
  - apply phase_steps_in_order. by rewrite <- H0.
  - rewrite <- G3, <- G4. destruct G1, G2. lia.
Qed.

Lemma transaction_in_order_witness :
  ∃ tx', foldM (λ tx c, @exec latin1 listOrder exampleURI exampleRegistry
                          (exampleWAF BodyLimitActionProcessPartial) c tx) exampleCalls
           (newTransaction (U := latin1) noon (exampleWAF BodyLimitActionProcessPartial) (str "id") 1 0 None)
           = Done tx' ∧ in_order (view tx').
Proof.
  destruct (@transaction_in_order latin1 listOrder exampleURI exampleRegistry
    (exampleWAF BodyLimitActionProcessPartial) noon (str "id") 1 0 None exampleCalls
    eq_refl (exampleWAF_sound _) exampleRegistry_sound I exampleCalls_wf) as (tx' & HE & H & _).
  exists tx'. split; assumption.
Defined.
