(* ===== verification/DetectionOnly.v ===== *)
(** Detection-only mode.  A WAF that only detects never interrupts a transaction,
    whatever a connector calls: the rules do not, and the limits of the bodies do
    not when they are processed in part, which src/waf.go sees to.  The results
    are about the operations of [Phases] and the calls of [Lifecycle]. *)

From S2P Require Import Prelude GoLib StringUtil UrlTransform Variables Types Collections.
From S2P Require Import BodyBuffer TransactionState BodyProcessors Macro Rule Actions RuleGroup.
From S2P Require Import Engine Phases Lifecycle Waf.

(** ** Results when there is one *)

Definition when {A} (m : run A) (Q : A → Prop) : Prop := match m with Done a => Q a | _ => True end.

Lemma when_bind {A B} (m : run A) (k : A → run B) R Q :
  when m R → (∀ a, R a → when (k a) Q) → when (m ≫= k) Q.
Proof. destruct m; cbn; auto. Qed.

Lemma when_any {A} (m : run A) : when m (λ _, True).
Proof. by destruct m. Qed.

Lemma when_wp {A} (m : run A) Q : wp m Q → when m Q.
Proof. by destruct m. Qed.

Lemma when_foldM {A S} (f : S → A → run S) (P : S → Prop) l : ∀ s,
  (∀ s x, P s → when (f s x) P) → P s → when (foldM f l s) P.
Proof.
  induction l as [|x l IH]; intros s Hf Hs; [done|]. cbn [foldM]. eapply when_bind; [by apply Hf|]. intros s' Hs'. by apply IH.
Qed.

(** A branch that returns at once. *)
Ltac skip_if := match goal with |- when (if ?b then _ else _) _ => destruct b; [done|] end.

(** ** The mode *)

(** The engine only detects, and the transaction is not interrupted. *)
Definition detects (tx : Transaction) : Prop :=
  tx.(tx_RuleEngine) = RuleEngineDetectionOnly ∧ tx.(tx_interruption) = None.

Section detection.
Context `{U : !Unicode, O : !MapOrder}.
Context (ParseRequestURI : bytes → bytes + URL) (registry : gmap bytes BodyProcessor) (waf : WAF).

(** The rules are sound and no action changes the mode. *)
Context (Hsound : Forall sound_chained waf.(w_Rules)).
Context (Hengine : Forall (λ c, Forall (λ a, setsEngine a = false) (allActions c)) waf.(w_Rules)).
(** Bodies over the limit are processed in part. *)
Context (Hrequest : waf.(w_RequestBodyLimitAction) = BodyLimitActionProcessPartial).
Context (Hresponse : waf.(w_ResponseBodyLimitAction) = BodyLimitActionProcessPartial).

Lemma evalPhase_detects p tx : detects tx → when (evalPhase waf p tx) detects.
Proof.
  intros [He Hi]. unfold evalPhase. eapply when_bind.
  - apply when_wp, (Eval_onlyDetects waf.(w_Rules) p tx); [done|done|by rewrite He|done].
  - intros res (tx1 & [H1 H2] & ->). cbn [when]. unfold detects, closePhase, endPhase. rewrite He in H1. by case_decide.
Qed.

(** An operation that evaluates a phase at its end. *)
Lemma phase_detects {A} p tx (f : Transaction → A) :
  detects tx → when (tx ← evalPhase waf p tx; Done (tx, f tx)) (λ res, detects res.1).
Proof. intros H. eapply when_bind; [by apply evalPhase_detects|]. by intros tx1 H1. Qed.

Lemma ProcessRequestHeaders_detects tx : detects tx → when (ProcessRequestHeaders waf tx) (λ res, detects res.1).
Proof.
  intros H. unfold ProcessRequestHeaders. repeat skip_if. by apply phase_detects.
Qed.

Lemma ProcessResponseHeaders_detects code proto tx :
  detects tx → when (ProcessResponseHeaders waf code proto tx) (λ res, detects res.1).
Proof.
  intros H. unfold ProcessResponseHeaders. repeat skip_if. by apply phase_detects.
Qed.

Lemma ProcessRequestBody_detects tx : detects tx → when (ProcessRequestBody true registry waf tx) (λ res, detects res.1).
Proof.
  intros H. unfold ProcessRequestBody. do 3 skip_if. eapply when_bind with (R := detects).
  - destruct (_ || _); [done|]. cbv zeta. destruct (Reader _) as [br reader].
    match goal with |- when (let '(_, _) := ?p in _) _ => assert (detects p.2) as Hp by (by case_match); destruct p as [rbp tx1] end.
    destruct (_ =s _); [done|]. destruct (GetBodyProcessor _ _) as [bp|]; [|done].
    eapply when_bind; [apply when_any|]. intros [br2 body] _. eapply when_bind; [apply when_any|]. intros [v [e|]] _; done.
  - intros tx1 H1. by apply phase_detects.
Qed.

Lemma ProcessResponseBody_detects tx : detects tx → when (ProcessResponseBody true registry waf tx) (λ res, detects res.1.1).
Proof.
  intros H. unfold ProcessResponseBody. do 3 skip_if. eapply when_bind with (R := λ res, detects res.1).
  - destruct (_ || _); [done|]. cbv zeta. destruct (Reader _) as [br reader]. destruct (negb _).
    + destruct (GetBodyProcessor _ _) as [bp|]; [|done].
      eapply when_bind; [apply when_any|]. intros [br2 body] _. eapply when_bind; [apply when_any|]. intros [v [e|]] _; done.
    + eapply when_bind; [apply when_any|]. intros [br2 body] _. done.
  - intros [tx1 err] H1. eapply when_bind; [by apply evalPhase_detects|]. by intros tx2 H2.
Qed.

Lemma WriteRequestBody_detects io b tx : detects tx → when (WriteRequestBody true registry waf io b tx) (λ res, detects res.1).
Proof.
  intros H. unfold WriteRequestBody. rewrite Hrequest. do 2 skip_if. cbv zeta. do 2 skip_if.
  destruct (_ >=? _); (destruct (_ <? 0); [done|]); (eapply when_bind; [apply when_any|]); intros chunk _;
    destruct (Write _ _ _ _) as [[buf w] [e|]]; try done.
  eapply when_bind; [by apply ProcessRequestBody_detects|]. by intros [tx1 it] H1.
Qed.

Lemma WriteResponseBody_detects io b tx : detects tx → when (WriteResponseBody true registry waf io b tx) (λ res, detects res.1).
Proof.
  intros H. unfold WriteResponseBody. rewrite Hresponse. do 2 skip_if. cbv zeta. skip_if.
  destruct (_ >=? _); (destruct (_ <? 0); [done|]); (eapply when_bind; [apply when_any|]); intros chunk _;
    destruct (Write _ _ _ _) as [[buf w] [e|]]; try done.
  eapply when_bind; [by apply ProcessResponseBody_detects|]. by intros [[tx1 it] err] H1.
Qed.

Lemma finishRequestBody_detects partial w tx : detects tx → when (finishRequestBody true registry waf partial w tx) (λ res, detects res.1).
Proof.
  intros H. unfold finishRequestBody. rewrite Hrequest. cbv zeta. destruct (_ =? _), partial; cbn [orb]; try done;
    (eapply when_bind; [by apply ProcessRequestBody_detects|]; by intros [tx1 it] H1).
Qed.

Lemma finishResponseBody_detects partial w tx : detects tx → when (finishResponseBody true registry waf partial w tx) (λ res, detects res.1).
Proof.
  intros H. unfold finishResponseBody. rewrite Hresponse. cbv zeta. destruct (_ =? _), partial; cbn [orb]; try done;
    (eapply when_bind; [by apply ProcessResponseBody_detects|]; by intros [[tx1 it] err] H1).
Qed.

Lemma ReadRequestBodyFrom_detects io r tx : detects tx → when (ReadRequestBodyFrom true registry waf io r tx) (λ res, detects res.1).
Proof.
  intros H. unfold ReadRequestBodyFrom. rewrite Hrequest. do 2 skip_if. cbv zeta. destruct (_ =? _); [done|].
  assert (∀ n partial tx1, detects tx1 →
    when ('(buf, w, err) ← CopyN true io r (tx_requestBodyBuffer tx) n;
      match err with
      | Some e => Done (tx1 <| tx_requestBodyBuffer := buf |>, (None, w, Some e))
      | None => finishRequestBody true registry waf partial w (tx1 <| tx_requestBodyBuffer := buf |>)
      end) (λ res, detects res.1)) as Hcopy.
  { intros n partial tx1 H1. eapply when_bind; [apply when_any|]. intros [[buf w] [e|]] _; [done|]. by apply finishRequestBody_detects. }
  destruct (io_len r); [|by apply Hcopy]. do 2 (destruct (_ >=? _); [try done; by apply Hcopy|]). by apply Hcopy.
Qed.

Lemma ReadResponseBodyFrom_detects io r tx : detects tx → when (ReadResponseBodyFrom true registry waf io r tx) (λ res, detects res.1).
Proof.
  intros H. unfold ReadResponseBodyFrom. rewrite Hresponse. do 2 skip_if. cbv zeta. destruct (_ =? _); [done|].
  assert (∀ n partial tx1, detects tx1 →
    when ('(buf, w, err) ← CopyN true io r (tx_responseBodyBuffer tx) n;
      match err with
      | Some e => Done (tx1 <| tx_responseBodyBuffer := buf |>, (None, w, Some e))
      | None => finishResponseBody true registry waf partial w (tx1 <| tx_responseBodyBuffer := buf |>)
      end) (λ res, detects res.1)) as Hcopy.
  { intros n partial tx1 H1. eapply when_bind; [apply when_any|]. intros [[buf w] [e|]] _; [done|]. by apply finishResponseBody_detects. }
  destruct (io_len r); [|by apply Hcopy]. destruct (_ >=? _); by apply Hcopy.
Qed.

Lemma rewrites_detects tx tx' : detects tx → rewrites tx tx' → detects tx'.
Proof. intros H [tv ->]. exact H. Qed.

Lemma exec_detects c tx : detects tx → when (exec ParseRequestURI registry waf c tx) detects.
Proof.
  intros H. assert (∀ {A} (m : run (Transaction * A)), when m (λ res, detects res.1) → when ('(tx, _) ← m; Done tx) detects) as Hfst.
  { intros A m Hm. eapply when_bind; [exact Hm|]. by intros [tx1 a] H1. }
  destruct c; cbn [exec].
  - exact H.
  - apply when_wp. eapply wp_mono; [apply ProcessURI_rewrites|]. intros tx'. by apply rewrites_detects.
  - exact H.
  - apply when_wp. eapply wp_mono; [apply AddRequestHeader_rewrites|]. intros tx'. by apply rewrites_detects.
  - cbn [when]. unfold AddGetRequestArgument. by destruct (checkArgumentLimit _ _).
  - cbn [when]. unfold AddPostRequestArgument. by destruct (checkArgumentLimit _ _).
  - cbn [when]. unfold AddPathRequestArgument. by destruct (checkArgumentLimit _ _).
  - cbn [when]. unfold AddResponseArgument. by case_match.
  - by apply Hfst, ProcessRequestHeaders_detects.
  - by apply Hfst, WriteRequestBody_detects.
  - by apply Hfst, ReadRequestBodyFrom_detects.
  - by apply Hfst, ProcessRequestBody_detects.
  - cbn [when]. by destruct (AddResponseHeader_variables key value tx) as [f ->].
  - by apply Hfst, ProcessResponseHeaders_detects.
  - by apply Hfst, WriteResponseBody_detects.
  - by apply Hfst, ReadResponseBodyFrom_detects.
  - eapply when_bind; [by apply ProcessResponseBody_detects|]. by intros [[tx1 it] err] H1.
  - apply Hfst. unfold ProcessLogging. destruct (negb _); [by apply phase_detects|done].
Qed.

Lemma calls_detect cs tx : detects tx → when (foldM (λ tx c, exec ParseRequestURI registry waf c tx) cs tx) detects.
Proof. apply when_foldM. intros tx1 c. apply exec_detects. Qed.
End detection.
