(* ===== verification/AuditLog.v ===== *)
(** The audit log: [AuditLog] and [auditLogCollectFiles] of
    src/internal/corazawaf/transaction.go, the records of
    src/internal/auditlog/auditlog.go and legacy.go, and the formatters of
    formats.go and formats_json.go.

    The clock, the text of the stop watches, [mime.TypeByExtension], the random
    boundary and [json.Marshal] are parameters.  The theorems show that a record
    holds what its parts ask for and nothing else, which messages it has, and
    that the native format can be taken apart again. *)

From S2P Require Import Prelude GoLib StringUtil UrlTransform Variables Types Collections.
From S2P Require Import BodyBuffer TransactionState MatchLog BodyProcessors Macro Rule Actions RuleGroup.
From S2P Require Import Engine Phases Lifecycle.

(** ** Records *)

Record TransactionRequestFiles := mkFile { rf_Size : Z; rf_Name : bytes; rf_Mime : bytes }.

Record TransactionRequest := mkRequest {
  rq_Method : bytes;
  rq_URI : bytes;
  rq_Protocol : bytes;
  rq_HTTPVersion : bytes;
  rq_Args : list Map;
  rq_Length : Z;
  rq_Headers : gmap bytes (list bytes);
  rq_Body : bytes;
  rq_Files : list TransactionRequestFiles;
}.
#[global] Instance TransactionRequest_eta : Eta TransactionRequest := λ x,
  mkRequest x.(rq_Method) x.(rq_URI) x.(rq_Protocol) x.(rq_HTTPVersion) x.(rq_Args) x.(rq_Length) x.(rq_Headers) x.(rq_Body)
    x.(rq_Files).

Record TransactionResponse := mkResponse {
  rs_Protocol : bytes;
  rs_Status : Z;
  rs_Headers : gmap bytes (list bytes);
  rs_Body : bytes;
}.
#[global] Instance TransactionResponse_eta : Eta TransactionResponse := λ x,
  mkResponse x.(rs_Protocol) x.(rs_Status) x.(rs_Headers) x.(rs_Body).

Record TransactionProducer := mkProducer {
  tp_Connector : bytes;
  tp_Version : bytes;
  tp_Server : bytes;
  tp_RuleEngine : bytes;
  tp_Stopwatch : bytes;
  tp_Rulesets : list bytes;
}.

(** [auditlog.Transaction] *)
Record LogTransaction := mkLogTransaction {
  lt_Timestamp : bytes;
  lt_UnixTimestamp : Z;
  lt_ID : bytes;
  lt_ClientIP : bytes;
  lt_ClientPort : Z;
  lt_HostIP : bytes;
  lt_HostPort : Z;
  lt_ServerID : bytes;
  lt_Request : TransactionRequest;
  lt_Response : option TransactionResponse;
  lt_Producer : option TransactionProducer;
  lt_IsInterrupted : bool;
}.
#[global] Instance LogTransaction_eta : Eta LogTransaction := λ x,
  mkLogTransaction x.(lt_Timestamp) x.(lt_UnixTimestamp) x.(lt_ID) x.(lt_ClientIP) x.(lt_ClientPort) x.(lt_HostIP) x.(lt_HostPort)
    x.(lt_ServerID) x.(lt_Request) x.(lt_Response) x.(lt_Producer) x.(lt_IsInterrupted).

Record LogMessageData := mkMessageData {
  d_File : bytes;
  d_Line : Z;
  d_ID : Z;
  d_Rev : bytes;
  d_Msg : bytes;
  d_Data : bytes;
  d_Severity : Z;
  d_Ver : bytes;
  d_Maturity : Z;
  d_Accuracy : Z;
  d_Tags : list bytes;
  d_Raw : bytes;
}.

Record LogMessage := mkMessage {
  m_Actionset : bytes;
  m_Message : bytes;
  m_ErrorMessage : bytes;
  m_Data : option LogMessageData;
}.

Record Log := mkLog {
  l_Parts : AuditLogParts;
  l_Transaction : LogTransaction;
  l_Messages : list LogMessage;
}.
#[global] Instance Log_eta : Eta Log := λ x, mkLog x.(l_Parts) x.(l_Transaction) x.(l_Messages).

(** What the WAF and the clock give: the connector, the components, the format of
    the time stamp, the text of the stop watches and the media type of a file
    extension. *)
Class LogSource := {
  ProducerConnector : bytes;
  ProducerConnectorVersion : bytes;
  ComponentNames : list bytes;
  FormatTime : Z → bytes;
  Stopwatch : bytes;
  TypeByExtension : bytes → bytes;
}.

(** The parts, by their letters. *)
Definition AuditLogPartHeader : Z := 0x41.
Definition AuditLogPartRequestHeaders : Z := 0x42.
Definition AuditLogPartRequestBody : Z := 0x43.
Definition AuditLogPartIntermediaryResponseBody : Z := 0x45.
Definition AuditLogPartResponseHeaders : Z := 0x46.
Definition AuditLogPartAuditLogTrailer : Z := 0x48.
Definition AuditLogPartUploadedFiles : Z := 0x4a.
Definition AuditLogPartRulesMatched : Z := 0x4b.

(** ** The record of a transaction *)

(** [NamedCollection.Data] *)
Definition Data (c : Map) : gmap bytes (list bytes) := (λ l : list keyValue, kv_value <$> l) <$> c.(data).

(** [filepath.Ext]: from the last dot of the last element. *)
Fixpoint extLoop (rev : bytes) (acc : bytes) : bytes :=
  match rev with
  | [] => []
  | c :: rev => if c =? 0x2f then [] else if c =? 0x2e then c :: acc else extLoop rev (c :: acc)
  end.

Definition Ext (path : bytes) : bytes := extLoop (reverse path) [].

(** [strconv.ParseInt] of 32 bits; 0 on an error. *)
Definition parseInt32 (s : bytes) : Z :=
  match Atoi s with
  | Some n => if (- 2 ^ 31 <=? n) && (n <? 2 ^ 31) then n else 0
  | None => 0
  end.

Section record.
Context `{U : !Unicode, P : !Printable, L : !LogSource}.

Definition auditLogCollectFiles (tx : Transaction) : list TransactionRequestFiles :=
  (λ file,
     let size :=
       match Get (tmap tx V.FilesSizes) file with
       | fs :: _ => default 0 (Atoi fs)
       | [] => 0
       end in
     mkFile size file (TypeByExtension (Ext file))) <$> Get (tmap tx V.Files) [].

(** The record before its parts are looked at. *)
Definition baseLog (tx : Transaction) : Log :=
  mkLog tx.(tx_AuditLogParts)
    (mkLogTransaction (FormatTime tx.(tx_Timestamp)) tx.(tx_Timestamp) tx.(tx_id)
       (single tx V.RemoteAddr) (AtoiValue (single tx V.RemotePort))
       (single tx V.ServerAddr) (AtoiValue (single tx V.ServerPort)) (single tx V.ServerName)
       (mkRequest (single tx V.RequestMethod) (single tx V.RequestURI) (single tx V.RequestProtocol) []
          [tmap tx V.ArgsGet; tmap tx V.ArgsPost; tmap tx V.ArgsPath] (parseInt32 (single tx V.FullRequestLength)) ∅ [] [])
       None None (IsInterrupted tx))
    [].

(** The message of one matched data; the error message only when part H came
    before. *)
Definition ruleMessage (trailerSet : bool) (mr : MatchedRule) (md : MatchData) : run LogMessage :=
  let r := mr.(mr_Rule) in
  err ← (if trailerSet then ErrorLog mr else Done []);
  Done (mkMessage (Join ComponentNames 0x20) md.(Message_) err
    (Some (mkMessageData r.(File_) r.(Line_) r.(ID_) r.(Rev_) md.(Message_) md.(Data_) r.(Severity_) r.(Version_)
      r.(Maturity_) r.(Accuracy_) r.(Tags_) r.(Raw_)))).

Fixpoint ruleMessages (trailerSet : bool) (mr : MatchedRule) (mds : list MatchData) : run (list LogMessage) :=
  match mds with
  | [] => Done []
  | md :: mds => m ← ruleMessage trailerSet mr md; l ← ruleMessages trailerSet mr mds; Done (m :: l)
  end.

(** The messages of part K. *)
Fixpoint matchedMessages (trailerSet : bool) (mrs : list MatchedRule) : run (list LogMessage) :=
  match mrs with
  | [] => Done []
  | mr :: mrs =>
      if mr.(mr_Audit) then
        l ← ruleMessages trailerSet mr mr.(mr_MatchedDatas);
        l' ← matchedMessages trailerSet mrs;
        Done (l ++ l')
      else matchedMessages trailerSet mrs
  end.

(** The messages of part H without part K. *)
Fixpoint errorMessages (mrs : list MatchedRule) : run (list LogMessage) :=
  match mrs with
  | [] => Done []
  | mr :: mrs =>
      if mr.(mr_Audit) then
        err ← ErrorLog mr;
        l ← errorMessages mrs;
        Done (mkMessage [] [] err None :: l)
      else errorMessages mrs
  end.

(** [if al.Transaction_.Response_ == nil { ... }] *)
Definition ensureResponse (r : option TransactionResponse) : TransactionResponse := default (mkResponse [] 0 ∅ []) r.

(** The loop over the parts: the transaction, whose body is read, the record and
    whether parts H and K were seen. *)
Record logState := mkLogState { ls_tx : Transaction; ls_log : Log; ls_trailer : bool; ls_rules : bool }.

Definition logPart (st : logState) (part : Z) : run logState :=
  let '(mkLogState tx al trailer rules) := st in
  let setTransaction f := al <| l_Transaction ::= f |> in
  if part =? AuditLogPartRequestHeaders then
    Done (mkLogState tx (setTransaction (λ t, t <| lt_Request ::= (λ r, r <| rq_Headers := Data (tmap tx V.RequestHeaders) |>) |>)) trailer rules)
  else if part =? AuditLogPartRequestBody then
    let '(br, reader) := Reader tx.(tx_requestBodyBuffer) in
    '(br, body) ← readBody true br reader;
    Done (mkLogState (tx <| tx_requestBodyBuffer := br |>)
            (setTransaction (λ t, t <| lt_Request ::= (λ r, r <| rq_Body := body |>) |>)) trailer rules)
  else if part =? AuditLogPartUploadedFiles then
    Done (mkLogState tx (setTransaction (λ t, t <| lt_Request ::= (λ r, r <| rq_Files := auditLogCollectFiles tx |>) |>)) trailer rules)
  else if part =? AuditLogPartIntermediaryResponseBody then
    Done (mkLogState tx (setTransaction (λ t, t <| lt_Response ::= (λ r,
      Some ((ensureResponse r) <| rs_Body := single tx V.ResponseBody |>)) |>)) trailer rules)
  else if part =? AuditLogPartResponseHeaders then
    Done (mkLogState tx (setTransaction (λ t, t <| lt_Response ::= (λ r,
      Some ((ensureResponse r) <| rs_Status := AtoiValue (single tx V.ResponseStatus) |>
                             <| rs_Headers := Data (tmap tx V.ResponseHeaders) |>)) |>)) trailer rules)
  else if part =? AuditLogPartAuditLogTrailer then
    Done (mkLogState tx (setTransaction (λ t, t <| lt_Producer := Some (mkProducer ProducerConnector ProducerConnectorVersion []
      (ruleEngineString tx.(tx_RuleEngine)) Stopwatch ComponentNames) |>)) true rules)
  else if part =? AuditLogPartRulesMatched then
    l ← matchedMessages trailer tx.(tx_matchedRules);
    Done (mkLogState tx (al <| l_Messages ::= (λ ms, ms ++ l) |>) trailer true)
  else Done st.

Definition AuditLog (tx : Transaction) : run (Transaction * Log) :=
  '(mkLogState tx al trailer rules) ← foldM logPart tx.(tx_AuditLogParts) (mkLogState tx (baseLog tx) false false);
  if negb rules && trailer then
    l ← errorMessages tx.(tx_matchedRules);
    Done (tx, al <| l_Messages ::= (λ ms, ms ++ l) |>)
  else Done (tx, al).
End record.

(** ** What a record holds *)

Section spec.
Context `{U : !Unicode, P : !Printable, L : !LogSource}.

Definition has (part : Z) (parts : list Z) : bool := bool_decide (part ∈ parts).

Definition errorText (mr : MatchedRule) : bytes := match ErrorLog mr with Done t => t | _ => [] end.

(** The message of a matched data. *)
Definition messageOf (trailer : bool) (mr : MatchedRule) (md : MatchData) : LogMessage :=
  let r := mr.(mr_Rule) in
  mkMessage (Join ComponentNames 0x20) md.(Message_) (if trailer then errorText mr else [])
    (Some (mkMessageData r.(File_) r.(Line_) r.(ID_) r.(Rev_) md.(Message_) md.(Data_) r.(Severity_) r.(Version_)
      r.(Maturity_) r.(Accuracy_) r.(Tags_) r.(Raw_))).

Definition auditedMatches (mrs : list MatchedRule) : list MatchedRule := filter (λ mr, mr_Audit mr = true) mrs.

(** The messages of the parts: for each K one for every data of every audited
    match, with the text of the error log when an H came before. *)
Fixpoint partMessages (mrs : list MatchedRule) (trailer : bool) (parts : list Z) : list LogMessage :=
  match parts with
  | [] => []
  | p :: parts =>
      (if p =? AuditLogPartRulesMatched
       then flat_map (λ mr, messageOf trailer mr <$> mr.(mr_MatchedDatas)) (auditedMatches mrs) else []) ++
      partMessages mrs (trailer || (p =? AuditLogPartAuditLogTrailer)) parts
  end.

Definition loggedResponse (tx : Transaction) (parts : list Z) : option TransactionResponse :=
  let hasE := has AuditLogPartIntermediaryResponseBody parts in
  let hasF := has AuditLogPartResponseHeaders parts in
  if hasE || hasF then
    Some (mkResponse [] (if hasF then AtoiValue (single tx V.ResponseStatus) else 0)
      (if hasF then Data (tmap tx V.ResponseHeaders) else ∅) (if hasE then single tx V.ResponseBody else []))
  else None.

(** The record of a transaction with the given parts. *)
Definition loggedRecord (tx : Transaction) (parts : list Z) (messages : list LogMessage) : Log :=
  mkLog tx.(tx_AuditLogParts)
    (mkLogTransaction (FormatTime tx.(tx_Timestamp)) tx.(tx_Timestamp) tx.(tx_id)
       (single tx V.RemoteAddr) (AtoiValue (single tx V.RemotePort))
       (single tx V.ServerAddr) (AtoiValue (single tx V.ServerPort)) (single tx V.ServerName)
       (mkRequest (single tx V.RequestMethod) (single tx V.RequestURI) (single tx V.RequestProtocol) []
          [tmap tx V.ArgsGet; tmap tx V.ArgsPost; tmap tx V.ArgsPath] (parseInt32 (single tx V.FullRequestLength))
          (if has AuditLogPartRequestHeaders parts then Data (tmap tx V.RequestHeaders) else ∅)
          (if has AuditLogPartRequestBody parts then contents tx.(tx_requestBodyBuffer) else [])
          (if has AuditLogPartUploadedFiles parts then auditLogCollectFiles tx else []))
       (loggedResponse tx parts)
       (if has AuditLogPartAuditLogTrailer parts
        then Some (mkProducer ProducerConnector ProducerConnectorVersion [] (ruleEngineString tx.(tx_RuleEngine)) Stopwatch ComponentNames)
        else None)
       (IsInterrupted tx))
    messages.

Lemma has_snoc c parts p : has c (parts ++ [p]) = has c parts || (p =? c).
Proof.
  unfold has. apply eq_true_iff_eq. rewrite orb_true_iff, !bool_decide_eq_true, elem_of_app, list_elem_of_singleton, Z.eqb_eq. naive_solver.
Qed.

Lemma partMessages_snoc mrs parts p : ∀ trailer,
  partMessages mrs trailer (parts ++ [p]) = partMessages mrs trailer parts ++
    (if p =? AuditLogPartRulesMatched
     then flat_map (λ mr, messageOf (trailer || has AuditLogPartAuditLogTrailer parts) mr <$> mr.(mr_MatchedDatas)) (auditedMatches mrs)
     else []).
Proof.
  induction parts as [|q parts IH]; intros trailer.
  - cbn. by rewrite app_nil_r, orb_false_r.
  - cbn [partMessages app]. rewrite IH, <- app_assoc. do 2 f_equal. destruct (p =? _); [|done].
    assert (trailer || (q =? AuditLogPartAuditLogTrailer) || has AuditLogPartAuditLogTrailer parts =
            trailer || has AuditLogPartAuditLogTrailer (q :: parts)) as ->; [|done].
    rewrite <- orb_assoc. f_equal. apply eq_true_iff_eq. unfold has.
    rewrite orb_true_iff, !bool_decide_eq_true, elem_of_cons, Z.eqb_eq. naive_solver.
Qed.

Lemma ErrorLog_text mr : mr.(mr_MatchedDatas) ≠ [] → ErrorLog mr = Done (errorText mr).
Proof. unfold errorText, ErrorLog. by destruct (mr_MatchedDatas mr). Qed.

Lemma ruleMessages_eq trailer mr mds : mr.(mr_MatchedDatas) ≠ [] → ruleMessages trailer mr mds = Done (messageOf trailer mr <$> mds).
Proof.
  intros Hne. induction mds as [|md mds IH]; [done|]. cbn [ruleMessages]. unfold ruleMessage at 1. cbv zeta.
  unfold messageOf. rewrite ErrorLog_text by done. destruct trailer; cbn [mbind run_bind]; rewrite IH; done.
Qed.

Lemma matchedMessages_eq trailer mrs :
  matchedMessages trailer mrs = Done (flat_map (λ mr, messageOf trailer mr <$> mr.(mr_MatchedDatas)) (auditedMatches mrs)).
Proof.
  induction mrs as [|mr mrs IH]; [done|]. cbn [matchedMessages]. unfold auditedMatches. rewrite filter_cons.
  destruct (mr_Audit mr) eqn:E; [|rewrite decide_False by done; exact IH]. rewrite decide_True by done. cbn [flat_map].
  assert (ruleMessages trailer mr (mr_MatchedDatas mr) = Done (messageOf trailer mr <$> mr_MatchedDatas mr)) as ->.
  { destruct (mr_MatchedDatas mr) as [|md mds] eqn:Ed; [done|]. rewrite <- Ed. apply ruleMessages_eq. by rewrite Ed. }
  cbn [mbind run_bind]. rewrite IH. done.
Qed.

Lemma errorMessages_eq mrs : Forall (λ mr, mr.(mr_MatchedDatas) ≠ []) mrs →
  errorMessages mrs = Done ((λ mr, mkMessage [] [] (errorText mr) None) <$> auditedMatches mrs).
Proof.
  induction 1 as [|mr mrs Hmr _ IH]; [done|]. cbn [errorMessages]. unfold auditedMatches. rewrite filter_cons.
  destruct (mr_Audit mr) eqn:E; [|by rewrite decide_False]. rewrite decide_True by done.
  rewrite ErrorLog_text by done. cbn [mbind run_bind]. by rewrite IH.
Qed.

(** The state of the loop after some parts. *)
Definition logged (tx : Transaction) (parts : list Z) (st : logState) : Prop :=
  ∃ br, wf_buffer br ∧ contents br = contents tx.(tx_requestBodyBuffer) ∧
    st = mkLogState (tx <| tx_requestBodyBuffer := br |>)
           (loggedRecord tx parts (partMessages tx.(tx_matchedRules) false parts))
           (has AuditLogPartAuditLogTrailer parts) (has AuditLogPartRulesMatched parts).

Lemma logPart_logged tx parts p st : logged tx parts st → wp (logPart st p) (logged tx (parts ++ [p])).
Proof.
  intros (br & Hbr & Hc & ->). cbn [logPart]. cbv zeta.
  assert (∀ st', st' = mkLogState (tx <| tx_requestBodyBuffer := br |>)
     (loggedRecord tx (parts ++ [p]) (partMessages tx.(tx_matchedRules) false (parts ++ [p])))
     (has AuditLogPartAuditLogTrailer (parts ++ [p])) (has AuditLogPartRulesMatched (parts ++ [p])) →
     wp (Done st') (logged tx (parts ++ [p]))) as Hdone by (intros st' ->; by exists br).
  unfold loggedRecord, loggedResponse in *. rewrite partMessages_snoc, !has_snoc in Hdone.
  destruct (Z.eqb_spec p AuditLogPartRequestHeaders) as [->|H1].
  { apply Hdone. by rewrite !orb_false_r, app_nil_r, orb_true_r. }
  destruct (Z.eqb_spec p AuditLogPartRequestBody) as [->|H2].
  { pose proof (readBody_wp br Hbr) as H. cbn [tx_requestBodyBuffer]. change (tx_requestBodyBuffer (tx <| tx_requestBodyBuffer := br |>)) with br.
    destruct (Reader br) as [br1 id]. destruct H as (_ & _ & _ & H). eapply wp_bind; [exact H|].
    intros [br2 body] (Hwf & _ & Hc2 & Hb). cbn [fst snd] in *. subst body. exists br2. split; [done|]. split; [by rewrite Hc2|].
    unfold loggedRecord, loggedResponse. rewrite partMessages_snoc, !has_snoc, !orb_false_r, app_nil_r, orb_true_r. cbn. by rewrite Hc. }
  destruct (Z.eqb_spec p AuditLogPartUploadedFiles) as [->|H3].
  { apply Hdone. by rewrite !orb_false_r, app_nil_r, orb_true_r. }
  destruct (Z.eqb_spec p AuditLogPartIntermediaryResponseBody) as [->|H4].
  { apply Hdone. rewrite !orb_false_r, app_nil_r, orb_true_r. cbn.
    by destruct (has AuditLogPartIntermediaryResponseBody parts), (has AuditLogPartResponseHeaders parts). }
  destruct (Z.eqb_spec p AuditLogPartResponseHeaders) as [->|H5].
  { apply Hdone. rewrite !orb_false_r, app_nil_r, !orb_true_r. cbn.
    by destruct (has AuditLogPartIntermediaryResponseBody parts), (has AuditLogPartResponseHeaders parts). }
  destruct (Z.eqb_spec p AuditLogPartAuditLogTrailer) as [->|H6].
  { apply Hdone. by rewrite !orb_false_r, app_nil_r, orb_true_r. }
  destruct (Z.eqb_spec p AuditLogPartRulesMatched) as [->|H7].
  { rewrite matchedMessages_eq. cbn [mbind run_bind]. apply Hdone. by rewrite !orb_false_r, orb_true_r. }
  apply Hdone. by rewrite !orb_false_r, app_nil_r.
Qed.

(** C17: The record of a transaction is what its parts ask for: header fields, bodies,
    files and the producer only with their part, the messages of the audited
    matches for every K, and for H without K one message for each of them.
    Apart from a new reader of the body the transaction is as it was. *)
Theorem AuditLog_record tx :
  wf_buffer tx.(tx_requestBodyBuffer) → Forall (λ mr, mr.(mr_MatchedDatas) ≠ []) tx.(tx_matchedRules) →
  ∃ br, wf_buffer br ∧ contents br = contents tx.(tx_requestBodyBuffer) ∧
    AuditLog tx = Done (tx <| tx_requestBodyBuffer := br |>,
      loggedRecord tx tx.(tx_AuditLogParts)
        (partMessages tx.(tx_matchedRules) false tx.(tx_AuditLogParts) ++
         (if has AuditLogPartAuditLogTrailer tx.(tx_AuditLogParts) && negb (has AuditLogPartRulesMatched tx.(tx_AuditLogParts))
          then (λ mr, mkMessage [] [] (errorText mr) None) <$> auditedMatches tx.(tx_matchedRules) else []))).
Proof.
  intros Hbr Hne. set (parts := tx.(tx_AuditLogParts)).
  assert (wp (foldM logPart parts (mkLogState tx (baseLog tx) false false)) (logged tx ([] ++ parts))) as H.
  { apply foldM_prefix; [intros pre st p; apply logPart_logged|]. exists tx.(tx_requestBodyBuffer). by destruct tx. }
  apply wp_elim in H as (st & E & br & Hwf & Hc & ->). cbn [app] in E. unfold AuditLog. fold parts. rewrite E. cbn [mbind run_bind].
  exists br. split; [done|]. split; [done|]. rewrite andb_comm.
  destruct (has AuditLogPartAuditLogTrailer parts && negb (has AuditLogPartRulesMatched parts)); [|by rewrite app_nil_r].
  change (tx_matchedRules (tx <| tx_requestBodyBuffer := br |>)) with tx.(tx_matchedRules).
  by rewrite errorMessages_eq.
Qed.
End spec.

(** ** Formats *)

(** [http.StatusText] and the random text of the boundary. *)
Class LogFormat := { StatusText : Z → bytes; RandomString : bytes }.

Section format.
Context `{U : !Unicode, O : !MapOrder, P : !Printable, F : !LogFormat}.

Definition lf : bytes := [0x0a].

(** The text of the trailer and of the matched rules.  A message without data has a
    nil pointer there. *)
Definition trailerText (ms : list LogMessage) : bytes :=
  flat_map (λ m, if negb (m.(m_ErrorMessage) =s []) then m.(m_ErrorMessage) ++ lf else []) ms.

Fixpoint rulesText (ms : list LogMessage) : run bytes :=
  match ms with
  | [] => Done []
  | m :: ms =>
      match m.(m_Data) with
      | None => Panic
      | Some d => t ← rulesText ms; Done (d.(d_Raw) ++ lf ++ t)
      end
  end.

(** The lines of the files and their total size. *)
Fixpoint filesText (i : Z) (files : list TransactionRequestFiles) (totalSize : Z) : bytes :=
  match files with
  | [] => str "Total," ++ Itoa totalSize ++ lf
  | f :: files =>
      let contentType := if f.(rf_Mime) =s [] then str "<Unknown Content-Type>" else f.(rf_Mime) in
      Itoa (i + 1) ++ str "," ++ Itoa f.(rf_Size) ++ str "," ++ Quote f.(rf_Name) ++ str "," ++ Quote contentType ++ lf ++
      filesText (i + 1) files (i64 (totalSize + f.(rf_Size)))
  end.

Definition headerLine (kv : bytes * bytes) : bytes := kv.1 ++ str ": " ++ kv.2.

(** The pairs of a header, in the order of the map. *)
Definition headerPairs (h : gmap bytes (list bytes)) : list (bytes * bytes) :=
  flat_map (λ kvs, (λ v, (kvs.1, v)) <$> kvs.2) (range h).

(** What is written between the boundary of a part and the separator. *)
Definition partText (al : Log) (part : Z) : run bytes :=
  let t := al.(l_Transaction) in
  let rq := t.(lt_Request) in
  if part =? AuditLogPartHeader then
    Done (str "[" ++ t.(lt_Timestamp) ++ str "] " ++ t.(lt_ID) ++ str " " ++ t.(lt_ClientIP) ++ str " " ++
      Itoa t.(lt_ClientPort) ++ str " " ++ t.(lt_HostIP) ++ str " " ++ Itoa t.(lt_HostPort) ++ lf)
  else if part =? AuditLogPartRequestHeaders then
    Done (rq.(rq_Method) ++ str " " ++ rq.(rq_URI) ++ str " " ++ rq.(rq_Protocol) ++
      flat_map (λ kv, lf ++ headerLine kv) (headerPairs rq.(rq_Headers)) ++ lf)
  else if part =? AuditLogPartRequestBody then
    Done (if negb (rq.(rq_Body) =s []) then rq.(rq_Body) ++ lf else [])
  else if part =? AuditLogPartIntermediaryResponseBody then
    Done (match t.(lt_Response) with
          | Some rs => if negb (rs.(rs_Body) =s []) then rs.(rs_Body) ++ lf else []
          | None => []
          end)
  else if part =? AuditLogPartResponseHeaders then
    Done (match t.(lt_Response) with
          | Some rs =>
              (if rs.(rs_Protocol) =s [] then str "HTTP/1.1" else rs.(rs_Protocol)) ++ str " " ++ Itoa rs.(rs_Status) ++ str " " ++
              StatusText rs.(rs_Status) ++ lf ++ flat_map (λ kv, headerLine kv ++ lf) (headerPairs rs.(rs_Headers))
          | None => []
          end)
  else if part =? AuditLogPartAuditLogTrailer then Done (trailerText al.(l_Messages))
  else if part =? AuditLogPartUploadedFiles then Done (filesText 0 rq.(rq_Files) 0)
  else if part =? AuditLogPartRulesMatched then rulesText al.(l_Messages)
  else Done [].

Definition boundaryPrefix : bytes := str "--" ++ RandomString ++ str "-".

(** A part after its boundary; part A has no separator. *)
Definition partBody (al : Log) (part : Z) : run bytes :=
  t ← partText al part;
  Done ([part] ++ str "--" ++ lf ++ t ++ (if part =? AuditLogPartHeader then [] else lf)).

Fixpoint formatParts (al : Log) (parts : list Z) : run bytes :=
  match parts with
  | [] => Done []
  | p :: parts => b ← partBody al p; t ← formatParts al parts; Done (boundaryPrefix ++ b ++ t)
  end.

(** [nativeFormatter.Format] *)
Definition nativeFormat (al : Log) : run bytes := formatParts al al.(l_Parts).
End format.

(** *** The legacy record *)

Record logLegacyTransaction := mkLegacyTransaction {
  le_Time : bytes;
  le_TransactionID : bytes;
  le_RemoteAddress : bytes;
  le_RemotePort : Z;
  le_LocalAddress : bytes;
  le_LocalPort : Z;
}.

Record logLegacyRequest := mkLegacyRequest { le_RequestLine : bytes; le_ReqHeaders : gmap bytes bytes }.
Record logLegacyResponse := mkLegacyResponse { le_Status : Z; le_Protocol : bytes; le_ResHeaders : gmap bytes bytes }.

Record logLegacyData := mkLegacyData { le_Messages : list bytes; le_Producer : list bytes; le_EngineMode : bytes }.
#[global] Instance logLegacyData_eta : Eta logLegacyData := λ x, mkLegacyData x.(le_Messages) x.(le_Producer) x.(le_EngineMode).

Record logLegacy := mkLegacy {
  le_Transaction : logLegacyTransaction;
  le_Request : logLegacyRequest;
  le_Response : logLegacyResponse;
  le_AuditData : logLegacyData;
}.

(** [strings.Join(v, ', ')] *)
Fixpoint joinComma (l : list bytes) : bytes :=
  match l with [] => [] | [x] => x | x :: l => x ++ str ", " ++ joinComma l end.

(** What [legacyJSONFormatter.Format] marshals.  [Response()] and [Producer()] give
    interfaces that are never nil, also for a record without them: their methods
    then give the zero values. *)
Definition legacyRecord (al : Log) : logLegacy :=
  let t := al.(l_Transaction) in
  let rq := t.(lt_Request) in
  let rs := default (mkResponse [] 0 ∅ []) t.(lt_Response) in
  let pr := default (mkProducer [] [] [] [] [] []) t.(lt_Producer) in
  let producers := (if negb (pr.(tp_Connector) =s []) then [pr.(tp_Connector)] else []) ++ pr.(tp_Rulesets) in
  mkLegacy
    (mkLegacyTransaction t.(lt_Timestamp) t.(lt_ID) t.(lt_ClientIP) t.(lt_ClientPort) t.(lt_HostIP) t.(lt_HostPort))
    (mkLegacyRequest (rq.(rq_Method) ++ str " " ++ rq.(rq_URI) ++ str " " ++ rq.(rq_HTTPVersion)) (joinComma <$> rq.(rq_Headers)))
    (mkLegacyResponse rs.(rs_Status) rs.(rs_Protocol) (joinComma <$> rs.(rs_Headers)))
    (mkLegacyData (m_Message <$> al.(l_Messages)) producers pr.(tp_RuleEngine)).

(** ** The native format is taken apart *)

(** The text before the first occurrence of a separator, and the text after it. *)
Fixpoint cutText (s sep : bytes) : bytes * option bytes :=
  if HasPrefix s sep then ([], Some (drop (length sep) s))
  else
    match s with
    | [] => ([], None)
    | c :: s => let '(a, r) := cutText s sep in (c :: a, r)
    end.

Fixpoint sections (fuel : nat) (sep s : bytes) : list bytes :=
  match fuel with
  | O => []
  | S fuel => match cutText s sep with (a, None) => [a] | (a, Some r) => a :: sections fuel sep r end
  end.

(** A text that ends in a line feed, or nothing. *)
Definition lines (a : bytes) : Prop := a = [] ∨ ∃ a', a = a' ++ lf.

Lemma lines_tail c a : lines (c :: a) → lines a.
Proof.
  intros [?|[a' E]]; [done|]. destruct a' as [|x a']; cbn in E; injection E as -> ->; [by left|right; by exists a'].
Qed.

Lemma cutText_first sep r : sep ≠ [] → 0x0a ∉ sep → ∀ a, lines a → Contains a sep = false →
  cutText (a ++ sep ++ r) sep = (a, Some r).
Proof.
  intros Hne Hlf. induction a as [|c a IH]; intros Ha Hc.
  - cbn [app]. assert (HasPrefix (sep ++ r) sep = true) as Hp by (apply HasPrefix_spec; by exists r).
    destruct (sep ++ r) as [|x y] eqn:E; [by destruct sep|]. cbn [cutText]. rewrite Hp, <- E. by rewrite drop_app_length.
  - cbn [Contains] in Hc. apply orb_false_iff in Hc as [Hp Hc].
    assert (HasPrefix ((c :: a) ++ sep ++ r) sep = false) as Hn.
    { apply not_true_iff_false. rewrite HasPrefix_spec. intros [t E]. apply not_true_iff_false in Hp. apply Hp, HasPrefix_spec.
      destruct (decide (length sep ≤ length (c :: a))%nat) as [Hl|Hl].
      - exists (drop (length sep) (c :: a)). apply (f_equal (take (length sep))) in E.
        rewrite take_app_le, take_app_length in E by done.
        rewrite <- (take_drop (length sep) (c :: a)) at 1. by rewrite E.
      - exfalso. apply Hlf. apply (f_equal (take (length (c :: a)))) in E. rewrite take_app_length, take_app_le in E by lia.
        destruct Ha as [?|[a' Ha]]; [done|]. rewrite <- (take_drop (length (c :: a)) sep), <- E, Ha, <- app_assoc.
        rewrite elem_of_app. right. by left. }
    cbn [app cutText] in *. rewrite Hn, IH; [done|by eapply lines_tail|done].
Qed.

Lemma cutText_none sep a : sep ≠ [] → Contains a sep = false → cutText a sep = (a, None).
Proof.
  intros Hne. induction a as [|c a IH]; cbn [Contains cutText]; intros [Hp Hc]%orb_false_iff; rewrite Hp; [done|]. by rewrite IH.
Qed.

Section native.
Context `{U : !Unicode, O : !MapOrder, P : !Printable, F : !LogFormat}.

Lemma partBody_lines al p b : partBody al p = Done b → head b = Some p ∧ lines b.
Proof.
  assert (∀ x y : bytes, Done x = Done y → y = x) as Hinj by (intros; congruence).
  unfold partBody. destruct (partText al p) as [t| |] eqn:Et; [|done..]. cbn [mbind run_bind]. intros ->%Hinj. split; [done|]. right.
  destruct (Z.eqb_spec p AuditLogPartHeader) as [->|Hp].
  - unfold partText in Et. cbn [Z.eqb] in Et. apply Hinj in Et. rewrite Et, app_nil_r, !app_assoc. eexists. reflexivity.
  - rewrite !app_assoc. eexists. reflexivity.
Qed.

(** C19: The native format can be taken apart: as long as the boundary, which is drawn
    at random, is not in what the parts say, the sections between the boundaries
    are the parts of the record, in order and each under its letter. *)
Theorem nativeFormat_sections al bodies :
  0x0a ∉ RandomString → Forall2 (λ p b, partBody al p = Done b) al.(l_Parts) bodies →
  Forall (λ b, Contains b boundaryPrefix = false) bodies →
  ∃ text, nativeFormat al = Done text ∧ sections (S (length bodies)) boundaryPrefix text = [] :: bodies ∧
    head <$> bodies = Some <$> al.(l_Parts).
Proof.
  intros Hlf H Hb. assert (0x0a ∉ boundaryPrefix) as Hlf'.
  { unfold boundaryPrefix. rewrite !elem_of_app. intros [H1|[H1|H1]]; [|done|];
      apply (bool_decide_eq_true_2 _) in H1; by vm_compute in H1. }
  assert (∀ a rest, lines a → Contains a boundaryPrefix = false → cutText (a ++ boundaryPrefix ++ rest) boundaryPrefix = (a, Some rest)) as Hcut
    by (intros; by apply cutText_first).
  assert (∃ text, formatParts al al.(l_Parts) = Done text ∧ head <$> bodies = Some <$> al.(l_Parts) ∧
    ∀ a, lines a → Contains a boundaryPrefix = false → sections (S (length bodies)) boundaryPrefix (a ++ text) = a :: bodies) as (text & E & Hh & Hs).
  { induction H as [|p b ps bs Hp _ IH].
    - exists []. split; [done|]. split; [done|]. intros a _ Ha. rewrite app_nil_r. cbn [sections]. by rewrite cutText_none.
    - apply Forall_cons in Hb as [Hb Hbs]. destruct (IH Hbs) as (text & E & Hh & Hs).
      destruct (partBody_lines _ _ _ Hp) as [Hhead Hlines]. exists (boundaryPrefix ++ b ++ text). cbn [formatParts].
      rewrite Hp, E. split; [done|]. split; [cbn; by rewrite Hhead, Hh|]. intros a Ha Hc. cbn [length].
      change (sections (S (S (length bs))) boundaryPrefix (a ++ boundaryPrefix ++ b ++ text)) with
        (match cutText (a ++ boundaryPrefix ++ b ++ text) boundaryPrefix with
         | (a, None) => [a] | (a, Some r) => a :: sections (S (length bs)) boundaryPrefix r end).
      rewrite Hcut by done. by rewrite Hs. }
  exists text. split; [done|]. split; [|done]. apply (Hs []); [by left|done].
Qed.
End native.

(** ** An example *)

Definition exampleSource : LogSource := {|
  ProducerConnector := str "example";
  ProducerConnectorVersion := str "1";
  ComponentNames := [str "crs"];
  FormatTime _ := str "2024/01/01 00:00:00";
  Stopwatch := [];
  TypeByExtension _ := [];
|}.

Definition exampleFormat : LogFormat := {| StatusText _ := str "OK"; RandomString := str "aBcDeFgHiJ" |}.

Definition loggedTransaction : Transaction :=
  openTransaction <| tx_AuditLogParts := str "ABHKZ" |> <| tx_matchedRules := [exampleMatched] |>.

Lemma AuditLog_record_witness :
  ∃ br, AuditLog (U := latin1) (P := asciiPrintable) (L := exampleSource) loggedTransaction =
    Done (loggedTransaction <| tx_requestBodyBuffer := br |>,
      loggedRecord (U := latin1) (L := exampleSource) loggedTransaction (str "ABHKZ")
        [messageOf (P := asciiPrintable) (L := exampleSource) true exampleMatched
          (mkMatchData V.Args (str "q") (str "x") (str "SQL") ([0x22] ++ str "] [id " ++ [0x22] ++ str "1") 0)]).
Proof.
  destruct (AuditLog_record (U := latin1) (P := asciiPrintable) (L := exampleSource) loggedTransaction) as (br & _ & _ & E).
  - exact (good_request _ openTransaction_good).
  - apply Forall_cons. split; [discriminate|apply Forall_nil_2].
  - exists br. exact E.
Defined.

(** The record of the example, and its sections. *)
Definition exampleRecord : Log :=
  loggedRecord (U := latin1) (L := exampleSource) loggedTransaction (str "ABHKZ")
    [messageOf (P := asciiPrintable) (L := exampleSource) true exampleMatched
      (mkMatchData V.Args (str "q") (str "x") (str "SQL") ([0x22] ++ str "] [id " ++ [0x22] ++ str "1") 0)].

Definition exampleBodies : list bytes :=
  (λ p, match partBody (O := listOrder) (P := asciiPrintable) (F := exampleFormat) exampleRecord p with Done b => b | _ => [] end)
    <$> str "ABHKZ".

Lemma nativeFormat_sections_witness :
  ∃ text, nativeFormat (O := listOrder) (P := asciiPrintable) (F := exampleFormat) exampleRecord = Done text ∧
    sections 6 (boundaryPrefix (F := exampleFormat)) text = [] :: exampleBodies.
Proof.
  destruct (nativeFormat_sections (O := listOrder) (P := asciiPrintable) (F := exampleFormat) exampleRecord exampleBodies)
    as (text & E & H & _).
  - apply (bool_decide_unpack _). vm_compute. reflexivity.
  - unfold exampleBodies. change (l_Parts exampleRecord) with (str "ABHKZ").
    repeat (apply Forall2_cons; split; [vm_compute; reflexivity|]). apply Forall2_nil. exact I.
  - apply Forall_forall. intros b Hb. assert (forallb (λ b, negb (Contains b (boundaryPrefix (F := exampleFormat)))) exampleBodies = true) as Hf
      by (vm_compute; reflexivity).
    rewrite forallb_forall in Hf. apply negb_true_iff, Hf, list_elem_of_In, Hb.
  - exists text. split; [exact E|exact H].
Defined.
