(* ===== verification/Interceptor.v ===== *)
(** The interception of a response: src/http/interceptor.go.

    The package sees a transaction through the interface [types.Transaction]
    (src/types/transaction.go): the class [TransactionAPI] has the methods it
    calls and [TransactionLaws] what it relies on.  The writer of package
    net/http below the interceptor is a log of the calls it received; how it
    answers a write or a hijack is any function of that log.  Handlers are
    finite trees of the calls they make, each free to depend on the answers to
    the earlier ones, and run on anything that is a [ResponseWriter].

    The theorems compare the log with the run of the same handler without the
    interceptor: the status is sent once and before everything else, a response
    that is not interrupted is the one the handler wrote, and an interrupted
    one delivers no byte of it. *)

From S2P Require Import Prelude GoLib StringUtil UrlTransform Variables Types Collections.
From S2P Require Import BodyBuffer TransactionState BodyProcessors Macro Rule Actions RuleGroup.
From S2P Require Import Engine Phases.

(** ** Headers *)

(** [http.Header] *)
Abbreviation Header := (gmap bytes (list bytes)) (only parsing).

(** The bytes of a token. *)
Definition isTokenByte (c : Z) : bool :=
  (0x61 <=? c) && (c <=? 0x7a) || (0x41 <=? c) && (c <=? 0x5a) || (0x30 <=? c) && (c <=? 0x39)
  || byte_in c (str "!#$%&'*+-.^_`|~").

Fixpoint canonicalLoop (upper : bool) (s : bytes) : bytes :=
  match s with
  | [] => []
  | c :: s =>
      let c :=
        if upper && (0x61 <=? c) && (c <=? 0x7a) then c - 32
        else if negb upper && (0x41 <=? c) && (c <=? 0x5a) then c + 32 else c in
      c :: canonicalLoop (c =? 0x2d) s
  end.

(** [textproto.CanonicalMIMEHeaderKey]: a key that is not a token is kept. *)
Definition CanonicalHeaderKey (s : bytes) : bytes :=
  if forallb isTokenByte s then canonicalLoop true s else s.

Definition Header_Set (k v : bytes) (h : Header) : Header := <[CanonicalHeaderKey k := [v]]> h.
Definition Header_Del (k : bytes) (h : Header) : Header := delete (CanonicalHeaderKey k) h.

(** ** Writers of a response *)

(** The calls that reach the writer of net/http; a status goes with the header
    fields at that time. *)
Inductive event :=
| EHeader (code : Z) (h : Header)
| EWrite (b : bytes)
| EFlush
| EHijack.

(** The writer: its header fields and the calls so far. *)
Record delegate := mkDelegate { dg_header : Header; dg_log : list event }.

#[global] Instance delegate_eta : Eta delegate := λ x, mkDelegate x.(dg_header) x.(dg_log).

(** [http.ResponseWriter] with [http.Flusher] and [http.Hijacker]; of an error
    only its presence is known. *)
Class ResponseWriter (R : Type) := {
  rw_Header : R → Header;
  rw_setHeader : Header → R → R;
  rw_WriteHeader : Z → R → run R;
  rw_Write : bytes → R → run (R * Z * bool);
  rw_Flush : R → run R;
  rw_Hijack : R → run (R * bool);
}.

Section copy.
Context `{W : ResponseWriter R}.

(** [io.Copy] into a writer. *)
Fixpoint copyFrom (fuel i : nat) (r : ioReader) (rest : bytes) (written : Z) (s : R) : run (R * Z * bool) :=
  match fuel with
  | 0%nat => OutOfFuel
  | S fuel =>
      if rest =s [] then Done (s, written, bool_decide (is_Some r.(io_err)))
      else
        let k := (S (r.(io_chunk) i) `min` copySize)%nat in
        '(s, n, err) ← rw_Write (take k rest) s;
        if err || negb (n =? Z.of_nat (length (take k rest))) then Done (s, written + n, true)
        else copyFrom fuel (S i) r (drop k rest) (written + n) s
  end.

Definition rw_ReadFrom (r : ioReader) (s : R) : run (R * Z * bool) :=
  copyFrom (S (length r.(io_data))) 0 r r.(io_data) 0 s.
End copy.

(** A handler, by the calls it makes on its writer. *)
Inductive handler :=
| HReturn
| HPanic
| HHeader (f : Header → Header) (k : Header → handler)
| HWriteHeader (code : Z) (k : handler)
| HWrite (b : bytes) (k : Z * bool → handler)
| HReadFrom (r : ioReader) (k : Z * bool → handler)
| HFlush (k : handler)
| HHijack (k : bool → handler).

(** How a handler ended: whether it panicked, and whether all that it wrote was
    accepted without an error. *)
Record outcome := mkOutcome { oc_panicked : bool; oc_accepted : bool }.

(** [h.ServeHTTP(w, r)] *)
Fixpoint ServeHTTP `{W : ResponseWriter R} (h : handler) (accepted : bool) (s : R) : run (R * outcome) :=
  match h with
  | HReturn => Done (s, mkOutcome false accepted)
  | HPanic => Done (s, mkOutcome true accepted)
  | HHeader f k => let s := rw_setHeader (f (rw_Header s)) s in ServeHTTP (k (rw_Header s)) accepted s
  | HWriteHeader code k => s ← rw_WriteHeader code s; ServeHTTP k accepted s
  | HWrite b k =>
      '(s, n, err) ← rw_Write b s;
      ServeHTTP (k (n, err)) (accepted && negb err && (n =? Z.of_nat (length b))) s
  | HReadFrom r k =>
      '(s, n, err) ← rw_ReadFrom r s; ServeHTTP (k (n, err)) (accepted && negb err) s
  | HFlush k => s ← rw_Flush s; ServeHTTP k accepted s
  | HHijack k => '(s, ok) ← rw_Hijack s; ServeHTTP (k ok) accepted s
  end.

(** What net/http does with a write and a hijack, by the calls so far, and the
    optional interfaces it has. *)
Class Server := {
  isFlusher : bool;
  isHijacker : bool;
  accepts : list event → bytes → nat * bool;
  hijacks : list event → bool;
}.

Section delegate.
Context `{V : !Server}.

Definition emit (e : event) (w : delegate) : delegate := w <| dg_log ::= (λ l, l ++ [e]) |>.

Definition dg_WriteHeader (code : Z) (w : delegate) : delegate := emit (EHeader code w.(dg_header)) w.

Definition dg_Write (b : bytes) (w : delegate) : delegate * Z * bool :=
  let '(n, err) := accepts w.(dg_log) b in (emit (EWrite b) w, Z.of_nat n, err).

Definition dg_Flush (w : delegate) : delegate := if isFlusher then emit EFlush w else w.

Definition dg_Hijack (w : delegate) : delegate * bool :=
  if isHijacker then (emit EHijack w, hijacks w.(dg_log)) else (w, false).

#[global] Instance delegate_writer : ResponseWriter delegate := {|
  rw_Header := dg_header;
  rw_setHeader h w := w <| dg_header := h |>;
  rw_WriteHeader code w := Done (dg_WriteHeader code w);
  rw_Write b w := Done (dg_Write b w);
  rw_Flush w := Done (dg_Flush w);
  rw_Hijack w := Done (dg_Hijack w);
|}.
End delegate.

(** ** Transactions *)

(** The methods of [types.Transaction] that the package calls.  A reader is the
    number under which the transaction keeps its position; [api_held] is what a
    new reader of the response body delivers. *)
Class TransactionAPI (T : Type) := {
  api_AddResponseHeader : bytes → bytes → T → T;
  api_ProcessResponseHeaders : Z → bytes → T → run (T * option Interruption);
  api_WriteResponseBody : bytes → T → run (T * writeResult);
  api_ProcessResponseBody : T → run (T * option Interruption * option txError);
  api_ResponseBodyReader : T → T * option nat;
  api_Read : nat → nat → T → run (T * bytes * bool);
  api_IsInterrupted : T → bool;
  api_IsResponseBodyAccessible : T → bool;
  api_IsResponseBodyProcessable : T → bool;
  api_held : T → bytes;
}.

(** [obtainStatusCodeFromInterruptionOrDefault] *)
Definition obtainStatusCodeFromInterruptionOrDefault (it : Interruption) (defaultStatusCode : Z) : Z :=
  if it.(it_Action) =s str "deny" then (if it.(it_Status) =? 0 then 403 else it.(it_Status))
  else defaultStatusCode.

Definition StatusSwitchingProtocols : Z := 101.
Definition StatusOK : Z := 200.
Definition StatusInternalServerError : Z := 500.

Record rwInterceptor (T : Type) := mkInterceptor {
  i_w : delegate;
  i_tx : T;
  i_statusCode : Z;
  i_proto : bytes;
  i_isWriteHeaderFlush : bool;
  i_wroteHeader : bool;
  i_wroteBufferedBodyToDownstream : bool;
  i_isHijacked : bool;
  i_allowFlushing : bool;
}.
Arguments mkInterceptor {T}.
Arguments i_w {T}. Arguments i_tx {T}. Arguments i_statusCode {T}. Arguments i_proto {T}.
Arguments i_isWriteHeaderFlush {T}. Arguments i_wroteHeader {T}.
Arguments i_wroteBufferedBodyToDownstream {T}. Arguments i_isHijacked {T}. Arguments i_allowFlushing {T}.

#[global] Instance rwInterceptor_eta T : Eta (rwInterceptor T) := λ x,
  mkInterceptor x.(i_w) x.(i_tx) x.(i_statusCode) x.(i_proto) x.(i_isWriteHeaderFlush) x.(i_wroteHeader)
    x.(i_wroteBufferedBodyToDownstream) x.(i_isHijacked) x.(i_allowFlushing).

(** ** The interceptor *)

Section interceptor.
Context `{O : !MapOrder, V : !Server, A : TransactionAPI T}.
Implicit Types (i : rwInterceptor T).

Definition setHeader (h : Header) i : rwInterceptor T := i <| i_w ::= (λ w, w <| dg_header := h |>) |>.

Definition overrideWriteHeader (statusCode : Z) i : rwInterceptor T := i <| i_statusCode := statusCode |>.

Definition flushWriteHeader i : rwInterceptor T :=
  if i.(i_isWriteHeaderFlush) then i
  else i <| i_w ::= dg_WriteHeader i.(i_statusCode) |> <| i_isWriteHeaderFlush := true |>.

(** The keys are deleted in their canonical form while the map is ranged over. *)
Definition cleaned (h : Header) : Header := foldr (λ kvs, Header_Del kvs.1) h (range h).

Definition cleanHeaders i : rwInterceptor T := setHeader (cleaned i.(i_w).(dg_header)) i.

(** What all three places do with an interruption. *)
Definition block (it : Interruption) i : rwInterceptor T :=
  let i := cleanHeaders i in
  let i := setHeader (Header_Set (str "Content-Length") (str "0") i.(i_w).(dg_header)) i in
  flushWriteHeader
    (overrideWriteHeader (obtainStatusCodeFromInterruptionOrDefault it i.(i_statusCode)) i).

(** Whether the response body is buffered. *)
Definition inspects (tx : T) : bool := api_IsResponseBodyAccessible tx && api_IsResponseBodyProcessable tx.

Definition addHeaders (h : Header) (tx : T) : T :=
  foldl (λ tx kvs, foldl (λ tx v, api_AddResponseHeader kvs.1 v tx) tx kvs.2) tx (range h).

Definition WriteHeader (statusCode : Z) i : run (rwInterceptor T) :=
  if i.(i_wroteHeader) then Done i
  else
    let i := i <| i_wroteHeader := true |> <| i_tx ::= addHeaders i.(i_w).(dg_header) |>
               <| i_statusCode := statusCode |> in
    '(tx, it) ← api_ProcessResponseHeaders statusCode i.(i_proto) i.(i_tx);
    let i := i <| i_tx := tx |> in
    match it with
    | Some it => Done (block it i)
    | None =>
        let i := if statusCode =? StatusSwitchingProtocols then flushWriteHeader i else i in
        Done (if negb (api_IsResponseBodyAccessible i.(i_tx)) || negb (api_IsResponseBodyProcessable i.(i_tx))
              then i <| i_allowFlushing := true |> else i)
    end.

(** [i.w.Write(b)] *)
Definition writeDown (b : bytes) i : rwInterceptor T * Z * bool :=
  let '(w, n, err) := dg_Write b i.(i_w) in (i <| i_w := w |>, n, err).

(** [io.Copy(i.w, reader)]: whether it failed.  Every read delivers a byte or is
    the last one. *)
Fixpoint copyDown (fuel reader : nat) i : run (rwInterceptor T * bool) :=
  match fuel with
  | 0%nat => OutOfFuel
  | S fuel =>
      '(tx, got, eof) ← api_Read reader copySize i.(i_tx);
      let i := i <| i_tx := tx |> in
      let '(i, failed) :=
        if got =s [] then (i, false)
        else let '(i, n, err) := writeDown got i in (i, err || negb (n =? Z.of_nat (length got))) in
      if failed then Done (i, true) else if (eof : bool) then Done (i, false) else copyDown fuel reader i
  end.

(** Whether it failed. *)
Definition writeBufferedResponseBodyToDownstream i : run (rwInterceptor T * bool) :=
  if i.(i_wroteBufferedBodyToDownstream) then Done (i, false)
  else
    let '(tx, reader) := api_ResponseBodyReader i.(i_tx) in
    let i := i <| i_tx := tx |> in
    match reader with
    | None => Done (flushWriteHeader (overrideWriteHeader StatusInternalServerError i), true)
    | Some reader =>
        let i := flushWriteHeader i in
        '(i, failed) ← copyDown (S (S (length (api_held i.(i_tx))))) reader i;
        Done (if (failed : bool) then (i, true) else (i <| i_wroteBufferedBodyToDownstream := true |>, false))
    end.

(** [Write] once the status is known. *)
Definition writeBody (b : bytes) i : run (rwInterceptor T * Z * bool) :=
  if api_IsResponseBodyAccessible i.(i_tx) && api_IsResponseBodyProcessable i.(i_tx)
     && negb i.(i_wroteBufferedBodyToDownstream) then
    '(tx, (it, n, err)) ← api_WriteResponseBody b i.(i_tx);
    let i := i <| i_tx := tx |> in
    match it, err with
    | Some it, _ => Done (block it i, Z.of_nat (length b), false)
    | None, Some _ => Done (i, n, true)
    | None, None =>
        if n =? Z.of_nat (length b) then Done (i, n, false)
        else
          '(i, failed) ← writeBufferedResponseBodyToDownstream i;
          if (failed : bool) then Done (i, n, true)
          else
            rest ← slice b (Z.to_nat n) (length b);
            let '(i, n2, err) := writeDown rest i in Done (i, n + n2, err)
    end
  else Done (writeDown b (flushWriteHeader i)).

Definition Write (b : bytes) i : run (rwInterceptor T * Z * bool) :=
  if api_IsInterrupted i.(i_tx) then Done (i, Z.of_nat (length b), false)
  else
    i ← (if i.(i_wroteHeader) then Done i else WriteHeader StatusOK i);
    writeBody b i.

Definition Flush i : run (rwInterceptor T) :=
  i ← (if i.(i_wroteHeader) then Done i else WriteHeader StatusOK i);
  Done (if i.(i_allowFlushing) && i.(i_isWriteHeaderFlush) then i <| i_w ::= dg_Flush |> else i).

(** [hijackerTracker.Hijack] *)
Definition Hijack i : run (rwInterceptor T * bool) :=
  let '(w, ok) := dg_Hijack i.(i_w) in
  let i := i <| i_w := w |> in
  Done (if ok then i <| i_isHijacked := true |> else i, ok).

#[global] Instance interceptor_writer : ResponseWriter (rwInterceptor T) := {|
  rw_Header i := i.(i_w).(dg_header);
  rw_setHeader := setHeader;
  rw_WriteHeader := WriteHeader;
  rw_Write := Write;
  rw_Flush := Flush;
  rw_Hijack := Hijack;
|}.

(** [wrap]: the interceptor and, below, its response processor. *)
Definition wrap (w : delegate) (proto : bytes) (tx : T) : rwInterceptor T :=
  mkInterceptor w tx 200 proto false false false false false.

Definition responseProcessor i : run (rwInterceptor T * bool) :=
  if i.(i_isHijacked) then Done (i, false)
  else if api_IsInterrupted i.(i_tx) then Done (i, false)
  else if api_IsResponseBodyAccessible i.(i_tx) && api_IsResponseBodyProcessable i.(i_tx)
          && negb i.(i_wroteBufferedBodyToDownstream) then
    '(tx, it, err) ← api_ProcessResponseBody i.(i_tx);
    let i := i <| i_tx := tx |> in
    match err, it with
    | Some _, _ => Done (flushWriteHeader (overrideWriteHeader StatusInternalServerError i), true)
    | None, Some it => Done (block it i, false)
    | None, None => writeBufferedResponseBodyToDownstream i
    end
  else Done (flushWriteHeader (i <| i_allowFlushing := true |>), false).

(** The handler and then the response processor, which is not reached when the
    handler panics: the state, how the handler ended and whether the response
    processor failed. *)
Definition serve (h : handler) i : run (rwInterceptor T * outcome * bool) :=
  '(i, oc) ← ServeHTTP h true i;
  if oc.(oc_panicked) then Done (i, oc, false)
  else '(i, failed) ← responseProcessor i; Done (i, oc, failed).
End interceptor.

(** ** What a transaction promises *)

(** The interruption of a response body over the limit. *)
Definition limitInterruption : Interruption := mkInterruption 0 (str "deny") 500 [].

(** The states that occur, the interruption, and what a reader still has to
    deliver. *)
Class TransactionView (T : Type) := {
  api_valid : T → Prop;
  api_Interruption : T → option Interruption;
  api_left : T → nat → option bytes;
}.

Definition api_same `{A : TransactionAPI T, !TransactionView T} (tx tx' : T) : Prop :=
  api_valid tx' ∧ api_held tx' = api_held tx ∧ api_Interruption tx' = api_Interruption tx.

Class TransactionLaws (T : Type) `{A : TransactionAPI T, !TransactionView T} : Prop := {
  law_interrupted tx : api_IsInterrupted tx = bool_decide (is_Some (api_Interruption tx));
  law_header k v tx : api_valid tx → api_same tx (api_AddResponseHeader k v tx);
  law_headers code proto tx :
    api_valid tx → api_Interruption tx = None →
    wp (api_ProcessResponseHeaders code proto tx) (λ '(tx', it),
      api_valid tx' ∧ api_held tx' = api_held tx ∧ it = api_Interruption tx');
  law_write b tx :
    api_valid tx → api_Interruption tx = None → Z.of_nat (length b) <= maxInt64 →
    wp (api_WriteResponseBody b tx) (λ '(tx', (it, n, err)),
      api_valid tx' ∧ it = api_Interruption tx' ∧
      (it = None → 0 <= n <= Z.of_nat (length b) ∧ api_held tx' = api_held tx ++ take (Z.to_nat n) b));
  (** Of an interrupted transaction a body limit may replace the interruption. *)
  law_write_interrupted b tx :
    api_valid tx → is_Some (api_Interruption tx) → Z.of_nat (length b) <= maxInt64 →
    wp (api_WriteResponseBody b tx) (λ '(tx', (it, n, err)),
      api_valid tx' ∧
      (api_Interruption tx' = api_Interruption tx ∨ api_Interruption tx' = Some limitInterruption) ∧
      (it = None → n = 0 ∧ api_held tx' = api_held tx));
  law_body tx :
    api_valid tx → api_Interruption tx = None →
    wp (api_ProcessResponseBody tx) (λ '(tx', it, err),
      api_valid tx' ∧ api_held tx' = api_held tx ∧ it = api_Interruption tx');
  law_reader tx :
    api_valid tx → ∃ tx' id, api_ResponseBodyReader tx = (tx', Some id) ∧ api_same tx tx' ∧
      api_left tx' id = Some (api_held tx);
  law_read id n l tx :
    api_valid tx → (0 < n)%nat → api_left tx id = Some l →
    wp (api_Read id n tx) (λ '(tx', got, eof),
      api_same tx tx' ∧ got = take n l ∧ api_left tx' id = Some (drop n l) ∧
      if (eof : bool) then drop n l = [] else got ≠ []);
}.

(** ** The order of the calls *)

(** Go slices are not longer than the largest int, and net/http takes the status
    codes from 200 to 999 as final, and 101. *)
Definition wf_code (code : Z) : Prop := code = StatusSwitchingProtocols ∨ 200 <= code <= 999.

Fixpoint wf_handler (h : handler) : Prop :=
  match h with
  | HReturn | HPanic => True
  | HHeader _ k => ∀ hd, wf_handler (k hd)
  | HWriteHeader code k => wf_code code ∧ wf_handler k
  | HWrite b k => Z.of_nat (length b) <= maxInt64 ∧ ∀ res, wf_handler (k res)
  | HReadFrom _ k => ∀ res, wf_handler (k res)
  | HFlush k => wf_handler k
  | HHijack k => ∀ ok, wf_handler (k ok)
  end.

Lemma copyFrom_inv `{W : ResponseWriter R} (P : R → Prop) r :
  (∀ b s, Z.of_nat (length b) <= maxInt64 → P s → wp (rw_Write b s) (λ '(s', _, _), P s')) →
  ∀ fuel i rest written s, (length rest < fuel)%nat → P s →
  wp (copyFrom fuel i r rest written s) (λ '(s', _, _), P s').
Proof.
  intros HP. induction fuel as [|fuel IH]; intros i rest written s Hf Hs; [lia|]. cbn [copyFrom].
  destruct rest as [|x rest]; [done|]. cbv zeta.
  replace (x :: rest =s []) with false by (symmetry; by apply bytes_eqb_neq).
  set (k := (_ `min` _)%nat). assert (0 < k ≤ copySize)%nat as Hk by (unfold k, copySize; lia).
  eapply wp_bind; [apply HP; [|exact Hs]|].
  - rewrite length_take. unfold copySize, maxInt64 in *. lia.
  - intros [[s' n] err] Hs'. destruct (_ || _); [done|]. apply IH; [|done].
    rewrite length_drop. cbn [length] in *. lia.
Qed.

(** An invariant of the calls holds when the handler ends, and the handler
    ends. *)
Lemma ServeHTTP_inv `{W : ResponseWriter R} (P : R → Prop) :
  (∀ s hd, P s → P (rw_setHeader hd s)) →
  (∀ code s, wf_code code → P s → wp (rw_WriteHeader code s) P) →
  (∀ b s, Z.of_nat (length b) <= maxInt64 → P s → wp (rw_Write b s) (λ '(s', _, _), P s')) →
  (∀ s, P s → wp (rw_Flush s) P) →
  (∀ s, P s → wp (rw_Hijack s) (λ '(s', _), P s')) →
  ∀ h accepted s, wf_handler h → P s → wp (ServeHTTP h accepted s) (λ res, P res.1).
Proof.
  intros Hset Hhead Hwrite Hflush Hhijack.
  induction h as [| |f k IH|code k IH|b k IH|r k IH|k IH|k IH]; intros accepted s Hwf Hs;
    cbn [ServeHTTP wf_handler] in *.
  - exact Hs.
  - exact Hs.
  - apply IH; [apply Hwf|by apply Hset].
  - destruct Hwf as [Hc Hwf]. eapply wp_bind; [by apply Hhead|]. intros s' Hs'. by apply IH.
  - destruct Hwf as [Hb Hwf]. eapply wp_bind; [by apply Hwrite|]. intros [[s' n] err] Hs'. by apply IH.
  - eapply wp_bind; [apply (copyFrom_inv P); [done|lia|done]|]. intros [[s' n] err] Hs'. by apply IH.
  - eapply wp_bind; [by apply Hflush|]. intros s' Hs'. by apply IH.
  - eapply wp_bind; [by apply Hhijack|]. intros [s' ok] Hs'. by apply IH.
Qed.

Definition isHijack (e : event) : Prop := e = EHijack.
Definition notHeader (e : event) : Prop := match e with EHeader _ _ => False | _ => True end.

(** A status was sent, once and before anything but attempts to hijack. *)
Definition started (code : Z) (h : Header) (log : list event) : Prop :=
  ∃ pre post, log = pre ++ EHeader code h :: post ∧ Forall isHijack pre ∧ Forall notHeader post.

Lemma started_emit code h log e : notHeader e → started code h log → started code h (log ++ [e]).
Proof.
  intros He (pre & post & -> & Hpre & Hpost). exists pre, (post ++ [e]). split; [by rewrite <- app_assoc|].
  split; [done|]. apply Forall_app. by split; [|constructor].
Qed.

Lemma started_first code h log : Forall isHijack log → started code h (log ++ [EHeader code h]).
Proof. intros Hl. by exists log, []. Qed.

(** The order of the calls, by whether the status was sent. *)
Definition ordered (flushed : bool) (log : list event) : Prop :=
  if flushed then ∃ code h, started code h log else Forall isHijack log.

Lemma ordered_emit log e : notHeader e → ordered true log → ordered true (log ++ [e]).
Proof. intros He (code & h & Hs). exists code, h. by apply started_emit. Qed.

Lemma ordered_hijack flushed log : ordered flushed log → ordered flushed (log ++ [EHijack]).
Proof.
  destruct flushed; [by apply ordered_emit|]. intros Hl. apply Forall_app. by split; [|constructor].
Qed.

Section order.
Context `{O : !MapOrder, V : !Server, A : TransactionAPI T, W : !TransactionView T, L : !TransactionLaws T}.
Implicit Types (i : rwInterceptor T).

(** What holds of an interceptor at any time. *)
Record wf_interceptor i : Prop := {
  wi_valid : api_valid i.(i_tx);
  wi_ordered : ordered i.(i_isWriteHeaderFlush) i.(i_w).(dg_log);
  wi_fresh : i.(i_wroteHeader) = false →
    i.(i_isWriteHeaderFlush) = false ∧ i.(i_wroteBufferedBodyToDownstream) = false ∧
    api_held i.(i_tx) = [] ∧ api_Interruption i.(i_tx) = None ∧ i.(i_statusCode) = StatusOK;
  wi_blocked : is_Some (api_Interruption i.(i_tx)) → i.(i_isWriteHeaderFlush) = true;
}.

Lemma api_same_refl tx : api_valid tx → api_same tx tx.
Proof. done. Qed.

Lemma api_same_trans tx tx' tx'' : api_same tx tx' → api_same tx' tx'' → api_same tx tx''.
Proof. intros (_ & H1 & H2) (H3 & H4 & H5). split; [done|]. split; congruence. Qed.

Lemma addHeaders_same h tx : api_valid tx → api_same tx (addHeaders h tx).
Proof.
  unfold addHeaders. generalize (range h). intros l. revert tx.
  assert (∀ vs k tx, api_valid tx → api_same tx (foldl (λ tx v, api_AddResponseHeader k v tx) tx vs)) as Hin.
  { induction vs as [|v vs IH]; intros k tx Hv; cbn [foldl]; [done|].
    pose proof (law_header k v tx Hv) as H1. eapply api_same_trans; [done|]. apply IH, H1. }
  induction l as [|[k vs] l IH]; intros tx Hv; cbn [foldl]; [done|].
  pose proof (Hin vs k tx Hv) as H1. eapply api_same_trans; [done|]. apply IH, H1.
Qed.

(** The writer below received the status. *)
Definition flushed i : Prop := i.(i_isWriteHeaderFlush) = true ∧ ordered true i.(i_w).(dg_log).

Lemma flushWriteHeader_flushed i :
  ordered i.(i_isWriteHeaderFlush) i.(i_w).(dg_log) → flushed (flushWriteHeader i).
Proof.
  unfold flushed, flushWriteHeader. destruct (i_isWriteHeaderFlush i) eqn:E; [by rewrite E|].
  intros Hl. split; [done|]. cbn. eexists _, _. by apply started_first.
Qed.

Lemma flushWriteHeader_tx i : (flushWriteHeader i).(i_tx) = i.(i_tx).
Proof. unfold flushWriteHeader. by destruct (i_isWriteHeaderFlush i). Qed.

Lemma flushWriteHeader_wroteHeader i : (flushWriteHeader i).(i_wroteHeader) = i.(i_wroteHeader).
Proof. unfold flushWriteHeader. by destruct (i_isWriteHeaderFlush i). Qed.

Lemma wf_flushed i :
  flushed i → i.(i_wroteHeader) = true → api_valid i.(i_tx) → wf_interceptor i.
Proof. intros [Hf Ho] Hw Hv. split; [done|by rewrite Hf|congruence|done]. Qed.

Lemma writeDown_flushed b i : flushed i → flushed (writeDown b i).1.1.
Proof.
  intros [Hf Ho]. unfold writeDown, dg_Write. destruct (accepts _ _) as [n err]. split; [done|].
  cbn. by apply ordered_emit.
Qed.

(** The interceptor after an interruption. *)
Lemma block_wf it i :
  api_valid i.(i_tx) → ordered i.(i_isWriteHeaderFlush) i.(i_w).(dg_log) → i.(i_wroteHeader) = true →
  wf_interceptor (block it i).
Proof.
  intros Hv Ho Hw. unfold block. cbv zeta. apply wf_flushed.
  - by apply flushWriteHeader_flushed.
  - by rewrite flushWriteHeader_wroteHeader.
  - by rewrite flushWriteHeader_tx.
Qed.

Lemma WriteHeader_wf code i :
  wf_interceptor i →
  wp (WriteHeader code i) (λ i', wf_interceptor i' ∧ i'.(i_wroteHeader) = true).
Proof.
  intros Hwf. unfold WriteHeader. destruct (i_wroteHeader i) eqn:Ew; [done|].
  destruct Hwf as [Hv Ho Hfr Hb].
  destruct (Hfr Ew) as (Hf & Hbuf & Hh & Hi & _). cbv zeta. cbn.
  destruct (addHeaders_same i.(i_w).(dg_header) _ Hv) as (Hv1 & Hh1 & Hi1).
  eapply wp_bind; [apply law_headers; [done|congruence]|]. intros [tx it] (Hv2 & Hh2 & ->).
  destruct (api_Interruption tx) as [it|] eqn:Eit.
  - split; [by apply block_wf|]. unfold block. by rewrite flushWriteHeader_wroteHeader.
  - match goal with |- wp (Done (if ?c then ?x <| i_allowFlushing := true |> else ?y)) _ =>
      enough (wf_interceptor x ∧ i_wroteHeader x = true) as [[????] ?] by (by destruct c) end.
    destruct (code =? _).
    + split; [|by rewrite flushWriteHeader_wroteHeader]. apply wf_flushed.
      * by apply flushWriteHeader_flushed.
      * by rewrite flushWriteHeader_wroteHeader.
      * by rewrite flushWriteHeader_tx.
    + split; [|done]. split; [done|done|done|]. cbn. rewrite Eit. by intros [].
Qed.

(** The writes that were passed on, and their bytes. *)
Definition bodies_of (log : list event) : list bytes :=
  omap (λ e, match e with EWrite b => Some b | _ => None end) log.
Definition written (log : list event) : bytes := concat (bodies_of log).

Lemma bodies_of_emit log e :
  bodies_of (log ++ [e]) = bodies_of log ++ match e with EWrite b => [b] | _ => [] end.
Proof. unfold bodies_of. rewrite omap_app. by destruct e. Qed.

Lemma written_emit log e :
  written (log ++ [e]) = written log ++ match e with EWrite b => b | _ => [] end.
Proof.
  unfold written. rewrite bodies_of_emit, concat_app. destruct e; cbn; by rewrite ?app_nil_r.
Qed.

(** A writer that takes everything. *)
Definition accepting : Prop := ∀ log b, accepts log b = (length b, false).

(** [log'] is [log] after calls other than sending a status. *)
Definition extends (log log' : list event) : Prop := ∃ es, log' = log ++ es ∧ Forall notHeader es.

Lemma extends_refl log : extends log log.
Proof. exists []. by rewrite app_nil_r. Qed.

Lemma extends_emit log log' e : notHeader e → extends log log' → extends log (log' ++ [e]).
Proof.
  intros He (es & -> & Hes). exists (es ++ [e]). split; [by rewrite <- app_assoc|].
  apply Forall_app. by split; [|constructor].
Qed.

Lemma extends_trans log log' log'' : extends log log' → extends log' log'' → extends log log''.
Proof.
  intros (es & -> & Hes) (es' & -> & Hes'). exists (es ++ es'). split; [by rewrite app_assoc|].
  by apply Forall_app.
Qed.

Lemma started_extends code h log log' : started code h log → extends log log' → started code h log'.
Proof.
  intros (pre & post & -> & Hpre & Hpost) (es & -> & Hes). exists pre, (post ++ es).
  split; [by rewrite <- app_assoc|]. split; [done|]. by apply Forall_app.
Qed.

Lemma flushed_extends i w tx :
  flushed i → extends i.(i_w).(dg_log) w.(dg_log) → flushed (i <| i_w := w |> <| i_tx := tx |>).
Proof. intros [Hf (c & h & Hs)] He. split; [done|]. exists c, h. by eapply started_extends. Qed.

(** Copying a reader down: the calls are writes, of all that was left when the
    writer takes everything. *)
Lemma copyDown_spec reader : ∀ fuel i l,
  api_valid i.(i_tx) → api_left i.(i_tx) reader = Some l → (length l < fuel)%nat →
  wp (copyDown fuel reader i) (λ '(i', failed), ∃ w tx,
    i' = i <| i_w := w |> <| i_tx := tx |> ∧ api_same i.(i_tx) tx ∧
    extends i.(i_w).(dg_log) w.(dg_log) ∧ (l = [] → w = i.(i_w)) ∧ w.(dg_header) = i.(i_w).(dg_header) ∧
    (accepting → failed = false ∧ written w.(dg_log) = written i.(i_w).(dg_log) ++ l)).
Proof.
  induction fuel as [|fuel IH]; intros i l Hv Hl Hf; [lia|]. cbn [copyDown].
  eapply wp_bind; [apply (law_read reader copySize l); [done|unfold copySize; lia|done]|].
  intros [[tx got] eof] (Hs & -> & Hl' & Heof). cbv zeta.
  assert (∃ w failed, (if take copySize l =s [] then (i <| i_tx := tx |>, false)
      else let '(i, n, err) := writeDown (take copySize l) (i <| i_tx := tx |>) in
           (i, err || negb (n =? Z.of_nat (length (take copySize l))))) =
      (i <| i_w := w |> <| i_tx := tx |>, failed) ∧
    extends i.(i_w).(dg_log) w.(dg_log) ∧ (l = [] → w = i.(i_w)) ∧ w.(dg_header) = i.(i_w).(dg_header) ∧
    (accepting → failed = false ∧ written w.(dg_log) = written i.(i_w).(dg_log) ++ take copySize l))
    as (w & failed & -> & He & Hnil & Hd & Hacc).
  { destruct (take copySize l =s []) eqn:Enil.
    - apply bytes_eqb_eq in Enil. rewrite Enil. exists i.(i_w), false. split; [by destruct i|].
      split; [apply extends_refl|]. do 2 (split; [done|]). by rewrite app_nil_r.
    - unfold writeDown, dg_Write. cbn [i_w setf]. destruct (accepts _ _) as [n err] eqn:Ea.
      eexists _, _. split; [reflexivity|]. split; [by apply extends_emit, extends_refl|].
      split; [intros ->; by rewrite take_nil in Enil|]. split; [done|]. intros Hacc. rewrite Hacc in Ea. injection Ea as <- <-. rewrite Z.eqb_refl. split; [done|].
      exact (written_emit _ (EWrite _)). }
  destruct failed.
  { exists w, tx. do 5 (split; [done|]). intros H. by destruct (Hacc H). }
  destruct eof.
  { exists w, tx. do 5 (split; [done|]). intros H. split; [done|].
    destruct (Hacc H) as [_ ->]. by rewrite <- (take_drop copySize l) at 2; rewrite Heof, app_nil_r. }
  eapply wp_mono; [apply (IH _ (drop copySize l)); [apply Hs|done|]|].
  - rewrite length_drop. destruct l as [|x l]; [by rewrite take_nil in Heof|]. cbn [length] in *.
    unfold copySize in *. lia.
  - intros [i' failed'] (w' & tx' & -> & Hs' & He' & Hnil' & Hd' & Hacc'). cbn [i_w i_tx setf] in *.
    exists w', tx'. split; [done|]. split; [by eapply api_same_trans|]. split; [|split; [|split]].
    + by eapply extends_trans.
    + intros ->. rewrite Hnil' by apply drop_nil. by apply Hnil.
    + congruence.
    + intros H. destruct (Hacc H) as [_ E], (Hacc' H) as [-> E']. split; [done|].
      by rewrite E', E, <- app_assoc, take_drop.
Qed.

Lemma flushWriteHeader_written i :
  written (flushWriteHeader i).(i_w).(dg_log) = written i.(i_w).(dg_log).
Proof.
  unfold flushWriteHeader. destruct (i_isWriteHeaderFlush i); [done|].
  etrans; [exact (written_emit _ (EHeader _ _))|]. apply app_nil_r.
Qed.

Lemma writeBuffered_spec i :
  api_valid i.(i_tx) → i.(i_wroteBufferedBodyToDownstream) = false →
  wp (writeBufferedResponseBodyToDownstream i) (λ '(i', failed), ∃ w tx,
    i' = (flushWriteHeader i) <| i_w := w |> <| i_tx := tx |>
           <| i_wroteBufferedBodyToDownstream := negb failed |> ∧
    api_same i.(i_tx) tx ∧ extends (flushWriteHeader i).(i_w).(dg_log) w.(dg_log) ∧
    (api_held i.(i_tx) = [] → w = (flushWriteHeader i).(i_w)) ∧ w.(dg_header) = i.(i_w).(dg_header) ∧
    (accepting → failed = false ∧ written w.(dg_log) = written i.(i_w).(dg_log) ++ api_held i.(i_tx))).
Proof.
  intros Hv Hb. unfold writeBufferedResponseBodyToDownstream. rewrite Hb.
  destruct (law_reader _ Hv) as (tx & id & -> & (Hv' & Hh & Hi) & Hl). cbv zeta.
  set (i1 := flushWriteHeader (i <| i_tx := tx |>)).
  assert (i1 = (flushWriteHeader i) <| i_tx := tx |>) as E1.
  { unfold i1, flushWriteHeader. cbn. by destruct (i_isWriteHeaderFlush i). }
  eapply wp_bind; [apply (copyDown_spec id _ i1 (api_held i.(i_tx)))|].
  - unfold i1. by rewrite flushWriteHeader_tx.
  - unfold i1. by rewrite flushWriteHeader_tx.
  - unfold i1. rewrite flushWriteHeader_tx. cbn. rewrite Hh. lia.
  - intros [i' failed] (w & tx' & -> & Hs & He & Hnil & Hd & Hacc). rewrite E1 in *. cbn [i_w i_tx setf] in *.
    assert (api_same i.(i_tx) tx') as Hs' by (by eapply api_same_trans).
    assert (w.(dg_header) = i.(i_w).(dg_header)) as Hd'.
    { rewrite Hd. unfold flushWriteHeader. by destruct (i_isWriteHeaderFlush i). }
    destruct failed; exists w, tx'; (split;
      [destruct i; cbn in Hb; subst; unfold flushWriteHeader; cbn; by case_match|]);
      do 4 (split; [done|]); intros H; destruct (Hacc H) as [? E]; [done|].
    split; [done|]. by rewrite E, flushWriteHeader_written.
Qed.

Lemma flushWriteHeader_wf i : wf_interceptor i → i.(i_wroteHeader) = true → wf_interceptor (flushWriteHeader i).
Proof.
  intros [Hv Ho _ _] Hw. apply wf_flushed; [by apply flushWriteHeader_flushed| |].
  - by rewrite flushWriteHeader_wroteHeader.
  - by rewrite flushWriteHeader_tx.
Qed.

Lemma writeDown_wf b i :
  wf_interceptor i → i.(i_isWriteHeaderFlush) = true → wf_interceptor (writeDown b i).1.1.
Proof.
  intros [Hv Ho Hfr Hbl] Hf. unfold writeDown, dg_Write. destruct (accepts _ _) as [n err].
  split; [done| |done|done]. cbn. rewrite Hf in *. by apply ordered_emit.
Qed.

Lemma writeBody_wf b i :
  Z.of_nat (length b) <= maxInt64 → wf_interceptor i → i.(i_wroteHeader) = true →
  wp (writeBody b i) (λ '(i', _, _), wf_interceptor i').
Proof.
  intros Hb [Hv Ho Hfr Hbl] Hw. unfold writeBody. destruct (_ && _ && _) eqn:Ec.
  - apply andb_true_iff in Ec as [_ Hnb%negb_true_iff].
    eapply wp_bind with (R := λ res, api_valid res.1 ∧ (is_Some (api_Interruption res.1) →
      is_Some res.2.1.1 ∨ i.(i_isWriteHeaderFlush) = true) ∧
      (res.2.1.1 = None → 0 <= res.2.1.2 <= Z.of_nat (length b))).
    { destruct (api_Interruption (i_tx i)) as [it|] eqn:Eit.
      - eapply wp_mono; [apply law_write_interrupted; [done|by eexists|done]|].
        intros [tx' [[it' n] err]] (? & _ & Hn). split; [done|]. split.
        + intros _. right. apply Hbl. by eexists.
        + cbn. intros Hit. destruct (Hn Hit) as [-> _]. lia.
      - eapply wp_mono; [by apply law_write|]. intros [tx' [[it' n] err]] (? & -> & Hn). split; [done|].
        split; [by left|]. cbn. intros Hit. by apply Hn. }
    intros [tx [[it n] err]] (Hv' & Hi & Hn). cbn [fst snd] in *. cbv zeta. destruct it as [it|].
    { by apply block_wf. }
    assert (wf_interceptor (i <| i_tx := tx |>)) as Hwf.
    { split; [done|done|cbn; congruence|]. cbn. intros Hs. destruct (Hi Hs) as [[]|]; done. }
    destruct err as [e|]; [done|]. destruct (_ =? _); [done|].
    eapply wp_bind; [by apply (writeBuffered_spec (i <| i_tx := tx |>))|].
    intros [i' failed] (w & tx' & -> & (Hv2 & _) & He & _).
    assert (wf_interceptor ((flushWriteHeader (i <| i_tx := tx |>)) <| i_w := w |> <| i_tx := tx' |>
      <| i_wroteBufferedBodyToDownstream := negb failed |>)) as Hwf'.
    { apply wf_flushed; [|cbn; by rewrite flushWriteHeader_wroteHeader|done].
      apply (flushed_extends _ w tx'); [by apply flushWriteHeader_flushed|done]. }
    destruct failed; [done|]. rewrite slice_ok by (specialize (Hn eq_refl); lia). run_simpl.
    match goal with |- context [writeDown ?b ?j] => set (i2 := j) in *; set (rest := b) end.
    pose proof (writeDown_wf rest i2 Hwf') as H. destruct (writeDown rest i2) as [[i3 n2] e2]. apply H.
    cbn. unfold flushWriteHeader. by destruct (i_isWriteHeaderFlush _) eqn:?.
  - pose proof (writeDown_wf b (flushWriteHeader i)) as H.
    destruct (writeDown b (flushWriteHeader i)) as [[i3 n2] e2]. apply H.
    + by apply flushWriteHeader_wf.
    + unfold flushWriteHeader. by destruct (i_isWriteHeaderFlush _) eqn:?.
Qed.

Lemma rwWrite_wf b i :
  Z.of_nat (length b) <= maxInt64 → wf_interceptor i → wp (Write b i) (λ '(i', _, _), wf_interceptor i').
Proof.
  intros Hb Hwf. unfold Write. destruct (api_IsInterrupted _); [done|].
  eapply wp_bind with (R := λ i, wf_interceptor i ∧ i.(i_wroteHeader) = true).
  - destruct (i_wroteHeader i) eqn:Ew; [done|]. by apply WriteHeader_wf.
  - intros i' []. by apply writeBody_wf.
Qed.

Lemma Flush_wf i : wf_interceptor i → wp (Flush i) wf_interceptor.
Proof.
  intros Hwf. unfold Flush. eapply wp_bind with (R := wf_interceptor).
  { destruct (i_wroteHeader i); [done|]. eapply wp_mono; [by apply WriteHeader_wf|]. by intros i' []. }
  clear i Hwf. intros i Hwf. destruct (_ && _) eqn:E; [|done]. apply andb_true_iff in E as [_ Hf].
  destruct Hwf as [Hv Ho Hfr Hbl]. split; [done| |done|done]. cbn. rewrite Hf in *.
  unfold dg_Flush. destruct isFlusher; [|done]. by apply ordered_emit.
Qed.

Lemma Hijack_wf i : wf_interceptor i → wp (Hijack i) (λ '(i', _), wf_interceptor i').
Proof.
  intros [Hv Ho Hfr Hbl]. unfold Hijack, dg_Hijack.
  assert (ordered i.(i_isWriteHeaderFlush) (emit EHijack i.(i_w)).(dg_log)) as Ho' by (by apply ordered_hijack).
  destruct isHijacker; [destruct (hijacks _)|]; by split.
Qed.

Lemma ServeHTTP_wf h accepted i :
  wf_handler h → wf_interceptor i → wp (ServeHTTP h accepted i) (λ res, wf_interceptor res.1).
Proof.
  apply ServeHTTP_inv; cbn.
  - intros s hd [Hv Ho Hfr Hbl]. by split.
  - intros code s _ Hwf. eapply wp_mono; [by apply WriteHeader_wf|]. by intros i' [].
  - intros b s. apply rwWrite_wf.
  - apply Flush_wf.
  - apply Hijack_wf.
Qed.

Lemma responseProcessor_flushed i :
  wf_interceptor i →
  wp (responseProcessor i) (λ '(i', _), api_valid i'.(i_tx) ∧
    if i.(i_isHijacked) then i' = i else flushed i').
Proof.
  intros [Hv Ho Hfr Hbl]. unfold responseProcessor. destruct (i_isHijacked i); [done|].
  rewrite law_interrupted. case_bool_decide as Hi.
  { cbn. split; [done|]. split; [by apply Hbl|]. by rewrite (Hbl Hi) in Ho. }
  assert (∀ i', api_valid i'.(i_tx) → ordered i'.(i_isWriteHeaderFlush) i'.(i_w).(dg_log) →
    api_valid (flushWriteHeader i').(i_tx) ∧ flushed (flushWriteHeader i')) as Hflush.
  { intros i' Hv' Ho'. rewrite flushWriteHeader_tx. split; [done|]. by apply flushWriteHeader_flushed. }
  destruct (_ && _ && _) eqn:Ec; [|by apply Hflush].
  apply andb_true_iff in Ec as [_ Hnb%negb_true_iff].
  eapply wp_bind; [apply law_body; [done|by apply eq_None_not_Some]|].
  intros [[tx it] err] (Hv' & _ & _). cbv zeta.
  destruct err as [e|]; [by apply Hflush|]. destruct it as [it|]; [by apply Hflush|].
  eapply wp_mono; [by apply (writeBuffered_spec (i <| i_tx := tx |>))|].
  intros [i' failed] (w & tx' & -> & (Hv2 & _) & He & _). split; [done|].
  apply (flushed_extends _ w tx'); [by apply flushWriteHeader_flushed|done].
Qed.

Definition fresh (w : delegate) (tx : T) : Prop :=
  w.(dg_log) = [] ∧ api_valid tx ∧ api_held tx = [] ∧ api_Interruption tx = None.

Lemma wrap_wf w proto tx : fresh w tx → wf_interceptor (wrap w proto tx).
Proof.
  intros (Hl & Hv & Hh & Hi). split; [done| |done|].
  - cbn. rewrite Hl. constructor.
  - cbn. rewrite Hi. by intros [].
Qed.

(** Whatever the handler does and however the server answers, the run returns,
    the server receives the status at most once and before any write or flush,
    and exactly once unless the handler hijacked the connection or panicked. *)
Lemma serve_order h w proto tx :
  wf_handler h → fresh w tx →
  ∃ i oc failed, serve h (wrap w proto tx) = Done (i, oc, failed) ∧ api_valid i.(i_tx) ∧
    ordered i.(i_isWriteHeaderFlush) i.(i_w).(dg_log) ∧
    (oc.(oc_panicked) = false → i.(i_isHijacked) = false → ∃ code hd, started code hd i.(i_w).(dg_log)).
Proof.
  intros Hh Hf. unfold serve.
  destruct (wp_elim _ _ (ServeHTTP_wf h true _ Hh (wrap_wf w proto tx Hf))) as ([i oc] & -> & Hwf).
  run_simpl. cbn [fst] in Hwf. destruct (oc_panicked oc) eqn:Ep.
  { exists i, oc, false. split; [done|]. split; [by apply Hwf|]. split; [by apply wi_ordered|congruence]. }
  destruct (wp_elim _ _ (responseProcessor_flushed i Hwf)) as ([i' failed] & -> & Hv & H). run_simpl.
  exists i', oc, failed. split; [done|]. split; [done|]. destruct (i_isHijacked i) eqn:Eh.
  - subst i'. split; [by apply wi_ordered|congruence].
  - destruct H as [Hfl Ho]. rewrite Hfl. split; [done|]. by intros _ _.
Qed.
End order.

(** ** The response *)

(** The status a server sends, by the calls so far. *)
Fixpoint statusOf (log : list event) : option Z :=
  match log with
  | [] => None
  | EHeader code _ :: _ => Some code
  | EWrite _ :: _ | EFlush :: _ => Some StatusOK
  | EHijack :: log => statusOf log
  end.

Lemma statusOf_emit log e :
  statusOf (log ++ [e]) =
    match statusOf log with
    | Some code => Some code
    | None => match e with EHeader code _ => Some code | EHijack => None | _ => Some StatusOK end
    end.
Proof. induction log as [|[] log IH]; cbn; [by destruct e|done..|exact IH]. Qed.

Lemma started_statusOf code h log : started code h log → statusOf log = Some code.
Proof.
  intros (pre & post & -> & Hpre & _). induction Hpre as [|e pre He _ IH]; [done|]. by rewrite He.
Qed.

Lemma hijacks_bodies log : Forall isHijack log → bodies_of log = [].
Proof. induction 1 as [|e log He _ IH]; [done|]. by rewrite He. Qed.

(** Nothing but [Content-Length: 0], and keys that are not in canonical form. *)
Definition bare (h : Header) : Prop :=
  h !! str "Content-Length" = Some [str "0"] ∧
  ∀ k, is_Some (h !! k) → k = str "Content-Length" ∨ CanonicalHeaderKey k ≠ k.

Lemma cleaned_canonical `{O : !MapOrder} h k : CanonicalHeaderKey k = k → cleaned h !! k = None.
Proof.
  intros Hk. unfold cleaned. destruct (h !! k) as [vs|] eqn:Eh.
  - assert ((k, vs) ∈ range h) as Hin by (rewrite range_perm; by apply elem_of_map_to_list).
    induction (range h) as [|kvs l IH]; [by apply not_elem_of_nil in Hin|]. cbn [foldr]. unfold Header_Del.
    apply elem_of_cons in Hin as [<-|Hin]; [cbn [fst]; by rewrite Hk, lookup_delete_eq|].
    destruct (decide (CanonicalHeaderKey kvs.1 = k)) as [->|Hne]; [by rewrite lookup_delete_eq|].
    rewrite lookup_delete_ne by done. by apply IH.
  - induction (range h) as [|kvs l IH]; [done|]. cbn [foldr]. unfold Header_Del.
    by apply lookup_delete_None; right.
Qed.

Lemma bare_blocked `{O : !MapOrder} h : bare (Header_Set (str "Content-Length") (str "0") (cleaned h)).
Proof.
  unfold Header_Set. change (CanonicalHeaderKey (str "Content-Length")) with (str "Content-Length").
  split; [by rewrite lookup_insert_eq|]. intros k Hk.
  destruct (decide (k = str "Content-Length")) as [->|Hne]; [by left|right]. intros Hc.
  rewrite lookup_insert_ne in Hk by done. rewrite cleaned_canonical in Hk by done. by destruct Hk.
Qed.

Section response.
Context `{O : !MapOrder, V : !Server, A : TransactionAPI T, W : !TransactionView T, L : !TransactionLaws T}.
Context (Hacc : accepting).
Implicit Types (i : rwInterceptor T).

(** Whether the interceptor keeps the body back. *)
Definition holdsBack i : bool := inspects i.(i_tx) && negb i.(i_wroteBufferedBodyToDownstream).

(** Not interrupted: nothing of a body that is kept back was sent, and no status
    but that of a switch of protocols. *)
Record calm i : Prop := {
  cm_wf : wf_interceptor i;
  cm_calm : api_Interruption i.(i_tx) = None;
  cm_status : i.(i_isWriteHeaderFlush) = true → ∃ h, started i.(i_statusCode) h i.(i_w).(dg_log);
  cm_holdsBack : holdsBack i = true → bodies_of i.(i_w).(dg_log) = [] ∧
    (i.(i_isWriteHeaderFlush) = true → i.(i_statusCode) = StatusSwitchingProtocols);
}.

(** The interruption [it] of the response header rules, for a handler that started
    with a write, was replaced when the body that it wrote exceeded the limit. *)
Definition overtaken (it : Interruption) (tx : T) : Prop :=
  api_Interruption tx = Some limitInterruption ∧
  ∃ proto tx0 tx1 b tx2 res, api_Interruption tx0 = None ∧
    api_ProcessResponseHeaders StatusOK proto tx0 = Done (tx1, Some it) ∧
    api_WriteResponseBody b tx1 = Done (tx2, res) ∧ api_Interruption tx2 = Some limitInterruption.

(** The status of a blocked response whose handler announced [d]: that of the
    interruption, or [d] when it does not deny; only a switch of protocols was
    announced before. *)
Definition blocked_status (d : Z) (tx : T) (log : list event) : Prop :=
  ∃ code h, started code h log ∧
    (code = StatusSwitchingProtocols ∧ d = StatusSwitchingProtocols ∨
     bare h ∧ ∃ it, code = obtainStatusCodeFromInterruptionOrDefault it d ∧
       (api_Interruption tx = Some it ∨ d = StatusOK ∧ overtaken it tx)).

(** Interrupted: the status was sent, and at most one write was passed on. *)
Record blocked (d : Z) i : Prop := {
  bl_wf : wf_interceptor i;
  bl_interrupted : is_Some (api_Interruption i.(i_tx));
  bl_wrote : i.(i_wroteHeader) = true;
  bl_status : blocked_status d i.(i_tx) i.(i_w).(dg_log);
  bl_bodies : (length (bodies_of i.(i_w).(dg_log)) ≤ 1)%nat;
}.

(** The first interruption of a response whose body was not sent. *)
Lemma block_status it i :
  ordered i.(i_isWriteHeaderFlush) i.(i_w).(dg_log) →
  api_Interruption i.(i_tx) = Some it → bodies_of i.(i_w).(dg_log) = [] →
  (i.(i_isWriteHeaderFlush) = true → i.(i_statusCode) = StatusSwitchingProtocols ∧
     ∃ h, started StatusSwitchingProtocols h i.(i_w).(dg_log)) →
  blocked_status i.(i_statusCode) (block it i).(i_tx) (block it i).(i_w).(dg_log) ∧
  bodies_of (block it i).(i_w).(dg_log) = [].
Proof.
  intros Ho Hi Hb Hst. unfold blocked_status, block, flushWriteHeader. cbn.
  destruct (i_isWriteHeaderFlush i) eqn:Ef.
  - split; [|done]. destruct (Hst eq_refl) as [H101 [h Hs]]. exists StatusSwitchingProtocols, h. split; [done|]. by left.
  - cbn. split; [|by rewrite bodies_of_emit, Hb].
    eexists _, _. split; [cbn; by apply started_first|]. right. split; [apply bare_blocked|].
    eexists. split; [reflexivity|]. by left.
Qed.

Lemma block_blocked it i :
  api_valid i.(i_tx) → ordered i.(i_isWriteHeaderFlush) i.(i_w).(dg_log) → i.(i_wroteHeader) = true →
  api_Interruption i.(i_tx) = Some it → bodies_of i.(i_w).(dg_log) = [] →
  (i.(i_isWriteHeaderFlush) = true → i.(i_statusCode) = StatusSwitchingProtocols ∧
     ∃ h, started StatusSwitchingProtocols h i.(i_w).(dg_log)) →
  blocked i.(i_statusCode) (block it i) ∧ bodies_of (block it i).(i_w).(dg_log) = [].
Proof.
  intros Hv Ho Hw Hi Hb Hst. destruct (block_status it i Ho Hi Hb Hst) as [Hs Hb'].
  split; [|done]. split; [by apply block_wf| | |done|rewrite Hb'; cbn; lia].
  - unfold block. rewrite flushWriteHeader_tx. cbn. by eexists.
  - unfold block. by rewrite flushWriteHeader_wroteHeader.
Qed.

(** ** The handler without the interceptor *)

(** The bytes kept back are lost: the body was inspected when they were written
    and no longer is. *)
Definition lost i : Prop :=
  inspects i.(i_tx) = false ∧ i.(i_wroteBufferedBodyToDownstream) = false ∧ api_held i.(i_tx) ≠ [].

(** The same header fields, status and body as a server that was called
    directly. *)
Record sim i (hd : Header) (st : option Z) (body : bytes) : Prop := {
  sm_header : i.(i_w).(dg_header) = hd;
  sm_hijacked : i.(i_isHijacked) = false;
  sm_status : st = if i.(i_wroteHeader) then Some i.(i_statusCode) else None;
  sm_body : lost i ∨
    body = written i.(i_w).(dg_log) ++ (if holdsBack i then api_held i.(i_tx) else []);
}.

(** Blocked by the header rules, before anything of the body. *)
Definition refused (code : Z) i : Prop :=
  blocked code i ∧ bodies_of i.(i_w).(dg_log) = [] ∧ api_held i.(i_tx) = [] ∧
  ∃ it proto tx0 h, api_Interruption tx0 = None ∧
    api_ProcessResponseHeaders code proto tx0 = Done (i.(i_tx), Some it) ∧ api_Interruption i.(i_tx) = Some it ∧
    started (obtainStatusCodeFromInterruptionOrDefault it code) h i.(i_w).(dg_log) ∧ bare h.

(** The status that the handler announced, or announces with [code]. *)
Definition requested (code : Z) i : Z := if i.(i_wroteHeader) then i.(i_statusCode) else code.

(** What [WriteHeader] leaves when nothing is interrupted. *)
Definition announced code i i' : Prop :=
  calm i' ∧ (i'.(i_wroteHeader) = true ∧ i'.(i_statusCode) = requested code i) ∧
  ∀ hd st body, sim i hd st body → sim i' hd (Some (default code st)) body.

Lemma announced_flushing code i i' (c : bool) :
  announced code i i' → announced code i (if c then i' <| i_allowFlushing := true |> else i').
Proof.
  intros (Hc & H2 & H3). destruct c; [|done]. destruct Hc as [[????]???].
  split; [by split; [split|..]|]. split; [done|].
  intros hd st body [????]%H3. by split.
Qed.

Lemma announced_flushed code i i' :
  i'.(i_statusCode) = StatusSwitchingProtocols → i'.(i_isWriteHeaderFlush) = false →
  announced code i i' → announced code i (flushWriteHeader i').
Proof.
  intros Hs Hf ([Hwf Hc Hst Hb] & [H2 H2'] & H3).
  pose proof (wi_ordered _ Hwf) as Ho. rewrite Hf in Ho.
  pose proof (flushWriteHeader_written i') as Hw. unfold flushWriteHeader in *. rewrite Hf in *. split; [split|].
  - pose proof (flushWriteHeader_wf i' Hwf H2) as H. unfold flushWriteHeader in H. by rewrite Hf in H.
  - done.
  - intros _. eexists. cbn. by apply started_first.
  - intros [E _]%Hb. split; [|done]. cbn. by rewrite bodies_of_emit, E.
  - split; [done|]. intros hd st body [S1 S2 S3 S4]%H3. split; [done..|]. destruct S4 as [S4|S4]; [by left|right].
    by rewrite S4, <- Hw.
Qed.

Lemma WriteHeader_calm code i :
  calm i → wp (WriteHeader code i) (λ i',
    i.(i_wroteHeader) = false ∧ refused code i' ∨ announced code i i').
Proof.
  intros Hc. unfold WriteHeader. destruct (i_wroteHeader i) eqn:Ew.
  { right. split; [done|]. split; [unfold requested; by rewrite Ew|]. intros hd st body [H1 H2 H3 H4]. split; [done..| |done].
    rewrite Ew in *. by subst st. }
  destruct Hc as [[Hv Ho Hfr Hbl] Hcalm Hst Hb]. destruct (Hfr Ew) as (Hf & Hbuf & Hh & Hi & _).
  cbv zeta. cbn. destruct (addHeaders_same i.(i_w).(dg_header) _ Hv) as (Hv1 & Hh1 & Hi1).
  destruct (wp_elim _ _ (law_headers code i.(i_proto) (addHeaders (dg_header (i_w i)) (i_tx i)) Hv1
    ltac:(congruence))) as ([tx it] & HE & (Hv2 & Hh2 & ->)). rewrite HE. run_simpl.
  assert (bodies_of i.(i_w).(dg_log) = []) as Hnb by (apply hijacks_bodies; by rewrite Hf in Ho).
  assert (api_held tx = []) as Hh' by congruence.
  destruct (api_Interruption tx) as [it|] eqn:Eit.
  - left. split; [done|].
    match goal with |- context [block it ?j] => destruct (block_blocked it j) as [H1 H2] end; try done.
    { cbn. congruence. }
    split; [exact H1|]. split; [exact H2|]. unfold block, flushWriteHeader. cbn. rewrite Hf. cbn.
    split; [done|]. exists it. do 3 eexists. split; [|split; [exact HE|split; [done|split]]]; [congruence| |].
    + apply started_first. by rewrite Hf in Ho.
    + apply bare_blocked.
  - right. match goal with |- context [flushWriteHeader ?j] => set (i1 := j) end.
    assert (announced code i i1) as H1.
    { split; [split; [split|..]|split; [unfold requested; by rewrite Ew|]]; try done.
      - cbn. rewrite Eit. by intros [].
      - cbn. congruence.
      - intros _. split; [done|]. cbn. congruence.
      - intros hd st body [S1 S2 S3 S4]. rewrite Ew in S3. subst st. split; [done..|]. right.
        destruct S4 as [(_ & _ & ?)|S4]; [done|]. rewrite Hh in S4. cbn. rewrite Hh'.
        rewrite S4. by destruct (holdsBack _), (holdsBack _). }
    apply announced_flushing. destruct (code =? _) eqn:E101; [|done].
    by apply announced_flushed; [apply Z.eqb_eq in E101|..].
Qed.

Lemma blocked_status_extends d tx tx' log log' :
  blocked_status d tx log → extends log log' → api_Interruption tx' = api_Interruption tx →
  blocked_status d tx' log'.
Proof.
  intros (code & h & Hs & Hc) He Hi. exists code, h. split; [by eapply started_extends|].
  unfold overtaken. by rewrite Hi.
Qed.

Lemma flushWriteHeader_done i : i.(i_isWriteHeaderFlush) = true → flushWriteHeader i = i.
Proof. intros H. unfold flushWriteHeader. by rewrite H. Qed.

Lemma writeDown_eq b i :
  writeDown b i = (i <| i_w ::= emit (EWrite b) |>, Z.of_nat (length b), false).
Proof. unfold writeDown, dg_Write. by rewrite Hacc. Qed.

(** The first write of a handler that sends no status reaches the server even
    when the header rules have just blocked the response. *)
Lemma writeBody_refused b i :
  Z.of_nat (length b) <= maxInt64 → refused StatusOK i → wp (writeBody b i) (λ '(i', _, _), blocked StatusOK i').
Proof.
  intros Hb ([Hwf Hi Hw Hst _] & Hnb & Hh & it0 & proto & tx0 & hd & Hi0 & HE0 & Hit0 & Hst0 & Hbare).
  pose proof (wi_blocked _ Hwf Hi) as Hf.
  assert (∀ tx, (api_Interruption tx = api_Interruption i.(i_tx) ∨ overtaken it0 tx) →
    ∀ i' log', wf_interceptor i' → i'.(i_tx) = tx → i'.(i_wroteHeader) = true → i'.(i_w).(dg_log) = log' →
    (log' = i.(i_w).(dg_log) ∨ ∃ x, log' = i.(i_w).(dg_log) ++ [EWrite x]) → blocked StatusOK i') as Hend.
  { intros tx Hit i' log' Hwf' <- Hw' Hl Hlog. assert (extends i.(i_w).(dg_log) log') as He.
    { destruct Hlog as [->|[x ->]]; [apply extends_refl|by apply extends_emit, extends_refl]. }
    split; [done|destruct Hit as [->|[-> _]]; [by rewrite Hit0|done]|done| |].
    - rewrite Hl. eexists _, hd. split; [by eapply started_extends|]. right. split; [done|]. exists it0.
      split; [done|]. destruct Hit as [->|Hit]; [by left|by right].
    - rewrite Hl. destruct Hlog as [->|[x ->]]; rewrite ?bodies_of_emit, Hnb; cbn; lia. }
  pose proof (writeBody_wf b i Hb Hwf Hw) as Hwf'. apply wp_elim in Hwf' as ([[i' n] err] & HE & Hwf').
  eapply wp_intro; [exact HE|]. revert HE. unfold writeBody. destruct (_ && _ && _) eqn:Ec.
  - apply andb_true_iff in Ec as [_ Hnw%negb_true_iff].
    destruct (wp_elim _ _ (law_write_interrupted b i.(i_tx) (wi_valid _ Hwf) Hi Hb))
      as ([tx [[it m] e]] & HEw & (Hv & Hit' & Hn)).
    assert (∀ tx', api_Interruption tx' = api_Interruption tx →
      api_Interruption tx' = api_Interruption i.(i_tx) ∨ overtaken it0 tx') as Hit.
    { intros tx' E. destruct Hit' as [Hs|Hl]; [left; congruence|right]. split; [congruence|].
      exists proto, tx0, i.(i_tx), b, tx. by eexists. }
    clear Hit'. rewrite HEw. run_simpl. cbv zeta. destruct it as [it|].
    { intros [= <- <- <-]. eapply (Hend tx (Hit tx eq_refl)); [done|..|by left].
      - unfold block. by rewrite flushWriteHeader_tx.
      - unfold block. by rewrite flushWriteHeader_wroteHeader.
      - unfold block. by rewrite flushWriteHeader_done. }
    destruct (Hn eq_refl) as [-> Hh']. destruct e as [e|].
    { intros [= <- <- <-]. eapply (Hend tx (Hit tx eq_refl)); [done..|by left]. }
    destruct (0 =? _). { intros [= <- <- <-]. eapply (Hend tx (Hit tx eq_refl)); [done..|by left]. }
    pose proof (writeBuffered_spec (i <| i_tx := tx |>)) as HB. destruct (wp_elim _ _ (HB Hv Hnw))
      as ([i2 failed] & -> & (w & tx2 & -> & (_ & _ & Hi2) & _ & Hnil & _ & HA)). run_simpl.
    destruct (HA Hacc) as [-> _]. rewrite Hnil in * by (cbn; congruence).
    rewrite (flushWriteHeader_done (i <| i_tx := tx |>)) in * by done. cbn in Hi2.
    rewrite slice_ok by lia. run_simpl. rewrite writeDown_eq. intros [= <- <- <-].
    eapply (Hend tx2 (Hit tx2 Hi2)); [exact Hwf'|done..|]. right. by eexists.
  - rewrite writeDown_eq, flushWriteHeader_done by done. intros [= <- <- <-].
    eapply (Hend i.(i_tx)); [by left|done..|]. right. by eexists.
Qed.

Lemma flush_started i :
  calm i → ∃ h, started i.(i_statusCode) h (flushWriteHeader i).(i_w).(dg_log).
Proof.
  intros [Hwf _ Hst _]. unfold flushWriteHeader. destruct (i_isWriteHeaderFlush i) eqn:Ef; [by apply Hst|].
  eexists. cbn. apply started_first. pose proof (wi_ordered _ Hwf) as Ho. by rewrite Ef in Ho.
Qed.

Lemma flushWriteHeader_statusCode i : (flushWriteHeader i).(i_statusCode) = i.(i_statusCode).
Proof. unfold flushWriteHeader. by destruct (i_isWriteHeaderFlush i). Qed.

(** The interceptor after all of the body so far was passed on. *)
Lemma calm_through i i' :
  calm i → wf_interceptor i' → api_Interruption i'.(i_tx) = None → i'.(i_statusCode) = i.(i_statusCode) →
  extends (flushWriteHeader i).(i_w).(dg_log) i'.(i_w).(dg_log) → holdsBack i' = false → calm i'.
Proof.
  intros Hc Hwf Hi Hs He Hb. split; [done|done| |congruence].
  intros _. destruct (flush_started i Hc) as [h Hst]. exists h. rewrite Hs. by eapply started_extends.
Qed.

(** A write to a response whose body is not kept back. *)
Lemma writeBody_direct b i :
  calm i → i.(i_wroteHeader) = true → holdsBack i = false →
  let i' := (flushWriteHeader i) <| i_w ::= emit (EWrite b) |> in
  calm i' ∧ ∀ hd st body, sim i hd st body → sim i' hd st (body ++ b).
Proof.
  intros Hc Hw Hb i'. pose proof (cm_wf _ Hc) as Hwf.
  assert (holdsBack i' = false) as Hb'.
  { rewrite <- Hb. unfold i', holdsBack, flushWriteHeader. by destruct (i_isWriteHeaderFlush i). }
  split.
  - apply (calm_through i); [done| | | |by apply extends_emit, extends_refl|done].
    + unfold i'. pose proof (writeDown_wf b (flushWriteHeader i)) as H. rewrite writeDown_eq in H. apply H.
      * by apply flushWriteHeader_wf.
      * unfold flushWriteHeader. by destruct (i_isWriteHeaderFlush i) eqn:?.
    + unfold i'. cbn. rewrite flushWriteHeader_tx. by apply cm_calm.
    + apply flushWriteHeader_statusCode.
  - intros hd st body [S1 S2 S3 S4]. split.
    + unfold i', flushWriteHeader. by destruct (i_isWriteHeaderFlush i).
    + unfold i', flushWriteHeader. by destruct (i_isWriteHeaderFlush i).
    + subst st. unfold i', flushWriteHeader. by destruct (i_isWriteHeaderFlush i).
    + destruct S4 as [S4|S4]; [left|right].
      * unfold lost, i', flushWriteHeader in *. by destruct (i_isWriteHeaderFlush i).
      * rewrite Hb'. rewrite Hb, app_nil_r in S4. rewrite S4, app_nil_r, <- (flushWriteHeader_written i).
        symmetry. exact (written_emit _ (EWrite b)).
Qed.

(** A write that the transaction takes entirely. *)
Lemma writeBody_taken b i tx :
  calm i → i.(i_wroteHeader) = true → holdsBack i = true →
  api_valid tx → api_Interruption tx = None →
  let i' := i <| i_tx := tx |> in
  calm i' ∧ (api_held tx = api_held i.(i_tx) ++ b →
    ∀ hd st body, sim i hd st body → sim i' hd st (body ++ b)).
Proof.
  intros Hc Hw Hb Hv Hi i'. destruct (cm_holdsBack _ Hc Hb) as [Hnb Hst]. pose proof (cm_wf _ Hc) as Hwf. split.
  - split; [|done|by apply Hc|done]. split; [done|by apply Hwf|cbn; congruence|]. cbn. rewrite Hi. by intros [].
  - intros Hh hd st body [S1 S2 S3 S4]. split; [done..|].
    assert (body = api_held i.(i_tx)) as ->.
    { apply andb_true_iff in Hb as Hb2. destruct Hb2 as [Hin _].
      destruct S4 as [[S4 _]|S4]; [congruence|]. rewrite Hb in S4. unfold written in S4. by rewrite Hnb in S4. }
    change (dg_log (i_w i')) with (dg_log (i_w i)). unfold written. rewrite Hnb. cbn. rewrite <- Hh.
    destruct (holdsBack i') eqn:Eb; [by right|]. destruct (api_held tx) eqn:Eh; [by right|left].
    unfold holdsBack in *. apply andb_true_iff in Hb as [_ Hnw%negb_true_iff].
    change (i_wroteBufferedBodyToDownstream i') with (i_wroteBufferedBodyToDownstream i) in Eb.
    rewrite Hnw, andb_true_r in Eb. split; [done|]. split; [done|]. cbn. by rewrite Eh.
Qed.

(** Sending what was kept back. *)
Lemma writeBuffered_calm i :
  calm i → i.(i_wroteHeader) = true → i.(i_wroteBufferedBodyToDownstream) = false →
  bodies_of i.(i_w).(dg_log) = [] →
  wp (writeBufferedResponseBodyToDownstream i) (λ '(i', failed), failed = false ∧ calm i' ∧
    (i'.(i_wroteHeader) = true ∧ i'.(i_statusCode) = i.(i_statusCode)) ∧
    i'.(i_isWriteHeaderFlush) = true ∧ holdsBack i' = false ∧
    (i.(i_isHijacked) = false →
      sim i' i.(i_w).(dg_header) (Some i.(i_statusCode)) (api_held i.(i_tx)))).
Proof.
  intros Hc Hw Hnw Hnb. pose proof (cm_wf _ Hc) as Hwf.
  eapply wp_mono; [apply writeBuffered_spec; [by apply Hwf|done]|].
  intros [i' failed] (w & tx & -> & (Hv & Hh & Hi) & He & _ & Hd & HA). destruct (HA Hacc) as [-> Hwr].
  set (i' := (flushWriteHeader i) <| i_w := w |> <| i_tx := tx |> <| i_wroteBufferedBodyToDownstream := _ |>).
  assert (holdsBack i' = false) as Hb' by (unfold holdsBack; cbn; apply andb_false_r).
  assert (i'.(i_wroteHeader) = true) as Hw' by (cbn; by rewrite flushWriteHeader_wroteHeader).
  assert (i'.(i_statusCode) = i.(i_statusCode)) as Hs' by apply flushWriteHeader_statusCode.
  split; [done|]. split; [|split; [done|split; [|split; [done|]]]].
  2: { cbn. unfold flushWriteHeader. by destruct (i_isWriteHeaderFlush i) eqn:?. }
  - apply (calm_through i); [done| |cbn; rewrite Hi; by apply cm_calm|done|done|done].
    apply wf_flushed; [|done|done]. apply (flushed_extends _ w tx); [|done].
    by apply flushWriteHeader_flushed, Hwf.
  - intros Hhj. split; [done| |by rewrite Hw', Hs'|].
    + cbn. unfold flushWriteHeader. by destruct (i_isWriteHeaderFlush i).
    + right. rewrite Hb', app_nil_r. change (dg_log (i_w i')) with (dg_log w).
      rewrite Hwr. unfold written. by rewrite Hnb.
Qed.

(** A write when the response is not interrupted. *)
Definition wrote b i (res : rwInterceptor T * Z * bool) : Prop :=
  let '(i', n, err) := res in
  blocked i.(i_statusCode) i' ∨ calm i' ∧ (i'.(i_wroteHeader) = true ∧ i'.(i_statusCode) = i.(i_statusCode)) ∧
    (err = false → ∀ hd st body, sim i hd st body →
       n = Z.of_nat (length b) ∧ sim i' hd st (body ++ b)).

Lemma writeBody_calm b i :
  Z.of_nat (length b) <= maxInt64 → calm i → i.(i_wroteHeader) = true → wp (writeBody b i) (wrote b i).
Proof.
  intros Hb Hc Hw. pose proof (cm_wf _ Hc) as Hwf. unfold writeBody.
  change (api_IsResponseBodyAccessible _ && _) with (inspects i.(i_tx)).
  change (inspects _ && _) with (holdsBack i). destruct (holdsBack i) eqn:Ehb.
  2: { rewrite writeDown_eq. right. destruct (writeBody_direct b i Hc Hw Ehb) as [H1 H2].
    split; [done|]. split.
    { cbn. split; [by rewrite flushWriteHeader_wroteHeader|apply flushWriteHeader_statusCode]. }
    intros _ hd st body Hsim.
    split; [done|]. by apply H2. }
  eapply wp_bind; [apply law_write; [apply Hwf|by apply cm_calm|done]|].
  intros [tx [[it n] err]] (Hv & -> & Hn). cbv zeta. destruct (api_Interruption tx) as [it|] eqn:Eit.
  { left. destruct (cm_holdsBack _ Hc Ehb) as [Hnb H101].
    destruct (block_blocked it (i <| i_tx := tx |>)) as [H1 _]; try done; [apply Hwf|].
    intros Hf. destruct (cm_status _ Hc Hf) as [h Hst]. split; [by apply H101|]. exists h. by rewrite (H101 Hf) in Hst. }
  destruct (Hn eq_refl) as [Hle Hh].
  destruct (writeBody_taken (take (Z.to_nat n) b) i tx Hc Hw Ehb Hv Eit) as [Hc' Hsim].
  destruct err as [e|]; [right; by split|]. destruct (Z.eqb_spec n (Z.of_nat (length b))) as [Hall|Hpart].
  { right. split; [done|]. split; [done|]. intros _ hd st body S. split; [done|].
    rewrite <- (take_ge b (Z.to_nat n)) by lia. by apply Hsim. }
  destruct (cm_holdsBack _ Hc Ehb) as [Hnb _]. pose proof Ehb as [Hin Hnw%negb_true_iff]%andb_true_iff.
  eapply wp_bind; [by apply (writeBuffered_calm (i <| i_tx := tx |>))|].
  intros [i2 failed] (-> & Hc2 & [Hw2 Hs2] & Hf2 & Hb2 & Hsim2). rewrite slice_ok by lia. run_simpl.
  rewrite writeDown_eq. right.
  destruct (writeBody_direct (take (length b - Z.to_nat n) (drop (Z.to_nat n) b)) i2 Hc2 Hw2 Hb2) as [H1 H2].
  rewrite (flushWriteHeader_done i2 Hf2) in *.
  split; [done|]. split; [done|]. intros _ hd st body S.
  split; [rewrite length_take, length_drop; lia|].
  destruct S as [S1 S2 S3 S4]. rewrite Hw in S3. subst hd st.
  destruct S4 as [[S4 _]|S4]; [congruence|]. rewrite Ehb in S4. unfold written in S4. rewrite Hnb in S4. cbn in S4.
  replace (body ++ b) with (api_held tx ++ take (length b - Z.to_nat n) (drop (Z.to_nat n) b)); [by apply H2, Hsim2|].
  rewrite (take_ge (drop _ _)) by (rewrite length_drop; lia). by rewrite Hh, S4, <- app_assoc, take_drop.
Qed.

Lemma implicitHeader_calm i :
  calm i →
  wp (if i.(i_wroteHeader) then Done i else WriteHeader StatusOK i) (λ i', i.(i_wroteHeader) = false ∧ refused StatusOK i' ∨ announced StatusOK i i').
Proof.
  intros Hc. destruct (i_wroteHeader i) eqn:Ew; [|eapply wp_mono; [by apply WriteHeader_calm|]; intros i' [[_ H]|H]; [by left|by right]].
  right. split; [done|]. split; [unfold requested; by rewrite Ew|].
  intros hd st body [S1 S2 S3 S4]. rewrite Ew in S3. subst st. split; [done..| |done]. by rewrite Ew.
Qed.

Lemma Write_calm b i :
  Z.of_nat (length b) <= maxInt64 → calm i →
  wp (Write b i) (λ '(i', n, err), blocked (requested StatusOK i) i' ∨
    calm i' ∧ (i'.(i_wroteHeader) = true ∧ i'.(i_statusCode) = requested StatusOK i) ∧
    (err = false → ∀ hd st body, sim i hd st body →
       n = Z.of_nat (length b) ∧ sim i' hd (Some (default StatusOK st)) (body ++ b))).
Proof.
  intros Hb Hc. unfold Write. rewrite law_interrupted, (cm_calm _ Hc). cbn [is_Some].
  rewrite bool_decide_eq_false_2 by (by intros []).
  eapply wp_bind; [by apply implicitHeader_calm|].
  intros i1 [[Ew Hr]|(Hc1 & [Hw1 Hs1] & Hsim)].
  - eapply wp_mono; [by apply writeBody_refused|]. intros [[i' n] err] H. left. unfold requested. by rewrite Ew.
  - eapply wp_mono; [by apply writeBody_calm|]. unfold wrote. rewrite Hs1.
    intros [[i' n] err] [H|(H1 & H3 & H2)]; [by left|right].
    split; [done|]. split; [done|]. intros He hd st body S. by apply H2, Hsim.
Qed.

(** A call that neither sends a status nor writes. *)
Lemma emit_quiet e i :
  notHeader e → match e with EWrite _ => False | _ => True end →
  (wf_interceptor i → wf_interceptor (i <| i_w ::= emit e |>)) →
  let i' := i <| i_w ::= emit e |> in
  (calm i → calm i') ∧ (∀ d, blocked d i → blocked d i') ∧ ∀ hd st body, sim i hd st body → sim i' hd st body.
Proof.
  intros He Hq Hwf i'.
  assert (extends i.(i_w).(dg_log) i'.(i_w).(dg_log)) as Hex by (by apply extends_emit, extends_refl).
  assert (bodies_of i'.(i_w).(dg_log) = bodies_of i.(i_w).(dg_log)) as Hb.
  { etrans; [exact (bodies_of_emit _ e)|]. destruct e; [by rewrite app_nil_r|done|by rewrite app_nil_r..]. }
  split; [|split].
  - intros [H1 H2 H3 H4]. split; [by apply Hwf|done| |].
    + intros [h Hs]%H3. exists h. by eapply started_extends.
    + rewrite Hb. by apply H4.
  - intros d [H1 H2 H3 H4 H5]. split; [by apply Hwf|done|done| |by rewrite Hb].
    by eapply blocked_status_extends.
  - intros hd st body [S1 S2 S3 S4]. split; [done..|]. destruct S4 as [S4|S4]; [by left|right].
    unfold written. by rewrite Hb.
Qed.

(** The end of [Flush]. *)
Lemma flushed_quiet i (c : bool) :
  i.(i_isWriteHeaderFlush) = true ∨ c = false →
  let i' := if c then i <| i_w ::= dg_Flush |> else i in
  (calm i → calm i') ∧ (∀ d, blocked d i → blocked d i') ∧ ∀ hd st body, sim i hd st body → sim i' hd st body.
Proof.
  intros Hf. destruct c; [|done]. destruct Hf as [Hf|]; [|done].
  replace (i <| i_w ::= dg_Flush |>) with (if isFlusher then i <| i_w ::= emit EFlush |> else i)
    by (destruct i, i_w0; unfold dg_Flush; cbn; by destruct isFlusher).
  destruct isFlusher; [|done]. apply emit_quiet; [done|done|].
  intros [Hv Ho Hfr Hbl]. split; [done| |done|done]. cbn. rewrite Hf in *. by apply ordered_emit.
Qed.

Lemma Flush_calm i :
  calm i → wp (Flush i) (λ i', blocked (requested StatusOK i) i' ∨
    calm i' ∧ (i'.(i_wroteHeader) = true ∧ i'.(i_statusCode) = requested StatusOK i) ∧
    ∀ hd st body, sim i hd st body → sim i' hd (Some (default StatusOK st)) body).
Proof.
  intros Hc. unfold Flush. eapply wp_bind; [by apply implicitHeader_calm|]. intros i1 H1. cbn.
  destruct (flushed_quiet i1 (i_allowFlushing i1 && i_isWriteHeaderFlush i1)) as (Q1 & Q2 & Q3).
  { destruct (i_isWriteHeaderFlush i1); [by left|right]. apply andb_false_r. }
  destruct H1 as [[Ew [H1 _]]|(H1 & H3 & H2)].
  { left. apply Q2. unfold requested. by rewrite Ew. }
  right. split; [by apply Q1|]. split; [by destruct (_ && _)|]. intros hd st body S. by apply Q3, H2.
Qed.

Lemma Hijack_quiet i :
  wp (Hijack i) (λ '(i', ok), (calm i → calm i') ∧ (∀ d, blocked d i → blocked d i') ∧
    (i'.(i_wroteHeader) = i.(i_wroteHeader) ∧ i'.(i_statusCode) = i.(i_statusCode)) ∧
    (hijacks i.(i_w).(dg_log) = false → ok = false ∧ ∀ hd st body, sim i hd st body → sim i' hd st body)).
Proof.
  unfold Hijack, dg_Hijack. destruct isHijacker.
  2: { cbn. by replace (i <| i_w := i_w i |>) with i by (by destruct i). }
  destruct (emit_quiet EHijack i) as (Q1 & Q2 & Q3); [done|done|intros Hwf|].
  { pose proof (Hijack_wf i Hwf) as H. unfold Hijack, dg_Hijack in H.
    destruct Hwf as [Hv Ho Hfr Hbl]. split; [done|by apply ordered_hijack|done|done]. }
  cbn. destruct (hijacks _).
  - split; [|split; [|done]].
    + intros [[????]???]%Q1. by split; [split|..].
    + intros d [[????]????]%Q2. by split; [split|..].
  - split; [exact Q1|]. split; [exact Q2|]. done.
Qed.

Lemma setHeader_quiet hd' i :
  (calm i → calm (setHeader hd' i)) ∧ (∀ d, blocked d i → blocked d (setHeader hd' i)) ∧
  ∀ hd st body, sim i hd st body → sim (setHeader hd' i) hd' st body.
Proof.
  split; [|split].
  - intros [[????]???]. by split; [split|..].
  - intros d [[????]????]. by split; [split|..].
  - intros hd st body [????]. by split.
Qed.

(** The calls on a blocked response. *)
Lemma WriteHeader_blocked d code i : blocked d i → WriteHeader code i = Done i.
Proof. intros H. unfold WriteHeader. by rewrite (bl_wrote _ _ H). Qed.

Lemma Write_blocked d b i : blocked d i → Write b i = Done (i, Z.of_nat (length b), false).
Proof. intros H. unfold Write. by rewrite law_interrupted, bool_decide_eq_true_2 by apply H. Qed.

Lemma Flush_blocked d i : blocked d i → wp (Flush i) (blocked d).
Proof.
  intros H. unfold Flush. rewrite (bl_wrote _ _ H). run_simpl.
  destruct (flushed_quiet i (i_allowFlushing i && i_isWriteHeaderFlush i)) as (_ & Q2 & _); [|by apply Q2].
  left. by apply (wi_blocked _ (bl_wf _ _ H)), H.
Qed.

Lemma ServeHTTP_blocked d h accepted i :
  wf_handler h → blocked d i → wp (ServeHTTP h accepted i) (λ res, blocked d res.1).
Proof.
  apply (ServeHTTP_inv (blocked d)); cbn; clear h accepted i.
  - intros i hd. by apply setHeader_quiet.
  - intros code i _ H. by rewrite (WriteHeader_blocked d).
  - intros b i Hb H. by rewrite (Write_blocked d).
  - apply Flush_blocked.
  - intros i H. eapply wp_mono; [apply Hijack_quiet|]. intros [i' ok] (_ & Q2 & _). by apply Q2.
Qed.

(** The status is announced, or the response is blocked. *)
Definition decided (d : Z) i : Prop :=
  calm i ∧ i.(i_wroteHeader) = true ∧ i.(i_statusCode) = d ∨ blocked d i.

Lemma Write_decided d b i :
  Z.of_nat (length b) <= maxInt64 → decided d i → wp (Write b i) (λ '(i', _, _), decided d i').
Proof.
  intros Hb [(H & Hw & <-)|H]; [|rewrite (Write_blocked d) by done; by right].
  eapply wp_mono; [by apply Write_calm|]. unfold requested. rewrite Hw.
  intros [[i' n] err] [?|(? & ? & _)]; [by right|by left].
Qed.

Lemma ServeHTTP_decided d h accepted i :
  wf_handler h → decided d i → wp (ServeHTTP h accepted i) (λ res, decided d res.1).
Proof.
  apply (ServeHTTP_inv (decided d)); cbn; clear h accepted i.
  - intros i hd H. destruct (setHeader_quiet hd i) as (Q1 & Q2 & _).
    destruct H as [(H & ?)|H]; [left; split; [by apply Q1|done]|right; by apply Q2].
  - intros code i _ [(H & Hw & <-)|H]; [|rewrite (WriteHeader_blocked d) by done; by right].
    eapply wp_mono; [by apply WriteHeader_calm|]. unfold announced, requested. rewrite Hw.
    intros i' [[? _]|(? & ? & _)]; [done|by left].
  - intros b i. apply Write_decided.
  - intros i [(H & Hw & <-)|H].
    + eapply wp_mono; [by apply Flush_calm|]. unfold requested. rewrite Hw.
      intros i' [?|(? & ? & _)]; [by right|by left].
    + eapply wp_mono; [by apply Flush_blocked|]. by right.
  - intros i H. eapply wp_mono; [apply Hijack_quiet|]. intros [i' ok] (Q1 & Q2 & [Q3 Q4] & _).
    destruct H as [(H & ?)|H]; [left; split; [by apply Q1|by rewrite Q3, Q4]|right; by apply Q2].
Qed.

Lemma ReadFrom_decided r i :
  calm i → i.(i_wroteHeader) = false →
  wp (rw_ReadFrom r i) (λ '(i', _, _), i' = i ∨ decided StatusOK i').
Proof.
  intros Hc Hw. unfold rw_ReadFrom. cbn [copyFrom]. destruct (io_data r) as [|x rest]; [by left|].
  replace (x :: rest =s []) with false by (symmetry; by apply bytes_eqb_neq). cbv zeta.
  set (k := (_ `min` _)%nat). assert (0 < k ≤ copySize)%nat as Hk by (unfold k, copySize; lia).
  eapply wp_bind; [apply Write_calm; [|done]|].
  { rewrite length_take. unfold copySize, maxInt64 in *. lia. }
  unfold requested. rewrite Hw. intros [[i' n] err] H.
  assert (decided StatusOK i') as Hd by (destruct H as [?|(? & ? & _)]; [by right|by left]).
  destruct (_ || _); [by right|]. eapply wp_mono; [apply (copyFrom_inv (decided StatusOK))|].
  - intros b s. apply Write_decided.
  - rewrite length_drop. cbn [length]. lia.
  - done.
  - intros [[i2 n2] err2] ?. by right.
Qed.

(** The status that a handler announces, on some path: the first that it sends, or
    200 when it writes, flushes or ends before. *)
Inductive announces : handler → Z → Prop :=
| an_return : announces HReturn StatusOK
| an_panic : announces HPanic StatusOK
| an_header f k hd d : announces (k hd) d → announces (HHeader f k) d
| an_code code k : announces (HWriteHeader code k) code
| an_write b k : announces (HWrite b k) StatusOK
| an_copy r k : announces (HReadFrom r k) StatusOK
| an_empty r k res d : announces (k res) d → announces (HReadFrom r k) d
| an_flush k : announces (HFlush k) StatusOK
| an_hijack k ok d : announces (k ok) d → announces (HHijack k) d.

(** Not interrupted, or blocked. *)
Definition settled (d : Z) i : Prop := calm i ∧ i.(i_statusCode) = d ∨ blocked d i.

Lemma decided_settled d i : decided d i → settled d i.
Proof. intros [(? & ? & ?)|?]; [by left|by right]. Qed.

Lemma ServeHTTP_settled h : ∀ accepted i,
  wf_handler h → calm i → i.(i_wroteHeader) = false →
  wp (ServeHTTP h accepted i) (λ res, ∃ d, announces h d ∧ settled d res.1).
Proof.
  assert (∀ d k accepted i h, wf_handler k → announces h d → decided d i →
    wp (ServeHTTP k accepted i) (λ res, ∃ d, announces h d ∧ settled d res.1)) as Hdecided.
  { intros d k accepted i h' Hk Ha Hd. eapply wp_mono; [by apply (ServeHTTP_decided d)|].
    intros res H. exists d. split; [done|by apply decided_settled]. }
  assert (∀ i, calm i → i.(i_wroteHeader) = false → settled StatusOK i) as Hfresh.
  { intros i Hc Hw. left. split; [done|]. by destruct (wi_fresh _ (cm_wf _ Hc) Hw) as (_ & _ & _ & _ & ->). }
  induction h as [| |f k IH|code k IH|b k IH|r k IH|k IH|k IH]; intros accepted i Hwf Hc Hw;
    cbn [ServeHTTP wf_handler] in *.
  - exists StatusOK. split; [constructor|by apply Hfresh].
  - exists StatusOK. split; [constructor|by apply Hfresh].
  - eapply wp_mono; [apply IH; [apply Hwf|by apply setHeader_quiet|done]|].
    intros res (d & ? & ?). exists d. split; [by eapply an_header|done].
  - destruct Hwf as [_ Hwf]. eapply wp_bind; [by apply WriteHeader_calm|]. unfold announced, requested. rewrite Hw.
    intros i' H. eapply Hdecided; [done|apply an_code|]. destruct H as [[_ [? _]]|(? & ? & _)]; [by right|by left].
  - destruct Hwf as [Hb Hwf]. eapply wp_bind; [by apply Write_calm|]. unfold requested. rewrite Hw.
    intros [[i' n] err] H. eapply Hdecided; [done|apply an_write|]. destruct H as [?|(? & ? & _)]; [by right|by left].
  - eapply wp_bind; [by apply ReadFrom_decided|]. intros [[i' n] err] [->|H].
    + eapply wp_mono; [by apply IH|]. intros res (d & ? & ?). exists d. split; [by eapply an_empty|done].
    + eapply Hdecided; [done|apply an_copy|done].
  - eapply wp_bind; [by apply Flush_calm|]. unfold requested. rewrite Hw.
    intros i' H. eapply Hdecided; [done|apply an_flush|]. destruct H as [?|(? & ? & _)]; [by right|by left].
  - eapply wp_bind; [apply Hijack_quiet|]. intros [i' ok] (Q1 & _ & [Q3 _] & _).
    eapply wp_mono; [apply IH; [done|by apply Q1|congruence]|].
    intros res (d & ? & ?). exists d. split; [by eapply an_hijack|done].
Qed.

Lemma responseProcessor_settled d i :
  settled d i →
  wp (responseProcessor i) (λ '(i', failed),
    failed = false → is_Some (api_Interruption i'.(i_tx)) →
    blocked_status d i'.(i_tx) i'.(i_w).(dg_log) ∧ (length (bodies_of i'.(i_w).(dg_log)) ≤ 1)%nat).
Proof.
  intros H. unfold responseProcessor. destruct (i_isHijacked i).
  { destruct H as [[H _]|H]; [|intros _ _; by split; apply H]. intros _. cbn. rewrite (cm_calm _ H). by intros []. }
  rewrite law_interrupted. destruct H as [[H <-]|H].
  2: { rewrite bool_decide_eq_true_2 by apply H. intros _ _. by split; apply H. }
  rewrite (cm_calm _ H), bool_decide_eq_false_2 by (by intros []).
  change (api_IsResponseBodyAccessible _ && _) with (inspects i.(i_tx)).
  change (inspects _ && _) with (holdsBack i). destruct (holdsBack i) eqn:Ehb.
  2: { intros _. rewrite flushWriteHeader_tx. cbn. rewrite (cm_calm _ H). by intros []. }
  pose proof (cm_wf _ H) as Hwf. pose proof Ehb as [Hin Hnw%negb_true_iff]%andb_true_iff.
  eapply wp_bind; [apply law_body; [apply Hwf|by apply cm_calm]|].
  intros [[tx it] err] (Hv & Hh & ->). cbv zeta. destruct err as [e|]; [by intros ?|].
  destruct (api_Interruption tx) as [it|] eqn:Eit.
  - intros _ _. destruct (cm_holdsBack _ H Ehb) as [Hnb H101].
    destruct (block_status it (i <| i_tx := tx |>)) as [Hs Hb]; [by apply Hwf|done|done| |].
    + intros Hf. destruct (cm_status _ H Hf) as [h Hst]. split; [by apply H101|]. exists h. by rewrite (H101 Hf) in Hst.
    + split; [done|]. rewrite Hb. cbn. lia.
  - eapply wp_mono; [by apply (writeBuffered_spec (i <| i_tx := tx |>))|].
    intros [i' failed] (w & tx' & -> & (_ & _ & Hi) & _). intros _. cbn in *. rewrite Hi, Eit. by intros [].
Qed.

Lemma wrap_calm w proto tx : fresh w tx → calm (wrap w proto tx).
Proof.
  intros Hf. pose proof (wrap_wf w proto tx Hf). destruct Hf as (Hl & Hv & Hh & Hi).
  split; [done|done|done|]. cbn. rewrite Hl. by intros _.
Qed.

(** A transaction that is interrupted in the response blocks it: the server gets
    one status, that of the interruption or, when it does not deny, the one that
    the handler announced, with no header fields but an empty content length (and
    those whose names are not canonical); and nothing of the body but at most the
    one write in which the handler, without a status of its own, started the
    response.  Only a switch of protocols was announced before. *)
Lemma serve_interrupted h w proto tx :
  wf_handler h → fresh w tx →
  ∃ i oc failed, serve h (wrap w proto tx) = Done (i, oc, failed) ∧
    (failed = false → is_Some (api_Interruption i.(i_tx)) →
     ∃ d, announces h d ∧
       blocked_status d i.(i_tx) i.(i_w).(dg_log) ∧ (length (bodies_of i.(i_w).(dg_log)) ≤ 1)%nat).
Proof.
  intros Hh Hf. unfold serve.
  destruct (wp_elim _ _ (ServeHTTP_settled h true (wrap w proto tx) Hh ltac:(by apply wrap_calm) eq_refl))
    as ([i oc] & -> & d & Ha & Hs). run_simpl. cbn [fst] in Hs. destruct (oc_panicked oc) eqn:Ep.
  - exists i, oc, false. split; [done|]. intros _ Hi. destruct Hs as [[Hs _]|Hs].
    + rewrite (cm_calm _ Hs) in Hi. by destruct Hi.
    + exists d. split; [done|]. by split; apply Hs.
  - destruct (wp_elim _ _ (responseProcessor_settled d i Hs)) as ([i' failed] & -> & H). run_simpl.
    exists i', oc, failed. split; [done|]. intros H1 H2. exists d. split; [done|]. by apply H.
Qed.
End response.

Section transparent.
Context `{O : !MapOrder, V : !Server, A : TransactionAPI T, W : !TransactionView T, L : !TransactionLaws T}.
(** A server that takes every write, can flush, and does not give the connection
    away. *)
Context (Hacc : accepting) (Hflusher : isFlusher = true) (Hhijacks : ∀ log, hijacks log = false).
Implicit Types (i : rwInterceptor T).

(** The interceptor above a server like [d]. *)
Definition mirrors i (d : delegate) : Prop :=
  calm i ∧ sim i d.(dg_header) (statusOf d.(dg_log)) (written d.(dg_log)).

Lemma rejected {R} `{!ResponseWriter R} h : ∀ (s s' : R) oc,
  ServeHTTP h false s = Done (s', oc) → oc.(oc_accepted) = false.
Proof.
  induction h as [| |f k IH|code k IH|b k IH|r k IH|k IH|k IH]; intros s s' oc; cbn [ServeHTTP].
  - by intros [= <- <-].
  - by intros [= <- <-].
  - apply IH.
  - destruct (rw_WriteHeader code s) as [s1| |]; run_simpl; [apply IH|done..].
  - destruct (rw_Write b s) as [[[s1 n] err]| |]; run_simpl; [apply IH|done..].
  - destruct (rw_ReadFrom r s) as [[[s1 n] err]| |]; run_simpl; [apply IH|done..].
  - destruct (rw_Flush s) as [s1| |]; run_simpl; [apply IH|done..].
  - destruct (rw_Hijack s) as [[s1 ok]| |]; run_simpl; [apply IH|done..].
Qed.

(** Blocked, with whatever status. *)
Definition stopped i : Prop := ∃ d, blocked d i.

(** The result of a call that mirrors the one on [d], unless it interrupted. *)
Lemma Write_mirrors b i d :
  Z.of_nat (length b) <= maxInt64 → mirrors i d →
  wp (Write b i) (λ '(i', n, err), stopped i' ∨ calm i' ∧
    (err = false → n = Z.of_nat (length b) ∧ mirrors i' (dg_Write b d).1.1)).
Proof.
  intros Hb [Hc Hs]. eapply wp_mono; [by apply Write_calm|]. intros [[i' n] err] [H|(H1 & _ & H2)]; [left; by eexists|right].
  split; [done|]. intros He. destruct (H2 He _ _ _ Hs) as [Hn Hs']. split; [done|]. split; [done|].
  unfold dg_Write. rewrite Hacc. cbn [fst].
  change (sim i' d.(dg_header) (statusOf (d.(dg_log) ++ [EWrite b])) (written (d.(dg_log) ++ [EWrite b]))).
  rewrite statusOf_emit, written_emit. by destruct (statusOf (dg_log d)).
Qed.

Lemma WriteHeader_mirrors code i d :
  mirrors i d → wp (WriteHeader code i) (λ i', stopped i' ∨ mirrors i' (dg_WriteHeader code d)).
Proof.
  intros [Hc Hs]. eapply wp_mono; [by apply WriteHeader_calm|]. intros i' [[_ [H _]]|(H1 & _ & H2)]; [left; by eexists|right].
  split; [done|]. unfold dg_WriteHeader. set (e := EHeader code d.(dg_header)).
  change (sim i' d.(dg_header) (statusOf (d.(dg_log) ++ [e])) (written (d.(dg_log) ++ [e]))).
  rewrite statusOf_emit, written_emit, app_nil_r. apply H2 in Hs. by destruct (statusOf (dg_log d)).
Qed.

Lemma Flush_mirrors i d :
  mirrors i d → wp (Flush i) (λ i', stopped i' ∨ mirrors i' (dg_Flush d)).
Proof.
  intros [Hc Hs]. eapply wp_mono; [by apply Flush_calm|]. intros i' [H|(H1 & _ & H2)]; [left; by eexists|right].
  split; [done|]. unfold dg_Flush. rewrite Hflusher.
  change (sim i' d.(dg_header) (statusOf (d.(dg_log) ++ [EFlush])) (written (d.(dg_log) ++ [EFlush]))).
  rewrite statusOf_emit, written_emit, app_nil_r. apply H2 in Hs. by destruct (statusOf (dg_log d)).
Qed.

Lemma Hijack_mirrors i d :
  mirrors i d → wp (Hijack i) (λ '(i', ok), ok = false ∧ (dg_Hijack d).2 = false ∧ mirrors i' (dg_Hijack d).1).
Proof.
  intros [Hc Hs]. eapply wp_mono; [by apply Hijack_quiet|]. intros [i' ok] (Q1 & _ & _ & Q3).
  destruct (Q3 (Hhijacks _)) as [-> Q]. split; [done|]. unfold dg_Hijack. destruct isHijacker.
  - split; [by rewrite Hhijacks|]. split; [by apply Q1|]. cbn [fst].
    change (sim i' d.(dg_header) (statusOf (d.(dg_log) ++ [EHijack])) (written (d.(dg_log) ++ [EHijack]))).
    rewrite statusOf_emit, written_emit, app_nil_r. apply Q in Hs. by destruct (statusOf (dg_log d)).
  - split; [done|]. split; [by apply Q1|by apply Q].
Qed.

(** Copying from a reader, on both sides; an interruption stops the comparison. *)
Lemma copyFrom_mirrors r : ∀ fuel k rest n i d,
  (length rest < fuel)%nat → mirrors i d →
  wp (copyFrom fuel k r rest n i) (λ '(i', m, err), stopped i' ∨ calm i' ∧
    (err = false → ∃ d', copyFrom fuel k r rest n d = Done (d', m, err) ∧ mirrors i' d')).
Proof.
  induction fuel as [|fuel IH]; intros k rest n i d Hf Hm; [lia|]. cbn [copyFrom].
  destruct rest as [|x rest].
  { right. split; [apply Hm|]. intros _. by exists d. }
  replace (x :: rest =s []) with false by (symmetry; by apply bytes_eqb_neq). cbv zeta.
  set (c := (_ `min` _)%nat). assert (0 < c ≤ copySize)%nat as Hc by (unfold c, copySize; lia).
  assert (Z.of_nat (length (take c (x :: rest))) <= maxInt64) as Hb.
  { rewrite length_take. unfold copySize, maxInt64 in *. lia. }
  eapply wp_bind; [by apply (Write_mirrors _ i d)|]. intros [[i1 n1] err1] H1.
  destruct H1 as [H1|[H1 H2]].
  { destruct (_ || _); [by left|].
    eapply wp_mono; [apply (copyFrom_inv stopped); [|rewrite length_drop; cbn [length] in *; lia|exact H1]|].
    - intros b s _ [st Hs]. cbn. rewrite (Write_blocked st) by done. by eexists.
    - intros [[i' m] err] H. by left. }
  destruct err1; [by right|]. destruct (H2 eq_refl) as [-> Hm1]. rewrite Z.eqb_refl. cbn [orb negb].
  eapply wp_mono; [apply (IH _ _ _ i1 (dg_Write (take c (x :: rest)) d).1.1); [|done]|].
  - rewrite length_drop. cbn [length] in *. lia.
  - intros [[i' m] err] [H|[H3 H4]]; [by left|right]. split; [done|]. intros He.
    destruct (H4 He) as (d' & HE & Hm'). exists d'. split; [|done].
    cbn [rw_Write delegate_writer]. unfold dg_Write at 1. rewrite Hacc. run_simpl. rewrite Z.eqb_refl. cbn [orb negb].
    unfold dg_Write in HE. by rewrite Hacc in HE.
Qed.

(** As long as nothing is interrupted, the handler gets the same answers and its
    response is the same. *)
Lemma ServeHTTP_mirrors h : ∀ i d,
  wf_handler h → mirrors i d →
  wp (ServeHTTP h true i) (λ '(i', oc),
    oc.(oc_accepted) = true → stopped i' ∨ ∃ d', ServeHTTP h true d = Done (d', oc) ∧ mirrors i' d').
Proof.
  assert (∀ k acc i (Q : _ → Prop), wf_handler k → stopped i → (∀ i' oc, stopped i' → Q (i', oc)) →
    wp (ServeHTTP k acc i) Q) as Hblocked.
  { intros k acc i Q Hwf [st Hb] HQ. eapply wp_mono; [by apply (ServeHTTP_blocked st)|]. intros [i' oc] H. apply HQ.
    by eexists. }
  assert (∀ k i (Q : _ → Prop), wf_handler k → calm i → (∀ i' oc, oc.(oc_accepted) = false → Q (i', oc)) →
    wp (ServeHTTP k false i) Q) as Hrejected.
  { intros k i Q Hwf Hc HQ. destruct (wp_elim _ _ (ServeHTTP_wf k false i Hwf (cm_wf _ Hc)))
      as ([i' oc] & HE & _). rewrite HE. apply HQ. exact (rejected _ _ _ _ HE). }
  induction h as [| |f k IH|code k IH|b k IH|r k IH|k IH|k IH]; intros i d Hwf Hm; cbn [ServeHTTP wf_handler] in *.
  - intros _. right. by exists d.
  - intros _. right. by exists d.
  - cbn [rw_Header rw_setHeader interceptor_writer delegate_writer]. destruct Hm as [Hc Hs].
    rewrite (sm_header _ _ _ _ Hs). apply IH; [done|].
    destruct (setHeader_quiet (f (dg_header d)) i) as (Q1 & _ & Q3). split; [by apply Q1|]. by eapply Q3.
  - destruct Hwf as [_ Hwf]. eapply wp_bind; [by apply WriteHeader_mirrors|]. intros i1 [H|H].
    + apply Hblocked; [done|done|]. by left.
    + by apply (IH i1).
  - destruct Hwf as [Hb Hwf]. eapply wp_bind; [by apply (Write_mirrors b i d)|]. intros [[i1 n] err] [H|[H1 H2]].
    + apply Hblocked; [done|done|]. by left.
    + destruct err; [apply Hrejected; [done|done|]; congruence|]. destruct (H2 eq_refl) as [-> Hm1].
      rewrite Z.eqb_refl. cbn [negb andb rw_Write delegate_writer]. unfold dg_Write in *. rewrite Hacc in *.
      run_simpl. rewrite Z.eqb_refl. by apply (IH _ i1).
  - eapply wp_bind; [apply (copyFrom_mirrors r _ _ _ _ i d); [lia|done]|]. intros [[i1 n] err] [H|[H1 H2]].
    + apply Hblocked; [done|done|]. by left.
    + destruct err; [apply Hrejected; [done|done|]; congruence|]. destruct (H2 eq_refl) as (d1 & HE & Hm1).
      unfold rw_ReadFrom. rewrite HE. run_simpl. by apply (IH _ i1).
  - eapply wp_bind; [by apply Flush_mirrors|]. intros i1 [H|H].
    + apply Hblocked; [done|done|]. by left.
    + by apply (IH i1).
  - eapply wp_bind; [by apply Hijack_mirrors|]. intros [i1 ok] (-> & E & Hm1).
    cbn [rw_Hijack delegate_writer]. destruct (dg_Hijack d) as [d1 ok1]. cbn in E. subst ok1. run_simpl.
    by apply (IH _ i1).
Qed.

Lemma responseProcessor_mirrors i d :
  mirrors i d →
  wp (responseProcessor i) (λ '(i', failed),
    failed = false → api_Interruption i'.(i_tx) = None → ¬ lost i' →
    statusOf i'.(i_w).(dg_log) = Some (default StatusOK (statusOf d.(dg_log))) ∧
    written i'.(i_w).(dg_log) = written d.(dg_log)).
Proof.
  intros [Hc [_ S2 S3 S4]]. pose proof (cm_wf _ Hc) as Hwf. unfold responseProcessor.
  rewrite S2, law_interrupted, (cm_calm _ Hc), bool_decide_eq_false_2 by (by intros []).
  assert (default StatusOK (statusOf d.(dg_log)) = i.(i_statusCode)) as ->.
  { rewrite S3. destruct (i_wroteHeader i) eqn:Ew; [done|]. cbn. by destruct (wi_fresh _ Hwf Ew) as (_ & _ & _ & _ & ->). }
  destruct (flush_started i Hc) as [h Hst].
  change (api_IsResponseBodyAccessible _ && _) with (inspects i.(i_tx)).
  change (inspects _ && _) with (holdsBack i). destruct (holdsBack i) eqn:Ehb.
  - pose proof Ehb as [Hin Hnw%negb_true_iff]%andb_true_iff. destruct (cm_holdsBack _ Hc Ehb) as [Hnb _].
    eapply wp_bind; [apply law_body; [apply Hwf|by apply cm_calm]|].
    intros [[tx it] err] (Hv & Hh & ->). cbv zeta. destruct err as [e|]; [by intros ?|].
    destruct (api_Interruption tx) as [it|] eqn:Eit.
    { intros _ Hi. unfold block in Hi. rewrite flushWriteHeader_tx in Hi. cbn in Hi. congruence. }
    eapply wp_mono; [by apply (writeBuffered_spec (i <| i_tx := tx |>))|].
    intros [i' failed] (w & tx' & -> & _ & He & _ & _ & HA) _ _ _. destruct (HA Hacc) as [_ Hwr].
    cbn [i_w setf]. split.
    + apply (started_statusOf _ h). eapply started_extends; [exact Hst|].
      replace (dg_log (i_w (flushWriteHeader i))) with (dg_log (i_w (flushWriteHeader (i <| i_tx := tx |>)))); [done|].
      unfold flushWriteHeader. cbn. by destruct (i_isWriteHeaderFlush i).
    + destruct S4 as [[S4 _]|S4]; [congruence|]. rewrite S4, ?Ehb. etrans; [exact Hwr|]. cbn. by rewrite Hh.
  - intros _ _ Hlost.
    assert (∀ x, (flushWriteHeader (i <| i_allowFlushing := x |>)).(i_w) = (flushWriteHeader i).(i_w)) as E.
    { intros x. unfold flushWriteHeader. cbn. by destruct (i_isWriteHeaderFlush i). }
    rewrite E. split; [by apply (started_statusOf _ h)|]. rewrite flushWriteHeader_written.
    destruct S4 as [S4|S4]; [|by rewrite S4, ?Ehb, app_nil_r]. destruct Hlost.
    unfold lost, flushWriteHeader in *. cbn. by destruct (i_isWriteHeaderFlush i).
Qed.

(** A transaction that is not interrupted leaves the response as it is: unless a
    write or the processing of the response failed, or bytes that were kept back
    are lost, the handler got the answers it would have got without the
    interceptor, and the server sends the same status and the same body. *)
Lemma serve_transparent h w proto tx :
  wf_handler h → fresh w tx →
  ∃ i oc failed, serve h (wrap w proto tx) = Done (i, oc, failed) ∧
    (oc = mkOutcome false true → failed = false → api_Interruption i.(i_tx) = None → ¬ lost i →
     ∃ d, ServeHTTP h true w = Done (d, oc) ∧
       statusOf i.(i_w).(dg_log) = Some (default StatusOK (statusOf d.(dg_log))) ∧
       written i.(i_w).(dg_log) = written d.(dg_log)).
Proof.
  intros Hh Hf. pose proof (wrap_calm w proto tx Hf) as Hc. unfold serve.
  assert (mirrors (wrap w proto tx) w) as Hm.
  { split; [done|]. destruct Hf as (Hl & _ & Hheld & _). split; [done|done|by rewrite Hl|right].
    cbn. rewrite Hl. cbn. rewrite Hheld. by destruct (holdsBack _). }
  destruct (wp_elim _ _ (ServeHTTP_mirrors h _ _ Hh Hm)) as ([i oc] & HE & Hs).
  destruct (wp_elim _ _ (ServeHTTP_wf h true _ Hh (cm_wf _ Hc))) as ([i1 oc1] & HE1 & Hwf1).
  rewrite HE in HE1. injection HE1 as <- <-. rewrite HE. run_simpl.
  destruct (oc_panicked oc) eqn:Ep.
  { exists i, oc, false. split; [done|]. intros ->. done. }
  destruct (wp_elim _ _ (responseProcessor_flushed i Hwf1)) as ([i' failed] & HP & _). rewrite HP. run_simpl.
  exists i', oc, failed. split; [done|]. intros -> -> Hi Hlost.
  destruct (Hs eq_refl) as [[st Hb]|(d & HD & Hmi)].
  - revert HP. unfold responseProcessor. rewrite law_interrupted, bool_decide_eq_true_2 by apply Hb.
    destruct (bl_interrupted _ _ Hb) as [it Eit].
    destruct (i_isHijacked i); intros [= <-]; congruence.
  - exists d. split; [done|]. destruct (wp_elim _ _ (responseProcessor_mirrors i d Hmi)) as ([i2 f2] & HP2 & H).
    rewrite HP in HP2. injection HP2 as <- <-. by apply H.
Qed.
End transparent.
