(* ===== verification/Middleware.v ===== *)
(** The middleware of src/http/middleware.go, and the transactions of
    src/internal/corazawaf/transaction.go as implementations of the interface
    that src/http/interceptor.go uses.

    The file system does not fail.  A request is what package net/http parsed;
    the handler gets the bytes that reading the body of the request delivers. *)

From S2P Require Import Prelude GoLib StringUtil UrlTransform Variables Types Collections.
From S2P Require Import BodyBuffer TransactionState BodyProcessors Macro Rule Actions RuleGroup.
From S2P Require Import Engine Phases Lifecycle Waf Interceptor.

(** ** Transactions behind the interface *)

Section api.
Context `{U : !Unicode, O : !MapOrder}.
Context (registry : gmap bytes BodyProcessor).
Context (waf : WAF).

(** [tx.ResponseBodyReader()]; the error of the buffer is always nil. *)
Definition ResponseBodyReader (tx : Transaction) : Transaction * option nat :=
  let '(br, reader) := Reader tx.(tx_responseBodyBuffer) in
  (tx <| tx_responseBodyBuffer := br |>, Some reader).

Definition readResponseBody (reader n : nat) (tx : Transaction) : run (Transaction * bytes * bool) :=
  '(br, got, eof) ← Read true tx.(tx_responseBodyBuffer) reader n;
  Done (tx <| tx_responseBodyBuffer := br |>, got, eof).

Definition coreAPI : TransactionAPI Transaction := {|
  api_AddResponseHeader := AddResponseHeader;
  api_ProcessResponseHeaders := ProcessResponseHeaders waf;
  api_WriteResponseBody := WriteResponseBody true registry waf fsOK;
  api_ProcessResponseBody := ProcessResponseBody true registry waf;
  api_ResponseBodyReader := ResponseBodyReader;
  api_Read := readResponseBody;
  api_IsInterrupted := IsInterrupted;
  api_IsResponseBodyAccessible := tx_ResponseBodyAccess;
  api_IsResponseBodyProcessable := IsResponseBodyProcessable waf;
  api_held tx := contents tx.(tx_responseBodyBuffer);
|}.

Definition coreView : TransactionView Transaction := {|
  api_valid := good;
  api_Interruption := tx_interruption;
  api_left tx reader :=
    r ← tx.(tx_responseBodyBuffer).(readers) !! reader;
    if r.(r_open) then Some (drop r.(r_pos) (contents tx.(tx_responseBodyBuffer))) else None;
|}.

Context (Hsound : sound_waf waf) (Hreg : sound_registry registry).

(** What a write leaves, with the interruption it reports. *)
Definition kept (b : bytes) (tx : Transaction) (res : Transaction * writeResult) : Prop :=
  let '(tx', (it, n, err)) := res in
  let old := contents tx.(tx_responseBodyBuffer) in
  let new := contents tx'.(tx_responseBodyBuffer) in
  match tx.(tx_interruption) with
  | None => it = tx'.(tx_interruption) ∧
      (it = None → 0 <= n <= Z.of_nat (length b) ∧ new = old ++ take (Z.to_nat n) b)
  | Some _ =>
      (tx'.(tx_interruption) = tx.(tx_interruption) ∨ tx'.(tx_interruption) = Some limitInterruption) ∧
      (it = None → n = 0 ∧ new = old)
  end.

(** Nothing was written. *)
Lemma kept_nothing b tx tx' it err :
  tx'.(tx_interruption) = tx.(tx_interruption) →
  contents tx'.(tx_responseBodyBuffer) = contents tx.(tx_responseBodyBuffer) →
  it = None ∨ it = tx.(tx_interruption) → kept b tx (tx', (it, 0, err)).
Proof.
  intros Hi Hc Hit. unfold kept. rewrite Hi, Hc. destruct (tx_interruption tx); [naive_solver|].
  split; [naive_solver|]. intros _. rewrite app_nil_r. split; [lia|done].
Qed.

(** A part was written and the interruption is the one of the new state. *)
Lemma kept_part b tx tx' (n : nat) err :
  (is_Some tx.(tx_interruption) → tx'.(tx_interruption) = tx.(tx_interruption)) → (n ≤ length b)%nat →
  contents tx'.(tx_responseBodyBuffer) = contents tx.(tx_responseBodyBuffer) ++ take n b →
  kept b tx (tx', (tx'.(tx_interruption), Z.of_nat n, err)).
Proof.
  intros Hi Hn Hc. unfold kept. rewrite Hc. destruct (tx_interruption tx) as [it|].
  - rewrite Hi by (by eexists). split; [by left|done].
  - split; [done|]. intros _. rewrite Nat2Z.id. split; [lia|done].
Qed.

Lemma WriteResponseBody_keeps b tx :
  good tx → Z.of_nat (length b) <= maxInt64 →
  wp (WriteResponseBody true registry waf fsOK b tx) (kept b tx).
Proof.
  intros Hg Hb. destruct Hsound as [Hs Hl]. unfold WriteResponseBody.
  destruct (IsRuleEngineOff tx); [by apply kept_nothing; [..|left]|].
  destruct (negb _); [by apply kept_nothing; [..|left]|]. cbv zeta.
  destruct (_ =? _).
  { apply kept_nothing; [done..|]. destruct (w_ResponseBodyLimitAction waf); [by left|by right]. }
  pose proof (good_response _ Hg) as Hwf. rewrite <- (good_response_limit _ Hg).
  set (buf := tx_responseBodyBuffer tx) in *.
  assert (∀ k tx1 (part : bool), (Z.to_nat k ≤ length b)%nat → 0 <= k →
    tx_interruption tx1 = tx_interruption tx → good tx1 → tx_responseBodyBuffer tx1 = buf →
    wp (if k <? 0 then Panic else
        chunk ← slice b 0 (Z.to_nat k);
        let '(buf, w, err) := BodyBuffer.Write true fsOK buf chunk in
        let tx := tx1 <| tx_responseBodyBuffer := buf |> in
        match err with
        | Some e => Done (tx, (None, 0, Some (ErrBuffer e)))
        | None =>
            if part then '(tx, _, err) ← ProcessResponseBody true registry waf tx;
                         Done (tx, (tx.(tx_interruption), w, err))
            else Done (tx, (tx.(tx_interruption), w, None))
        end) (kept b tx)) as Hwrite.
  { intros k tx1 part Hk Hk0 Hi1 Hg1 Hbuf1. replace (k <? 0) with false by lia. rewrite slice_prefix by lia.
    run_simpl. destruct (Write_wf buf (take (Z.to_nat k) b) Hwf) as (br & w & err & -> & Hwf' & Ho & Hc);
      [rewrite length_take; lia|]. cbv zeta.
    destruct err as [e|]. { subst br. apply kept_nothing; [done|done|by left]. }
    destruct Hc as [Hc ->]. rewrite length_take, Nat.min_l by lia.
    pose proof (good_response_buffer tx1 br Hg1 Hwf' ltac:(by rewrite Hbuf1)) as Hg2.
    destruct part; [|by apply kept_part].
    destruct (tx_interruption tx) as [it|] eqn:Eit.
    - unfold ProcessResponseBody. destruct (IsRuleEngineOff _); [by apply kept_part; rewrite ?Eit|].
      unfold IsInterrupted. cbn [tx_interruption setf]. rewrite Hi1. by apply kept_part; rewrite ?Eit.
    - eapply wp_bind; [by apply (ProcessResponseBody_follows (B := wf_buffer) registry waf Hs Hl Hreg), Hg2|].
      intros [[tx3 it3] err3] [_ Hb3]. injection Hb3 as _ Hb3. apply kept_part; [rewrite Eit; by intros []|done|].
      by rewrite Hb3. }
  destruct (i64 _ >=? _) eqn:Eover.
  - destruct (fitting_bytes buf b Hwf) as [E Hfit]; [lia|].
    change (tx_ResponseBodyLimit (withSingle _ _ tx)) with (tx_ResponseBodyLimit tx).
    rewrite <- (good_response_limit _ Hg). destruct (w_ResponseBodyLimitAction waf).
    + fold buf. rewrite E. apply (Hwrite _ _ true); [lia|lia|done|by apply (fo_good tx), follows_withSingle|done].
    + unfold kept, setAndReturnBodyLimitInterruption. cbn. destruct (tx_interruption tx).
      * split; [by right|done].
      * by split.
  - apply (Hwrite _ _ false); [lia|lia|done..].
Qed.

Lemma ProcessResponseHeaders_reports code proto tx :
  tx.(tx_interruption) = None →
  ∀ tx' it, ProcessResponseHeaders waf code proto tx = Done (tx', it) → it = tx'.(tx_interruption).
Proof.
  intros Hi tx' it. unfold ProcessResponseHeaders. destruct (IsRuleEngineOff tx); [congruence|].
  destruct (_ >=? _); [congruence|]. destruct (IsInterrupted tx); [congruence|]. cbv zeta.
  destruct (evalPhase _ _ _); run_simpl; congruence.
Qed.

Lemma ProcessResponseBody_reports tx :
  tx.(tx_interruption) = None →
  ∀ tx' it err, ProcessResponseBody true registry waf tx = Done (tx', it, err) → it = tx'.(tx_interruption).
Proof.
  intros Hi tx' it err. unfold ProcessResponseBody. destruct (IsRuleEngineOff tx); [congruence|].
  destruct (IsInterrupted tx); [congruence|]. destruct (negb _); [congruence|].
  match goal with |- (?m ≫= _ = _) → _ => destruct m as [[tx1 e]| |] end; run_simpl; [|done..].
  destruct (evalPhase _ _ _); run_simpl; congruence.
Qed.

Lemma core_reader tx :
  good tx → ∃ tx' id, ResponseBodyReader tx = (tx', Some id) ∧
    @api_same _ coreAPI coreView tx tx' ∧ @api_left _ coreView tx' id = Some (contents tx.(tx_responseBodyBuffer)).
Proof.
  intros Hg. pose proof (readBody_wp _ (good_response _ Hg)) as H. unfold ResponseBodyReader.
  destruct (Reader (tx_responseBodyBuffer tx)) as [br id] eqn:Er. destruct H as (Hwf & Ho & Hc & _).
  do 2 eexists. split; [reflexivity|]. split; [split; [|by split]|].
  - exact (fo_good _ _ (good_response_buffer tx br Hg Hwf Ho)).
  - injection Er as <- <-. cbn. rewrite lookup_app_r, Nat.sub_diag by lia. cbn. by rewrite drop_0.
Qed.

Lemma core_read id n l tx :
  good tx → (0 < n)%nat → @api_left _ coreView tx id = Some l →
  wp (readResponseBody id n tx) (λ '(tx', got, eof),
    @api_same _ coreAPI coreView tx tx' ∧ got = take n l ∧ @api_left _ coreView tx' id = Some (drop n l) ∧
    if (eof : bool) then drop n l = [] else got ≠ []).
Proof.
  intros Hg Hn. cbn [api_left coreView]. destruct (readers (tx_responseBodyBuffer tx) !! id) as [r|] eqn:Er; [|done].
  cbn. destruct r as [pos []]; [|done]. cbn. intros [= <-]. pose proof (good_response _ Hg) as Hwf.
  pose proof (wf_readers _ Hwf) as Hr. rewrite Forall_lookup in Hr. specialize (Hr _ _ Er). cbn in Hr.
  destruct (Read_spec true _ id pos n Hr ltac:(by left) Er Hn) as (eof & HE & He1 & He2).
  unfold readResponseBody. rewrite HE. run_simpl. cbn [wp].
  set (got := take n (drop pos _)) in *.
  assert (pos + length got ≤ length (contents (tx_responseBodyBuffer tx)))%nat as Hle.
  { unfold got. rewrite length_take, length_drop. lia. }
  split; [split; [|by split]|split; [done|split]].
  - exact (fo_good _ _ (good_response_buffer tx _ Hg (wf_advance _ id (mkReader (pos + length got) true) Hwf Hle) eq_refl)).
  - cbn. rewrite list_lookup_insert_eq by (by eapply lookup_lt_Some). cbn. f_equal.
    change (contents _) with (contents (tx_responseBodyBuffer tx)).
    rewrite drop_drop. unfold got. rewrite length_take, length_drop.
    destruct (decide (n ≤ length (contents (tx_responseBodyBuffer tx)) - pos)%nat).
    + by rewrite Nat.min_l by lia.
    + rewrite !drop_ge by lia. done.
  - rewrite drop_drop. destruct eof; [by apply He1|by apply He2].
Qed.

Lemma coreLaws : @TransactionLaws Transaction coreAPI coreView.
Proof.
  pose proof Hsound as [Hs Hl]. split.
  - intros tx. cbn. unfold IsInterrupted. destruct (tx_interruption tx); [by rewrite bool_decide_eq_true_2 by eauto|].
    by rewrite bool_decide_eq_false_2 by (by intros []).
  - intros k v tx Hg. cbn [api_AddResponseHeader coreAPI].
    destruct (AddResponseHeader_variables k v tx) as [f ->]. split; [|done].
    exact (fo_good _ _ (follows_variables tx f Hg)).
  - intros code proto tx Hg Hi.
    destruct (wp_elim _ _ (ProcessResponseHeaders_follows waf Hs Hl code proto tx Hg)) as ([tx' it] & HE & [Hf Hb]).
    eapply wp_intro; [exact HE|]. injection Hb as _ Hb. split; [apply Hf|]. split; [done|].
    exact (ProcessResponseHeaders_reports code proto tx Hi _ _ HE).
  - intros b tx Hg Hi Hb.
    destruct (wp_elim _ _ (WriteResponseBody_keeps b tx Hg Hb)) as ([tx' [[it n] err]] & HE & Hk).
    destruct (wp_elim _ _ (WriteResponseBody_follows registry waf Hs Hl Hreg fsOK b tx Hg eq_refl Hb)) as (res & HE' & Hf).
    rewrite HE in HE'. injection HE' as <-. eapply wp_intro; [exact HE|]. split; [apply Hf|].
    unfold kept in Hk. cbn in Hi. by rewrite Hi in Hk.
  - intros b tx Hg [it0 Hi] Hb.
    destruct (wp_elim _ _ (WriteResponseBody_keeps b tx Hg Hb)) as ([tx' [[it n] err]] & HE & Hk).
    destruct (wp_elim _ _ (WriteResponseBody_follows registry waf Hs Hl Hreg fsOK b tx Hg eq_refl Hb)) as (res & HE' & Hf).
    rewrite HE in HE'. injection HE' as <-. eapply wp_intro; [exact HE|]. split; [apply Hf|].
    unfold kept in Hk. cbn in Hi. rewrite Hi in Hk. cbn. by rewrite Hi.
  - intros tx Hg Hi.
    destruct (wp_elim _ _ (ProcessResponseBody_follows registry waf Hs Hl Hreg tx Hg)) as ([[tx' it] err] & HE & [Hf Hb]).
    eapply wp_intro; [exact HE|]. injection Hb as _ Hb. split; [apply Hf|]. split; [done|].
    exact (ProcessResponseBody_reports tx Hi _ _ _ HE).
  - apply core_reader.
  - intros id n l tx. apply core_read.
Qed.
End api.

(** ** The middleware *)

(** [http.Request]: the fields that are read; no body is [nil] or
    [http.NoBody]. *)
Record Request := mkRequest {
  rq_RemoteAddr : bytes;
  rq_URL : bytes;
  rq_Method : bytes;
  rq_Proto : bytes;
  rq_Header : Header;
  rq_Host : bytes;
  rq_TransferEncoding : list bytes;
  rq_Body : option ioReader;
}.

(** The body the handler reads: that of the request, or a reader of the buffered
    body followed by the request body from byte [n] on. *)
Inductive requestBody := Original (r : option ioReader) | Rewound (reader : nat) (r : ioReader) (n : nat).

Section middleware.
Context `{U : !Unicode, O : !MapOrder, V : !Server}.
Context (ParseRequestURI : bytes → bytes + URL).
Context (registry : gmap bytes BodyProcessor).
Context (waf : WAF).

(** Client address and port. *)
Definition remoteAddr (addr : bytes) : bytes * Z :=
  match LastIndexByte addr 0x3a with
  | Some idx => (take idx addr, AtoiValue (drop (S idx) addr))
  | None => ([], 0)
  end.

Definition addRequestHeaders (hs : list (bytes * bytes)) (tx : Transaction) : run Transaction :=
  foldM (λ tx kv, AddRequestHeader kv.1 kv.2 tx) hs tx.

(** The header fields of a request, as they are added. *)
Definition requestHeaders (req : Request) : list (bytes * bytes) :=
  (range req.(rq_Header) ≫= λ kvs, (λ v, (kvs.1, v)) <$> kvs.2)
  ++ (if req.(rq_Host) =s [] then [] else [(str "Host", req.(rq_Host))]).

(** [tx.RequestBodyReader()] *)
Definition RequestBodyReader (tx : Transaction) : Transaction * nat :=
  let '(br, reader) := Reader tx.(tx_requestBodyBuffer) in (tx <| tx_requestBodyBuffer := br |>, reader).

(** The new state, the body for the handler, the interruption and whether an
    error is returned.  A reader that is copied from without an error is left
    after the bytes that were copied. *)
Definition processRequest (req : Request) (tx : Transaction)
    : run (Transaction * requestBody * option Interruption * bool) :=
  let '(client, cport) := remoteAddr req.(rq_RemoteAddr) in
  let tx := ProcessConnection client cport [] 0 tx in
  tx ← ProcessURI ParseRequestURI waf req.(rq_URL) req.(rq_Method) req.(rq_Proto) tx;
  tx ← addRequestHeaders (requestHeaders req) tx;
  let tx := if req.(rq_Host) =s [] then tx else SetServerName req.(rq_Host) tx in
  tx ← addRequestHeaders ((λ te, (str "Transfer-Encoding", te)) <$> req.(rq_TransferEncoding)) tx;
  '(tx, it) ← ProcessRequestHeaders waf tx;
  let body := Original req.(rq_Body) in
  match it, req.(rq_Body) with
  | Some _, _ => Done (tx, body, it, false)
  | None, Some r =>
      if tx.(tx_RequestBodyAccess) then
        '(tx, (it, n, err)) ← ReadRequestBodyFrom true registry waf (λ _, fsOK) r tx;
        match err, it with
        | Some _, _ => Done (tx, body, None, true)
        | None, Some _ => Done (tx, body, it, false)
        | None, None =>
            let '(tx, reader) := RequestBodyReader tx in
            '(tx, it) ← ProcessRequestBody true registry waf tx;
            Done (tx, Rewound reader r (Z.to_nat n), it, false)
        end
      else '(tx, it) ← ProcessRequestBody true registry waf tx; Done (tx, body, it, false)
  | None, None => '(tx, it) ← ProcessRequestBody true registry waf tx; Done (tx, body, it, false)
  end.

(** The bytes that reading the body delivers. *)
Definition bodyBytes (tx : Transaction) (body : requestBody) : bytes :=
  match body with
  | Original None => []
  | Original (Some r) => r.(io_data)
  | Rewound reader r n =>
      match tx.(tx_requestBodyBuffer).(readers) !! reader with
      | Some p => drop p.(r_pos) (contents tx.(tx_requestBodyBuffer))
      | None => []
      end ++ drop n r.(io_data)
  end.

(** How a request was handled; a response ends with the state of its
    interceptor. *)
Inductive handled :=
| Passed (oc : outcome)                      (** the rule engine is off *)
| Failed                                     (** an error, without a response *)
| Refused (it : Interruption)                (** interrupted in the request *)
| Served (oc : outcome) (failed : bool) (i : rwInterceptor Transaction).

(** The function of [WrapHandler] for a transaction and a request: the writer,
    the closed transaction, whether it was written to the audit log, and how it
    was handled.  Phase 5 and [Close] are deferred to the end of all paths. *)
Definition WrapHandler (h : Request → bytes → handler) (w : delegate) (req : Request) (tx : Transaction)
    : run (delegate * Transaction * bool * handled) :=
  let finish (w : delegate) (tx : Transaction) (res : handled) :=
    '(tx, audited) ← ProcessLogging waf tx; Done (w, (Close true waf tx).1, audited, res) in
  if IsRuleEngineOff tx then
    '(w, oc) ← ServeHTTP (h req (bodyBytes tx (Original req.(rq_Body)))) true w; finish w tx (Passed oc)
  else
    '(tx, body, it, err) ← processRequest req tx;
    if (err : bool) then finish w tx Failed
    else match it with
    | Some it => finish (dg_WriteHeader (obtainStatusCodeFromInterruptionOrDefault it StatusOK) w) tx (Refused it)
    | None =>
        '(i, oc, failed) ← @serve O V Transaction (coreAPI registry waf) (h req (bodyBytes tx body))
          (wrap w req.(rq_Proto) tx);
        finish i.(i_w) i.(i_tx) (Served oc failed i)
    end.
End middleware.

(** ** The request body *)

Section requests.
Context `{U : !Unicode, O : !MapOrder}.
Context (registry : gmap bytes BodyProcessor).
Context (waf : WAF).
Context (Hsound : sound_waf waf) (Hreg : sound_registry registry).

(** Copying stores the bytes it reports. *)
Lemma copyLoop_stores r : ∀ fuel i br rest n written,
  wf_buffer br → (length rest < fuel)%nat →
  wp (copyLoop true fuel i (λ _, fsOK) r br rest n written) (λ '(br', w, err),
    err = None → ∃ k, (k ≤ length rest)%nat ∧ w = written + Z.of_nat k ∧
      contents br' = contents br ++ take k rest).
Proof.
  induction fuel as [|fuel IH]; intros i br rest n written Hwf Hfuel; [lia|]. cbn [copyLoop].
  assert (∃ k, (k ≤ length rest)%nat ∧ written = written + Z.of_nat k ∧
    contents br = contents br ++ take k rest) as Hnone by (exists 0%nat; rewrite app_nil_r; split; [|split]; [lia..|done]).
  destruct (n <=? 0) eqn:En; [by intros _|]. destruct rest as [|x rest]; [by intros _|].
  replace (x :: rest =s []) with false by (symmetry; by apply bytes_eqb_neq). cbv zeta.
  set (k := (_ `min` _)%nat).
  assert (0 < k ≤ copySize)%nat as Hk by (unfold k, copySize; lia).
  destruct (Write_wf br (take k (x :: rest)) Hwf) as (br' & w & err & -> & Hwf' & Ho & Herr).
  { rewrite length_take. unfold copySize, maxInt64 in *. lia. }
  destruct err as [e|]; [done|]. destruct Herr as [Hc ->].
  eapply wp_mono; [apply (IH _ br'); [done|]|].
  - rewrite length_drop. cbn [length] in *. lia.
  - intros [[br2 w2] err2] H Hn. destruct (H Hn) as (k2 & Hk2 & -> & Hc2).
    exists (length (take k (x :: rest)) + k2)%nat. rewrite length_drop in Hk2. rewrite length_take in *.
    split; [lia|]. split; [lia|]. rewrite Hc2, Hc, <- app_assoc. f_equal.
    destruct (decide (k ≤ length (x :: rest))%nat).
    + rewrite Nat.min_l by lia. by rewrite <- take_take_drop.
    + rewrite Nat.min_r, (take_ge (x :: rest) k), (drop_ge _ k), take_nil, app_nil_r by lia.
      by rewrite take_ge by lia.
Qed.

(** What reading a request body leaves: [k] bytes more in the buffer. *)
Definition taken (r : ioReader) (tx : Transaction) (res : Transaction * writeResult) : Prop :=
  let '(tx', (it, n, err)) := res in
  contents tx'.(tx_responseBodyBuffer) = contents tx.(tx_responseBodyBuffer) ∧
  (err = None → tx.(tx_interruption) = None → it = tx'.(tx_interruption)) ∧
  (err = None → it = None → ∃ k, (k ≤ length r.(io_data))%nat ∧ n = Z.of_nat k ∧
     contents tx'.(tx_requestBodyBuffer) = contents tx.(tx_requestBodyBuffer) ++ take k r.(io_data)).

Lemma taken_nothing r tx it err : it = None ∨ it = tx.(tx_interruption) → taken r tx (tx, (it, 0, err)).
Proof. intros Hit. split; [done|]. split; [naive_solver|]. intros _ _. exists 0%nat. rewrite app_nil_r. split; [lia|done]. Qed.

Lemma ReadRequestBodyFrom_takes r tx :
  good tx → wp (ReadRequestBodyFrom true registry waf (λ _, fsOK) r tx) (taken r tx).
Proof.
  intros Hg. pose proof Hsound as [Hs Hl]. unfold ReadRequestBodyFrom.
  destruct (IsRuleEngineOff tx); [apply taken_nothing; by left|].
  destruct (negb _); [apply taken_nothing; by left|]. cbv zeta.
  assert (∀ n partial tx1, follows wf_buffer tx tx1 → tx_requestBodyBuffer tx1 = tx_requestBodyBuffer tx →
    tx_responseBodyBuffer tx1 = tx_responseBodyBuffer tx →
    wp ('(buf, w, err) ← CopyN true (λ _, fsOK) r (tx_requestBodyBuffer tx) n;
        match err with
        | Some e => Done (tx1 <| tx_requestBodyBuffer := buf |>, (None, w, Some e))
        | None => finishRequestBody true registry waf partial w (tx1 <| tx_requestBodyBuffer := buf |>)
        end) (taken r tx)) as Hcopy.
  { intros n partial tx1 H1 Hbuf Hrbuf. pose proof (good_request _ Hg) as Hwf.
    destruct (wp_elim _ _ (CopyN_wp (λ _, fsOK) r _ n (λ _, eq_refl) Hwf)) as ([[br w] err] & HE & [Hwf' Ho]).
    pose proof (copyLoop_stores r (S (length r.(io_data))) 0 _ r.(io_data) n 0 Hwf ltac:(lia)) as Hst.
    unfold CopyN in HE. rewrite HE in Hst. unfold CopyN. rewrite HE. run_simpl. cbn [wp fst] in *.
    destruct err as [e|]; [split; [cbn; by rewrite Hrbuf|by split]|].
    destruct (Hst eq_refl) as (k & Hk & -> & Hc).
    assert (good (tx1 <| tx_requestBodyBuffer := br |>)) as Hg2.
    { apply (fo_good tx), follows_request_write; [done|done|by rewrite Hbuf]. }
    set (tx2 := tx1 <| tx_requestBodyBuffer := br |>) in *.
    assert (∀ tx3, bodies tx3 = bodies tx2 →
      taken r tx (tx3, (tx3.(tx_interruption), 0 + Z.of_nat k, None))) as Hend.
    { intros tx3 [= E1 E2]. split; [rewrite E2; by rewrite Hrbuf|]. split; [done|]. intros _ _. exists k.
      split; [done|]. split; [lia|]. rewrite E1. exact Hc. }
    unfold finishRequestBody. cbv zeta. set (full := _ =? _).
    assert (good (if full then withSingle V.InboundDataError (str "1") tx2 else tx2) ∧
      bodies (if full then withSingle V.InboundDataError (str "1") tx2 else tx2) = bodies tx2) as [Hg3 Hb3].
    { destruct full; [|done]. split; [|done]. by apply (fo_good tx2), follows_withSingle. }
    set (tx3 := if full then _ else tx2) in *.
    assert (wp ('(tx, _) ← ProcessRequestBody true registry waf tx3;
                Done (tx, (tx.(tx_interruption), 0 + Z.of_nat k, None))) (taken r tx)) as Hproc.
    { eapply wp_bind; [by apply (ProcessRequestBody_follows (B := wf_buffer) registry waf Hs Hl Hreg)|].
      intros [tx4 it4] [_ Hb4]. apply Hend. cbn [fst] in Hb4. by rewrite Hb4. }
    destruct full.
    - destruct (w_RequestBodyLimitAction waf); [exact Hproc|]. split; [cbn; by rewrite Hrbuf|by split].
    - destruct partial; destruct (w_RequestBodyLimitAction waf); cbn [orb]; first [exact Hproc|by apply Hend]. }
  pose proof (follows_withSingle tx V.InboundDataError (str "1") Hg) as H1.
  destruct (_ =? _).
  { apply taken_nothing. destruct (w_RequestBodyLimitAction waf); [by left|by right]. }
  destruct (io_len r) as [len|].
  - destruct (_ >=? _); [apply taken_nothing; by left|]. destruct (_ >=? _).
    + destruct (w_RequestBodyLimitAction waf); [by apply Hcopy|]. by split; [|split].
    + apply Hcopy; [by apply follows_refl|done..].
  - apply Hcopy; [by apply follows_refl|done..].
Qed.

(** Readers that are open keep their position. *)
Lemma evalPhase_buffers p tx :
  wp (evalPhase waf p tx) (λ tx', Engine.buffers tx' = Engine.buffers tx).
Proof.
  pose proof Hsound as [Hs _]. unfold evalPhase.
  eapply wp_bind; [apply (Eval_sound (framed (tx <| tx_lastPhase := p |>)))|].
  - apply framed_bookkeeping.
  - apply framed_recording.
  - intros tx1 tx2. apply framed_flow.
  - exact Hs.
  - apply Forall_forall. intros c _. apply Forall_forall. intros a _. apply framed_kept.
  - apply framed_refl.
  - intros res (tx1 & (_ & _ & Hb & _) & ->). cbn [wp]. unfold Engine.buffers in *.
    unfold closePhase, endPhase. by case_decide.
Qed.

Lemma readAll_readers n : ∀ fuel br id,
  match readAll true fuel br id n with
  | Done (br', _) => ∀ j, j ≠ id → br'.(readers) !! j = br.(readers) !! j
  | _ => True
  end.
Proof.
  induction fuel as [|fuel IH]; intros br id; [done|]. cbn [readAll]. unfold Read.
  destruct (index (readers br) id) as [r| |]; run_simpl; [|done..].
  destruct (negb (r_open r)); run_simpl; [done|].
  destruct (readAt true br (r_pos r) n) as [[got eof]| |]; run_simpl; [|done..].
  set (br1 := br <| readers ::= _ |>).
  assert (∀ j, j ≠ id → readers br1 !! j = readers br !! j) as H1 by (intros j Hj; cbn; by rewrite list_lookup_insert_ne).
  destruct eof; [done|]. specialize (IH br1 id). destruct (readAll true fuel br1 id n) as [[br2 got2]| |]; run_simpl; [|done..].
  intros j Hj. by rewrite IH, H1.
Qed.

Lemma ProcessRequestBody_readers id tx :
  (id < length tx.(tx_requestBodyBuffer).(readers))%nat → good tx →
  wp (ProcessRequestBody true registry waf tx) (λ '(tx', _),
    tx'.(tx_requestBodyBuffer).(readers) !! id = tx.(tx_requestBodyBuffer).(readers) !! id).
Proof.
  intros Hid Hg. pose proof Hsound as [Hs Hl]. unfold ProcessRequestBody. destruct (IsRuleEngineOff tx); [done|].
  destruct (IsInterrupted tx); [done|]. destruct (negb _); [done|].
  eapply wp_bind with (R := λ tx', tx'.(tx_requestBodyBuffer).(readers) !! id =
    tx.(tx_requestBodyBuffer).(readers) !! id).
  2: { intros tx1 H1. eapply wp_bind; [apply evalPhase_buffers|]. intros tx2 H2. cbn.
    injection H2 as H2 _. by rewrite H2. }
  destruct (_ || _); [done|]. cbv zeta. pose proof (readBody_wp _ (good_request _ Hg)) as Hread.
  destruct (Reader (tx_requestBodyBuffer tx)) as [br reader] eqn:Er. destruct Hread as (_ & _ & _ & Hread).
  assert (readers br !! id = readers (tx_requestBodyBuffer tx) !! id ∧ reader ≠ id) as [Hbr Hne].
  { injection Er as <- <-. cbn. split; [by rewrite lookup_app_l|lia]. }
  set (tx1 := tx <| tx_requestBodyBuffer := br |>).
  set (p := if tx_ForceRequestBodyVariable tx1 then _ else _).
  assert (tx_requestBodyBuffer p.2 = br) as Hp by (unfold p; by destruct (tx_ForceRequestBodyVariable tx1)).
  destruct p as [rbp tx2]. cbn [snd] in Hp. destruct (_ =s _); [cbn; by rewrite Hp|].
  destruct (GetBodyProcessor registry (ToLower rbp)) as [bp|] eqn:Ebp; [|cbn; by rewrite Hp].
  pose proof (readAll_readers copySize (S (length (contents br))) br reader) as Hrs.
  destruct (wp_elim _ _ Hread) as ([br2 body] & HE & _). unfold readBody in *. rewrite HE in *. run_simpl.
  eapply wp_bind; [by apply (Hreg _ bp Ebp)|]. intros [v err] _. cbv zeta.
  destruct err as [e|]; cbn; rewrite Hrs; done.
Qed.

Lemma ProcessRequestHeaders_reports tx :
  tx.(tx_interruption) = None →
  ∀ tx' it, ProcessRequestHeaders waf tx = Done (tx', it) → it = tx'.(tx_interruption).
Proof.
  intros Hi tx' it. unfold ProcessRequestHeaders. destruct (IsRuleEngineOff tx); [congruence|].
  destruct (_ >=? _); [congruence|]. destruct (IsInterrupted tx); [congruence|].
  destruct (evalPhase _ _ _); run_simpl; congruence.
Qed.

Lemma ProcessRequestBody_reports tx :
  tx.(tx_interruption) = None →
  ∀ tx' it, ProcessRequestBody true registry waf tx = Done (tx', it) → it = tx'.(tx_interruption).
Proof.
  intros Hi tx' it. unfold ProcessRequestBody. destruct (IsRuleEngineOff tx); [congruence|].
  destruct (IsInterrupted tx); [congruence|]. destruct (negb _); [congruence|].
  match goal with |- (?m ≫= _ = _) → _ => destruct m as [tx1| |] end; run_simpl; [|done..].
  destruct (evalPhase _ _ _); run_simpl; congruence.
Qed.

Context (ParseRequestURI : bytes → bytes + URL).

(** A state that a request is processed from: nothing is interrupted or
    buffered. *)
Definition unused (tx : Transaction) : Prop :=
  good tx ∧ tx.(tx_interruption) = None ∧
  contents tx.(tx_requestBodyBuffer) = [] ∧ contents tx.(tx_responseBodyBuffer) = [].

(** What processing a request leaves. *)
Definition processed (req : Request) (res : Transaction * requestBody * option Interruption * bool) : Prop :=
  let '(tx, body, it, err) := res in
  good tx ∧ contents tx.(tx_responseBodyBuffer) = [] ∧
  (err = false → it = tx.(tx_interruption) ∧
     (it = None → bodyBytes tx body = default [] (io_data <$> req.(rq_Body)))).

Lemma unused_rewrites tx tx' : unused tx → rewrites tx tx' → unused tx'.
Proof.
  intros (Hg & Hi & H1 & H2) Hr. pose proof (fo_good _ _ (rewrites_follows tx tx' Hg Hr)) as Hg'.
  by destruct Hr as [tv ->].
Qed.

Lemma addRequestHeaders_rewrites hs tx : wp (addRequestHeaders hs tx) (rewrites tx).
Proof.
  apply foldM_wp; [|apply rewrites_refl]. intros tx1 kv _ H1.
  eapply wp_mono; [apply AddRequestHeader_rewrites|]. intros tx2. by apply rewrites_trans.
Qed.

(** The end of [processRequest] when no body is read. *)
Lemma processBody_processed req tx :
  unused tx →
  wp ('(tx, it) ← ProcessRequestBody true registry waf tx; Done (tx, Original req.(rq_Body), it, false))
    (processed req).
Proof.
  intros (Hg & Hi & _ & Hc). pose proof Hsound as [Hs Hl].
  destruct (wp_elim _ _ (ProcessRequestBody_follows registry waf Hs Hl Hreg tx Hg)) as ([tx' it] & HE & [Hf Hb]).
  rewrite HE. run_simpl. injection Hb as _ Hb. split; [apply Hf|]. split; [congruence|]. intros _.
  split; [by eapply ProcessRequestBody_reports|]. intros _. cbn. by destruct (rq_Body req).
Qed.

Lemma readBody_processed req r tx :
  req.(rq_Body) = Some r → unused tx →
  wp ('(tx, (it, n, err)) ← ReadRequestBodyFrom true registry waf (λ _, fsOK) r tx;
      match err, it with
      | Some _, _ => Done (tx, Original req.(rq_Body), None, true)
      | None, Some _ => Done (tx, Original req.(rq_Body), it, false)
      | None, None =>
          let '(tx, reader) := RequestBodyReader tx in
          '(tx, it) ← ProcessRequestBody true registry waf tx;
          Done (tx, Rewound reader r (Z.to_nat n), it, false)
      end) (processed req).
Proof.
  intros Hr (Hg & Hi & Hq & Hc). pose proof Hsound as [Hs Hl].
  destruct (wp_elim _ _ (ReadRequestBodyFrom_takes r tx Hg)) as ([tx1 [[it n] err]] & HE & Hresp & Hrep & Htk).
  destruct (wp_elim _ _ (ReadRequestBodyFrom_follows registry waf Hs Hl Hreg (λ _, fsOK) r tx Hg (λ _, eq_refl))) as (res & HE' & Hf).
  rewrite HE in HE'. injection HE' as <-. rewrite HE. run_simpl. cbn [fst] in Hf.
  destruct err as [e|]; [split; [apply Hf|split; [congruence|done]]|].
  destruct it as [it|].
  { split; [apply Hf|]. split; [congruence|]. intros _. split; [by apply Hrep|done]. }
  destruct (Htk eq_refl eq_refl) as (k & Hk & -> & Hc1). specialize (Hrep eq_refl Hi).
  pose proof (readBody_wp _ (good_request _ (fo_good _ _ Hf))) as Hrd.
  unfold RequestBodyReader. destruct (Reader (tx_requestBodyBuffer tx1)) as [br reader] eqn:Er.
  destruct Hrd as (Hwf & Ho & Hcr & _). set (tx2 := tx1 <| tx_requestBodyBuffer := br |>).
  assert (good tx2) as Hg2 by exact (fo_good _ _ (good_request_buffer tx1 br (fo_good _ _ Hf) Hwf Ho)).
  assert (readers (tx_requestBodyBuffer tx2) !! reader = Some (mkReader 0 true)) as Hrd.
  { injection Er as <- <-. cbn. by rewrite lookup_app_r, Nat.sub_diag by lia. }
  destruct (wp_elim _ _ (ProcessRequestBody_follows registry waf Hs Hl Hreg tx2 Hg2)) as ([tx3 it3] & HE3 & [Hf3 Hb3]).
  pose proof (ProcessRequestBody_readers reader tx2 (lookup_lt_Some _ _ _ Hrd) Hg2) as Hrs.
  rewrite HE3 in *. run_simpl. cbn [wp] in *. injection Hb3 as Hb3 Hb3'.
  split; [apply Hf3|]. split; [rewrite Hb3'; cbn; congruence|]. intros _.
  split; [eapply ProcessRequestBody_reports; [|exact HE3]; done|]. intros _.
  rewrite Hr. cbn. rewrite Hrs, Hrd. cbn. rewrite drop_0, Hb3. cbn. rewrite Hcr, Hc1, Hq, Nat2Z.id. cbn.
  apply take_drop.
Qed.

Lemma processRequest_processed req tx :
  unused tx → wp (processRequest ParseRequestURI registry waf req tx) (processed req).
Proof.
  intros Hu. pose proof Hsound as [Hs Hl]. unfold processRequest.
  destruct (remoteAddr _) as [client cport]. cbv zeta.
  assert (unused (ProcessConnection client cport [] 0 tx)) as H1.
  { eapply unused_rewrites; [exact Hu|]. do 4 apply rewrites_variables. apply rewrites_refl. }
  eapply wp_bind; [apply ProcessURI_rewrites|]. intros tx2 H2. apply (unused_rewrites _ _ H1) in H2.
  eapply wp_bind; [apply addRequestHeaders_rewrites|]. intros tx3 H3. apply (unused_rewrites _ _ H2) in H3.
  set (tx4 := if _ =s [] then tx3 else _).
  assert (unused tx4) as H4.
  { unfold tx4. destruct (_ =s _); [done|]. eapply unused_rewrites; [exact H3|].
    apply rewrites_variables, rewrites_refl. }
  eapply wp_bind; [apply addRequestHeaders_rewrites|]. intros tx5 H5. apply (unused_rewrites _ _ H4) in H5.
  destruct H5 as (Hg & Hi & Hq & Hr).
  destruct (wp_elim _ _ (ProcessRequestHeaders_follows waf Hs Hl tx5 Hg)) as ([tx6 it] & HE & [Hf Hb]).
  pose proof (ProcessRequestHeaders_reports tx5 Hi _ _ HE) as Hrep. rewrite HE. run_simpl.
  cbn [fst] in *. injection Hb as Hb1 Hb2. destruct it as [it|].
  { split; [apply Hf|]. split; [congruence|]. by intros _. }
  assert (unused tx6) as H6.
  { split; [apply Hf|]. split; [done|]. split; congruence. }
  destruct (rq_Body req) as [r|] eqn:Er.
  - destruct (tx_RequestBodyAccess tx6).
    + rewrite <- Er. by apply readBody_processed.
    + rewrite <- Er. by apply processBody_processed.
  - rewrite <- Er. by apply processBody_processed.
Qed.

(** C3: For rules that are sound and leave the body limits alone, body processors that
    return and a file system that does not fail, processing a request on an unused
    transaction returns.  When it is not interrupted and there is no error, the
    body that the handler reads is the body of the request, also the part beyond
    the limit of the buffer. *)
Theorem processRequest_body req tx :
  unused tx →
  ∃ tx' body it err, processRequest ParseRequestURI registry waf req tx = Done (tx', body, it, err) ∧
    (err = false → it = None → bodyBytes tx' body = default [] (io_data <$> req.(rq_Body))).
Proof.
  intros Hu. destruct (wp_elim _ _ (processRequest_processed req tx Hu)) as ([[[tx' body] it] err] & HE & (_ & _ & H)).
  exists tx', body, it, err. split; [done|]. intros He Hi. by apply H.
Qed.
End requests.

(** ** A request through the middleware *)

Section handling.
Context `{U : !Unicode, O : !MapOrder, V : !Server}.
Context (ParseRequestURI : bytes → bytes + URL).
Context (registry : gmap bytes BodyProcessor).
Context (waf : WAF).
Context (Hsound : sound_waf waf) (Hreg : sound_registry registry).

#[local] Existing Instance coreAPI | 0.
#[local] Existing Instance coreView | 0.
#[local] Instance coreLaws_local : @TransactionLaws Transaction (coreAPI registry waf) coreView :=
  coreLaws registry waf Hsound Hreg.

(** The bytes of the body of a request. *)
Definition requestBytes (req : Request) : bytes := default [] (io_data <$> req.(rq_Body)).

(** What every path of [WrapHandler] leaves; the response of a request that was
    served is that of the interceptor for a transaction without an interruption
    and with empty buffers, and the handler read the body of the request. *)
Definition outcomes (h : Request → bytes → handler) (w : delegate) (req : Request) (tx : Transaction)
    (res : delegate * Transaction * bool * handled) : Prop :=
  let '(w', tx', _, how) := res in
  (contents tx'.(tx_requestBodyBuffer) = [] ∧ contents tx'.(tx_responseBodyBuffer) = []) ∧
  match how with
  | Passed oc => tx.(tx_RuleEngine) = RuleEngineOff ∧ ServeHTTP (h req (requestBytes req)) true w = Done (w', oc)
  | Failed => w' = w
  | Refused it =>
      w'.(dg_log) = w.(dg_log) ++ [EHeader (obtainStatusCodeFromInterruptionOrDefault it StatusOK) w.(dg_header)]
  | Served oc failed i => ∃ tx1,
      @fresh _ (coreAPI registry waf) coreView w tx1 ∧ w' = i.(i_w) ∧
      @serve O V _ (coreAPI registry waf) (h req (requestBytes req)) (wrap w req.(rq_Proto) tx1) = Done (i, oc, failed)
  end.

Lemma Close_contents tx :
  contents (Close true waf tx).1.(tx_requestBodyBuffer) = [] ∧
  contents (Close true waf tx).1.(tx_responseBodyBuffer) = [].
Proof. done. Qed.

(** The handler on the writer of net/http itself. *)
Lemma ServeHTTP_delegate h w : wf_handler h → ∃ w' oc, ServeHTTP h true w = Done (w', oc).
Proof.
  intros Hh. destruct (wp_elim _ _ (ServeHTTP_inv (R := delegate) (λ _, True)
    ltac:(done) ltac:(done) ltac:(by intros b s; cbn; destruct (dg_Write b s) as [[]]) ltac:(done)
    ltac:(by intros s; cbn; destruct (dg_Hijack s)) h true w Hh I)) as ([w' oc] & HE & _).
  by exists w', oc.
Qed.

Lemma WrapHandler_outcomes h w req tx :
  wf_handler (h req (requestBytes req)) → w.(dg_log) = [] → unused tx →
  wp (WrapHandler ParseRequestURI registry waf h w req tx) (outcomes h w req tx).
Proof.
  intros Hh Hw Hu. pose proof Hsound as [Hs Hl]. unfold WrapHandler. cbv zeta.
  assert (∀ w' tx' res, good tx' →
    (∀ tx'' aud, contents tx''.(tx_requestBodyBuffer) = [] ∧ contents tx''.(tx_responseBodyBuffer) = [] →
       outcomes h w req tx (w', tx'', aud, res)) →
    wp ('(tx, audited) ← ProcessLogging waf tx'; Done (w', (Close true waf tx).1, audited, res))
      (outcomes h w req tx)) as Hfinish.
  { intros w' tx' res Hg Hout. eapply wp_bind; [by apply (ProcessLogging_follows (B := wf_buffer) waf Hs Hl)|].
    intros [tx2 aud] _. apply Hout. apply Close_contents. }
  destruct (IsRuleEngineOff tx) eqn:Eoff.
  { replace (bodyBytes tx (Original (rq_Body req))) with (requestBytes req)
      by (unfold requestBytes; cbn; by destruct (rq_Body req)).
    destruct (ServeHTTP_delegate (h req (requestBytes req)) w Hh) as (w' & oc & HE).
    rewrite HE. run_simpl. apply Hfinish; [apply Hu|]. intros tx2 aud Hc. split; [done|].
    unfold IsRuleEngineOff in Eoff. by apply bool_decide_eq_true in Eoff. }
  destruct (wp_elim _ _ (processRequest_processed registry waf Hsound Hreg ParseRequestURI req tx Hu))
    as ([[[tx1 body] it] err] & HE & (Hg & Hc & Hp)). rewrite HE. run_simpl.
  destruct err; [apply Hfinish; [done|]; by split|]. destruct (Hp eq_refl) as [Hi Hb].
  destruct it as [it|]; [apply Hfinish; [done|]; by split|]. rewrite (Hb eq_refl).
  assert (@fresh _ (coreAPI registry waf) coreView w tx1) as Hf by (split; [done|by split]).
  destruct (serve_order (h req (requestBytes req)) w req.(rq_Proto) tx1 Hh Hf) as (i & oc & failed & Hserve & Hv & _).
  unfold requestBytes in Hserve. rewrite Hserve. run_simpl. apply Hfinish; [exact Hv|]. intros tx2 aud Hc2.
  split; [done|]. by exists tx1.
Qed.

(** C29: For rules that are sound and leave the body limits alone, body processors
    that return, a file system that does not fail and a handler that sends no
    status but 101 or 200 to 999, the middleware returns and leaves the buffers of
    the transaction empty.  Whatever else the handler does and whatever the server
    answers, a request that is refused gets one status and nothing else, and of a
    request that is served the server gets the status at most once and before any
    write or flush: exactly once unless the handler hijacked the connection or
    panicked. *)
Theorem WrapHandler_order h w req tx :
  wf_handler (h req (requestBytes req)) → w.(dg_log) = [] → unused tx →
  ∃ w' tx' aud how, WrapHandler ParseRequestURI registry waf h w req tx = Done (w', tx', aud, how) ∧
    contents tx'.(tx_requestBodyBuffer) = [] ∧ contents tx'.(tx_responseBodyBuffer) = [] ∧
    match how with
    | Passed _ => tx.(tx_RuleEngine) = RuleEngineOff
    | Failed => w'.(dg_log) = []
    | Refused it =>
        w'.(dg_log) = [EHeader (obtainStatusCodeFromInterruptionOrDefault it StatusOK) w.(dg_header)]
    | Served oc _ i =>
        (∃ flushed, ordered flushed w'.(dg_log)) ∧
        (oc.(oc_panicked) = false → i.(i_isHijacked) = false → ∃ code hd, started code hd w'.(dg_log))
    end.
Proof.
  intros Hh Hw Hu. destruct (wp_elim _ _ (WrapHandler_outcomes h w req tx Hh Hw Hu))
    as ([[[w' tx'] aud] how] & HE & [[Hc1 Hc2] H]). exists w', tx', aud, how. split; [done|].
  split; [done|]. split; [done|]. destruct how as [oc| |it|oc failed i].
  - by destruct H.
  - by subst w'.
  - by rewrite H, Hw.
  - destruct H as (tx1 & Hf & -> & Hserve).
    destruct (serve_order (h req (requestBytes req)) w req.(rq_Proto) tx1 Hh Hf)
      as (i1 & oc1 & f1 & HE1 & _ & Ho & Hst). rewrite Hserve in HE1. injection HE1 as <- <- <-.
    split; [by eexists|]. exact Hst.
Qed.


(** C10: Transparency.  For rules that are sound and leave the body limits alone,
    body processors that return, a file system that does not fail, a handler that
    sends no status but 101 or 200 to 999 (so no informational ones), and a server
    that takes every write, can flush and does not give its connection away:
    unless the transaction is interrupted, a write or the processing of the body
    fails, or bytes that were kept back are lost, the response has the status and
    the body that the handler alone would have given to the request with its
    original body. *)
Theorem WrapHandler_transparent h w req tx :
  accepting → isFlusher = true → (∀ log, hijacks log = false) →
  wf_handler (h req (requestBytes req)) → w.(dg_log) = [] → unused tx →
  ∃ w' tx' aud how, WrapHandler ParseRequestURI registry waf h w req tx = Done (w', tx', aud, how) ∧
    match how with
    | Passed oc => ServeHTTP (h req (requestBytes req)) true w = Done (w', oc)
    | Served oc failed i =>
        oc = mkOutcome false true → failed = false → i.(i_tx).(tx_interruption) = None →
        ¬ @lost _ (coreAPI registry waf) i →
        ∃ d, ServeHTTP (h req (requestBytes req)) true w = Done (d, oc) ∧
          statusOf w'.(dg_log) = Some (default StatusOK (statusOf d.(dg_log))) ∧
          written w'.(dg_log) = written d.(dg_log)
    | Failed | Refused _ => bodies_of w'.(dg_log) = []
    end.
Proof.
  intros Hacc Hfl Hhj Hh Hw Hu. destruct (wp_elim _ _ (WrapHandler_outcomes h w req tx Hh Hw Hu))
    as ([[[w' tx'] aud] how] & HE & [_ H]). exists w', tx', aud, how. split; [done|].
  destruct how as [oc| |it|oc failed i].
  - by destruct H.
  - subst w'. by rewrite Hw.
  - by rewrite H, Hw.
  - destruct H as (tx1 & Hf & -> & Hserve).
    destruct (serve_transparent Hacc Hfl Hhj (h req (requestBytes req)) w req.(rq_Proto) tx1 Hh Hf)
      as (i1 & oc1 & f1 & HE1 & H1). rewrite Hserve in HE1. injection HE1 as <- <- <-. exact H1.
Qed.
End handling.

(** ** Examples *)

(** A server that takes every write. *)
Definition exampleServer : Server := {|
  isFlusher := true;
  isHijacker := false;
  accepts _ b := (length b, false);
  hijacks _ := false;
|}.

(** [SecRule REQUEST_URI "@streq evil" "id:1,phase:p,ACTION"] *)
Definition evilRule (p : Z) (a : Action) : ChainedRule :=
  mkChained
    (NewRule <| r_meta ::= (λ m, m <| ID_ := 1 |> <| Phase_ := p |>) |>
             <| r_variables := [mkParams false V.RequestURI None [] []] |>
             <| r_operator := Some streqEvil |>
             <| r_actions := [mkAction (str "example") a] |>)
    [].

Definition servingWAF (rules : RuleGroup) : WAF :=
  mkWAF rules RuleEngineOn 100 true 1024 BodyLimitActionProcessPartial None true 16 BodyLimitActionProcessPartial
    [str "text/html"] AuditEngineOff [] [] None 1024 UploadKeepFilesOff [] [] 0.

Lemma servingWAF_sound p a : safe_action a → setsLimit a = false → sound_waf (servingWAF [evilRule p a]).
Proof.
  intros Ha Hl. split.
  - apply Forall_cons_2; [|apply Forall_nil_2]. split; [|apply Forall_nil_2]. split; try done.
    + intros op [= <-] tx data. exists id, id. by destruct tx.
    + by apply Forall_cons_2; [|apply Forall_nil_2].
  - apply Forall_cons_2; [|apply Forall_nil_2]. by apply Forall_cons_2; [|apply Forall_nil_2].
Qed.

Definition servingTransaction : Transaction :=
  emptyTransaction <| tx_RequestBodyAccess := true |> <| tx_ResponseBodyAccess := true |>
    <| tx_ResponseBodyLimit := 16 |> <| tx_responseBodyBuffer := NewBodyBuffer (mkOptions [] 16 16) |>.

Lemma servingTransaction_unused : unused servingTransaction.
Proof. split; [split; try done; by apply wf_NewBodyBuffer|done]. Qed.

Definition exampleRequest (uri : bytes) : Request :=
  mkRequest (str "10.0.0.1:4711") uri (str "POST") (str "HTTP/1.1") {[str "Accept" := [str "*/*"]]}
    (str "example.com") [] (Some (mkIOReader (str "a=1&b=2") (λ _, 2%nat) None None)).

(** A handler that answers with the body of the request, twice. *)
Definition echo (_ : Request) (b : bytes) : handler :=
  HHeader <[str "Content-Type" := [str "text/html"]]> (λ _,
    HWriteHeader 201 (HWrite b (λ _, HFlush (HReadFrom (mkIOReader b (λ _, 3%nat) None None) (λ _, HReturn))))).

Definition exampleRun (rules : RuleGroup) (h : Request → bytes → handler) (uri : bytes) (tx : Transaction) :=
  @WrapHandler latin1 listOrder exampleServer exampleURI exampleRegistry (servingWAF rules) h (mkDelegate ∅ [])
    (exampleRequest uri) tx.

Lemma echo_wf : wf_handler (echo (exampleRequest (str "/a")) (requestBytes (exampleRequest (str "/a")))).
Proof. cbn. intros _. split; [right; lia|]. split; [by vm_compute|done]. Qed.

(** The example with a rule that blocks the response in phase 3; a response that
    is not inspected is passed on by the write that started it. *)
Definition silent (_ : Request) (_ : bytes) : handler := HWrite (str "secret") (λ _, HReturn).

Lemma WrapHandler_order_witness :
  ∃ w' tx' aud how, exampleRun [evilRule 3 ADeny] silent (str "evil") servingTransaction = Done (w', tx', aud, how) ∧
    match how with Served _ _ _ => ∃ code hd, started code hd w'.(dg_log) | _ => False end.
Proof.
  destruct (@WrapHandler_order latin1 listOrder exampleServer exampleURI exampleRegistry
    (servingWAF [evilRule 3 ADeny]) (servingWAF_sound 3 ADeny I eq_refl) exampleRegistry_sound silent
    (mkDelegate ∅ []) (exampleRequest (str "evil")) servingTransaction)
    as (w' & tx' & aud & how & HE & _ & _ & H); [split; [by vm_compute|done]|reflexivity|exact servingTransaction_unused|].
  exists w', tx', aud, how. split; [exact HE|].
  assert (returned (exampleRun [evilRule 3 ADeny] silent (str "evil") servingTransaction)
    (λ r, match r.2 with Served oc _ i => negb oc.(oc_panicked) && negb i.(i_isHijacked) | _ => false end)) as Hr
    by (vm_compute; reflexivity).
  unfold exampleRun in Hr. rewrite HE in Hr. cbn [returned snd] in Hr.
  destruct how as [oc| |it|oc failed i]; try discriminate Hr.
  apply andb_true_iff in Hr as [H1%negb_true_iff H2%negb_true_iff]. by apply H.
Defined.


Lemma WrapHandler_transparent_witness :
  ∃ w' tx' aud how, exampleRun [] echo (str "/a") servingTransaction = Done (w', tx', aud, how) ∧
    match how with Served _ _ _ => ∃ d oc,
        @ServeHTTP delegate (@delegate_writer exampleServer) (echo (exampleRequest (str "/a")) (str "a=1&b=2")) true
          (mkDelegate ∅ []) = Done (d, oc) ∧
        statusOf w'.(dg_log) = Some (default StatusOK (statusOf d.(dg_log))) ∧
        written w'.(dg_log) = written d.(dg_log)
    | _ => False end.
Proof.
  destruct (@WrapHandler_transparent latin1 listOrder exampleServer exampleURI exampleRegistry
    (servingWAF []) (conj (Forall_nil_2 _) (Forall_nil_2 _)) exampleRegistry_sound echo
    (mkDelegate ∅ []) (exampleRequest (str "/a")) servingTransaction)
    as (w' & tx' & aud & how & HE & H);
    [done|done|done|exact echo_wf|reflexivity|exact servingTransaction_unused|].
  exists w', tx', aud, how. split; [exact HE|].
  assert (returned (exampleRun [] echo (str "/a") servingTransaction)
    (λ r, match r.2 with
          | Served oc f i => negb oc.(oc_panicked) && oc.(oc_accepted) && negb f &&
              negb (IsInterrupted i.(i_tx)) && i.(i_wroteBufferedBodyToDownstream)
          | _ => false end)) as Hr by (vm_compute; reflexivity).
  unfold exampleRun in Hr. rewrite HE in Hr. cbn [returned snd fst] in Hr.
  destruct how as [oc| |it|[panicked accepted] failed i]; try discriminate Hr.
  cbn [oc_panicked oc_accepted] in Hr. unfold IsInterrupted in Hr.
  destruct panicked, accepted, failed, (tx_interruption (i_tx i)) eqn:Ei; try discriminate Hr.
  cbn [negb andb] in Hr.
  destruct (H eq_refl eq_refl eq_refl) as (d & HD & Hs & Hw).
  { intros (_ & Hl & _). rewrite Hr in Hl. discriminate Hl. }
  exists d, (mkOutcome false true). split; [exact HD|]. split; [exact Hs|exact Hw].
Defined.

(** ** Observations *)

(** The statuses and the writes that the server received. *)
Definition observed (r : run (delegate * Transaction * bool * handled)) : option (list Z * list bytes) :=
  match r with
  | Done (w, _, _, _) =>
      Some (omap (λ e, match e with EHeader code _ => Some code | _ => None end) w.(dg_log), bodies_of w.(dg_log))
  | _ => None
  end.

(** A rule of phase 3 denies the response, and the server is still asked to write
    the first bytes of a handler that sends no status of its own: the write that
    starts the response is not checked again after [WriteHeader]. *)
Lemma firstWrite_passes :
  observed (exampleRun [evilRule 3 ADeny] silent (str "evil") servingTransaction) = Some ([403], [str "secret"]).
Proof. vm_compute. reflexivity. Qed.

(** A handler that returns without a call never gets to [ProcessResponseHeaders]:
    the same rule does not block its empty response. *)
Lemma emptyResponse_passes :
  observed (exampleRun [evilRule 3 ADeny] (λ _ _, HReturn) (str "evil") servingTransaction) = Some ([200], []).
Proof. vm_compute. reflexivity. Qed.

(** An informational status is taken for the final one, which is dropped. *)
Lemma informational_final :
  let h := HWriteHeader 103 (HWriteHeader 404 (HWrite (str "gone") (λ _, HReturn))) in
  observed (exampleRun [] (λ _ _, h) (str "/a") servingTransaction) = Some ([103], [str "gone"]) ∧
  ∃ d oc, @ServeHTTP delegate (@delegate_writer exampleServer) h true (mkDelegate ∅ []) = Done (d, oc) ∧
    d.(dg_log) = [EHeader 103 ∅; EHeader 404 ∅; EWrite (str "gone")].
Proof. split; [vm_compute; reflexivity|]. do 2 eexists. split; reflexivity. Qed.

(** A rule of phase 4 that ends the inspection of the body, when the body fills
    the buffer exactly: what was kept back is never sent. *)
Lemma keptBack_lost :
  let tx := servingTransaction <| tx_ForceResponseBodyVariable := true |> in
  let off := ACtl (mkCtl ctlForceResponseBodyVariable (str "off") V.Unknown [] None) in
  let h := HWrite (str "0123456789abcdef") (λ _, HWrite (str "rest") (λ _, HReturn)) in
  observed (exampleRun [evilRule 4 off] (λ _ _, h) (str "evil") tx) = Some ([200], [str "rest"]).
Proof. vm_compute. reflexivity. Qed.

(** A redirection is answered with status 200, and without a location. *)
Lemma redirect_status :
  match exampleRun [evilRule 1 (ARedirect (str "https://example.com"))] echo (str "evil") servingTransaction with
  | Done (w, _, _, Refused _) => w.(dg_log) = [EHeader 200 ∅]
  | _ => False
  end.
Proof. vm_compute. reflexivity. Qed.

Lemma processRequest_body_witness :
  ∃ tx' body it err,
    @processRequest latin1 listOrder exampleURI exampleRegistry (servingWAF []) (exampleRequest (str "/a"))
      servingTransaction = Done (tx', body, it, err) ∧
    bodyBytes tx' body = str "a=1&b=2".
Proof.
  destruct (@processRequest_body latin1 listOrder exampleRegistry (servingWAF []) (conj (Forall_nil_2 _) (Forall_nil_2 _))
    exampleRegistry_sound exampleURI (exampleRequest (str "/a")) servingTransaction servingTransaction_unused)
    as (tx' & body & it & err & HE & H).
  exists tx', body, it, err. split; [exact HE|].
  assert (returned (@processRequest latin1 listOrder exampleURI exampleRegistry (servingWAF [])
    (exampleRequest (str "/a")) servingTransaction) (λ r, negb r.2 && bool_decide (r.1.2 = None))) as Hr
    by (vm_compute; reflexivity).
  rewrite HE in Hr. cbn [returned snd fst] in Hr.
  apply andb_true_iff in Hr as [H1%negb_true_iff H2%bool_decide_eq_true]. exact (H H1 H2).
Defined.
