(* ===== verification/Memoize.v ===== *)
(** The memoizer of src/internal/memoize, which shares compiled expressions
    between WAFs, in its two builds: sync.go, and nosync.go for TinyGo.

    Calls of [Do] and [Release] run concurrently.  A state has the entries that
    were allocated, the map from keys to entries, the flights of package
    singleflight and the calls; a step runs one call up to its next access to
    shared memory.  The steps are those that the packages document as atomic:
    an operation of [sync.Map], a critical section of an entry, entering and
    leaving a flight.  [releaseEntry] removes the entry from the map while it
    holds the lock of the entry; since the entry is marked before, a call that
    waited for the lock sees what it would have seen without it, and the two
    accesses are two steps.  The calls of both builds run in one system, of
    which the calls of each build are a part.

    The values are of any type; what a call would compute is part of the call,
    which is never forgotten: a call that has returned keeps its result. *)

From S2P Require Import Prelude GoLib.

(** Splits a step into its cases, with the accesses as equations. *)
Ltac step_cases :=
  repeat first
    [ progress simplify_eq/=
    | match goal with
      | H : mbind _ _ = Some _ |- _ => apply bind_Some in H as (? & ? & ?)
      | H : match ?x with _ => _ end = Some _ |- _ => destruct x eqn:?
      end ].

Section memoize.
Context {A : Type}.

(** ** State *)

Record entry := mkEntry { e_value : A; e_owners : gset Z; e_deleted : bool }.

#[global] Instance entry_eta : Eta entry := λ x, mkEntry x.(e_value) x.(e_owners) x.(e_deleted).

(** A flight: its key and, once it has landed, its result, which is the address
    of an entry, or none for an error. *)
Abbreviation flight := (bytes * option (option nat))%type (only parsing).

(** Where a call of [Do] is. *)
Inductive doPC :=
| Start                                  (** at the top of the loop *)
| Own (e : nat)                          (** loaded [e] *)
| Slow                                   (** about to enter the flight of the key *)
| Wait (f : nat)                         (** waits for flight [f] *)
| Check (f : nat)                        (** leads flight [f], looks again *)
| CheckOwn (f e : nat)
| Call (f : nat)                         (** about to call [fn] *)
| Store (f c : nat)                      (** has candidate [c] *)
| StoreOwn (f c e : nat)                 (** found [e] in the map *)
| StoreDelete (f c e : nat)              (** found [e] deleted *)
| Landing (f : nat) (res : option nat)   (** about to leave the flight *)
| Result (e : nat)                       (** the flight returned [e] *)
| Returned (e : nat) (v : A)             (** returned the value of [e] *)
| Erred.                                 (** returned the error *)

(** The same without flights. *)
Inductive tinyPC :=
| TStart
| TOwn (e : nat)
| TCall
| TStore (c : nat)
| TStoreOwn (c e : nat)
| TStoreDelete (c e : nat)
| TReturned (e : nat) (v : A)
| TErred.

(** A range over the map: the map and the mappings there had been at its start,
    and the keys it has visited. *)
Record range := mkRange { r_start : gmap bytes nat; r_old : gset (bytes * nat); r_visited : gset bytes }.

Inductive releasePC :=
| Ranging (r : range)
| Visiting (r : range) (k : bytes) (e : nat)
| Deleting (r : range) (k : bytes) (e : nat)
| Released.

(** [toDelete] is what the range has found. *)
Inductive tinyReleasePC :=
| TRanging (r : range) (toDelete : list (bytes * nat))
| TVisiting (r : range) (toDelete : list (bytes * nat)) (k : bytes) (e : nat)
| TDeleting (toDelete : list (bytes * nat)).

Inductive thread :=
| Do (ownerID : Z) (key : bytes) (fn : option A) (pc : doPC)
| Release (ownerID : Z) (pc : releasePC)
| DoTiny (ownerID : Z) (key : bytes) (fn : option A) (pc : tinyPC)
| ReleaseTiny (ownerID : Z) (pc : tinyReleasePC).

(** [published] has every mapping that was ever stored. *)
Record state := mkState {
  heap : list entry;
  cache : gmap bytes nat;
  group : gmap bytes nat;
  flights : list flight;
  threads : gmap nat thread;
  published : gset (bytes * nat);
}.

#[global] Instance state_eta : Eta state := λ x,
  mkState x.(heap) x.(cache) x.(group) x.(flights) x.(threads) x.(published).

(** ** Operations on the shared memory *)

(** [m.addOwner(e)] *)
Definition addOwner (ownerID : Z) (e : nat) (s : state) : state * bool :=
  match s.(heap) !! e with
  | Some en =>
      if en.(e_deleted) then (s, false)
      else (s <| heap ::= <[e := en <| e_owners ::= ({[ownerID]} ∪.) |>]> |>, true)
  | None => (s, false)
  end.

(** [&entry{value: data, owners: {m.ownerID}}] *)
Definition newEntry (ownerID : Z) (v : A) (s : state) : state * nat :=
  (s <| heap ::= (λ l, l ++ [mkEntry v {[ownerID]} false]) |>, length s.(heap)).

(** [cache.LoadOrStore(key, candidate)]: the entry in the map and whether it was
    there before. *)
Definition LoadOrStore (key : bytes) (c : nat) (s : state) : state * nat * bool :=
  match s.(cache) !! key with
  | Some e => (s, e, true)
  | None => (s <| cache ::= <[key := c]> |> <| published ::= ({[(key, c)]} ∪.) |>, c, false)
  end.

(** [cache.CompareAndDelete(key, e)] and [deleteIfCurrent] *)
Definition CompareAndDelete (key : bytes) (e : nat) (s : state) : state :=
  if decide (s.(cache) !! key = Some e) then s <| cache ::= delete key |> else s.

(** The critical section of [releaseEntry] up to the removal from the map:
    whether the entry is to be removed. *)
Definition releaseOwner (ownerID : Z) (e : nat) (s : state) : state * bool :=
  match s.(heap) !! e with
  | Some en =>
      let owners := en.(e_owners) ∖ {[ownerID]} in
      if decide (owners = ∅)
      then (s <| heap ::= <[e := en <| e_owners := owners |> <| e_deleted := true |>]> |>, true)
      else (s <| heap ::= <[e := en <| e_owners := owners |>]> |>, false)
  | None => (s, false)
  end.

(** Entering the flight of a key: one who is first leads it. *)
Definition enter (key : bytes) (s : state) : state * nat * bool :=
  match s.(group) !! key with
  | Some f => (s, f, false)
  | None =>
      let f := length s.(flights) in
      (s <| flights ::= (λ l, l ++ [(key, None)]) |> <| group ::= <[key := f]> |>, f, true)
  end.

(** Leaving it: the result is set and the key is free. *)
Definition land (key : bytes) (f : nat) (res : option nat) (s : state) : state :=
  s <| flights ::= <[f := (key, Some res)]> |> <| group ::= delete key |>.

(** What a call returns from an entry. *)
Definition valueOf (e : nat) (s : state) : option A := e_value <$> s.(heap) !! e.

(** ** Steps *)

(** One step of [Do]; [None] when it waits or has returned. *)
Definition doStep (o : Z) (key : bytes) (fn : option A) (pc : doPC) (s : state) : option (state * doPC) :=
  match pc with
  | Start => Some (s, match s.(cache) !! key with Some e => Own e | None => Slow end)
  | Own e =>
      let '(s, ok) := addOwner o e s in
      if ok : bool then v ← valueOf e s; Some (s, Returned e v) else Some (s, Slow)
  | Slow => let '(s, f, lead) := enter key s in Some (s, if lead : bool then Check f else Wait f)
  | Wait f =>
      '(_, res) ← s.(flights) !! f;
      res ← res;
      Some (s, match res with Some e => Result e | None => Erred end)
  | Check f => Some (s, match s.(cache) !! key with Some e => CheckOwn f e | None => Call f end)
  | CheckOwn f e => let '(s, ok) := addOwner o e s in Some (s, if ok : bool then Landing f (Some e) else Call f)
  | Call f =>
      match fn with
      | Some v => let '(s, c) := newEntry o v s in Some (s, Store f c)
      | None => Some (s, Landing f None)
      end
  | Store f c =>
      let '(s, e, loaded) := LoadOrStore key c s in
      Some (s, if loaded : bool then StoreOwn f c e else Landing f (Some c))
  | StoreOwn f c e =>
      let '(s, ok) := addOwner o e s in Some (s, if ok : bool then Landing f (Some e) else StoreDelete f c e)
  | StoreDelete f c e => Some (CompareAndDelete key e s, Store f c)
  | Landing f res => Some (land key f res s, match res with Some e => Result e | None => Erred end)
  | Result e =>
      let '(s, ok) := addOwner o e s in
      if ok : bool then v ← valueOf e s; Some (s, Returned e v) else Some (s, Start)
  | Returned _ _ | Erred => None
  end.

(** One step of [Do] in the TinyGo build. *)
Definition tinyStep (o : Z) (key : bytes) (fn : option A) (pc : tinyPC) (s : state) : option (state * tinyPC) :=
  match pc with
  | TStart => Some (s, match s.(cache) !! key with Some e => TOwn e | None => TCall end)
  | TOwn e =>
      let '(s, ok) := addOwner o e s in
      if ok : bool then v ← valueOf e s; Some (s, TReturned e v) else Some (s, TCall)
  | TCall =>
      match fn with
      | Some v => let '(s, c) := newEntry o v s in Some (s, TStore c)
      | None => Some (s, TErred)
      end
  | TStore c =>
      let '(s, e, loaded) := LoadOrStore key c s in
      if loaded : bool then Some (s, TStoreOwn c e) else v ← fn; Some (s, TReturned c v)
  | TStoreOwn c e =>
      let '(s, ok) := addOwner o e s in
      if ok : bool then v ← valueOf e s; Some (s, TReturned e v) else Some (s, TStoreDelete c e)
  | TStoreDelete c e => Some (CompareAndDelete key e s, TStart)
  | TReturned _ _ | TErred => None
  end.

(** [cache.Range]: it visits no key twice, and may show any mapping of the key
    that the map had during the call; it can end when it has visited the keys
    whose mapping is what it was.  [choice] is the next mapping, none to end. *)
Definition rangeNext (r : range) (choice : bytes * nat) (s : state) : option range :=
  let '(k, e) := choice in
  if decide (k ∉ r.(r_visited) ∧ (k, e) ∈ s.(published) ∧ (r.(r_start) !! k = Some e ∨ (k, e) ∉ r.(r_old)))
  then Some (mkRange r.(r_start) r.(r_old) ({[k]} ∪ r.(r_visited))) else None.

#[global] Arguments rangeNext : simpl never.

Definition rangeEnd (r : range) (s : state) : bool :=
  bool_decide (map_Forall (λ k e, s.(cache) !! k = Some e → k ∈ r.(r_visited)) r.(r_start)).

Definition rangeStart (s : state) : range := mkRange s.(cache) s.(published) ∅.

(** One step of [Release]. *)
Definition releaseStep (o : Z) (choice : option (bytes * nat)) (pc : releasePC) (s : state)
    : option (state * releasePC) :=
  match pc, choice with
  | Ranging r, Some (k, e) => r ← rangeNext r (k, e) s; Some (s, Visiting r k e)
  | Ranging r, None => if rangeEnd r s then Some (s, Released) else None
  | Visiting r k e, _ =>
      let '(s, gone) := releaseOwner o e s in Some (s, if gone : bool then Deleting r k e else Ranging r)
  | Deleting r k e, _ => Some (CompareAndDelete k e s, Ranging r)
  | Released, _ => None
  end.

(** One step of [Release] in the TinyGo build, which deletes after the range. *)
Definition tinyReleaseStep (o : Z) (choice : option (bytes * nat)) (pc : tinyReleasePC) (s : state)
    : option (state * tinyReleasePC) :=
  match pc, choice with
  | TRanging r ps, Some (k, e) => r ← rangeNext r (k, e) s; Some (s, TVisiting r ps k e)
  | TRanging r ps, None => if rangeEnd r s then Some (s, TDeleting ps) else None
  | TVisiting r ps k e, _ =>
      let '(s, gone) := releaseOwner o e s in Some (s, TRanging r (if gone : bool then ps ++ [(k, e)] else ps))
  | TDeleting ((k, e) :: ps), _ => Some (CompareAndDelete k e s, TDeleting ps)
  | TDeleting [], _ => None
  end.

(** One step of a call: the memory and the call after it. *)
Definition threadStep (choice : option (bytes * nat)) (th : thread) (s : state) : option (state * thread) :=
  match th with
  | Do o key fn pc => '(s, pc) ← doStep o key fn pc s; Some (s, Do o key fn pc)
  | Release o pc => '(s, pc) ← releaseStep o choice pc s; Some (s, Release o pc)
  | DoTiny o key fn pc => '(s, pc) ← tinyStep o key fn pc s; Some (s, DoTiny o key fn pc)
  | ReleaseTiny o pc => '(s, pc) ← tinyReleaseStep o choice pc s; Some (s, ReleaseTiny o pc)
  end.

Definition runThread (t : nat) (choice : option (bytes * nat)) (s : state) : option state :=
  th ← s.(threads) !! t;
  '(s, th) ← threadStep choice th s;
  Some (s <| threads ::= <[t := th]> |>).

(** A call as it begins. *)
Definition begins (th : thread) (s : state) : bool :=
  match th with
  | Do _ _ _ Start | DoTiny _ _ _ TStart => true
  | Release _ (Ranging (mkRange m ps vs)) | ReleaseTiny _ (TRanging (mkRange m ps vs) []) =>
      bool_decide (m = s.(cache) ∧ ps = s.(published) ∧ vs = ∅)
  | _ => false
  end.

(** A call runs, or a new one begins. *)
Inductive step : state → state → Prop :=
| step_run t choice s s' : runThread t choice s = Some s' → step s s'
| step_new t th s : s.(threads) !! t = None → begins th s → step s (s <| threads ::= <[t := th]> |>).

Definition initial : state := mkState [] ∅ ∅ [] ∅ ∅.

Definition reachable (s : state) : Prop := rtc step initial s.

(** ** What a call holds *)

(** The mappings it has seen in the map. *)
Definition refs (th : thread) : list (bytes * nat) :=
  match th with
  | Do _ k _ (Own e | CheckOwn _ e | StoreOwn _ _ e | StoreDelete _ _ e | Landing _ (Some e) | Result e | Returned e _)
  | DoTiny _ k _ (TOwn e | TStoreOwn _ e | TStoreDelete _ e | TReturned e _)
  | Release _ (Visiting _ k e | Deleting _ k e) => [(k, e)]
  | ReleaseTiny _ (TRanging _ ps | TDeleting ps) => ps
  | ReleaseTiny _ (TVisiting _ ps k e) => (k, e) :: ps
  | _ => []
  end.

(** The mappings it has marked and not yet removed. *)
Definition pending (th : thread) : list (bytes * nat) :=
  match th with
  | Release _ (Deleting _ k e) => [(k, e)]
  | ReleaseTiny _ (TRanging _ ps | TVisiting _ ps _ _ | TDeleting ps) => ps
  | _ => []
  end.

(** The entries it knows to be deleted. *)
Definition doomed (th : thread) : list nat :=
  match th with
  | Do _ _ _ (StoreDelete _ _ e) | DoTiny _ _ _ (TStoreDelete _ e) => [e]
  | _ => (pending th).*2
  end.

(** The mapping its range shows. *)
Definition visits (th : thread) : option (bytes * nat) :=
  match th with
  | Release _ (Visiting _ k e) | ReleaseTiny _ (TVisiting _ _ k e) => Some (k, e)
  | _ => None
  end.

(** The entry it has allocated and not yet stored. *)
Definition candidate (th : thread) : option nat :=
  match th with
  | Do _ _ _ (Store _ c | StoreOwn _ c _ | StoreDelete _ c _)
  | DoTiny _ _ _ (TStore c | TStoreOwn c _) => Some c
  | _ => None
  end.

(** The flight it leads, and the one it waits for, with its key. *)
Definition leads (th : thread) : option (bytes * nat) :=
  match th with
  | Do _ k _ (Check f | CheckOwn f _ | Call f | Store f _ | StoreOwn f _ _ | StoreDelete f _ _ | Landing f _) =>
      Some (k, f)
  | _ => None
  end.

Definition waits (th : thread) : option (bytes * nat) :=
  match th with Do _ k _ (Wait f) => Some (k, f) | _ => None end.

(** What it returned. *)
Definition result (th : thread) : option (nat * A) :=
  match th with Do _ _ _ (Returned e v) | DoTiny _ _ _ (TReturned e v) => Some (e, v) | _ => None end.

Definition ownerOf (th : thread) : Z :=
  match th with Do o _ _ _ | Release o _ | DoTiny o _ _ _ | ReleaseTiny o _ => o end.

Definition isRelease (th : thread) : bool := match th with Release _ _ | ReleaseTiny _ _ => true | _ => false end.

(** The key of a call of [Do] and what it computes. *)
Definition computes (th : thread) : option (bytes * option A) :=
  match th with Do _ k fn _ | DoTiny _ k fn _ => Some (k, fn) | _ => None end.

(** ** Invariant *)

Definition deletedAt (s : state) (e : nat) : Prop := ∃ en, s.(heap) !! e = Some en ∧ en.(e_deleted) = true.

Definition owns (s : state) (o : Z) (e : nat) : Prop := ∃ en, s.(heap) !! e = Some en ∧ o ∈ en.(e_owners).

(** Some call of [Do] with the key computes the value. *)
Definition computed (s : state) (k : bytes) (v : A) : Prop :=
  ∃ t th, s.(threads) !! t = Some th ∧ computes th = Some (k, Some v).

(** Some call of [Release] for the owner has begun. *)
Definition releasing (s : state) (o : Z) : Prop :=
  ∃ t th, s.(threads) !! t = Some th ∧ isRelease th = true ∧ ownerOf th = o.

Record memoryOk (s : state) : Prop := {
  mem_deleted e en : s.(heap) !! e = Some en → (en.(e_deleted) = true ↔ en.(e_owners) = ∅);
  mem_cache k e : s.(cache) !! k = Some e → (k, e) ∈ s.(published);
  mem_live k e : (k, e) ∈ s.(published) →
    ∃ en, s.(heap) !! e = Some en ∧ (en.(e_deleted) = false → s.(cache) !! k = Some e) ∧ computed s k en.(e_value);
  mem_key k k' e : (k, e) ∈ s.(published) → (k', e) ∈ s.(published) → k = k';
  mem_landed f k e : s.(flights) !! f = Some (k, Some (Some e)) → (k, e) ∈ s.(published);
}.

Record callOk (s : state) (th : thread) : Prop := {
  call_refs k e : (k, e) ∈ refs th → (k, e) ∈ s.(published);
  call_doomed e : e ∈ doomed th → deletedAt s e;
  call_candidate c : candidate th = Some c → (∀ k, (k, c) ∉ s.(published)) ∧
    ∃ k v, computes th = Some (k, Some v) ∧ s.(heap) !! c = Some (mkEntry v {[ownerOf th]} false);
  call_leads k f : leads th = Some (k, f) → s.(group) !! k = Some f;
  call_waits k f : waits th = Some (k, f) → ∃ res, s.(flights) !! f = Some (k, res);
  call_result e v : result th = Some (e, v) →
    valueOf e s = Some v ∧ (owns s (ownerOf th) e ∨ releasing s (ownerOf th));
}.

Record Inv (s : state) : Prop := {
  inv_memory : memoryOk s;
  inv_calls t th : s.(threads) !! t = Some th → callOk s th;
  inv_private t t' th th' c : s.(threads) !! t = Some th → s.(threads) !! t' = Some th' →
    candidate th = Some c → candidate th' = Some c → t = t';
  inv_leader t t' th th' p : s.(threads) !! t = Some th → s.(threads) !! t' = Some th' →
    leads th = Some p → leads th' = Some p → t = t';
  inv_flight k f : s.(group) !! k = Some f → s.(flights) !! f = Some (k, None);
  inv_flying k f : s.(flights) !! f = Some (k, None) →
    ∃ t th, s.(threads) !! t = Some th ∧ leads th = Some (k, f);
  inv_pending k e : s.(cache) !! k = Some e → deletedAt s e →
    ∃ t th, s.(threads) !! t = Some th ∧ (k, e) ∈ pending th;
}.

(** ** One access to the shared memory *)

(** What call [th] does to the memory in a step. *)
Inductive access (th : thread) (s : state) : state → Prop :=
| access_none : access th s s
| access_own s' k e ok : isRelease th = false → (k, e) ∈ refs th → addOwner (ownerOf th) e s = (s', ok) → access th s s'
| access_new s' v c : isRelease th = false → newEntry (ownerOf th) v s = (s', c) → access th s s'
| access_store s' k fn c e loaded : computes th = Some (k, fn) → candidate th = Some c →
    LoadOrStore k c s = (s', e, loaded) → access th s s'
| access_delete k e : (k, e) ∈ refs th → e ∈ doomed th → access th s (CompareAndDelete k e s)
| access_release s' k e gone : isRelease th = true → visits th = Some (k, e) →
    releaseOwner (ownerOf th) e s = (s', gone) → access th s s'
| access_enter s' k f lead : enter k s = (s', f, lead) → access th s s'
| access_land k f res : leads th = Some (k, f) → (∀ e, res = Some e → (k, e) ∈ refs th) →
    access th s (land k f res s).

Lemma visits_refs th k e : visits th = Some (k, e) → (k, e) ∈ refs th.
Proof. destruct th as [? ? ? []|? []|? ? ? []|? []]; intros; simplify_eq/=; left. Qed.

Lemma threadStep_static choice th s s' th' :
  threadStep choice th s = Some (s', th') →
  ownerOf th' = ownerOf th ∧ isRelease th' = isRelease th ∧ computes th' = computes th.
Proof.
  destruct th; simpl; intros H; apply bind_Some in H as ([? ?] & ? & ?); by simplify_eq.
Qed.

Lemma threadStep_access choice th s s' th' : threadStep choice th s = Some (s', th') → access th s s'.
Proof.
  intros H. destruct th as [o k fn pc|o pc|o k fn pc|o pc]; destruct pc; step_cases.
  all: match goal with
    | H : addOwner _ _ _ = _ |- _ => by eapply access_own; [done|left|exact H]
    | H : LoadOrStore _ _ _ = _ |- _ => by eapply access_store; [done|done|exact H]
    | H : enter _ _ = _ |- _ => by eapply access_enter
    | H : releaseOwner _ _ _ = _ |- _ => by eapply access_release; [done|done|exact H]
    | |- access _ _ (CompareAndDelete _ _ _) => apply access_delete; left
    | |- access _ _ (land _ _ _ _) => apply access_land; [done|intros ? ->; left]
    | |- access _ ?s ?s => apply access_none
    | |- _ => by eapply access_new
    end.
Qed.

(** ** The effect of an access on the other calls *)

Lemma addOwner_eq o e s s' ok :
  addOwner o e s = (s', ok) →
  (ok = false ∧ s' = s ∧ ∀ en, s.(heap) !! e = Some en → en.(e_deleted) = true) ∨
  (ok = true ∧ ∃ en, s.(heap) !! e = Some en ∧ en.(e_deleted) = false ∧
    s' = s <| heap ::= <[e := en <| e_owners ::= ({[o]} ∪.) |>]> |>).
Proof. unfold addOwner. intros. repeat case_match; naive_solver. Qed.

Lemma releaseOwner_eq o e s s' gone :
  releaseOwner o e s = (s', gone) → s' = s ∨
  ∃ en d, s.(heap) !! e = Some en ∧ (en.(e_deleted) = true → d = true) ∧
    (d = true ↔ en.(e_owners) ∖ {[o]} = ∅ ∨ en.(e_deleted) = true) ∧
    s' = s <| heap ::= <[e := en <| e_owners ::= (.∖ {[o]}) |> <| e_deleted := d |>]> |>.
Proof.
  unfold releaseOwner. intros. repeat case_match; simplify_eq; try (by left); right.
  - eexists _, true. naive_solver.
  - destruct e0 as [v os d]. eexists _, d. naive_solver.
Qed.

Lemma releaseOwner_rest o e s s' gone :
  releaseOwner o e s = (s', gone) → s'.(flights) = s.(flights) ∧ s'.(cache) = s.(cache).
Proof. unfold releaseOwner. intros. by repeat case_match; simplify_eq. Qed.

Lemma owns_added s e en o :
  s.(heap) !! e = Some en → owns (s <| heap ::= <[e := en <| e_owners ::= ({[o]} ∪.) |>]> |>) o e.
Proof.
  intros He. unfold owns; cbn. rewrite list_lookup_insert_eq by (by eapply lookup_lt_Some).
  eexists. split; [done|]. cbn. set_solver.
Qed.

Lemma releaseOwner_gone o e s s' : releaseOwner o e s = (s', true) → deletedAt s' e.
Proof.
  unfold releaseOwner. intros. repeat case_match; simplify_eq. unfold deletedAt; cbn.
  rewrite list_lookup_insert_eq by (by eapply lookup_lt_Some). eauto.
Qed.

(** What an access leaves as it is. *)
Record effect (th : thread) (s s' : state) : Prop := {
  eff_threads : s'.(threads) = s.(threads);
  eff_heap e en : s.(heap) !! e = Some en → ∃ en', s'.(heap) !! e = Some en' ∧
    en'.(e_value) = en.(e_value) ∧ (en.(e_deleted) = true → en'.(e_deleted) = true);
  eff_published k e : (k, e) ∈ s.(published) → (k, e) ∈ s'.(published);
  eff_private c en : s.(heap) !! c = Some en → (∀ k, (k, c) ∉ s.(published)) → candidate th ≠ Some c →
    s'.(heap) !! c = Some en ∧ ∀ k, (k, c) ∉ s'.(published);
  eff_group k f : s.(group) !! k = Some f → s'.(group) !! k = Some f ∨ leads th = Some (k, f);
  eff_flights f k res : s.(flights) !! f = Some (k, res) → ∃ res', s'.(flights) !! f = Some (k, res');
  eff_owns o e : owns s o e → owns s' o e ∨ (isRelease th = true ∧ ownerOf th = o);
}.

Lemma effect_refl th s : effect th s s.
Proof. constructor; naive_solver. Qed.

(** An entry of the map is replaced by one with the same value. *)
Lemma effect_entry th s k e en en' :
  (k, e) ∈ s.(published) → s.(heap) !! e = Some en →
  en'.(e_value) = en.(e_value) → (en.(e_deleted) = true → en'.(e_deleted) = true) →
  (∀ o, o ∈ en.(e_owners) → o ∈ en'.(e_owners) ∨ (isRelease th = true ∧ ownerOf th = o)) →
  effect th s (s <| heap ::= <[e := en']> |>).
Proof.
  intros Hp He Hv Hd Ho. pose proof (lookup_lt_Some _ _ _ He) as Hlt. constructor; cbn; try (by eauto 6).
  - intros e2 en2 H2. destruct (decide (e2 = e)) as [->|]; simplify_eq.
    + rewrite list_lookup_insert_eq by done. naive_solver.
    + rewrite list_lookup_insert_ne by done. naive_solver.
  - intros c en2 Hc Hc2 _. rewrite list_lookup_insert_ne by naive_solver. done.
  - intros o e2 (en2 & H2 & Hin). unfold owns; cbn. destruct (decide (e2 = e)) as [->|]; simplify_eq.
    + rewrite list_lookup_insert_eq by done. naive_solver.
    + rewrite list_lookup_insert_ne by done. naive_solver.
Qed.

Lemma access_effect s t th s' :
  Inv s → s.(threads) !! t = Some th → access th s s' → effect th s s'.
Proof.
  intros HI Ht Ha. pose proof (inv_calls _ HI _ _ Ht) as Hc. destruct Ha.
  - apply effect_refl.
  - apply addOwner_eq in H1 as [(? & -> & _)|(? & en & He & Hd & ->)]; [apply effect_refl|].
    eapply effect_entry; [by eapply call_refs|done..|]; simpl; set_solver.
  - unfold newEntry in H0. simplify_eq. constructor; cbn; try (by eauto 6).
    + intros e en He. exists en. by rewrite lookup_app_l by (by eapply lookup_lt_Some).
    + intros e en He ? ?. by rewrite lookup_app_l by (by eapply lookup_lt_Some).
    + intros o e (en & He & ?). left. exists en. cbn. by rewrite lookup_app_l by (by eapply lookup_lt_Some).
  - unfold LoadOrStore in H1. case_match; simplify_eq; [apply effect_refl|].
    constructor; cbn; try (by eauto 6); set_solver.
  - unfold CompareAndDelete. case_decide; [|apply effect_refl]. constructor; cbn; by eauto 6.
  - apply releaseOwner_eq in H1 as [->|(en & d & He & Hd & _ & ->)]; [apply effect_refl|].
    eapply effect_entry; [by eapply call_refs, visits_refs|done..|]. simpl. intros o Ho.
    destruct (decide (o = ownerOf th)); [naive_solver|set_solver].
  - unfold enter in H. case_match; simplify_eq; [apply effect_refl|]. constructor; cbn; try (by eauto 6).
    + intros k2 f2 H2. left. rewrite lookup_insert_ne; [done|naive_solver].
    + intros f2 k2 res H2. exists res. by rewrite lookup_app_l by (by eapply lookup_lt_Some).
  - pose proof (call_leads _ _ Hc _ _ H) as Hg. pose proof (inv_flight _ HI _ _ Hg) as Hf.
    unfold land. constructor; cbn; try (by eauto 6).
    + intros k2 f2 H2. destruct (decide (k2 = k)) as [->|]; [naive_solver|]. left. by rewrite lookup_delete_ne.
    + intros f2 k2 res2 H2. destruct (decide (f2 = f)) as [->|]; simplify_eq.
      * rewrite list_lookup_insert_eq; [naive_solver|by eapply lookup_lt_Some].
      * rewrite list_lookup_insert_ne by done. naive_solver.
Qed.

(** The other calls keep what they hold. *)
Lemma callOk_effect s t t2 th th2 s' :
  Inv s → s.(threads) !! t = Some th → effect th s s' → t2 ≠ t → s.(threads) !! t2 = Some th2 → callOk s' th2.
Proof.
  intros HI Ht He Hne H2. pose proof (inv_calls _ HI _ _ H2) as Hc. constructor.
  - intros k e Hr. by eapply eff_published, call_refs.
  - intros e Hr. destruct (call_doomed _ _ Hc e Hr) as (en & Hen & Hd).
    destruct (eff_heap _ _ _ He _ _ Hen) as (en' & ? & ? & ?). exists en'. auto.
  - intros c Hr. destruct (call_candidate _ _ Hc c Hr) as (Hp & k & v & Hk & Hh).
    destruct (eff_private _ _ _ He c _ Hh Hp) as [? ?]; [|naive_solver].
    intros Hr2. by apply Hne, (inv_private _ HI _ _ _ _ _ H2 Ht Hr Hr2).
  - intros k f Hr. destruct (eff_group _ _ _ He _ _ (call_leads _ _ Hc _ _ Hr)) as [|Hl]; [done|].
    by destruct Hne; apply (inv_leader _ HI _ _ _ _ _ H2 Ht Hr Hl).
  - intros k f Hr. destruct (call_waits _ _ Hc _ _ Hr) as [? ?]. by eapply eff_flights.
  - intros e v Hr. destruct (call_result _ _ Hc _ _ Hr) as [Hv Ho]. unfold valueOf in *. split.
    + apply fmap_Some in Hv as (en & Hen & ->).
      destruct (eff_heap _ _ _ He _ _ Hen) as (en' & -> & ? & ?). simpl. congruence.
    + unfold releasing. rewrite (eff_threads _ _ _ He). destruct Ho as [Ho|Ho]; [|by right].
      destruct (eff_owns _ _ _ He _ _ Ho) as [|[? ?]]; [by left|right]. by exists t, th.
Qed.

(** ** The memory stays well formed *)

(** An entry of the map is replaced by one with the same value; it stays in the
    map unless it is deleted. *)
Lemma memoryOk_entry s e en en' :
  memoryOk s → s.(heap) !! e = Some en → en'.(e_value) = en.(e_value) →
  (en.(e_deleted) = true → en'.(e_deleted) = true) → (en'.(e_deleted) = true ↔ en'.(e_owners) = ∅) →
  memoryOk (s <| heap ::= <[e := en']> |>).
Proof.
  intros HM He Hv Hd Ho. pose proof (lookup_lt_Some _ _ _ He) as Hlt. destruct HM as [Md Mc Ml Mk Mf].
  constructor; cbn; [|done| |done..].
  - intros e2 en2 H2. destruct (decide (e2 = e)) as [->|].
    + rewrite list_lookup_insert_eq in H2 by done. by simplify_eq.
    + rewrite list_lookup_insert_ne in H2 by done. by eapply Md.
  - intros k e2 Hp. destruct (Ml _ _ Hp) as (en2 & H2 & Hl & Hcm).
    destruct (decide (e2 = e)) as [->|]; simplify_eq.
    + exists en'. rewrite list_lookup_insert_eq by done. split_and!; [done| |by rewrite Hv].
      intros Hf. apply Hl. destruct (e_deleted en); [|done]. by rewrite Hd in Hf.
    + exists en2. by rewrite list_lookup_insert_ne by done.
Qed.

(** Removing the mapping of a deleted entry. *)
Lemma memoryOk_delete s k e : memoryOk s → deletedAt s e → memoryOk (CompareAndDelete k e s).
Proof.
  intros HM (en & He & Hd). unfold CompareAndDelete. case_decide as Hk; [|done].
  destruct HM as [Md Mc Ml Mk Mf]. constructor; cbn; [done| | |done..].
  - intros k2 e2 [_ H2]%lookup_delete_Some. by apply Mc.
  - intros k2 e2 Hp. destruct (Ml _ _ Hp) as (en2 & H2 & Hl & Hcm). exists en2. split_and!; [done| |done].
    intros Hf. pose proof (Hl Hf) as Hk2. rewrite lookup_delete_ne; [done|].
    intros <-. rewrite Hk in Hk2. simplify_eq. congruence.
Qed.

(** Storing an entry that nobody has seen. *)
Lemma memoryOk_store s k c v o :
  memoryOk s → s.(cache) !! k = None → (∀ k, (k, c) ∉ s.(published)) →
  s.(heap) !! c = Some (mkEntry v {[o]} false) → computed s k v →
  memoryOk (s <| cache ::= <[k := c]> |> <| published ::= ({[(k, c)]} ∪.) |>).
Proof.
  intros HM Hk Hc He Hv. destruct HM as [Md Mc Ml Mk Mf]. constructor; cbn; [done| | | |].
  - intros k2 e2 [[<- <-]|[? H2]]%lookup_insert_Some; [set_solver|]. specialize (Mc _ _ H2). set_solver.
  - intros k2 e2 [Heq|Hp]%elem_of_union.
    + apply elem_of_singleton in Heq as [= -> ->]. eexists. split_and!; [done| |done].
      by rewrite lookup_insert_eq.
    + destruct (Ml _ _ Hp) as (en2 & H2 & Hl & Hcm). exists en2. split_and!; [done| |done].
      intros Hf. pose proof (Hl Hf). rewrite lookup_insert_ne; [done|]. intros ->. congruence.
  - intros k2 k3 e H2 H3. specialize (Mk k2 k3 e). set_solver.
  - intros f k2 e H2. specialize (Mf _ _ _ H2). set_solver.
Qed.

(** Changes to what the memory is not about. *)
Lemma memoryOk_flights s s' :
  memoryOk s → s'.(heap) = s.(heap) → s'.(cache) = s.(cache) → s'.(published) = s.(published) →
  s'.(threads) = s.(threads) →
  (∀ f k e, s'.(flights) !! f = Some (k, Some (Some e)) → (k, e) ∈ s.(published)) → memoryOk s'.
Proof.
  intros [Md Mc Ml Mk Mf] Eh Ec Ep Et Hf.
  constructor; unfold computed; rewrite ?Eh, ?Ec, ?Ep, ?Et; eauto.
Qed.

Lemma memoryOk_new s o v :
  memoryOk s → memoryOk (s <| heap ::= (λ l, l ++ [mkEntry v {[o]} false]) |>).
Proof.
  intros [Md Mc Ml Mk Mf]. constructor; cbn; [|done| |done..].
  - intros e en [He|(? & He)]%lookup_app_Some; [by eapply Md|].
    destruct (e - _)%nat; simplify_eq/=; set_solver.
  - intros k e Hp. destruct (Ml _ _ Hp) as (en & He & ?). exists en.
    by rewrite lookup_app_l by (by eapply lookup_lt_Some).
Qed.

Lemma access_memory s t th s' :
  Inv s → s.(threads) !! t = Some th → access th s s' → memoryOk s'.
Proof.
  intros HI Ht Ha. pose proof (inv_memory _ HI) as HM. pose proof (inv_calls _ HI _ _ Ht) as Hc. destruct Ha.
  - done.
  - apply addOwner_eq in H1 as [(? & -> & _)|(? & en & He & Hd & ->)]; [done|].
    eapply memoryOk_entry; [done..|]. simpl. split; [congruence|set_solver].
  - unfold newEntry in H0. simplify_eq. by apply memoryOk_new.
  - destruct (call_candidate _ _ Hc _ H0) as (Hp & k2 & v & Hk & He). simplify_eq.
    unfold LoadOrStore in H1. case_match eqn:Hk2; simplify_eq; [done|].
    eapply memoryOk_store; [done..|]. by exists t, th.
  - by eapply memoryOk_delete, call_doomed.
  - apply releaseOwner_eq in H1 as [->|(en & d & He & Hd & Hiff & ->)]; [done|].
    eapply memoryOk_entry; [done..|]. simpl. rewrite Hiff.
    pose proof (mem_deleted _ HM _ _ He) as Hm. set_solver.
  - unfold enter in H. case_match; simplify_eq; [done|]. eapply memoryOk_flights; [done..|]. cbn.
    intros f k2 e [Hf|(? & Hf)]%lookup_app_Some; [by eapply mem_landed|].
    destruct (f - _)%nat; simplify_eq/=.
  - pose proof (inv_flight _ HI _ _ (call_leads _ _ Hc _ _ H)) as Hf.
    eapply memoryOk_flights; [done..|]. cbn. intros f2 k2 e [(<- & [= <- ->] & ?)|[? H2]]%list_lookup_insert_Some.
    + by eapply call_refs, H0.
    + by eapply mem_landed.
Qed.

(** ** What a call holds after a step *)

Lemma LoadOrStore_eq k c s s' e loaded :
  LoadOrStore k c s = (s', e, loaded) →
  (loaded = true ∧ s' = s ∧ s.(cache) !! k = Some e) ∨
  (loaded = false ∧ e = c ∧ s.(cache) !! k = None ∧
    s' = s <| cache ::= <[k := c]> |> <| published ::= ({[(k, c)]} ∪.) |>).
Proof. unfold LoadOrStore. case_match; naive_solver. Qed.

Lemma enter_eq k s s' f lead :
  enter k s = (s', f, lead) →
  (lead = false ∧ s' = s ∧ s.(group) !! k = Some f) ∨
  (lead = true ∧ f = length s.(flights) ∧ s.(group) !! k = None ∧
    s' = s <| flights ::= (λ l, l ++ [(k, None)]) |> <| group ::= <[k := f]> |>).
Proof. unfold enter. case_match; naive_solver. Qed.

Lemma rangeNext_eq r k e s r' :
  rangeNext r (k, e) s = Some r' →
  k ∉ r.(r_visited) ∧ (k, e) ∈ s.(published) ∧ (r.(r_start) !! k = Some e ∨ (k, e) ∉ r.(r_old)) ∧
  r' = mkRange r.(r_start) r.(r_old) ({[k]} ∪ r.(r_visited)).
Proof. unfold rangeNext. case_decide; naive_solver. Qed.

Lemma CompareAndDelete_heap k e s :
  (CompareAndDelete k e s).(heap) = s.(heap) ∧ (CompareAndDelete k e s).(published) = s.(published) ∧
  (CompareAndDelete k e s).(group) = s.(group) ∧ (CompareAndDelete k e s).(flights) = s.(flights) ∧
  (CompareAndDelete k e s).(threads) = s.(threads).
Proof. unfold CompareAndDelete. by case_decide. Qed.

(** Splits the step [H] of call [th] into the accesses that it can be. *)
Ltac access_cases th :=
  destruct th as [? ? ? []|? []|? ? ? []|? []]; step_cases; repeat case_match; simplify_eq/=;
  repeat match goal with
  | H : addOwner _ _ _ = _ |- _ => apply addOwner_eq in H as [(? & -> & ?)|(? & ? & ? & ? & ->)]; simplify_eq/=
  | H : LoadOrStore _ _ _ = _ |- _ =>
      apply LoadOrStore_eq in H as [(? & -> & ?)|(? & -> & ? & ->)]; simplify_eq/=
  | H : enter _ _ = _ |- _ => apply enter_eq in H as [(? & -> & ?)|(? & -> & ? & ->)]; simplify_eq/=
  | H : rangeNext _ _ _ = _ |- _ => apply rangeNext_eq in H as (? & ? & ? & ->)
  | H : _ ∈ [_] |- _ => apply list_elem_of_singleton in H; simplify_eq/=
  | H : _ ∈ _ ++ [_] |- _ => apply elem_of_app in H as [H|H]
  | H : _ ∈ [] |- _ => by apply not_elem_of_nil in H
  end.

Section onestep.
Context (s : state) (t : nat) (th : thread) (choice : option (bytes * nat)) (s' : state) (th' : thread).
Context (HI : Inv s) (Ht : s.(threads) !! t = Some th) (Hstep : threadStep choice th s = Some (s', th')).
Context (Heff : effect th s s') (Hcall : callOk s th).

Lemma step_refs k e : (k, e) ∈ refs th' → (k, e) ∈ s'.(published).
Proof using All.
  intros Hin. destruct (decide ((k, e) ∈ refs th)) as [Hr|Hr].
  { by eapply eff_published, call_refs. }
  assert (Hm := inv_memory _ HI).
  access_cases th; try (by eapply mem_cache); try set_solver.
  destruct (call_waits _ _ Hcall _ _ eq_refl) as [res Hf]. simplify_eq. by eapply mem_landed.
Qed.

Lemma step_doomed e : e ∈ doomed th' → deletedAt s' e.
Proof using All.
  intros Hin. destruct (decide (e ∈ doomed th)) as [Hr|Hr].
  { destruct (call_doomed _ _ Hcall _ Hr) as (en & He & Hd).
    destruct (eff_heap _ _ _ Heff _ _ He) as (en' & ? & ? & ?). exists en'. auto. }
  assert (Hm := inv_memory _ HI).
  access_cases th; try set_solver.
  - destruct (mem_live _ Hm key e1) as (en & He & _); [apply (call_refs _ _ Hcall); left|]. exists en. auto.
  - by eapply releaseOwner_gone.
  - destruct (mem_live _ Hm key e0) as (en & He & _); [apply (call_refs _ _ Hcall); left|]. exists en. auto.
  - rewrite fmap_app in Hin. apply elem_of_app in Hin as [|Hin]; [done|].
    apply list_elem_of_singleton in Hin as ->. by eapply releaseOwner_gone.
Qed.

(** A candidate stays private until it is stored. *)
Lemma step_candidate c :
  candidate th' = Some c → (∀ k, (k, c) ∉ s'.(published)) ∧
    ∃ k v, computes th' = Some (k, Some v) ∧ s'.(heap) !! c = Some (mkEntry v {[ownerOf th']} false).
Proof using All.
  intros Hin. assert (Hm := inv_memory _ HI).
  assert (Hfresh : ∀ k, (k, length s.(heap)) ∉ s.(published)).
  { intros k Hp. destruct (mem_live _ Hm _ _ Hp) as (en & He & _). apply lookup_lt_Some in He. lia. }
  assert (Hown := call_candidate _ _ Hcall).
  access_cases th; try (by apply Hown).
  1,3: split; [done|]; eexists _, _; split; [done|]; by rewrite lookup_app_r, Nat.sub_diag.
  destruct (CompareAndDelete_heap key e s) as (-> & -> & _). by apply Hown.
Qed.

Lemma step_leads k f : leads th' = Some (k, f) → s'.(group) !! k = Some f.
Proof using All.
  intros Hin. assert (Hown := call_leads _ _ Hcall).
  access_cases th; try (by apply Hown).
  - by rewrite lookup_insert_eq.
  - destruct (CompareAndDelete_heap k e s) as (_ & _ & -> & _). by apply Hown.
Qed.

Lemma step_waits k f : waits th' = Some (k, f) → ∃ res, s'.(flights) !! f = Some (k, res).
Proof using All. intros Hin. access_cases th. eexists. by apply (inv_flight _ HI). Qed.

Lemma step_result e v : result th' = Some (e, v) → valueOf e s' = Some v ∧ owns s' (ownerOf th') e.
Proof using All.
  intros Hin. assert (Hown := call_candidate _ _ Hcall).
  access_cases th; try (by split; [|by apply owns_added]).
  destruct (Hown _ eq_refl) as (_ & k & w & Hk & He). simplify_eq. unfold valueOf, owns; cbn. rewrite He.
  split; [done|]. eexists. split; [done|]. cbn. set_solver.
Qed.

Lemma step_newCandidate c : candidate th' = Some c → candidate th = Some c ∨ c = length s.(heap).
Proof using All. intros Hin. access_cases th; auto. Qed.

Lemma step_newLead k f : leads th' = Some (k, f) → leads th = Some (k, f) ∨ s.(group) !! k = None.
Proof using All. intros Hin. access_cases th; auto. Qed.

Lemma step_flight k f : s'.(group) !! k = Some f → s'.(flights) !! f = Some (k, None).
Proof using All.
  intros Hg. assert (Hf := inv_flight _ HI).
  assert (Ha := threadStep_access _ _ _ _ _ Hstep). clear Hstep Heff. destruct Ha; cbn in Hg.
  - auto.
  - apply addOwner_eq in H1 as [(? & -> & _)|(? & en & He & Hd & ->)]; auto.
  - unfold newEntry in H0. simplify_eq/=. auto.
  - apply LoadOrStore_eq in H1 as [(? & -> & ?)|(? & -> & ? & ->)]; auto.
  - destruct (CompareAndDelete_heap k0 e s) as (_ & _ & HE & -> & _). rewrite HE in Hg. auto.
  - apply releaseOwner_eq in H1 as [->|(en & d & He & Hd & Hiff & ->)]; auto.
  - apply enter_eq in H as [(? & -> & ?)|(? & -> & ? & ->)]; [auto|]. cbn in Hg |- *.
    apply lookup_insert_Some in Hg as [[<- <-]|[? Hg]].
    + by rewrite lookup_app_r, Nat.sub_diag.
    + specialize (Hf _ _ Hg). by rewrite lookup_app_l by (by eapply lookup_lt_Some).
  - apply lookup_delete_Some in Hg as [Hk Hg]. specialize (Hf _ _ Hg). cbn.
    rewrite list_lookup_insert_ne; [done|]. intros ->.
    pose proof (inv_flight _ HI _ _ (call_leads _ _ Hcall _ _ H)). congruence.
Qed.

Lemma step_flying k f :
  s'.(flights) !! f = Some (k, None) →
  leads th' = Some (k, f) ∨ (s.(flights) !! f = Some (k, None) ∧ leads th ≠ Some (k, f)).
Proof using All.
  intros Hf. destruct (decide (leads th' = Some (k, f))) as [|Hl]; [by left|]. right.
  access_cases th; try (by split);
    try match goal with
    | H : releaseOwner _ _ _ = _ |- _ => apply releaseOwner_rest in H as [HE _]; by rewrite HE in Hf
    | H : context [CompareAndDelete ?k ?e ?s] |- _ =>
        destruct (CompareAndDelete_heap k e s) as (_ & _ & _ & HE & _); by rewrite HE in Hf
    end.
  - apply lookup_app_Some in Hf as [|(? & Hf)]; [done|]. destruct (f - _)%nat eqn:E; simplify_eq/=.
    destruct Hl. by replace f with (length s.(flights)) by lia.
  - apply list_lookup_insert_Some in Hf as [(? & ? & ?)|[? ?]]; [done|]. split; congruence.
  - apply list_lookup_insert_Some in Hf as [(? & ? & ?)|[? ?]]; [done|]. split; congruence.
Qed.

(** A mapping to a deleted entry is one there was, or one that the step marked. *)
Lemma step_marks k e :
  s'.(cache) !! k = Some e → deletedAt s' e →
  (s.(cache) !! k = Some e ∧ deletedAt s e) ∨ (k, e) ∈ pending th'.
Proof using All.
  intros Hk Hd. assert (Ha := threadStep_access _ _ _ _ _ Hstep).
  assert (Hm := inv_memory _ HI). destruct Ha.
  - by left.
  - left. destruct (addOwner_eq _ _ _ _ _ H1) as [(? & -> & _)|(? & en & He & Hd2 & ->)]; [done|].
    split; [done|]. destruct Hd as (en2 & Hd & ?). cbn in Hd.
    apply list_lookup_insert_Some in Hd as [(-> & <- & _)|[? ?]]; [cbn in *; congruence|]. by eexists.
  - left. unfold newEntry in H0. simplify_eq. split; [done|]. destruct Hd as (en2 & Hd & ?). cbn in Hd.
    apply lookup_app_Some in Hd as [?|(? & Hd)]; [by eexists|]. by destruct (e - _)%nat; simplify_eq/=.
  - left. destruct (LoadOrStore_eq _ _ _ _ _ _ H1) as [(? & -> & ?)|(? & -> & ? & ->)]; [done|]. split; [|done].
    cbn in Hk. apply lookup_insert_Some in Hk as [[<- <-]|[_ ?]]; [|done].
    destruct (call_candidate _ _ Hcall _ H0) as (_ & ? & ? & _ & He). destruct Hd as (en2 & Hd & ?).
    cbn in Hd. rewrite He in Hd. by simplify_eq.
  - left. unfold CompareAndDelete in *. case_decide; [|done]. split; [|done].
    cbn in Hk. by apply lookup_delete_Some in Hk as [_ ?].
  - destruct (releaseOwner_rest _ _ _ _ _ H1) as [_ HE]. rewrite HE in Hk.
    destruct (decide (e = e0)) as [->|Hne].
    + assert (k0 = k) as -> by (eapply (mem_key _ Hm); [by eapply call_refs, visits_refs|by eapply mem_cache]).
      destruct gone; [|left].
      * right. access_cases th; set_solver.
      * split; [done|]. unfold releaseOwner in H1. destruct Hd as (en2 & Hd & ?).
        repeat case_match; simplify_eq. cbn in Hd.
        rewrite list_lookup_insert_eq in Hd by (by eapply lookup_lt_Some). simplify_eq. by eexists.
    + left. split; [done|]. destruct (releaseOwner_eq _ _ _ _ _ H1) as [->|(en & d & He & _ & _ & ->)]; [done|].
      destruct Hd as (en2 & Hd & ?). cbn in Hd. rewrite list_lookup_insert_ne in Hd by done. by eexists.
  - left. destruct (enter_eq _ _ _ _ _ H) as [(? & -> & ?)|(? & -> & ? & ->)]; done.
  - by left.
Qed.

Lemma CompareAndDelete_gone k e (s0 : state) : (CompareAndDelete k e s0).(cache) !! k ≠ Some e.
Proof. unfold CompareAndDelete. case_decide; [|done]. cbn. by rewrite lookup_delete_eq. Qed.

Lemma step_pending k e :
  s'.(cache) !! k = Some e → deletedAt s' e →
  (k, e) ∈ pending th' ∨ (s.(cache) !! k = Some e ∧ deletedAt s e ∧ (k, e) ∉ pending th).
Proof using All.
  intros Hk Hd. destruct (step_marks _ _ Hk Hd) as [[Hk0 Hd0]|]; [|by left].
  destruct (decide ((k, e) ∈ pending th)) as [Hin|]; [left|by right].
  destruct th as [? ? ? []|? []|? ? ? []|? []]; step_cases; repeat case_match; simplify_eq/=; try set_solver.
  - apply list_elem_of_singleton in Hin as [= -> ->]. by apply CompareAndDelete_gone in Hk.
  - apply elem_of_cons in Hin as [[= -> ->]|]; [|done]. by apply CompareAndDelete_gone in Hk.
Qed.
End onestep.

(** ** The invariant *)

Lemma lookup_update (s : state) t th t2 th2 :
  (s <| threads ::= <[t := th]> |>).(threads) !! t2 = Some th2 →
  (t2 = t ∧ th2 = th) ∨ (t2 ≠ t ∧ s.(threads) !! t2 = Some th2).
Proof. cbn. intros [[-> ->]|[? ?]]%lookup_insert_Some; auto. Qed.

(** A call moves on; who it is stays. *)
Definition moved (s : state) (t : nat) (th : thread) : Prop :=
  ∀ th0, s.(threads) !! t = Some th0 →
    ownerOf th = ownerOf th0 ∧ isRelease th = isRelease th0 ∧ computes th = computes th0.

Lemma computed_update s t th k v :
  moved s t th → computed s k v → computed (s <| threads ::= <[t := th]> |>) k v.
Proof.
  intros Hm (t2 & th2 & H2 & Hc). destruct (decide (t2 = t)) as [->|].
  - exists t, th. cbn. rewrite lookup_insert_eq. destruct (Hm _ H2) as (_ & _ & ->). done.
  - exists t2, th2. cbn. by rewrite lookup_insert_ne.
Qed.

Lemma releasing_update s t th o :
  moved s t th → releasing s o → releasing (s <| threads ::= <[t := th]> |>) o.
Proof.
  intros Hm (t2 & th2 & H2 & Hr & Ho). destruct (decide (t2 = t)) as [->|].
  - exists t, th. cbn. rewrite lookup_insert_eq. destruct (Hm _ H2) as (-> & -> & _). done.
  - exists t2, th2. cbn. by rewrite lookup_insert_ne.
Qed.

Lemma memoryOk_update s t th : moved s t th → memoryOk s → memoryOk (s <| threads ::= <[t := th]> |>).
Proof.
  intros Hm [Md Mc Ml Mk Mf]. constructor; cbn; [done..| |done|done].
  intros k e Hp. destruct (Ml _ _ Hp) as (en & ? & ? & ?). exists en. split_and!; [done..|].
  by apply computed_update.
Qed.

Lemma callOk_update s t th th2 : moved s t th → callOk s th2 → callOk (s <| threads ::= <[t := th]> |>) th2.
Proof.
  intros Hm [Cr Cd Cc Cl Cw Cres]. constructor; cbn; [done..|].
  intros e v Hr. destruct (Cres _ _ Hr) as [? [?|?]]; split; auto. right. by apply releasing_update.
Qed.

Lemma Inv_run t choice s s' : Inv s → runThread t choice s = Some s' → Inv s'.
Proof.
  intros HI (th & Ht & ([s1 th1] & Hs & [= <-])%bind_Some)%bind_Some.
  pose proof (inv_calls _ HI _ _ Ht) as Hc.
  pose proof (threadStep_access _ _ _ _ _ Hs) as Ha. pose proof (access_effect _ _ _ _ HI Ht Ha) as He.
  pose proof (eff_threads _ _ _ He) as Eth.
  assert (Hm : moved s1 t th1).
  { intros th0. rewrite Eth, Ht. intros [= <-]. by eapply threadStep_static. }
  constructor.
  - by apply memoryOk_update, (access_memory s t th).
  - intros t2 th2 [[-> ->]|[Hne H2]]%lookup_update; apply callOk_update; try done.
    + constructor.
      * by eapply step_refs.
      * by eapply step_doomed.
      * by eapply step_candidate.
      * by eapply step_leads.
      * by eapply step_waits.
      * intros e v Hr. destruct (step_result s t th choice s1 th1 HI Ht Hs He Hc _ _ Hr). auto.
    + rewrite Eth in H2. exact (callOk_effect s t t2 th th2 s1 HI Ht He Hne H2).
  - assert (Hother : ∀ t2 th2 c, t2 ≠ t → s1.(threads) !! t2 = Some th2 → candidate th2 = Some c →
      candidate th1 = Some c → False).
    { intros t2 th2 c Hne H2 Hc2 Hc1. rewrite Eth in H2.
      destruct (step_newCandidate s t th choice s1 th1 HI Ht Hs He Hc _ Hc1) as [Hc0| ->].
      - by apply Hne, (inv_private _ HI _ _ _ _ _ H2 Ht Hc2 Hc0).
      - destruct (call_candidate _ _ (inv_calls _ HI _ _ H2) _ Hc2) as (_ & ? & ? & _ & Hl).
        apply lookup_lt_Some in Hl. lia. }
    intros t2 t3 th2 th3 c [[-> ->]|[Hne2 H2]]%lookup_update [[-> ->]|[Hne3 H3]]%lookup_update Hc2 Hc3.
    + done.
    + by destruct (Hother _ _ _ Hne3 H3 Hc3 Hc2).
    + by destruct (Hother _ _ _ Hne2 H2 Hc2 Hc3).
    + rewrite Eth in H2, H3. by eapply (inv_private _ HI).
  - assert (Hother : ∀ t2 th2 p, t2 ≠ t → s1.(threads) !! t2 = Some th2 → leads th2 = Some p →
      leads th1 = Some p → False).
    { intros t2 th2 [k f] Hne H2 Hc2 Hc1. rewrite Eth in H2.
      destruct (step_newLead s t th choice s1 th1 HI Ht Hs He Hc _ _ Hc1) as [Hc0|Hg].
      - by apply Hne, (inv_leader _ HI _ _ _ _ _ H2 Ht Hc2 Hc0).
      - pose proof (call_leads _ _ (inv_calls _ HI _ _ H2) _ _ Hc2). congruence. }
    intros t2 t3 th2 th3 p [[-> ->]|[Hne2 H2]]%lookup_update [[-> ->]|[Hne3 H3]]%lookup_update Hc2 Hc3.
    + done.
    + by destruct (Hother _ _ _ Hne3 H3 Hc3 Hc2).
    + by destruct (Hother _ _ _ Hne2 H2 Hc2 Hc3).
    + rewrite Eth in H2, H3. by eapply (inv_leader _ HI).
  - intros k f. cbn. by eapply step_flight.
  - intros k f Hf. cbn in Hf |- *. rewrite Eth.
    destruct (step_flying s t th choice s1 th1 HI Ht Hs He Hc _ _ Hf) as [|[Hf0 Hl]].
    + exists t, th1. by rewrite lookup_insert_eq.
    + destruct (inv_flying _ HI _ _ Hf0) as (t2 & th2 & H2 & Hl2). exists t2, th2.
      rewrite lookup_insert_ne; [done|]. intros ->. congruence.
  - intros k e Hk Hd. cbn in Hk |- *. rewrite Eth.
    destruct (step_pending s t th choice s1 th1 HI Ht Hs He Hc _ _ Hk Hd) as [|(Hk0 & Hd0 & Hl)].
    + exists t, th1. by rewrite lookup_insert_eq.
    + destruct (inv_pending _ HI _ _ Hk0 Hd0) as (t2 & th2 & H2 & Hl2). exists t2, th2.
      rewrite lookup_insert_ne; [done|]. intros ->. congruence.
Qed.

(** A call that begins holds nothing. *)
Lemma begins_holds th s :
  begins th s → refs th = [] ∧ doomed th = [] ∧ candidate th = None ∧ leads th = None ∧ waits th = None ∧
    result th = None.
Proof. destruct th as [? ? ? []|? []|? ? ? []|? [[] []| |]]; done. Qed.

Lemma Inv_begin t th s : Inv s → s.(threads) !! t = None → begins th s → Inv (s <| threads ::= <[t := th]> |>).
Proof.
  intros HI Ht Hb. destruct (begins_holds _ _ Hb) as (Hr & Hd & Hc & Hl & Hw & Hres).
  assert (Hm : moved s t th) by (intros th0 H0; congruence).
  assert (Hkeep : ∀ t2 th2, s.(threads) !! t2 = Some th2 → <[t := th]> s.(threads) !! t2 = Some th2).
  { intros t2 th2 H2. rewrite lookup_insert_ne; [done|]. congruence. }
  constructor.
  - by apply memoryOk_update, inv_memory.
  - intros t2 th2 [[-> ->]|[Hne H2]]%lookup_update; apply callOk_update; try done.
    + constructor; rewrite ?Hr, ?Hd, ?Hc, ?Hl, ?Hw, ?Hres; try done; set_solver.
    + by eapply inv_calls.
  - intros t2 t3 th2 th3 c [[-> ->]|[Hne2 H2]]%lookup_update [[-> ->]|[Hne3 H3]]%lookup_update Hc2 Hc3;
      try congruence. by eapply (inv_private _ HI).
  - intros t2 t3 th2 th3 c [[-> ->]|[Hne2 H2]]%lookup_update [[-> ->]|[Hne3 H3]]%lookup_update Hc2 Hc3;
      try congruence. by eapply (inv_leader _ HI).
  - apply (inv_flight _ HI).
  - intros k f Hf. destruct (inv_flying _ HI _ _ Hf) as (t2 & th2 & ? & ?). exists t2, th2. auto.
  - intros k e Hk He. destruct (inv_pending _ HI _ _ Hk He) as (t2 & th2 & ? & ?). exists t2, th2. auto.
Qed.

Lemma Inv_step s s' : Inv s → step s s' → Inv s'.
Proof. intros HI Hs. destruct Hs as [t choice s s' Hr|t th s Ht Hb]; [exact (Inv_run _ _ _ _ HI Hr)|by apply Inv_begin]. Qed.

Lemma Inv_initial : Inv initial.
Proof. by constructor. Qed.

Lemma Inv_steps s s' : Inv s → rtc step s s' → Inv s'.
Proof. induction 2; eauto using Inv_step. Qed.

Lemma reachable_Inv s : reachable s → Inv s.
Proof. apply Inv_steps, Inv_initial. Qed.

(** ** What calls get *)

(** A published entry that has an owner is the entry of its key. *)
Lemma owned_current s k e o : Inv s → (k, e) ∈ s.(published) → owns s o e → s.(cache) !! k = Some e.
Proof.
  intros HI Hp (en & He & Ho). destruct (mem_live _ (inv_memory _ HI) _ _ Hp) as (en' & He' & Hl & _).
  simplify_eq. apply Hl. pose proof (mem_deleted _ (inv_memory _ HI) _ _ He) as Hd.
  destruct (e_deleted en); [|done]. destruct Hd as [Hd _]. specialize (Hd eq_refl). set_solver.
Qed.

Lemma result_refs th k fn e v : computes th = Some (k, fn) → result th = Some (e, v) → (k, e) ∈ refs th.
Proof. destruct th as [? ? ? []|? []|? ? ? []|? []]; intros; simplify_eq/=; left. Qed.

Lemma result_current s t th k fn e v :
  Inv s → s.(threads) !! t = Some th → computes th = Some (k, fn) → result th = Some (e, v) →
  ¬ releasing s (ownerOf th) → valueOf e s = Some v ∧ owns s (ownerOf th) e ∧ s.(cache) !! k = Some e.
Proof.
  intros HI Ht Hc Hr Hn. pose proof (inv_calls _ HI _ _ Ht) as Hok.
  destruct (call_result _ _ Hok _ _ Hr) as [Hv [Ho|]]; [|done]. split_and!; [done..|].
  eapply owned_current; [done| |done]. by eapply call_refs, result_refs.
Qed.

(** C11: A call of [Do] that returned a value got one that some call for the same key
    computed; until its owner is released, the owner is registered on the very
    entry it got, which is the one in the map. *)
Theorem Do_owns s t th k fn e v :
  reachable s → s.(threads) !! t = Some th → computes th = Some (k, fn) → result th = Some (e, v) →
  computed s k v ∧ valueOf e s = Some v ∧
  (¬ releasing s (ownerOf th) → owns s (ownerOf th) e ∧ s.(cache) !! k = Some e).
Proof.
  intros HI%reachable_Inv Ht Hc Hr. pose proof (inv_calls _ HI _ _ Ht) as Hok.
  destruct (call_result _ _ Hok _ _ Hr) as [Hv _]. split_and!; [|done|].
  - destruct (mem_live _ (inv_memory _ HI) k e) as (en & He & _ & Hcm).
    { by eapply call_refs, result_refs. }
    unfold valueOf in Hv. rewrite He in Hv. by simplify_eq/=.
  - intros Hn. by eapply result_current.
Qed.

(** Two calls for one key whose owners are not released share the value. *)
Theorem Do_shares s t t' th th' k fn fn' e e' v v' :
  reachable s → s.(threads) !! t = Some th → s.(threads) !! t' = Some th' →
  computes th = Some (k, fn) → computes th' = Some (k, fn') →
  result th = Some (e, v) → result th' = Some (e', v') →
  ¬ releasing s (ownerOf th) → ¬ releasing s (ownerOf th') → e = e' ∧ v = v'.
Proof.
  intros HI%reachable_Inv Ht Ht' Hc Hc' Hr Hr' Hn Hn'.
  destruct (result_current _ _ _ _ _ _ _ HI Ht Hc Hr Hn) as (Hv & _ & Hk).
  destruct (result_current _ _ _ _ _ _ _ HI Ht' Hc' Hr' Hn') as (Hv' & _ & Hk').
  simplify_eq. split; congruence.
Qed.

(** At most one call for a key is between entering the flight of the key and
    leaving it, which is where the function is called. *)
Theorem Do_singleflight s t t' th th' k f f' :
  reachable s → s.(threads) !! t = Some th → s.(threads) !! t' = Some th' →
  leads th = Some (k, f) → leads th' = Some (k, f') → t = t'.
Proof.
  intros HI%reachable_Inv Ht Ht' Hl Hl'.
  pose proof (call_leads _ _ (inv_calls _ HI _ _ Ht) _ _ Hl).
  pose proof (call_leads _ _ (inv_calls _ HI _ _ Ht') _ _ Hl'). simplify_eq.
  by eapply (inv_leader _ HI).
Qed.

(** When no call of [Release] is about to remove an entry, each entry of the map
    has an owner. *)
Theorem Release_noLeak s :
  reachable s → (∀ t th, s.(threads) !! t = Some th → pending th = []) →
  ∀ k e, s.(cache) !! k = Some e → ∃ o, owns s o e.
Proof.
  intros HI%reachable_Inv Hq k e Hk.
  destruct (mem_live _ (inv_memory _ HI) k e) as (en & He & _); [by apply (mem_cache _ (inv_memory _ HI))|].
  destruct (set_choose_or_empty en.(e_owners)) as [[o Ho]|Hempty]; [by exists o, en|].
  apply leibniz_equiv in Hempty. destruct (inv_pending _ HI k e Hk) as (t & th & Ht & Hin).
  - exists en. split; [done|]. by apply (mem_deleted _ (inv_memory _ HI) _ _ He).
  - rewrite (Hq _ _ Ht) in Hin. by apply not_elem_of_nil in Hin.
Qed.

(** ** Executions *)

(** A call begins, or runs. *)
Inductive move := Begin (t : nat) (th : thread) | Run (t : nat) (choice : option (bytes * nat)).

Definition exec1 (m : move) (s : state) : option state :=
  match m with
  | Begin t th =>
      if decide (s.(threads) !! t = None ∧ begins th s) then Some (s <| threads ::= <[t := th]> |>) else None
  | Run t choice => runThread t choice s
  end.

Fixpoint exec (ms : list move) (s : state) : option state :=
  match ms with [] => Some s | m :: ms => s ← exec1 m s; exec ms s end.

Lemma exec_steps ms s s' : exec ms s = Some s' → rtc step s s'.
Proof.
  revert s. induction ms as [|m ms IH]; intros s; simpl.
  - intros [= <-]. apply rtc_refl.
  - intros (s1 & H1 & H2)%bind_Some. eapply rtc_l; [|by apply IH]. destruct m; simpl in H1.
    + case_decide as Hd; simplify_eq. destruct Hd. by apply step_new.
    + by eapply step_run.
Qed.
End memoize.

(** Two owners ask for one key: the first compiles, the second waits and gets the
    same entry. *)
Definition exampleMoves : list (@move Z) :=
  [Begin 0 (Do 1 (str "k") (Some 7) Start); Begin 1 (Do 2 (str "k") (Some 8) Start);
   Run 0 None; Run 1 None; Run 0 None; Run 1 None; Run 0 None; Run 0 None; Run 0 None; Run 0 None; Run 1 None;
   Run 0 None; Run 1 None].

Definition exampleState : @state Z := default initial (exec exampleMoves initial).

Lemma exampleState_reachable : reachable exampleState.
Proof. apply (exec_steps exampleMoves). vm_compute. reflexivity. Qed.

Lemma not_releasing {A} (s : @state A) o :
  bool_decide (map_Forall (λ _ th, isRelease th = false) s.(threads)) = true → ¬ releasing s o.
Proof. intros Hall%bool_decide_eq_true (t & th & Ht & Hr & _). rewrite (Hall _ _ Ht) in Hr. discriminate Hr. Qed.

Lemma Do_owns_witness :
  computed exampleState (str "k") 7 ∧ owns exampleState 2 0 ∧ exampleState.(cache) !! str "k" = Some 0%nat.
Proof.
  destruct (Do_owns exampleState 1 (Do 2 (str "k") (Some 8) (Returned 0 7)) (str "k") (Some 8) 0 7)
    as (Hc & _ & Ho).
  - exact exampleState_reachable.
  - vm_compute. reflexivity.
  - reflexivity.
  - reflexivity.
  - split; [exact Hc|]. apply Ho, not_releasing. vm_compute. reflexivity.
Defined.

Lemma Do_shares_witness : (0 = 0)%nat ∧ 7 = 7.
Proof.
  apply (Do_shares exampleState 0 1 (Do 1 (str "k") (Some 7) (Returned 0 7))
    (Do 2 (str "k") (Some 8) (Returned 0 7)) (str "k") (Some 7) (Some 8)).
  - exact exampleState_reachable.
  - vm_compute. reflexivity.
  - vm_compute. reflexivity.
  - reflexivity.
  - reflexivity.
  - reflexivity.
  - reflexivity.
  - apply not_releasing. vm_compute. reflexivity.
  - apply not_releasing. vm_compute. reflexivity.
Defined.

Lemma Release_noLeak_witness : ∃ o, owns exampleState o 0.
Proof.
  apply (Release_noLeak exampleState exampleState_reachable) with (k := str "k").
  - apply (bool_decide_unpack (map_Forall (λ _ th, pending th = []) exampleState.(threads))).
    vm_compute. exact I.
  - vm_compute. reflexivity.
Defined.

(** The first call leads the flight while the second one waits. *)
Definition flyingState : @state Z := default initial (exec (take 6 exampleMoves) initial).

Lemma Do_singleflight_witness :
  ∀ t th f, flyingState.(threads) !! t = Some th → leads th = Some (str "k", f) → 0%nat = t.
Proof.
  intros t th f Ht Hl.
  apply (Do_singleflight flyingState 0 t (Do 1 (str "k") (Some 7) (Check 0)) th (str "k") 0 f).
  - apply (exec_steps (take 6 exampleMoves)). vm_compute. reflexivity.
  - vm_compute. reflexivity.
  - exact Ht.
  - reflexivity.
  - exact Hl.
Defined.
