(* ===== verification/MemoizeCalls.v ===== *)
(** The calls of the memoizer (Memoize.v) over time: after [Release] nothing of
    the owner is left in the map, and every call can complete. *)

From S2P Require Import Prelude GoLib Memoize.

Section calls.
Context {A : Type}.

Implicit Types (s : @state A) (th : @thread A).

(** A call has returned. *)
Definition finished th : bool :=
  match th with
  | Do _ _ _ (Returned _ _ | Erred) | DoTiny _ _ _ (TReturned _ _ | TErred)
  | Release _ Released | ReleaseTiny _ (TDeleting []) => true
  | _ => false
  end.

(** ** Release *)

(** A step in which no call of [Do] for the owner runs. *)
Definition quiet (o : Z) s s' : Prop :=
  step s s' ∧ ∀ t th, s.(threads) !! t = Some th → isRelease th = false → ownerOf th = o →
    s'.(threads) !! t = Some th.

(** The range of a call. *)
Definition ranges th : option range :=
  match th with
  | Release _ (Ranging r | Visiting r _ _ | Deleting r _ _)
  | ReleaseTiny _ (TRanging r _ | TVisiting r _ _ _) => Some r
  | _ => None
  end.

(** Where a call of [Release] that began with map [m] and mappings [ps] stands:
    each entry that the owner still has was there at the beginning, is the only
    mapping of its key since, and is yet to be visited; there is none after the
    range. *)
Definition remaining (o : Z) (m : gmap bytes nat) (ps : gset (bytes * nat)) s th : Prop :=
  match ranges th with
  | Some r => r.(r_start) = m ∧ r.(r_old) = ps ∧
      ∀ k e, (k, e) ∈ s.(published) → owns s o e →
        m !! k = Some e ∧ (∀ e', (k, e') ∈ s.(published) → e' = e ∨ (k, e') ∈ ps) ∧
        (k ∉ r.(r_visited) ∨ visits th = Some (k, e))
  | None => ∀ k e, (k, e) ∈ s.(published) → ¬ owns s o e
  end.

Lemma access_gains s t th s1 o k e :
  Inv s → s.(threads) !! t = Some th → access th s s1 → (isRelease th = false → ownerOf th ≠ o) →
  (k, e) ∈ s1.(published) → owns s1 o e →
  (k, e) ∈ s.(published) ∧ owns s o e ∧ ∀ e', (k, e') ∈ s1.(published) → (k, e') ∈ s.(published).
Proof.
  intros HI Ht Ha Hq Hp (en1 & He1 & Ho). pose proof (inv_calls _ HI _ _ Ht) as Hc. destruct Ha.
  - split_and!; [done|by eexists|done].
  - apply addOwner_eq in H1 as [(? & -> & _)|(? & en & He & Hd & ->)]; [split_and!; [done|by eexists|done]|].
    split_and!; [done| |done]. cbn in He1.
    apply list_lookup_insert_Some in He1 as [(<- & <- & _)|[? ?]]; [|by eexists].
    cbn in Ho. exists en. split; [done|]. specialize (Hq H). set_solver.
  - unfold newEntry in H0. simplify_eq. cbn in *. split_and!; [done| |done].
    apply lookup_app_Some in He1 as [?|(? & He1)]; [by eexists|].
    destruct (e - _)%nat; simplify_eq/=. specialize (Hq H). set_solver.
  - destruct (call_candidate _ _ Hc _ H0) as (Hf & ? & v & Hk & Hh).
    assert (isRelease th = false) by (by destruct th). specialize (Hq ltac:(done)).
    apply LoadOrStore_eq in H1 as [(? & -> & ?)|(? & -> & Hnone & ->)]; [split_and!; [done|by eexists|done]|].
    cbn in *. simplify_eq.
    assert (e ≠ c) by (intros ->; simplify_eq/=; set_solver).
    assert ((k, e) ∈ s.(published)) as Hp' by set_solver.
    assert (owns s o e) as Ho' by (by eexists). split_and!; [done..|].
    intros e' [Heq|]%elem_of_union; [|done]. apply elem_of_singleton in Heq as [= -> ->].
    pose proof (owned_current _ _ _ _ HI Hp' Ho'). congruence.
  - destruct (CompareAndDelete_heap k0 e0 s) as (HE & HP & _). rewrite HE in He1. rewrite HP in *.
    split_and!; [done|by eexists|done].
  - apply releaseOwner_eq in H1 as [->|(en & d & He & Hd & _ & ->)]; [split_and!; [done|by eexists|done]|].
    cbn in *. split_and!; [done| |done].
    apply list_lookup_insert_Some in He1 as [(<- & <- & _)|[? ?]]; [|by eexists].
    cbn in Ho. exists en. split; [done|]. set_solver.
  - apply enter_eq in H as [(? & -> & ?)|(? & -> & ? & ->)]; split_and!; try done; by eexists.
  - split_and!; [done|by eexists|done].
Qed.

(** What the owner has shrinks. *)
Lemma remaining_shrinks o m ps s s1 th th' :
  remaining o m ps s th → ranges th' = ranges th → visits th' = visits th →
  (∀ k e, (k, e) ∈ s1.(published) → owns s1 o e → (k, e) ∈ s.(published) ∧ owns s o e ∧
    ∀ e', (k, e') ∈ s1.(published) → (k, e') ∈ s.(published)) →
  remaining o m ps s1 th'.
Proof.
  unfold remaining. intros Hr -> -> Hg. destruct (ranges th) as [r|].
  - destruct Hr as (? & ? & Hr). split_and!; [done..|]. intros k e Hp Ho.
    destruct (Hg _ _ Hp Ho) as (Hp0 & Ho0 & Hall). destruct (Hr _ _ Hp0 Ho0) as (? & Hu & ?). auto.
  - intros k e Hp Ho. destruct (Hg _ _ Hp Ho) as (Hp0 & Ho0 & _). by eapply Hr.
Qed.

(** The range shows the next mapping. *)
Lemma remaining_next o m ps s r k e r' th th' :
  remaining o m ps s th → rangeNext r (k, e) s = Some r' → ranges th = Some r → visits th = None →
  ranges th' = Some r' → visits th' = Some (k, e) → remaining o m ps s th'.
Proof.
  unfold remaining. intros Hr (Hk & Hp & Hold & ->)%rangeNext_eq E Hv -> ->. rewrite E in Hr.
  destruct Hr as (Hs & Ho & Hr). cbn.
  split_and!; [done..|]. intros k2 e2 Hp2 Ho2. destruct (Hr _ _ Hp2 Ho2) as (Hm & Hu & Hvis).
  split_and!; [done..|]. destruct (decide (k2 = k)) as [->|]; [|set_solver]. right.
  destruct Hold as [Hst|Hnew]; [congruence|]. destruct (Hu _ Hp) as [->|]; [done|]. subst. done.
Qed.

(** The entry it shows is released. *)
Lemma remaining_visited o m ps s s1 gone r k e th th' :
  remaining o m ps s th → releaseOwner o e s = (s1, gone) →
  ranges th = Some r → visits th = Some (k, e) → ranges th' = Some r → visits th' = None →
  remaining o m ps s1 th'.
Proof.
  unfold remaining. intros Hr Hrel E Ev -> ->. rewrite E, Ev in Hr. destruct Hr as (Hs & Ho & Hr). split_and!; [done..|]. intros k2 e2 Hp2 Ho2.
  assert (Hp : s1.(published) = s.(published)).
  { unfold releaseOwner in Hrel. repeat case_match; by simplify_eq. }
  assert (owns s o e2 ∧ e2 ≠ e) as [Ho3 Hne].
  { destruct Ho2 as (en & He & Hin).
    unfold releaseOwner in Hrel. repeat case_match; simplify_eq/=.
    1,2: apply list_lookup_insert_Some in He as [(<- & <- & _)|[? ?]]; [cbn in Hin; set_solver|]; split; [by eexists|done].
    split; [by eexists|]. congruence. }
  rewrite Hp in *. destruct (Hr _ _ Hp2 Ho3) as (? & ? & [?|[= -> ->]]); [|done]. auto.
Qed.

(** The range ends. *)
Lemma remaining_end o m ps s r th th' :
  Inv s → remaining o m ps s th → rangeEnd r s = true →
  ranges th = Some r → visits th = None → ranges th' = None → remaining o m ps s th'.
Proof.
  unfold remaining. intros HI Hr He%bool_decide_eq_true E Hv -> k e Hp Hown. rewrite E in Hr.
  destruct Hr as (Hs & Ho & Hr).
  destruct (Hr _ _ Hp Hown) as (Hm & _ & [Hnv|]); [|congruence]. apply Hnv. rewrite <-Hs in Hm.
  by apply (He _ _ Hm), (owned_current _ _ _ o).
Qed.

Lemma remaining_self o m ps s t th choice s1 th' :
  Inv s → s.(threads) !! t = Some th → isRelease th = true → ownerOf th = o →
  threadStep choice th s = Some (s1, th') → remaining o m ps s th → remaining o m ps s1 th'.
Proof.
  intros HI Ht Hrel Ho Hs Hr.
  assert (Hg := λ k e, access_gains _ _ _ _ o k e HI Ht (threadStep_access _ _ _ _ _ Hs)).
  destruct th as [? ? ? []|? []|? ? ? []|? []]; step_cases; repeat case_match; simplify_eq/=;
    first [ by eapply remaining_next | by eapply remaining_visited | by eapply remaining_end
          | eapply remaining_shrinks; [done|done|done|]; intros; by apply Hg ].
Qed.

(** A step of [Do] moves the call. *)
Lemma threadStep_moves choice th s s1 : threadStep choice th s = Some (s1, th) → isRelease th = true.
Proof. intros Hs. destruct th as [? ? ? []|? []|? ? ? []|? []]; step_cases; repeat case_match; by simplify_eq/=. Qed.

Lemma remaining_step o m ps s s' t th :
  Inv s → quiet o s s' → s.(threads) !! t = Some th → isRelease th = true → ownerOf th = o →
  remaining o m ps s th →
  ∃ th', s'.(threads) !! t = Some th' ∧ isRelease th' = true ∧ ownerOf th' = o ∧ remaining o m ps s' th'.
Proof.
  intros HI [Hs Hq] Ht Hrel Ho Hr. destruct Hs as [t2 choice s s' Hs|t2 th2 s H2 Hb].
  - apply bind_Some in Hs as (th2 & H2 & ([s1 th3] & Hs & [= <-])%bind_Some).
    destruct (decide (t2 = t)) as [->|Hne].
    + assert (th2 = th) as -> by congruence. exists th3. cbn. rewrite lookup_insert_eq. destruct (threadStep_static _ _ _ _ _ Hs) as (-> & -> & _).
      split_and!; [done..|]. by apply (remaining_self _ _ _ s t th choice s1 th3).
    + exists th. cbn. pose proof (threadStep_access _ _ _ _ _ Hs) as Ha.
      rewrite lookup_insert_ne, (eff_threads _ _ _ (access_effect _ _ _ _ HI H2 Ha)) by done.
      split_and!; [done..|]. eapply remaining_shrinks; [done..|]. intros k e Hp Hown.
      apply (access_gains _ _ _ _ o k e HI H2 Ha); [|done..].
      intros Hnr Heq. specialize (Hq _ _ H2 Hnr Heq). cbn in Hq. rewrite lookup_insert_eq in Hq.
      injection Hq as ->. apply threadStep_moves in Hs. congruence.
  - exists th. cbn. rewrite lookup_insert_ne by congruence. split_and!; [done..|].
    eapply remaining_shrinks; [done..|]. cbn. auto.
Qed.

Lemma remaining_start o s th :
  Inv s → begins th s → isRelease th = true → remaining o s.(cache) s.(published) s th.
Proof.
  intros HI Hb Hr. unfold remaining.
  assert (∃ r, ranges th = Some r ∧ r.(r_start) = s.(cache) ∧ r.(r_old) = s.(published) ∧ r.(r_visited) = ∅)
    as (r & -> & Hs & Ho & Hv).
  { destruct th as [? ? ? []|? [[]| | |]|? ? ? []|? [[] []| |]]; try done;
      apply bool_decide_unpack in Hb as (-> & -> & ->); by eexists. }
  rewrite Hv. split_and!; [done..|]. intros k e Hp Hown. split_and!.
  - by eapply owned_current.
  - auto.
  - left. set_solver.
Qed.

(** C27: A call of [Release] that ran to its end while no call of [Do] for the owner
    ran: the owner has no entry of the map. *)
Theorem Release_complete o t th s s' th' :
  reachable s → s.(threads) !! t = Some th → isRelease th = true → ownerOf th = o → begins th s →
  rtc (quiet o) s s' → s'.(threads) !! t = Some th' → finished th' →
  ∀ k e, s'.(cache) !! k = Some e → ¬ owns s' o e.
Proof.
  intros HI%reachable_Inv Ht Hrel Ho Hb Hsteps Ht' Hf.
  assert (∃ m ps, remaining o m ps s th) as (m & ps & Hr).
  { eexists _, _. by apply remaining_start. }
  clear Hb. revert th Ht Hrel Ho Hr. induction Hsteps as [s|s s1 s' Hq Hsteps IH]; intros th Ht Hrel Ho Hr.
  - simplify_eq. intros k e Hk. unfold remaining in Hr. destruct (ranges th') eqn:E.
    + by destruct th' as [? ? ? []|? []|? ? ? []|? [| |[]]].
    + apply (Hr k). by apply (mem_cache _ (inv_memory _ HI)).
  - destruct (remaining_step _ _ _ _ _ _ _ HI Hq Ht Hrel Ho Hr) as (th1 & H1 & Hrel1 & Ho1 & Hr1).
    by eapply IH; [eapply Inv_step; [|apply Hq]|..].
Qed.

(** ** Completion *)

(** A step of a call that has begun. *)
Definition run s s' : Prop := ∃ t choice, runThread t choice s = Some s'.

Definition live s (e : nat) : Prop := ∃ en, s.(heap) !! e = Some en ∧ en.(e_deleted) = false.

Definition sameMemory s s' : Prop :=
  s'.(heap) = s.(heap) ∧ s'.(cache) = s.(cache) ∧ s'.(group) = s.(group) ∧ s'.(flights) = s.(flights) ∧
  s'.(published) = s.(published).

(** Call [t] can run alone to a state with [P]. *)
Definition reaches (t : nat) s (P : @state A → Prop) : Prop :=
  ∃ s', rtc run s s' ∧ Inv s' ∧ (∀ t2, t2 ≠ t → s'.(threads) !! t2 = s.(threads) !! t2) ∧ P s'.

Definition isFinished (t : nat) s : Prop := ∃ th, s.(threads) !! t = Some th ∧ finished th = true.

Lemma reaches_here t s P : Inv s → P s → reaches t s P.
Proof. intros. exists s. eauto using rtc_refl. Qed.

Lemma reaches_trans t s P Q :
  reaches t s P → (∀ s', Inv s' → P s' → reaches t s' Q) → reaches t s Q.
Proof.
  intros (s1 & H1 & HI & Hs & HP) HQ. destruct (HQ _ HI HP) as (s2 & H2 & HI2 & Hs2 & HQ2).
  exists s2. split_and!; [by etrans|done| |done]. intros t2 Hne. by rewrite Hs2, Hs.
Qed.

Lemma reaches_step t s th choice s1 th1 P :
  Inv s → s.(threads) !! t = Some th → threadStep choice th s = Some (s1, th1) →
  (∀ s', Inv s' → s'.(threads) !! t = Some th1 → sameMemory s1 s' → reaches t s' P) → reaches t s P.
Proof.
  intros HI Ht Hs HP.
  assert (Hrun : runThread t choice s = Some (s1 <| threads ::= <[t := th1]> |>)).
  { unfold runThread. rewrite Ht; simpl. by rewrite Hs. }
  pose proof (eff_threads _ _ _ (access_effect _ _ _ _ HI Ht (threadStep_access _ _ _ _ _ Hs))) as Eth.
  destruct (HP (s1 <| threads ::= <[t := th1]> |>)) as (s2 & H2 & HI2 & Hs2 & HP2).
  - by eapply Inv_run.
  - cbn. by rewrite lookup_insert_eq.
  - done.
  - exists s2. split_and!; [|done| |done].
    + eapply rtc_l; [|done]. by exists t, choice.
    + intros t2 Hne. rewrite Hs2 by done. cbn. by rewrite lookup_insert_ne, Eth.
Qed.

Lemma addOwner_live o e s en :
  s.(heap) !! e = Some en → en.(e_deleted) = false →
  addOwner o e s = (s <| heap ::= <[e := en <| e_owners ::= ({[o]} ∪.) |>]> |>, true).
Proof. unfold addOwner. by intros -> ->. Qed.

Lemma live_added s e en o :
  s.(heap) !! e = Some en → en.(e_deleted) = false →
  live (s <| heap ::= <[e := en <| e_owners ::= ({[o]} ∪.) |>]> |>) e.
Proof.
  intros He Hd. eexists. cbn. by rewrite list_lookup_insert_eq by (by eapply lookup_lt_Some).
Qed.

Lemma live_same s s' e : sameMemory s s' → live s e → live s' e.
Proof. intros (E & _) (en & ? & ?). exists en. by rewrite E. Qed.

(** An entry that is deleted is not owned. *)
Lemma live_or_dead s e o : live s e ∨ addOwner o e s = (s, false).
Proof.
  unfold live, addOwner. destruct (s.(heap) !! e) as [en|]; [|by right].
  destruct (e_deleted en) eqn:E; [by right|left; eauto].
Qed.

Section do.
Context (t : nat) (o : Z) (k : bytes) (fn : option A).

Definition at_ (pc : doPC) s : Prop := s.(threads) !! t = Some (Do o k fn pc).

Lemma do_step pc pc1 s s1 P :
  Inv s → at_ pc s → doStep o k fn pc s = Some (s1, pc1) →
  (∀ s', Inv s' → at_ pc1 s' → sameMemory s1 s' → reaches t s' P) → reaches t s P.
Proof. intros HI Ha Hs. eapply (reaches_step t s _ None); [done..|]. cbn. by rewrite Hs. Qed.

(** It has an entry that is live, or an error, to leave the flight with. *)
Definition lands (f : nat) s : Prop := ∃ res, at_ (Landing f res) s ∧ ∀ e, res = Some e → live s e.

Lemma own_lands pc f e s :
  Inv s → at_ pc s → pc = CheckOwn f e ∨ (∃ c, pc = StoreOwn f c e) → live s e → reaches t s (lands f).
Proof.
  intros HI Ha Hpc (en & He & Hd). eapply (do_step pc (Landing f (Some e))); [done..| |].
  - destruct Hpc as [->|[? ->]]; cbn; by rewrite (addOwner_live o e s en).
  - intros s' HI' Ha' Hm. apply reaches_here; [done|]. eexists. split; [done|]. intros ? [= <-].
    eapply live_same; [done|]. by apply live_added.
Qed.

Lemma store_none f c s :
  Inv s → at_ (Store f c) s → s.(cache) !! k = None → reaches t s (lands f).
Proof.
  intros HI Ha Hk. destruct (call_candidate _ _ (inv_calls _ HI _ _ Ha) c eq_refl) as (_ & ? & v & _ & He).
  eapply do_step; [done..|cbn; unfold LoadOrStore; by rewrite Hk|].
  intros s' HI' Ha' Hm. apply reaches_here; [done|]. eexists. split; [done|]. intros ? [= <-].
  eapply live_same; [done|]. eexists. split; [exact He|done].
Qed.

Lemma store_lands f c s : Inv s → at_ (Store f c) s → reaches t s (lands f).
Proof.
  intros HI Ha. destruct (s.(cache) !! k) as [e|] eqn:Hk; [|by eapply store_none].
  eapply do_step; [done..|cbn; unfold LoadOrStore; by rewrite Hk|]. intros s1 HI1 Ha1 Hm1.
  destruct (live_or_dead s1 e o) as [Hl|Hd]; [eapply own_lands; eauto|].
  eapply do_step; [done..|cbn; by rewrite Hd|]. intros s2 HI2 Ha2 Hm2.
  eapply do_step; [done..|]. intros s3 HI3 Ha3 (_ & E3 & _). eapply store_none; [done..|].
  rewrite E3. destruct Hm1 as (_ & E1 & _), Hm2 as (_ & E2 & _).
  unfold CompareAndDelete. rewrite E2, E1, Hk, decide_True by done. cbn. rewrite E2, E1. by rewrite lookup_delete_eq.
Qed.

Lemma call_lands f s : Inv s → at_ (Call f) s → reaches t s (lands f).
Proof.
  intros HI Ha. destruct fn as [v|] eqn:Hfn.
  - eapply do_step; [done..|cbn; by rewrite Hfn|]. intros s1 HI1 Ha1 _. by eapply store_lands.
  - eapply do_step; [done..|cbn; by rewrite Hfn|]. intros s1 HI1 Ha1 _. apply reaches_here; [done|].
    by eexists.
Qed.

Lemma checkOwn_lands f e s : Inv s → at_ (CheckOwn f e) s → reaches t s (lands f).
Proof.
  intros HI Ha. destruct (live_or_dead s e o) as [Hl|Hd]; [eapply own_lands; eauto|].
  eapply do_step; [done..|cbn; by rewrite Hd|]. intros s1 HI1 Ha1 _. by apply call_lands.
Qed.

Lemma check_lands f s : Inv s → at_ (Check f) s → reaches t s (lands f).
Proof.
  intros HI Ha. eapply do_step; [done..|]. intros s1 HI1 Ha1 _.
  destruct (s.(cache) !! k); [by eapply checkOwn_lands|by apply call_lands].
Qed.

Lemma storeDelete_lands f c e s : Inv s → at_ (StoreDelete f c e) s → reaches t s (lands f).
Proof. intros HI Ha. eapply do_step; [done..|]. intros s1 HI1 Ha1 _. by eapply store_lands. Qed.

Lemma storeOwn_lands f c e s : Inv s → at_ (StoreOwn f c e) s → reaches t s (lands f).
Proof.
  intros HI Ha. destruct (live_or_dead s e o) as [Hl|Hd]; [eapply own_lands; eauto|].
  eapply do_step; [done..|cbn; by rewrite Hd|]. intros s1 HI1 Ha1 _. by eapply storeDelete_lands.
Qed.

(** The call is over, or has an entry that is [good]. *)
Definition settled (good : @state A → nat → Prop) s : Prop :=
  s.(group) !! k = None ∧ (isFinished t s ∨ ∃ e, at_ (Result e) s ∧ good s e).

Lemma landing_settles f res s :
  Inv s → at_ (Landing f res) s → reaches t s (settled (λ s' e, res = Some e ∧ s'.(heap) = s.(heap))).
Proof.
  intros HI Ha. eapply do_step; [done..|]. intros s1 HI1 Ha1 (Eh & _ & Eg & _). apply reaches_here; [done|].
  split; [rewrite Eg; cbn; by rewrite lookup_delete_eq|].
  destruct res as [e|]; [right; by exists e|left; by eexists].
Qed.

(** A leader leaves its flight. *)
Lemma lead_settles pc s f :
  Inv s → at_ pc s → leads (Do o k fn pc) = Some (k, f) → reaches t s (settled (λ _ _, True)).
Proof.
  intros HI Ha Hl. assert (reaches t s (λ s', ∃ res, at_ (Landing f res) s')) as HL.
  { destruct pc; simplify_eq/=.
    all: try (eapply reaches_trans; [first [by apply check_lands|by eapply checkOwn_lands|by apply call_lands
      |by eapply store_lands|by eapply storeOwn_lands|by eapply storeDelete_lands]|]).
    all: try (intros s1 HI1 (res & Ha1 & _); apply reaches_here; by eauto).
    apply reaches_here; by eauto. }
  eapply reaches_trans; [done|]. intros s1 HI1 [res Ha1].
  eapply reaches_trans; [by eapply landing_settles|]. intros s2 HI2 [Hg H2]. apply reaches_here; [done|].
  split; [done|]. destruct H2 as [|(e & ? & _)]; eauto.
Qed.

Lemma own_finishes pc e s :
  Inv s → at_ pc s → pc = Own e ∨ pc = Result e → live s e → reaches t s (isFinished t).
Proof.
  intros HI Ha Hpc (en & He & Hd).
  eapply (do_step pc (Returned e en.(e_value))); [done..| |].
  - destruct Hpc as [-> | ->]; cbn; rewrite (addOwner_live o e s en) by done; unfold valueOf; cbn;
      by rewrite list_lookup_insert_eq by (by eapply lookup_lt_Some).
  - intros s' HI' Ha' Hm. apply reaches_here; [done|]. by eexists.
Qed.

(** With the flight free, the call leads it and gets its own entry. *)
Lemma slow_finishes s : Inv s → at_ Slow s → s.(group) !! k = None → reaches t s (isFinished t).
Proof.
  intros HI Ha Hg. eapply do_step; [done..|cbn; unfold enter; by rewrite Hg|]. intros s1 HI1 Ha1 _.
  eapply reaches_trans; [by apply check_lands|]. intros s2 HI2 (res & Ha2 & Hl2).
  eapply reaches_trans; [by eapply landing_settles|]. intros s3 HI3 (_ & [H3|(e & Ha3 & Hres & Eh)]).
  - by apply reaches_here.
  - eapply own_finishes; eauto. destruct (Hl2 _ Hres) as (en & ? & ?). exists en. by rewrite Eh.
Qed.

Lemma own_slow_finishes s e : Inv s → at_ (Own e) s → s.(group) !! k = None → reaches t s (isFinished t).
Proof.
  intros HI Ha Hg. destruct (live_or_dead s e o) as [Hl|Hd]; [eapply own_finishes; eauto|].
  eapply do_step; [done..|cbn; by rewrite Hd|]. intros s1 HI1 Ha1 (_ & _ & Eg & _).
  apply slow_finishes; [done..|]. by rewrite Eg.
Qed.

Lemma start_finishes s : Inv s → at_ Start s → s.(group) !! k = None → reaches t s (isFinished t).
Proof.
  intros HI Ha Hg. eapply do_step; [done..|]. intros s1 HI1 Ha1 (_ & _ & Eg & _).
  destruct (s.(cache) !! k); [eapply own_slow_finishes|apply slow_finishes]; try done; by rewrite Eg.
Qed.

Lemma result_finishes s e : Inv s → at_ (Result e) s → s.(group) !! k = None → reaches t s (isFinished t).
Proof.
  intros HI Ha Hg. destruct (live_or_dead s e o) as [Hl|Hd]; [eapply own_finishes; eauto|].
  eapply do_step; [done..|cbn; by rewrite Hd|]. intros s1 HI1 Ha1 (_ & _ & Eg & _).
  apply start_finishes; [done..|]. by rewrite Eg.
Qed.

(** A flight that has no leader has landed. *)
Lemma wait_finishes s f : Inv s → at_ (Wait f) s → s.(group) !! k = None → reaches t s (isFinished t).
Proof.
  intros HI Ha Hg. destruct (call_waits _ _ (inv_calls _ HI _ _ Ha) _ _ eq_refl) as [[res|] Hf].
  - eapply do_step; [done..|cbn; by rewrite Hf|]. intros s1 HI1 Ha1 (_ & _ & Eg & _).
    destruct res; [eapply result_finishes; [done..|by rewrite Eg]|]. apply reaches_here; [done|]. by eexists.
  - destruct (inv_flying _ HI _ _ Hf) as (t2 & th2 & H2 & Hl).
    pose proof (call_leads _ _ (inv_calls _ HI _ _ H2) _ _ Hl). congruence.
Qed.

Lemma free_finishes pc s :
  Inv s → at_ pc s → s.(group) !! k = None → reaches t s (isFinished t).
Proof.
  intros HI Ha Hg. destruct (leads (Do o k fn pc)) as [[k' f]|] eqn:Hl.
  { pose proof (call_leads _ _ (inv_calls _ HI _ _ Ha) _ _ Hl). destruct pc; simplify_eq/=. }
  destruct pc; simplify_eq/=; eauto using start_finishes, own_slow_finishes, slow_finishes, wait_finishes,
    result_finishes.
  all: apply reaches_here; [done|]; by eexists.
Qed.
End do.

(** Whoever leads the flight of the key leaves it; then the call completes. *)
Lemma do_completes t o k fn pc s :
  Inv s → s.(threads) !! t = Some (Do o k fn pc) → ∃ s', rtc run s s' ∧ isFinished t s'.
Proof.
  intros HI Ht. destruct (s.(group) !! k) as [f|] eqn:Hg.
  - destruct (inv_flying _ HI _ _ (inv_flight _ HI _ _ Hg)) as (t2 & th2 & H2 & Hl).
    assert (∃ o2 fn2 pc2, th2 = Do o2 k fn2 pc2) as (o2 & fn2 & pc2 & ->).
    { destruct th2 as [? ? ? []|? []|? ? ? []|? []]; simplify_eq/=; eauto. }
    destruct (lead_settles t2 o2 k fn2 pc2 s f HI H2 Hl) as (s1 & Hr1 & HI1 & Hs1 & Hg1 & H1).
    assert (isFinished t s1 ∨ ∃ pc1, s1.(threads) !! t = Some (Do o k fn pc1)) as [Hf|[pc1 Ht1]].
    { destruct (decide (t = t2)) as [->|Hne]; [|right; exists pc; by rewrite Hs1]. simplify_eq.
      destruct H1 as [|(e & He & _)]; eauto. }
    + by exists s1.
    + destruct (free_finishes t o k fn pc1 s1 HI1 Ht1 Hg1) as (s2 & Hr2 & _ & _ & Hf).
      exists s2. split; [by etrans|done].
  - destruct (free_finishes t o k fn pc s HI Ht Hg) as (s2 & Hr2 & _ & _ & Hf). by exists s2.
Qed.

Section tiny.
Context (t : nat) (o : Z) (k : bytes) (fn : option A).

Definition tat (pc : tinyPC) s : Prop := s.(threads) !! t = Some (DoTiny o k fn pc).

Lemma tiny_step pc pc1 s s1 P :
  Inv s → tat pc s → tinyStep o k fn pc s = Some (s1, pc1) →
  (∀ s', Inv s' → tat pc1 s' → sameMemory s1 s' → reaches t s' P) → reaches t s P.
Proof. intros HI Ha Hs. eapply (reaches_step t s _ None); [done..|]. cbn. by rewrite Hs. Qed.

Lemma tiny_own pc e s :
  Inv s → tat pc s → pc = TOwn e ∨ (∃ c, pc = TStoreOwn c e) → live s e → reaches t s (isFinished t).
Proof.
  intros HI Ha Hpc (en & He & Hd).
  eapply (tiny_step pc (TReturned e en.(e_value))); [done..| |].
  - destruct Hpc as [-> |[? ->]]; cbn; rewrite (addOwner_live o e s en) by done; unfold valueOf; cbn;
      by rewrite list_lookup_insert_eq by (by eapply lookup_lt_Some).
  - intros s' HI' Ha' Hm. apply reaches_here; [done|]. by eexists.
Qed.

(** Storing the candidate ends the call, unless a deleted entry was in the way,
    which is then gone. *)
Lemma tiny_store c s :
  Inv s → tat (TStore c) s →
  reaches t s (λ s', isFinished t s' ∨ (tat TStart s' ∧ s'.(cache) !! k = None)).
Proof.
  intros HI Ha. destruct (s.(cache) !! k) as [e|] eqn:Hk.
  - eapply tiny_step; [done..|cbn; unfold LoadOrStore; by rewrite Hk|]. intros s1 HI1 Ha1 (_ & E1 & _).
    destruct (live_or_dead s1 e o) as [Hl|Hd].
    { eapply reaches_trans; [eapply tiny_own; eauto|]. intros. apply reaches_here; auto. }
    eapply tiny_step; [done..|cbn; by rewrite Hd|]. intros s2 HI2 Ha2 (_ & E2 & _).
    eapply tiny_step; [done..|]. intros s3 HI3 Ha3 (_ & E3 & _). apply reaches_here; [done|]. right.
    split; [done|]. rewrite E3. unfold CompareAndDelete. rewrite E2, E1, Hk, decide_True by done.
    cbn. rewrite E2, E1. by rewrite lookup_delete_eq.
  - destruct (call_candidate _ _ (inv_calls _ HI _ _ Ha) c eq_refl) as (_ & ? & v & Hc & _).
    injection Hc as _ Hfn. eapply tiny_step; [done..|cbn; unfold LoadOrStore; rewrite Hk; cbn; by rewrite Hfn|].
    intros s1 HI1 Ha1 _.
    apply reaches_here; [done|]. left. by eexists.
Qed.

Lemma tiny_call s :
  Inv s → tat TCall s → reaches t s (λ s', isFinished t s' ∨ (tat TStart s' ∧ s'.(cache) !! k = None)) ∧
    (s.(cache) !! k = None → reaches t s (isFinished t)).
Proof.
  intros HI Ha. destruct fn as [v|] eqn:Hfn.
  - split.
    + eapply tiny_step; [done..|cbn; by rewrite Hfn|]. intros s1 HI1 Ha1 _. by eapply tiny_store.
    + intros Hk. eapply tiny_step; [done..|cbn; by rewrite Hfn|]. intros s1 HI1 Ha1 (_ & E1 & _). cbn in E1.
      eapply tiny_step; [done..|cbn; unfold LoadOrStore; rewrite E1, Hk; cbn; by rewrite Hfn|].
      intros s2 HI2 Ha2 _. apply reaches_here; [done|]. by eexists.
  - assert (reaches t s (isFinished t)) as HR.
    { eapply tiny_step; [done..|cbn; by rewrite Hfn|]. intros s1 HI1 Ha1 _. apply reaches_here; [done|]. by eexists. }
    split; [|done]. eapply reaches_trans; [done|]. intros. apply reaches_here; auto.
Qed.

Lemma tiny_start_none s : Inv s → tat TStart s → s.(cache) !! k = None → reaches t s (isFinished t).
Proof.
  intros HI Ha Hk. eapply tiny_step; [done..|]. rewrite Hk. intros s1 HI1 Ha1 (_ & E1 & _).
  apply tiny_call; [done..|]. by rewrite E1.
Qed.

Lemma tiny_retry s :
  reaches t s (λ s', isFinished t s' ∨ (tat TStart s' ∧ s'.(cache) !! k = None)) → reaches t s (isFinished t).
Proof.
  intros HR. eapply reaches_trans; [done|]. intros s1 HI1 [Hf|[Ha Hk]]; [by apply reaches_here|].
  by apply tiny_start_none.
Qed.

Lemma tiny_own_finishes e s : Inv s → tat (TOwn e) s → reaches t s (isFinished t).
Proof.
  intros HI Ha. destruct (live_or_dead s e o) as [Hl|Hd]; [eapply tiny_own; eauto|].
  eapply tiny_step; [done..|cbn; by rewrite Hd|]. intros s1 HI1 Ha1 _. by apply tiny_retry, tiny_call.
Qed.

Lemma tiny_start s : Inv s → tat TStart s → reaches t s (isFinished t).
Proof.
  intros HI Ha. eapply tiny_step; [done..|]. intros s1 HI1 Ha1 _.
  destruct (s.(cache) !! k); [by eapply tiny_own_finishes|by apply tiny_retry, tiny_call].
Qed.

Lemma tiny_delete c e s : Inv s → tat (TStoreDelete c e) s → reaches t s (isFinished t).
Proof. intros HI Ha. eapply tiny_step; [done..|]. intros s1 HI1 Ha1 _. by apply tiny_start. Qed.

Lemma tiny_finishes pc s : Inv s → tat pc s → reaches t s (isFinished t).
Proof.
  intros HI Ha. destruct pc as [|e| |c|c e|c e|e v|].
  - by apply tiny_start.
  - by eapply tiny_own_finishes.
  - by apply tiny_retry, tiny_call.
  - by eapply tiny_retry, tiny_store.
  - destruct (live_or_dead s e o) as [Hl|Hd]; [eapply tiny_own; eauto|].
    eapply tiny_step; [done..|cbn; by rewrite Hd|]. intros s1 HI1 Ha1 _. by eapply tiny_delete.
  - by eapply tiny_delete.
  - apply reaches_here; [done|]. by eexists.
  - apply reaches_here; [done|]. by eexists.
Qed.
End tiny.

(** A range that cannot end has a key of its start to show. *)
Lemma range_progress r s :
  Inv s → rangeEnd r s = true ∨ ∃ k e r', rangeNext r (k, e) s = Some r' ∧ r'.(r_start) = r.(r_start) ∧
    (size (dom r'.(r_start) ∖ r'.(r_visited)) < size (dom r.(r_start) ∖ r.(r_visited)))%nat.
Proof.
  intros HI. destruct (rangeEnd r s) eqn:E; [by left|right].
  apply bool_decide_eq_false in E. apply map_not_Forall in E as (k & e & Hk & Hn); [|tc_solve].
  assert (s.(cache) !! k = Some e ∧ k ∉ r.(r_visited)) as [Hc Hv].
  { destruct (decide (s.(cache) !! k = Some e)), (decide (k ∈ r.(r_visited))); tauto. }
  exists k, e, (mkRange r.(r_start) r.(r_old) ({[k]} ∪ r.(r_visited))). split_and!; [|done|].
  - unfold rangeNext. rewrite decide_True; [done|]. split_and!; [done| |by left].
    by apply (mem_cache _ (inv_memory _ HI)).
  - cbn. apply subset_size. apply elem_of_dom_2 in Hk. set_solver.
Qed.

Lemma release_finishes t o n : ∀ r s,
  (size (dom r.(r_start) ∖ r.(r_visited)) < n)%nat → Inv s → s.(threads) !! t = Some (Release o (Ranging r)) →
  reaches t s (isFinished t).
Proof.
  induction n as [|n IH]; intros r s Hn HI Ha; [lia|].
  destruct (range_progress r s HI) as [He|(k & e & r' & Hnext & Hst & Hsize)].
  - eapply (reaches_step t s _ None); [done..|cbn; by rewrite He|]. intros s1 HI1 Ha1 _.
    apply reaches_here; [done|]. by eexists.
  - eapply (reaches_step t s _ (Some (k, e))); [done..|cbn; by rewrite Hnext|]. intros s1 HI1 Ha1 _.
    destruct (releaseOwner o e s1) as [s1' []] eqn:Hrel.
    + eapply (reaches_step t s1 _ None); [done..|cbn; by rewrite Hrel|]. intros s2 HI2 Ha2 _.
      eapply (reaches_step t s2 _ None); [done..|]. intros s3 HI3 Ha3 _. apply (IH r'); [lia|done..].
    + eapply (reaches_step t s1 _ None); [done..|cbn; by rewrite Hrel|]. intros s2 HI2 Ha2 _.
      apply (IH r'); [lia|done..].
Qed.

Lemma tinyDeleting_finishes t o : ∀ ps s,
  Inv s → s.(threads) !! t = Some (ReleaseTiny o (TDeleting ps)) → reaches t s (isFinished t).
Proof.
  induction ps as [|[k e] ps IH]; intros s HI Ha.
  - apply reaches_here; [done|]. by eexists.
  - eapply (reaches_step t s _ None); [done..|]. eauto.
Qed.

Lemma tinyRelease_finishes t o n : ∀ r ps s,
  (size (dom r.(r_start) ∖ r.(r_visited)) < n)%nat → Inv s →
  s.(threads) !! t = Some (ReleaseTiny o (TRanging r ps)) → reaches t s (isFinished t).
Proof.
  induction n as [|n IH]; intros r ps s Hn HI Ha; [lia|].
  destruct (range_progress r s HI) as [He|(k & e & r' & Hnext & Hst & Hsize)].
  - eapply (reaches_step t s _ None); [done..|cbn; by rewrite He|]. intros s1 HI1 Ha1 _.
    by eapply tinyDeleting_finishes.
  - eapply (reaches_step t s _ (Some (k, e))); [done..|cbn; by rewrite Hnext|]. intros s1 HI1 Ha1 _.
    destruct (releaseOwner o e s1) as [s1' gone] eqn:Hrel.
    eapply (reaches_step t s1 _ None); [done..|cbn; by rewrite Hrel|]. intros s2 HI2 Ha2 _.
    eapply (IH r'); [lia|done..].
Qed.

Lemma releases_finish t th s :
  Inv s → s.(threads) !! t = Some th → isRelease th = true → reaches t s (isFinished t).
Proof.
  intros HI Ht Hr. destruct th as [? ? ? pc|o [r|r k e|r k e|]|? ? ? pc|o [r ps|r ps k e|ps]]; try done.
  - eapply release_finishes; [apply Nat.lt_succ_diag_r|done..].
  - destruct (releaseOwner o e s) as [s' []] eqn:Hrel.
    + eapply (reaches_step t s _ None); [done..|cbn; by rewrite Hrel|]. intros s2 HI2 Ha2 _.
      eapply (reaches_step t s2 _ None); [done..|]. intros s3 HI3 Ha3 _. eapply release_finishes; [apply Nat.lt_succ_diag_r|done..].
    + eapply (reaches_step t s _ None); [done..|cbn; by rewrite Hrel|]. intros s2 HI2 Ha2 _.
      eapply release_finishes; [apply Nat.lt_succ_diag_r|done..].
  - eapply (reaches_step t s _ None); [done..|]. intros s3 HI3 Ha3 _. eapply release_finishes; [apply Nat.lt_succ_diag_r|done..].
  - apply reaches_here; [done|]. by eexists.
  - eapply tinyRelease_finishes; [apply Nat.lt_succ_diag_r|done..].
  - destruct (releaseOwner o e s) as [s' gone] eqn:Hrel.
    eapply (reaches_step t s _ None); [done..|cbn; by rewrite Hrel|]. intros s2 HI2 Ha2 _.
    eapply tinyRelease_finishes; [apply Nat.lt_succ_diag_r|done..].
  - by eapply tinyDeleting_finishes.
Qed.

(** C12: Whatever has happened, each call that has begun can complete by steps of the
    calls that have begun: no call waits for a flight that nobody leads, and no
    loop turns on an entry that stays deleted. *)
Theorem calls_complete t th s :
  reachable s → s.(threads) !! t = Some th → ∃ s', rtc run s s' ∧ isFinished t s'.
Proof.
  intros HI%reachable_Inv Ht. destruct (isRelease th) eqn:Hr.
  - destruct (releases_finish t th s HI Ht Hr) as (s' & ? & _ & _ & ?). by exists s'.
  - destruct th as [o k fn pc|o pc|o k fn pc|o pc]; try done.
    + by eapply do_completes.
    + destruct (tiny_finishes t o k fn pc s HI Ht) as (s' & ? & _ & _ & ?). by exists s'.
Qed.
End calls.

(** ** An execution *)

Fixpoint solo {A} (t : nat) (choices : list (option (bytes * nat))) (s : @state A) : option state :=
  match choices with [] => Some s | c :: cs => s ← runThread t c s; solo t cs s end.

(** A call of [Release] that runs alone. *)
Lemma solo_quiet {A} t o cs (s s' : @state A) th :
  Inv s → s.(threads) !! t = Some th → isRelease th = true → solo t cs s = Some s' → rtc (quiet o) s s'.
Proof.
  revert s th. induction cs as [|c cs IH]; intros s th HI Ht Hr; simpl.
  - intros [= <-]. apply rtc_refl.
  - intros (s1 & H1 & H2)%bind_Some. pose proof (Inv_run _ _ _ _ HI H1) as HI1. pose proof H1 as Hrun.
    apply bind_Some in H1 as (th0 & Ht0 & ([s2 th2] & Hs & [= <-])%bind_Some). simplify_eq.
    eapply rtc_l; [|eapply (IH _ th2); [done|cbn; by rewrite lookup_insert_eq| |done]].
    + split; [by eapply step_run|]. intros t2 th3 H3 Hn _. cbn.
      rewrite lookup_insert_ne by congruence.
      by rewrite (eff_threads _ _ _ (access_effect _ _ _ _ HI Ht (threadStep_access _ _ _ _ _ Hs))).
    + destruct (threadStep_static _ _ _ _ _ Hs) as (_ & -> & _). done.
Qed.

(** The first owner of the shared entry is released. *)
Definition releasingState : @state Z :=
  default initial (exec1 (Begin 2 (Release 1 (Ranging (rangeStart exampleState)))) exampleState).

Definition releaseMoves : list (option (bytes * nat)) := [Some (str "k", 0%nat); None; None].

Definition releasedState : @state Z := default initial (solo 2 releaseMoves releasingState).

Lemma releasingState_reachable : reachable releasingState.
Proof.
  apply (exec_steps (exampleMoves ++ [Begin 2 (Release 1 (Ranging (rangeStart exampleState)))])).
  vm_compute. reflexivity.
Qed.

Lemma Release_complete_witness : ¬ owns releasedState 1 0.
Proof.
  apply (Release_complete 1 2 (Release 1 (Ranging (rangeStart exampleState))) releasingState releasedState
    (Release 1 Released)) with (k := str "k").
  - exact releasingState_reachable.
  - vm_compute. reflexivity.
  - reflexivity.
  - reflexivity.
  - vm_compute. exact I.
  - apply (solo_quiet 2 1 releaseMoves _ _ (Release 1 (Ranging (rangeStart exampleState)))).
    + apply reachable_Inv, releasingState_reachable.
    + vm_compute. reflexivity.
    + reflexivity.
    + vm_compute. reflexivity.
  - vm_compute. reflexivity.
  - exact I.
  - vm_compute. reflexivity.
Defined.

Lemma calls_complete_witness : ∃ s', rtc run flyingState s' ∧ isFinished 1 s'.
Proof.
  apply (calls_complete 1 (Do 2 (str "k") (Some 8) (Wait 0)) flyingState).
  - apply (exec_steps (take 6 exampleMoves)). vm_compute. reflexivity.
  - vm_compute. reflexivity.
Defined.
