(* ===== verification/RuleParser.v ===== *)
(** The rule parser: src/internal/seclang/rule_parser.go, with the action
    registry of src/internal/actions/actions.go.

    The registries of operators and transformations are open to plugins and
    are parameters; so is [regexp.Compile].  The action registry is the one
    the package fills.  The parser threads the global table of
    transformation chains ([transformationIDs]); an error is [None].  A WAF
    is seen through its rule group, the state the parser reads and changes. *)

From S2P Require Import Prelude GoLib StringUtil UrlTransform Variables Types Collections.
From S2P Require Import BodyBuffer TransactionState Macro Rule Actions RuleGroup.

(** ** Actions of a rule line *)

(** An action as it is parsed; [F] is the fresh action of the registry that
    [Key] names.  The zero action has no type, and a nil [F]. *)
Record ruleAction := mkRuleAction { Key : bytes; Value : bytes; Atype : option ActionType }.

#[global] Instance ruleAction_eq_dec : EqDecision ruleAction.
Proof. solve_decision. Defined.

(** [actionmap] with the type each action reports. *)
Definition actionmap : list (bytes * ActionType) := [
  (str "accuracy", ActionTypeMetadata);
  (str "allow", ActionTypeDisruptive);
  (str "auditlog", ActionTypeNondisruptive);
  (str "block", ActionTypeDisruptive);
  (str "capture", ActionTypeNondisruptive);
  (str "chain", ActionTypeFlow);
  (str "ctl", ActionTypeNondisruptive);
  (str "deny", ActionTypeDisruptive);
  (str "drop", ActionTypeDisruptive);
  (str "exec", ActionTypeNondisruptive);
  (str "expirevar", ActionTypeNondisruptive);
  (str "id", ActionTypeMetadata);
  (str "initcol", ActionTypeNondisruptive);
  (str "log", ActionTypeNondisruptive);
  (str "logdata", ActionTypeNondisruptive);
  (str "maturity", ActionTypeMetadata);
  (str "msg", ActionTypeMetadata);
  (str "multimatch", ActionTypeNondisruptive);
  (str "noauditlog", ActionTypeNondisruptive);
  (str "nolog", ActionTypeNondisruptive);
  (str "pass", ActionTypeDisruptive);
  (str "phase", ActionTypeMetadata);
  (str "redirect", ActionTypeDisruptive);
  (str "rev", ActionTypeMetadata);
  (str "setenv", ActionTypeNondisruptive);
  (str "setvar", ActionTypeNondisruptive);
  (str "severity", ActionTypeMetadata);
  (str "skip", ActionTypeFlow);
  (str "skipafter", ActionTypeFlow);
  (str "status", ActionTypeData);
  (str "t", ActionTypeNondisruptive);
  (str "tag", ActionTypeMetadata);
  (str "ver", ActionTypeMetadata) ].

Definition isDisruptive (a : ruleAction) : bool := bool_decide (a.(Atype) = Some ActionTypeDisruptive).
Definition isMetadata (a : ruleAction) : bool := bool_decide (a.(Atype) = Some ActionTypeMetadata).

(** ** Strings of a rule line *)

(** The loop of [cutQuotedString] from position [i], with the backslashes
    counted before it: the position of the closing quote. *)
Fixpoint closingQuote (s : bytes) (i previousEscapeCount : nat) : option nat :=
  match s with
  | [] => None
  | c :: s =>
      if negb (c =? 0x22) then
        closingQuote s (S i) (if c =? 0x5c then S previousEscapeCount else O)
      else if (previousEscapeCount mod 2 =? 1)%nat then closingQuote s (S i) O
      else Some i
  end.

Definition cutQuotedString (s : bytes) : option (bytes * bytes) :=
  match s with
  | c :: t =>
      if negb (c =? 0x22) then None else
      i ← closingQuote t 1 0;
      Some (take (i + 1) s, drop (i + 1) s)
  | [] => None
  end.

Definition parseActionOperator (data : bytes) : run (option (bytes * bytes * bytes)) :=
  let data := Trim data [0x20] in
  let '(vars, rest, ok) := Cut data 0x20 in
  if negb ok then Done None else
  let rest := TrimLeft rest [0x20] in
  match rest with
  | [] => Done None
  | c :: _ =>
      if negb (c =? 0x22) then Done None else
      match cutQuotedString rest with
      | None => Done None
      | Some (op, rest) =>
          op ← MaybeRemoveQuotes op;
          let op := UnescapeQuotedString op in
          let rest := TrimLeft rest [0x20] in
          if (length rest =? 0)%nat then Done (Some (vars, op, [])) else
          if (length rest <? 2)%nat then Done None else
          r0 ← index rest 0;
          rl ← index rest (length rest - 1);
          if negb (r0 =? 0x22) || negb (rl =? 0x22) then Done None else
          actions ← MaybeRemoveQuotes rest;
          Done (Some (vars, op, actions))
      end
  end.

(** ** Configuration *)

Record ParserConfig := mkParserConfig {
  pc_DisabledRuleActions : list bytes;
  pc_DisabledRuleOperators : list bytes;
  pc_RuleDefaultActions : list bytes;
  pc_HasRuleDefaultActions : bool;
  pc_IgnoreRuleCompilationErrors : bool;
  pc_LastLine : Z;
  pc_ConfigFile : bytes;
  pc_ConfigDir : bytes;
  pc_WorkingDir : bytes;
}.
#[global] Instance ParserConfig_eta : Eta ParserConfig := λ x,
  mkParserConfig x.(pc_DisabledRuleActions) x.(pc_DisabledRuleOperators) x.(pc_RuleDefaultActions)
    x.(pc_HasRuleDefaultActions) x.(pc_IgnoreRuleCompilationErrors) x.(pc_LastLine) x.(pc_ConfigFile)
    x.(pc_ConfigDir) x.(pc_WorkingDir).

(** [plugintypes.OperatorOptions]; the file system root and the memoizer
    belong to the registry that is passed. *)
Record OperatorOptions := mkOperatorOptions {
  oo_Arguments : bytes;
  oo_Path : list bytes;
  oo_Datasets : gmap bytes (list bytes);
  oo_RxPreFilterEnabled : bool;
}.

Record RuleOptions := mkRuleOptions {
  ro_WithOperator : bool;
  ro_ParserConfig : ParserConfig;
  ro_Raw : bytes;
  ro_Data : bytes;
  ro_Datasets : gmap bytes (list bytes);
  ro_RxPreFilterEnabled : bool;
}.

Definition operatorFn : Type := Transaction → bytes → run (Transaction * bool).

(** ** The parsing monad: the table of transformation chains, and errors *)

Definition parse (A : Type) : Type := transformationIDs → run (transformationIDs * option A).

Definition ok {A} (a : A) : parse A := λ g, Done (g, Some a).
Definition fails {A} : parse A := λ g, Done (g, None).
Definition lift {A} (o : option A) : parse A := λ g, Done (g, o).
Definition liftR {A} (m : run (option A)) : parse A := λ g, o ← m; Done (g, o).
Definition pbind {A B} (m : parse A) (k : A → parse B) : parse B := λ g,
  '(g, o) ← m g; match o with Some a => k a g | None => Done (g, None) end.

Notation "x ←? m ; k" := (pbind m (λ x, k))
  (at level 20, m at level 100, k at level 200, only parsing) : coraza_scope.
Notation "' x ←? m ; k" := (pbind m (λ x, k))
  (at level 20, x pattern, m at level 100, k at level 200, only parsing) : coraza_scope.

Fixpoint pfold {A S} (f : S → A → parse S) (l : list A) (s : S) : parse S :=
  match l with [] => ok s | x :: l => s ←? f s x; pfold f l s end.

(** ** Default actions *)

(** The default actions are added first, the rule's own follow; the default
    disruptive action is appended unless the rule has one other than
    block.  [None] for [da] is the zero action. *)
Definition mergeDefaults (defaults : list ruleAction) : list ruleAction * option ruleAction :=
  foldl (λ '(res, da) action,
    if isDisruptive action then (res, Some action)
    else if isMetadata action then (res, da) else (res ++ [action], da)) ([], None) defaults.

Definition mergeOrigin (res : list ruleAction) (origin : list ruleAction) : list ruleAction * bool :=
  foldl (λ '(res, hasDa) action,
    if isDisruptive action
    then if negb (action.(Key) =s str "block") then (res ++ [action], true) else (res, hasDa)
    else (res ++ [action], hasDa)) (res, false) origin.

Definition zeroAction : ruleAction := mkRuleAction [] [] None.

Definition mergeActions (origin defaults : list ruleAction) : list ruleAction :=
  let '(res, da) := mergeDefaults defaults in
  let '(res, hasDa) := mergeOrigin res origin in
  if negb hasDa then res ++ [default zeroAction da] else res.

Definition hasDisruptiveActions (actions : list ruleAction) : bool := existsb isDisruptive actions.

Definition defaultActionsPhase2 : bytes := str "phase:2,log,auditlog,pass".

(** ** Parsing variables *)

(** The locals of [ParseVariables] with the rule: [curr] is 0 in the name of a
    variable, 1 in its key, 2 in a regular expression, 3 in an XPath. *)
Record pvState {R : Type} := mkPV {
  pv_curr : Z;
  pv_isNegation : bool;
  pv_isCount : bool;
  pv_curVar : bytes;
  pv_curKey : bytes;
  pv_isEscaped : bool;
  pv_isquoted : bool;
  pv_rule : R;
}.
Arguments pvState R : clear implicits.
Arguments mkPV {R}.
#[global] Instance pvState_eta {R} : Eta (pvState R) := λ x,
  mkPV x.(pv_curr) x.(pv_isNegation) x.(pv_isCount) x.(pv_curVar) x.(pv_curKey) x.(pv_isEscaped)
    x.(pv_isquoted) x.(pv_rule).

Section variables.
Context `{U : !Unicode}.
(** The rule and what adds a variable or an exception to it. *)
Context {R : Type}.
Context (addVariable : RuleVariable → bytes → bool → R → option R).
Context (addVariableNegation : RuleVariable → bytes → R → option R).

(** The end of a variable, at byte [c] followed by [next]; the result has the
    number of bytes to skip. *)
Definition endVariable (c : Z) (next : option Z) (st : pvState R) : option (nat * pvState R) :=
  let st :=
    if negb (c =? 0x7c) then
      if st.(pv_curr) =? 0 then st <| pv_curVar ::= (λ v, v ++ [c]) |>
      else if negb (st.(pv_curr) =? 2) && negb (c =? 0x2f) then st <| pv_curKey ::= (λ k, k ++ [c]) |>
      else st
    else st in
  v ← Parse st.(pv_curVar);
  if (st.(pv_curr) =? 1) && negb (CanBeSelected v) then None else
  if st.(pv_isquoted) && negb (bool_decide (next = Some 0x27)) && negb (c =? 0x27) then None else
  let skip := if st.(pv_isquoted) then 2%nat else if st.(pv_curr) =? 2 then 1%nat else 0%nat in
  let key := if st.(pv_curr) =? 2 then str "/" ++ st.(pv_curKey) ++ str "/" else st.(pv_curKey) in
  r ← (if st.(pv_isNegation) then addVariableNegation v key st.(pv_rule)
       else addVariable v key st.(pv_isCount) st.(pv_rule));
  Some (skip, mkPV 0 false false [] [] st.(pv_isEscaped) false r).

(** A byte inside a variable. *)
Definition stepVariable (c : Z) (st : pvState R) : pvState R :=
  let addKey st := st <| pv_curKey ::= (λ k, k ++ [c]) |> in
  if st.(pv_curr) =? 0 then
    if c =? 0x21 then st <| pv_isNegation := true |>
    else if c =? 0x26 then st <| pv_isCount := true |>
    else if c =? 0x3a then st <| pv_curr := 1 |>
    else st <| pv_curVar ::= (λ v, v ++ [c]) |>
  else if st.(pv_curr) =? 1 then
    if (length st.(pv_curKey) =? 0)%nat && ((st.(pv_curVar) =s str "XML") || (st.(pv_curVar) =s str "JSON"))
    then addKey (st <| pv_curr := 3 |>)
    else if c =? 0x2f then st <| pv_curr := 2 |>
    else if c =? 0x27 then st <| pv_isquoted := true |>
    else addKey st
  else if st.(pv_curr) =? 2 then
    if (c =? 0x2f) && negb st.(pv_isEscaped) then st <| pv_curr := 1 |>
    else if c =? 0x5c then addKey st <| pv_isEscaped ::= negb |>
    else addKey st <| pv_isEscaped := false |>
  else addKey st.

(** The loop on the bytes from the current one, [skip] of which the body of
    the loop has already passed. *)
Fixpoint parseVariablesLoop (s : bytes) (skip : nat) (st : pvState R) : option R :=
  match s with
  | [] => Some st.(pv_rule)
  | c :: s =>
      match skip with
      | S skip => parseVariablesLoop s skip st
      | O =>
          if ((c =? 0x7c) && negb (st.(pv_curr) =? 2)) || match s with [] => true | _ => false end
             || ((st.(pv_curr) =? 2) && (c =? 0x2f) && negb st.(pv_isEscaped))
          then '(skip, st) ← endVariable c (head s) st; parseVariablesLoop s skip st
          else parseVariablesLoop s 0 (stepVariable c st)
      end
  end.

Definition parseVariables (vars : bytes) (r : R) : option R :=
  parseVariablesLoop vars 0 (mkPV 0 false false [] [] false false r).
End variables.

Section parser.
Context `{U : !Unicode}.
Context (Compile : bytes → option regex).
(** The registries of transformations and operators. *)
Context (GetTransformation : bytes → option transformation).
Context (GetOperator : bytes → OperatorOptions → option operatorFn).

(** ** Parsing actions *)

(** [actionsmod.Get], as the type of the action it creates. *)
Definition getAction (name : bytes) : option ActionType :=
  snd <$> find (λ kt, kt.1 =s ToLower name) actionmap.

(** [None] for the index is [unset]. *)
Definition appendRuleAction (res : list ruleAction) (key val : bytes) (disruptiveActionIndex : option nat)
    : run (option (list ruleAction * option nat)) :=
  let key := ToLower (TrimSpace key) in
  val ← MaybeRemoveQuotes (TrimSpace val);
  match getAction key with
  | None => Done None
  | Some ty =>
      let a := mkRuleAction key val (Some ty) in
      match isDisruptive a, disruptiveActionIndex with
      | true, Some i => res ← store res i a; Done (Some (res, disruptiveActionIndex))
      | true, None => Done (Some (res ++ [a], Some (length res)))
      | false, _ => Done (Some (res ++ [a], disruptiveActionIndex))
      end
  end.

(** The locals of [parseActions]: [pa_key] is [beforeKey + 1], the index of
    the first byte of the key; [None] for [pa_afterKey] is -1. *)
Record paState := mkPA {
  pa_res : list ruleAction;
  pa_disruptive : option nat;
  pa_key : nat;
  pa_afterKey : option nat;
  pa_inQuotes : bool;
}.
#[global] Instance paState_eta : Eta paState := λ x,
  mkPA x.(pa_res) x.(pa_disruptive) x.(pa_key) x.(pa_afterKey) x.(pa_inQuotes).

(** The action between [pa_key] and [i]. *)
Definition closeAction (actions : bytes) (i : nat) (st : paState)
    : run (option (list ruleAction * option nat)) :=
  match st.(pa_afterKey) with
  | None =>
      key ← slice actions st.(pa_key) i;
      appendRuleAction st.(pa_res) key [] st.(pa_disruptive)
  | Some k =>
      val ← slice actions (k + 1) i;
      key ← slice actions st.(pa_key) k;
      appendRuleAction st.(pa_res) key val st.(pa_disruptive)
  end.

(** The loop of [parseActions] on [s], the bytes from [i]; [prev] is the byte
    before. *)
Fixpoint parseActionsLoop (actions s : bytes) (i : nat) (prev : Z) (st : paState)
    : run (option paState) :=
  match s with
  | [] => Done (Some st)
  | c :: s =>
      if prev =? 0x5c then parseActionsLoop actions s (S i) c st
      else if c =? 0x27 then parseActionsLoop actions s (S i) c (st <| pa_inQuotes ::= negb |>)
      else if st.(pa_inQuotes) then parseActionsLoop actions s (S i) c st
      else if c =? 0x3a then
        parseActionsLoop actions s (S i) c
          match st.(pa_afterKey) with Some _ => st | None => st <| pa_afterKey := Some i |> end
      else if c =? 0x2c then
        r ← closeAction actions i st;
        match r with
        | None => Done None
        | Some (res, d) => parseActionsLoop actions s (S i) c (mkPA res d (S i) None st.(pa_inQuotes))
        end
      else parseActionsLoop actions s (S i) c st
  end.

(** The warning on unclosed quotes is only logged. *)
Definition parseActions (actions : bytes) : run (option (list ruleAction)) :=
  let st := mkPA [] None 0 None false in
  r ← (match actions with
       | [] => Done (Some st)
       | c :: s => parseActionsLoop actions s 1 c st
       end : run (option paState));
  match r with
  | None => Done None
  | Some st =>
      r ← closeAction actions (length actions) st;
      Done (option_map fst r)
  end.

(** ** The rule parser *)

Definition defaultActions : Type := gmap Z (list ruleAction).

(** The checks of [ParseDefaultActions]: the phase and whether there is a
    disruptive action; a key is never empty. *)
Fixpoint defaultsLoop (act : list ruleAction) (phase : Z) (defaultDisruptive : bytes)
    : option (Z * bytes) :=
  match act with
  | [] => Some (phase, defaultDisruptive)
  | a :: act =>
      if a.(Key) =s str "phase" then
        phase ← ParseRulePhase a.(Value); defaultsLoop act phase defaultDisruptive
      else
        let defaultDisruptive := if isDisruptive a then a.(Key) else defaultDisruptive in
        if isMetadata a then None
        else if a.(Key) =s str "t" then None
        else defaultsLoop act phase defaultDisruptive
  end.

Definition ParseDefaultActions (actions : bytes) (d : defaultActions) : run (option defaultActions) :=
  r ← parseActions actions;
  Done (
    act ← r;
    '(phase, da) ← defaultsLoop act 0 [];
    if phase =? 0 then None
    else if da =s [] then None
    else match d !! phase with Some _ => None | None => Some (<[phase := act]> d) end).

(** [action.F.Init]: the initialised action and the changed rule. *)
Definition initialise (a : ruleAction) (r : Rule) : parse (Action * Rule) :=
  match a.(Atype) with
  | None => λ _, Panic
  | Some _ =>
      if a.(Key) =s str "t" then initT GetTransformation a.(Value) r
      else lift (initAction Compile a.(Key) a.(Value) r)
  end.

Definition applyMetadata (r : Rule) (a : ruleAction) : parse Rule :=
  if isMetadata a then '(_, r) ←? initialise a r; ok r else ok r.

Definition applyAction (r : Rule) (a : ruleAction) : parse Rule :=
  if isMetadata a then ok r
  else '(f, r) ←? initialise a r; ok (AddAction a.(Key) f r).

Definition applyParsedActions (cfg : ParserConfig) (d : defaultActions) (act : list ruleAction) (r : Rule)
    : parse Rule :=
  if existsb (λ a, InSlice a.(Key) cfg.(pc_DisabledRuleActions)) act then fails else
  r ←? pfold applyMetadata act r;
  let act := match d !! r_Phase r with Some defaults => mergeActions act defaults | None => act end in
  pfold applyAction act r.

Definition ParseActions (cfg : ParserConfig) (d : defaultActions) (actions : bytes) (r : Rule) : parse Rule :=
  act ←? liftR (parseActions actions); applyParsedActions cfg d act r.

(** [rp.ParseVariables] on the rule of the parser. *)
Definition ParseVariables (vars : bytes) (r : Rule) : option Rule :=
  parseVariables (AddVariable Compile) (AddVariableNegation Compile) vars r.

(** A default operator is @rx. *)
Definition explicitOperator (operator : bytes) : bytes :=
  match operator with
  | [] => str "@rx "
  | c :: rest =>
      if negb (c =? 0x40) && negb (c =? 0x21) then str "@rx " ++ operator
      else match rest with
           | [] => if operator =s str "!" then str "!@rx" else operator
           | d :: _ => if (c =? 0x21) && negb (d =? 0x40) then str "!@rx " ++ rest else operator
           end
  end.

(** The name of the operator without @ or !@. *)
Definition operatorName (op : bytes) : run bytes :=
  c ← index op 0;
  if c =? 0x40 then slice op 1 (length op)
  else if (2 <? length op)%nat then
    d ← index op 1;
    if (c =? 0x21) && (d =? 0x40) then slice op 2 (length op) else Done op
  else Done op.

Definition ParseOperator (o : RuleOptions) (operator : bytes) (r : Rule) : run (option Rule) :=
  let '(opRaw, opdataRaw, _) := Cut (explicitOperator operator) 0x20 in
  op ← operatorName (TrimSpace opRaw);
  let opdata := TrimSpace opdataRaw in
  let cfg := o.(ro_ParserConfig) in
  let path := [cfg.(pc_ConfigDir)] ++ (if cfg.(pc_WorkingDir) =s [] then [] else [cfg.(pc_WorkingDir)]) in
  let opts := mkOperatorOptions opdata path o.(ro_Datasets) o.(ro_RxPreFilterEnabled) in
  Done (opfn ← GetOperator op opts; Some (SetOperator opfn opRaw opdata r)).

(** ** Chains *)

(** Whether the last rule of the group misses a member of its chain. *)
Definition getLastRuleExpectingChain (rg : RuleGroup) : option ChainedRule :=
  c ← last rg;
  if (default c.(cr_rule) (last c.(cr_chain))).(r_HasChain) then Some c else None.

(** The parent of the chain with the rule that continues it. *)
Definition addToChain (parent : ChainedRule) (rule : Rule) (raw : bytes) : ChainedRule :=
  let rule := setMeta (λ m, m <| ParentID_ := cr_ID parent |>
                              <| LogID_ := parent.(cr_rule).(r_meta).(LogID_) |>
                              <| Phase_ := 0 |>) rule in
  mkChained (setMeta (λ m, m <| Raw_ ::= (λ s, s ++ str " " ++ [0x0a] ++ raw) |>) parent.(cr_rule))
    (parent.(cr_chain) ++ [rule]).

(** ** ParseRule *)

Definition rawDefaults (cfg : ParserConfig) : list bytes :=
  if cfg.(pc_HasRuleDefaultActions) then cfg.(pc_RuleDefaultActions) else [].

(** The default actions of each phase, parsed again for each rule. *)
Definition ruleDefaults (cfg : ParserConfig) : parse defaultActions :=
  d ←? pfold (λ d da, liftR (ParseDefaultActions da d)) (rawDefaults cfg) ∅;
  match d !! 2 with
  | Some _ => ok d
  | None => liftR (ParseDefaultActions defaultActionsPhase2 d)
  end.

(** The rule and the text of its actions. *)
Definition parseBody (o : RuleOptions) (d : defaultActions) : parse (Rule * bytes) :=
  let cfg := o.(ro_ParserConfig) in
  if o.(ro_WithOperator) then
    '(vars, operator, acts) ←? liftR (parseActionOperator o.(ro_Data));
    if InSlice operator cfg.(pc_DisabledRuleOperators) then fails else
    r ←? lift (ParseVariables vars NewRule);
    r ←? liftR (ParseOperator o operator r);
    if acts =s [] then ok (r, acts) else
    r ←? ParseActions cfg d acts r; ok (r, acts)
  else
    rawActions ←? liftR (Some <$> MaybeRemoveQuotes o.(ro_Data));
    r ←? ParseActions cfg d rawActions NewRule; ok (r, rawActions).

(** What [ParseRule] returns: an error, a rule, or nothing when the rule went
    into the chain of the last one. *)
Inductive parsed := ParseError | ParsedRule (r : Rule) | Chained.

(** The last rule of the group, whose chain the rule continues, is replaced
    in place. *)
Definition finishRuleParse (o : RuleOptions) (rg : RuleGroup) (rule : Rule) (rawActions : bytes)
    : run (RuleGroup * parsed) :=
  let cfg := o.(ro_ParserConfig) in
  let rule := setMeta (λ m, m <| File_ := cfg.(pc_ConfigFile) |> <| Line_ := cfg.(pc_LastLine) |>) rule in
  match getLastRuleExpectingChain rg with
  | Some parent =>
      parsed ← parseActions rawActions;
      if hasDisruptiveActions (default [] parsed) then Done (DiscardPendingChain rg, ParseError)
      else Done (removelast rg ++ [addToChain parent rule o.(ro_Raw)], Chained)
  | None => Done (rg, ParsedRule (setMeta (λ m, m <| Raw_ := o.(ro_Raw) |>) rule))
  end.

Definition ParseRule (o : RuleOptions) (rg : RuleGroup) (g : transformationIDs)
    : run (transformationIDs * (RuleGroup * parsed)) :=
  if TrimSpace o.(ro_Data) =s [] then Done (g, (rg, ParseError)) else
  '(g, body) ← (d ←? ruleDefaults o.(ro_ParserConfig); parseBody o d) g;
  match body with
  | None => Done (g, (rg, ParseError))
  | Some (rule, rawActions) => res ← finishRuleParse o rg rule rawActions; Done (g, res)
  end.
End parser.

(** * The registry *)

Section registry.
Context `{U : !Unicode}.
Context (Compile : bytes → option regex) (GetTransformation : bytes → option transformation).

(** What initialising an action other than t leaves alone. *)
Record init_frame (a : Action) (r r' : Rule) : Prop := {
  fr_actions : r_actions r' = r_actions r;
  fr_variables : r_variables r' = r_variables r;
  fr_operator : r_operator r' = r_operator r;
  fr_transformations : r_transformations r' = r_transformations r ∧
    r_transformationsID r' = r_transformationsID r ∧
    r_transformationPrefixIDs r' = r_transformationPrefixIDs r;
  fr_meta : actionType a ≠ ActionTypeMetadata → r_meta r' = r_meta r;
  fr_parent : r_ParentID r' = r_ParentID r;
}.

(** An action that initialises is the one the registry announces: same name,
    same type; it changes only the settings of the rule. *)
Lemma initAction_spec name data r a r' :
  initAction Compile name data r = Some (a, r') → getAction name = Some (actionType a) ∧ init_frame a r r'.
Proof.
  unfold initAction, getAction. generalize (ToLower name) as n. intros n H.
  repeat match type of H with
  | (if ?b then _ else _) = Some _ => destruct b eqn:?E
  end; [..|done].
  all: match goal with E : (_ =s _) = true |- _ => apply bytes_eqb_eq in E as -> end.
  all: unfold accuracyInit, allowInit, auditlogInit, blockInit, captureInit, chainInit, ctlInit, denyInit,
    dropInit, execInit, expirevarInit, idInit, initcolInit, logInit, logdataInit, maturityInit, msgInit,
    multimatchInit, noauditlogInit, nologInit, passInit, phaseInit, redirectInit, revInit, setenvInit,
    setvarInit, severityInit, skipInit, skipafterInit, statusInit, tagInit, verInit, someArgs, noArgs in H.
  all: match goal with |- ?x = _ ∧ _ => let y := eval vm_compute in x in change x with y end.
  all: repeat first [progress simplify_option_eq | case_match].
  all: by split.
Qed.

Lemma initialise_type a r g g' f r' :
  initialise Compile GetTransformation a r g = Done (g', Some (f, r')) →
  getAction a.(Key) = Some (actionType f).
Proof.
  unfold initialise. case_match; [|done]. destruct (_ =s str "t") eqn:E.
  - apply bytes_eqb_eq in E. rewrite E. intros Hi. assert (f = AT) as ->.
    { revert Hi. unfold initT. case_match; [by intros [= <- <- <-]|]. case_match; [|done].
      destruct (AddTransformation _ _ _ _) as [[g1 [r1|]]| |]; [|done..]. by intros [= <- <- <-]. }
    unfold getAction. by rewrite ToLower_ascii by (by apply asciib_true).
  - unfold lift. intros [= _ Hi]. by eapply initAction_spec.
Qed.
End registry.

(** * Parsing actions *)

Section actions.
Context `{U : !Unicode}.

Lemma Forall_snoc_2 {A} (P : A → Prop) l x : Forall P l → P x → Forall P (l ++ [x]).
Proof. intros Hl Hx. apply Forall_app_2; [done|]. by apply Forall_singleton. Qed.

(** The list has no disruptive action, or exactly the one at the index. *)
Definition oneDisruptive (res : list ruleAction) (d : option nat) : Prop :=
  match d with
  | None => Forall (λ a, isDisruptive a = false) res
  | Some i => ∃ l1 a l2, res = l1 ++ a :: l2 ∧ length l1 = i ∧ isDisruptive a = true ∧
      Forall (λ a, isDisruptive a = false) (l1 ++ l2)
  end.

(** The registry's type of each parsed action. *)
Definition typed (a : ruleAction) : Prop := a.(Atype) = getAction a.(Key) ∧ is_Some a.(Atype).

Lemma appendRuleAction_wp res key val d :
  oneDisruptive res d → Forall typed res →
  wp (appendRuleAction res key val d) (λ o, ∀ res' d', o = Some (res', d') →
    oneDisruptive res' d' ∧ Forall typed res').
Proof.
  intros Hd Ht. unfold appendRuleAction. destruct (MaybeRemoveQuotes_spec (TrimSpace val)) as (v & -> & _).
  run_simpl. destruct (getAction _) as [ty|] eqn:Eg; [|done]. set (a := mkRuleAction _ _ _).
  assert (typed a) as Ha by (split; [by symmetry|eauto]).
  destruct (isDisruptive a) eqn:Ea; [destruct d as [i|]|].
  - destruct Hd as (l1 & b & l2 & -> & Hi & Hb & Hnd). rewrite store_lt by (rewrite length_app; simpl; lia).
    run_simpl. intros res' d' [= <- <-]. rewrite insert_app_r_alt, <- Hi, Nat.sub_diag by lia. simpl. split.
    + by exists l1, a, l2.
    + apply Forall_app in Ht as [Ht1 Ht2]. apply Forall_app. split; [done|].
      inversion Ht2; subst. by constructor.
  - intros res' d' [= <- <-]. split; [|by apply Forall_snoc_2].
    exists res, a, []. by rewrite app_nil_r.
  - intros res' d' [= <- <-]. split; [|by apply Forall_snoc_2].
    destruct d as [i|]; [|by apply Forall_snoc_2].
    destruct Hd as (l1 & b & l2 & -> & Hi & Hb & Hnd). exists l1, b, (l2 ++ [a]).
    rewrite <- app_assoc. repeat split; [done..|]. rewrite app_assoc. by apply Forall_snoc_2.
Qed.

Record pa_ok (i : nat) (st : paState) : Prop := {
  pa_one : oneDisruptive st.(pa_res) st.(pa_disruptive);
  pa_typed : Forall typed st.(pa_res);
  pa_start : (st.(pa_key) ≤ i)%nat;
  pa_colon k : st.(pa_afterKey) = Some k → (st.(pa_key) ≤ k < i)%nat;
}.

Lemma closeAction_wp actions i st :
  pa_ok i st → (i ≤ length actions)%nat →
  wp (closeAction actions i st) (λ o, ∀ res d, o = Some (res, d) → oneDisruptive res d ∧ Forall typed res).
Proof.
  intros [H1 H2 H3 H4] Hi. unfold closeAction. destruct (pa_afterKey st) as [k|].
  - specialize (H4 k eq_refl). rewrite !slice_ok by lia. run_simpl. by apply appendRuleAction_wp.
  - rewrite slice_ok by lia. run_simpl. by apply appendRuleAction_wp.
Qed.

Lemma parseActionsLoop_wp actions s : ∀ i prev st,
  pa_ok i st → length actions = (i + length s)%nat →
  wp (parseActionsLoop actions s i prev st) (λ o, ∀ st', o = Some st' → pa_ok (length actions) st').
Proof.
  induction s as [|c s IH]; intros i prev st Hst Hlen.
  { intros st' [= <-]. simpl in Hlen. by rewrite Hlen, Nat.add_0_r. }
  assert (∀ st, pa_ok i st → pa_ok (S i) st) as Hmono.
  { intros st1 [H1 H2 H3 H4]. split; [done..|lia|]. intros k Hk. specialize (H4 k Hk). lia. }
  cbn [length] in Hlen. cbn [parseActionsLoop].
  destruct (prev =? 0x5c); [apply IH; [by apply Hmono|lia]|].
  destruct (c =? 0x27); [apply IH; [|lia]; by destruct (Hmono st Hst)|].
  destruct (pa_inQuotes st); [apply IH; [by apply Hmono|lia]|].
  destruct (c =? 0x3a).
  { apply IH; [|lia]. destruct (pa_afterKey st) as [k|] eqn:Ek; [by apply Hmono|].
    destruct Hst as [H1 H2 H3 H4]. split; [done..|simpl; lia|]. cbn. intros k [= <-]. lia. }
  destruct (c =? 0x2c); [|apply IH; [by apply Hmono|lia]].
  eapply wp_bind; [apply closeAction_wp; [done|lia]|]. intros [[res d]|] H; [|done].
  destruct (H res d eq_refl). by apply IH; [split|lia].
Qed.

Lemma parseActions_wp actions :
  wp (parseActions actions) (λ o, ∀ res, o = Some res → (∃ d, oneDisruptive res d) ∧ Forall typed res).
Proof.
  unfold parseActions. cbv zeta. eapply wp_bind with (R := λ o, ∀ st, o = Some st → pa_ok (length actions) st).
  { assert (pa_ok 0 (mkPA [] None 0 None false)) as H by (by split; [apply Forall_nil_2|apply Forall_nil_2|simpl; lia|]).
    destruct actions as [|c s]; [by intros st [= <-]|]. apply parseActionsLoop_wp; [|done].
    destruct H. split; [done..|simpl; lia|done]. }
  intros [st|] Hst; [|done]. eapply wp_bind; [apply closeAction_wp; [by apply Hst|done]|].
  intros [[res d]|] H; [|done]. intros res' [= <-]. destruct (H res d eq_refl). eauto.
Qed.
End actions.
