(* ===== verification/RuleSyntax.v ===== *)
(** The texts the rule parser reads back: the action list, the quoted
    operator and the list of variables of a rule line, each printed from its
    parts and parsed by src/internal/seclang/rule_parser.go. *)

From S2P Require Import Prelude GoLib StringUtil UrlTransform Variables Types Collections.
From S2P Require Import BodyBuffer TransactionState Macro Rule Actions RuleGroup RuleParser.

(** ** Action lists *)

(** An action is a key and a text for its value. *)
Definition actionText (kv : bytes * option bytes) : bytes :=
  kv.1 ++ match kv.2 with Some v => 0x3a :: v | None => [] end.

(** The bytes [parseActions] gives a meaning to outside quotes. *)
Definition plainByte (c : Z) : bool := negb (byte_in c [0x3a; 0x2c; 0x27; 0x5c]).

(** The state of the quotes after a value, with the last byte read; [None] if
    a comma ends the value before. *)
Fixpoint scanValue (s : bytes) (prev : Z) (inQuotes : bool) : option (Z * bool) :=
  match s with
  | [] => Some (prev, inQuotes)
  | c :: s =>
      if prev =? 0x5c then scanValue s c inQuotes
      else if c =? 0x27 then scanValue s c (negb inQuotes)
      else if inQuotes then scanValue s c inQuotes
      else if c =? 0x2c then None
      else scanValue s c inQuotes
  end.

(** A value that the next comma ends. *)
Definition valueText (v : bytes) : Prop := ∃ p, scanValue v 0x3a false = Some (p, false) ∧ p ≠ 0x5c.

Record segment (kv : bytes * option bytes) : Prop := {
  seg_key : kv.1 ≠ [];
  seg_plain : Forall (λ c, plainByte c = true) kv.1;
  seg_value v : kv.2 = Some v → valueText v;
}.

(** A value is written bare or between single quotes. *)
Inductive value := Bare (v : bytes) | Quoted (v : bytes).
Definition valueOf (v : value) : bytes := match v with Bare v | Quoted v => v end.
Definition written (v : value) : bytes := match v with Bare v => v | Quoted v => [0x27] ++ v ++ [0x27] end.

(** Bytes that are ASCII, not space and not control. *)
Definition tightByte (c : Z) : bool := (0x21 <=? c) && (c <? 0x7f).

(** A text that a quote ends and nothing inside does: the quotes in it follow
    a backslash, its last byte is not one. *)
Fixpoint quotable (v : bytes) (prev : Z) : bool :=
  match v with
  | [] => negb (prev =? 0x5c)
  | c :: v => (negb (c =? 0x27) || (prev =? 0x5c)) && quotable v c
  end.

Definition bareByte (c : Z) : bool := tightByte c && negb (byte_in c [0x2c; 0x27; 0x22; 0x5c]).

Definition writable (v : value) : Prop :=
  match v with
  | Bare v => v ≠ [] ∧ Forall (λ c, bareByte c = true) v
  | Quoted v => quotable v 0x27 = true
  end.

Definition printAction (kv : bytes * option value) : bytes := actionText (kv.1, written <$> kv.2).

Definition printable (kv : bytes * option value) : Prop :=
  kv.1 ∈ actionmap.*1 ∧ ∀ v, kv.2 = Some v → writable v.

(** What an action of the registry parses to. *)
Definition toAction (kv : bytes * option value) : ruleAction :=
  mkRuleAction kv.1 (default [] (valueOf <$> kv.2)) (snd <$> find (λ kt, kt.1 =s kv.1) actionmap).

(** At most one disruptive action is kept: the last one, at the place of the
    first. *)
Definition disruptives (l : list ruleAction) : list ruleAction := filter (λ a, isDisruptive a = true) l.
Definition nondisruptives (l : list ruleAction) : list ruleAction := filter (λ a, isDisruptive a = false) l.

Fixpoint keepLast (l : list ruleAction) : list ruleAction :=
  match l with
  | [] => []
  | a :: l =>
      if isDisruptive a then default a (last (disruptives l)) :: nondisruptives l
      else a :: keepLast l
  end.

Section text.
Context `{U : !Unicode}.

Fixpoint appendAll (l : list (bytes * option bytes)) (res : list ruleAction) (d : option nat)
    : run (option (list ruleAction)) :=
  match l with
  | [] => Done (Some res)
  | (k, v) :: l =>
      r ← appendRuleAction res k (default [] v) d;
      match r with None => Done None | Some (res, d) => appendAll l res d end
  end.

Lemma appendAll_cons k v l res d :
  appendAll ((k, v) :: l) res d =
    (r ← appendRuleAction res k (default [] v) d;
     match r with None => Done None | Some (res, d) => appendAll l res d end).
Proof. done. Qed.

Lemma plainByte_true c : plainByte c = true →
  (c =? 0x3a) = false ∧ (c =? 0x2c) = false ∧ (c =? 0x27) = false ∧ (c =? 0x5c) = false.
Proof. unfold plainByte, byte_in. simpl. lia. Qed.

Lemma loop_key actions k : Forall (λ c, plainByte c = true) k → ∀ rest i prev st,
  st.(pa_inQuotes) = false → (prev =? 0x5c) = false →
  ∃ p, (p =? 0x5c) = false ∧
    parseActionsLoop actions (k ++ rest) i prev st = parseActionsLoop actions rest (i + length k) p st.
Proof.
  induction 1 as [|c k Hc Hk IH]; intros rest i prev st Hq Hp.
  { exists prev. simpl. by rewrite Nat.add_0_r. }
  apply plainByte_true in Hc as (H1 & H2 & H3 & H4).
  destruct (IH rest (S i) c st Hq H4) as (p & Hp' & E). exists p. split; [done|].
  cbn [app parseActionsLoop length]. rewrite Hp, H3, Hq, H1, H2, E. f_equal. lia.
Qed.

Lemma loop_value actions v : ∀ rest i prev st p q k,
  scanValue v prev st.(pa_inQuotes) = Some (p, q) → st.(pa_afterKey) = Some k →
  parseActionsLoop actions (v ++ rest) i prev st =
    parseActionsLoop actions rest (i + length v) p (st <| pa_inQuotes := q |>).
Proof.
  induction v as [|c v IH]; intros rest i prev st p q k Hs Hk.
  { injection Hs as <- <-. simpl. rewrite Nat.add_0_r. by destruct st. }
  cbn [app parseActionsLoop length]. cbn [scanValue] in Hs. rewrite Nat.add_succ_r, <- Nat.add_succ_l.
  destruct (prev =? 0x5c); [by eapply IH|].
  destruct (c =? 0x27); [by rewrite (IH _ _ _ _ p q k)|].
  destruct (pa_inQuotes st) eqn:Eq; [rewrite <- Eq in Hs; by eapply IH|].
  destruct (Z.eqb_spec c 0x3a) as [->|Hc].
  - rewrite Hk. eapply IH; [by rewrite Eq|done].
  - destruct (c =? 0x2c); [done|]. eapply IH; [by rewrite Eq|done].
Qed.

(** Reading one action up to its end, and closing it there. *)
Lemma loop_segment actions kv pre rest prev res d :
  segment kv → actions = pre ++ actionText kv ++ rest → (prev =? 0x5c) = false →
  ∃ p st, (p =? 0x5c) = false ∧ st.(pa_inQuotes) = false ∧
    parseActionsLoop actions (actionText kv ++ rest) (length pre) prev (mkPA res d (length pre) None false) =
      parseActionsLoop actions rest (length (pre ++ actionText kv)) p st ∧
    closeAction actions (length (pre ++ actionText kv)) st = appendRuleAction res kv.1 (default [] kv.2) d.
Proof.
  intros [Hne Hpl Hval] -> Hprev. destruct kv as [k [v|]]; unfold actionText in *; cbn [fst snd] in *.
  - destruct (Hval v eq_refl) as (p & Hp & Hpne). rewrite <- !app_assoc.
    destruct (loop_key (pre ++ k ++ (0x3a :: v) ++ rest) k Hpl ((0x3a :: v) ++ rest) (length pre) prev
      (mkPA res d (length pre) None false) eq_refl Hprev) as (p1 & Hp1 & ->).
    cbn [app parseActionsLoop]. rewrite Hp1. cbn [Z.eqb Pos.eqb pa_inQuotes pa_afterKey].
    exists p, (mkPA res d (length pre) (Some (length pre + length k)%nat) false).
    split_and!; [by apply Z.eqb_neq|done| |].
    + rewrite (loop_value _ v _ _ _ _ p false (length pre + length k)%nat) by done.
      cbn. f_equal. rewrite !length_app. simpl. lia.
    + unfold closeAction. cbn [pa_afterKey pa_key pa_res pa_disruptive].
      rewrite !slice_ok by (rewrite !length_app; simpl; rewrite ?length_app; lia). run_simpl. f_equal.
      * rewrite drop_app_length, take_app_length'; [done|]. lia.
      * rewrite !length_app. cbn [length]. rewrite (app_assoc pre k), <- (drop_drop _ 1 _).
        rewrite drop_app_length' by (rewrite length_app; lia). cbn [drop].
        rewrite drop_0. change (default [] (Some v)) with v. apply take_app_length'. lia.
  - rewrite app_nil_r. destruct (loop_key (pre ++ k ++ rest) k Hpl rest (length pre) prev
      (mkPA res d (length pre) None false) eq_refl Hprev) as (p1 & Hp1 & ->).
    exists p1, (mkPA res d (length pre) None false). split_and!; [done..|by rewrite length_app|].
    unfold closeAction. cbn [pa_afterKey pa_key pa_res pa_disruptive].
    rewrite slice_ok by (rewrite !length_app; lia). run_simpl. f_equal.
    rewrite drop_app_length. apply take_app_length'. rewrite length_app. lia.
Qed.

(** [parseActions] reads a list of actions back, whatever commas and colons
    their quoted values have: it appends them in order. *)
Lemma parseActionsLoop_text actions l : l ≠ [] → Forall segment l → ∀ pre prev res d,
  actions = pre ++ Join (actionText <$> l) 0x2c → (prev =? 0x5c) = false →
  (r ← parseActionsLoop actions (Join (actionText <$> l) 0x2c) (length pre) prev
         (mkPA res d (length pre) None false);
   match r with
   | None => Done None
   | Some st => r ← closeAction actions (length actions) st; Done (option_map fst r)
   end) = appendAll l res d.
Proof.
  intros Hne Hl. induction Hl as [|kv l Hkv Hl IH]; [done|]. intros pre prev res d Ha Hprev.
  destruct l as [|kv2 l].
  - cbn [fmap list_fmap Join] in *.
    destruct (loop_segment actions kv pre [] prev res d) as (p & st & _ & _ & E & Ec);
      [done|by rewrite app_nil_r|done|].
    rewrite app_nil_r in E. rewrite E. cbn [parseActionsLoop mbind run_bind].
    assert (length actions = length (pre ++ actionText kv)) as -> by (by rewrite Ha). rewrite Ec. destruct kv as [k v]. cbn [fst snd appendAll].
    destruct (appendRuleAction _ _ _ _) as [[[res' d']|]| |]; done.
  - rewrite (fmap_cons _ kv), Join_cons in Ha |- * by done. set (rest := Join _ _) in *.
    destruct (loop_segment actions kv pre (0x2c :: rest) prev res d) as (p & st & Hp & Hq & E & Ec); [done..|].
    rewrite E. cbn [parseActionsLoop]. rewrite Hp, Hq. cbn [Z.eqb Pos.eqb]. rewrite Ec.
    destruct kv as [k v]. rewrite appendAll_cons. cbn [fst snd].
    destruct (appendRuleAction _ _ _ _) as [[[res' d']|]| |]; [|done..]. run_simpl.
    specialize (IH ltac:(done) (pre ++ actionText (k, v) ++ [0x2c]) 0x2c res' d').
    rewrite <- IH; [|by rewrite Ha, <- !app_assoc|done].
    replace (length (pre ++ actionText (k, v) ++ [0x2c])) with (S (length (pre ++ actionText (k, v)))).
    + done.
    + rewrite app_assoc, (length_app _ [_]). simpl. lia.
Qed.

Lemma parseActions_text l : l ≠ [] → Forall segment l →
  parseActions (Join (actionText <$> l) 0x2c) = appendAll l [] None.
Proof.
  intros Hne Hl. rewrite <- (parseActionsLoop_text (Join (actionText <$> l) 0x2c) l Hne Hl [] 0 [] None) by done.
  unfold parseActions. cbv zeta.
  assert (∃ c s, Join (actionText <$> l) 0x2c = c :: s ∧ plainByte c = true) as (c & s & E & Hc).
  { destruct Hl as [|[[|c k] v] l [Hk Hp _] _]; [done..|]. inversion Hp; subst.
    destruct l; simpl; eauto. }
  rewrite E. apply plainByte_true in Hc as (H1 & H2 & H3 & H4).
  cbn [length parseActionsLoop pa_inQuotes]. by rewrite H3, H1, H2.
Qed.

(** A text between two visible bytes has no space to trim. *)
Lemma trimLeftSpaces_tight n c s : tightByte c = true → trimLeftSpaces n (c :: s) = c :: s.
Proof.
  intros Hc. unfold tightByte in Hc. destruct n; [done|]. cbn [trimLeftSpaces].
  rewrite DecodeRune_ascii by (unfold RuneSelf; lia).
  assert (IsSpace c = false) as -> by (unfold IsSpace, in_range; lia). done.
Qed.

Lemma trimRightSpaces_tight n s c : tightByte c = true → trimRightSpaces n (s ++ [c]) = s ++ [c].
Proof.
  intros Hc. destruct n; [done|]. cbn [trimRightSpaces].
  destruct (list_find _ spaceRunes) as [[i r]|] eqn:E; [|done]. exfalso.
  apply list_find_Some in E as (Hr & Hs & _). apply list_elem_of_lookup_2 in Hr.
  unfold HasSuffix in Hs. rewrite reverse_snoc in Hs.
  assert (Forall (λ r, match reverse (EncodeRune r) with x :: _ => tightByte x | [] => true end = false)
    spaceRunes) as HF.
  { apply (bool_decide_eq_true_1 _). by vm_compute. }
  rewrite Forall_forall in HF. specialize (HF r Hr). destruct (reverse (EncodeRune r)) as [|x e]; [done|].
  cbn [HasPrefix] in Hs. assert (x = c) as -> by lia. congruence.
Qed.

Lemma TrimSpace_tight c s d :
  tightByte c = true → tightByte d = true → TrimSpace (c :: s ++ [d]) = c :: s ++ [d].
Proof.
  intros Hc Hd. unfold TrimSpace. cbv zeta. rewrite trimLeftSpaces_tight by done.
  by apply (trimRightSpaces_tight _ (c :: s)).
Qed.

Lemma TrimSpace_key k : k ≠ [] → Forall (λ c, tightByte c = true) k → TrimSpace k = k.
Proof.
  intros Hne Hk. destruct k as [|c k]; [done|]. destruct k as [|d k _] using rev_ind.
  - unfold TrimSpace. cbv zeta. rewrite trimLeftSpaces_tight by (by inversion Hk).
    apply (trimRightSpaces_tight _ []). by inversion Hk.
  - apply Forall_cons in Hk as [Hc Hk]. apply Forall_app in Hk as [_ Hd].
    apply TrimSpace_tight; [done|by inversion Hd].
Qed.

Lemma registered_key k : k ∈ actionmap.*1 →
  k ≠ [] ∧ Forall (λ c, tightByte c = true) k ∧ Forall (λ c, plainByte c = true) k ∧ ToLower k = k ∧
  is_Some (find (λ kt, kt.1 =s k) actionmap).
Proof.
  intros Hk. assert (Forall (λ k, bool_decide (k ≠ []) && bool_decide (Forall (λ c, tightByte c = true) k) &&
    bool_decide (Forall (λ c, plainByte c = true) k) &&
    asciib k && bool_decide (lowerByte <$> k = k) && bool_decide (is_Some (find (λ kt, kt.1 =s k) actionmap))
    = true) (actionmap.*1)) as HF.
  { apply (bool_decide_eq_true_1 _). by vm_compute. }
  rewrite Forall_forall in HF. specialize (HF k Hk). rewrite !andb_true_iff, !bool_decide_eq_true in HF.
  destruct HF as (((((H1 & H2) & H3) & H4) & H5) & H6). split_and!; [done..| |done].
  by rewrite ToLower_ascii by (by apply asciib_true).
Qed.

Lemma scan_quoted v : ∀ prev, quotable v prev = true →
  scanValue (v ++ [0x27]) prev true = Some (0x27, false).
Proof.
  induction v as [|c v IH]; intros prev H; cbn [quotable app scanValue] in *.
  - by apply negb_true_iff in H as ->.
  - apply andb_true_iff in H as [H1 H2]. destruct (prev =? 0x5c); [by apply IH|].
    destruct (c =? 0x27); [done|]. by apply IH.
Qed.

Lemma scan_bare v : Forall (λ c, bareByte c = true) v → ∀ prev, (prev =? 0x5c) = false →
  ∃ p, scanValue v prev false = Some (p, false) ∧ p ≠ 0x5c.
Proof.
  induction 1 as [|c v Hc Hv IH]; intros prev Hp; [exists prev; split; [done|lia]|].
  cbn [scanValue]. rewrite Hp. unfold bareByte, byte_in in Hc. simpl in Hc.
  replace (c =? 0x27) with false by lia. replace (c =? 0x2c) with false by lia. apply IH. lia.
Qed.

(** The texts of a value: the next comma ends them, and they are read back. *)
Lemma written_text v : writable v → valueText (written v).
Proof.
  destruct v as [v|v]; cbn [writable written].
  - intros [_ Hv]. by apply scan_bare.
  - intros Hv. exists 0x27. split; [|done]. cbn [app scanValue Z.eqb Pos.eqb]. by apply scan_quoted.
Qed.

Lemma written_read v : writable v → MaybeRemoveQuotes (TrimSpace (written v)) = Done (valueOf v).
Proof.
  destruct (MaybeRemoveQuotes_spec (written v)) as (r & Hr & Hspec).
  destruct v as [v|v]; cbn [writable written valueOf] in *.
  - intros [Hne Hv]. rewrite TrimSpace_key; [|done|].
    + rewrite Hr. f_equal. destruct Hspec as [(q & Hq & ->)|[-> _]]; [|done]. exfalso.
      apply Forall_cons in Hv as [Hc _]. unfold bareByte, byte_in in Hc. simpl in Hc. lia.
    + eapply Forall_impl; [done|]. unfold bareByte. intros c Hc. lia.
  - intros _. change ([0x27] ++ v ++ [0x27]) with (0x27 :: v ++ [0x27]) in *. rewrite (TrimSpace_tight 0x27 v 0x27), Hr by done. f_equal.
    destruct Hspec as [(q & _ & E)|[_ H]]; [|exfalso; by apply (H 0x27 v); [right|]].
    injection E as -> E. by apply app_inj_2 in E as [-> _].
Qed.

Lemma printable_segment kv : printable kv → segment (kv.1, written <$> kv.2).
Proof.
  intros [Hk Hv]. apply registered_key in Hk as (H1 & _ & H3 & _). split; [done..|].
  cbn. intros v Ev. destruct (kv.2) as [w|]; [|done]. injection Ev as <-. by apply written_text, Hv.
Qed.

(** Appending a printed action. *)
Lemma appendRuleAction_printed res kv d : printable kv →
  appendRuleAction res kv.1 (default [] (written <$> kv.2)) d =
    match isDisruptive (toAction kv), d with
    | true, Some i => res ← store res i (toAction kv); Done (Some (res, d))
    | true, None => Done (Some (res ++ [toAction kv], Some (length res)))
    | false, _ => Done (Some (res ++ [toAction kv], d))
    end.
Proof.
  intros [Hk Hv]. apply registered_key in Hk as (H1 & H2 & _ & H4 & [[k ty] Hf]).
  unfold appendRuleAction. cbv zeta. rewrite (TrimSpace_key kv.1) by done. rewrite H4.
  assert (MaybeRemoveQuotes (TrimSpace (default [] (written <$> kv.2))) = Done (default [] (valueOf <$> kv.2)))
    as ->.
  { destruct kv as [k' [v|]]; [|done]. by apply written_read, Hv. }
  run_simpl. unfold getAction, toAction. rewrite H4, Hf. cbn [fmap option_fmap option_map snd]. by destruct d.
Qed.

Definition texts (l : list (bytes * option value)) : list (bytes * option bytes) :=
  (λ kv : bytes * option value, (kv.1, written <$> kv.2)) <$> l.

Lemma texts_cons kv l : texts (kv :: l) = (kv.1, written <$> kv.2) :: texts l.
Proof. done. Qed.

Lemma appendAll_one l l1 z l2 : Forall printable l →
  Forall (λ a, isDisruptive a = false) l1 →
  appendAll (texts l) (l1 ++ z :: l2) (Some (length l1)) =
    Done (Some (l1 ++ default z (last (disruptives (toAction <$> l))) :: l2 ++ nondisruptives (toAction <$> l))).
Proof.
  intros Hl H1. revert z l2. induction Hl as [|kv l Hkv Hl IH]; intros z l2.
  { simpl. by rewrite app_nil_r. }
  rewrite texts_cons, !fmap_cons, appendAll_cons, appendRuleAction_printed by done.
  unfold disruptives, nondisruptives. rewrite !filter_cons. destruct (isDisruptive (toAction kv)).
  - rewrite store_lt by (rewrite length_app; simpl; lia). run_simpl.
    rewrite insert_app_r_alt, Nat.sub_diag by lia. cbn [insert list_insert]. rewrite IH.
    rewrite decide_True, decide_False by done. do 3 f_equal. rewrite last_cons. unfold disruptives. f_equal. by case_match.
  - run_simpl. rewrite <- app_assoc, <- app_comm_cons, IH, decide_False, decide_True by done.
    by rewrite <- app_assoc.
Qed.

Lemma appendAll_none l l1 : Forall printable l → Forall (λ a, isDisruptive a = false) l1 →
  appendAll (texts l) l1 None = Done (Some (l1 ++ keepLast (toAction <$> l))).
Proof.
  intros Hl. revert l1. induction Hl as [|kv l Hkv Hl IH]; intros l1 H1.
  { simpl. by rewrite app_nil_r. }
  rewrite texts_cons, !fmap_cons, appendAll_cons, appendRuleAction_printed by done.
  cbn [keepLast]. destruct (isDisruptive (toAction kv)) eqn:E.
  - run_simpl. by rewrite appendAll_one.
  - run_simpl. rewrite IH by (by apply Forall_snoc_2). by rewrite <- app_assoc.
Qed.

Lemma parseActions_printed l : l ≠ [] → Forall printable l →
  parseActions (Join (printAction <$> l) 0x2c) = Done (Some (keepLast (toAction <$> l))).
Proof.
  intros Hne Hl. replace (printAction <$> l) with (actionText <$> texts l)
    by (unfold texts; by rewrite <- list_fmap_compose).
  rewrite parseActions_text.
  - by apply appendAll_none.
  - by destruct l.
  - apply Forall_fmap. by eapply Forall_impl; [|apply printable_segment].
Qed.

(** C31: A printed action list, with any bytes in the quoted values, parses to its
    actions with their values, of which the last disruptive one takes the place of the first
    and the others are dropped. *)
Theorem parseActions_print l : l ≠ [] → Forall printable l →
  parseActions (Join (printAction <$> l) 0x2c) = Done (Some (keepLast (toAction <$> l))).
Proof. apply parseActions_printed. Qed.
End text.

(** ** Operators *)

(** Every run of backslashes before a double quote, or at the end, is even. *)
Fixpoint balanced (s : bytes) (n : nat) : bool :=
  match s with
  | [] => Nat.even n
  | c :: s =>
      if c =? 0x22 then Nat.even n && balanced s 0
      else balanced s (if c =? 0x5c then S n else O)
  end.

Definition quote (s : bytes) : bytes := 0x22 :: s ++ [0x22].

Lemma mod2_even n : (n mod 2 =? 1)%nat = negb (Nat.even n).
Proof.
  destruct (Nat.even n) eqn:E.
  - apply Nat.even_spec in E as [m ->]. by rewrite Nat.mul_comm, Nat.Div0.mod_mul.
  - assert (Nat.odd n = true) as [m ->]%Nat.odd_spec by (unfold Nat.odd; by rewrite E).
    by rewrite Nat.add_comm, Nat.mul_comm, Nat.Div0.mod_add.
Qed.

Lemma closingQuote_escape op rest : ∀ i n, balanced op n = true →
  closingQuote (escapeQuotes op ++ 0x22 :: rest) i n = Some (i + length (escapeQuotes op))%nat.
Proof.
  induction op as [|c op IH]; intros i n H; cbn [balanced] in H.
  - cbn [escapeQuotes flat_map app closingQuote Z.eqb Pos.eqb negb length].
    rewrite mod2_even, H. cbn [negb]. f_equal. lia.
  - change (escapeQuotes (c :: op)) with ((if c =? 0x22 then [0x5c; 0x22] else [c]) ++ escapeQuotes op).
    rewrite <- app_assoc, length_app. destruct (c =? 0x22) eqn:Ec.
    + apply andb_true_iff in H as [Hn H]. cbn [app closingQuote Z.eqb Pos.eqb negb length].
      rewrite mod2_even, Nat.even_succ, <- Nat.negb_even, Hn. cbn [negb]. rewrite IH by done. f_equal. lia.
    + cbn [app closingQuote length]. rewrite Ec. cbn [negb]. rewrite IH by done. f_equal. lia.
Qed.

Lemma cutQuotedString_quote op rest : balanced op 0 = true →
  cutQuotedString (quote (escapeQuotes op) ++ rest) = Some (quote (escapeQuotes op), rest).
Proof.
  intros H. unfold cutQuotedString, quote. cbn [app Z.eqb Pos.eqb negb]. rewrite <- app_assoc.
  cbn [app]. rewrite closingQuote_escape by done. cbn [mbind option_bind]. f_equal.
  replace (1 + length (escapeQuotes op) + 1)%nat with (length (0x22 :: escapeQuotes op ++ [0x22]))
    by (simpl; rewrite length_app; simpl; lia).
  replace (0x22 :: escapeQuotes op ++ 0x22 :: rest) with ((0x22 :: escapeQuotes op ++ [0x22]) ++ rest)
    by (simpl; by rewrite <- app_assoc).
  by rewrite take_app_length, drop_app_length.
Qed.

Lemma MaybeRemoveQuotes_quote s : MaybeRemoveQuotes (quote s) = Done s.
Proof.
  destruct (MaybeRemoveQuotes_spec (quote s)) as (r & -> & [(q & _ & E)|[_ H]]).
  - injection E as -> E. by apply app_inj_2 in E as [-> _].
  - exfalso. by apply (H 0x22 s); [left|].
Qed.

(** A rule line: variables, a quoted operator, and quoted actions if any. *)
Definition printRule (vars op : bytes) (acts : option bytes) : bytes :=
  vars ++ [0x20] ++ quote (escapeQuotes op) ++ match acts with Some a => 0x20 :: quote a | None => [] end.

Lemma Trim_ends c s d x : c ≠ x → d ≠ x → Trim (c :: s ++ [d]) [x] = c :: s ++ [d].
Proof.
  intros Hc Hd. unfold Trim, TrimRight. cbn [TrimLeft].
  replace (byte_in c [x]) with false by (unfold byte_in; simpl; lia).
  rewrite app_comm_cons, reverse_snoc. cbn [TrimLeft].
  replace (byte_in d [x]) with false by (unfold byte_in; simpl; lia).
  by rewrite reverse_cons, reverse_involutive.
Qed.

Lemma printRule_ends vars op acts : vars ≠ [] → Forall (λ c, c ≠ 0x20) vars →
  Trim (printRule vars op acts) [0x20] = printRule vars op acts.
Proof.
  intros Hne Hv. destruct vars as [|c vars]; [done|]. apply Forall_cons in Hv as [Hc _].
  assert (∃ s, printRule (c :: vars) op acts = c :: s ++ [0x22]) as [s ->]; [|by apply Trim_ends].
  unfold printRule, quote. destruct acts as [a|].
  - exists (vars ++ [0x20] ++ (0x22 :: escapeQuotes op ++ [0x22]) ++ 0x20 :: 0x22 :: a).
    by repeat (cbn [app]; rewrite <- app_assoc).
  - exists (vars ++ [0x20] ++ (0x22 :: escapeQuotes op)). rewrite app_nil_r.
    by repeat (cbn [app]; rewrite <- app_assoc).
Qed.

(** A rule line is cut into its variables, its operator with the quotes in it
    unescaped, and the text of its actions. *)
Theorem parseActionOperator_print vars op acts :
  vars ≠ [] → Forall (λ c, c ≠ 0x20) vars → balanced op 0 = true →
  parseActionOperator (printRule vars op acts) = Done (Some (vars, op, default [] acts)).
Proof.
  intros Hne Hv Hop. unfold parseActionOperator. cbv zeta. rewrite printRule_ends by done.
  unfold printRule. cbn [app]. rewrite Cut_first by done. cbn [negb].
  set (rest := match acts with Some a => _ | None => _ end).
  unfold quote at 1. cbn [app TrimLeft]. unfold byte_in at 1. cbn [existsb Z.eqb Pos.eqb orb negb].
  change (TrimLeft (quote (escapeQuotes op) ++ rest) [0x20]) with (quote (escapeQuotes op) ++ rest).
  rewrite cutQuotedString_quote, MaybeRemoveQuotes_quote by done. unfold rest. run_simpl.
  rewrite UnescapeQuotedString_escape. destruct acts as [a|]; [|done].
  change (TrimLeft (0x20 :: quote a) [0x20]) with (quote a).
  assert (∃ n, length (quote a) = S (S n)) as [n Hn].
  { exists (length a). unfold quote. simpl. rewrite length_app. simpl. lia. }
  rewrite Hn. cbn [Nat.eqb Nat.ltb Nat.leb Nat.sub].
  rewrite (index_Some _ 0 0x22) by done.
  rewrite (index_Some (quote a) (S n) 0x22).
  - run_simpl. by rewrite MaybeRemoveQuotes_quote.
  - unfold quote in *. simpl in *. rewrite length_app in Hn. simpl in Hn.
    rewrite lookup_app_r by lia. by replace (n - length a)%nat with 0%nat by lia.
Qed.

(** ** Variables *)

(** What a target of a rule selects in its variable. *)
Inductive selector := Whole | ByKey (k : bytes) | ByXPath (p : bytes) | ByRegex (rx : bytes) | ByQuotedRegex (rx : bytes).

Record target := mkTarget { tg_negation : bool; tg_count : bool; tg_variable : RuleVariable; tg_selector : selector }.

Definition printSelector (s : selector) : bytes :=
  match s with
  | Whole => []
  | ByKey k | ByXPath k => 0x3a :: k
  | ByRegex rx => str ":/" ++ rx ++ str "/"
  | ByQuotedRegex rx => str ":'/" ++ rx ++ str "/'"
  end.

Definition printTarget (t : target) : bytes :=
  (if t.(tg_negation) then str "!" else []) ++ (if t.(tg_count) then str "&" else []) ++
  Name t.(tg_variable) ++ printSelector t.(tg_selector).

(** The key the rule is given. *)
Definition selectorKey (s : selector) : bytes :=
  match s with
  | Whole => []
  | ByKey k | ByXPath k => k
  | ByRegex rx | ByQuotedRegex rx => str "/" ++ rx ++ str "/"
  end.

(** A body of a regular expression that the next slash ends: its slashes are
    escaped, its last backslash is not an escape. *)
Fixpoint rxBody (s : bytes) (isEscaped : bool) : bool :=
  match s with
  | [] => negb isEscaped
  | c :: s =>
      if (c =? 0x2f) && negb isEscaped then false
      else rxBody s (if c =? 0x5c then negb isEscaped else false)
  end.

Definition nameByte (c : Z) : bool := negb (byte_in c [0x7c; 0x21; 0x26; 0x3a]).
Definition keyByte (c : Z) : bool := negb (byte_in c [0x7c; 0x2f; 0x27]).

Definition isPath (v : RuleVariable) : bool := (Name v =s str "XML") || (Name v =s str "JSON").

Definition selectable (v : RuleVariable) (s : selector) : Prop :=
  match s with
  | Whole => True
  | ByKey k => k ≠ [] ∧ Forall (λ c, keyByte c = true) k ∧ CanBeSelected v = true ∧ isPath v = false
  | ByXPath p => ∃ c q d, p = c :: q ++ [d] ∧ d ≠ 0x2f ∧ Forall (λ c, c ≠ 0x7c) p ∧ isPath v = true
  | ByRegex rx | ByQuotedRegex rx => rxBody rx false = true ∧ isPath v = false
  end.

Section variables.
Context `{U : !Unicode} {R : Type}.
Context (addVariable : RuleVariable → bytes → bool → R → option R).
Context (addVariableNegation : RuleVariable → bytes → R → option R).

Definition addTarget (t : target) (r : R) : option R :=
  let key := selectorKey t.(tg_selector) in
  if t.(tg_negation) then addVariableNegation t.(tg_variable) key r
  else addVariable t.(tg_variable) key t.(tg_count) r.

Fixpoint addTargets (l : list target) (r : R) : option R :=
  match l with [] => Some r | t :: l => r ← addTarget t r; addTargets l r end.

Notation loop := (parseVariablesLoop addVariable addVariableNegation).

Definition start (r : R) : pvState R := mkPV 0 false false [] [] false false r.

(** The end of a variable outside a regular expression. *)
Definition finish (st : pvState R) : option (pvState R) := snd <$> endVariable addVariable addVariableNegation 0x7c None st.

Definition addVar (w : bytes) (st : pvState R) : pvState R := st <| pv_curVar ::= (λ v, v ++ w) |>.
Definition addKey (w : bytes) (st : pvState R) : pvState R := st <| pv_curKey ::= (λ k, k ++ w) |>.

Lemma addVar_app v w st : addVar w (addVar v st) = addVar (v ++ w) st.
Proof. unfold addVar. destruct st. unfold setf. cbn. by rewrite app_assoc. Qed.

Lemma addKey_app v w st : addKey w (addKey v st) = addKey (v ++ w) st.
Proof. unfold addKey. destruct st. unfold setf. cbn. by rewrite app_assoc. Qed.

Lemma addVar_nil st : addVar [] st = st.
Proof. unfold addVar. destruct st. unfold setf. cbn. by rewrite app_nil_r. Qed.

Lemma addKey_nil st : addKey [] st = st.
Proof. unfold addKey. destruct st. unfold setf. cbn. by rewrite app_nil_r. Qed.

(** A byte that is not the end of a variable. *)
Lemma loop_step c s st :
  s ≠ [] → ((c =? 0x7c) && negb (st.(pv_curr) =? 2)) = false →
  ((st.(pv_curr) =? 2) && (c =? 0x2f) && negb st.(pv_isEscaped)) = false →
  loop (c :: s) 0 st = loop s 0 (stepVariable c st).
Proof. intros Hs H1 H2. cbn [parseVariablesLoop]. rewrite H1, H2. by destruct s. Qed.

Lemma loop_name w : Forall (λ c, nameByte c = true) w → ∀ s st, s ≠ [] → st.(pv_curr) = 0 →
  loop (w ++ s) 0 st = loop s 0 (addVar w st).
Proof.
  induction 1 as [|c w Hc Hw IH]; intros s st Hs Hst; [by rewrite addVar_nil|].
  unfold nameByte, byte_in in Hc. simpl in Hc. cbn [app]. rewrite loop_step.
  - assert (stepVariable c st = addVar [c] st) as ->.
    { unfold stepVariable, addVar. rewrite Hst. cbn [Z.eqb].
      by replace (c =? 0x21) with false by lia; replace (c =? 0x26) with false by lia;
        replace (c =? 0x3a) with false by lia. }
    rewrite IH by (by destruct st). by rewrite addVar_app.
  - by destruct w.
  - lia.
  - by rewrite Hst.
Qed.

Definition pathVar (st : pvState R) : bool := (st.(pv_curVar) =s str "XML") || (st.(pv_curVar) =s str "JSON").

Lemma loop_keyword w : Forall (λ c, keyByte c = true) w → ∀ s st, s ≠ [] → st.(pv_curr) = 1 →
  pathVar st = false → loop (w ++ s) 0 st = loop s 0 (addKey w st).
Proof.
  induction 1 as [|c w Hc Hw IH]; intros s st Hs Hst Hp; [by rewrite addKey_nil|].
  unfold keyByte, byte_in in Hc. simpl in Hc. cbn [app]. rewrite loop_step.
  - assert (stepVariable c st = addKey [c] st) as ->.
    { unfold stepVariable, addKey. rewrite Hst. cbn [Z.eqb]. unfold pathVar in Hp. rewrite Hp, andb_false_r.
      by replace (c =? 0x2f) with false by lia; replace (c =? 0x27) with false by lia. }
    rewrite IH by (by destruct st). by rewrite addKey_app.
  - by destruct w.
  - lia.
  - by rewrite Hst.
Qed.

Lemma loop_xpath w : Forall (λ c, c ≠ 0x7c) w → ∀ s st, s ≠ [] → st.(pv_curr) = 3 →
  loop (w ++ s) 0 st = loop s 0 (addKey w st).
Proof.
  induction 1 as [|c w Hc Hw IH]; intros s st Hs Hst; [by rewrite addKey_nil|].
  cbn [app]. rewrite loop_step.
  - assert (stepVariable c st = addKey [c] st) as -> by (unfold stepVariable, addKey; by rewrite Hst).
    rewrite IH by (by destruct st). by rewrite addKey_app.
  - by destruct w.
  - lia.
  - by rewrite Hst.
Qed.

Lemma loop_regex w : ∀ s st, s ≠ [] → st.(pv_curr) = 2 → rxBody w st.(pv_isEscaped) = true →
  loop (w ++ s) 0 st = loop s 0 (addKey w st <| pv_isEscaped := false |>).
Proof.
  induction w as [|c w IH]; intros s st Hs Hst H; cbn [rxBody] in H.
  { rewrite addKey_nil. apply negb_true_iff in H. destruct st. simpl in *. by subst. }
  destruct ((c =? 0x2f) && negb (pv_isEscaped st)) eqn:E; [done|]. cbn [app]. rewrite loop_step.
  - assert (stepVariable c st = addKey [c] st <| pv_isEscaped := if c =? 0x5c then negb st.(pv_isEscaped) else false |>)
      as ->.
    { unfold stepVariable, addKey. rewrite Hst. cbn [Z.eqb Pos.eqb]. rewrite E. destruct st; by case_match. }
    rewrite IH by (by destruct st). f_equal. unfold addKey. destruct st. unfold setf. cbn. by rewrite <- app_assoc.
  - by destruct w.
  - rewrite Hst. lia.
  - rewrite Hst. lia.
Qed.

(** The end of a target: a pipe, or the end of the text. *)
Definition ends (rest rest' : bytes) : Prop := (rest = [] ∧ rest' = []) ∨ rest = 0x7c :: rest'.

Lemma loop_pipe rest st : (st.(pv_curr) =? 2) = false → st.(pv_isquoted) = false →
  loop (0x7c :: rest) 0 st = (st' ← finish st; loop rest 0 st').
Proof.
  intros H2 Hq. cbn [parseVariablesLoop]. rewrite H2. unfold finish, endVariable.
  cbn [Z.eqb Pos.eqb andb negb orb]. rewrite H2, Hq. cbn [andb]. destruct (Parse _) as [v|]; [|done]. cbn [mbind option_bind].
  destruct (_ && _); [done|]. by destruct (if pv_isNegation st then _ else _).
Qed.

Lemma loop_last c st : (st.(pv_curr) =? 2) = false → st.(pv_isquoted) = false → c ≠ 0x7c →
  st.(pv_curr) = 0 ∨ c ≠ 0x2f →
  loop [c] 0 st = (st' ← finish (if st.(pv_curr) =? 0 then addVar [c] st else addKey [c] st); loop [] 0 st').
Proof.
  intros H2 Hq Hc Hs. cbn [parseVariablesLoop]. rewrite orb_true_r. cbn [orb].
  unfold finish, endVariable. rewrite H2. replace (c =? 0x7c) with false by lia. cbn [negb andb Z.eqb Pos.eqb head].
  assert ((if st.(pv_curr) =? 0 then st <| pv_curVar ::= (λ v, v ++ [c]) |>
    else if negb (c =? 0x2f) then st <| pv_curKey ::= (λ k, k ++ [c]) |> else st) =
    (if st.(pv_curr) =? 0 then addVar [c] st else addKey [c] st)) as ->.
  { destruct (Z.eqb_spec st.(pv_curr) 0); [done|]. by replace (c =? 0x2f) with false by lia. }
  set (st1 := if pv_curr st =? 0 then addVar [c] st else addKey [c] st).
  assert (pv_curr st1 = pv_curr st ∧ pv_isquoted st1 = false) as [E1 ->]
    by (unfold st1; case_match; by destruct st).
  rewrite E1, H2. destruct (Parse _) as [v|]; [|done]. cbn [mbind option_bind andb].
  destruct (_ && _); [done|]. by destruct (if pv_isNegation st1 then _ else _).
Qed.

(** A word read to the end of its target, in the name, the key or the path. *)
Lemma loop_word (good : Z → bool) (add : bytes → pvState R → pvState R) st w rest rest' :
  (∀ w s, Forall (λ c, good c = true) w → s ≠ [] → loop (w ++ s) 0 st = loop s 0 (add w st)) →
  (∀ w c, add (w ++ [c]) st =
    if (add w st).(pv_curr) =? 0 then addVar [c] (add w st) else addKey [c] (add w st)) →
  (∀ w, ((add w st).(pv_curr) =? 2) = false ∧ (add w st).(pv_isquoted) = false) →
  ends rest rest' → w ≠ [] → Forall (λ c, good c = true) w →
  (∀ c, last w = Some c → c ≠ 0x7c ∧ ((add (removelast w) st).(pv_curr) = 0 ∨ c ≠ 0x2f)) →
  loop (w ++ rest) 0 st = (st' ← finish (add w st); loop rest' 0 st').
Proof.
  intros Hread Hadd Hcurr [[-> ->]| ->] Hne Hw Hlast.
  - destruct w as [|c w _] using rev_ind; [done|]. apply Forall_app in Hw as [Hw _].
    rewrite last_snoc in Hlast. destruct (Hlast c eq_refl) as [H1 H2]. rewrite removelast_last in H2.
    rewrite app_nil_r, Hread, Hadd by done. apply loop_last; [apply Hcurr..|done|done].
  - rewrite Hread by done. apply loop_pipe; apply Hcurr.
Qed.

Lemma Parse_own v : Parse (Name v) = Some v.
Proof. apply Parse_Name, Name_upper. Qed.

Lemma finish_eq curr neg cnt v key r : (curr =? 2) = false → ((curr =? 1) = true → CanBeSelected v = true) →
  finish (mkPV curr neg cnt (Name v) key false false r) =
    start <$> (if neg then addVariableNegation v key r else addVariable v key cnt r).
Proof.
  intros H2 H1. unfold finish, endVariable. cbn [Z.eqb Pos.eqb negb pv_curVar pv_curr pv_isquoted andb].
  rewrite Parse_own. cbn [mbind option_bind]. rewrite H2.
  assert ((curr =? 1) && negb (CanBeSelected v) = false) as ->.
  { destruct (curr =? 1); [|done]. by rewrite H1. }
  cbn [pv_isNegation pv_curKey pv_isCount pv_rule pv_isEscaped]. by destruct (if neg then _ else _).
Qed.

Lemma loop_flags neg cnt s r : s ≠ [] →
  loop ((if neg : bool then str "!" else []) ++ (if cnt : bool then str "&" else []) ++ s) 0 (start r) =
    loop s 0 (mkPV 0 neg cnt [] [] false false r).
Proof.
  intros Hs. change (str "!") with [0x21]. change (str "&") with [0x26].
  destruct neg, cnt; cbn [app]; by repeat rewrite loop_step by done.
Qed.

Lemma Name_bytes v : Name v ≠ [] ∧ Forall (λ c, nameByte c = true) (Name v).
Proof.
  pose proof (forall_variables (λ v, bool_decide (Name v ≠ []) && bool_decide (Forall (λ c, nameByte c = true) (Name v)))
    ltac:(by vm_compute) v) as H.
  by rewrite andb_true_iff, !bool_decide_eq_true in H.
Qed.

(** The name of a variable, up to the colon. *)
Lemma loop_colon neg cnt v s r : s ≠ [] →
  loop (Name v ++ 0x3a :: s) 0 (mkPV 0 neg cnt [] [] false false r) =
    loop s 0 (mkPV 1 neg cnt (Name v) [] false false r).
Proof.
  intros Hs. rewrite loop_name by (done || apply Name_bytes). by rewrite loop_step.
Qed.

(** The slash that closes a regular expression, with its quote. *)
Lemma loop_close neg cnt v rx (q : bool) rest rest' r : ends rest rest' →
  loop (0x2f :: (if q then [0x27] else []) ++ rest) 0 (mkPV 2 neg cnt (Name v) rx false q r) =
    (r' ← (if neg then addVariableNegation v (str "/" ++ rx ++ str "/") r
           else addVariable v (str "/" ++ rx ++ str "/") cnt r); loop rest' 0 (start r')).
Proof.
  intros Hr. cbn [parseVariablesLoop Z.eqb Pos.eqb andb negb pv_curr pv_isEscaped orb].
  rewrite orb_true_r. unfold endVariable. cbn [Z.eqb Pos.eqb negb pv_curVar pv_curr pv_isquoted andb].
  rewrite Parse_own. cbn [mbind option_bind].
  assert (q && negb (bool_decide (head ((if q then [0x27] else []) ++ rest) = Some 0x27)) = false) as -> by (by destruct q).
  cbn [andb pv_isNegation pv_curKey pv_isCount pv_rule pv_isEscaped].
  destruct (if neg then _ else _) as [r'|]; [|done]. cbn [mbind option_bind].
  destruct q, Hr as [[-> ->]| ->]; done.
Qed.

(** The state after the flags, and the variable with its key added. *)
Notation flagged neg cnt r := (mkPV 0 neg cnt [] [] false false r) (only parsing).

Definition added (neg cnt : bool) (v : RuleVariable) (key rest : bytes) (r : R) : option R :=
  r' ← (if neg then addVariableNegation v key r else addVariable v key cnt r);
  loop rest 0 (start r').

Lemma finish_added curr neg cnt v key r rest :
  (curr =? 2) = false → ((curr =? 1) = true → CanBeSelected v = true) →
  (st' ← finish (mkPV curr neg cnt (Name v) key false false r); loop rest 0 st') = added neg cnt v key rest r.
Proof. intros H2 H1. rewrite finish_eq by done. unfold added. by destruct (if neg then _ else _). Qed.

Lemma target_whole neg cnt v r rest rest' : ends rest rest' →
  loop (Name v ++ rest) 0 (flagged neg cnt r) = added neg cnt v [] rest' r.
Proof.
  intros Hr. rewrite (loop_word nameByte addVar _ (Name v) rest rest'); [by apply (finish_added 0)|..]; try done.
  - intros w s Hw Hne. by apply loop_name.
  - apply Name_bytes.
  - apply Name_bytes.
  - intros c Hc%last_Some_elem_of. split; [|by left].
    pose proof (proj2 (Name_bytes v)) as HF. rewrite Forall_forall in HF. specialize (HF c Hc).
    unfold nameByte, byte_in in HF. simpl in HF. lia.
Qed.

Lemma target_key neg cnt v k r rest rest' : selectable v (ByKey k) → ends rest rest' →
  loop (Name v ++ 0x3a :: k ++ rest) 0 (flagged neg cnt r) = added neg cnt v k rest' r.
Proof.
  intros (Hne & Hk & Hsel & Hp) Hr. rewrite loop_colon by (by destruct k).
  rewrite (loop_word keyByte addKey _ k rest rest'); [by apply (finish_added 1)|..]; try done.
  - intros w s Hw Hs. by apply loop_keyword.
  - intros c Hc%last_Some_elem_of. rewrite Forall_forall in Hk. specialize (Hk c Hc).
    unfold keyByte, byte_in in Hk. simpl in Hk. split; [lia|right; lia].
Qed.

Lemma target_path neg cnt v p r rest rest' : selectable v (ByXPath p) → ends rest rest' →
  loop (Name v ++ 0x3a :: p ++ rest) 0 (flagged neg cnt r) = added neg cnt v p rest' r.
Proof.
  intros (c & q & d & -> & Hd & Hk & Hp) Hr. rewrite <- !app_comm_cons, loop_colon by done.
  apply Forall_cons in Hk as [Hc Hk]. rewrite loop_step; [|by destruct q|simpl; lia|done].
  unfold stepVariable. cbn [pv_curr Z.eqb Pos.eqb pv_curKey length Nat.eqb andb pv_curVar].
  unfold isPath in Hp. rewrite Hp.
  rewrite (loop_word (λ c, negb (c =? 0x7c)) addKey _ (q ++ [d]) rest rest');
    [by apply (finish_added 3)|..]; try done.
  - intros w s Hw Hs. apply loop_xpath; [|done..]. eapply Forall_impl; [done|]. intros x Hx. simpl in Hx. lia.
  - by destruct q.
  - eapply Forall_impl; [done|]. intros x Hx. simpl in *. lia.
  - intros x. rewrite last_snoc. intros [= <-]. split; [|by right].
    apply Forall_app in Hk as [_ Hk]. by inversion Hk.
Qed.

Lemma target_regex neg cnt v rx (q : bool) r rest rest' :
  rxBody rx false = true → isPath v = false → ends rest rest' →
  loop (Name v ++ 0x3a :: (if q then [0x27] else []) ++ 0x2f :: rx ++ 0x2f :: (if q then [0x27] else []) ++ rest) 0
    (flagged neg cnt r) = added neg cnt v (str "/" ++ rx ++ str "/") rest' r.
Proof.
  intros Hrx Hp Hr. rewrite loop_colon by (by destruct q).
  assert (∀ s, s ≠ [] → loop ((if q then [0x27] else []) ++ 0x2f :: s) 0 (mkPV 1 neg cnt (Name v) [] false false r) =
    loop s 0 (mkPV 2 neg cnt (Name v) [] false q r)) as ->.
  { intros s Hs. unfold isPath in Hp.
    assert (∀ q, stepVariable 0x2f (mkPV 1 neg cnt (Name v) [] false q r) = mkPV 2 neg cnt (Name v) [] false q r) as Hslash.
    { intros q'. unfold stepVariable. cbn [pv_curr Z.eqb Pos.eqb pv_curKey length Nat.eqb andb pv_curVar]. by rewrite Hp. }
    destruct q; cbn [app]; rewrite loop_step by done; [|by rewrite Hslash].
    unfold stepVariable. cbn [pv_curr Z.eqb Pos.eqb pv_curKey length Nat.eqb andb pv_curVar]. rewrite Hp.
    rewrite loop_step by done. by rewrite <- (Hslash true). }
  - rewrite loop_regex by done. by apply loop_close.
  - by destruct rx.
Qed.

Lemma loop_target t r rest rest' : selectable t.(tg_variable) t.(tg_selector) → ends rest rest' →
  loop (printTarget t ++ rest) 0 (start r) = (r' ← addTarget t r; loop rest' 0 (start r')).
Proof.
  intros Hs Hr. destruct t as [neg cnt v s]. cbn [tg_variable tg_selector] in Hs.
  change (addTarget _ r ≫= _) with (added neg cnt v (selectorKey s) rest' r).
  unfold printTarget. cbn [tg_negation tg_count tg_variable tg_selector].
  rewrite <- !app_assoc, loop_flags by (by destruct (Name_bytes v), (Name v)).
  destruct s as [|k|p|rx|rx]; cbn [printSelector selectorKey].
  - by apply target_whole.
  - by apply target_key.
  - by apply target_path.
  - destruct Hs. rewrite <- !app_assoc. by apply (target_regex _ _ _ _ false).
  - destruct Hs. rewrite <- !app_assoc. by apply (target_regex _ _ _ _ true).
Qed.

Lemma parseVariables_printed l r :
  l ≠ [] → Forall (λ t, selectable t.(tg_variable) t.(tg_selector)) l →
  parseVariables addVariable addVariableNegation (Join (printTarget <$> l) 0x7c) r = addTargets l r.
Proof.
  intros Hne Hl. unfold parseVariables. fold (start r). revert r.
  induction Hl as [|t l Ht Hl IH]; intros r; [done|]. destruct l as [|t2 l].
  - cbn [fmap list_fmap Join]. rewrite <- (app_nil_r (printTarget t)), (loop_target t r [] []) by (done || by left).
    cbn [addTargets]. by destruct (addTarget t r).
  - rewrite fmap_cons, Join_cons by done. rewrite (loop_target t r _ (Join (printTarget <$> t2 :: l) 0x7c)) by (done || by right).
    change (addTargets (t :: t2 :: l) r) with (r' ← addTarget t r; addTargets (t2 :: l) r').
    destruct (addTarget t r) as [r'|]; [|done]. cbn [mbind option_bind]. by apply IH.
Qed.
End variables.

(** C32: A printed list of targets, with the pipes and the escaped slashes of its
    regular expressions, adds exactly those targets to the rule, in order. *)
Theorem ParseVariables_print `{U : !Unicode} (Compile : bytes → option regex) (l : list target) (r : Rule) :
  l ≠ [] → Forall (λ t, selectable t.(tg_variable) t.(tg_selector)) l →
  ParseVariables Compile (Join (printTarget <$> l) 0x7c) r =
    addTargets (AddVariable Compile) (AddVariableNegation Compile) l r.
Proof. exact (parseVariables_printed (AddVariable Compile) (AddVariableNegation Compile) l r). Qed.

(** ** A rule line *)

Definition exampleActions : list (bytes * option value) :=
  [(str "id", Some (Bare (str "942100"))); (str "block", None); (str "msg", Some (Quoted (str "SQLi, level: 1")));
   (str "t", Some (Bare (str "urlDecodeUni"))); (str "deny", None)].

Lemma parseActions_print_witness :
  parseActions (U := latin1) (Join (printAction <$> exampleActions) 0x2c) =
    Done (Some (keepLast (toAction <$> exampleActions))) ∧
  (Key <$> keepLast (toAction <$> exampleActions)) = [str "id"; str "deny"; str "msg"; str "t"].
Proof.
  split; [|by vm_compute]. apply parseActions_print; [done|].
  assert (∀ k, bool_decide (k ∈ actionmap.*1) = true → k ∈ actionmap.*1) as Hk by (intros k; apply bool_decide_eq_true).
  repeat constructor; cbn [fst snd].
  all: try (by apply Hk; vm_compute).
  all: intros v Hv; try done; injection Hv as <-; cbn [writable]; try (by vm_compute).
  all: split; [done|]; apply (bool_decide_eq_true_1 _); by vm_compute.
Defined.

Lemma parseActionOperator_print_witness :
  parseActionOperator (printRule (str "ARGS|!ARGS:id") (str "@rx (?i)") (Some (str "id:1,deny"))) =
    Done (Some (str "ARGS|!ARGS:id", str "@rx (?i)", str "id:1,deny")).
Proof.
  apply (parseActionOperator_print (str "ARGS|!ARGS:id") (str "@rx (?i)") (Some (str "id:1,deny"))); [done| |done].
  apply (bool_decide_eq_true_1 _). by vm_compute.
Defined.

Definition exampleTargets : list target :=
  [mkTarget false false V.Args Whole; mkTarget true false V.Args (ByKey (str "id"));
   mkTarget false true V.RequestHeaders (ByKey (str "Host"));
   mkTarget true false V.RequestCookies (ByQuotedRegex (str "^a|b\/c$"));
   mkTarget false false V.XML (ByXPath (str "/*/@id"))].

Definition anyRegex (p : bytes) : option regex := Some (λ _, true).

Lemma ParseVariables_print_witness :
  ParseVariables (U := latin1) anyRegex (Join (printTarget <$> exampleTargets) 0x7c) NewRule =
    addTargets (AddVariable (U := latin1) anyRegex) (AddVariableNegation (U := latin1) anyRegex) exampleTargets NewRule ∧
  Join (printTarget <$> exampleTargets) 0x7c =
    str "ARGS|!ARGS:id|&REQUEST_HEADERS:Host|!REQUEST_COOKIES:'/^a|b\/c$/'|XML:/*/@id".
Proof.
  split; [|by vm_compute]. apply ParseVariables_print; [done|].
  repeat apply Forall_cons_2; [..|by apply Forall_nil_2]; cbn [tg_variable tg_selector selectable]; [done|..].
  - split_and!; [done| |done..]. apply (bool_decide_eq_true_1 _). by vm_compute.
  - split_and!; [done| |done..]. apply (bool_decide_eq_true_1 _). by vm_compute.
  - done.
  - exists 0x2f, (str "*/@i"), 0x64. split_and!; [done..| |done]. apply (bool_decide_eq_true_1 _). by vm_compute.
Defined.
