(* ===== verification/RuleAssembly.v ===== *)
(** What the rule parser produces: the merge of the default actions, the
    single disruptive action of a rule, the chains of the rule group, and the
    table of transformation chains.  The parser is that of RuleParser. *)

From S2P Require Import Prelude GoLib StringUtil UrlTransform Variables Types Collections.
From S2P Require Import BodyBuffer TransactionState Macro Rule TransformCache Actions RuleGroup RuleParser RuleSyntax.

Lemma Forall_filter {A} (P Q : A → Prop) `{∀ x, Decision (Q x)} l : Forall P l → Forall P (filter Q l).
Proof. rewrite !Forall_forall. intros Hl x [_ Hx]%list_elem_of_filter. by apply Hl. Qed.

(** * Default actions *)

(** The default actions a rule inherits, and the rule's own that stay. *)
Definition inherited (defaults : list ruleAction) : list ruleAction :=
  filter (λ a, isDisruptive a = false ∧ isMetadata a = false) defaults.
Definition isBlock (a : ruleAction) : bool := isDisruptive a && (a.(Key) =s str "block").
Definition own (origin : list ruleAction) : list ruleAction := filter (λ a, isBlock a = false) origin.

Lemma mergeDefaults_eq defaults :
  mergeDefaults defaults = (inherited defaults, last (disruptives defaults)).
Proof.
  unfold mergeDefaults, inherited, disruptives. induction defaults as [|a l IH] using rev_ind; [done|].
  rewrite foldl_snoc, IH, !filter_app, !filter_cons, !filter_nil.
  destruct (isDisruptive a) eqn:Ed; [|destruct (isMetadata a) eqn:Em].
  - rewrite decide_False by (by intros [? _]). rewrite decide_True by done. by rewrite app_nil_r, last_snoc.
  - rewrite decide_False by (by intros [_ ?]). rewrite decide_False by done. by rewrite !app_nil_r.
  - rewrite decide_True by done. rewrite decide_False by done. by rewrite app_nil_r.
Qed.

Lemma mergeOrigin_eq res origin :
  mergeOrigin res origin = (res ++ own origin, existsb (λ a, isDisruptive a && negb (isBlock a)) origin).
Proof.
  unfold mergeOrigin, own. induction origin as [|a l IH] using rev_ind; [by rewrite app_nil_r|].
  rewrite foldl_snoc, IH, existsb_app, filter_app, filter_cons, filter_nil. cbn [existsb]. unfold isBlock.
  destruct (isDisruptive a); cbn [andb]; [destruct (_ =s _); cbn [negb]|].
  - rewrite decide_False by done. by rewrite app_nil_r, !orb_false_r.
  - rewrite decide_True by done. by rewrite app_assoc, orb_true_r.
  - rewrite decide_True by done. by rewrite app_assoc, !orb_false_r.
Qed.

Lemma mergeActions_eq origin defaults :
  mergeActions origin defaults = inherited defaults ++ own origin ++
    (if existsb (λ a, isDisruptive a && negb (isBlock a)) origin then []
     else [default zeroAction (last (disruptives defaults))]).
Proof.
  unfold mergeActions. rewrite mergeDefaults_eq, mergeOrigin_eq.
  destruct (existsb _ _); cbn [negb]; by rewrite ?app_nil_r, <- ?app_assoc.
Qed.

Lemma disruptives_app l1 l2 : disruptives (l1 ++ l2) = disruptives l1 ++ disruptives l2.
Proof. apply filter_app. Qed.

Lemma disruptives_one a : isDisruptive a = true → disruptives [a] = [a].
Proof. intros Ha. unfold disruptives. by rewrite filter_cons, decide_True. Qed.

Lemma disruptives_inherited l : disruptives (inherited l) = [].
Proof.
  unfold disruptives, inherited. induction l as [|a l IH]; [done|]. rewrite filter_cons.
  case_decide as H; [|done]. rewrite filter_cons, decide_False; [done|]. destruct H. congruence.
Qed.

Lemma disruptives_own l : disruptives (own l) = filter (λ a, isBlock a = false) (disruptives l).
Proof. unfold disruptives, own. rewrite !list_filter_filter. apply list_filter_iff. naive_solver. Qed.

(** The disruptive action of the merged list: the rule's own, unless it is
    block or there is none, and then the default one. *)
Definition effective (origin : list ruleAction) (da : ruleAction) : ruleAction :=
  match disruptives origin with
  | [a] => if a.(Key) =s str "block" then da else a
  | _ => da
  end.

Lemma mergeActions_one origin defaults da :
  (length (disruptives origin) ≤ 1)%nat → disruptives defaults = [da] →
  disruptives (mergeActions origin defaults) = [effective origin da].
Proof.
  intros Ho Hd. assert (isDisruptive da = true) as Hda.
  { assert (da ∈ disruptives defaults) as Hin by (rewrite Hd; by left).
    unfold disruptives in Hin. by apply list_elem_of_filter in Hin as [? _]. }
  rewrite mergeActions_eq, !disruptives_app, disruptives_inherited, disruptives_own, Hd. cbn [app last default].
  assert (existsb (λ a, isDisruptive a && negb (isBlock a)) origin =
    existsb (λ a, negb (isBlock a)) (disruptives origin)) as ->.
  { clear. unfold disruptives. induction origin as [|a l IH]; [done|]. rewrite filter_cons. cbn [existsb].
    rewrite IH. destruct (isDisruptive a) eqn:E; [by rewrite decide_True|by rewrite decide_False]. }
  unfold effective. assert (Forall (λ a, isDisruptive a = true) (disruptives origin)) as Hall.
  { apply Forall_forall. unfold disruptives. by intros a [? _]%list_elem_of_filter. }
  destruct (disruptives origin) as [|a [|b l]]; [..|simpl in Ho; lia].
  - rewrite filter_nil. cbn [existsb app]. by apply disruptives_one.
  - apply Forall_cons in Hall as [Hall _]. rewrite filter_cons, filter_nil. cbn [existsb]. rewrite orb_false_r.
    unfold isBlock. rewrite Hall. cbn [andb]. destruct (_ =s _); cbn [negb].
    + rewrite decide_False by done. cbn [app]. by apply disruptives_one.
    + by rewrite decide_True.
Qed.

(** The merge of a rule's actions with the defaults of its phase has exactly
    one disruptive action. *)
Theorem mergeActions_disruptive origin defaults da :
  (length (disruptives origin) ≤ 1)%nat → disruptives defaults = [da] →
  disruptives (mergeActions origin defaults) = [effective origin da].
Proof. apply mergeActions_one. Qed.

(** * Parsing variables *)

(** Parsing keeps what adding a variable and adding an exception keep. *)
Section invariant.
Context `{U : !Unicode} {R : Type}.
Context (addVariable : RuleVariable → bytes → bool → R → option R).
Context (addVariableNegation : RuleVariable → bytes → R → option R).
Context (I : R → Prop).
Context (Hadd : ∀ v key c r r', addVariable v key c r = Some r' → I r → I r').
Context (Hneg : ∀ v key r r', addVariableNegation v key r = Some r' → I r → I r').

Lemma endVariable_inv c next st k st' :
  endVariable addVariable addVariableNegation c next st = Some (k, st') → I st.(pv_rule) → I st'.(pv_rule).
Proof.
  unfold endVariable. cbv zeta. set (st1 := if negb (c =? 0x7c) then _ else st).
  assert (pv_rule st1 = pv_rule st) as E by (unfold st1; repeat case_match; by destruct st).
  destruct (Parse _) as [v|]; [|done]. cbn [mbind option_bind]. case_match; [done|]. case_match; [done|].
  rewrite E. destruct (if pv_isNegation st1 then _ else _) as [r'|] eqn:Ea; cbn; [|done].
  intros Hs Hi. inversion Hs; subst. cbn. destruct (pv_isNegation st1); eauto.
Qed.

Lemma parseVariablesLoop_inv s : ∀ skip st r,
  parseVariablesLoop addVariable addVariableNegation s skip st = Some r → I st.(pv_rule) → I r.
Proof.
  induction s as [|c s IH]; intros skip st r H Hi; cbn [parseVariablesLoop] in H; [by injection H as <-|].
  destruct skip as [|skip]; [|by eapply IH]. destruct (_ || _).
  - destruct (endVariable _ _ _ _ _) as [[k st']|] eqn:E; [|done]. eapply IH; [done|]. by eapply endVariable_inv.
  - eapply IH; [done|]. assert (pv_rule (stepVariable c st) = pv_rule st) as ->; [|done].
    unfold stepVariable. by repeat case_match; destruct st.
Qed.

Lemma parseVariables_inv vars r r' :
  parseVariables addVariable addVariableNegation vars r = Some r' → I r → I r'.
Proof. apply parseVariablesLoop_inv. Qed.
End invariant.

(** * The parser as a whole *)

Section parsing.
Context `{U : !Unicode}.
Context (Compile : bytes → option regex).
Context (GetTransformation : bytes → option transformation).
Context (GetOperator : bytes → OperatorOptions → option operatorFn).
(** The registered names are not empty and have no plus sign. *)
Context (Hnames : ∀ name t, GetTransformation name = Some t → name ≠ [] ∧ noPlus name).

(** The transformations by name. *)
Definition registeredFn (name : bytes) : transformation :=
  default (λ v, Done (v, false, None)) (GetTransformation name).

(** The transformations of the rule are the chain its identifiers name. *)
Definition rule_ok (g : transformationIDs) (r : Rule) : Prop := ∃ names, rule_chain registeredFn g names r.

(** [m] returns; it only extends a consistent table, and its result
    satisfies [Q]. *)
Definition psafe {A} (m : parse A) (Q : transformationIDs → A → Prop) (g : transformationIDs) : Prop :=
  wp (m g) (λ st, wf_ids st.1 ∧ g.(idToName) `prefix_of` st.1.(idToName) ∧ ∀ a, st.2 = Some a → Q st.1 a).

Lemma psafe_bind {A B} (m : parse A) (k : A → parse B) R Q g :
  psafe m R g →
  (∀ g' a, wf_ids g' → g.(idToName) `prefix_of` g'.(idToName) → R g' a → psafe (k a) Q g') →
  psafe (pbind m k) Q g.
Proof.
  intros Hm Hk. unfold psafe, pbind. eapply wp_bind; [exact Hm|]. intros [g1 [a|]] (H1 & H2 & H3); [|done].
  cbn [fst snd] in *. eapply wp_mono; [by apply Hk, H3|]. intros [g2 o] (H4 & H5 & H6).
  split; [done|]. split; [by etrans|done].
Qed.

Lemma psafe_ok {A} (a : A) (Q : transformationIDs → A → Prop) g : wf_ids g → Q g a → psafe (ok a) Q g.
Proof. intros Hg HQ. split; [done|]. split; [done|]. by intros ? [= <-]. Qed.

Lemma psafe_fails {A} (Q : transformationIDs → A → Prop) g : wf_ids g → psafe fails Q g.
Proof. by intros Hg. Qed.

Lemma psafe_lift {A} (o : option A) (Q : transformationIDs → A → Prop) g :
  wf_ids g → (∀ a, o = Some a → Q g a) → psafe (lift o) Q g.
Proof. by intros Hg HQ. Qed.

Lemma psafe_liftR {A} (m : run (option A)) (Q : transformationIDs → A → Prop) g :
  wf_ids g → wp m (λ o, ∀ a, o = Some a → Q g a) → psafe (liftR m) Q g.
Proof. intros Hg Hm. unfold psafe, liftR. eapply wp_bind; [exact Hm|]. by intros o Ho. Qed.

Lemma psafe_mono {A} (m : parse A) (Q R : transformationIDs → A → Prop) g :
  psafe m Q g → (∀ g' a, wf_ids g' → Q g' a → R g' a) → psafe m R g.
Proof.
  intros Hm HQ. eapply wp_mono; [exact Hm|]. intros [g' o] (H1 & H2 & H3). cbn in *.
  split_and!; [done..|]. intros a Ha. by apply HQ, H3.
Qed.

(** A fold keeps an invariant of the accumulator and of the elements read. *)
Lemma psafe_fold {A S} (f : S → A → parse S) (I : list A → transformationIDs → S → Prop) l g s :
  (∀ done a g s, wf_ids g → I done g s → a ∈ l → psafe (f s a) (I (done ++ [a])) g) →
  wf_ids g → I [] g s → psafe (pfold f l s) (I l) g.
Proof.
  intros Hf. enough (∀ l1 l2 g s, l = l1 ++ l2 → wf_ids g → I l1 g s → psafe (pfold f l2 s) (I l) g) as H.
  { intros Hg Hs. by apply (H [] l). }
  intros l1 l2. revert l1. induction l2 as [|a l2 IH]; intros l1 g1 s1 E Hg Hs.
  { apply psafe_ok; [done|]. rewrite E, app_nil_r. done. }
  cbn [pfold]. eapply psafe_bind; [apply Hf; [done|exact Hs|rewrite E; set_solver]|].
  intros g2 s2 Hg2 _ Hs2. apply (IH (l1 ++ [a])); [by rewrite <- app_assoc|done..].
Qed.

Lemma rule_ok_frame g r r' :
  r_transformations r' = r_transformations r → r_transformationsID r' = r_transformationsID r →
  r_transformationPrefixIDs r' = r_transformationPrefixIDs r → rule_ok g r → rule_ok g r'.
Proof. intros E1 E2 E3 [names [H1 H2 H3]]. exists names. split; by rewrite ?E1, ?E2, ?E3. Qed.

Lemma rule_ok_mono g g' r : g.(idToName) `prefix_of` g'.(idToName) → rule_ok g r → rule_ok g' r.
Proof. intros Hp [names Hr]. exists names. by eapply rule_chain_mono. Qed.

Lemma rule_ok_new g r : wf_ids g → r_transformations r = [] → r_transformationsID r = 0 →
  r_transformationPrefixIDs r = [] → rule_ok g r.
Proof.
  intros Hg E1 E2 E3. exists []. split; rewrite ?E1, ?E2, ?E3.
  - constructor.
  - by split.
  - split; [lia|]. apply Hg.
Qed.

Lemma transformationID_prefix cur name g g' id :
  transformationID cur name g = Done (g', id) → g.(idToName) `prefix_of` g'.(idToName).
Proof.
  unfold transformationID. destruct (index _ _) as [c| |]; [|done..]. run_simpl.
  destruct (nameToID g !! _); intros [= <- _]; [done|]. cbn. by apply prefix_app_r.
Qed.

Lemma AddTransformation_frame name t r g g' r' :
  AddTransformation name t r g = Done (g', Some r') →
  g.(idToName) `prefix_of` g'.(idToName) ∧ r_actions r' = r_actions r ∧ r_meta r' = r_meta r.
Proof.
  unfold AddTransformation. destruct (name =s []); [done|].
  destruct (transformationID 0 name g) as [[g1 t1]| |] eqn:E1; [|done..]. run_simpl.
  destruct (transformationID _ name g1) as [[g2 t2]| |] eqn:E2; [|done..]. run_simpl. intros [= <- <-].
  apply transformationID_prefix in E1, E2. split; [by etrans|done].
Qed.

Lemma initialise_safe a r g : wf_ids g → rule_ok g r → is_Some a.(Atype) →
  psafe (initialise Compile GetTransformation a r) (λ g' '(f, r'),
    rule_ok g' r' ∧ getAction a.(Key) = Some (actionType f) ∧ r_actions r' = r_actions r ∧
    r_ParentID r' = r_ParentID r ∧ (actionType f ≠ ActionTypeMetadata → r_meta r' = r_meta r)) g.
Proof.
  intros Hg Hr [ty Ety]. unfold initialise. rewrite Ety. destruct (_ =s str "t") eqn:Et.
  - pose proof (initialise_type Compile GetTransformation a r g) as Hty. unfold initialise in Hty. rewrite Ety, Et in Hty.
    unfold initT in *. destruct (_ =s str "none") eqn:En.
    { split_and!; [done..|]. intros [f r'] [= <- <-]. split_and!; [by apply rule_ok_new|by eapply Hty|done..]. }
    destruct (GetTransformation a.(Value)) as [t|] eqn:Eg; [|done]. destruct (Hnames _ _ Eg) as [Hne Hplus].
    destruct Hr as [names Hr].
    destruct (AddTransformation_chain registeredFn g names r a.(Value) Hg Hr Hplus Hne) as (g' & r' & E & Hg' & Hr' & _).
    assert (registeredFn a.(Value) = t) as Efn by (unfold registeredFn; by rewrite Eg).
    rewrite Efn in E. destruct (AddTransformation_frame _ _ _ _ _ _ E) as (Hp & Ha & Hm).
    unfold psafe. rewrite E in Hty |- *. split_and!; [done..|]. intros [f r''] [= <- <-].
    split_and!; [by eexists|by eapply Hty|done|unfold r_ParentID; by rewrite Hm|done].
  - apply psafe_lift; [done|]. intros [f r'] Hi. apply initAction_spec in Hi as [Hty Hf].
    split_and!; [|done|apply Hf..]. destruct (fr_transformations _ _ _ Hf) as (E1 & E2 & E3).
    by eapply rule_ok_frame.
Qed.

(** The name and the type of each action of a rule; of each parsed action
    that goes into it. *)
Definition shape (r : Rule) : list (bytes * option ActionType) :=
  (λ a, (a.(act_Name), Some (actionType a.(act_Function)))) <$> r.(r_actions).
Definition executed (l : list ruleAction) : list (bytes * option ActionType) :=
  (λ a, (a.(Key), a.(Atype))) <$> filter (λ a, isMetadata a = false) l.

Lemma executed_snoc l a :
  executed (l ++ [a]) = executed l ++ (if isMetadata a then [] else [(a.(Key), a.(Atype))]).
Proof.
  unfold executed. rewrite filter_app, filter_cons, filter_nil, fmap_app. f_equal.
  destruct (isMetadata a); [by rewrite decide_False|by rewrite decide_True].
Qed.

Lemma applyMetadata_safe act r g : wf_ids g → rule_ok g r → Forall typed act →
  psafe (pfold (applyMetadata Compile GetTransformation) act r) (λ g' r',
    rule_ok g' r' ∧ r_actions r' = r_actions r ∧ r_ParentID r' = r_ParentID r) g.
Proof.
  intros Hg Hr Ht. apply (psafe_fold _ (λ _ g' r',
    rule_ok g' r' ∧ r_actions r' = r_actions r ∧ r_ParentID r' = r_ParentID r)); [|done..].
  intros done a g1 r1 Hg1 (Hr1 & Ha & Hpar) Hin. unfold applyMetadata.
  destruct (isMetadata a); [|by apply psafe_ok].
  rewrite Forall_forall in Ht. eapply psafe_bind; [apply initialise_safe; [done..|by apply Ht]|].
  intros g2 [f r2] Hg2 _ (Hr2 & _ & E & Ep & _). apply psafe_ok; [done|]. split_and!; [done|congruence..].
Qed.

Lemma applyActions_safe act r g : wf_ids g → rule_ok g r → Forall typed act →
  psafe (pfold (applyAction Compile GetTransformation) act r) (λ g' r',
    rule_ok g' r' ∧ r_meta r' = r_meta r ∧ shape r' = shape r ++ executed act) g.
Proof.
  intros Hg Hr Ht. apply (psafe_fold _ (λ l g' r',
    rule_ok g' r' ∧ r_meta r' = r_meta r ∧ shape r' = shape r ++ executed l)); [|done|by rewrite app_nil_r].
  intros done a g1 r1 Hg1 (Hr1 & Hm & Hs) Hin. rewrite executed_snoc. unfold applyAction.
  destruct (isMetadata a) eqn:Em; [by apply psafe_ok; rewrite ?app_nil_r|].
  rewrite Forall_forall in Ht. destruct (Ht a Hin) as [Ety Hsome].
  eapply psafe_bind; [by apply initialise_safe|].
  intros g2 [f r2] Hg2 _ (Hr2 & Hf & Ea & _ & Emeta). rewrite Hf in Ety.
  apply psafe_ok; [done|]. split_and!.
  - by eapply rule_ok_frame; [..|exact Hr2].
  - rewrite <- Hm. apply Emeta. intros E. unfold isMetadata in Em. apply bool_decide_eq_false in Em.
    rewrite Ety, E in Em. done.
  - unfold shape, AddAction. cbn. rewrite fmap_app, Ea, app_assoc. fold (shape r1). rewrite Hs, Ety. done.
Qed.

Definition defaults_ok (d : defaultActions) : Prop :=
  map_Forall (λ _ act, Forall typed act ∧ ∃ da, disruptives act = [da]) d.

(** The actions of a rule of that phase. *)
Definition finalActions (d : defaultActions) (phase : Z) (act : list ruleAction) : list ruleAction :=
  match d !! phase with Some defaults => mergeActions act defaults | None => act end.

Lemma finalActions_typed d phase act : defaults_ok d → Forall typed act → Forall typed (finalActions d phase act).
Proof.
  intros Hd Ha. unfold finalActions. destruct (d !! phase) as [defaults|] eqn:E; [|done].
  destruct (Hd _ _ E) as [Hdt [da Hda]]. rewrite mergeActions_eq, Hda. repeat apply Forall_app_2.
  - by apply Forall_filter.
  - by apply Forall_filter.
  - case_match; [done|]. cbn. apply Forall_singleton. rewrite Forall_forall in Hdt. apply Hdt.
    assert (da ∈ disruptives defaults) as Hin by (rewrite Hda; by left).
    unfold disruptives in Hin. by apply list_elem_of_filter in Hin as [_ ?].
Qed.

Lemma applyParsedActions_safe cfg d act r g :
  wf_ids g → rule_ok g r → Forall typed act → defaults_ok d →
  psafe (applyParsedActions Compile GetTransformation cfg d act r) (λ g' r',
    rule_ok g' r' ∧ r_ParentID r' = r_ParentID r ∧
    shape r' = shape r ++ executed (finalActions d (r_Phase r') act)) g.
Proof.
  intros Hg Hr Ht Hd. unfold applyParsedActions. destruct (existsb _ _); [by apply psafe_fails|].
  eapply psafe_bind; [by apply applyMetadata_safe|]. intros g1 r1 Hg1 _ (Hr1 & Ea & Ep).
  fold (finalActions d (r_Phase r1) act).
  eapply psafe_mono; [apply applyActions_safe; [done..|by apply finalActions_typed]|].
  intros g2 r2 _ (Hr2 & Hm & Hs). unfold r_Phase, r_ParentID in *. rewrite Hm, Hs. split_and!; [done..|].
  f_equal. unfold shape. by rewrite Ea.
Qed.

(** ** Default actions of the configuration *)

Lemma defaultsLoop_disruptive act : ∀ phase da phase' da',
  defaultsLoop act phase da = Some (phase', da') → da' = da ∨ ∃ a, a ∈ disruptives act.
Proof.
  induction act as [|a act IH]; intros phase da phase' da' H; cbn [defaultsLoop] in H; [left; congruence|].
  unfold disruptives in *. rewrite filter_cons. destruct (_ =s str "phase").
  - destruct (ParseRulePhase _) as [p|]; [|done]. destruct (IH _ _ _ _ H) as [->|[b Hb]]; [by left|].
    right. exists b. case_decide; [by right|done].
  - destruct (isMetadata a); [done|]. destruct (_ =s str "t"); [done|]. destruct (isDisruptive a) eqn:E.
    + right. exists a. rewrite decide_True by done. by left.
    + destruct (IH _ _ _ _ H) as [->|[b Hb]]; [by left|]. right. exists b. by rewrite decide_False.
Qed.

Lemma oneDisruptive_length l d : oneDisruptive l d → (length (disruptives l) ≤ 1)%nat.
Proof.
  assert (∀ l, Forall (λ a, isDisruptive a = false) l → disruptives l = []) as Hnil.
  { clear. unfold disruptives. induction 1 as [|a l Ha Hl IH]; [done|]. by rewrite filter_cons, decide_False by congruence. }
  destruct d as [i|]; cbn [oneDisruptive]; [|intros ->%Hnil; simpl; lia].
  intros (l1 & a & l2 & -> & _ & Ha & Hall). apply Forall_app in Hall as [H1%Hnil H2%Hnil].
  unfold disruptives in *. by rewrite filter_app, filter_cons, decide_True, H1, H2.
Qed.

Lemma parseActions_one actions : wp (parseActions actions) (λ o, ∀ act, o = Some act →
  Forall typed act ∧ (length (disruptives act) ≤ 1)%nat).
Proof.
  eapply wp_mono; [apply parseActions_wp|]. intros o Ho act ->. destruct (Ho act eq_refl) as [[d Hd] Ht].
  split; [done|]. by eapply oneDisruptive_length.
Qed.

Lemma ParseDefaultActions_wp actions d : defaults_ok d →
  wp (ParseDefaultActions actions d) (λ o, ∀ d', o = Some d' → defaults_ok d' ∧ dom d ⊆ dom d').
Proof.
  intros Hd. unfold ParseDefaultActions. eapply wp_bind; [apply parseActions_one|]. intros o Ho d' E.
  destruct o as [act|]; [|done]. destruct (Ho act eq_refl) as [Ht Hone]. cbn [mbind option_bind] in E.
  destruct (defaultsLoop act 0 []) as [[phase da]|] eqn:El; [|done]. cbn [mbind option_bind] in E.
  destruct (phase =? 0); [done|]. destruct (da =s []) eqn:Eda; [done|]. destruct (d !! phase); [done|].
  injection E as <-. split; [|set_solver]. apply map_Forall_insert_2; [|done]. split; [done|].
  apply defaultsLoop_disruptive in El as [->|[a Ha]]; [done|].
  destruct (disruptives act) as [|b [|c l]]; [by apply not_elem_of_nil in Ha|by exists b|simpl in Hone; lia].
Qed.

(** The hardcoded defaults of phase 2. *)
Definition phase2Actions : list ruleAction :=
  toAction <$> [(str "phase", Some (Bare (str "2"))); (str "log", None); (str "auditlog", None); (str "pass", None)].

Lemma phase2Defaults d : d !! 2 = None →
  ParseDefaultActions defaultActionsPhase2 d = Done (Some (<[2 := phase2Actions]> d)).
Proof.
  intros Hd. unfold ParseDefaultActions.
  assert (parseActions defaultActionsPhase2 = Done (Some phase2Actions)) as ->.
  { assert (∀ k, bool_decide (k ∈ actionmap.*1) = true → k ∈ actionmap.*1) as Hk by (intros k; apply bool_decide_eq_true).
    assert (defaultActionsPhase2 = Join (printAction <$> [(str "phase", Some (Bare (str "2"))); (str "log", None);
      (str "auditlog", None); (str "pass", None)]) 0x2c) as -> by (by vm_compute).
    apply parseActions_printed; [done|]. repeat constructor; cbn [fst snd]; try (by apply Hk; vm_compute); intros v Hv; try done.
    injection Hv as <-. split; [done|]. repeat constructor. }
  run_simpl. cbn [mbind option_bind]. 
  assert (defaultsLoop phase2Actions 0 [] = Some (2, str "pass")) as -> by (by vm_compute).
  cbn [mbind option_bind]. cbn. by rewrite Hd.
Qed.

Lemma ruleDefaults_safe cfg g : wf_ids g →
  psafe (ruleDefaults cfg) (λ _ d, defaults_ok d ∧ is_Some (d !! 2)) g.
Proof.
  intros Hg. unfold ruleDefaults. eapply psafe_bind.
  - apply (psafe_fold _ (λ _ _ d, defaults_ok d)); [|done|apply map_Forall_empty].
    intros done da g1 d Hg1 Hd _. apply psafe_liftR; [done|].
    eapply wp_mono; [by apply ParseDefaultActions_wp|]. intros o Ho d' ->. by apply Ho.
  - intros g1 d Hg1 _ Hd. destruct (d !! 2) as [l|] eqn:E; [apply psafe_ok; [done|by rewrite E]|].
    apply psafe_liftR; [done|]. pose proof (ParseDefaultActions_wp defaultActionsPhase2 d Hd) as Hwp.
    rewrite phase2Defaults in Hwp |- * by done. intros d' [= <-]. split; [by apply Hwp|].
    eexists. apply lookup_insert_eq.
Qed.

(** ** The body of a rule *)

(** Adding variables and an operator changes nothing else. *)
Definition same_actions (r r' : Rule) : Prop :=
  r_actions r' = r_actions r ∧ r_meta r' = r_meta r ∧ r_transformations r' = r_transformations r ∧
  r_transformationsID r' = r_transformationsID r ∧ r_transformationPrefixIDs r' = r_transformationPrefixIDs r.

#[local] Instance same_actions_po : PreOrder same_actions.
Proof. unfold same_actions. split; [done|]. intros r1 r2 r3. naive_solver congruence. Qed.

Lemma ParseVariables_same vars r r' : ParseVariables Compile vars r = Some r' → same_actions r r'.
Proof.
  intros H. refine (parseVariables_inv _ _ (same_actions r) _ _ vars r r' H _); [| |done].
  - intros v key c r1 r2. unfold AddVariable. destruct (keyRegex _ _ _); cbn; [|done]. by intros [= <-].
  - intros v key r1 r2. unfold AddVariableNegation. destruct (keyRegex _ _ _); cbn; [|done]. by intros [= <-].
Qed.

(** Trimming keeps a visible first byte. *)
Lemma trimRightSpaces_head n : ∀ c s, tightByte c = true → ∃ s', trimRightSpaces n (c :: s) = c :: s'.
Proof.
  induction n as [|n IH]; intros c s Hc; [by eexists|]. cbn [trimRightSpaces].
  destruct (list_find _ spaceRunes) as [[i r]|] eqn:E; [|by eexists].
  apply list_find_Some in E as (Hr & Hs & _). apply list_elem_of_lookup_2 in Hr.
  assert (Forall (λ r, match EncodeRune r with x :: _ => tightByte x | [] => true end = false) spaceRunes) as HF.
  { apply (bool_decide_eq_true_1 _). by vm_compute. }
  rewrite Forall_forall in HF. specialize (HF r Hr). unfold HasSuffix in Hs. apply HasPrefix_spec in Hs as [t Ht].
  apply (f_equal reverse) in Ht. rewrite reverse_involutive, reverse_app, reverse_involutive in Ht.
  destruct (reverse t) as [|x u].
  - simpl in Ht. rewrite <- Ht in HF. congruence.
  - injection Ht as <- ->. cbn [length]. rewrite length_app.
    replace (S (length u + length (EncodeRune r)) - length (EncodeRune r))%nat with (S (length u)) by lia.
    cbn [take]. by apply IH.
Qed.

Lemma explicitOperator_head op : ∃ c s, explicitOperator op = c :: s ∧ tightByte c = true ∧ c ≠ 0x20.
Proof.
  unfold explicitOperator. destruct op as [|c rest]; [by do 2 eexists|].
  destruct (negb (c =? 0x40) && negb (c =? 0x21)) eqn:E; [by do 2 eexists|].
  assert (tightByte c = true ∧ c ≠ 0x20) by (unfold tightByte; lia).
  destruct rest as [|d rest]; case_match; by do 2 eexists.
Qed.

Lemma operatorName_wp c s : wp (operatorName (c :: s)) (λ _, True).
Proof.
  unfold operatorName. cbn [index lookup list_lookup mbind run_bind]. case_match; [by rewrite slice_ok by (simpl; lia)|].
  destruct (Nat.ltb_spec 2 (length (c :: s))) as [Hl|]; [|done]. rewrite index_lt by lia. run_simpl.
  case_match; [|done]. by rewrite slice_ok by lia.
Qed.

Lemma ParseOperator_wp o op r :
  wp (ParseOperator GetOperator o op r) (λ res, ∀ r', res = Some r' → same_actions r r').
Proof.
  unfold ParseOperator. destruct (explicitOperator_head op) as (c & s & -> & Hc & Hsp). cbn [Cut].
  rewrite (proj2 (Z.eqb_neq _ _) Hsp). destruct (Cut s 0x20) as [[opRaw opdata] found].
  assert (∃ s', TrimSpace (c :: opRaw) = c :: s') as [s' ->].
  { unfold TrimSpace. cbv zeta. rewrite trimLeftSpaces_tight by done. by apply trimRightSpaces_head. }
  eapply wp_bind; [apply operatorName_wp|]. intros name _ r'. destruct (GetOperator _ _); cbn; [|done].
  by intros [= <-].
Qed.

Lemma parseActionOperator_wp data : wp (parseActionOperator data) (λ _, True).
Proof.
  unfold parseActionOperator. destruct (Cut _ _) as [[vars rest] found]. destruct found; [|done]. cbn [negb].
  destruct (TrimLeft rest [0x20]) as [|c t]; [done|]. destruct (negb (c =? 0x22)); [done|].
  destruct (cutQuotedString _) as [[op rest']|]; [|done].
  destruct (MaybeRemoveQuotes_spec op) as (op' & -> & _). run_simpl. case_match; [done|].
  destruct (Nat.ltb_spec (length (TrimLeft rest' [0x20])) 2) as [|Hl]; [done|].
  rewrite !index_lt by lia. run_simpl. case_match; [done|].
  by destruct (MaybeRemoveQuotes_spec (TrimLeft rest' [0x20])) as (acts & -> & _).
Qed.

(** The actions of a parsed rule: none, or its own with the defaults. *)
Definition body_ok (d : defaultActions) (r : Rule) (raw : bytes) : Prop :=
  r_ParentID r = noID ∧
  (shape r = [] ∨ ∃ act, parseActions raw = Done (Some act) ∧ shape r = executed (finalActions d (r_Phase r) act)).

Lemma ParseActions_safe cfg d raw r g : wf_ids g → rule_ok g r → defaults_ok d → r_actions r = [] → r_ParentID r = noID →
  psafe (ParseActions Compile GetTransformation cfg d raw r) (λ g' r', rule_ok g' r' ∧ body_ok d r' raw) g.
Proof.
  intros Hg Hr Hd Ha Hpar. unfold ParseActions.
  eapply (psafe_bind _ _ (λ _ act, parseActions raw = Done (Some act) ∧ Forall typed act)).
  - apply psafe_liftR; [done|]. pose proof (parseActions_one raw) as H.
    destruct (parseActions raw) as [o| |]; [|done..]. intros act ->. split; [done|]. by apply H.
  - intros g1 act Hg1 Hp [Epa Ht].
    eapply psafe_mono; [apply applyParsedActions_safe; [done|by eapply rule_ok_mono|done..]|].
    intros g2 r2 _ (Hr2 & Ep & Hs). split; [done|]. split; [congruence|]. right. exists act. split; [done|]. rewrite Hs.
    unfold shape at 1. by rewrite Ha.
Qed.

Lemma rule_ok_same g r r' : same_actions r r' → rule_ok g r → rule_ok g r'.
Proof. intros (_ & _ & ? & ? & ?). by apply rule_ok_frame. Qed.

Lemma parseBody_safe o d g : wf_ids g → defaults_ok d →
  psafe (parseBody Compile GetTransformation GetOperator o d) (λ g' '(r, raw), rule_ok g' r ∧ body_ok d r raw) g.
Proof.
  intros Hg Hd. assert (∀ g, wf_ids g → rule_ok g NewRule) as Hnew by (intros; by apply rule_ok_new).
  unfold parseBody. cbv zeta. destruct (ro_WithOperator o).
  - eapply (psafe_bind _ _ (λ _ _, True)).
    { apply psafe_liftR; [done|]. eapply wp_mono; [apply parseActionOperator_wp|done]. }
    intros g1 [[vars op] acts] Hg1 _ _. case_match; [by apply psafe_fails|].
    eapply (psafe_bind _ _ (λ g r, same_actions NewRule r)).
    { apply psafe_lift; [done|]. intros r Hr. by apply ParseVariables_same in Hr. }
    intros g2 r2 Hg2 _ Hs2. eapply (psafe_bind _ _ (λ g r, same_actions NewRule r)).
    { apply psafe_liftR; [done|]. eapply wp_mono; [apply ParseOperator_wp|]. intros res Hres r3 ->. etrans; [done|by apply Hres]. }
    intros g3 r3 Hg3 _ Hs3. assert (r_ParentID r3 = noID) as Hpar by (destruct Hs3 as (_ & E & _); unfold r_ParentID; by rewrite E).
    assert (rule_ok g3 r3) as Hr3 by (eapply rule_ok_same; [done|by apply Hnew]).
    destruct (acts =s []).
    + apply psafe_ok; [done|]. split; [done|]. split; [done|]. left. destruct Hs3 as [E _]. unfold shape. by rewrite E.
    + eapply psafe_bind; [apply ParseActions_safe; [done..|apply Hs3|done]|]. intros g4 r4 Hg4 _ H4. by apply psafe_ok.
  - eapply (psafe_bind _ _ (λ _ _, True)).
    { apply psafe_liftR; [done|]. by destruct (MaybeRemoveQuotes_spec (ro_Data o)) as (s & -> & _). }
    intros g1 raw Hg1 _ _. eapply psafe_bind; [apply ParseActions_safe; [done|by apply Hnew|done..]|].
    intros g2 r2 Hg2 _ H2. by apply psafe_ok.
Qed.

(** ** ParseRule *)

Definition disruptiveActions (r : Rule) : list (bytes * option ActionType) :=
  filter (λ s, s.2 = Some ActionTypeDisruptive) (shape r).

Lemma executed_disruptive l :
  filter (λ s : bytes * option ActionType, s.2 = Some ActionTypeDisruptive) (executed l) =
    (λ a, (a.(Key), a.(Atype))) <$> disruptives l.
Proof.
  unfold executed, disruptives. induction l as [|a l IH]; [done|]. rewrite !filter_cons.
  unfold isMetadata, isDisruptive in *. destruct (decide (Atype a = Some ActionTypeDisruptive)) as [E|E].
  - rewrite E. rewrite !decide_True by (by rewrite ?bool_decide_eq_false, ?bool_decide_eq_true).
    rewrite !fmap_cons, filter_cons, decide_True by done. by rewrite IH.
  - rewrite (decide_False (P := bool_decide _ = true)) by (by rewrite bool_decide_eq_true). rewrite <- IH.
    case_decide; [|done]. rewrite fmap_cons, filter_cons. by rewrite decide_False.
Qed.

(** At most one disruptive action, and one in a rule of phase 2 with actions. *)
Definition one_disruptive (r : Rule) : Prop :=
  (length (disruptiveActions r) ≤ 1)%nat ∧
  (r_Phase r = 2 → r_actions r ≠ [] → length (disruptiveActions r) = 1%nat).

Lemma body_disruptive d r raw : defaults_ok d → is_Some (d !! 2) → body_ok d r raw → one_disruptive r.
Proof.
  intros Hd H2 [_ [Hb|(act & Ha & Hb)]]; unfold one_disruptive, disruptiveActions; rewrite Hb.
  { split; [simpl; lia|]. intros _ Hne. unfold shape in Hb. by destruct (r_actions r). }
  rewrite executed_disruptive, length_fmap. pose proof (parseActions_one raw) as H. rewrite Ha in H.
  destruct (H act eq_refl) as [_ Hone]. unfold finalActions.
  destruct (d !! r_Phase r) as [defaults|] eqn:E.
  - destruct (Hd _ _ E) as [_ [da Hda]]. rewrite (mergeActions_one act defaults da) by done. simpl. lia.
  - split; [done|]. intros Ep. rewrite Ep in E. by destruct H2 as [? H2]; rewrite H2 in E.
Qed.

(** The rules of a group, chains included, have the transformations that
    their identifiers name. *)
Definition rules_ok (g : transformationIDs) (rg : RuleGroup) : Prop :=
  Forall (λ c, rule_ok g c.(cr_rule) ∧ Forall (rule_ok g) c.(cr_chain)) rg.

Lemma rules_ok_mono g g' rg : g.(idToName) `prefix_of` g'.(idToName) → rules_ok g rg → rules_ok g' rg.
Proof.
  intros Hp Hr. eapply Forall_impl; [exact Hr|]. intros c [H1 H2]. split; [by eapply rule_ok_mono|].
  eapply Forall_impl; [exact H2|]. intros r. by apply rule_ok_mono.
Qed.

Lemma rule_ok_meta g f r : rule_ok g r → rule_ok g (setMeta f r).
Proof. by apply rule_ok_frame. Qed.

Lemma removelast_Forall {A} (P : A → Prop) l : Forall P l → Forall P (removelast l).
Proof.
  destruct l as [|x l _] using rev_ind; [done|]. rewrite removelast_last. by intros [? _]%Forall_app.
Qed.

Lemma getLast_last rg parent : getLastRuleExpectingChain rg = Some parent → rg = removelast rg ++ [parent].
Proof.
  unfold getLastRuleExpectingChain. destruct rg as [|x rg _] using rev_ind; [done|].
  rewrite last_snoc, removelast_last. cbn. case_match; [|done]. by intros [= ->].
Qed.

Lemma DiscardPendingChain_sub rg : ∃ n, DiscardPendingChain rg = take n rg.
Proof.
  unfold DiscardPendingChain. destruct (last rg); [case_match; [by eexists|]|]; exists (length rg); by rewrite take_ge.
Qed.

Lemma finishRuleParse_wp o rg rule raw g d :
  rule_ok g rule → rules_ok g rg → defaults_ok d → is_Some (d !! 2) → body_ok d rule raw →
  wp (finishRuleParse o rg rule raw) (λ '(rg', p), rules_ok g rg' ∧
    ∀ r, p = ParsedRule r → rule_ok g r ∧ one_disruptive r ∧ r_ParentID r = noID).
Proof.
  intros Hr Hrg Hd H2 Hb. unfold finishRuleParse. cbv zeta.
  destruct (getLastRuleExpectingChain rg) as [parent|] eqn:E.
  - apply getLast_last in E. pose proof (parseActions_one raw) as Hp. apply wp_elim in Hp as (parsed & -> & _).
    run_simpl. case_match.
    + split; [|done]. destruct (DiscardPendingChain_sub rg) as [n ->]. by apply Forall_take.
    + split; [|done]. rewrite E in Hrg. apply Forall_app in Hrg as [Hinit Hlast]. apply Forall_cons in Hlast as [[H3 H4] _].
      apply Forall_app_2; [done|]. apply Forall_singleton. split; cbn.
      * by apply rule_ok_meta.
      * apply Forall_snoc_2; [done|]. by repeat apply rule_ok_meta.
  - split; [done|]. intros r [= <-]. split; [by repeat apply rule_ok_meta|].
    split; [by apply (body_disruptive d rule raw)|apply Hb].
Qed.

Lemma ParseRule_wp o rg g : wf_ids g → rules_ok g rg →
  wp (ParseRule Compile GetTransformation GetOperator o rg g) (λ '(g', (rg', p)),
    wf_ids g' ∧ g.(idToName) `prefix_of` g'.(idToName) ∧ rules_ok g' rg' ∧
    ∀ r, p = ParsedRule r → rule_ok g' r ∧ one_disruptive r ∧ r_ParentID r = noID).
Proof.
  intros Hg Hrg. unfold ParseRule. destruct (_ =s []); [done|].
  assert (psafe (d ←? ruleDefaults (ro_ParserConfig o); parseBody Compile GetTransformation GetOperator o d)
    (λ g' '(r, raw), rule_ok g' r ∧ ∃ d, defaults_ok d ∧ is_Some (d !! 2) ∧ body_ok d r raw) g) as H.
  { eapply psafe_bind; [by apply ruleDefaults_safe|]. intros g1 d Hg1 _ [Hd H2].
    eapply psafe_mono; [by apply parseBody_safe|]. intros g2 [r raw] _ [H3 H4]. eauto 6. }
  eapply wp_bind; [exact H|]. intros [g' [[rule raw]|]] (Hg' & Hp & HQ); cbn [fst snd] in *;
    [|split_and!; [done..|by eapply rules_ok_mono|done]].
  destruct (HQ _ eq_refl) as [Hr (d & Hd & H2 & Hb)].
  eapply wp_bind; [eapply finishRuleParse_wp; [done|by eapply rules_ok_mono|done..]|].
  intros [rg' p] [H5 H6]. done.
Qed.

(** C20: The parser returns on every rule line, a rule or an error: no text makes
    it panic.  The table of transformation chains stays consistent, and the
    transformations of all rules, old and new, are the chains their
    identifiers name, which is what the transformation cache relies on. *)
Theorem ParseRule_total o rg g : wf_ids g → rules_ok g rg →
  ∃ g' rg' p, ParseRule Compile GetTransformation GetOperator o rg g = Done (g', (rg', p)) ∧
    wf_ids g' ∧ rules_ok g' rg' ∧ ∀ r, p = ParsedRule r → rule_ok g' r.
Proof.
  intros Hg Hrg. pose proof (ParseRule_wp o rg g Hg Hrg) as H. apply wp_elim in H as ([g' [rg' p]] & E & H1 & _ & H2 & H3).
  exists g', rg', p. split_and!; [done..|]. intros r ->. by apply H3.
Qed.

(** A parsed rule has at most one disruptive action, and exactly one when it
    is a rule of phase 2 with actions. *)
Theorem ParseRule_disruptive o rg g g' rg' r : wf_ids g → rules_ok g rg →
  ParseRule Compile GetTransformation GetOperator o rg g = Done (g', (rg', ParsedRule r)) → one_disruptive r.
Proof.
  intros Hg Hrg E. pose proof (ParseRule_wp o rg g Hg Hrg) as H. rewrite E in H.
  destruct H as (_ & _ & _ & H). by apply H.
Qed.

(** ** Chains *)

(** A chain as the parser links it: each rule but the last announces the
    next, and the members carry the identifier of the first. *)
Record chain_wf (c : ChainedRule) : Prop := {
  cw_members : Forall (λ m, r_ParentID m = cr_ID c ∧ m.(r_meta).(LogID_) = c.(cr_rule).(r_meta).(LogID_) ∧
    r_Phase m = 0) c.(cr_chain);
  cw_links : Forall (λ m, m.(r_HasChain) = true) (removelast (c.(cr_rule) :: c.(cr_chain)));
}.

Definition expecting (c : ChainedRule) : bool := (default c.(cr_rule) (last c.(cr_chain))).(r_HasChain).

Lemma expecting_links c : expecting c = true → chain_wf c → Forall (λ m, m.(r_HasChain) = true) (c.(cr_rule) :: c.(cr_chain)).
Proof.
  unfold expecting. intros He [_ Hl]. destruct (cr_chain c) as [|x l _] using rev_ind; [by repeat constructor|].
  rewrite last_snoc in He. rewrite app_comm_cons, removelast_last in Hl.
  rewrite app_comm_cons. by apply Forall_snoc_2.
Qed.

Lemma addToChain_wf parent rule raw : expecting parent = true → chain_wf parent → chain_wf (addToChain parent rule raw).
Proof.
  intros He Hw. pose proof (expecting_links _ He Hw) as Hl. destruct Hw as [Hm _]. split; cbn.
  - by apply Forall_snoc_2.
  - change (Forall (λ m, r_HasChain m = true) (removelast
      ((setMeta (λ m, m <| Raw_ ::= (λ s, s ++ str " " ++ [0x0a] ++ raw) |>) (cr_rule parent) :: cr_chain parent) ++
        [setMeta (λ m, m <| ParentID_ := cr_ID parent |> <| LogID_ := LogID_ (r_meta (cr_rule parent)) |> <| Phase_ := 0 |>) rule]))).
    rewrite removelast_last. apply Forall_cons in Hl as [H1 H2]. by constructor.
Qed.

(** What [ParseRule] does to the rule group. *)
Definition group_effect (o : RuleOptions) (rg rg' : RuleGroup) (p : parsed) : Prop :=
  match p with
  | ParsedRule r => rg' = rg ∧ getLastRuleExpectingChain rg = None
  | Chained => ∃ init parent rule, rg = init ++ [parent] ∧ expecting parent = true ∧
      rg' = init ++ [addToChain parent rule o.(ro_Raw)]
  | ParseError => rg' = rg ∨ (is_Some (getLastRuleExpectingChain rg) ∧ rg' = DiscardPendingChain rg)
  end.

Lemma ParseRule_group o rg g g' rg' p :
  ParseRule Compile GetTransformation GetOperator o rg g = Done (g', (rg', p)) → group_effect o rg rg' p.
Proof.
  unfold ParseRule. destruct (_ =s []); [by intros [= <- <- <-]; left|].
  destruct (pbind _ _ g) as [[g1 [[rule raw]|]]| |]; [|by intros [= <- <- <-]; left|done..]. run_simpl.
  unfold finishRuleParse. cbv zeta. destruct (getLastRuleExpectingChain rg) as [parent|] eqn:E.
  - destruct (parseActions raw) as [parsed| |]; [|done..]. run_simpl. case_match; intros [= <- <- <-].
    + right. by rewrite E.
    + exists (removelast rg), parent. eexists. split_and!; [by apply getLast_last|..|done].
      unfold getLastRuleExpectingChain in E. destruct (last rg); [|done]. cbn in E.
      unfold expecting. case_match; [|done]. by injection E as <-.
  - by intros [= <- <- <-].
Qed.

Lemma ParseRule_linked o rg g g' rg' p :
  Forall chain_wf rg →
  ParseRule Compile GetTransformation GetOperator o rg g = Done (g', (rg', p)) →
  Forall chain_wf rg' ∧ group_effect o rg rg' p.
Proof.
  intros Hw H%ParseRule_group. split; [|done]. destruct p as [|r|].
  - destruct H as [->|[_ ->]]; [done|]. destruct (DiscardPendingChain_sub rg) as [n ->]. by apply Forall_take.
  - by destruct H as [-> _].
  - destruct H as (init & parent & rule & -> & He & ->). apply Forall_app in Hw as [H1 H2].
    apply Forall_app_2; [done|]. apply Forall_singleton. apply addToChain_wf; [done|].
    by apply Forall_cons in H2 as [? _].
Qed.

(** C21: [ParseRule] keeps the chains of the rule group well linked.  A rule that
    continues a pending chain is appended to it and changes nothing else; a
    rule is returned only when no chain is pending. *)
Theorem ParseRule_chains o rg g g' rg' p :
  Forall chain_wf rg →
  ParseRule Compile GetTransformation GetOperator o rg g = Done (g', (rg', p)) →
  Forall chain_wf rg' ∧ group_effect o rg rg' p.
Proof. apply ParseRule_linked. Qed.
End parsing.

(** * Examples *)

Definition exampleTransformation (name : bytes) : option transformation :=
  if name =s str "lowercase" then Some (λ v, Done (v, false, None)) else None.
Definition exampleGetOperator (name : bytes) (_ : OperatorOptions) : option operatorFn :=
  if name =s str "rx" then Some (λ tx _, Done (tx, false)) else None.

Lemma exampleTransformation_names name t : exampleTransformation name = Some t → name ≠ [] ∧ noPlus name.
Proof.
  unfold exampleTransformation. destruct (name =s _) eqn:E; [|done]. intros _. apply bytes_eqb_eq in E as ->.
  split; [done|]. apply (bool_decide_eq_true_1 _). by vm_compute.
Qed.

Definition exampleRuleOptions (line : bytes) : RuleOptions :=
  mkRuleOptions true (mkParserConfig [] [] [] false false 0 [] [] []) line line ∅ false.

Definition exampleParse (line : bytes) (rg : RuleGroup) : run (transformationIDs * (RuleGroup * parsed)) :=
  ParseRule (U := latin1) anyRegex exampleTransformation exampleGetOperator (exampleRuleOptions line) rg initialIDs.

Definition starterLine : bytes := printRule (str "ARGS|!ARGS:id") (str "@rx a") (Some (str "id:1,block,t:lowercase,chain")).
Definition memberLine : bytes := printRule (str "REQUEST_URI") (str "@rx b") (Some (str "t:none")).

Definition starter : Rule :=
  match exampleParse starterLine [] with Done (_, (_, ParsedRule r)) => r | _ => NewRule end.

Lemma starter_parsed : ∃ g, exampleParse starterLine [] = Done (g, ([], ParsedRule starter)).
Proof. eexists. vm_compute. reflexivity. Qed.

Lemma ParseRule_total_witness :
  ∃ g rg p, exampleParse starterLine [] = Done (g, (rg, p)) ∧ wf_ids g.
Proof.
  destruct (ParseRule_total (U := latin1) anyRegex exampleTransformation exampleGetOperator exampleTransformation_names
    (exampleRuleOptions starterLine) [] initialIDs initialIDs_wf ltac:(constructor)) as (g & rg & p & H1 & H2 & _).
  exists g, rg, p. exact (conj H1 H2).
Defined.

Lemma ParseRule_disruptive_witness : one_disruptive starter ∧ (disruptiveActions starter).*1 = [str "pass"].
Proof.
  split; [|by vm_compute]. destruct starter_parsed as [g E]. unfold exampleParse in E.
  exact (ParseRule_disruptive (U := latin1) anyRegex exampleTransformation exampleGetOperator exampleTransformation_names
    (exampleRuleOptions starterLine) [] initialIDs g [] starter initialIDs_wf ltac:(constructor) E).
Defined.

Lemma ParseRule_chains_witness :
  ∃ g rg, exampleParse memberLine [mkChained starter []] = Done (g, (rg, Chained)) ∧ Forall chain_wf rg ∧
    (r_ParentID <$> (rg ≫= cr_chain)) = [1].
Proof.
  assert (∃ g rg, exampleParse memberLine [mkChained starter []] = Done (g, (rg, Chained)) ∧
    (r_ParentID <$> (rg ≫= cr_chain)) = [1]) as (g & rg & E & H) by (do 2 eexists; vm_compute; split; reflexivity).
  exists g, rg. split; [exact E|]. split; [|exact H]. unfold exampleParse in E.
  destruct (ParseRule_chains (U := latin1) anyRegex exampleTransformation exampleGetOperator
    (exampleRuleOptions memberLine) [mkChained starter []] initialIDs g rg Chained) as [Hw _]; [|exact E|exact Hw].
  constructor; [|constructor]. split; constructor.
Defined.

Lemma mergeActions_disruptive_witness :
  disruptives (mergeActions (toAction <$> [(str "id", Some (Bare (str "1"))); (str "block", None)]) phase2Actions) =
    [toAction (str "pass", None)].
Proof.
  etrans; [apply (mergeActions_disruptive _ phase2Actions (toAction (str "pass", None)));
    [simpl; lia|by vm_compute]|by vm_compute].
Defined.
