(* ===== verification/Directives.v ===== *)
(** The directives: src/internal/seclang/directives.go and its table,
    directivesmap.gen.go, with the setters of waf.go they call.

    A directive is a function of its text and of the options that all
    directives share; [None] is an error, which ends the parse, so the
    settings a failed directive may have assigned are not kept.  The file
    system, the registries of the audit log and the growth of slices are
    parameters. *)

From S2P Require Import Prelude GoLib StringUtil UrlTransform Variables Types Collections.
From S2P Require Import BodyBuffer TransactionState Macro Rule TransformCache Actions RuleGroup.
From S2P Require Import Engine Phases Waf RuleParser RuleSyntax RuleAssembly.

(** ** Options *)

(** The settings of the WAF that no other component reads here. *)
Record Settings := mkSettings {
  s_ComponentNames : list bytes;
  s_WebAppID : bytes;
  s_ServerSignature : bytes;
  s_AbortOnRemoteRulesFail : bool;
  s_SensorID : bytes;
  s_DataDir : bytes;
  s_UploadFileMode : Z;
  s_UploadFileLimit : Z;
  s_RequestBodyNoFilesLimit : Z;
  s_RxPreFilterEnabled : bool;
  s_auditLogWriter : bytes;
  s_auditLogWriterInitialized : bool;
  (** [AuditLogWriterConfig] *)
  s_Target : bytes;
  s_Formatter : bytes;
  s_Dir : bytes;
  s_DirMode : Z;
  s_FileMode : Z;
  s_debugLog : bytes;
}.
#[global] Instance Settings_eta : Eta Settings := λ x,
  mkSettings x.(s_ComponentNames) x.(s_WebAppID) x.(s_ServerSignature) x.(s_AbortOnRemoteRulesFail)
    x.(s_SensorID) x.(s_DataDir) x.(s_UploadFileMode) x.(s_UploadFileLimit) x.(s_RequestBodyNoFilesLimit)
    x.(s_RxPreFilterEnabled) x.(s_auditLogWriter) x.(s_auditLogWriterInitialized) x.(s_Target)
    x.(s_Formatter) x.(s_Dir) x.(s_DirMode) x.(s_FileMode) x.(s_debugLog).

#[global] Instance WAF_eta : Eta WAF := λ x,
  mkWAF x.(w_Rules) x.(w_RuleEngine) x.(w_ArgumentLimit) x.(w_RequestBodyAccess) x.(w_RequestBodyLimit)
    x.(w_RequestBodyLimitAction) x.(w_requestBodyInMemoryLimit) x.(w_ResponseBodyAccess)
    x.(w_ResponseBodyLimit) x.(w_ResponseBodyLimitAction) x.(w_ResponseBodyMimeTypes) x.(w_AuditEngine)
    x.(w_AuditLogParts) x.(w_AuditLogFormat) x.(w_AuditLogRelevantStatus) x.(w_RequestBodyJsonDepthLimit)
    x.(w_UploadKeepFiles) x.(w_UploadDir) x.(w_TmpDir) x.(w_debugLevel).

(** With the global table of transformation chains. *)
Record DirectiveOptions := mkOptions {
  d_WAF : WAF;
  d_settings : Settings;
  d_Datasets : gmap bytes (list bytes);
  d_Parser : ParserConfig;
  d_ids : transformationIDs;
}.
#[global] Instance DirectiveOptions_eta : Eta DirectiveOptions := λ x,
  mkOptions x.(d_WAF) x.(d_settings) x.(d_Datasets) x.(d_Parser) x.(d_ids).

Definition d_Rules (o : DirectiveOptions) : RuleGroup := o.(d_WAF).(w_Rules).
Definition setWAF (f : WAF → WAF) (o : DirectiveOptions) : DirectiveOptions := o <| d_WAF ::= f |>.
Definition setSettings (f : Settings → Settings) (o : DirectiveOptions) : DirectiveOptions :=
  o <| d_settings ::= f |>.
Definition setRules (rg : RuleGroup) (o : DirectiveOptions) : DirectiveOptions :=
  setWAF (λ w, w <| w_Rules := rg |>) o.

(** ** Numbers and words *)

(** [strconv.ParseInt(s, 8, 32)] *)
Fixpoint parseOctal (acc : Z) (s : bytes) : option Z :=
  match s with
  | [] => Some acc
  | c :: s => if (0x30 <=? c) && (c <=? 0x37) then parseOctal (acc * 8 + (c - 0x30)) s else None
  end.

Definition ParseOctal32 (s : bytes) : option Z :=
  let '(neg, ds) := match s with
                    | 0x2d :: r => (true, r)
                    | 0x2b :: r => (false, r)
                    | _ => (false, s)
                    end in
  match ds with
  | [] => None
  | _ => n ← parseOctal 0 ds;
         let v := if neg : bool then - n else n in
         if (-2147483648 <=? v) && (v <=? 2147483647) then Some v else None
  end.

(** [fs.FileMode] of it. *)
Definition fileMode (n : Z) : Z := n mod 4294967296.

(** [strings.Fields]: the maximal runs of runes that are not space. *)
Fixpoint fieldsLoop (rs : list (Z * bytes)) (cur : bytes) : list bytes :=
  match rs with
  | [] => if cur =s [] then [] else [cur]
  | (r, b) :: rs =>
      if IsSpace r then (if cur =s [] then fieldsLoop rs [] else cur :: fieldsLoop rs [])
      else fieldsLoop rs (cur ++ b)
  end.

Definition Fields (s : bytes) : list bytes := fieldsLoop (runes s) [].

(** ** The environment of the parser *)

(** The packages and the system outside the parser: [regexp.Compile], the
    registries, the file system and the allocator. *)
Class Environment := {
  Compile : bytes → option regex;
  (** The registries of transformations and operators. *)
  GetTransformation : bytes → option transformation;
  GetOperator : bytes → OperatorOptions → option operatorFn;
  (** The names of the registered writers and formatters, in lower case. *)
  writers : gset bytes;
  formatters : gset bytes;
  (** Whether there is access to the file system, whether a directory can be
      written and whether a debug log can be opened. *)
  HasAccessToFS : bool;
  isDirWritable : bytes → bool;
  openDebugLog : bytes → bool;
  (** [fs.Glob], [fs.ReadFile] and [os.Getwd]; [None] is an error. *)
  Glob : bytes → option (list bytes);
  ReadFile : bytes → option bytes;
  Getwd : option bytes;
  (** The free elements after the variables of a rule in their array. *)
  room : Rule → nat;
}.

(** The registered names of transformations are not empty and have no plus
    sign. *)
Class EnvironmentLaws `{E : !Environment} : Prop := {
  registered_names name t : GetTransformation name = Some t → name ≠ [] ∧ noPlus name;
}.

Section directives.
Context `{U : !Unicode, E : !Environment}.

Definition parseBoolean (data : bytes) : option bool :=
  let data := ToLower data in
  if data =s str "on" then Some true else if data =s str "off" then Some false else None.

(** The guard of most directives. *)
Definition nonempty {A} (opts : bytes) (k : option A) : option A :=
  if (length opts =? 0)%nat then None else k.

(** ** Settings *)

Definition directiveSecComponentSignature (opts : bytes) (o : DirectiveOptions) : option DirectiveOptions :=
  nonempty opts (Some (setSettings (λ s, s <| s_ComponentNames ::= (λ l, l ++ [opts]) |>) o)).

Definition directiveSecResponseBodyAccess (opts : bytes) (o : DirectiveOptions) : option DirectiveOptions :=
  nonempty opts (b ← parseBoolean opts; Some (setWAF (λ w, w <| w_ResponseBodyAccess := b |>) o)).

Definition directiveSecRequestBodyLimit (opts : bytes) (o : DirectiveOptions) : option DirectiveOptions :=
  nonempty opts (limit ← ParseInt64 opts; Some (setWAF (λ w, w <| w_RequestBodyLimit := limit |>) o)).

Definition directiveSecRequestBodyAccess (opts : bytes) (o : DirectiveOptions) : option DirectiveOptions :=
  nonempty opts (b ← parseBoolean opts; Some (setWAF (λ w, w <| w_RequestBodyAccess := b |>) o)).

Definition directiveSecRequestBodyJsonDepthLimit (opts : bytes) (o : DirectiveOptions)
    : option DirectiveOptions :=
  nonempty opts (
    limit ← Atoi opts;
    if limit <=? 0 then None
    else Some (setWAF (λ w, w <| w_RequestBodyJsonDepthLimit := limit |>) o)).

Definition directiveSecRuleEngine (opts : bytes) (o : DirectiveOptions) : option DirectiveOptions :=
  engine ← ParseRuleEngineStatus opts; Some (setWAF (λ w, w <| w_RuleEngine := engine |>) o).

Definition directiveUnsupported (opts : bytes) (o : DirectiveOptions) : option DirectiveOptions := Some o.

Definition directiveSecWebAppID (opts : bytes) (o : DirectiveOptions) : option DirectiveOptions :=
  nonempty opts (Some (setSettings (λ s, s <| s_WebAppID := opts |>) o)).

Definition directiveSecServerSignature (opts : bytes) (o : DirectiveOptions) : option DirectiveOptions :=
  nonempty opts (Some (setSettings (λ s, s <| s_ServerSignature := unquoted opts |>) o)).

Definition directiveSecResponseBodyMimeTypesClear (opts : bytes) (o : DirectiveOptions)
    : option DirectiveOptions :=
  if (0 <? length opts)%nat then None
  else Some (setWAF (λ w, w <| w_ResponseBodyMimeTypes := [] |>) o).

Definition directiveSecResponseBodyMimeType (opts : bytes) (o : DirectiveOptions) : option DirectiveOptions :=
  nonempty opts (Some (setWAF (λ w, w <| w_ResponseBodyMimeTypes := Split opts 0x20 |>) o)).

Definition limitAction (opts : bytes) : option BodyLimitAction :=
  let l := ToLower opts in
  if l =s str "reject" then Some BodyLimitActionReject
  else if l =s str "processpartial" then Some BodyLimitActionProcessPartial
  else None.

Definition directiveSecResponseBodyLimitAction (opts : bytes) (o : DirectiveOptions)
    : option DirectiveOptions :=
  a ← limitAction opts; Some (setWAF (λ w, w <| w_ResponseBodyLimitAction := a |>) o).

Definition directiveSecResponseBodyLimit (opts : bytes) (o : DirectiveOptions) : option DirectiveOptions :=
  nonempty opts (limit ← ParseInt64 opts; Some (setWAF (λ w, w <| w_ResponseBodyLimit := limit |>) o)).

Definition directiveSecRequestBodyLimitAction (opts : bytes) (o : DirectiveOptions)
    : option DirectiveOptions :=
  a ← limitAction opts; Some (setWAF (λ w, w <| w_RequestBodyLimitAction := a |>) o).

Definition directiveSecRequestBodyInMemoryLimit (opts : bytes) (o : DirectiveOptions)
    : option DirectiveOptions :=
  nonempty opts (
    limit ← ParseInt64 opts; Some (setWAF (λ w, w <| w_requestBodyInMemoryLimit := Some limit |>) o)).

Definition directiveSecRemoteRulesFailAction (opts : bytes) (o : DirectiveOptions) : option DirectiveOptions :=
  nonempty opts (
    let l := ToLower opts in
    if l =s str "abort" then Some (setSettings (λ s, s <| s_AbortOnRemoteRulesFail := true |>) o)
    else if l =s str "warn" then Some (setSettings (λ s, s <| s_AbortOnRemoteRulesFail := false |>) o)
    else None).

Definition directiveSecRemoteRules (opts : bytes) (o : DirectiveOptions) : option DirectiveOptions := None.

Definition directiveSecSensorID (opts : bytes) (o : DirectiveOptions) : option DirectiveOptions :=
  nonempty opts (Some (setSettings (λ s, s <| s_SensorID := opts |>) o)).

(** SecConnWriteStateLimit, SecConnReadStateLimit, SecPcreMatchLimitRecursion,
    SecPcreMatchLimit, SecHttpBlKey, SecGsbLookupDb, SecHashMethodPm,
    SecHashMethodRx, SecHashParam, SecHashKey, SecHashEngine, SecConnEngine and
    SecCollectionTimeout are accepted and do nothing. *)
Definition directiveIgnored (opts : bytes) (o : DirectiveOptions) : option DirectiveOptions := Some o.

Definition directiveSecDefaultAction (opts : bytes) (o : DirectiveOptions) : option DirectiveOptions :=
  nonempty opts (Some (o <| d_Parser ::= (λ p,
    p <| pc_RuleDefaultActions ::= (λ l, l ++ [opts]) |> <| pc_HasRuleDefaultActions := true |>) |>)).

Definition directiveSecAuditLog (opts : bytes) (o : DirectiveOptions) : option DirectiveOptions :=
  nonempty opts (Some (setSettings (λ s, s <| s_Target := opts |>) o)).

(** [SetAuditLogWriter]: closing the previous writer only logs. *)
Definition SetAuditLogWriter (name : bytes) (s : Settings) : Settings :=
  s <| s_auditLogWriterInitialized := false |> <| s_auditLogWriter := name |>.

Definition directiveSecAuditLogType (opts : bytes) (o : DirectiveOptions) : option DirectiveOptions :=
  nonempty opts (
    if decide (ToLower opts ∈ writers) then Some (setSettings (SetAuditLogWriter (ToLower opts)) o) else None).

Definition directiveSecAuditLogFormat (opts : bytes) (o : DirectiveOptions) : option DirectiveOptions :=
  nonempty opts (
    if decide (ToLower opts ∈ formatters)
    then Some (setSettings (λ s, s <| s_Formatter := ToLower opts |>) o) else None).

Definition directiveSecAuditLogStorageDir (opts : bytes) (o : DirectiveOptions) : option DirectiveOptions :=
  nonempty opts (Some (setSettings (λ s, s <| s_Dir := opts |>) o)).

Definition directiveSecAuditLogDirMode (opts : bytes) (o : DirectiveOptions) : option DirectiveOptions :=
  nonempty opts (m ← ParseOctal32 opts; Some (setSettings (λ s, s <| s_DirMode := fileMode m |>) o)).

Definition directiveSecAuditLogFileMode (opts : bytes) (o : DirectiveOptions) : option DirectiveOptions :=
  nonempty opts (m ← ParseOctal32 opts; Some (setSettings (λ s, s <| s_FileMode := fileMode m |>) o)).

Definition directiveSecAuditLogRelevantStatus (opts : bytes) (o : DirectiveOptions) : option DirectiveOptions :=
  nonempty opts (re ← Compile opts; Some (setWAF (λ w, w <| w_AuditLogRelevantStatus := Some re |>) o)).

Definition directiveSecAuditLogParts (opts : bytes) (o : DirectiveOptions) : option DirectiveOptions :=
  nonempty opts (p ← ParseAuditLogParts opts; Some (setWAF (λ w, w <| w_AuditLogParts := p |>) o)).

Definition directiveSecAuditEngine (opts : bytes) (o : DirectiveOptions) : option DirectiveOptions :=
  nonempty opts (au ← ParseAuditEngineStatus opts; Some (setWAF (λ w, w <| w_AuditEngine := au |>) o)).

Definition directiveSecDataDir (opts : bytes) (o : DirectiveOptions) : option DirectiveOptions :=
  nonempty opts (Some (setSettings (λ s, s <| s_DataDir := opts |>) o)).

Definition directiveSecUploadKeepFiles (opts : bytes) (o : DirectiveOptions) : option DirectiveOptions :=
  nonempty opts (
    status ← ParseUploadKeepFilesStatus opts;
    if negb HasAccessToFS && negb (bool_decide (status = UploadKeepFilesOff)) then None
    else Some (setWAF (λ w, w <| w_UploadKeepFiles := status |>) o)).

Definition directiveSecUploadFileMode (opts : bytes) (o : DirectiveOptions) : option DirectiveOptions :=
  nonempty opts (m ← ParseOctal32 opts; Some (setSettings (λ s, s <| s_UploadFileMode := fileMode m |>) o)).

Definition directiveSecUploadFileLimit (opts : bytes) (o : DirectiveOptions) : option DirectiveOptions :=
  nonempty opts (n ← Atoi opts; Some (setSettings (λ s, s <| s_UploadFileLimit := n |>) o)).

Definition directiveSecUploadDir (opts : bytes) (o : DirectiveOptions) : option DirectiveOptions :=
  nonempty opts (
    if HasAccessToFS then
      if negb (isDirWritable opts) then None
      else Some (setWAF (λ w, w <| w_UploadDir := opts |>) o)
    else None).

Definition directiveSecRequestBodyNoFilesLimit (opts : bytes) (o : DirectiveOptions) : option DirectiveOptions :=
  nonempty opts (n ← ParseInt64 opts; Some (setSettings (λ s, s <| s_RequestBodyNoFilesLimit := n |>) o)).

Definition directiveSecDebugLog (opts : bytes) (o : DirectiveOptions) : option DirectiveOptions :=
  nonempty opts (if openDebugLog opts then Some (setSettings (λ s, s <| s_debugLog := opts |>) o) else None).

(** [SetDebugLogLevel]: the valid levels are 0 to 9. *)
Definition directiveSecDebugLogLevel (opts : bytes) (o : DirectiveOptions) : option DirectiveOptions :=
  lvl ← ParseInt8 opts;
  if (0 <=? lvl) && (lvl <=? 9) then Some (setWAF (λ w, w <| w_debugLevel := lvl |>) o) else None.

Definition directiveSecIgnoreRuleCompilationErrors (opts : bytes) (o : DirectiveOptions)
    : option DirectiveOptions :=
  b ← parseBoolean opts; Some (o <| d_Parser ::= (λ p, p <| pc_IgnoreRuleCompilationErrors := b |>) |>).

(** The records of a dataset. *)
Definition datasetRecords (d : bytes) : list bytes :=
  filter (λ s, match s with [] => false | c :: _ => negb (c =? 0x23) end = true)
    (TrimSpace <$> Split (Trim d [0x60]) 0x0a).

Definition directiveSecDataset (opts : bytes) (o : DirectiveOptions) : option DirectiveOptions :=
  nonempty opts (
    let '(name, d, ok) := Cut opts 0x20 in
    if negb ok then None else Some (o <| d_Datasets ::= <[name := datasetRecords d]> |>)).

Definition directiveSecArgumentsLimit (opts : bytes) (o : DirectiveOptions) : option DirectiveOptions :=
  limit ← Atoi opts;
  if limit <=? 0 then None else Some (setWAF (λ w, w <| w_ArgumentLimit := limit |>) o).

Definition directiveSecRxPreFilter (opts : bytes) (o : DirectiveOptions) : option DirectiveOptions :=
  nonempty opts (b ← parseBoolean opts; Some (setSettings (λ s, s <| s_RxPreFilterEnabled := b |>) o)).

(** ** Rules *)

Definition markerRule (opts : bytes) (p : ParserConfig) : Rule :=
  setMeta (λ m, m <| Raw_ := str "SecMarker " ++ opts |> <| SecMark_ := opts |> <| ID_ := 0 |>
                  <| LogID_ := str "0" |> <| Phase_ := 0 |> <| Line_ := p.(pc_LastLine) |>
                  <| File_ := p.(pc_ConfigFile) |>) NewRule.

Definition directiveSecMarker (opts : bytes) (o : DirectiveOptions) : option DirectiveOptions :=
  nonempty opts (
    rg ← AddRule (mkChained (markerRule opts o.(d_Parser)) []) (d_Rules o); Some (setRules rg o)).

Definition ruleOptions (withOperator : bool) (raw opts : bytes) (datasets : gmap bytes (list bytes))
    (o : DirectiveOptions) : RuleOptions :=
  mkRuleOptions withOperator o.(d_Parser) raw opts datasets o.(d_settings).(s_RxPreFilterEnabled).

(** [options.WAF.Rules.Add] of what [ParseRule] returned. *)
Definition addParsed (p : parsed) (rg : RuleGroup) : option RuleGroup :=
  match p with
  | ParseError => None
  | ParsedRule r => AddRule (mkChained r []) rg
  | Chained => Some rg
  end.

Definition directiveSecAction (raw opts : bytes) (o : DirectiveOptions) : run (option DirectiveOptions) :=
  if (length opts =? 0)%nat then Done None else
  '(g, (rg, p)) ← ParseRule Compile GetTransformation GetOperator (ruleOptions false raw opts ∅ o)
                    (d_Rules o) o.(d_ids);
  Done (rg ← addParsed p rg; Some (setRules rg (o <| d_ids := g |>))).

(** An ignored error keeps what the parser did to the rule group. *)
Definition directiveSecRule (raw opts : bytes) (o : DirectiveOptions) : run (option DirectiveOptions) :=
  if (length opts =? 0)%nat then Done None else
  let ignoreErrors := o.(d_Parser).(pc_IgnoreRuleCompilationErrors) in
  '(g, (rg, p)) ← ParseRule Compile GetTransformation GetOperator (ruleOptions true raw opts o.(d_Datasets) o)
                    (d_Rules o) o.(d_ids);
  Done (match addParsed p rg with
        | Some rg => Some (setRules rg (o <| d_ids := g |>))
        | None => if ignoreErrors then Some (setRules rg (o <| d_ids := g |>)) else None
        end).

Definition directiveSecRuleRemoveByTag (opts : bytes) (o : DirectiveOptions) : option DirectiveOptions :=
  nonempty opts (Some (setRules (DeleteByTag opts (d_Rules o)) o)).

Definition directiveSecRuleRemoveByMsg (opts : bytes) (o : DirectiveOptions) : run (option DirectiveOptions) :=
  if (length opts =? 0)%nat then Done None else
  rg ← DeleteByMsg opts (d_Rules o); Done (Some (setRules rg o)).

(** An identifier, or a range of them when there is a dash after the first
    byte. *)
Inductive idOrRange := SingleID (id : Z) | IDRange (start end_ : Z).

Definition parseIDs (s : bytes) : option idOrRange :=
  match IndexByte s 0x2d with
  | None => id ← Atoi s; Some (SingleID id)
  | Some O => None
  | Some idx =>
      start ← Atoi (take idx s);
      end_ ← Atoi (drop (idx + 1) s);
      Some (IDRange start end_)
  end.

Fixpoint removeByIDs (l : list bytes) (rg : RuleGroup) : option RuleGroup :=
  match l with
  | [] => Some rg
  | x :: l =>
      ids ← parseIDs x;
      match ids with
      | SingleID id => removeByIDs l (DeleteByID id rg)
      | IDRange start end_ => if start >? end_ then None else removeByIDs l (DeleteByRange start end_ rg)
      end
  end.

Definition directiveSecRuleRemoveByID (opts : bytes) (o : DirectiveOptions) : option DirectiveOptions :=
  nonempty opts (rg ← removeByIDs (Fields opts) (d_Rules o); Some (setRules rg o)).

(** ** Updates of targets *)

(** The rule with an identifier, updated in place. *)
Fixpoint updateFirst (id : Z) (f : Rule → option Rule) (rg : RuleGroup) : option RuleGroup :=
  match rg with
  | [] => None
  | c :: rg =>
      if cr_ID c =? id then r ← f c.(cr_rule); Some (mkChained r c.(cr_chain) :: rg)
      else rg ← updateFirst id f rg; Some (c :: rg)
  end.

Definition updateTargetBySingleID (id : Z) (variables : bytes) (rg : RuleGroup) : option RuleGroup :=
  updateFirst id (ParseVariables Compile (Trim variables [0x22])) rg.

(** A copy of a rule, as [range] makes it: the slice of the variables is
    shared with the rule until an append finds no room in its array. *)
Record ruleCopy := mkCopy {
  rc_copy : Rule;
  rc_rule : Rule;
  rc_room : option nat;
}.

Definition copyRule (r : Rule) : ruleCopy := mkCopy r r (Some (room r)).

(** [AddVariable] of the copy appends past the length of the rule's slice. *)
Definition copyAddVariable (v : RuleVariable) (key : bytes) (iscount : bool) (rc : ruleCopy) : option ruleCopy :=
  copy ← AddVariable Compile v key iscount rc.(rc_copy);
  Some (mkCopy copy rc.(rc_rule) match rc.(rc_room) with Some (S n) => Some n | _ => None end).

(** [AddVariableNegation] of the copy writes the elements of the array. *)
Definition copyAddVariableNegation (v : RuleVariable) (key : bytes) (rc : ruleCopy) : option ruleCopy :=
  copy ← AddVariableNegation Compile v key rc.(rc_copy);
  Some (mkCopy copy
    match rc.(rc_room) with
    | Some _ => rc.(rc_rule) <| r_variables := take (length rc.(rc_rule).(r_variables)) copy.(r_variables) |>
    | None => rc.(rc_rule)
    end rc.(rc_room)).

(** [rp.ParseVariables] with the address of a copy: what becomes of the rule. *)
Definition parseVariablesOfCopy (variables : bytes) (r : Rule) : option Rule :=
  rc_rule <$> parseVariables copyAddVariable copyAddVariableNegation variables (copyRule r).

(** [for _, rule := range rules] with an update of the selected ones. *)
Fixpoint updateCopies (sel : Rule → bool) (variables : bytes) (rg : RuleGroup) : option RuleGroup :=
  match rg with
  | [] => Some []
  | c :: rg =>
      r ← (if sel c.(cr_rule) then parseVariablesOfCopy (Trim variables [0x22]) c.(cr_rule)
           else Some c.(cr_rule));
      rg ← updateCopies sel variables rg;
      Some (mkChained r c.(cr_chain) :: rg)
  end.

Definition inIDs (start end_ : Z) (r : Rule) : bool := (r_ID r >=? start) && (r_ID r <=? end_).

(** A single identifier ends the loop. *)
Fixpoint updateTargets (l : list bytes) (variables : bytes) (rg : RuleGroup) : option RuleGroup :=
  match l with
  | [] => Some rg
  | x :: l =>
      ids ← parseIDs x;
      match ids with
      | SingleID id => updateTargetBySingleID id variables rg
      | IDRange start end_ =>
          if start =? end_ then updateTargetBySingleID start variables rg
          else if start >? end_ then None
          else rg ← updateCopies (inIDs start end_) variables rg; updateTargets l variables rg
      end
  end.

Definition directiveSecRuleUpdateTargetByID (opts : bytes) (o : DirectiveOptions) : option DirectiveOptions :=
  nonempty opts (
    let idsOrRanges := Fields opts in
    if (length idsOrRanges <? 2)%nat then None else
    variables ← last idsOrRanges;
    rg ← updateTargets (removelast idsOrRanges) variables (d_Rules o); Some (setRules rg o)).

Definition directiveSecRuleUpdateTargetByTag (opts : bytes) (o : DirectiveOptions) : option DirectiveOptions :=
  match Fields opts with
  | [tag; variables] =>
      rg ← updateCopies (λ r, InSlice (Trim tag [0x22]) r.(r_meta).(Tags_)) variables (d_Rules o);
      Some (setRules rg o)
  | _ => None
  end.

(** ** Updates of actions *)

(** The zero [ParserConfig], with no disabled action. *)
Definition emptyConfig : ParserConfig := mkParserConfig [] [] [] false false 0 [] [] [].

(** The update of one rule; there are no default actions. *)
Definition updateRule (parsedActions : list ruleAction) (r : Rule) : parse Rule :=
  let r := if hasDisruptiveActions parsedActions then ClearDisruptiveActions r else r in
  applyParsedActions Compile GetTransformation emptyConfig ∅ parsedActions r.

Fixpoint updateFirstM (id : Z) (f : Rule → parse Rule) (rg : RuleGroup) : parse RuleGroup :=
  match rg with
  | [] => fails
  | c :: rg =>
      if cr_ID c =? id then r ←? f c.(cr_rule); ok (mkChained r c.(cr_chain) :: rg)
      else rg ←? updateFirstM id f rg; ok (c :: rg)
  end.

(** The rule is looked up first; the text is parsed before it is changed. *)
Definition updateActionBySingleID (id : Z) (actions : bytes) (rg : RuleGroup) : parse RuleGroup :=
  match FindByID id rg with
  | None => fails
  | Some _ =>
      parsedActions ←? liftR (parseActions (Trim actions [0x22]));
      updateFirstM id (updateRule parsedActions) rg
  end.

Fixpoint updateRange (start end_ : Z) (f : Rule → parse Rule) (rg : RuleGroup) : parse RuleGroup :=
  match rg with
  | [] => ok []
  | c :: rg =>
      r ←? (if inIDs start end_ c.(cr_rule) then f c.(cr_rule) else ok c.(cr_rule));
      rg ←? updateRange start end_ f rg;
      ok (mkChained r c.(cr_chain) :: rg)
  end.

Fixpoint updateActions (l : list bytes) (actions : bytes) (rg : RuleGroup) : parse RuleGroup :=
  match l with
  | [] => ok rg
  | x :: l =>
      ids ←? lift (parseIDs x);
      match ids with
      | SingleID id => updateActionBySingleID id actions rg
      | IDRange start end_ =>
          if start =? end_ then updateActionBySingleID start actions rg
          else if start >? end_ then fails
          else
            parsedActions ←? liftR (parseActions (Trim actions [0x22]));
            rg ←? updateRange start end_ (updateRule parsedActions) rg;
            updateActions l actions rg
      end
  end.

Definition directiveSecRuleUpdateActionByID (opts : bytes) (o : DirectiveOptions)
    : run (option DirectiveOptions) :=
  if (length opts =? 0)%nat then Done None else
  let idsOrRanges := Fields opts in
  if (length idsOrRanges <? 2)%nat then Done None else
  match last idsOrRanges with
  | None => Done None
  | Some actions =>
      '(g, rg) ← updateActions (removelast idsOrRanges) actions (d_Rules o) o.(d_ids);
      Done (rg ← rg; Some (setRules rg (o <| d_ids := g |>)))
  end.

(** ** The table of directives *)

Definition directive : Type := bytes → bytes → DirectiveOptions → run (option DirectiveOptions).

(** The directives that only read their options. *)
Definition simple (f : bytes → DirectiveOptions → option DirectiveOptions) : directive :=
  λ _ opts o, Done (f opts o).

Definition directivesMap : list (string * directive) := [
  ("seccomponentsignature", simple directiveSecComponentSignature);
  ("secmarker", simple directiveSecMarker);
  ("secaction", directiveSecAction);
  ("secrule", directiveSecRule);
  ("secresponsebodyaccess", simple directiveSecResponseBodyAccess);
  ("secrequestbodylimit", simple directiveSecRequestBodyLimit);
  ("secrequestbodyaccess", simple directiveSecRequestBodyAccess);
  ("secrequestbodyjsondepthlimit", simple directiveSecRequestBodyJsonDepthLimit);
  ("secruleengine", simple directiveSecRuleEngine);
  ("secwebappid", simple directiveSecWebAppID);
  ("secserversignature", simple directiveSecServerSignature);
  ("secruleremovebytag", simple directiveSecRuleRemoveByTag);
  ("secruleremovebymsg", λ _, directiveSecRuleRemoveByMsg);
  ("secruleremovebyid", simple directiveSecRuleRemoveByID);
  ("secresponsebodymimetypesclear", simple directiveSecResponseBodyMimeTypesClear);
  ("secresponsebodymimetype", simple directiveSecResponseBodyMimeType);
  ("secresponsebodylimitaction", simple directiveSecResponseBodyLimitAction);
  ("secresponsebodylimit", simple directiveSecResponseBodyLimit);
  ("secrequestbodylimitaction", simple directiveSecRequestBodyLimitAction);
  ("secrequestbodyinmemorylimit", simple directiveSecRequestBodyInMemoryLimit);
  ("secremoterulesfailaction", simple directiveSecRemoteRulesFailAction);
  ("secremoterules", simple directiveSecRemoteRules);
  ("secconnwritestatelimit", simple directiveIgnored);
  ("secsensorid", simple directiveSecSensorID);
  ("secconnreadstatelimit", simple directiveIgnored);
  ("secpcrematchlimitrecursion", simple directiveIgnored);
  ("secpcrematchlimit", simple directiveIgnored);
  ("sechttpblkey", simple directiveIgnored);
  ("secgsblookupdb", simple directiveIgnored);
  ("sechashmethodpm", simple directiveIgnored);
  ("sechashmethodrx", simple directiveIgnored);
  ("sechashparam", simple directiveIgnored);
  ("sechashkey", simple directiveIgnored);
  ("sechashengine", simple directiveIgnored);
  ("secdefaultaction", simple directiveSecDefaultAction);
  ("secconnengine", simple directiveIgnored);
  ("seccollectiontimeout", simple directiveIgnored);
  ("secauditlog", simple directiveSecAuditLog);
  ("secauditlogtype", simple directiveSecAuditLogType);
  ("secauditlogformat", simple directiveSecAuditLogFormat);
  ("secauditlogstoragedir", simple directiveSecAuditLogStorageDir);
  ("secauditlogdirmode", simple directiveSecAuditLogDirMode);
  ("secauditlogfilemode", simple directiveSecAuditLogFileMode);
  ("secauditlogrelevantstatus", simple directiveSecAuditLogRelevantStatus);
  ("secauditlogparts", simple directiveSecAuditLogParts);
  ("secauditengine", simple directiveSecAuditEngine);
  ("secdatadir", simple directiveSecDataDir);
  ("secuploadkeepfiles", simple directiveSecUploadKeepFiles);
  ("secuploadfilemode", simple directiveSecUploadFileMode);
  ("secuploadfilelimit", simple directiveSecUploadFileLimit);
  ("secuploaddir", simple directiveSecUploadDir);
  ("secrequestbodynofileslimit", simple directiveSecRequestBodyNoFilesLimit);
  ("secdebuglog", simple directiveSecDebugLog);
  ("secdebugloglevel", simple directiveSecDebugLogLevel);
  ("secruleupdatetargetbyid", simple directiveSecRuleUpdateTargetByID);
  ("secruleupdateactionbyid", λ _, directiveSecRuleUpdateActionByID);
  ("secruleupdatetargetbytag", simple directiveSecRuleUpdateTargetByTag);
  ("secignorerulecompilationerrors", simple directiveSecIgnoreRuleCompilationErrors);
  ("secdataset", simple directiveSecDataset);
  ("secargumentslimit", simple directiveSecArgumentsLimit);
  ("secrxprefilter", simple directiveSecRxPreFilter);
  ("secargumentseparator", simple directiveUnsupported);
  ("seccookieformat", simple directiveUnsupported);
  ("secruleupdatetargetbymsg", simple directiveUnsupported);
  ("secrulescript", simple directiveUnsupported);
  ("secruleperftime", simple directiveUnsupported);
  ("secunicodemap", simple directiveUnsupported);
  ("sectmpdir", simple directiveUnsupported) ]%string.

Definition lookupDirective (name : bytes) : option directive :=
  snd <$> find (λ kd, str kd.1 =s name) directivesMap.
End directives.
