(* ===== verification/Configuration.v ===== *)
(** What the directives keep: unique identifiers, well-linked chains and the
    table of transformation chains, over every directive of the table of
    Directives; and what the updates of targets and actions do to the rules. *)

From S2P Require Import Prelude GoLib StringUtil UrlTransform Variables Types Collections.
From S2P Require Import BodyBuffer TransactionState Macro Rule TransformCache Actions RuleGroup.
From S2P Require Import Engine Phases Waf RuleParser RuleSyntax RuleAssembly Directives.

Lemma Forall_sublist {A} (P : A → Prop) l l' : l `sublist_of` l' → Forall P l' → Forall P l.
Proof.
  induction 1 as [|x l l' Hs IH|x l l' Hs IH]; [done|..]; intros [H1 H2]%Forall_cons; [constructor; auto|auto].
Qed.

Section configuration.
Context `{U : !Unicode, E : !Environment, L : !EnvironmentLaws}.

(** The rules and the table of chains after any directive. *)
Record tables_ok (o : DirectiveOptions) : Prop := {
  tb_ids : wf_ids o.(d_ids);
  tb_rules : rules_ok GetTransformation o.(d_ids) (d_Rules o);
}.

(** The rule group after any directive but SecRuleUpdateActionById. *)
Record linked (rg : RuleGroup) : Prop := {
  lk_unique : uniqueIDs rg;
  lk_chains : Forall chain_wf rg;
}.

Definition config_ok (o : DirectiveOptions) : Prop := tables_ok o ∧ linked (d_Rules o).

(** What a directive that succeeds makes of the options. *)
Definition kept_tables (o o' : DirectiveOptions) : Prop := tables_ok o'.
Definition kept_all (o o' : DirectiveOptions) : Prop := tables_ok o' ∧ (linked (d_Rules o) → linked (d_Rules o')).

(** A directive that returns, and keeps [P] when it succeeds. *)
Definition keeps (P : DirectiveOptions → DirectiveOptions → Prop) (d : directive) : Prop :=
  ∀ raw opts o, tables_ok o → wp (d raw opts o) (λ res, ∀ o', res = Some o' → P o o').

(** A directive that sets options only. *)
Definition settingsOnly (f : bytes → DirectiveOptions → option DirectiveOptions) : Prop :=
  ∀ opts o o', f opts o = Some o' → d_Rules o' = d_Rules o ∧ o'.(d_ids) = o.(d_ids).

Lemma settingsOnly_keeps f : settingsOnly f → keeps kept_all (simple f).
Proof.
  intros Hf raw opts o [H1 H2]. unfold simple. intros o' [E1 E2]%Hf. unfold kept_all.
  rewrite E1. split; [|done]. by split; rewrite ?E1, ?E2.
Qed.

(** A directive that removes rules. *)
Lemma rules_sublist_kept o rg : tables_ok o → rg `sublist_of` d_Rules o → kept_all o (setRules rg o).
Proof.
  intros [H1 H2] Hs. split; [split; cbn; [done|by eapply Forall_sublist]|]. intros [H3 H4]. split; cbn.
  - by eapply uniqueIDs_sublist.
  - by eapply Forall_sublist.
Qed.

Lemma DeleteByID_sublist id rg : DeleteByID id rg `sublist_of` rg.
Proof. induction rg as [|c rg IH]; [done|]. cbn. case_match; by constructor. Qed.

Lemma removeByIDs_sublist l : ∀ rg rg', removeByIDs l rg = Some rg' → rg' `sublist_of` rg.
Proof.
  induction l as [|x l IH]; intros rg rg' H; cbn in H; [by injection H as <-|].
  destruct (parseIDs x) as [[id|s e]|]; cbn in H; [| |done].
  - etrans; [by apply IH|apply DeleteByID_sublist].
  - case_match; [done|]. etrans; [by apply IH|apply sublist_filter].
Qed.

Lemma DeleteByMsg_sublist msg rg rg' : DeleteByMsg msg rg = Done rg' → rg' `sublist_of` rg.
Proof.
  revert rg'. induction rg as [|c rg IH]; intros rg' H; cbn in H; [by injection H as <-|].
  case_match; [|done]. destruct (DeleteByMsg msg rg) as [kept| |]; [|done..]. injection H as <-.
  case_match; constructor; by apply IH.
Qed.

Lemma AddRule_Some c rg rg' : AddRule c rg = Some rg' → rg' = rg ++ [c].
Proof. unfold AddRule. case_match; [done|]. by intros [= <-]. Qed.

Lemma AddRule_linked c rg rg' : AddRule c rg = Some rg' → chain_wf c → linked rg → linked rg'.
Proof.
  intros Ha Hc [H1 H2]. pose proof (AddRule_spec rg c H1) as H. rewrite Ha in H.
  destruct H as (-> & Hu & _). split; [done|by apply Forall_snoc_2].
Qed.

Lemma AddRule_kept o c rg : tables_ok o → chain_wf c →
  rule_ok GetTransformation o.(d_ids) c.(cr_rule) → c.(cr_chain) = [] →
  AddRule c (d_Rules o) = Some rg → kept_all o (setRules rg o).
Proof.
  intros [H1 H2] Hc Hr He Ha. split; [|by eapply AddRule_linked]. split; cbn; [done|].
  rewrite (AddRule_Some _ _ _ Ha). apply Forall_snoc_2; [done|]. split; [done|]. by rewrite He.
Qed.

Lemma single_chain_wf r : chain_wf (mkChained r []).
Proof. by split; cbn. Qed.

Lemma directiveSecMarker_keeps : keeps kept_all (simple directiveSecMarker).
Proof.
  intros raw opts o Ho. unfold simple, directiveSecMarker, nonempty. intros o'. case_match; [done|].
  destruct (AddRule _ _) as [rg|] eqn:E1; cbn; [|done]. intros [= <-].
  eapply AddRule_kept; [done|apply single_chain_wf| |done..]. cbn.
  apply rule_ok_new; [apply Ho|done..].
Qed.

(** [ParseRule] and the addition of the rule it returns. *)
Lemma ParseRule_linked_group ro o g rg p : linked (d_Rules o) →
  ParseRule Compile GetTransformation GetOperator ro (d_Rules o) o.(d_ids) = Done (g, (rg, p)) → linked rg.
Proof.
  intros [H3 H4] Hp.
  destruct (ParseRule_linked Compile GetTransformation GetOperator ro (d_Rules o) (d_ids o) g rg p H4 Hp) as [Hch Heff].
  split; [|done]. destruct p as [|r|]; cbn in Heff.
  - destruct Heff as [->|[_ ->]]; [done|]. destruct (DiscardPendingChain_sub (d_Rules o)) as [n ->].
    eapply uniqueIDs_sublist; [apply sublist_take|done].
  - by destruct Heff as [-> _].
  - destruct Heff as (init & parent & rule & E1 & _ & ->). unfold uniqueIDs in *. rewrite E1 in H3.
    rewrite fmap_app in *. exact H3.
Qed.

Lemma addParsed_kept ro o g rg p :
  tables_ok o → ParseRule Compile GetTransformation GetOperator ro (d_Rules o) o.(d_ids) = Done (g, (rg, p)) →
  kept_all o (setRules rg (o <| d_ids := g |>)) ∧
  ∀ rg', addParsed p rg = Some rg' → kept_all o (setRules rg' (o <| d_ids := g |>)).
Proof.
  intros [H1 H2] Hp. pose proof (ParseRule_wp Compile GetTransformation GetOperator registered_names ro
    (d_Rules o) (d_ids o) H1 H2) as Hwp. rewrite Hp in Hwp. destruct Hwp as (G1 & _ & G3 & G4).
  assert (tables_ok (setRules rg (o <| d_ids := g |>))) as Hok by (by split; cbn).
  split; [split; [done|]; intros Hl; by eapply ParseRule_linked_group|]. intros rg' Ha.
  destruct p as [|r|]; cbn in Ha; [done| |injection Ha as <-; split; [done|]; intros Hl; by eapply ParseRule_linked_group].
  destruct (AddRule_kept (setRules rg (o <| d_ids := g |>)) (mkChained r []) rg' Hok (single_chain_wf r)) as [K1 K2];
    [by apply G4|done|exact Ha|].
  split; [exact K1|]. intros Hl. apply K2. cbn. by eapply ParseRule_linked_group.
Qed.

Lemma directiveSecAction_keeps : keeps kept_all directiveSecAction.
Proof.
  intros raw opts o Ho. unfold directiveSecAction. case_match; [done|]. pose proof Ho as [H1 H2].
  pose proof (ParseRule_wp Compile GetTransformation GetOperator registered_names (ruleOptions false raw opts ∅ o) _ _ H1 H2) as Hwp.
  apply wp_elim in Hwp as ([g [rg p]] & Ep & _). rewrite Ep. run_simpl. intros o' Eo.
  destruct (addParsed p rg) as [rg'|] eqn:Ea; [|done]. injection Eo as <-.
  by apply (addParsed_kept (ruleOptions false raw opts ∅ o) o g rg p Ho Ep).
Qed.

Lemma directiveSecRule_keeps : keeps kept_all directiveSecRule.
Proof.
  intros raw opts o Ho. unfold directiveSecRule. case_match; [done|]. pose proof Ho as [H1 H2].
  pose proof (ParseRule_wp Compile GetTransformation GetOperator registered_names
    (ruleOptions true raw opts o.(d_Datasets) o) _ _ H1 H2) as Hwp.
  apply wp_elim in Hwp as ([g [rg p]] & Ep & _). rewrite Ep. run_simpl. intros o' Eo.
  destruct (addParsed_kept (ruleOptions true raw opts o.(d_Datasets) o) o g rg p Ho Ep) as [G1 G2].
  destruct (addParsed p rg) as [rg'|]; [injection Eo as <-; by apply G2|]. case_match; [|done]. by injection Eo as <-.
Qed.

(** ** Updates of targets *)

(** Only the variables of the rule change. *)
Definition retargeted (r r' : Rule) : Prop := ∃ vs, r' = r <| r_variables := vs |>.

Lemma retargeted_refl r : retargeted r r.
Proof. exists (r_variables r). by destruct r. Qed.

Lemma AddVariable_retargeted r0 v key c r r' :
  AddVariable Compile v key c r = Some r' → retargeted r0 r → retargeted r0 r'.
Proof.
  unfold AddVariable. destruct (keyRegex _ _ _); cbn; [|done]. intros [= <-] [vs ->]. by eexists.
Qed.

Lemma AddVariableNegation_retargeted r0 v key r r' :
  AddVariableNegation Compile v key r = Some r' → retargeted r0 r → retargeted r0 r'.
Proof.
  unfold AddVariableNegation. destruct (keyRegex _ _ _); cbn; [|done]. intros [= <-] [vs ->]. by eexists.
Qed.

Lemma ParseVariables_retargeted vars r r' : ParseVariables Compile vars r = Some r' → retargeted r r'.
Proof.
  intros H. refine (parseVariables_inv _ _ (retargeted r) _ _ vars r r' H (retargeted_refl r)).
  - intros v key c r1 r2. apply AddVariable_retargeted.
  - intros v key r1 r2. apply AddVariableNegation_retargeted.
Qed.

Lemma parseVariablesOfCopy_retargeted vars r r' : parseVariablesOfCopy vars r = Some r' → retargeted r r'.
Proof.
  unfold parseVariablesOfCopy. destruct (parseVariables _ _ _ _) as [rc|] eqn:H; cbn; [|done]. intros [= <-].
  refine (parseVariables_inv _ _ (λ rc, retargeted r rc.(rc_rule)) _ _ vars _ rc H (retargeted_refl r)).
  - intros v key c r1 r2. unfold copyAddVariable. destruct (AddVariable _ _ _ _ _); cbn; [|done]. by intros [= <-].
  - intros v key r1 r2. unfold copyAddVariableNegation. destruct (AddVariableNegation _ _ _ _); cbn; [|done].
    intros [= <-] [vs Ev]. cbn. destruct (rc_room r1); [|by exists vs]. rewrite Ev. by eexists.
Qed.

(** Groups of the same rules but for the variables of the chain starters. *)
Definition same_group (rg rg' : RuleGroup) : Prop :=
  Forall2 (λ c c', retargeted c.(cr_rule) c'.(cr_rule) ∧ c'.(cr_chain) = c.(cr_chain)) rg rg'.

Lemma same_group_refl rg : same_group rg rg.
Proof. apply Forall_Forall2_diag, Forall_true. intros c. split; [apply retargeted_refl|done]. Qed.

Lemma same_group_linked rg rg' : same_group rg rg' → linked rg → linked rg'.
Proof.
  intros Hs [H3 H4]. split.
  - unfold uniqueIDs in *. replace (cr_ID <$> rg') with (cr_ID <$> rg); [done|]. clear -Hs.
    induction Hs as [|c c' rg rg' [[vs Er] _] Hs IH]; [done|]. rewrite !fmap_cons, IH. f_equal.
    unfold cr_ID. by rewrite Er.
  - clear -H4 Hs. induction Hs as [|c c' rg rg' [[vs Er] Ec] Hs IH]; [constructor|].
    apply Forall_cons in H4 as [[G1 G2] G3]. constructor; [|by apply IH].
    destruct c as [r ch], c' as [r' ch']. cbn in *. subst. split; [exact G1|]. cbn [cr_rule cr_chain] in *.
    destruct ch as [|m ch]; [done|]. cbn [removelast] in *. by inversion G2; subst; constructor.
Qed.

Lemma same_group_kept o rg : tables_ok o → same_group (d_Rules o) rg → kept_all o (setRules rg o).
Proof.
  intros [H1 H2] Hs. split; [|by apply same_group_linked]. split; cbn; [done|].
  clear -H2 Hs. unfold rules_ok in *. induction Hs as [|c c' rg rg' [[vs Er] Ec] Hs IH]; [constructor|].
  apply Forall_cons in H2 as [[G1 G2] G3]. constructor; [|by apply IH]. rewrite Er, Ec. split; [|done].
  by eapply rule_ok_frame; [..|exact G1].
Qed.

Lemma updateCopies_same sel vars rg : ∀ rg', updateCopies sel vars rg = Some rg' → same_group rg rg'.
Proof.
  induction rg as [|c rg IH]; intros rg' H; cbn in H; [injection H as <-; constructor|].
  destruct (if sel (cr_rule c) then _ else _) as [r|] eqn:Er; cbn in H; [|done].
  destruct (updateCopies sel vars rg) as [rg1|]; cbn in H; [|done]. injection H as <-.
  constructor; [|by apply IH]. split; [|done]. destruct (sel (cr_rule c)).
  - by eapply parseVariablesOfCopy_retargeted.
  - injection Er as <-. apply retargeted_refl.
Qed.

Lemma updateFirst_same id vars rg : ∀ rg', updateFirst id (ParseVariables Compile vars) rg = Some rg' → same_group rg rg'.
Proof.
  induction rg as [|c rg IH]; intros rg' H; cbn in H; [done|]. destruct (cr_ID c =? id).
  - destruct (ParseVariables _ _ _) as [r|] eqn:Er; cbn in H; [|done]. injection H as <-.
    constructor; [|apply same_group_refl]. split; [by eapply ParseVariables_retargeted|done].
  - destruct (updateFirst _ _ _) as [rg1|]; cbn in H; [|done]. injection H as <-.
    constructor; [|by apply IH]. split; [apply retargeted_refl|done].
Qed.

Lemma same_group_trans rg1 rg2 rg3 : same_group rg1 rg2 → same_group rg2 rg3 → same_group rg1 rg3.
Proof.
  intros H. revert rg3. induction H as [|c1 c2 rg1 rg2 [[vs E1] Ec1] _ IH]; intros rg3 H3;
    inversion H3 as [|? c3 ? rg3' [[vs' E2] Ec2]]; subst; [constructor|].
  constructor; [|by apply IH]. split; [|congruence].
  exists vs'. rewrite E2, E1. by destruct (cr_rule c1).
Qed.

Lemma updateTargets_same l vars : ∀ rg rg', updateTargets l vars rg = Some rg' → same_group rg rg'.
Proof.
  induction l as [|x l IH]; intros rg rg' H; cbn in H; [injection H as <-; apply same_group_refl|].
  destruct (parseIDs x) as [[id|s e]|]; cbn in H; [by eapply updateFirst_same| |done].
  case_match; [by eapply updateFirst_same|]. case_match; [done|].
  destruct (updateCopies _ _ _) as [rg1|] eqn:E1; cbn in H; [|done].
  eapply same_group_trans; [by eapply updateCopies_same|by apply IH].
Qed.

Lemma directiveSecRuleUpdateTargetByID_keeps : keeps kept_all (simple directiveSecRuleUpdateTargetByID).
Proof.
  intros raw opts o Ho. unfold simple, directiveSecRuleUpdateTargetByID, nonempty. intros o'.
  case_match; [done|]. case_match; [done|]. destruct (last _) as [vars|]; cbn; [|done].
  destruct (updateTargets _ _ _) as [rg|] eqn:Eu; cbn; [|done]. intros [= <-].
  apply same_group_kept; [done|]. by eapply updateTargets_same.
Qed.

Lemma directiveSecRuleUpdateTargetByTag_keeps : keeps kept_all (simple directiveSecRuleUpdateTargetByTag).
Proof.
  intros raw opts o Ho. unfold simple, directiveSecRuleUpdateTargetByTag. intros o'.
  destruct (Fields opts) as [|tag [|vars [|? ?]]]; try done.
  destruct (updateCopies _ _ _) as [rg|] eqn:Eu; cbn; [|done]. intros [= <-].
  apply same_group_kept; [done|]. by eapply updateCopies_same.
Qed.

(** ** All directives *)

(** A directive that sets options: by its cases. *)
Ltac head_of t := match t with ?f _ => head_of f | _ => t end.

Ltac settings :=
  apply settingsOnly_keeps; intros opts o o' H;
  match type of H with ?t = _ => let f := head_of t in unfold f in H end;
  unfold nonempty in H; repeat first [done | progress simplify_option_eq | case_match].

Definition excluded : list string := ["secruleremovebymsg"; "secruleupdateactionbyid"]%string.

Lemma directivesMap_keeps : Forall (λ kd, kd.1 ∈ excluded ∨ keeps kept_all kd.2) directivesMap.
Proof.
  assert (∀ o rg, tables_ok o → rg `sublist_of` d_Rules o → kept_all o (setRules rg o)) as Hsub
    by (intros; by apply rules_sublist_kept).
  unfold directivesMap. repeat apply Forall_cons_2; [..|apply Forall_nil_2]; cbn [fst snd].
  all: try (right; solve [settings]).
  all: try (left; set_solver).
  all: right.
  - apply directiveSecMarker_keeps.
  - apply directiveSecAction_keeps.
  - apply directiveSecRule_keeps.
  - intros raw opts o Ho. unfold simple, directiveSecRuleRemoveByTag, nonempty. intros o'. case_match; [done|]. intros [= <-].
    apply Hsub; [done|apply sublist_filter].
  - intros raw opts o Ho. unfold simple, directiveSecRuleRemoveByID, nonempty. intros o'. case_match; [done|].
    destruct (removeByIDs _ _) as [rg|] eqn:Er; cbn; [|done]. intros [= <-].
    apply Hsub; [done|]. by eapply removeByIDs_sublist.
  - apply directiveSecRuleUpdateTargetByID_keeps.
  - apply directiveSecRuleUpdateTargetByTag_keeps.
Qed.
Lemma lookup_keeps name d : lookupDirective name = Some d →
  name = str "secruleremovebymsg" ∨ name = str "secruleupdateactionbyid" ∨ keeps kept_all d.
Proof.
  unfold lookupDirective. destruct (find _ _) as [[k d']|] eqn:Ef; cbn; [|done]. intros [= <-].
  apply find_some in Ef as [Hin Hk]. apply bytes_eqb_eq in Hk as <-. cbn [fst].
  apply list_elem_of_In in Hin. pose proof directivesMap_keeps as H. rewrite Forall_forall in H.
  destruct (H _ Hin) as [He|He]; cbn in He; [|by right; right].
  apply list_elem_of_In in He. destruct He as [<-|[<-|[]]]; [by left|by right; left].
Qed.

(** ** Updates of actions *)

Lemma ClearDisruptiveActions_ok g r : rule_ok GetTransformation g r → rule_ok GetTransformation g (ClearDisruptiveActions r).
Proof. by apply rule_ok_frame. Qed.

Lemma defaults_empty : defaults_ok ∅.
Proof. apply map_Forall_empty. Qed.

Lemma finalActions_empty phase act : finalActions ∅ phase act = act.
Proof. done. Qed.

(** What the update leaves of the rule's actions, followed by its own. *)
Definition updatedShape (act : list ruleAction) (r : Rule) : list (bytes * option ActionType) :=
  shape (if hasDisruptiveActions act then ClearDisruptiveActions r else r) ++ executed act.

Lemma updateRule_safe act r g :
  wf_ids g → rule_ok GetTransformation g r → Forall typed act →
  psafe (updateRule act r) (λ g' r', rule_ok GetTransformation g' r' ∧ shape r' = updatedShape act r) g.
Proof.
  intros Hg Hr Ht. unfold updateRule.
  eapply psafe_mono; [apply applyParsedActions_safe; [apply registered_names|done| |done|apply defaults_empty]|].
  - case_match; [by apply ClearDisruptiveActions_ok|done].
  - intros g' r' _ (H1 & _ & H2). split; [done|]. by rewrite H2, finalActions_empty.
Qed.

Notation group_ok g rg := (rules_ok GetTransformation g rg).

Lemma group_ok_cons g c rg : group_ok g (c :: rg) ↔
  (rule_ok GetTransformation g c.(cr_rule) ∧ Forall (rule_ok GetTransformation g) c.(cr_chain)) ∧ group_ok g rg.
Proof. unfold rules_ok. by rewrite Forall_cons. Qed.

Lemma updateFirstM_safe id act rg : ∀ g, wf_ids g → group_ok g rg → Forall typed act →
  psafe (updateFirstM id (updateRule act) rg) (λ g' rg', group_ok g' rg') g.
Proof.
  induction rg as [|c rg IH]; intros g Hg Hrg Ht; cbn [updateFirstM]; [by apply psafe_fails|].
  apply group_ok_cons in Hrg as [[Hc1 Hc2] Hrg]. case_match.
  - eapply psafe_bind; [by apply updateRule_safe|]. intros g1 r1 Hg1 Hp [Hr1 _]. apply psafe_ok; [done|].
    apply group_ok_cons. split; [split; cbn; [done|]|by eapply rules_ok_mono].
    eapply Forall_impl; [exact Hc2|]. intros x. by apply rule_ok_mono.
  - eapply psafe_bind; [by apply IH|]. intros g1 rg1 Hg1 Hp Hrg1. apply psafe_ok; [done|].
    apply group_ok_cons. split; [|done]. split; [by eapply rule_ok_mono|].
    eapply Forall_impl; [exact Hc2|]. intros x. by apply rule_ok_mono.
Qed.

Lemma updateRange_safe start end_ act rg : ∀ g, wf_ids g → group_ok g rg → Forall typed act →
  psafe (updateRange start end_ (updateRule act) rg) (λ g' rg', group_ok g' rg') g.
Proof.
  induction rg as [|c rg IH]; intros g Hg Hrg Ht; cbn [updateRange]; [apply psafe_ok; [done|constructor]|].
  apply group_ok_cons in Hrg as [[Hc1 Hc2] Hrg].
  eapply (psafe_bind _ _ (λ g r, rule_ok GetTransformation g r)).
  { case_match; [|by apply psafe_ok]. eapply psafe_mono; [by apply updateRule_safe|]. by intros g1 r1 _ [? _]. }
  intros g1 r1 Hg1 Hp1 Hr1. eapply psafe_bind; [apply IH; [done|by eapply rules_ok_mono|done]|].
  intros g2 rg2 Hg2 Hp2 Hrg2. apply psafe_ok; [done|]. apply group_ok_cons.
  split; [split; cbn; [by eapply rule_ok_mono|]|done].
  eapply Forall_impl; [exact Hc2|]. intros x Hx. by eapply rule_ok_mono, rule_ok_mono.
Qed.

Lemma parseActions_psafe actions g : wf_ids g → psafe (liftR (parseActions actions)) (λ _ act, Forall typed act) g.
Proof.
  intros Hg. apply psafe_liftR; [done|]. eapply wp_mono; [apply parseActions_one|]. intros o Ho act ->. by apply Ho.
Qed.

Lemma updateSingle_safe id actions rg g : wf_ids g → group_ok g rg →
  psafe (updateActionBySingleID id actions rg) (λ g' rg', group_ok g' rg') g.
Proof.
  intros Hg Hrg. unfold updateActionBySingleID. case_match; [|by apply psafe_fails].
  eapply psafe_bind; [by apply parseActions_psafe|]. intros g1 act Hg1 Hp Ht.
  apply updateFirstM_safe; [done|by eapply rules_ok_mono|done].
Qed.

Lemma updateActions_safe l actions : ∀ rg g, wf_ids g → group_ok g rg →
  psafe (updateActions l actions rg) (λ g' rg', group_ok g' rg') g.
Proof.
  induction l as [|x l IH]; intros rg g Hg Hrg; cbn [updateActions]; [by apply psafe_ok|].
  eapply (psafe_bind _ _ (λ _ _, True)); [by apply psafe_lift|]. intros g1 ids Hg1 Hp1 _.
  pose proof (rules_ok_mono _ _ _ _ Hp1 Hrg) as Hrg1.
  destruct ids as [id|s e]; [by apply updateSingle_safe|]. case_match; [by apply updateSingle_safe|].
  case_match; [by apply psafe_fails|].
  eapply psafe_bind; [by apply parseActions_psafe|]. intros g2 act Hg2 Hp2 Ht.
  eapply psafe_bind; [apply updateRange_safe; [done|by eapply rules_ok_mono|done]|].
  intros g3 rg3 Hg3 Hp3 Hrg3. by apply IH.
Qed.

Lemma directiveSecRuleUpdateActionByID_keeps : keeps kept_tables (λ _, directiveSecRuleUpdateActionByID).
Proof.
  intros raw opts o [H1 H2]. unfold directiveSecRuleUpdateActionByID. case_match; [done|]. cbv zeta.
  case_match; [done|]. destruct (last _) as [actions|]; [|done].
  eapply wp_bind; [by apply updateActions_safe|]. intros [g [rg|]] (G1 & G2 & G3); cbn in *; [|done].
  intros o' [= <-]. split; cbn; [done|]. by apply G3.
Qed.
(** [m] does not run out of fuel, and its result satisfies [Q]. *)
Definition runs {A} (m : run A) (Q : A → Prop) : Prop :=
  match m with Done a => Q a | Panic => True | OutOfFuel => False end.

Lemma runs_bind {A B} (m : run A) (f : A → run B) (Q : B → Prop) (R : A → Prop) :
  runs m R → (∀ a, R a → runs (f a) Q) → runs (a ← m; f a) Q.
Proof. intros Hm Hf. destruct m as [a| |]; [by apply Hf|done..]. Qed.

Lemma wp_runs {A} (m : run A) (Q R : A → Prop) : wp m Q → (∀ a, Q a → R a) → runs m R.
Proof. intros Hm HQ. destruct m as [a| |]; [by apply HQ|done..]. Qed.

Lemma removeByMsg_lookup : lookupDirective (str "secruleremovebymsg") = Some (λ _, directiveSecRuleRemoveByMsg).
Proof. done. Qed.

Lemma updateAction_lookup : lookupDirective (str "secruleupdateactionbyid") = Some (λ _, directiveSecRuleUpdateActionByID).
Proof. done. Qed.

(** Every directive keeps the table of chains. *)
Lemma directive_tables name d raw opts o : lookupDirective name = Some d → tables_ok o →
  runs (d raw opts o) (λ res, ∀ o', res = Some o' → tables_ok o').
Proof.
  intros Hl Ho. pose proof (lookup_keeps name d Hl) as [->|[->|Hk]].
  - rewrite removeByMsg_lookup in Hl. injection Hl as <-. unfold directiveSecRuleRemoveByMsg.
    case_match; [done|]. destruct (DeleteByMsg _ _) as [rg| |] eqn:Em; [|done|].
    + intros o' [= <-]. apply rules_sublist_kept; [done|]. by eapply DeleteByMsg_sublist.
    + exfalso. revert Em. rewrite DeleteByMsg_spec. by case_match.
  - rewrite updateAction_lookup in Hl. injection Hl as <-.
    eapply wp_runs; [by apply directiveSecRuleUpdateActionByID_keeps|done].
  - eapply wp_runs; [by apply Hk|]. intros res Hres o' ->. by destruct (Hres o' eq_refl).
Qed.

(** Every directive but SecRuleUpdateActionById keeps the configuration: the
    identifiers of the rules stay unique, the chains well linked, and the
    transformations of every rule those its identifiers name.  Every
    directive but SecRuleRemoveByMsg returns. *)
Theorem directive_config name d raw opts o :
  lookupDirective name = Some d → name ≠ str "secruleupdateactionbyid" → config_ok o →
  (∀ o', d raw opts o = Done (Some o') → config_ok o') ∧
  (name ≠ str "secruleremovebymsg" → ∃ res, d raw opts o = Done res).
Proof.
  intros Hl Hne Ho. pose proof (lookup_keeps name d Hl) as [->|[->|Hk]]; [|done|].
  - rewrite removeByMsg_lookup in Hl. injection Hl as <-. split; [|done]. intros o' Hd. unfold directiveSecRuleRemoveByMsg in Hd.
    case_match; [done|]. destruct (DeleteByMsg _ _) as [rg| |] eqn:Em; [|done..]. injection Hd as <-.
    destruct Ho as [Ht Hk]. apply DeleteByMsg_sublist in Em. destruct (rules_sublist_kept o rg Ht Em) as [K1 K2].
    split; [done|by apply K2].
  - destruct Ho as [Ht Ho]. specialize (Hk raw opts o Ht). apply wp_elim in Hk as (res & -> & Hres).
    split; [|by eexists]. intros o' [= ->]. destruct (Hres o' eq_refl) as [K1 K2]. split; [done|by apply K2].
Qed.

Lemma Clear_disruptive r : disruptiveActions (ClearDisruptiveActions r) = [].
Proof.
  unfold disruptiveActions, shape, ClearDisruptiveActions. cbn. induction (r_actions r) as [|a l IH]; [done|].
  rewrite filter_cons. case_decide as Ha; [|done]. rewrite fmap_cons, filter_cons. cbn [snd].
  rewrite decide_False; [done|]. by intros [= ?].
Qed.

Lemma hasDisruptive_nil act : hasDisruptiveActions act = false → disruptives act = [].
Proof.
  unfold hasDisruptiveActions, disruptives. induction act as [|a l IH]; cbn [existsb]; [done|].
  intros [Ha Hl]%orb_false_iff. by rewrite filter_cons, decide_False, IH by (done || congruence).
Qed.

(** SecRuleUpdateActionById replaces the disruptive action of a rule when the
    new actions have one, and keeps it otherwise; the other new actions are
    appended. *)
Theorem updateRule_disruptive actions act r g g' r' :
  wf_ids g → rule_ok GetTransformation g r → parseActions actions = Done (Some act) →
  updateRule act r g = Done (g', Some r') →
  shape r' = updatedShape act r ∧
  disruptiveActions r' =
    (if hasDisruptiveActions act then (λ a, (a.(Key), a.(Atype))) <$> disruptives act else disruptiveActions r) ∧
  (length (disruptives act) ≤ 1)%nat.
Proof.
  intros Hg Hr Hp Hu. pose proof (parseActions_one actions) as Hone. rewrite Hp in Hone.
  destruct (Hone act eq_refl) as [Ht Hlen]. pose proof (updateRule_safe act r g Hg Hr Ht) as Hs.
  unfold psafe in Hs. rewrite Hu in Hs. destruct Hs as (_ & _ & Hs). destruct (Hs r' eq_refl) as [_ Hsh].
  split_and!; [done| |done]. unfold disruptiveActions at 1. rewrite Hsh. unfold updatedShape.
  rewrite filter_app, executed_disruptive. destruct (hasDisruptiveActions act) eqn:Eh.
  - fold (disruptiveActions (ClearDisruptiveActions r)). by rewrite Clear_disruptive.
  - fold (disruptiveActions r). rewrite hasDisruptive_nil by done. by rewrite app_nil_r.
Qed.

(** ** Updates of targets *)

Notation copyTargets := (addTargets copyAddVariable copyAddVariableNegation).
Notation ruleTargets := (addTargets (AddVariable Compile) (AddVariableNegation Compile)).

(** A copy that only gets exceptions writes them to the rule. *)
Lemma copy_negations l : Forall (λ t, t.(tg_negation) = true) l → ∀ r n,
  rc_rule <$> copyTargets l (mkCopy r r (Some n)) = ruleTargets l r.
Proof.
  induction 1 as [|[neg c v s] l Ht Hl IH]; intros r n; [done|]. cbn [tg_negation] in Ht. subst neg.
  cbn [addTargets]. unfold addTarget. cbn [tg_negation tg_variable tg_selector].
  unfold copyAddVariableNegation. cbn [rc_copy rc_rule rc_room].
  destruct (AddVariableNegation Compile v _ r) as [r'|] eqn:Ea; cbn [mbind option_bind]; [|done].
  assert (r <| r_variables := take (length (r_variables r)) (r_variables r') |> = r') as ->.
  { unfold AddVariableNegation in Ea. destruct (keyRegex _ _ _); cbn in Ea; [|done]. injection Ea as <-.
    cbn. rewrite take_ge by (by rewrite length_fmap). by destruct r. }
  apply IH.
Qed.

(** A copy that only gets variables leaves the rule as it is. *)
Lemma copy_additions l : Forall (λ t, t.(tg_negation) = false) l → ∀ rc rc',
  copyTargets l rc = Some rc' → rc'.(rc_rule) = rc.(rc_rule).
Proof.
  induction 1 as [|[neg c v s] l Ht Hl IH]; intros rc rc' H; cbn [addTargets] in H; [by injection H as <-|].
  cbn [tg_negation] in Ht. subst neg. unfold addTarget in H. cbn [tg_negation tg_variable tg_selector] in H.
  destruct (copyAddVariable _ _ _ rc) as [rc1|] eqn:Ea; cbn [mbind option_bind] in H; [|done].
  rewrite (IH _ _ H). unfold copyAddVariable in Ea.
  destruct (AddVariable _ _ _ _ _); cbn in Ea; [|done]. by injection Ea as <-.
Qed.

Definition printTargets (l : list target) : bytes := Join (printTarget <$> l) 0x7c.

Lemma copyOf_negations l r : l ≠ [] → Forall (λ t, selectable t.(tg_variable) t.(tg_selector)) l →
  Forall (λ t, t.(tg_negation) = true) l →
  parseVariablesOfCopy (printTargets l) r = ruleTargets l r.
Proof.
  intros Hne Hs Hn. unfold parseVariablesOfCopy, printTargets. rewrite parseVariables_printed by done.
  by apply copy_negations.
Qed.

Lemma copyOf_additions l r r' : l ≠ [] → Forall (λ t, selectable t.(tg_variable) t.(tg_selector)) l →
  Forall (λ t, t.(tg_negation) = false) l →
  parseVariablesOfCopy (printTargets l) r = Some r' → r' = r.
Proof.
  intros Hne Hs Hn. unfold parseVariablesOfCopy, printTargets. rewrite parseVariables_printed by done.
  destruct (addTargets _ _ l _) as [rc|] eqn:Er; cbn; [|done]. intros [= <-].
  by rewrite (copy_additions l Hn _ _ Er).
Qed.

Definition selectedUpdate (sel : Rule → bool) (f : Rule → option Rule) (c : ChainedRule) : option ChainedRule :=
  r ← (if sel c.(cr_rule) then f c.(cr_rule) else Some c.(cr_rule)); Some (mkChained r c.(cr_chain)).

(** Updating the targets of a range or of a tag with exceptions adds them to
    every selected rule, although the loop works on copies of the rules. *)
Theorem updateCopies_exceptions sel l vars rg :
  l ≠ [] → Forall (λ t, selectable t.(tg_variable) t.(tg_selector)) l → Forall (λ t, t.(tg_negation) = true) l →
  Trim vars [0x22] = printTargets l →
  updateCopies sel vars rg = mapM (selectedUpdate sel (ruleTargets l)) rg.
Proof.
  intros Hne Hs Hn Hv. induction rg as [|c rg IH]; [done|]. cbn [updateCopies mapM]. rewrite Hv.
  rewrite copyOf_negations, IH by done.
  change (selectedUpdate sel (ruleTargets l) c) with
    (r ← (if sel c.(cr_rule) then ruleTargets l c.(cr_rule) else Some c.(cr_rule)); Some (mkChained r c.(cr_chain))).
  by destruct (if sel (cr_rule c) then _ else _).
Qed.

(** Updating the targets of a range or of a tag with variables to look at
    changes no rule: they are added to the copies. *)
Theorem updateCopies_lost sel l vars rg rg' :
  l ≠ [] → Forall (λ t, selectable t.(tg_variable) t.(tg_selector)) l → Forall (λ t, t.(tg_negation) = false) l →
  Trim vars [0x22] = printTargets l →
  updateCopies sel vars rg = Some rg' → rg' = rg.
Proof.
  intros Hne Hs Hn Hv. revert rg'. induction rg as [|c rg IH]; intros rg' H; cbn in H; [by injection H as <-|].
  rewrite Hv in H. destruct (if sel (cr_rule c) then _ else _) as [r|] eqn:Er; cbn in H; [|done].
  destruct (updateCopies sel vars rg) as [rg1|]; cbn in H; [|done]. injection H as <-.
  rewrite (IH rg1) by done. f_equal. assert (r = cr_rule c) as ->; [|by destruct c].
  destruct (sel (cr_rule c)); [|by injection Er as <-]. by eapply copyOf_additions.
Qed.
End configuration.

(** * Examples *)

Definition exampleOperator : operatorFn := λ tx _, Done (tx, false).

#[local] Instance exampleEnv : Environment := {|
  Compile := λ _, Some (λ _, true);
  GetTransformation := λ name, if name =s str "lowercase" then Some (λ v, Done (v, false, None)) else None;
  GetOperator := λ name _, if name =s str "rx" then Some exampleOperator else None;
  writers := {[ str "serial" ]};
  formatters := {[ str "native" ]};
  HasAccessToFS := true;
  isDirWritable := λ _, true;
  openDebugLog := λ _, true;
  Glob := λ _, Some [];
  ReadFile := λ _, None;
  Getwd := Some [];
  room := λ _, 1%nat;
|}.

#[local] Instance exampleEnv_laws : EnvironmentLaws.
Proof.
  split. intros name t. cbn [GetTransformation exampleEnv].
  destruct (name =s str "lowercase") eqn:E; [|intros [=]]. intros _.
  apply bytes_eqb_eq in E as ->. split; [done|]. apply (bool_decide_eq_true_1 _). by vm_compute.
Qed.

Definition exampleSettings : Settings :=
  mkSettings [] [] [] false [] [] 0 0 0 false (str "serial") false [] [] [] 0 0 [].

Definition exampleOptions : DirectiveOptions :=
  mkOptions (NewWAF true []) exampleSettings ∅ emptyConfig initialIDs.

(** Directives by name, one after the other. *)
Fixpoint runDirectives (l : list (string * bytes)) (o : DirectiveOptions) : run (option DirectiveOptions) :=
  match l with
  | [] => Done (Some o)
  | (name, opts) :: l =>
      match lookupDirective (U := latin1) (str name) with
      | None => Done None
      | Some d => r ← d opts opts o; match r with Some o => runDirectives l o | None => Done None end
      end
  end.

Definition rulesOf (m : run (option DirectiveOptions)) : list (Z * list Z) :=
  match m with Done (Some o) => (λ c, (cr_ID c, r_ID <$> c.(cr_chain))) <$> d_Rules o | _ => [] end.

Lemma exampleOptions_ok : config_ok exampleOptions.
Proof. split; [split; [apply initialIDs_wf|constructor]|split; constructor]. Qed.

Definition exampleLine (vars op acts : string) : bytes := printRule (str vars) (str op) (Some (str acts)).

Lemma directive_config_witness :
  ∃ o', directiveSecRule (U := latin1) [] (exampleLine "ARGS" "@rx a" "id:1,deny,t:lowercase") exampleOptions = Done (Some o') ∧
    config_ok o' ∧ cr_ID <$> d_Rules o' = [1].
Proof.
  assert (∃ o', directiveSecRule (U := latin1) [] (exampleLine "ARGS" "@rx a" "id:1,deny,t:lowercase") exampleOptions = Done (Some o')
    ∧ cr_ID <$> d_Rules o' = [1]) as (o' & E & Hid) by (vm_compute; eexists; split; reflexivity).
  exists o'. split; [done|]. split; [|done].
  assert (str "secrule" ≠ str "secruleupdateactionbyid") as Hne by (intros H; vm_compute in H; discriminate H).
  destruct (directive_config (U := latin1) (str "secrule") directiveSecRule []
    (exampleLine "ARGS" "@rx a" "id:1,deny,t:lowercase") exampleOptions eq_refl Hne exampleOptions_ok) as [H _].
  exact (H o' E).
Defined.

(** SecRuleUpdateActionById can give several rules one identifier. *)
Lemma updateAction_duplicates :
  rulesOf (runDirectives [("secaction", str "id:1,pass"); ("secaction", str "id:2,pass");
    ("secruleupdateactionbyid", str "1-2 id:7")]%string exampleOptions) = [(7, []); (7, [])].
Proof. by vm_compute. Qed.

(** A chain whose member fails to compile, when errors are ignored, takes the
    next rule of the file as its member. *)
Lemma pendingChain_absorbs :
  rulesOf (runDirectives [("secignorerulecompilationerrors", str "On");
    ("secrule", exampleLine "ARGS" "@rx a" "id:1,chain"); ("secrule", exampleLine "UNKNOWN_NAME" "@rx b" "t:none");
    ("secrule", exampleLine "ARGS" "@rx c" "id:3,log")]%string exampleOptions) = [(1, [3])].
Proof. by vm_compute. Qed.

Definition updateText : bytes := str "drop,log".
Definition denyRule : Rule := AddAction (str "deny") ADeny NewRule.

Definition updateActs : list ruleAction := toAction <$> [(str "drop", None); (str "log", None)].

Lemma updateRule_disruptive_witness :
  ∃ g r, updateRule (U := latin1) updateActs denyRule initialIDs = Done (g, Some r) ∧ (disruptiveActions r).*1 = [str "drop"].
Proof.
  assert (parseActions (U := latin1) updateText = Done (Some updateActs)) as H1 by (vm_compute; reflexivity).
  assert (∃ g r, updateRule (U := latin1) updateActs denyRule initialIDs = Done (g, Some r)) as (g & r & H2)
    by (do 2 eexists; vm_compute; reflexivity).
  exists g, r. split; [exact H2|].
  assert (rule_ok GetTransformation initialIDs denyRule) as Hr by (by apply rule_ok_new; [apply initialIDs_wf|..]).
  destruct (updateRule_disruptive (U := latin1) updateText updateActs denyRule initialIDs g r initialIDs_wf Hr H1 H2)
    as (_ & Hd & _).
  rewrite Hd. vm_compute. reflexivity.
Defined.

Definition exceptions : list target :=
  [mkTarget true false V.Args (ByKey (str "id")); mkTarget true false V.Args (ByRegex (str "^x"))].
Definition additions : list target := [mkTarget false false V.RequestCookies Whole].
Definition argsRule : ChainedRule :=
  mkChained (NewRule <| r_variables := [mkParams false V.Args None [] []] |>) [].

Lemma selectable_exceptions : Forall (λ t, selectable t.(tg_variable) t.(tg_selector)) exceptions.
Proof.
  constructor; [|constructor; [done|constructor]]. cbn. split_and!; [done| |done..].
  apply (bool_decide_eq_true_1 _). by vm_compute.
Qed.

Lemma updateCopies_exceptions_witness :
  updateCopies (U := latin1) (λ _, true) (printTargets exceptions) [argsRule] =
    mapM (selectedUpdate (λ _, true) (addTargets (AddVariable (U := latin1) Compile) (AddVariableNegation (U := latin1) Compile) exceptions)) [argsRule].
Proof.
  apply (updateCopies_exceptions (U := latin1) (λ _, true) exceptions (printTargets exceptions) [argsRule]);
    [done|apply selectable_exceptions|by repeat constructor|by vm_compute].
Defined.

Lemma updateCopies_lost_witness :
  ∃ rg, updateCopies (U := latin1) (λ _, true) (printTargets additions) [argsRule] = Some rg ∧ rg = [argsRule].
Proof.
  assert (∃ rg, updateCopies (U := latin1) (λ _, true) (printTargets additions) [argsRule] = Some rg) as [rg E]
    by (eexists; vm_compute; reflexivity).
  exists rg. split; [exact E|].
  apply (updateCopies_lost (U := latin1) (λ _, true) additions (printTargets additions) [argsRule] rg);
    [done|by repeat constructor|by repeat constructor|by vm_compute|exact E].
Defined.
