(* ===== verification/Parser.v ===== *)
(** The parser of configurations: src/internal/seclang/parser.go.

    The file system is the class [Environment]; [bufio.Scanner] and package
    path are modelled.  Includes nest through [evaluateLine], whose fuel is
    the depth of the nesting; [maxIncludeRecursion] is enough, as every
    include is counted and no more than that many are accepted.  An error
    ends the parse. *)

From S2P Require Import Prelude GoLib StringUtil UrlTransform PathTransform Variables Types Collections.
From S2P Require Import BodyBuffer TransactionState Macro Rule TransformCache Actions RuleGroup.
From S2P Require Import Engine Phases Waf RuleParser RuleSyntax RuleAssembly Directives Configuration.

Definition maxIncludeRecursion : Z := 100.

Record Parser := mkParser {
  p_options : DirectiveOptions;
  p_currentLine : Z;
  p_currentFile : bytes;
  p_currentDir : bytes;
  p_includeCount : Z;
}.
#[global] Instance Parser_eta : Eta Parser := λ x,
  mkParser x.(p_options) x.(p_currentLine) x.(p_currentFile) x.(p_currentDir) x.(p_includeCount).

(** [NewParser] *)
Definition NewParser (waf : WAF) (settings : Settings) (ids : transformationIDs) : Parser :=
  mkParser (mkOptions waf settings ∅ emptyConfig ids) 0 [] [] 0.

(** ** bufio.Scanner *)

(** [bufio.MaxScanTokenSize]: a line of that length does not fit the buffer,
    and [Scan] stops there. *)
Definition maxScanTokenSize : Z := 65536.

Definition dropCR (s : bytes) : bytes := match last s with Some 0x0d => removelast s | _ => s end.

(** The texts between newlines; an empty one at the end is no line. *)
Definition rawLines (data : bytes) : list bytes :=
  let l := Split data 0x0a in match last l with Some [] => removelast l | _ => l end.

Fixpoint scanned (l : list bytes) : list bytes :=
  match l with
  | [] => []
  | s :: l => if Z.of_nat (length s) <? maxScanTokenSize then dropCR s :: scanned l else []
  end.

Definition scanLines (data : bytes) : list bytes := scanned (rawLines data).

(** ** Package path *)

(** [path.Join] of two elements. *)
Definition pathJoin (a b : bytes) : run bytes :=
  match a, b with
  | [], [] => Done []
  | [], _ => Clean b
  | _, [] => Clean a
  | _, _ => Clean (a ++ [slash] ++ b)
  end.

(** [path.Dir] *)
Definition pathDir (p : bytes) : run bytes :=
  Clean match LastIndexByte p slash with Some i => take (i + 1) p | None => [] end.

Section parser.
Context `{U : !Unicode, E : !Environment}.

(** ** Lines *)

Section lines.
Context (evaluate : bytes → Parser → run (option Parser)).

(** The loop of [parseString] on the lines left: [buf] is the line buffer. *)
Fixpoint parseLines (lines : list bytes) (buf : bytes) (inBackticks : bool) (p : Parser)
    : run (option Parser) :=
  match lines with
  | [] => Done (if inBackticks then None else Some p)
  | l :: lines =>
      let p := p <| p_currentLine ::= Z.succ |> in
      let line := TrimSpace l in
      match line with
      | [] => parseLines lines buf inBackticks p
      | c :: _ =>
          if c =? 0x23 then parseLines lines buf inBackticks p else
          e ← index line (length line - 1);
          let inBackticks :=
            if negb inBackticks && (e =? 0x60) then true
            else if inBackticks && (c =? 0x60) then false
            else inBackticks in
          if inBackticks then parseLines lines (buf ++ line ++ [0x0a]) inBackticks p
          else if e =? 0x5c then parseLines lines (buf ++ removelast line) inBackticks p
          else
            r ← evaluate (buf ++ line) p;
            match r with None => Done None | Some p => parseLines lines [] inBackticks p end
      end
  end.

Definition parseString (data : bytes) (p : Parser) : run (option Parser) :=
  parseLines (scanLines data) [] false p.

(** ** Files *)

(** The loop of [FromFile]; [isGlob] paths are not joined to the directory. *)
Fixpoint fromFiles (isGlob : bool) (files : list bytes) (p : Parser) : run (option Parser) :=
  match files with
  | [] => Done (Some p)
  | f :: files =>
      let profilePath := TrimSpace f in
      let isAbs := match profilePath with c :: _ => c =? slash | [] => false end in
      profilePath ← (if negb isGlob && negb isAbs then pathJoin p.(p_currentDir) profilePath
                     else Done profilePath);
      let lastDir := p.(p_currentDir) in
      dir ← pathDir profilePath;
      let p := p <| p_currentFile := profilePath |> <| p_currentDir := dir |> in
      match ReadFile profilePath with
      | None => Done None
      | Some file =>
          r ← parseString file p;
          match r with
          | None => Done None
          | Some p => fromFiles isGlob files (p <| p_currentDir := lastDir |>)
          end
      end
  end.

Definition FromFile (profilePath : bytes) (p : Parser) : run (option Parser) :=
  let originalDir := p.(p_currentDir) in
  let isGlob := byte_in 0x2a profilePath in
  match (if isGlob then Glob profilePath else Some [profilePath]) with
  | None => Done None
  | Some files =>
      r ← fromFiles isGlob files p;
      Done (match r with
            | None => None
            | Some p => Some (p <| p_currentDir := originalDir |> <| p_currentFile := [] |>)
            end)
  end.

Definition FromString (data : bytes) (p : Parser) : run (option Parser) :=
  let oldCurrentFile := p.(p_currentFile) in
  r ← parseString data (p <| p_currentFile := str "_inline_" |>);
  Done (match r with None => None | Some p => Some (p <| p_currentFile := oldCurrentFile |>) end).
End lines.

(** ** Directives *)

(** The options of a directive without the quotes around them. *)
Definition trimOptions (opts : bytes) : bytes :=
  match opts, last opts with
  | 0x22 :: _, Some 0x22 => if (3 <=? length opts)%nat then Trim opts [0x22] else opts
  | _, _ => opts
  end.

(** What the parser tells the directive about its place. *)
Definition placed (p : Parser) (wd : bytes) : DirectiveOptions :=
  p.(p_options) <| d_Parser ::= (λ c, c <| pc_LastLine := p.(p_currentLine) |>
    <| pc_ConfigFile := p.(p_currentFile) |> <| pc_ConfigDir := p.(p_currentDir) |>
    <| pc_WorkingDir := wd |>) |>.

Definition workingDir (p : Parser) : option bytes :=
  if HasAccessToFS then Getwd else Some p.(p_options).(d_Parser).(pc_WorkingDir).

Fixpoint evaluateLine (fuel : nat) (l : bytes) (p : Parser) : run (option Parser) :=
  match l with
  | [] => Done None
  | c :: _ =>
      if c =? 0x23 then Done None else
      let '(dir, opts, _) := Cut l 0x20 in
      let directive := ToLower dir in
      let opts := trimOptions opts in
      if directive =s str "include" then
        if p.(p_includeCount) >=? maxIncludeRecursion then Done None else
        match fuel with
        | O => OutOfFuel
        | S fuel => FromFile (evaluateLine fuel) opts (p <| p_includeCount ::= Z.succ |>)
        end
      else
        match lookupDirective directive with
        | None => Done None
        | Some d =>
            match workingDir p with
            | None => Done None
            | Some wd =>
                r ← d l opts (placed p wd);
                Done (match r with None => None | Some o => Some (p <| p_options := o |>) end)
            end
        end
  end.

(** The depth of the includes of a parser that has counted none. *)
Definition maxDepth : nat := Z.to_nat maxIncludeRecursion.

Definition parseConfig (data : bytes) (p : Parser) : run (option Parser) :=
  FromString (evaluateLine maxDepth) data p.
End parser.

(** * The parser returns *)

Section includes.
Context `{U : !Unicode, E : !Environment, L : !EnvironmentLaws}.

Lemma Clean_wp path : wp (Clean path) (λ _, True).
Proof. destruct path as [|c r]; [done|]. by destruct (Clean_eq (c :: r)) as [-> _]. Qed.

Lemma pathJoin_wp a b : wp (pathJoin a b) (λ _, True).
Proof. destruct a, b; [done|apply Clean_wp..]. Qed.

(** The tables are consistent and at least [n] includes are counted. *)
Definition parser_ok (n : Z) (p : Parser) : Prop := tables_ok p.(p_options) ∧ n <= p.(p_includeCount).

(** The result of a parse that ends well. *)
Definition result_ok (n : Z) (o : option Parser) : Prop := ∀ p, o = Some p → parser_ok n p.

Section lines.
Context (evaluate : bytes → Parser → run (option Parser)) (n : Z).
Context (Heval : ∀ l p, parser_ok n p → runs (evaluate l p) (result_ok n)).

Lemma parseLines_runs lines : ∀ buf bt p, parser_ok n p → runs (parseLines evaluate lines buf bt p) (result_ok n).
Proof.
  induction lines as [|l lines IH]; intros buf bt p Hp; cbn [parseLines].
  { intros p'. destruct bt; [done|]. by intros [= <-]. }
  destruct (TrimSpace l) as [|c t]; [by apply IH|]. case_match; [by apply IH|].
  rewrite index_lt by (simpl; lia). run_simpl.
  destruct (if negb bt && _ then true else _); [by apply IH|]. case_match; [by apply IH|].
  eapply runs_bind; [by apply Heval|]. intros [p1|] H1; [|by intros ? ?]. apply IH. by apply H1.
Qed.

Lemma parseString_runs data p : parser_ok n p → runs (parseString evaluate data p) (result_ok n).
Proof. apply parseLines_runs. Qed.

Lemma fromFiles_runs isGlob files : ∀ p, parser_ok n p → runs (fromFiles evaluate isGlob files p) (result_ok n).
Proof.
  induction files as [|f files IH]; intros p Hp; cbn [fromFiles]; [by intros p' [= <-]|].
  eapply (runs_bind _ _ _ (λ _, True)).
  { case_match; [|done]. eapply wp_runs; [apply pathJoin_wp|done]. }
  intros path _. eapply (runs_bind _ _ _ (λ _, True)); [eapply wp_runs; [apply Clean_wp|done]|]. intros dir _.
  destruct (ReadFile path) as [file|]; [|by intros ? ?].
  eapply runs_bind; [by apply parseString_runs|]. intros [p1|] H1; [|by intros ? ?].
  apply IH. by destruct (H1 p1 eq_refl).
Qed.

Lemma FromFile_runs path p : parser_ok n p → runs (FromFile evaluate path p) (result_ok n).
Proof.
  intros Hp. unfold FromFile. destruct (if byte_in 0x2a path then _ else _) as [files|]; [|by intros ? ?].
  eapply runs_bind; [by apply fromFiles_runs|]. intros [p1|] H1; [|by intros ? ?]. intros p' [= <-].
  by destruct (H1 p1 eq_refl).
Qed.

Lemma FromString_runs data p : parser_ok n p → runs (FromString evaluate data p) (result_ok n).
Proof.
  intros Hp. unfold FromString. eapply runs_bind; [by apply parseString_runs|].
  intros [p1|] H1; [|by intros ? ?]. intros p' [= <-].
  by destruct (H1 p1 eq_refl).
Qed.
End lines.

Lemma placed_tables p wd : tables_ok p.(p_options) → tables_ok (placed p wd).
Proof. intros [H1 H2]. by split. Qed.

(** A line that is not an include. *)
Lemma directive_runs n name l opts p : parser_ok n p →
  runs (match lookupDirective name with
        | None => Done None
        | Some d =>
            match workingDir p with
            | None => Done None
            | Some wd =>
                r ← d l opts (placed p wd);
                Done (match r with None => None | Some o => Some (p <| p_options := o |>) end)
            end
        end) (result_ok n).
Proof.
  intros [Hp Hn]. destruct (lookupDirective _) as [d|] eqn:El; [|by intros ? ?].
  destruct (workingDir p) as [wd|]; [|by intros ? ?].
  eapply runs_bind; [eapply directive_tables; [done|by apply placed_tables]|].
  intros [o|] Ho; [|by intros ? ?]. intros p' [= <-]. split; [by apply Ho|done].
Qed.

Lemma evaluateLine_runs fuel : ∀ n l p, parser_ok n p → maxIncludeRecursion <= Z.of_nat fuel + n →
  runs (evaluateLine fuel l p) (result_ok n).
Proof.
  induction fuel as [|fuel IH]; intros n [|c l] p Hp Hf; try (by intros ? ?);
    cbn [evaluateLine]; (destruct (c =? 0x23); [by intros ? ?|]);
    destruct (Cut (c :: l) 0x20) as [[dir opts] found];
    (destruct (ToLower dir =s str "include"); [|by apply directive_runs]);
    destruct (Z.geb_spec (p_includeCount p) maxIncludeRecursion); try (by intros ? ?).
  - destruct Hp. lia.
  - assert (runs (FromFile (evaluateLine fuel) (trimOptions opts) (p <| p_includeCount ::= Z.succ |>))
      (result_ok (n + 1))) as H1.
    { apply FromFile_runs; [|destruct Hp; split; [done|cbn; lia]]. intros l' p' Hp'. apply IH; [done|lia]. }
    destruct (FromFile _ _ _); [|done..]. intros p' Hp'. destruct (H1 p' Hp') as [G1 G2]. split; [done|lia].
Qed.

(** C13: Parsing a configuration ends, however its files include one another: a
    hundred levels of fuel are enough from any count of includes.  (It can end in
    a panic, as the removal by message of a rule that has none does.)  When
    it succeeds, the transformations of every rule are those its
    identifiers name. *)
Theorem parseConfig_terminates data p :
  tables_ok p.(p_options) → 0 <= p.(p_includeCount) →
  parseConfig data p = Panic ∨
  ∃ res, parseConfig data p = Done res ∧ ∀ p', res = Some p' → tables_ok p'.(p_options).
Proof.
  intros Ht Hn. assert (runs (parseConfig data p) (result_ok 0)) as H.
  { apply FromString_runs; [|done]. intros l p' Hp'. apply evaluateLine_runs; [done|]. unfold maxDepth. lia. }
  destruct (parseConfig data p) as [res| |]; [right|by left|done].
  exists res. split; [done|]. intros p' Hp'. by apply H.
Qed.
End includes.

(** * Lines *)

Section continuation.
Context (evaluate : bytes → Parser → run (option Parser)).

(** A piece of a directive, on its line: no comment, no backtick at its end,
    nothing to trim. *)
Record piece (s : bytes) : Prop := {
  pc_first : ∃ c t, s = c :: t ∧ tightByte c = true ∧ c ≠ 0x23;
  pc_last : ∃ t c, s = t ++ [c] ∧ tightByte c = true ∧ c ≠ 0x60 ∧ c ≠ 0x5c;
}.

Lemma TrimSpace_ends c s t d : c :: s = t ++ [d] → tightByte c = true → tightByte d = true →
  TrimSpace (c :: s) = c :: s.
Proof.
  intros E Hc Hd. destruct t as [|c' t].
  - injection E as -> ->. apply TrimSpace_key; [done|]. by repeat constructor.
  - injection E as -> ->. by apply TrimSpace_tight.
Qed.

Lemma index_snoc {A} (l : list A) x : index (l ++ [x]) (length (l ++ [x]) - 1) = Done x.
Proof.
  apply index_Some. rewrite length_app, Nat.add_sub. by rewrite lookup_app_r, Nat.sub_diag by lia.
Qed.

Lemma parseLines_step s lines buf p c t t' d : s = c :: t → s = t' ++ [d] →
  tightByte c = true → tightByte d = true → c ≠ 0x23 → d ≠ 0x60 →
  parseLines evaluate (s :: lines) buf false p =
    let p := p <| p_currentLine ::= Z.succ |> in
    if d =? 0x5c then parseLines evaluate lines (buf ++ t') false p
    else
      r ← evaluate (buf ++ s) p;
      match r with None => Done None | Some p => parseLines evaluate lines [] false p end.
Proof.
  intros Es Ed Hc Hd Hh Hb. cbn [parseLines].
  assert (TrimSpace s = s) as -> by (rewrite Es; apply (TrimSpace_ends c t t' d); [congruence|done..]).
  assert (index s (length s - 1) = Done d) as -> by (rewrite Ed; apply index_snoc).
  assert (removelast s = t') as -> by (rewrite Ed; apply removelast_last).
  rewrite Es. cbv iota. replace (c =? 0x23) with false by lia. run_simpl.
  by replace (d =? 0x60) with false by lia.
Qed.

(** The last line of a directive is evaluated with what the buffer has. *)
Lemma parseLines_last s lines buf p : piece s →
  parseLines evaluate (s :: lines) buf false p =
    (r ← evaluate (buf ++ s) (p <| p_currentLine ::= Z.succ |>);
     match r with None => Done None | Some p => parseLines evaluate lines [] false p end).
Proof.
  intros [(c & t & Es & Hc & Hh) (t' & d & Ed & Hd & Hb & Hbs)].
  rewrite (parseLines_step s lines buf p c t t' d) by done. cbv zeta. by replace (d =? 0x5c) with false by lia.
Qed.

(** A line that ends in a backslash is kept in the buffer, without it. *)
Lemma parseLines_continued s lines buf p : piece s →
  parseLines evaluate ((s ++ [0x5c]) :: lines) buf false p =
    parseLines evaluate lines (buf ++ s) false (p <| p_currentLine ::= Z.succ |>).
Proof.
  intros [(c & t & Es & Hc & Hh) _].
  by rewrite (parseLines_step (s ++ [0x5c]) lines buf p c (t ++ [0x5c]) s 0x5c) by (done || by rewrite Es).
Qed.

(** The lines of a directive in pieces. *)
Fixpoint continued (s : bytes) (l : list bytes) : list bytes :=
  match l with [] => [s] | s' :: l => (s ++ [0x5c]) :: continued s' l end.

Definition advance (n : nat) (p : Parser) : Parser := p <| p_currentLine ::= Z.add (Z.of_nat n) |>.

Lemma advance_0 p : advance 0 p = p.
Proof. by destruct p. Qed.

Lemma advance_S n p : advance (S n) p = advance n (p <| p_currentLine ::= Z.succ |>).
Proof. unfold advance. destruct p. cbn. unfold setf. cbn. f_equal. lia. Qed.

Lemma parseLines_pieces l : ∀ s lines buf p, piece s → Forall piece l →
  parseLines evaluate (continued s l ++ lines) buf false p =
    (r ← evaluate (buf ++ s ++ concat l) (advance (S (length l)) p);
     match r with None => Done None | Some p => parseLines evaluate lines [] false p end).
Proof.
  induction l as [|s' l IH]; intros s lines buf p Hs Hl; cbn [continued app concat length].
  - rewrite app_nil_r, parseLines_last, advance_S, advance_0 by done. done.
  - apply Forall_cons in Hl as [Hs' Hl]. rewrite parseLines_continued, IH, (advance_S (S (length l)) p) by done.
    by rewrite <- app_assoc.
Qed.

(** The lines of a text are the lines it is joined from, while they are
    shorter than the buffer of the scanner. *)
Definition short (s : bytes) : bool := Z.of_nat (length s) <? maxScanTokenSize.
Definition noNewline (s : bytes) : Prop := Forall (λ c, c ≠ 0x0a) s.

Lemma rawLines_Join l : l ≠ [] → Forall noNewline l → last l ≠ Some [] → rawLines (Join l 0x0a) = l.
Proof.
  intros Hne Hl Hlast. unfold rawLines. rewrite Split_Join by done. cbv zeta.
  destruct (last l) as [[|c s]|]; done.
Qed.

Lemma dropCR_tight t c : tightByte c = true → dropCR (t ++ [c]) = t ++ [c].
Proof.
  intros Hc. unfold dropCR. rewrite last_snoc. destruct (decide (c = 0x0d)) as [->|Hne]; [done|].
  destruct c as [|c|c]; try done. by repeat (destruct c as [c|c|]; try done).
Qed.

Lemma scanned_short l : Forall (λ s, short s = true ∧ dropCR s = s) l → scanned l = l.
Proof. induction 1 as [|s l [Hs Hd] Hl IH]; [done|]. cbn. unfold short in Hs. by rewrite Hs, Hd, IH. Qed.

Lemma scanned_long l1 s l2 : short s = false → scanned (l1 ++ s :: l2) = scanned l1.
Proof.
  intros Hs. induction l1 as [|x l1 IH]; cbn [app scanned]; [unfold short in Hs; by rewrite Hs|].
  by destruct (_ <? _); [rewrite IH|].
Qed.

Lemma continued_lines l : ∀ s, piece s → Forall piece l → noNewline s → Forall noNewline l →
  Forall (λ s, short (s ++ [0x5c]) = true) (s :: l) →
  Forall noNewline (continued s l) ∧ Forall (λ s, short s = true ∧ dropCR s = s) (continued s l) ∧
  ∃ t c, last (continued s l) = Some (t ++ [c]).
Proof.
  induction l as [|s' l IH]; intros s Hs Hl Hn Hnl Hsh; cbn [continued]; apply Forall_cons in Hsh as [Hsh Hsl].
  - destruct Hs as [_ (t & c & Es & Hc & _)]. split_and!; [by constructor| |by exists t, c; cbn; rewrite Es].
    constructor; [|constructor]. split; [|rewrite Es; by apply dropCR_tight].
    unfold short in *. rewrite length_app in Hsh. simpl in Hsh. lia.
  - apply Forall_cons in Hl as [Hs' Hl], Hnl as [Hn' Hnl]. destruct (IH s' Hs' Hl Hn' Hnl Hsl) as (H1 & H2 & t & c & H3).
    split_and!.
    + constructor; [|done]. by apply Forall_app_2; [|repeat constructor].
    + constructor; [|done]. split; [done|by apply dropCR_tight].
    + exists t, c. destruct (continued s' l) eqn:E; [done|]. by rewrite last_cons_cons.
Qed.

Definition printPieces (s : bytes) (l : list bytes) : bytes := Join (continued s l) 0x0a.

Lemma parseString_pieces s l p : piece s → Forall piece l → noNewline s → Forall noNewline l →
  Forall (λ s, short (s ++ [0x5c]) = true) (s :: l) →
  parseString evaluate (printPieces s l) p = evaluate (s ++ concat l) (advance (S (length l)) p).
Proof.
  intros Hs Hl Hn Hnl Hsh. destruct (continued_lines l s Hs Hl Hn Hnl Hsh) as (H1 & H2 & t & c & H3).
  unfold parseString, scanLines, printPieces. rewrite rawLines_Join; [|by destruct l|done|].
  - rewrite scanned_short, <- (app_nil_r (continued s l)), parseLines_pieces by done. cbn [app].
    by destruct (evaluate _ _) as [[p'|]| |].
  - rewrite H3. intros [= E']. by destruct t.
Qed.
End continuation.

Section texts.
Context `{U : !Unicode, E : !Environment}.

(** A directive written on several lines, each but the last with a backslash
    at its end, is evaluated once, as the concatenation of its pieces. *)
Theorem parseString_continuation evaluate s l p :
  piece s → Forall piece l → noNewline s → Forall noNewline l →
  Forall (λ s, short (s ++ [0x5c]) = true) (s :: l) →
  parseString evaluate (printPieces s l) p = evaluate (s ++ concat l) (advance (S (length l)) p).
Proof. apply parseString_pieces. Qed.

(** A line that does not fit the buffer of the scanner ends the parse without
    an error: the line and all that follows it are ignored. *)
Theorem parseConfig_longLine pre long post p :
  Forall noNewline (pre ++ long :: post) → last (pre ++ long :: post) ≠ Some [] →
  pre ≠ [] → last pre ≠ Some [] → short long = false →
  parseConfig (Join (pre ++ long :: post) 0x0a) p = parseConfig (Join pre 0x0a) p.
Proof.
  intros Hn Hl Hne Hp Hs. unfold parseConfig, FromString, parseString, scanLines.
  rewrite !rawLines_Join; [by rewrite scanned_long|done| |done|by destruct pre|done..].
  by apply Forall_app in Hn as [? _].
Qed.
End texts.

(** * Examples *)

(** A file system with one file, which includes itself. *)
#[local] Instance includingEnv : Environment := {|
  Compile := @Compile exampleEnv;
  GetTransformation := @GetTransformation exampleEnv;
  GetOperator := @GetOperator exampleEnv;
  writers := @writers exampleEnv;
  formatters := @formatters exampleEnv;
  HasAccessToFS := true;
  isDirWritable := λ _, true;
  openDebugLog := λ _, true;
  Glob := λ _, Some [];
  ReadFile := λ f, if f =s str "loop.conf" then Some (str "Include loop.conf")
                   else if f =s str "rules.conf" then Some (str "SecAction id:1,pass") else None;
  Getwd := Some [];
  room := λ _, 1%nat;
|}.

#[local] Instance includingEnv_laws : EnvironmentLaws.
Proof. split. apply (@registered_names exampleEnv exampleEnv_laws). Qed.

Definition exampleParser : Parser := NewParser (NewWAF true []) exampleSettings initialIDs.

Lemma exampleParser_ok : tables_ok exampleParser.(p_options).
Proof. split; [apply initialIDs_wf|constructor]. Qed.

(** A file that includes itself is an error, not a loop. *)
Lemma parseConfig_terminates_witness : parseConfig (U := latin1) (str "Include loop.conf") exampleParser = Done None.
Proof.
  destruct (parseConfig_terminates (U := latin1) (str "Include loop.conf") exampleParser exampleParser_ok ltac:(done))
    as [E|(res & E & _)]; vm_compute in E |- *; [discriminate E|reflexivity].
Defined.

Definition firstPiece : bytes := str "SecAction".
Definition pieces : list bytes := [str "id:7,"; str "deny"].

Lemma parseString_continuation_witness :
  parseString (evaluateLine (U := latin1) 0) (printPieces firstPiece pieces) exampleParser =
    evaluateLine (U := latin1) 0 (str "SecActionid:7,deny") (advance 3 exampleParser).
Proof.
  assert (∀ c t t' d, c :: t = t' ++ [d] → tightByte c = true → c ≠ 0x23 → tightByte d = true → d ≠ 0x60 → d ≠ 0x5c →
    piece (c :: t)) as Hp by (intros; split; [by eexists _, _|by eexists _, _]).
  apply (parseString_continuation (evaluateLine (U := latin1) 0) firstPiece pieces exampleParser).
  - by apply (Hp 0x53 (str "ecAction") (str "SecActio") 0x6e).
  - constructor; [by apply (Hp 0x69 (str "d:7,") (str "id:7") 0x2c)|].
    constructor; [by apply (Hp 0x64 (str "eny") (str "den") 0x79)|constructor].
  - apply (bool_decide_eq_true_1 _). by vm_compute.
  - apply (bool_decide_eq_true_1 _). by vm_compute.
  - apply (bool_decide_eq_true_1 _). by vm_compute.
Defined.

Definition longLine : bytes := replicate (Z.to_nat maxScanTokenSize) 0x61.

Lemma parseConfig_longLine_witness :
  parseConfig (U := latin1) (Join ([str "SecRuleEngine Off"] ++ longLine :: [str "SecRuleEngine On"]) 0x0a) exampleParser =
  parseConfig (U := latin1) (str "SecRuleEngine Off") exampleParser.
Proof.
  apply (parseConfig_longLine [str "SecRuleEngine Off"] longLine [str "SecRuleEngine On"] exampleParser).
  - constructor; [apply (bool_decide_eq_true_1 _); by vm_compute|].
    constructor; [by apply Forall_replicate|]. constructor; [apply (bool_decide_eq_true_1 _); by vm_compute|constructor].
  - done.
  - done.
  - done.
  - unfold short, longLine, maxScanTokenSize. rewrite length_replicate, Z2Nat.id by lia. lia.
Defined.

(** A directive whose last line ends in a backslash is dropped. *)
Lemma parseConfig_danglingContinuation :
  parseConfig (U := latin1) (str "NoSuchDirective \") exampleParser =
    Done (Some (advance 1 exampleParser)).
Proof. by vm_compute. Qed.

(** After an include, the rules of the including text have no file. *)
Lemma parseConfig_fileAfterInclude :
  match parseConfig (U := latin1) (str "Include rules.conf" ++ [0x0a] ++ str "SecAction id:2,pass") exampleParser with
  | Done (Some p) => (λ c, (cr_ID c, c.(cr_rule).(r_meta).(File_), c.(cr_rule).(r_meta).(Line_))) <$> d_Rules p.(p_options)
  | _ => []
  end = [(1, str "rules.conf", 2); (2, [], 3)].
Proof. by vm_compute. Qed.
