(* ===== verification/Operators.v ===== *)
(** The operators of src/internal/operators that need no automaton and no
    network: texts, numbers, ranges of bytes, encodings, national identifiers
    and paths.

    A factory takes the options of an operator; [None] is its error.  The
    packages libinjection, os/exec and regexp are parameters, of which each
    operator takes the results it reads. *)

From S2P Require Import Prelude GoLib StringUtil UrlTransform TextTransform Matchers TransactionCaches Prefilter Variables Types Collections.
From S2P Require Import BodyBuffer TransactionState Rx Macro Rule TransformCache Actions RuleGroup Engine RuleParser.
From S2P Require Import RuleSyntax.

Section operators.
Context `{U : !Unicode, O : !MapOrder}.

(** ** Texts *)

Definition beginsWith (m : Macro) : operatorFn := λ tx value,
  data ← Expand m tx; Done (tx, HasPrefix value data).

Definition contains (m : Macro) : operatorFn := λ tx value,
  data ← Expand m tx; Done (tx, Contains value data).

Definition endsWith (m : Macro) : operatorFn := λ tx value,
  data ← Expand m tx; Done (tx, HasSuffix value data).

Definition streq (m : Macro) : operatorFn := λ tx value,
  data ← Expand m tx; Done (tx, data =s value).

Definition strmatch (m : Macro) : operatorFn := λ tx value,
  data ← Expand m tx; Done (tx, Contains value data).

Definition within (m : Macro) : operatorFn := λ tx value,
  data ← Expand m tx; Done (tx, Contains data value).

Definition newBeginsWith (o : OperatorOptions) : option operatorFn := beginsWith <$> NewMacro o.(oo_Arguments).
Definition newContains (o : OperatorOptions) : option operatorFn := contains <$> NewMacro o.(oo_Arguments).
Definition newEndsWith (o : OperatorOptions) : option operatorFn := endsWith <$> NewMacro o.(oo_Arguments).
Definition newStrEq (o : OperatorOptions) : option operatorFn := streq <$> NewMacro o.(oo_Arguments).
Definition newStrmatch (o : OperatorOptions) : option operatorFn := strmatch <$> NewMacro o.(oo_Arguments).
Definition newWithin (o : OperatorOptions) : option operatorFn := within <$> NewMacro o.(oo_Arguments).

(** ** Numbers *)

Definition eq_ (m : Macro) : operatorFn := λ tx value,
  data ← Expand m tx; Done (tx, AtoiValue data =? AtoiValue value).

Definition ge_ (m : Macro) : operatorFn := λ tx value,
  data ← Expand m tx; Done (tx, AtoiValue value >=? AtoiValue data).

Definition gt_ (m : Macro) : operatorFn := λ tx value,
  data ← Expand m tx; Done (tx, AtoiValue data <? AtoiValue value).

Definition le_ (m : Macro) : operatorFn := λ tx value,
  data ← Expand m tx; Done (tx, AtoiValue value <=? AtoiValue data).

Definition lt_ (m : Macro) : operatorFn := λ tx value,
  data ← Expand m tx; Done (tx, AtoiValue value <? AtoiValue data).

Definition newEq (o : OperatorOptions) : option operatorFn := eq_ <$> NewMacro o.(oo_Arguments).
Definition newGE (o : OperatorOptions) : option operatorFn := ge_ <$> NewMacro o.(oo_Arguments).
Definition newGT (o : OperatorOptions) : option operatorFn := gt_ <$> NewMacro o.(oo_Arguments).
Definition newLE (o : OperatorOptions) : option operatorFn := le_ <$> NewMacro o.(oo_Arguments).
Definition newLT (o : OperatorOptions) : option operatorFn := lt_ <$> NewMacro o.(oo_Arguments).

(** ** Constants *)

Definition unconditionalMatch : operatorFn := λ tx _, Done (tx, true).
Definition noMatch : operatorFn := λ tx _, Done (tx, false).

Definition newUnconditionalMatch (_ : OperatorOptions) : option operatorFn := Some unconditionalMatch.
Definition newNoMatch (_ : OperatorOptions) : option operatorFn := Some noMatch.
Definition newGeoLookup (_ : OperatorOptions) : option operatorFn := Some unconditionalMatch.

(** ** Ranges of bytes *)

Definition validateByte (b : Z) : bool := negb ((b <? 0) || (b >? 255)).

(** The bytes of one range. *)
Definition byteRange (br : bytes) (valid : array bool) : option (array bool) :=
  let '(start, end_, ok) := Cut (TrimSpace br) 0x2d in
  s ← Atoi start;
  if negb (validateByte s) then None
  else if negb ok then Some (set_byte valid s true)
  else
    e ← Atoi end_;
    if negb (validateByte e) then None
    else Some (foldl (λ valid i, set_byte valid i true) valid (seqZ s (e - s + 1))).

Fixpoint byteRanges (brs : list bytes) (valid : array bool) : option (array bool) :=
  match brs with [] => Some valid | br :: brs => valid ← byteRange br valid; byteRanges brs valid end.

Definition validateByteRange (valid : array bool) : operatorFn := λ tx data,
  Done (tx, existsb (λ c, negb (valid c)) data).

Definition newValidateByteRange (o : OperatorOptions) : option operatorFn :=
  if o.(oo_Arguments) =s [] then Some unconditionalMatch
  else validateByteRange <$> byteRanges (Split o.(oo_Arguments) 0x2c) (λ _, false).

(** ** Encodings *)

Inductive urlEncodingResult := urlEncodingValid | urlEncodingInvalidNonHex | urlEncodingInvalidTruncated.

#[global] Instance urlEncodingResult_eq_dec : EqDecision urlEncodingResult.
Proof. solve_decision. Defined.

Definition isHexDigit (c : Z) : bool :=
  in_range 0x30 c 0x39 || in_range 0x61 c 0x66 || in_range 0x41 c 0x46.

Fixpoint validateURLEncodingInternal (input : bytes) : urlEncodingResult :=
  match input with
  | [] => urlEncodingValid
  | c :: rest =>
      if negb (c =? 0x25) then validateURLEncodingInternal rest
      else match rest with
           | a :: b :: rest =>
               if negb (isHexDigit a) || negb (isHexDigit b) then urlEncodingInvalidNonHex
               else validateURLEncodingInternal rest
           | _ => urlEncodingInvalidTruncated
           end
  end.

Definition validateURLEncoding : operatorFn := λ tx value,
  Done (tx, if (length value =? 0)%nat then false
            else negb (bool_decide (validateURLEncodingInternal value = urlEncodingValid))).

Definition validateUtf8Encoding : operatorFn := λ tx value, Done (tx, negb (ValidString value)).

Definition newValidateURLEncoding (_ : OperatorOptions) : option operatorFn := Some validateURLEncoding.
Definition newValidateUTF8Encoding (_ : OperatorOptions) : option operatorFn := Some validateUtf8Encoding.

(** ** National identifiers *)

(** [nonDigitOrK.ReplaceAllString(nid, "")] and the same without the k. *)
Definition digitsAndK (nid : bytes) : bytes := filter (λ c, isDigit c || (c =? 0x6b)) nid.
Definition digitsOnly (nid : bytes) : bytes := filter (λ c, isDigit c) nid.

(** The loop of [nidCl] over the digits of [rut], from the last one. *)
Fixpoint rutSum (fuel : nat) (rut sum factor : Z) : run Z :=
  match fuel with
  | 0%nat => OutOfFuel
  | S fuel =>
      if rut =? 0 then Done sum
      else rutSum fuel (rut / 10) (sum + rut mod 10 * factor) (if factor =? 7 then 2 else factor + 1)
  end.

(** A number below 2^63 has at most 19 digits. *)
Definition rutFuel : nat := 20.

Definition nidCl (nid : bytes) : run bool :=
  if (length nid <? 8)%nat then Done false
  else
    let nid := digitsAndK (ToLower nid) in
    let n := length nid in
    if (n =? 0)%nat then Panic
    else
      let rut := AtoiValue (take (n - 1) nid) in
      let dv := drop (n - 1) nid in
      sum ← rutSum rutFuel rut 0 2;
      let val := sum mod 11 in
      Done ((if val =? 0 then str "0" else if val =? 1 then str "k" else Itoa (11 - val)) =s dv).

Definition digitToInt (d : Z) : Z := d - 0x30.

(** The loop of [nidUs]: the digits after [prev]. *)
Fixpoint nidUsLoop (nid : bytes) (prev : Z) (sequence equals : bool) : bool :=
  match nid with
  | [] => negb sequence && negb equals
  | d :: nid =>
      let curr := digitToInt d in
      nidUsLoop nid curr (if negb (curr =? prev + 1) then false else sequence)
        (if negb (prev =? curr) then false else equals)
  end.

Definition nidUs (nid : bytes) : run bool :=
  let nid := digitsOnly nid in
  if (length nid <? 9)%nat then Done false
  else
    area ← slice nid 0 3;
    group ← slice nid 3 5;
    serial ← slice nid 5 9;
    let area := AtoiValue area in
    if (area =? 0) || (AtoiValue group =? 0) || (AtoiValue serial =? 0) || (area >=? 740) || (area =? 666)
    then Done false
    else match nid with
         | [] => Panic
         | d :: rest => Done (nidUsLoop rest (digitToInt d) true true)
         end.

Section nid.
(** The texts of the first 11 matches of a compiled expression. *)
Context (FindAll : bytes → option (bytes → list bytes)).

Fixpoint nidLoop (fn : bytes → run bool) (i : Z) (matches : list bytes) (res : bool) (tx : Transaction)
    : run (Transaction * bool) :=
  match matches with
  | [] => Done (tx, res)
  | m :: matches =>
      if i >=? 10 then Done (tx, res)
      else
        ok ← fn m;
        if ok : bool then nidLoop fn (i + 1) matches true (CaptureField i m tx)
        else nidLoop fn (i + 1) matches res tx
  end.

Definition validateNid (fn : bytes → run bool) (matches : bytes → list bytes) : operatorFn := λ tx value,
  nidLoop fn 0 (matches value) false tx.

Definition newValidateNID (o : OperatorOptions) : option operatorFn :=
  let '(typ, expr, ok) := Cut o.(oo_Arguments) 0x20 in
  if negb ok then None
  else
    fn ← (if typ =s str "cl" then Some nidCl else if typ =s str "us" then Some nidUs else None);
    validateNid fn <$> FindAll expr.
End nid.

(** ** Paths with parameters *)

(** [rePathTokenRe.FindAllStringSubmatch(data, -1)]: the texts between a brace and
    the next closing one, at least one byte long. *)
Fixpoint pathTokens (fuel : nat) (data : bytes) : list bytes :=
  match fuel, data with
  | S fuel, c :: rest =>
      if c =? 0x7b then
        match IndexByte rest 0x7d with
        | Some (S n) => take (S n) rest :: pathTokens fuel (drop (S (S n)) rest)
        | _ => pathTokens fuel rest
        end
      else pathTokens fuel rest
  | _, _ => []
  end.

(** [strings.Replace(s, old, new, 1)] *)
Fixpoint ReplaceFirst (s old new : bytes) : bytes :=
  if HasPrefix s old then new ++ drop (length old) s
  else match s with [] => [] | c :: s => c :: ReplaceFirst s old new end.

Definition replaceToken (data token : bytes) : bytes :=
  ReplaceFirst data ([0x7b] ++ token ++ [0x7d]) (str "(?P<" ++ token ++ str ">[^?/]+)").

(** The expression of a path. *)
Definition restExpression (path : bytes) : bytes :=
  let data := ReplaceByte path 0x2f [0x5c; 0x2f] in
  foldl replaceToken data (pathTokens (length data) data).

Section paths.
(** A compiled expression: the texts of the groups of the first match and the
    names of the groups, of which the first is that of the whole match. *)
Context (FindSubmatch : bytes → option ((bytes → list bytes) * list bytes)).

Fixpoint setPathArgs (names : list bytes) (match_ : list bytes) (tx : Transaction) : run Transaction :=
  match names with
  | [] => Done tx
  | name :: names =>
      match match_ with
      | [] => if name =s [] then setPathArgs names [] tx else Panic
      | text :: match_ =>
          setPathArgs names match_ (if name =s [] then tx else withMap V.ArgsPath (SetIndex0 name text) tx)
      end
  end.

Definition restpath (re : (bytes → list bytes) * list bytes) : operatorFn := λ tx value,
  match re.1 value with
  | [] => Done (tx, false)
  | _ :: groups => tx ← setPathArgs (tail re.2) groups tx; Done (tx, true)
  end.

Definition newRESTPath (o : OperatorOptions) : option operatorFn :=
  restpath <$> FindSubmatch (restExpression o.(oo_Arguments)).
End paths.

(** ** Libraries and programs *)

Definition containsPrintableASCII (value : bytes) : bool := existsb (λ c, in_range 0x20 c 0x7e) value.

Definition detectSQLi (IsSQLi : bytes → bool * bytes) : operatorFn := λ tx value,
  if negb (containsPrintableASCII value) then Done (tx, false)
  else
    let '(res, fingerprint) := IsSQLi value in
    if negb res then Done (tx, false) else Done (CaptureField 0 fingerprint tx, true).

Definition detectXSS (IsXSS : bytes → bool) : operatorFn := λ tx value,
  Done (tx, if negb (ContainsAny value (str "<=")) then false else IsXSS value).

(** [run] is what the program printed, none after an error or 10 seconds. *)
Definition inspectFile (run_ : bytes → bytes → option bytes) (path : bytes) : operatorFn := λ tx value,
  Done (tx, match run_ path value with Some (c :: _) => negb (c =? 0x31) | _ => false end).
End operators.

(** ** The check digit of an identifier *)

Definition nextFactor (factor : Z) : Z := if factor =? 7 then 2 else factor + 1.

(** The digits from the last one, each by its factor. *)
Fixpoint weighted (ds : list Z) (factor : Z) : Z :=
  match ds with [] => 0 | d :: ds => d * factor + weighted ds (nextFactor factor) end.

(** The number of digits from the last one. *)
Fixpoint number (ds : list Z) : Z := match ds with [] => 0 | d :: ds => d + 10 * number ds end.

Definition digit (d : Z) : Prop := 0 <= d <= 9.

Lemma number_nonneg ds : Forall digit ds → 0 <= number ds.
Proof. induction 1 as [|d ds Hd _ IH]; simpl; unfold digit in *; lia. Qed.

Lemma number_zero ds factor : Forall digit ds → number ds = 0 → weighted ds factor = 0.
Proof.
  intros Hds. revert factor. induction Hds as [|d ds Hd Hds IH]; intros factor; simpl; [done|].
  pose proof (number_nonneg ds Hds). unfold digit in Hd. intros. assert (d = 0) as -> by lia. rewrite IH by lia. lia.
Qed.

Lemma rutSum_number ds : ∀ fuel sum factor,
  Forall digit ds → (length ds < fuel)%nat →
  rutSum fuel (number ds) sum factor = Done (sum + weighted ds factor).
Proof.
  induction ds as [|d ds IH]; intros [|fuel] sum factor Hds Hf; simpl in *; try lia.
  - f_equal. lia.
  - apply Forall_cons in Hds as [Hd Hds]. pose proof (number_nonneg ds Hds). unfold digit in Hd.
    destruct (Z.eqb_spec (d + 10 * number ds) 0).
    + assert (d = 0) as -> by lia. rewrite number_zero by (done || lia). f_equal. lia.
    + replace ((d + 10 * number ds) / 10) with (number ds) by dlia.
      replace ((d + 10 * number ds) mod 10) with d by dlia.
      rewrite IH by (done || lia). unfold nextFactor. f_equal. lia.
Qed.

Lemma weighted_app l1 l2 factor :
  weighted (l1 ++ l2) factor = weighted l1 factor + weighted l2 (Nat.iter (length l1) nextFactor factor).
Proof.
  revert factor. induction l1 as [|d l1 IH]; intros factor; cbn [app weighted length]; [simpl; lia|].
  rewrite IH, Nat.iter_succ_r. lia.
Qed.

Lemma iter_factor n factor : 2 <= factor <= 7 → 2 <= Nat.iter n nextFactor factor <= 7.
Proof.
  intros Hf. induction n as [|n IH]; [done|].
  change (Nat.iter (S n) nextFactor factor) with (nextFactor (Nat.iter n nextFactor factor)).
  revert IH. generalize (Nat.iter n nextFactor factor). intros x IH. unfold nextFactor. destruct (Z.eqb_spec x 7); lia.
Qed.

(** The factor of the digit after [post], from the last one. *)
Lemma weighted_change (pre post : list Z) : ∃ factor rest, 2 <= factor <= 7 ∧
  ∀ d', weighted (reverse (pre ++ d' :: post)) 2 = d' * factor + rest.
Proof.
  exists (Nat.iter (length (reverse post)) nextFactor 2).
  exists (weighted (reverse post) 2 + weighted (reverse pre) (nextFactor (Nat.iter (length (reverse post)) nextFactor 2))).
  split; [apply iter_factor; lia|]. intros d'.
  rewrite reverse_app, reverse_cons, <-app_assoc, weighted_app. cbn [app weighted]. lia.
Qed.

Definition digitText (ds : list Z) : bytes := (λ d, 0x30 + d) <$> ds.

Lemma parseDigits_text ds acc :
  Forall digit ds → parseDigits acc (digitText ds) = Some (acc * 10 ^ Z.of_nat (length ds) + number (reverse ds)).
Proof.
  intros Hds. revert acc. induction Hds as [|d ds Hd Hds IH]; intros acc; [simpl; f_equal; lia|].
  cbn [digitText fmap list_fmap parseDigits]. unfold digit in Hd.
  assert (isDigit (48 + d) = true) as -> by (unfold isDigit; lia).
  change (list_fmap Z Z (λ d, 48 + d) ds) with (digitText ds). rewrite IH. f_equal.
  rewrite reverse_cons. cbn [length].
  assert (∀ l x, number (l ++ [x]) = number l + x * 10 ^ Z.of_nat (length l)) as Happ.
  { induction l as [|y l IHl]; intros x; cbn [app number length]; [lia|].
    rewrite IHl, Nat2Z.inj_succ, Z.pow_succ_r by lia. lia. }
  rewrite Happ, length_reverse, Nat2Z.inj_succ, Z.pow_succ_r by lia. ring.
Qed.

Lemma number_bound ds : Forall digit ds → number ds < 10 ^ Z.of_nat (length ds).
Proof.
  induction 1 as [|d ds Hd _ IH]; cbn [number length]; [lia|].
  rewrite Nat2Z.inj_succ, Z.pow_succ_r by lia. unfold digit in Hd. lia.
Qed.

Lemma AtoiValue_text ds :
  ds ≠ [] → Forall digit ds → (length ds ≤ 18)%nat → AtoiValue (digitText ds) = number (reverse ds).
Proof.
  intros Hne Hds Hl. apply AtoiValue_Atoi. unfold Atoi.
  assert (Hp := parseDigits_text ds 0 Hds). pose proof (number_nonneg (reverse ds)) as H0.
  pose proof (number_bound (reverse ds)) as Hb. rewrite length_reverse in Hb. rewrite Forall_reverse in H0, Hb.
  specialize (H0 Hds). specialize (Hb Hds).
  assert (10 ^ Z.of_nat (length ds) <= 10 ^ 18) by (apply Z.pow_le_mono_r; lia).
  destruct ds as [|d ds]; [done|]. apply Forall_cons in Hds as [Hd _]. unfold digit in Hd.
  assert (∃ c r, digitText (d :: ds) = c :: r ∧ c ≠ 0x2d ∧ c ≠ 0x2b) as (c & r & E & Hc1 & Hc2).
  { eexists _, _. split; [reflexivity|]. lia. }
  rewrite E in *.
  assert (Hrun : (n ← parseDigits 0 (c :: r); if decide (in_i64 n) then Some n else None) = Some (number (reverse (d :: ds)))).
  { rewrite Hp. cbn [mbind option_bind]. rewrite decide_True; [f_equal; lia|]. unfold in_i64. lia. }
  destruct c as [|p|p]; [exact Hrun| |exact Hrun].
  do 6 (destruct p; try exact Hrun); done.
Qed.

(** The text of the check digit, 10 is the letter. *)
Definition checkText (dv : Z) : bytes := if dv =? 10 then str "k" else [0x30 + dv].

Lemma checkDigit_text val : 0 <= val < 11 →
  (if val =? 0 then str "0" else if val =? 1 then str "k" else Itoa (11 - val)) = checkText ((11 - val) mod 11).
Proof.
  intros Hv. assert (val ∈ seqZ 0 11) as Hin by (apply elem_of_seqZ; lia). revert val Hv Hin.
  assert (Forall (λ val, (if val =? 0 then str "0" else if val =? 1 then str "k" else Itoa (11 - val))
    = checkText ((11 - val) mod 11)) (seqZ 0 11)) as Hall.
  { repeat (apply Forall_cons; split; [vm_compute; reflexivity|]). apply Forall_nil_2. }
  rewrite Forall_forall in Hall. auto.
Qed.

Lemma checkText_inj a b : 0 <= a < 11 → 0 <= b < 11 → (checkText a =s checkText b) = (a =? b).
Proof.
  intros Ha Hb. unfold checkText. destruct (Z.eqb_spec a b) as [->|Hne]; [by apply bytes_eqb_eq|].
  apply bytes_eqb_neq. destruct (Z.eqb_spec a 10), (Z.eqb_spec b 10); try lia.
  all: intros [= ?]; lia.
Qed.

Section identifiers.
Context `{U : !Unicode}.

Definition rutText (ds : list Z) (dv : Z) : bytes := digitText ds ++ checkText dv.

Lemma rutText_plain ds dv :
  Forall digit ds → 0 <= dv <= 10 → digitsAndK (ToLower (rutText ds dv)) = rutText ds dv.
Proof.
  intros Hds Hdv.
  assert (Forall (λ c, isDigit c || (c =? 0x6b) = true) (rutText ds dv)) as Hall.
  { apply Forall_app. split.
    - apply Forall_fmap. eapply Forall_impl; [done|]. intros d Hd. unfold digit, isDigit in *; simpl. lia.
    - unfold checkText. destruct (Z.eqb_spec dv 10); [by repeat constructor|]. repeat constructor.
      unfold isDigit. lia. }
  rewrite ToLower_ascii.
  - assert (lowerByte <$> rutText ds dv = rutText ds dv) as ->.
    { clear -Hall. induction Hall as [|c l Hc _ IH]; [done|]. rewrite fmap_cons, IH. f_equal.
      unfold lowerByte, in_range, isDigit in *. case_match; lia. }
    unfold digitsAndK. clear -Hall. induction Hall as [|c l Hc _ IH]; [done|].
    rewrite filter_cons_True by (by rewrite Hc). by rewrite IH.
  - eapply Forall_impl; [done|]. intros c Hc. unfold isDigit, RuneSelf in *. lia.
Qed.

(** The identifier is accepted when its digits, weighted by 2 to 7 from the last
    one on, and the check digit sum up to a multiple of 11. *)
Lemma nidCl_sum ds dv :
  Forall digit ds → 0 <= dv <= 10 → (7 ≤ length ds ≤ 18)%nat →
  nidCl (rutText ds dv) = Done ((weighted (reverse ds) 2 + dv) mod 11 =? 0).
Proof.
  intros Hds Hdv Hl. unfold nidCl.
  assert (Hlen : length (rutText ds dv) = S (length ds)).
  { unfold rutText, digitText, checkText. rewrite length_app, length_fmap. case_match; cbn; lia. }
  destruct (Nat.ltb_spec (length (rutText ds dv)) 8); [lia|]. rewrite rutText_plain by done. cbv zeta.
  rewrite Hlen. cbn [Nat.eqb]. replace (S (length ds) - 1)%nat with (length (digitText ds))
    by (unfold digitText; rewrite length_fmap; lia).
  unfold rutText. rewrite take_app_length, drop_app_length.
  rewrite AtoiValue_text by (done || lia || (intros ->; simpl in Hl; lia)).
  rewrite rutSum_number; [|by apply Forall_reverse|rewrite length_reverse; unfold rutFuel; lia].
  cbn [mbind run_bind]. rewrite Z.add_0_l. pose proof (Z.mod_pos_bound (weighted (reverse ds) 2) 11).
  rewrite checkDigit_text, checkText_inj by (try apply Z.mod_pos_bound; lia). f_equal.
  apply eq_bool_prop_intro. rewrite !Is_true_true, !Z.eqb_eq. dlia.
Qed.

(** A Chilean identifier is accepted when its digits, weighted by 2 to 7 from the
    last one on, and its check digit add up to a multiple of 11; so the check
    finds a change of any one digit. *)
Theorem nidCl_detects pre d d' post dv :
  Forall digit pre → digit d → digit d' → Forall digit post → 0 <= dv <= 10 →
  (7 ≤ length (pre ++ d :: post) ≤ 18)%nat → d ≠ d' →
  nidCl (rutText (pre ++ d :: post) dv)
    = Done ((weighted (reverse (pre ++ d :: post)) 2 + dv) mod 11 =? 0) ∧
  (nidCl (rutText (pre ++ d :: post) dv) = Done true → nidCl (rutText (pre ++ d' :: post) dv) = Done false).
Proof.
  intros Hpre Hd Hd' Hpost Hdv Hl Hne.
  assert (Hn : ∀ x, digit x → nidCl (rutText (pre ++ x :: post) dv)
    = Done ((weighted (reverse (pre ++ x :: post)) 2 + dv) mod 11 =? 0)).
  { intros x Hx. apply nidCl_sum; [|done|by rewrite length_app in Hl |- *].
    apply Forall_app. by split; [|constructor]. }
  rewrite !Hn by done. split; [done|]. destruct (weighted_change pre post) as (f & rest & Hf & Hw).
  rewrite !Hw. intros [= Hsum]. f_equal. apply Z.eqb_eq in Hsum. apply Z.eqb_neq. unfold digit in *.
  intros Hsum'.
  assert (((d - d') * f) mod 11 = 0) as Hdiff.
  { replace ((d - d') * f) with ((d * f + rest + dv) - (d' * f + rest + dv)) by ring.
    rewrite Zminus_mod, Hsum, Hsum'. done. }
  assert (f = 2 ∨ f = 3 ∨ f = 4 ∨ f = 5 ∨ f = 6 ∨ f = 7) as Hcases by lia.
  clear -Hd Hd' Hne Hdiff Hcases. destruct_or! Hcases; subst; dlia.
Qed.

(** A text of eight bytes without a digit leaves nothing to take the check digit
    from. *)
Theorem nidCl_panics nid : (8 ≤ length nid)%nat → digitsAndK (ToLower nid) = [] → nidCl nid = Panic.
Proof. intros Hl He. unfold nidCl. destruct (Nat.ltb_spec (length nid) 8); [lia|]. by rewrite He. Qed.
End identifiers.

Lemma nidCl_detects_witness :
  nidCl (U := latin1) (str "123456785") = Done true ∧ nidCl (U := latin1) (str "123446785") = Done false.
Proof.
  assert (Forall digit [1; 2; 3; 4] ∧ Forall digit [6; 7; 8]) as [H1 H2]
    by (split; repeat constructor; unfold digit; lia).
  destruct (nidCl_detects (U := latin1) [1; 2; 3; 4] 5 4 [6; 7; 8] 5) as [Hs Hd].
  { exact H1. }
  { unfold digit; lia. }
  { unfold digit; lia. }
  { exact H2. }
  { lia. }
  { cbn; lia. }
  { lia. }
  change (str "123456785") with (rutText ([1; 2; 3; 4] ++ 5 :: [6; 7; 8]) 5).
  change (str "123446785") with (rutText ([1; 2; 3; 4] ++ 4 :: [6; 7; 8]) 5).
  assert (HT : nidCl (U := latin1) (rutText ([1; 2; 3; 4] ++ 5 :: [6; 7; 8]) 5) = Done true) by (rewrite Hs; reflexivity).
  split; [exact HT|exact (Hd HT)].
Defined.

Lemma nidCl_panics_witness : nidCl (U := latin1) (str "password") = Panic.
Proof. apply (nidCl_panics (U := latin1)); [cbn; lia|vm_compute; reflexivity]. Defined.

(** ** Ranges of bytes *)

Lemma set_range_spec l : ∀ (valid : array bool) c,
  foldl (λ valid i, set_byte valid i true) valid l c = bool_decide (c ∈ l) || valid c.
Proof.
  induction l as [|i l IH]; intros valid c; cbn [foldl]; [by rewrite bool_decide_eq_false_2 by set_solver|].
  rewrite IH. unfold set_byte. destruct (Z.eqb_spec c i) as [->|Hne].
  - rewrite (bool_decide_eq_true_2 (i ∈ i :: l)) by left. by rewrite orb_true_r.
  - f_equal. apply bool_decide_ext. rewrite elem_of_cons. naive_solver.
Qed.

Definition printRange (r : Z * Z) : bytes := Itoa r.1 ++ [0x2d] ++ Itoa r.2.

Definition byteBounds (r : Z * Z) : Prop := 0 <= r.1 <= 255 ∧ 0 <= r.2 <= 255.

Lemma byteRange_print r valid :
  byteBounds r → ∃ valid', byteRange (printRange r) valid = Some valid' ∧
    ∀ c, valid' c = in_range r.1 c r.2 || valid c.
Proof.
  destruct r as [s e]. intros [Hs He]; cbn in Hs, He.
  destruct (Itoa_digits s) as [Hns Hds]; [lia|]. destruct (Itoa_digits e) as [Hne Hde]; [lia|].
  unfold byteRange, printRange. cbn [fst snd].
  rewrite TrimSpace_key.
  2: { by destruct (Itoa s). }
  2: { apply Forall_app. split; [|apply Forall_app; split; [by repeat constructor|]].
       all: eapply Forall_impl; [done|]; intros c Hc; unfold isDigit, tightByte in *; lia. }
  cbn [app]. rewrite Cut_first.
  2: { eapply Forall_impl; [exact Hds|]. intros c Hc. unfold isDigit in Hc. lia. }
  rewrite !Atoi_Itoa by (unfold in_i64; lia). cbn [mbind option_bind negb].
  assert (validateByte s = true ∧ validateByte e = true) as [-> ->] by (unfold validateByte; lia). cbn [negb].
  eexists. split; [done|]. intros c. rewrite set_range_spec. f_equal. unfold in_range.
  apply eq_bool_prop_intro. rewrite bool_decide_spec, elem_of_seqZ, Is_true_true. lia.
Qed.

Lemma byteRanges_print rs : ∀ valid,
  Forall byteBounds rs → ∃ valid', byteRanges (printRange <$> rs) valid = Some valid' ∧
    ∀ c, valid' c = existsb (λ r, in_range r.1 c r.2) rs || valid c.
Proof.
  induction rs as [|r rs IH]; intros valid Hrs; [by exists valid|]. apply Forall_cons in Hrs as [Hr Hrs].
  destruct (byteRange_print r valid Hr) as (v1 & E1 & H1). destruct (IH v1 Hrs) as (v2 & E2 & H2).
  exists v2. cbn [fmap list_fmap byteRanges]. rewrite E1. cbn [mbind option_bind]. split; [done|].
  intros c. rewrite H2, H1. cbn [existsb]. by destruct (in_range _ _ _), (existsb _ _).
Qed.

(** The operator made from a list of ranges finds the inputs with a byte outside
    all of them. *)
Theorem validateByteRange_ranges rs (o : OperatorOptions) :
  rs ≠ [] → Forall byteBounds rs → o.(oo_Arguments) = Join (printRange <$> rs) 0x2c →
  ∃ op, newValidateByteRange o = Some op ∧
    ∀ tx data, op tx data = Done (tx, existsb (λ c, negb (existsb (λ r, in_range r.1 c r.2) rs)) data).
Proof.
  intros Hne Hrs Ho. unfold newValidateByteRange. rewrite Ho.
  assert (Hnil : Join (printRange <$> rs) 0x2c ≠ []).
  { destruct rs as [|[s e] rs]; [done|]. apply Forall_cons in Hrs as [[Hs _] _]. cbn in Hs.
    destruct (Itoa_digits s) as [Hi _]; [lia|]. rewrite fmap_cons.
    assert (printRange (s, e) ≠ []) as Hx by (unfold printRange; cbn [fst]; by destruct (Itoa s)).
    destruct (printRange (s, e)) as [|x xs], (printRange <$> rs); done. }
  destruct (byteRanges_print rs (λ _, false) Hrs) as (v & Ev & Hv).
  rewrite (proj2 (bytes_eqb_neq _ _) Hnil), Split_Join, Ev.
  - eexists. split; [done|]. intros tx data. unfold validateByteRange. do 2 f_equal.
    induction data as [|c data IH]; [done|]. cbn [existsb]. by rewrite IH, Hv, orb_false_r.
  - by destruct rs.
  - apply Forall_fmap. eapply Forall_impl; [done|]. intros [s e] [Hs He]; cbn in *.
    destruct (Itoa_digits s) as [_ H1]; [lia|]. destruct (Itoa_digits e) as [_ H2]; [lia|].
    apply Forall_app. split; [|apply Forall_app; split; [by repeat constructor|]].
    all: eapply Forall_impl; [done|]; intros c Hc; unfold isDigit in *; lia.
Qed.

Lemma validateByteRange_ranges_witness :
  ∃ op, newValidateByteRange (mkOperatorOptions (str "32-126,10-10") [] ∅ true) = Some op ∧
    ∀ tx, op tx [0x61; 0x0a] = Done (tx, false) ∧ op tx [0x61; 0x00] = Done (tx, true).
Proof.
  destruct (validateByteRange_ranges [(32, 126); (10, 10)] (mkOperatorOptions (str "32-126,10-10") [] ∅ true))
    as (op & Hop & Heval).
  - done.
  - repeat constructor; cbn; lia.
  - vm_compute. reflexivity.
  - exists op. split; [exact Hop|]. intros tx. rewrite !Heval. split; reflexivity.
Defined.

(** ** Encodings *)

(** Bytes other than the percent sign, and percent signs with two hexadecimal
    digits. *)
Inductive wellEncoded : bytes → Prop :=
| encoded_nil : wellEncoded []
| encoded_byte c s : c ≠ 0x25 → wellEncoded s → wellEncoded (c :: s)
| encoded_escape a b s : isHexDigit a = true → isHexDigit b = true → wellEncoded s → wellEncoded (0x25 :: a :: b :: s).

Lemma validateURLEncodingInternal_spec n : ∀ s, (length s ≤ n)%nat →
  validateURLEncodingInternal s = urlEncodingValid ↔ wellEncoded s.
Proof.
  induction n as [|n IH]; intros s Hl.
  { destruct s; [split; [constructor|done]|cbn in Hl; lia]. }
  destruct s as [|c s]; [split; [constructor|done]|]. cbn [validateURLEncodingInternal length] in *.
  destruct (Z.eqb_spec c 0x25) as [->|Hc]; cbn [negb].
  - destruct s as [|a [|b s]].
    + split; [done|]. by inversion 1.
    + split; [done|]. by inversion 1.
    + destruct (isHexDigit a) eqn:Ha, (isHexDigit b) eqn:Hb; cbn [negb orb]; cbn [length] in Hl.
      { rewrite IH by lia. split; [by constructor|]. by inversion 1. }
      all: split; [done|]; inversion 1; congruence.
  - rewrite IH by lia. split; [by constructor|]. by inversion 1; simplify_eq.
Qed.

Lemma validateURLEncoding_spec tx s :
  validateURLEncoding tx s = Done (tx, false) ↔ wellEncoded s.
Proof.
  rewrite <-(validateURLEncodingInternal_spec (length s) s (le_n _)). unfold validateURLEncoding.
  destruct s as [|c s]; [done|]. cbn [length Nat.eqb]. case_bool_decide; naive_solver.
Qed.

(** A byte is encoded as one byte or as an escape. *)
Definition encodedOk (b : Z) : bool :=
  match encoded b with
  | [c] => negb (c =? 0x25)
  | [p; a; b] => (p =? 0x25) && isHexDigit a && isHexDigit b
  | _ => false
  end.

Lemma wellEncoded_encoded s : wf_bytes s → wellEncoded (flat_map encoded s).
Proof.
  induction 1 as [|b s Hb _ IH]; [constructor|]. cbn [flat_map].
  pose proof (forall_byte encodedOk ltac:(by vm_compute) b Hb) as H. unfold encodedOk in H.
  destruct (encoded b) as [|p [|x [|y [|]]]]; try done; cbn [app].
  - constructor; [lia|done].
  - rewrite !andb_true_iff in H. destruct H as [[Hp Hx] Hy]. apply Z.eqb_eq in Hp as ->. by constructor.
Qed.

(** The operator accepts exactly the texts whose percent signs all begin an
    escape, and so what the transformation urlEncode gives. *)
Theorem validateURLEncoding_urlEncode tx s :
  (validateURLEncoding tx s = Done (tx, false) ↔ wellEncoded s) ∧
  (wf_bytes s → ∃ out ch, urlEncode s = Done (out, ch, None) ∧ validateURLEncoding tx out = Done (tx, false)).
Proof.
  split; [apply validateURLEncoding_spec|]. intros Hs. rewrite urlEncode_eq by done. eexists _, _. split; [done|].
  by apply validateURLEncoding_spec, wellEncoded_encoded.
Qed.

Lemma ValidString_cons s : s ≠ [] →
  ValidString s = match take (DecodeRune s).2 s with [b] => b <? RuneSelf | _ => true end
                  && ValidString (drop (DecodeRune s).2 s).
Proof. intros Hs. unfold ValidString. by rewrite runes_cons. Qed.

Lemma EncodeRune_take r : valid_rune r → match EncodeRune r with [b] => b <? RuneSelf | _ => true end = true.
Proof.
  unfold valid_rune, EncodeRune, encode3, in_range, RuneSelf. intros Hr. split_ifs; try done; lia.
Qed.

(** The operator accepts exactly the encodings of Unicode scalar values. *)
Theorem validateUtf8Encoding_runes tx s :
  wf_bytes s →
  validateUtf8Encoding tx s = Done (tx, false) ↔ ∃ rs, Forall valid_rune rs ∧ s = concat (EncodeRune <$> rs).
Proof.
  intros Hwf. assert (ValidString s = true ↔ ∃ rs, Forall valid_rune rs ∧ s = concat (EncodeRune <$> rs)) as Hv.
  { split.
    - induction s as [|s Hs IH] using runes_ind; intros Hv; [by exists []|].
      rewrite ValidString_cons in Hv by done. apply andb_true_iff in Hv as [Hh Hv].
      destruct IH as (rs & Hrs & Hd); [by apply Forall_drop|done|].
      exists ((DecodeRune s).1 :: rs). split.
      + constructor; [by apply DecodeRune_valid|done].
      + cbn [fmap list_fmap concat]. change (list_fmap Z bytes EncodeRune rs) with (EncodeRune <$> rs). rewrite <-Hd.
        rewrite <-(take_drop (DecodeRune s).2 s) at 1. f_equal.
        pose proof (DecodeRune_size s Hs) as Hsz. destruct (DecodeRune s) as [r n] eqn:E. cbn [fst snd] in *.
        destruct (decide (1 < n)%nat); [by destruct (EncodeRune_DecodeRune s r n Hwf E) as [-> _]|].
        replace n with 1%nat in * by lia. destruct s as [|b s]; [done|]. cbn [take] in Hh |- *.
        apply Forall_cons in Hwf as [Hb _]. unfold is_byte in Hb. apply Z.ltb_lt in Hh.
        rewrite DecodeRune_ascii in E by exact Hh. simplify_eq. unfold EncodeRune, in_range, RuneSelf in *.
        split_ifs; [done|unfold RuneSelf in *; lia..].
    - intros (rs & Hrs & ->). clear Hwf. induction Hrs as [|r rs Hr _ IH]; [done|].
      cbn [fmap list_fmap concat]. change (list_fmap Z bytes EncodeRune rs) with (EncodeRune <$> rs).
      unfold ValidString. rewrite runes_encode by done. cbn [forallb snd]. rewrite EncodeRune_take by done. exact IH. }
  unfold validateUtf8Encoding. rewrite <-Hv. destruct (ValidString s); naive_solver.
Qed.

Lemma validateUtf8Encoding_runes_witness :
  ∃ rs, Forall valid_rune rs ∧ [0xc3; 0xa9] = concat (EncodeRune <$> rs).
Proof.
  apply (validateUtf8Encoding_runes emptyTransaction).
  - repeat (apply Forall_cons; split; [unfold is_byte; lia|]). apply Forall_nil_2.
  - vm_compute. reflexivity.
Defined.
