(* ===== verification/IPMatch.v ===== *)
(** The operators that match addresses: src/internal/operators/ip_match.go,
    ip_match_from_dataset.go and ip_match_from_file.go.

    [net.ParseIP], [net.ParseCIDR] and [IPNet.Contains] are modelled as the
    standard library defines them, on the parser of package net/netip; an address
    is a list of 4 or 16 bytes. *)

From S2P Require Import Prelude GoLib StringUtil PathTransform Variables Types Collections BodyBuffer.
From S2P Require Import TransactionState Rule TransformCache Actions RuleGroup Engine RuleParser RuleSyntax.
From S2P Require Import RuleAssembly Directives Configuration Parser Operators.

(** ** Package net/netip *)

(** [parseIPv4Fields] on the rest of a text: whether the byte before is a dot or
    the beginning, the field being read and those before it. *)
Fixpoint parseIPv4Fields (s : bytes) (dot : bool) (val : Z) (digLen : nat) (fields : list Z) : option (list Z) :=
  match s with
  | [] => if (length fields <? 3)%nat then None else Some (fields ++ [val])
  | c :: s =>
      if isDigit c then
        if (digLen =? 1)%nat && (val =? 0) then None
        else
          let val := val * 10 + (c - 0x30) in
          if val >? 255 then None else parseIPv4Fields s false val (S digLen) fields
      else if c =? 0x2e then
        if dot || (length s =? 0)%nat then None
        else if (length fields =? 3)%nat then None
        else parseIPv4Fields s true 0 0 (fields ++ [val])
      else None
  end.

Definition parseIPv4 (s : bytes) : option (list Z) := parseIPv4Fields s true 0 0 [].

(** A group of hexadecimal digits at the beginning of a text: how many there are,
    its value and what follows. *)
Fixpoint hexGroup (s : bytes) (off : nat) (acc : Z) : option (nat * Z * bytes) :=
  match s with
  | [] => Some (off, acc, [])
  | c :: rest =>
      match hexDigitToByte c with
      | Some d =>
          let acc := acc * 16 + d in
          if (3 <? off)%nat || (acc >? 0xffff) then None else hexGroup rest (S off) acc
      | None => Some (off, acc, s)
      end
  end.

(** The loop of [parseIPv6]: the bytes read so far and where the ellipsis is;
    [groups] is the number of groups that still fit. *)
Fixpoint parseIPv6Loop (groups : nat) (s : bytes) (ellipsis : option nat) (ip : list Z)
    : option (bytes * option nat * list Z) :=
  match groups with
  | 0%nat => Some (s, ellipsis, ip)
  | S groups =>
      '(off, acc, rest) ← hexGroup s 0 0;
      if (off =? 0)%nat then None
      else
        match rest with
        | 0x2e :: _ =>
            if bool_decide (ellipsis = None) && negb (length ip =? 12)%nat then None
            else if (16 <? length ip + 4)%nat then None
            else v4 ← parseIPv4 s; Some ([], ellipsis, ip ++ v4)
        | _ =>
            let ip := ip ++ [acc / 256; acc mod 256] in
            match rest with
            | [] => Some ([], ellipsis, ip)
            | [_] => None
            | c :: d :: rest =>
                if negb (c =? 0x3a) then None
                else if d =? 0x3a then
                  if bool_decide (ellipsis = None) then
                    match rest with
                    | [] => Some ([], Some (length ip), ip)
                    | _ => parseIPv6Loop groups rest (Some (length ip)) ip
                    end
                  else None
                else parseIPv6Loop groups (d :: rest) ellipsis ip
            end
        end
  end.

(** The groups around the ellipsis are filled up with zeros. *)
Definition expandEllipsis (s : bytes) (ellipsis : option nat) (ip : list Z) : option (list Z) :=
  if negb (length s =? 0)%nat then None
  else
    match ellipsis with
    | None => if (length ip <? 16)%nat then None else Some ip
    | Some e =>
        if (length ip <? 16)%nat then Some (take e ip ++ replicate (16 - length ip) 0 ++ drop e ip) else None
    end.

(** The 16 bytes and the zone. *)
Definition parseIPv6 (s : bytes) : option (list Z * bytes) :=
  let '(s, zone, found) := Cut s 0x25 in
  if found && (length zone =? 0)%nat then None
  else
    match s with
    | [0x3a; 0x3a] => Some (replicate 16 0, zone)
    | 0x3a :: 0x3a :: s =>
        '(s, ellipsis, ip) ← parseIPv6Loop 8 s (Some 0%nat) [];
        ip ← expandEllipsis s ellipsis ip; Some (ip, zone)
    | _ =>
        '(s, ellipsis, ip) ← parseIPv6Loop 8 s None [];
        ip ← expandEllipsis s ellipsis ip; Some (ip, zone)
    end.

(** [netip.ParseAddr]: 4 bytes, or 16 bytes with a zone. *)
Definition ParseAddr (s : bytes) : option (list Z * bytes) :=
  match find (λ c, byte_in c (str ".:%")) s with
  | Some 0x2e => ip ← parseIPv4 s; Some (ip, [])
  | Some 0x3a => parseIPv6 s
  | _ => None
  end.

(** ** Package net *)

Definition v4InV6Prefix : list Z := replicate 10 0 ++ [0xff; 0xff].

Definition As16 (ip : list Z) : list Z := if (length ip =? 4)%nat then v4InV6Prefix ++ ip else ip.

(** [net.ParseIP] *)
Definition ParseIP (s : bytes) : option (list Z) :=
  '(ip, zone) ← ParseAddr s; if zone =s [] then Some (As16 ip) else None.

(** [IP.To4] *)
Definition To4 (ip : list Z) : option (list Z) :=
  if (length ip =? 4)%nat then Some ip
  else if take 12 ip =s v4InV6Prefix then Some (drop 12 ip) else None.

Record IPNet := mkNet { net_IP : list Z; net_Mask : list Z }.

(** [CIDRMask]: the bytes of a mask with [ones] bits. *)
Fixpoint CIDRMask (ones : Z) (len : nat) : list Z :=
  match len with
  | 0%nat => []
  | S len => if ones >=? 8 then 0xff :: CIDRMask (ones - 8) len
             else (0xff - Z.shiftr 0xff ones) :: CIDRMask 0 len
  end.

Definition maskBytes (ip mask : list Z) : list Z := zip_with Z.land ip mask.

(** [IP.Mask] of the 16 bytes of an address. *)
Definition Mask (ip mask : list Z) : list Z :=
  if (length mask =? 4)%nat && (take 12 ip =s v4InV6Prefix) then maskBytes (drop 12 ip) mask else maskBytes ip mask.

(** [dtoi] of the whole text: a number below 0xFFFFFF. *)
Fixpoint dtoi (s : bytes) (n : Z) : option Z :=
  match s with
  | [] => Some n
  | c :: s =>
      if isDigit c then let n := n * 10 + (c - 0x30) in if n >=? 0xffffff then None else dtoi s n else None
  end.

(** [net.ParseCIDR]: the network. *)
Definition ParseCIDR (s : bytes) : option IPNet :=
  let '(addr, mask, found) := Cut s 0x2f in
  if negb found then None
  else
    '(ip, zone) ← ParseAddr addr;
    if negb (zone =s []) || (length mask =? 0)%nat then None
    else
      n ← dtoi mask 0;
      if n >? 8 * Z.of_nat (length ip) then None
      else let m := CIDRMask n (length ip) in Some (mkNet (Mask (As16 ip) m) m).

(** [IPNet.Contains]; an address that did not parse has no bytes. *)
Definition NetContains (n : IPNet) (ip : list Z) : bool :=
  let nn := default n.(net_IP) (To4 n.(net_IP)) in
  let m := if (length nn =? 4)%nat && (length n.(net_Mask) =? 16)%nat then drop 12 n.(net_Mask) else n.(net_Mask) in
  let ip := default ip (To4 ip) in
  (length ip =? length nn)%nat && (maskBytes nn m =s maskBytes ip m).

(** ** The operators *)

(** An address without a mask is a network of one address. *)
Definition completeSubnet (sb : bytes) : bytes :=
  if byte_in 0x3a sb && negb (byte_in 0x2f sb) then sb ++ str "/128"
  else if byte_in 0x2e sb && negb (byte_in 0x2f sb) then sb ++ str "/32"
  else sb.

(** The loop of [newIPMatch]: what is no network is left out. *)
Fixpoint subnetsOf (sbs : list bytes) : list IPNet :=
  match sbs with
  | [] => []
  | sb :: sbs =>
      let sb := TrimSpace sb in
      if sb =s [] then subnetsOf sbs
      else match ParseCIDR (completeSubnet sb) with
           | Some subnet => subnet :: subnetsOf sbs
           | None => subnetsOf sbs
           end
  end.

Definition ipMatch (subnets : list IPNet) : operatorFn := λ tx value,
  let ip := default [] (ParseIP value) in
  Done (tx, existsb (λ subnet, NetContains subnet ip) subnets).

Definition newIPMatch (data : bytes) : operatorFn := ipMatch (subnetsOf (Split data 0x2c)).

Definition newIPMatchFromDataset (o : OperatorOptions) : option operatorFn :=
  dataset ← o.(oo_Datasets) !! o.(oo_Arguments);
  if (length dataset =? 0)%nat then None else Some (newIPMatch (Join dataset 0x2c)).

(** ** Files *)

(** What [fs.ReadFile] returns. *)
Inductive readResult := Content (data : bytes) | NotExist | ReadError.

Section files.
Context (ReadFile : bytes → readResult).

Fixpoint loadFromDirs (filename : bytes) (dirs : list bytes) : run (option bytes) :=
  match dirs with
  | [] => Done None
  | p :: dirs =>
      absFilepath ← pathJoin p filename;
      match ReadFile absFilepath with
      | Content data => Done (Some data)
      | NotExist => loadFromDirs filename dirs
      | ReadError => Done None
      end
  end.

Definition loadFromFile (filename : bytes) (dirs : list bytes) : run (option bytes) :=
  if match filename with c :: _ => c =? slash | [] => false end then
    Done (match ReadFile filename with Content data => Some data | _ => None end)
  else loadFromDirs filename dirs.

(** The lines that are neither empty nor comments. *)
Fixpoint dataLines (lines : list bytes) : list bytes :=
  match lines with
  | [] => []
  | l :: lines =>
      match TrimSpace l with
      | [] => dataLines lines
      | c :: l => if c =? 0x23 then dataLines lines else (c :: l) :: dataLines lines
      end
  end.

Definition newIPMatchFromFile (o : OperatorOptions) : run (option operatorFn) :=
  data ← loadFromFile o.(oo_Arguments) o.(oo_Path);
  Done match data with
       | Some data => Some (newIPMatch (flat_map (λ l, 0x2c :: l) (dataLines (scanLines data))))
       | None => None
       end.
End files.

(** ** Masks *)

(** The number of a list of bytes, the first one first. *)
Fixpoint beValue (l : list Z) : Z :=
  match l with [] => 0 | b :: l => b * 256 ^ Z.of_nat (length l) + beValue l end.

(** The bits of a byte that a mask of [n] bits keeps. *)
Definition maskByte_ok (b : Z) : bool :=
  forallb (λ n, Z.land b (0xff - Z.shiftr 0xff n) =? (b / 2 ^ (8 - n)) * 2 ^ (8 - n)) (seqZ 0 8)
  && (Z.land b 0xff =? b).

Lemma maskByte_spec b n : is_byte b → 0 <= n < 8 →
  Z.land b (0xff - Z.shiftr 0xff n) = (b / 2 ^ (8 - n)) * 2 ^ (8 - n).
Proof.
  intros Hb Hn. pose proof (forall_byte maskByte_ok ltac:(by vm_compute) b Hb) as H.
  apply andb_true_iff in H as [H _]. rewrite forallb_forall in H.
  apply Z.eqb_eq, H. apply list_elem_of_In, elem_of_seqZ. lia.
Qed.

Lemma maskByte_full b : is_byte b → Z.land b 0xff = b.
Proof.
  intros Hb. pose proof (forall_byte maskByte_ok ltac:(by vm_compute) b Hb) as H.
  apply andb_true_iff in H as [_ H]. by apply Z.eqb_eq.
Qed.

Lemma beValue_bound l : wf_bytes l → 0 <= beValue l < 256 ^ Z.of_nat (length l).
Proof.
  induction 1 as [|b l Hb _ IH]; cbn [beValue length]; [lia|]. unfold is_byte in Hb.
  rewrite Nat2Z.inj_succ, Z.pow_succ_r by lia. nia.
Qed.

Lemma CIDRMask_zero a b : length a = length b → wf_bytes a → wf_bytes b →
  maskBytes a (CIDRMask 0 (length a)) = maskBytes b (CIDRMask 0 (length a)).
Proof.
  intros Hl Ha. revert b Hl. induction Ha as [|x a Hx _ IH]; intros [|y b] Hl Hb; try done.
  apply Forall_cons in Hb as [Hy Hb]. unfold maskBytes in *. cbn [length CIDRMask] in *.
  change (0 >=? 8) with false. cbn [zip_with]. rewrite (IH b) by (done || lia).
  rewrite !maskByte_spec by (done || lia). unfold is_byte in *. change (2 ^ (8 - 0)) with 256. f_equal. dlia.
Qed.

Lemma quotient_unique x y u v p : 0 <= u < p → 0 <= v < p → x * p + u = y * p + v ↔ x = y ∧ u = v.
Proof.
  intros Hu Hv. split; [|by intros [-> ->]]. intros E.
  assert (x = (x * p + u) / p) as Ex by (apply Z.div_unique_pos with u; lia).
  assert (y = (y * p + v) / p) as Ey by (apply Z.div_unique_pos with v; lia).
  assert (x = y) as -> by congruence. lia.
Qed.

(** Two addresses agree under a mask when their numbers agree without the other
    bits. *)
Lemma maskBytes_prefix a : ∀ b n, length a = length b → wf_bytes a → wf_bytes b →
  0 <= n <= 8 * Z.of_nat (length a) →
  maskBytes a (CIDRMask n (length a)) = maskBytes b (CIDRMask n (length a)) ↔
  beValue a / 2 ^ (8 * Z.of_nat (length a) - n) = beValue b / 2 ^ (8 * Z.of_nat (length a) - n).
Proof.
  induction a as [|x a IH]; intros [|y b] n Hl Ha Hb Hn; try done.
  apply Forall_cons in Ha as [Hx Ha], Hb as [Hy Hb]. injection Hl as Hl.
  pose proof (beValue_bound a Ha) as Ba. pose proof (beValue_bound b Hb) as Bb. rewrite <-Hl in Bb.
  cbn [length CIDRMask beValue] in *. rewrite <-Hl. set (k := Z.of_nat (length a)) in *.
  destruct (Z.geb_spec n 8).
  - unfold maskBytes in *. cbn [zip_with]. rewrite !maskByte_full by done.
    specialize (IH b (n - 8) Hl Ha Hb ltac:(lia)).
    replace (8 * Z.of_nat (S (length a)) - n) with (8 * k - (n - 8)) by lia.
    assert (256 ^ k = 2 ^ (n - 8) * 2 ^ (8 * k - (n - 8))) as ->.
    { change 256 with (2 ^ 8). rewrite <-Z.pow_mul_r, <-Z.pow_add_r by lia. f_equal. lia. }
    assert (0 < 2 ^ (8 * k - (n - 8))) by (apply Z.pow_pos_nonneg; lia).
    rewrite !Z.mul_assoc, !Z.div_add_l by lia.
    rewrite quotient_unique.
    2,3: split; [apply Z.div_pos; lia|apply Z.div_lt_upper_bound; [lia|]].
    2,3: rewrite Z.mul_comm, <-Z.pow_add_r by lia; replace (n - 8 + (8 * k - (n - 8))) with (8 * k) by lia;
      rewrite Z.pow_mul_r by lia; change (2 ^ 8) with 256; lia.
    rewrite <-IH. split; [by intros [= -> ->]|by intros [-> ->]].
  - unfold maskBytes. cbn [zip_with]. rewrite !maskByte_spec by (done || lia).
    change (zip_with Z.land ?u ?v) with (maskBytes u v). rewrite (CIDRMask_zero a b) by done.
    replace (8 * Z.of_nat (S (length a)) - n) with (8 * k + (8 - n)) by lia.
    rewrite Z.pow_add_r, (Z.pow_mul_r 2 8 k), <-!Z.div_div by lia. change (2 ^ 8) with 256.
    rewrite !Z.div_add_l, !(Z.div_small (beValue _)) by lia. rewrite !Z.add_0_r.
    assert (0 < 2 ^ (8 - n)) by (apply Z.pow_pos_nonneg; lia).
    split; [intros [= E]|intros ->; done]. by apply Z.mul_reg_r in E; [|lia].
Qed.

(** ** Addresses as text *)

Definition printIPv4 (l : list Z) : bytes := Join (Itoa <$> l) 0x2e.

Definition hexDigit (d : Z) : Z := if d <? 10 then 0x30 + d else 0x61 + (d - 10).

Definition printGroup (g : Z) : bytes :=
  [hexDigit (g / 4096); hexDigit (g / 256 mod 16); hexDigit (g / 16 mod 16); hexDigit (g mod 16)].

Definition printIPv6 (gs : list Z) : bytes := Join (printGroup <$> gs) 0x3a.

Lemma parseIPv4Fields_Itoa n s dot fields : is_byte n →
  ∃ k, parseIPv4Fields (Itoa n ++ s) dot 0 0 fields = parseIPv4Fields s false n k fields.
Proof.
  intros Hn. assert (Forall (λ n, ∀ s dot fields, parseIPv4Fields (Itoa n ++ s) dot 0 0 fields
    = parseIPv4Fields s false n (length (Itoa n)) fields) (seqZ 0 256)) as Hall.
  { change (seqZ 0 256) with ltac:(let l := eval vm_compute in (seqZ 0 256) in exact l).
    repeat (apply Forall_cons; split; [intros; reflexivity|]). apply Forall_nil_2. }
  rewrite Forall_forall in Hall. exists (length (Itoa n)). apply Hall.
  unfold is_byte in Hn. apply elem_of_seqZ. lia.
Qed.

Lemma parseIPv4Fields_dot s val k fields :
  s ≠ [] → (length fields < 3)%nat →
  parseIPv4Fields (0x2e :: s) false val k fields = parseIPv4Fields s true 0 0 (fields ++ [val]).
Proof.
  intros Hs Hf. cbn [parseIPv4Fields]. change (isDigit 0x2e) with false. change (0x2e =? 0x2e) with true.
  destruct s as [|c s]; [done|]. cbn [length Nat.eqb orb]. destruct (Nat.eqb_spec (length fields) 3); [lia|done].
Qed.

Lemma Itoa_app_nonempty n s : is_byte n → Itoa n ++ s ≠ [].
Proof. intros Hn. destruct (Itoa_digits n) as [H _]; [unfold is_byte in Hn; lia|]. by destruct (Itoa n). Qed.

Lemma parseIPv4_print l : length l = 4%nat → wf_bytes l → parseIPv4 (printIPv4 l) = Some l.
Proof.
  intros Hl Hw. destruct l as [|a [|b [|c [|d [|]]]]]; try done. clear Hl.
  repeat (apply Forall_cons in Hw as [? Hw]). unfold printIPv4, parseIPv4. cbn [fmap list_fmap Join].
  rewrite <-(app_nil_r (Itoa d)).
  repeat match goal with
  | |- context [parseIPv4Fields (Itoa ?n ++ ?s) _ 0 0 ?fs] =>
      destruct (parseIPv4Fields_Itoa n s true fs) as [? ->]; [done|]
  | |- context [parseIPv4Fields (0x2e :: _) false _ _ _] =>
      rewrite parseIPv4Fields_dot; [|by apply Itoa_app_nonempty|cbn; lia]
  end. done.
Qed.

(** The bytes of the text of a number. *)
Lemma Itoa_byte_in n c : 0 <= n → isDigit c = false → byte_in c (Itoa n) = false.
Proof.
  intros Hn Hc. destruct (Itoa_digits n Hn) as [_ Hd]. unfold byte_in. apply not_true_iff_false.
  rewrite existsb_exists. intros (x & Hx & ->%Z.eqb_eq). rewrite Forall_forall in Hd.
  rewrite Hd in Hc; [done|]. by apply list_elem_of_In.
Qed.

Lemma hexDigitToByte_digit d : 0 <= d < 16 → hexDigitToByte (hexDigit d) = Some d.
Proof.
  intros Hd. assert (Forall (λ d, hexDigitToByte (hexDigit d) = Some d) (seqZ 0 16)) as Hall.
  { repeat (apply Forall_cons; split; [vm_compute; reflexivity|]). apply Forall_nil_2. }
  rewrite Forall_forall in Hall. apply Hall, elem_of_seqZ. lia.
Qed.

Definition hexText (c : Z) : bool := in_range 0x30 c 0x39 || in_range 0x61 c 0x66.

Lemma hexDigit_text d : 0 <= d < 16 → hexText (hexDigit d) = true.
Proof. intros Hd. unfold hexText, hexDigit, in_range. split_ifs; lia. Qed.

Definition isGroup (g : Z) : Prop := 0 <= g < 0x10000.

Lemma printGroup_text g : isGroup g → Forall (λ c, hexText c = true) (printGroup g).
Proof. intros Hg. unfold isGroup in Hg. repeat constructor; apply hexDigit_text; dlia. Qed.

Lemma hexGroup_print g s : isGroup g → match s with c :: _ => hexDigitToByte c = None | [] => True end →
  hexGroup (printGroup g ++ s) 0 0 = Some (4%nat, g, s).
Proof.
  intros Hg Hs. unfold isGroup in Hg. unfold printGroup.
  assert (g / 4096 * 16 + g / 256 mod 16 = g / 256 ∧ g / 256 * 16 + g / 16 mod 16 = g / 16 ∧ g / 16 * 16 + g mod 16 = g)
    as (E1 & E2 & E3) by (split_and!; dlia).
  cbn [app hexGroup]. rewrite !hexDigitToByte_digit by dlia. cbn [Nat.ltb Nat.leb orb].
  rewrite Z.mul_0_l, Z.add_0_l, E1, E2, E3.
  assert (∀ x, 0 <= x <= g → (x >? 0xffff) = false) as Hle by (intros; lia).
  rewrite !Hle by dlia. destruct s as [|c s]; [done|]. cbn [hexGroup]. by rewrite Hs.
Qed.

Definition groupBytes (gs : list Z) : list Z := flat_map (λ g, [g / 256; g mod 256]) gs.

Lemma parseIPv6Loop_print gs : ∀ ip, gs ≠ [] → Forall isGroup gs →
  parseIPv6Loop (length gs) (printIPv6 gs) None ip = Some ([], None, ip ++ groupBytes gs).
Proof.
  induction gs as [|g gs IH]; intros ip Hne Hgs; [done|]. apply Forall_cons in Hgs as [Hg Hgs].
  destruct gs as [|g' gs].
  - unfold printIPv6. cbn [fmap list_fmap Join length parseIPv6Loop]. rewrite <-(app_nil_r (printGroup g)).
    rewrite hexGroup_print by done. done.
  - assert (printIPv6 (g :: g' :: gs) = printGroup g ++ 0x3a :: printIPv6 (g' :: gs)) as -> by done.
    change (length (g :: g' :: gs)) with (S (length (g' :: gs))). remember (length (g' :: gs)) as n eqn:En.
    cbn [parseIPv6Loop]. rewrite hexGroup_print by done. cbn [mbind option_bind Nat.eqb].
    assert (∃ d rest, printIPv6 (g' :: gs) = d :: rest ∧ d ≠ 0x3a) as (d & rest & E & Hd).
    { apply Forall_cons in Hgs as [Hg' _]. pose proof (printGroup_text g' Hg') as Ht.
      unfold printIPv6. rewrite fmap_cons. destruct (printGroup g') as [|d l] eqn:Eg; [done|].
      apply Forall_cons in Ht as [Hd _]. exists d. destruct (printGroup <$> gs); eexists; (split; [reflexivity|]);
        intros ->; done. }
    rewrite E. change (negb (58 =? 58)) with false. cbn [negb]. destruct (Z.eqb_spec d 0x3a) as [|_]; [done|].
    rewrite <-E, IH by done.
    cbn [groupBytes flat_map app]. by rewrite <-app_assoc.
Qed.

Lemma printIPv6_text gs : Forall isGroup gs → Forall (λ c, hexText c || (c =? 0x3a) = true) (printIPv6 gs).
Proof.
  unfold printIPv6. induction 1 as [|g gs Hg _ IH]; [constructor|]. rewrite fmap_cons.
  assert (Forall (λ c, hexText c || (c =? 0x3a) = true) (printGroup g)) as Ht.
  { eapply Forall_impl; [by apply printGroup_text|]. intros c Hc. by rewrite Hc. }
  destruct (printGroup <$> gs); [done|]. cbn [Join]. apply Forall_app. split; [done|]. by constructor.
Qed.

Lemma Cut_none s sep : Forall (λ c, c ≠ sep) s → Cut s sep = (s, [], false).
Proof.
  induction 1 as [|c s Hc _ IH]; [done|]. cbn [Cut]. destruct (Z.eqb_spec c sep); [done|]. by rewrite IH.
Qed.

Lemma groupBytes_length gs : length (groupBytes gs) = (2 * length gs)%nat.
Proof. induction gs as [|g gs IH]; [done|]. cbn [groupBytes flat_map app length]. fold (groupBytes gs). lia. Qed.

Lemma parseIPv6_print gs : length gs = 8%nat → Forall isGroup gs → parseIPv6 (printIPv6 gs) = Some (groupBytes gs, []).
Proof.
  intros Hl Hgs. unfold parseIPv6. rewrite Cut_none.
  2: { eapply Forall_impl; [by apply printIPv6_text|]. intros c Hc ->. done. }
  cbn [andb]. destruct gs as [|g gs]; [done|].
  pose proof (parseIPv6Loop_print (g :: gs) [] ltac:(done) Hgs) as HL. rewrite Hl in HL.
  pose proof (groupBytes_length (g :: gs)) as Hlen. rewrite Hl in Hlen.
  apply Forall_cons in Hgs as [Hg _]. pose proof (printGroup_text g Hg) as Ht.
  assert (∃ d rest, printIPv6 (g :: gs) = d :: rest ∧ d ≠ 0x3a) as (d & rest & E & Hd).
  { unfold printIPv6. rewrite fmap_cons. destruct (printGroup g) as [|d l] eqn:Eg; [done|].
    apply Forall_cons in Ht as [Hd _]. exists d. destruct (printGroup <$> gs); eexists; (split; [reflexivity|]);
      intros ->; done. }
  rewrite E in HL |- *.
  assert (('(s, ellipsis, ip) ← parseIPv6Loop 8 (d :: rest) None []; ip ← expandEllipsis s ellipsis ip; Some (ip, []))
    = Some (groupBytes (g :: gs), [] : bytes)) as HR.
  { rewrite HL. cbn [mbind option_bind app]. unfold expandEllipsis. cbn [length Nat.eqb negb].
    by rewrite Hlen. }
  destruct d as [|p|p]; [exact HR| |exact HR]. do 6 (destruct p; try exact HR); done.
Qed.

(** ** Networks *)

Inductive address := IPv4 (l : list Z) | IPv6 (gs : list Z).

Definition addressBytes (a : address) : list Z := match a with IPv4 l => l | IPv6 gs => groupBytes gs end.

Definition printAddress (a : address) : bytes := match a with IPv4 l => printIPv4 l | IPv6 gs => printIPv6 gs end.

(** An address of version 6 that stands for one of version 4 is not one here. *)
Definition isAddress (a : address) : Prop :=
  match a with
  | IPv4 l => length l = 4%nat ∧ wf_bytes l
  | IPv6 gs => length gs = 8%nat ∧ Forall isGroup gs ∧ take 12 (groupBytes gs) ≠ v4InV6Prefix
  end.

Definition addressBits (a : address) : Z := 8 * Z.of_nat (length (addressBytes a)).

Lemma groupBytes_wf gs : Forall isGroup gs → wf_bytes (groupBytes gs).
Proof.
  induction 1 as [|g gs Hg _ IH]; [constructor|]. unfold isGroup in Hg.
  apply Forall_cons; split; [unfold is_byte; dlia|]. apply Forall_cons; split; [unfold is_byte; dlia|done].
Qed.

Lemma addressBytes_wf a : isAddress a → wf_bytes (addressBytes a).
Proof. destruct a; [by intros [_ ?]|]. intros (_ & ? & _). by apply groupBytes_wf. Qed.

Lemma addressBytes_length a : isAddress a → length (addressBytes a) = 4%nat ∨ length (addressBytes a) = 16%nat.
Proof.
  destruct a as [l|gs]; [by intros [? _]; left|]. intros (Hl & _). right. cbn. by rewrite groupBytes_length, Hl.
Qed.

(** The first byte of a text that is one of three. *)
Lemma find_special s c t :
  Forall (λ x, byte_in x (str ".:%") = false) s → byte_in c (str ".:%") = true →
  find (λ c, byte_in c (str ".:%")) (s ++ c :: t) = Some c.
Proof. intros Hs Hc. induction Hs as [|x s Hx _ IH]; cbn [app find]; [by rewrite Hc|by rewrite Hx]. Qed.

Lemma ParseAddr_print a : isAddress a → ParseAddr (printAddress a) = Some (addressBytes a, []).
Proof.
  destruct a as [l|gs]; cbn [isAddress printAddress addressBytes].
  - intros [Hl Hw]. assert (∃ t, printIPv4 l = Itoa (hd 0 l) ++ 0x2e :: t) as [t E].
    { destruct l as [|a [|b l]]; try done. unfold printIPv4. cbn [fmap list_fmap Join hd]. by eexists. }
    unfold ParseAddr. rewrite E, find_special; [|..|done].
    + change (parseIPv4 (Itoa (hd 0 l) ++ 0x2e :: t)) with (parseIPv4 (Itoa (hd 0 l) ++ 0x2e :: t)). rewrite <-E.
      by rewrite parseIPv4_print.
    + destruct l as [|a l]; [done|]. apply Forall_cons in Hw as [Ha _]. cbn [hd].
      destruct (Itoa_digits a) as [_ Hd]; [unfold is_byte in Ha; lia|]. eapply Forall_impl; [done|].
      intros c Hc. unfold isDigit in Hc. unfold byte_in. apply not_true_iff_false. rewrite existsb_exists.
      intros (x & Hx & ->%Z.eqb_eq). apply list_elem_of_In in Hx.
      repeat (apply elem_of_cons in Hx as [->|Hx]; [done|]). by apply not_elem_of_nil in Hx.
  - intros (Hl & Hgs & _). assert (∃ t, printIPv6 gs = printGroup (hd 0 gs) ++ 0x3a :: t) as [t E].
    { destruct gs as [|a [|b gs]]; try done. unfold printIPv6. cbn [fmap list_fmap Join hd]. by eexists. }
    unfold ParseAddr. rewrite E, find_special; [|..|done].
    + rewrite <-E. by apply parseIPv6_print.
    + destruct gs as [|g gs]; [done|]. apply Forall_cons in Hgs as [Hg _]. cbn [hd].
      eapply Forall_impl; [by apply printGroup_text|]. intros c Hc. unfold hexText, in_range in Hc. unfold byte_in.
      apply not_true_iff_false. rewrite existsb_exists. intros (x & Hx & ->%Z.eqb_eq). apply list_elem_of_In in Hx.
      repeat (apply elem_of_cons in Hx as [->|Hx]; [done|]). by apply not_elem_of_nil in Hx.
Qed.

Lemma CIDRMask_length n len : length (CIDRMask n len) = len.
Proof. revert n. induction len as [|len IH]; intros n; [done|]. cbn [CIDRMask]. destruct (_ >=? _); cbn; by rewrite IH. Qed.

Lemma maskBytes_idem a m : maskBytes (maskBytes a m) m = maskBytes a m.
Proof.
  unfold maskBytes. revert m. induction a as [|x a IH]; intros [|y m]; cbn [zip_with]; try done.
  by rewrite IH, <-Z.land_assoc, Z.land_diag.
Qed.

Lemma maskBytes_length a m : length a = length m → length (maskBytes a m) = length a.
Proof. intros H. unfold maskBytes. rewrite length_zip_with. lia. Qed.

(** A mask of less than 96 bits clears a bit of byte 11; a longer one keeps the
    first 12 bytes. *)
Definition maskTail_ok (n : Z) : bool :=
  if n <? 96 then (0 <=? CIDRMask n 16 !!! 11%nat) && (CIDRMask n 16 !!! 11%nat <? 255)
  else bool_decide (take 12 (CIDRMask n 16) = replicate 12 255).

Lemma maskTail_spec n : 0 <= n <= 128 → maskTail_ok n = true.
Proof.
  intros Hn. assert (forallb maskTail_ok (seqZ 0 129) = true) as H by (vm_compute; reflexivity).
  rewrite forallb_forall in H. apply H, list_elem_of_In, elem_of_seqZ. lia.
Qed.

(** A mask makes no address of version 4 of another one. *)
Lemma Mask_unmapped ip n : length ip = 16%nat → wf_bytes ip → 0 <= n <= 128 →
  take 12 ip ≠ v4InV6Prefix → take 12 (maskBytes ip (CIDRMask n 16)) ≠ v4InV6Prefix.
Proof.
  intros Hl Hw Hn Hp Hm.
  pose proof (maskTail_spec n Hn) as Hall. unfold maskTail_ok in Hall.
  pose proof (CIDRMask_length n 16) as Hml. destruct (n <? 96).
  - destruct (ip !! 11%nat) as [x|] eqn:Hx; [|apply lookup_ge_None in Hx; lia].
    destruct (CIDRMask n 16 !! 11%nat) as [m|] eqn:Hmx; [|apply lookup_ge_None in Hmx; lia].
    rewrite (list_lookup_total_correct _ _ _ Hmx) in Hall. apply andb_true_iff in Hall as [? ?].
    assert (maskBytes ip (CIDRMask n 16) !! 11%nat = Some (Z.land x m)) as Hz.
    { unfold maskBytes. rewrite lookup_zip_with, Hx. cbn [mbind option_bind]. by rewrite Hmx. }
    assert (take 12 (maskBytes ip (CIDRMask n 16)) !! 11%nat = Some 0xff) as Hz2 by (by rewrite Hm).
    rewrite lookup_take_lt, Hz in Hz2 by lia. injection Hz2 as Hz2.
    assert (0 <= x) by (rewrite Forall_lookup in Hw; apply Hw in Hx; unfold is_byte in Hx; lia).
    assert (Z.land x m <= m); [|lia]. rewrite <-(Z2N.id x), <-(Z2N.id m), <-N2Z.inj_land by lia.
    pose proof (N.land_le_r (Z.to_N x) (Z.to_N m)). lia.
  - apply bool_decide_eq_true in Hall. apply Hp. rewrite <-Hm. unfold maskBytes. rewrite zip_with_take, Hall.
    assert (∀ l, wf_bytes l → zip_with Z.land l (replicate (length l) 255) = l) as Hfull.
    { induction 1 as [|b l Hb _ IH]; [done|]. cbn. by rewrite IH, maskByte_full. }
    symmetry. assert (length (take 12 ip) = 12%nat) as E by (rewrite length_take; lia).
    rewrite <-E at 2. apply Hfull. by apply Forall_take.
Qed.

(** A network: an address and the bits of its mask, or the address alone. *)
Definition subnet : Type := address * option Z.

Definition subnetBits (n : subnet) : Z := default (addressBits n.1) n.2.

Definition isSubnet (n : subnet) : Prop := isAddress n.1 ∧ 0 <= subnetBits n <= addressBits n.1.

Definition printSubnet (n : subnet) : bytes :=
  printAddress n.1 ++ match n.2 with Some bits => 0x2f :: Itoa bits | None => [] end.

(** The address has the version of the network and its first bits. *)
Definition inSubnet (n : subnet) (ip : address) : bool :=
  (addressBits ip =? addressBits n.1) &&
  (beValue (addressBytes n.1) / 2 ^ (addressBits n.1 - subnetBits n)
   =? beValue (addressBytes ip) / 2 ^ (addressBits n.1 - subnetBits n)).

(** The bytes of the text of an address. *)
Definition addressChar (a : address) (c : Z) : bool :=
  match a with IPv4 _ => isDigit c || (c =? 0x2e) | IPv6 _ => hexText c || (c =? 0x3a) end.

Lemma printIPv4_text l : wf_bytes l → Forall (λ c, isDigit c || (c =? 0x2e) = true) (printIPv4 l).
Proof.
  unfold printIPv4. induction 1 as [|b l Hb _ IH]; [constructor|]. rewrite fmap_cons.
  assert (Forall (λ c, isDigit c || (c =? 0x2e) = true) (Itoa b)) as Ht.
  { destruct (Itoa_digits b) as [_ Hd]; [unfold is_byte in Hb; lia|]. eapply Forall_impl; [done|].
    intros c Hc. by rewrite Hc. }
  destruct (Itoa <$> l); [done|]. cbn [Join]. apply Forall_app. split; [done|]. by constructor.
Qed.

Lemma printAddress_text a : isAddress a → Forall (λ c, addressChar a c = true) (printAddress a).
Proof. destruct a; [intros [_ ?]; by apply printIPv4_text|]. intros (_ & ? & _). by apply printIPv6_text. Qed.

Lemma byte_in_text (P : Z → bool) s c : Forall (λ c, P c = true) s → P c = false → byte_in c s = false.
Proof.
  intros Hs Hc. unfold byte_in. apply not_true_iff_false. rewrite existsb_exists. intros (x & Hx & ->%Z.eqb_eq).
  rewrite Forall_forall in Hs. rewrite Hs in Hc; [done|]. by apply list_elem_of_In.
Qed.

Lemma byte_in_app c s t : byte_in c (s ++ t) = byte_in c s || byte_in c t.
Proof. unfold byte_in. by rewrite existsb_app. Qed.

Lemma printAddress_special a : isAddress a →
  byte_in 0x2f (printAddress a) = false ∧
  byte_in 0x3a (printAddress a) = match a with IPv4 _ => false | IPv6 _ => true end ∧
  byte_in 0x2e (printAddress a) = match a with IPv4 _ => true | IPv6 _ => false end.
Proof.
  intros Ha. pose proof (printAddress_text a Ha) as Ht. split_and!.
  - eapply byte_in_text; [exact Ht|]. by destruct a.
  - destruct a as [l|gs]; [by eapply byte_in_text|]. destruct Ha as (Hl & _). destruct gs as [|g [|g' gs]]; try done.
    cbn [printAddress]. unfold printIPv6. cbn [fmap list_fmap Join]. rewrite byte_in_app. apply orb_true_r.
  - destruct a as [l|gs]; [|by eapply byte_in_text]. destruct Ha as (Hl & _). destruct l as [|g [|g' l]]; try done.
    cbn [printAddress]. unfold printIPv4. cbn [fmap list_fmap Join]. rewrite byte_in_app. apply orb_true_r.
Qed.

Lemma completeSubnet_print n : isSubnet n →
  completeSubnet (printSubnet n) = printAddress n.1 ++ 0x2f :: Itoa (subnetBits n).
Proof.
  destruct n as [a [bits|]]; intros [Ha Hb]; unfold completeSubnet, printSubnet, subnetBits; cbn [fst snd default].
  - rewrite !byte_in_app. cbn [byte_in existsb]. rewrite Z.eqb_refl. cbn [orb]. by rewrite !orb_true_r, !andb_false_r.
  - rewrite app_nil_r. destruct (printAddress_special a Ha) as (-> & -> & ->).
    destruct a as [l|gs]; cbn [andb negb]; unfold addressBits; cbn [addressBytes].
    + destruct Ha as [-> _]. done.
    + destruct Ha as [Hl _]. rewrite groupBytes_length, Hl. done.
Qed.

Lemma dtoi_Itoa n : 0 <= n <= 128 → dtoi (Itoa n) 0 = Some n ∧ (length (Itoa n) =? 0)%nat = false.
Proof.
  intros Hn. assert (Forall (λ n, dtoi (Itoa n) 0 = Some n ∧ (length (Itoa n) =? 0)%nat = false) (seqZ 0 129)) as Hall.
  { apply Forall_forall. intros x Hx. apply elem_of_seqZ in Hx.
    assert (forallb (λ n, bool_decide (dtoi (Itoa n) 0 = Some n) && negb (length (Itoa n) =? 0)%nat) (seqZ 0 129) = true)
      as H by (vm_compute; reflexivity).
    rewrite forallb_forall in H. specialize (H x ltac:(apply list_elem_of_In, elem_of_seqZ; lia)).
    apply andb_true_iff in H as [H1%bool_decide_eq_true H2%negb_true_iff]. done. }
  rewrite Forall_forall in Hall. apply Hall, elem_of_seqZ. lia.
Qed.

(** The network of a printed one. *)
Definition netOf (n : subnet) : IPNet :=
  let m := CIDRMask (subnetBits n) (length (addressBytes n.1)) in mkNet (maskBytes (addressBytes n.1) m) m.

Lemma ParseCIDR_print n : isSubnet n → ParseCIDR (completeSubnet (printSubnet n)) = Some (netOf n).
Proof.
  intros Hn. rewrite completeSubnet_print by done. destruct n as [a bits]. destruct Hn as [Ha Hb]. cbn [fst] in *.
  unfold ParseCIDR. rewrite Cut_first.
  2: { eapply Forall_impl; [by apply printAddress_text|]. intros c Hc ->. by destruct a. }
  cbn [negb]. rewrite ParseAddr_print by done. cbn [mbind option_bind].
  change (negb ([] =s [])) with false. cbn [orb].
  pose proof (addressBytes_length a Ha) as Hlen. unfold addressBits in Hb.
  destruct (dtoi_Itoa (subnetBits (a, bits))) as [Hd ->]; [lia|]. rewrite Hd. cbn [mbind option_bind].
  destruct (Z.gtb_spec (subnetBits (a, bits)) (8 * Z.of_nat (length (addressBytes a)))); [lia|].
  unfold netOf. cbn [fst]. do 2 f_equal. unfold Mask, As16. rewrite CIDRMask_length.
  destruct a as [l|gs]; cbn [addressBytes] in *.
  - destruct Ha as [Hl _]. rewrite Hl. done.
  - destruct Ha as (Hl & _). rewrite groupBytes_length, Hl. done.
Qed.

Lemma To4_bytes ip : isAddress ip → default (As16 (addressBytes ip)) (To4 (As16 (addressBytes ip))) = addressBytes ip.
Proof.
  destruct ip as [l|gs]; cbn [addressBytes].
  - intros [Hl _]. unfold As16, To4. rewrite Hl. cbn [Nat.eqb].
    assert (length (v4InV6Prefix ++ l) = 16%nat) as -> by (rewrite length_app, Hl; done). cbn [Nat.eqb].
    rewrite (take_app_length' v4InV6Prefix l 12), (drop_app_length' v4InV6Prefix l 12) by done.
    by rewrite (proj2 (bytes_eqb_eq _ _) eq_refl).
  - intros (Hl & _ & Hp). unfold As16, To4. rewrite groupBytes_length, Hl. cbn [Nat.mul Nat.add Nat.eqb].
    rewrite groupBytes_length, Hl. cbn [Nat.mul Nat.add Nat.eqb]. by rewrite (proj2 (bytes_eqb_neq _ _) Hp).
Qed.

Lemma To4_net n : isSubnet n → default (net_IP (netOf n)) (To4 (net_IP (netOf n))) = net_IP (netOf n).
Proof.
  destruct n as [a bits]. intros [Ha Hb]. unfold netOf. cbn [net_IP fst] in *. unfold To4.
  rewrite maskBytes_length by (by rewrite CIDRMask_length).
  destruct a as [l|gs]; cbn [addressBytes] in *.
  - destruct Ha as [Hl _]. by rewrite Hl.
  - unfold addressBits in Hb. cbn [addressBytes] in Hb. destruct Ha as (Hl & Hg & Hp).
    rewrite groupBytes_length, Hl in Hb |- *. cbn [Nat.mul Nat.add Nat.eqb] in *.
    rewrite (proj2 (bytes_eqb_neq _ _)); [done|].
    apply Mask_unmapped; [by rewrite groupBytes_length, Hl|by apply groupBytes_wf|lia|done].
Qed.

Lemma NetContains_net n ip : isSubnet n → isAddress ip → NetContains (netOf n) (As16 (addressBytes ip)) = inSubnet n ip.
Proof.
  intros Hn Hip. unfold NetContains. rewrite To4_net, To4_bytes by done. destruct n as [a bits].
  destruct Hn as [Ha Hb]. unfold netOf, inSubnet. cbn [net_IP net_Mask fst] in *.
  set (m := CIDRMask (subnetBits (a, bits)) (length (addressBytes a))) in *.
  assert (length m = length (addressBytes a)) as Hm by apply CIDRMask_length.
  rewrite maskBytes_length, Hm by done.
  assert ((length (addressBytes a) =? 4)%nat && (length (addressBytes a) =? 16)%nat = false) as ->.
  { destruct (addressBytes_length a Ha) as [-> | ->]; done. }
  rewrite maskBytes_idem. unfold addressBits in *.
  destruct (Nat.eqb_spec (length (addressBytes ip)) (length (addressBytes a))) as [E|E]; cbn [andb].
  - rewrite E, Z.eqb_refl. cbn [andb].
    pose proof (maskBytes_prefix (addressBytes a) (addressBytes ip) (subnetBits (a, bits)) (eq_sym E)
      (addressBytes_wf a Ha) (addressBytes_wf ip Hip) Hb) as Hp.
    change (CIDRMask (subnetBits (a, bits)) (length (addressBytes a))) with m in Hp.
    apply eq_bool_prop_intro. rewrite !Is_true_true, Z.eqb_eq, <-Hp. apply bytes_eqb_eq.
  - destruct (Z.eqb_spec (8 * Z.of_nat (length (addressBytes ip))) (8 * Z.of_nat (length (addressBytes a)))); [lia|done].
Qed.

Lemma printSubnet_text n : isSubnet n →
  printSubnet n ≠ [] ∧ Forall (λ c, tightByte c = true) (printSubnet n) ∧ Forall (λ c, c ≠ 0x2c) (printSubnet n).
Proof.
  destruct n as [a bits]. intros [Ha Hb]. unfold printSubnet. cbn [fst snd] in *.
  pose proof (printAddress_text a Ha) as Ht.
  assert (Forall (λ c, tightByte c = true ∧ c ≠ 0x2c) (printAddress a)) as H1.
  { eapply Forall_impl; [done|]. intros c Hc. unfold addressChar, hexText, isDigit, in_range in Hc. unfold tightByte.
    destruct a; lia. }
  assert (Forall (λ c, tightByte c = true ∧ c ≠ 0x2c) match bits with Some bits => 0x2f :: Itoa bits | None => [] end) as H2.
  { destruct bits as [b|]; [|constructor]. constructor; [done|]. cbn in Hb.
    destruct (Itoa_digits b) as [_ Hd]; [lia|]. eapply Forall_impl; [done|]. intros c Hc. unfold isDigit, tightByte in *. lia. }
  split; [|rewrite <-Forall_and; by apply Forall_app].
  destruct (printAddress a) as [|c s] eqn:E; [|done]. destruct (printAddress_special a Ha) as (_ & H3 & H4).
  rewrite E in H3, H4. by destruct a.
Qed.

Lemma subnetsOf_print ns : Forall isSubnet ns → subnetsOf (printSubnet <$> ns) = netOf <$> ns.
Proof.
  induction 1 as [|n ns Hn _ IH]; [done|]. rewrite !fmap_cons. cbn [subnetsOf].
  destruct (printSubnet_text n Hn) as (Hne & Ht & _).
  rewrite TrimSpace_key, (proj2 (bytes_eqb_neq _ _) Hne), ParseCIDR_print by done. by rewrite IH.
Qed.

(** C26: The operator made from a list of networks matches the addresses whose first
    bits are those of a network of the list. *)
Theorem ipMatch_subnets ns ip tx :
  ns ≠ [] → Forall isSubnet ns → isAddress ip →
  newIPMatch (Join (printSubnet <$> ns) 0x2c) tx (printAddress ip) = Done (tx, existsb (λ n, inSubnet n ip) ns).
Proof.
  intros Hne Hns Hip. unfold newIPMatch. rewrite Split_Join; [|by destruct ns|].
  2: { apply Forall_fmap. eapply Forall_impl; [done|]. intros n Hn. by apply printSubnet_text. }
  rewrite subnetsOf_print by done. unfold ipMatch, ParseIP. rewrite ParseAddr_print by done.
  cbn [mbind option_bind]. change ([] =s []) with true. cbn [default]. unfold id. do 2 f_equal.
  clear Hne. induction Hns as [|n ns Hn _ IH]; [done|]. rewrite fmap_cons. cbn [existsb].
  by rewrite NetContains_net, IH.
Qed.

Definition exampleNets : list subnet :=
  [(IPv4 [192; 168; 0; 0], Some 16); (IPv6 [0x2001; 0xdb8; 0; 0; 0; 0; 0; 1], None)].

Lemma ipMatch_subnets_witness :
  newIPMatch (str "192.168.0.0/16,2001:0db8:0000:0000:0000:0000:0000:0001") emptyTransaction (str "192.168.7.9") =
    Done (emptyTransaction, true).
Proof.
  apply (ipMatch_subnets exampleNets (IPv4 [192; 168; 7; 9]) emptyTransaction).
  - done.
  - unfold exampleNets. apply Forall_cons; split; [|apply Forall_cons; split; [|apply Forall_nil_2]].
    + split; [split; [reflexivity|repeat (apply Forall_cons; split; [unfold is_byte; lia|]); apply Forall_nil_2]|vm_compute; split; discriminate].
    + split; [split_and!; [reflexivity|repeat (apply Forall_cons; split; [unfold isGroup; lia|]); apply Forall_nil_2|]|vm_compute; split; discriminate].
      vm_compute. discriminate.
  - split; [reflexivity|]. repeat (apply Forall_cons; split; [unfold is_byte; lia|]). apply Forall_nil_2.
Defined.
