(* ===== verification/PatternMatch.v ===== *)
(** The operators that search for many patterns: src/internal/operators/pm.go,
    pm_from_file.go and pm_from_dataset.go.

    The automaton is package aho-corasick, a class whose laws are what its
    documentation says of a search that ignores the case of ASCII: there is a
    match exactly when a pattern occurs, and matches lie in the input.  The other
    matcher is the index of Matchers.v. *)

From S2P Require Import Prelude GoLib StringUtil UrlTransform TextTransform Matchers TransactionCaches Prefilter PathTransform Variables Types Collections.
From S2P Require Import BodyBuffer TransactionState Rule TransformCache Actions RuleGroup Engine RuleParser RuleSyntax.
From S2P Require Import RuleAssembly Directives Configuration Parser Operators IPMatch.

(** The matches of a list of patterns in an input, in the order of the iterator;
    [dfa] selects the representation. *)
Class AhoCorasick := {
  ac_build (dfa : bool) (patterns : list bytes) (value : bytes) : list (nat * nat);
}.

Class AhoCorasickLaws `{!AhoCorasick} := {
  ac_found dfa patterns value : Forall (λ p, p ≠ []) patterns →
    ac_build dfa patterns value ≠ [] ↔ Exists (λ p, Contains (fold value) (fold p) = true) patterns;
  ac_bounds dfa patterns value a b : (a, b) ∈ ac_build dfa patterns value → (a ≤ b ≤ length value)%nat;
}.

Section pm.
Context `{U : !Unicode, AC : !AhoCorasick}.

Record pm := mkPM {
  pm_matcher : bytes → list (nat * nat);
  pm_nonCapturing : option indexedMatcher;
  pm_minLen : nat;
}.

Fixpoint minPatternLenLoop (patterns : list bytes) (minimum : nat) : nat :=
  match patterns with
  | [] => minimum
  | p :: patterns =>
      if (length p =? 0)%nat then 0
      else minPatternLenLoop patterns (if (minimum =? 0)%nat || (length p <? minimum)%nat then length p else minimum)
  end.

Definition minPatternLen (patterns : list bytes) : nat := minPatternLenLoop patterns 0.

Definition anyEmpty (values : list bytes) : bool := existsb (λ v, v =s []) values.




(** The artifact of a dictionary. *)
Definition pmCompiled (dfa : bool) (dict : list bytes) : run pm :=
  if anyEmpty dict then Done (mkPM (ac_build dfa dict) None (minPatternLen dict))
  else m ← newIndexedMatcher dict true; Done (mkPM (ac_build dfa dict) (Some m) (minPatternLen dict)).


Definition newPMFromDataset (o : OperatorOptions) : option pm :=
  dataset ← o.(oo_Datasets) !! o.(oo_Arguments);
  Some (mkPM (ac_build true dataset) None (minPatternLen dataset)).

Definition newPMFromFile (ReadFile : bytes → readResult) (o : OperatorOptions) : run (option pm) :=
  data ← loadFromFile ReadFile o.(oo_Arguments) o.(oo_Path);
  match data with
  | None => Done None
  | Some data => p ← pmCompiled false (ToLower <$> dataLines (scanLines data)); Done (Some p)
  end.

(** ** The key of the memoizer *)

(** [binary.BigEndian.AppendUint64] *)
Definition be64 (n : Z) : bytes := (λ i, n / 256 ^ i mod 256) <$> [7; 6; 5; 4; 3; 2; 1; 0].

Definition encodePatterns (patterns : list bytes) : bytes :=
  flat_map (λ p, be64 (Z.of_nat (length p)) ++ p) patterns.

(** [digest] is the text of the SHA-256 of its argument. *)
Definition pmMemoizeKey (digest : bytes → bytes) (operator buildOptions : bytes) (patterns : list bytes) : bytes :=
  operator ++ [0x3a] ++ buildOptions ++ [0x3a] ++ digest (encodePatterns patterns).
End pm.

(** ** Searching *)







Section search.
Context `{U : !Unicode, AC : !AhoCorasick, AL : !AhoCorasickLaws}.





End search.

(** ** The key of the memoizer *)

Lemma mod_step a b i : 0 <= i → a mod 256 ^ i = b mod 256 ^ i → a / 256 ^ i mod 256 = b / 256 ^ i mod 256 →
  a mod 256 ^ (i + 1) = b mod 256 ^ (i + 1).
Proof.
  intros Hi E1 E2. assert (0 < 256 ^ i) by (apply Z.pow_pos_nonneg; lia).
  rewrite Z.pow_add_r, Z.pow_1_r, !Z.rem_mul_r by lia. congruence.
Qed.

Lemma be64_inj a b : 0 <= a < 2 ^ 64 → 0 <= b < 2 ^ 64 → be64 a = be64 b → a = b.
Proof.
  intros Ha Hb E. unfold be64 in E. cbn [fmap list_fmap] in E. injection E as E7 E6 E5 E4 E3 E2 E1 E0.
  assert (a mod 256 ^ 0 = b mod 256 ^ 0) as H0 by (by rewrite !Z.mod_1_r).
  apply mod_step in H0; [|discriminate|assumption]. apply mod_step in H0; [|discriminate|assumption]. apply mod_step in H0; [|discriminate|assumption].
  apply mod_step in H0; [|discriminate|assumption]. apply mod_step in H0; [|discriminate|assumption]. apply mod_step in H0; [|discriminate|assumption].
  apply mod_step in H0; [|discriminate|assumption]. apply mod_step in H0; [|discriminate|assumption].
  change (256 ^ (0 + 1 + 1 + 1 + 1 + 1 + 1 + 1 + 1)) with (2 ^ 64) in H0. by rewrite !Z.mod_small in H0 by done.
Qed.

Lemma be64_length n : length (be64 n) = 8%nat.
Proof. done. Qed.

Definition shortPattern (p : bytes) : Prop := Z.of_nat (length p) < 2 ^ 64.

Lemma encodePatterns_inj ps : ∀ qs, Forall shortPattern ps → Forall shortPattern qs →
  encodePatterns ps = encodePatterns qs → ps = qs.
Proof.
  induction ps as [|p ps IH]; intros [|q qs] Hp Hq E; try done.
  unfold shortPattern in *. apply Forall_cons in Hp as [Hp Hps], Hq as [Hq Hqs].
  cbn [encodePatterns flat_map] in E. rewrite <-!app_assoc in E.
  apply app_inj_1 in E as [E1 E2]; [|by rewrite !be64_length].
  apply be64_inj in E1; [|lia|lia]. apply app_inj_1 in E2 as [-> E2]; [|lia]. f_equal. by apply IH.
Qed.

(** Two dictionaries of an operator have the same key only when they are the
    same, unless their encodings collide under SHA-256: the memoizer never gives
    the automaton of other patterns. *)
Theorem pmMemoizeKey_inj digest operator buildOptions ps qs :
  Forall shortPattern ps → Forall shortPattern qs →
  (digest (encodePatterns ps) = digest (encodePatterns qs) → encodePatterns ps = encodePatterns qs) →
  pmMemoizeKey digest operator buildOptions ps = pmMemoizeKey digest operator buildOptions qs → ps = qs.
Proof.
  intros Hp Hq Hd E. apply encodePatterns_inj; [done..|]. apply Hd. unfold pmMemoizeKey in E.
  by do 4 apply app_inv_head in E.
Qed.

Lemma pmMemoizeKey_inj_witness :
  pmMemoizeKey id (str "pm") (str "dfa") [str "ab"; str "c"] ≠ pmMemoizeKey id (str "pm") (str "dfa") [str "a"; str "bc"].
Proof.
  intros E. apply pmMemoizeKey_inj in E; [discriminate E| | |auto].
  - repeat constructor.
  - repeat constructor.
Defined.

(** ** An automaton *)

(** Every place where a pattern occurs. *)
Definition naiveMatches (patterns : list bytes) (value : bytes) : list (nat * nat) :=
  i ← seq 0 (S (length value));
  p ← patterns;
  if HasPrefix (drop i (fold value)) (fold p) then [(i, (i + length p)%nat)] else [].

#[export] Instance naiveAC : AhoCorasick := {| ac_build _ := naiveMatches |}.

Lemma naiveMatches_elem patterns value a b :
  (a, b) ∈ naiveMatches patterns value ↔
  ∃ p, p ∈ patterns ∧ (a ≤ length value)%nat ∧ b = (a + length p)%nat ∧ HasPrefix (drop a (fold value)) (fold p) = true.
Proof.
  unfold naiveMatches. rewrite list_elem_of_bind. setoid_rewrite list_elem_of_bind. setoid_rewrite elem_of_seq. split.
  - intros (i & (p & Hin & Hp) & Hi). destruct (HasPrefix _ _) eqn:E; [|by apply not_elem_of_nil in Hin].
    apply list_elem_of_singleton in Hin as [= -> ->]. exists p. split_and!; [done|lia|done|done].
  - intros (p & Hp & Ha & -> & E). exists a. split; [|lia]. exists p. rewrite E. split; [|done].
    by apply list_elem_of_singleton.
Qed.

#[export] Instance naiveLaws : AhoCorasickLaws.
Proof.
  split; cbn [ac_build naiveAC].
  - intros _ patterns value _. rewrite Exists_exists. split.
    + intros Hne. destruct (naiveMatches patterns value) as [|[a b] ms] eqn:E; [done|].
      assert ((a, b) ∈ naiveMatches patterns value) as Hin by (rewrite E; left).
      apply naiveMatches_elem in Hin as (p & Hp & _ & _ & (r & Hr)%HasPrefix_spec).
      exists p. split; [done|]. apply Contains_app. exists (take a (fold value)), r. by rewrite <-Hr, take_drop.
    + intros (p & Hp & (x & y & Hxy)%Contains_app) E.
      assert ((length x, (length x + length p)%nat) ∈ naiveMatches patterns value) as Hin.
      { apply naiveMatches_elem. exists p. split_and!; [done| |done|].
        - apply (f_equal length) in Hxy. unfold fold in Hxy. rewrite length_fmap, !length_app in Hxy. lia.
        - rewrite Hxy, drop_app_length. apply HasPrefix_spec. by exists y. }
      rewrite E in Hin. by apply not_elem_of_nil in Hin.
  - intros _ patterns value a b (p & _ & Ha & -> & (r & Hr)%HasPrefix_spec)%naiveMatches_elem.
    apply (f_equal length) in Hr. unfold fold in Hr. rewrite length_drop, length_app, !length_fmap in Hr. lia.
Qed.

