(* ===== verification/Coraza.v ===== *)
(** The public interface: the configuration builder of src/config.go and [NewWAF]
    and the transactions of src/waf.go.

    The rule observer, the debug logger and the error callback only output, and the
    root file system is that of [Environment]; they are not part of the
    configuration here.  The writer of the audit log is its name. *)

From S2P Require Import Prelude GoLib StringUtil UrlTransform Variables Types Collections.
From S2P Require Import BodyBuffer TransactionState BodyProcessors Macro Rule Actions RuleGroup.
From S2P Require Import Engine Phases TransformCache Lifecycle Waf DetectionOnly.
From S2P Require Import RuleParser RuleSyntax RuleAssembly Directives Configuration Parser.

(** ** Configuration *)

(** Where rules come from. *)
Record wafRule := mkWafRule {
  wr_rule : option ChainedRule;
  wr_str : bytes;
  wr_file : bytes;
}.

Record auditLogConfig := mkAuditLogConfig {
  ac_relevantOnly : bool;
  ac_parts : list Z;
  ac_writer : option bytes;
}.
#[global] Instance auditLogConfig_eta : Eta auditLogConfig := λ x,
  mkAuditLogConfig x.(ac_relevantOnly) x.(ac_parts) x.(ac_writer).

(** A pointer or slice that is nil is [None]. *)
Record wafConfig := mkWafConfig {
  c_rules : list wafRule;
  c_auditLog : option auditLogConfig;
  c_requestBodyAccess : bool;
  c_requestBodyLimit : option Z;
  c_requestBodyInMemoryLimit : option Z;
  c_responseBodyAccess : bool;
  c_responseBodyLimit : option Z;
  c_responseBodyMimeTypes : option (list bytes);
}.
#[global] Instance wafConfig_eta : Eta wafConfig := λ x,
  mkWafConfig x.(c_rules) x.(c_auditLog) x.(c_requestBodyAccess) x.(c_requestBodyLimit)
    x.(c_requestBodyInMemoryLimit) x.(c_responseBodyAccess) x.(c_responseBodyLimit) x.(c_responseBodyMimeTypes).

Definition NewWAFConfig : wafConfig := mkWafConfig [] None false None None false None None.
Definition NewAuditLogConfig : auditLogConfig := mkAuditLogConfig false [] None.

(** Each returns a changed copy. *)
Definition WithRules (rules : list ChainedRule) (c : wafConfig) : wafConfig :=
  match rules with
  | [] => c
  | _ => c <| c_rules ::= (λ l, l ++ ((λ r, mkWafRule (Some r) [] []) <$> rules)) |>
  end.

Definition WithDirectivesFromFile (path : bytes) (c : wafConfig) : wafConfig :=
  c <| c_rules ::= (λ l, l ++ [mkWafRule None [] path]) |>.
Definition WithDirectives (directives : bytes) (c : wafConfig) : wafConfig :=
  c <| c_rules ::= (λ l, l ++ [mkWafRule None directives []]) |>.
Definition WithRequestBodyAccess (c : wafConfig) : wafConfig := c <| c_requestBodyAccess := true |>.
Definition WithResponseBodyAccess (c : wafConfig) : wafConfig := c <| c_responseBodyAccess := true |>.
Definition WithRequestBodyLimit (limit : Z) (c : wafConfig) : wafConfig :=
  c <| c_requestBodyLimit := Some limit |>.
Definition WithRequestBodyInMemoryLimit (limit : Z) (c : wafConfig) : wafConfig :=
  c <| c_requestBodyInMemoryLimit := Some limit |>.
Definition WithResponseBodyLimit (limit : Z) (c : wafConfig) : wafConfig :=
  c <| c_responseBodyLimit := Some limit |>.
Definition WithResponseBodyMimeTypes (mimeTypes : option (list bytes)) (c : wafConfig) : wafConfig :=
  c <| c_responseBodyMimeTypes := mimeTypes |>.

Definition LogRelevantOnly (c : auditLogConfig) : auditLogConfig := c <| ac_relevantOnly := true |>.
Definition WithParts (parts : list Z) (c : auditLogConfig) : auditLogConfig := c <| ac_parts := parts |>.

(** ** The WAF *)

(** The settings that [corazawaf.NewWAF] sets and [Waf.NewWAF] leaves out; whether
    prefilters are on is a build tag. *)
Definition initialSettings (defaultRxPreFilterEnabled : bool) : Settings :=
  mkSettings [] [] [] false [] [] 0 0 0 defaultRxPreFilterEnabled (str "serial") false
    [] (str "native") [] 493 420 [].

Definition populateAuditLog (c : wafConfig) (o : DirectiveOptions) : DirectiveOptions :=
  match c.(c_auditLog) with
  | None => o
  | Some a =>
      let o := setWAF (λ w, w <| w_AuditEngine := if a.(ac_relevantOnly) then AuditEngineRelevantOnly else AuditEngineOn |>) o in
      let o := if (0 <? length a.(ac_parts))%nat then setWAF (λ w, w <| w_AuditLogParts := a.(ac_parts) |>) o else o in
      match a.(ac_writer) with Some name => setSettings (SetAuditLogWriter name) o | None => o end
  end.

(** The body settings of the configuration. *)
Definition bodySettings (c : wafConfig) (w : WAF) : WAF :=
  let w := if c.(c_requestBodyAccess) then w <| w_RequestBodyAccess := true |> else w in
  let w := match c.(c_requestBodyLimit) with Some l => w <| w_RequestBodyLimit := l |> | None => w end in
  let w := match c.(c_requestBodyInMemoryLimit) with Some l => w <| w_requestBodyInMemoryLimit := Some l |> | None => w end in
  let w := if c.(c_responseBodyAccess) then w <| w_ResponseBodyAccess := true |> else w in
  let w := match c.(c_responseBodyLimit) with Some l => w <| w_ResponseBodyLimit := l |> | None => w end in
  match c.(c_responseBodyMimeTypes) with Some l => w <| w_ResponseBodyMimeTypes := l |> | None => w end.

(** Detection does not disrupt: bodies over the limit are processed in part. *)
Definition enforcePartial (w : WAF) : WAF :=
  if bool_decide (w.(w_RuleEngine) = RuleEngineDetectionOnly) then
    w <| w_RequestBodyLimitAction := BodyLimitActionProcessPartial |>
      <| w_ResponseBodyLimitAction := BodyLimitActionProcessPartial |>
  else w.

Section waf.
Context `{U : !Unicode, E : !Environment}.
(** [Init] of the writer of the audit log: whether it succeeds. *)
Context (Init : Settings → bool).

Definition InitAuditLogWriter (s : Settings) : option Settings :=
  if s.(s_auditLogWriterInitialized) then None
  else if Init s then Some (s <| s_auditLogWriterInitialized := true |>) else None.

(** A source of rules; one without any is skipped. *)
Definition loadRule (p : Parser) (r : wafRule) : run (option Parser) :=
  match r.(wr_rule) with
  | Some rule =>
      Done (match AddRule rule (d_Rules p.(p_options)) with
            | Some rg => Some (p <| p_options ::= setRules rg |>)
            | None => None
            end)
  | None =>
      if negb (r.(wr_str) =s []) then FromString (evaluateLine maxDepth) r.(wr_str) p
      else if negb (r.(wr_file) =s []) then FromFile (evaluateLine maxDepth) r.(wr_file) p
      else Done (Some p)
  end.

Fixpoint loadRules (l : list wafRule) (p : Parser) : run (option Parser) :=
  match l with
  | [] => Done (Some p)
  | r :: l => res ← loadRule p r; match res with Some p => loadRules l p | None => Done None end
  end.

(** What [NewWAF] does once the rules are loaded. *)
Definition finishWAF (c : wafConfig) (o : DirectiveOptions) : option DirectiveOptions :=
  let o := populateAuditLog c o in
  s ← InitAuditLogWriter o.(d_settings);
  let o := setWAF enforcePartial (setWAF (bodySettings c) (o <| d_settings := s |>)) in
  if Validate HasAccessToFS o.(d_WAF) then Some o else None.

(** [None] is an error.  The table of transformation chains is global. *)
Definition NewWAF (tempDir : bytes) (defaultRxPreFilterEnabled : bool) (ids : transformationIDs) (c : wafConfig)
    : run (option DirectiveOptions) :=
  let waf := Waf.NewWAF HasAccessToFS tempDir in
  if HasAccessToFS && negb (isDirWritable waf.(w_TmpDir)) then Done None else
  res ← loadRules c.(c_rules) (NewParser waf (initialSettings defaultRxPreFilterEnabled) ids);
  Done (p ← res; finishWAF c p.(p_options)).

(** [context.Background()], among the contexts that a transaction refers to. *)
Definition Background : Z := 0.

(** [random] is [stringutils.RandomString(19)]; a nil context is [None]. *)
Definition NewTransactionWithOptions (civil : Z → DateTime) (random : bytes) (w : WAF) (id : bytes)
    (context : option Z) (timestamp : Z) (pooled : option Transaction) : Transaction :=
  newTransaction civil w (if id =s [] then random else id) (default Background context) timestamp pooled.

(** Of a [wafWrapper]. *)
Definition NewTransactionWithID (civil : Z → DateTime) (random : bytes) (w : WAF) (id : bytes) (timestamp : Z)
    (pooled : option Transaction) : Transaction :=
  NewTransactionWithOptions civil random w (TrimSpace id) (Some Background) timestamp pooled.

Definition NewTransaction (civil : Z → DateTime) (random : bytes) (w : WAF) (timestamp : Z)
    (pooled : option Transaction) : Transaction :=
  newTransaction civil w random Background timestamp pooled.

Definition RulesCount (w : WAF) : Z := Count w.(w_Rules).
End waf.

(** * What a WAF is *)

Lemma bodySettings_mode c w :
  (bodySettings c w).(w_RuleEngine) = w.(w_RuleEngine) ∧ (bodySettings c w).(w_Rules) = w.(w_Rules).
Proof. unfold bodySettings. by repeat case_match. Qed.

(** What the configuration sets wins over what the directives set; the rest, the
    rules and the mode included, is as the directives left it. *)
Record configured (c : wafConfig) (w0 w : WAF) : Prop := {
  cf_rules : w.(w_Rules) = w0.(w_Rules);
  cf_mode : w.(w_RuleEngine) = w0.(w_RuleEngine);
  cf_requestAccess : w.(w_RequestBodyAccess) = c.(c_requestBodyAccess) || w0.(w_RequestBodyAccess);
  cf_requestLimit : w.(w_RequestBodyLimit) = default w0.(w_RequestBodyLimit) c.(c_requestBodyLimit);
  cf_inMemory : w.(w_requestBodyInMemoryLimit) = from_option Some w0.(w_requestBodyInMemoryLimit) c.(c_requestBodyInMemoryLimit);
  cf_responseAccess : w.(w_ResponseBodyAccess) = c.(c_responseBodyAccess) || w0.(w_ResponseBodyAccess);
  cf_responseLimit : w.(w_ResponseBodyLimit) = default w0.(w_ResponseBodyLimit) c.(c_responseBodyLimit);
  cf_mimeTypes : w.(w_ResponseBodyMimeTypes) = default w0.(w_ResponseBodyMimeTypes) c.(c_responseBodyMimeTypes);
  cf_auditEngine : w.(w_AuditEngine) = from_option
    (λ a, if a.(ac_relevantOnly) then AuditEngineRelevantOnly else AuditEngineOn) w0.(w_AuditEngine) c.(c_auditLog);
  cf_auditParts : w.(w_AuditLogParts) = from_option
    (λ a, match a.(ac_parts) with [] => w0.(w_AuditLogParts) | l => l end) w0.(w_AuditLogParts) c.(c_auditLog);
}.

Lemma populate_configured c o :
  configured (c <| c_requestBodyAccess := false |> <| c_requestBodyLimit := None |>
    <| c_requestBodyInMemoryLimit := None |> <| c_responseBodyAccess := false |>
    <| c_responseBodyLimit := None |> <| c_responseBodyMimeTypes := None |>)
    o.(d_WAF) (populateAuditLog c o).(d_WAF).
Proof. unfold populateAuditLog. destruct c as [? [[[] [] []]|] ??????]; by split. Qed.

Lemma body_configured c w : configured (c <| c_auditLog := None |>) w (bodySettings c w).
Proof. unfold bodySettings. destruct c as [?? [] [] [] [] [] []]; by split. Qed.

Lemma enforce_configured c w0 w : configured c w0 w → configured c w0 (enforcePartial w).
Proof. unfold enforcePartial. case_bool_decide; [|done]. intros []. by split. Qed.

Lemma finish_configured c o :
  configured c o.(d_WAF) (enforcePartial (bodySettings c (populateAuditLog c o).(d_WAF))).
Proof.
  apply enforce_configured. destruct (populate_configured c o), (body_configured c (populateAuditLog c o).(d_WAF)).
  cbn in *. split; congruence.
Qed.

Lemma enforcePartial_rules w : (enforcePartial w).(w_Rules) = w.(w_Rules).
Proof. unfold enforcePartial. by case_match. Qed.

Lemma populateAuditLog_rules c o :
  (populateAuditLog c o).(d_ids) = o.(d_ids) ∧ d_Rules (populateAuditLog c o) = d_Rules o.
Proof. unfold populateAuditLog. by repeat case_match. Qed.

(** The limits of bodies are positive and at most one GiB. *)
Definition limits_valid (w : WAF) : Prop :=
  0 < w.(w_RequestBodyLimit) <= gib ∧ 0 < w.(w_ResponseBodyLimit) <= gib ∧
  ∀ m, w.(w_requestBodyInMemoryLimit) = Some m → 0 < m <= w.(w_RequestBodyLimit).

Lemma Validate_limits fs w : Validate fs w = true → limits_valid w.
Proof.
  unfold Validate, limits_valid. intros H. destruct (w_requestBodyInMemoryLimit w) as [m|] eqn:Em;
    repeat (case_match; [done|]); (split; [lia|]); (split; [lia|]); intros m' [= <-]; lia.
Qed.

(** What detection asks of the limits of bodies. *)
Definition partial_limits (w : WAF) : Prop :=
  w.(w_RequestBodyLimitAction) = BodyLimitActionProcessPartial ∧
  w.(w_ResponseBodyLimitAction) = BodyLimitActionProcessPartial.

Lemma enforcePartial_partial w :
  (enforcePartial w).(w_RuleEngine) = RuleEngineDetectionOnly → partial_limits (enforcePartial w).
Proof. unfold enforcePartial. case_bool_decide; [done|]. intros H1. by destruct H. Qed.

Section waf_theorems.
Context `{U : !Unicode, E : !Environment}.
Context (Init : Settings → bool).

Lemma finishWAF_eq c o o' : finishWAF Init c o = Some o' →
  o'.(d_WAF) = enforcePartial (bodySettings c (populateAuditLog c o).(d_WAF)) ∧
  Validate HasAccessToFS o'.(d_WAF) = true ∧ o'.(d_settings).(s_auditLogWriterInitialized) = true.
Proof.
  unfold finishWAF, InitAuditLogWriter. intros H. destruct (s_auditLogWriterInitialized _); [done|].
  destruct (Init _); [|done]. cbn in H. destruct (Validate _ _) eqn:Ev in H; [|done]. by injection H as <-.
Qed.

Lemma NewWAF_finish tempDir rx ids c o : NewWAF Init tempDir rx ids c = Done (Some o) →
  ∃ p, loadRules c.(c_rules) (NewParser (Waf.NewWAF HasAccessToFS tempDir) (initialSettings rx) ids) = Done (Some p) ∧
    finishWAF Init c p.(p_options) = Some o.
Proof.
  unfold NewWAF. destruct (_ && _); [done|]. destruct (loadRules _ _) as [[p|]| |]; try done.
  cbn. intros [= H]. by exists p.
Qed.

Lemma NewWAF_valid tempDir rx ids c o : NewWAF Init tempDir rx ids c = Done (Some o) →
  Validate HasAccessToFS o.(d_WAF) = true ∧
  (o.(d_WAF).(w_RuleEngine) = RuleEngineDetectionOnly → partial_limits o.(d_WAF)).
Proof.
  intros (p & _ & H)%NewWAF_finish. apply finishWAF_eq in H as (HW & Hv & _). split; [done|].
  rewrite HW. apply enforcePartial_partial.
Qed.

(** ** Rules given as directives *)

Section directives_only.
Context `{L : !EnvironmentLaws}.

Lemma loadRule_runs r p : r.(wr_rule) = None → parser_ok 0 p → runs (loadRule p r) (result_ok 0).
Proof.
  intros Hr Hp. unfold loadRule. rewrite Hr.
  assert (∀ l p', parser_ok 0 p' → runs (evaluateLine maxDepth l p') (result_ok 0)) as He.
  { intros l p' Hp'. apply evaluateLine_runs; [done|]. unfold maxDepth. lia. }
  destruct (negb _); [by apply FromString_runs|]. destruct (negb _); [by apply FromFile_runs|].
  by intros p' [= <-].
Qed.

Lemma loadRules_runs l : ∀ p, Forall (λ r, r.(wr_rule) = None) l → parser_ok 0 p →
  runs (loadRules l p) (result_ok 0).
Proof.
  induction l as [|r l IH]; intros p Hl Hp; cbn [loadRules]; [by intros p' [= <-]|].
  apply Forall_cons in Hl as [Hr Hl]. eapply runs_bind; [by apply loadRule_runs|].
  intros [p'|] H'; [|by intros ? ?]. apply IH; [done|]. by apply H'.
Qed.

Lemma finishWAF_tables c o o' : tables_ok o → finishWAF Init c o = Some o' → tables_ok o'.
Proof.
  intros [H1 H2]. unfold finishWAF, InitAuditLogWriter. intros H. destruct (s_auditLogWriterInitialized _); [done|].
  destruct (Init _); [|done]. cbn in H. destruct (Validate _ _) in H; [|done]. injection H as <-.
  destruct (populateAuditLog_rules c o) as [P1 P2].
  split; unfold d_Rules in *; cbn; rewrite P1; [done|]. by rewrite enforcePartial_rules, (proj2 (bodySettings_mode _ _)), P2.
Qed.

(** C14: Building a WAF from directives and files does not run on: it gives a WAF
    or an error, unless the parser panics on a directive.  The WAF is valid: the
    limits of bodies are positive, at most one GiB and the one in memory is no
    larger than the one of the body; the access to bodies, the limits, the one in
    memory, the MIME types, the audit engine and the parts of the audit log are
    those of the configuration where it sets them and else, as the rules and the
    mode, those of the directives; the audit log is open; every rule has the
    transformations its identifiers name; and in detection mode bodies over the
    limit are processed in part, whatever the directives say. *)
Theorem NewWAF_builds tempDir rx ids c :
  wf_ids ids → Forall (λ r, r.(wr_rule) = None) c.(c_rules) →
  NewWAF Init tempDir rx ids c = Panic ∨
  ∃ res, NewWAF Init tempDir rx ids c = Done res ∧ ∀ o, res = Some o →
    limits_valid o.(d_WAF) ∧ tables_ok o ∧ o.(d_settings).(s_auditLogWriterInitialized) = true ∧
    (∃ p, loadRules c.(c_rules) (NewParser (Waf.NewWAF HasAccessToFS tempDir) (initialSettings rx) ids) = Done (Some p) ∧
      configured c p.(p_options).(d_WAF) o.(d_WAF)) ∧
    (o.(d_WAF).(w_RuleEngine) = RuleEngineDetectionOnly → partial_limits o.(d_WAF)).
Proof.
  intros Hids Hc.
  assert (parser_ok 0 (NewParser (Waf.NewWAF HasAccessToFS tempDir) (initialSettings rx) ids)) as Hp
    by (split; [split; [done|constructor]|done]).
  pose proof (loadRules_runs _ _ Hc Hp) as H. pose proof (NewWAF_valid tempDir rx ids c) as Hv.
  unfold NewWAF in *. destruct (_ && _); [right; by exists None|].
  destruct (loadRules _ _) as [[p|]| |]; [|right; by exists None|by left|done]. right. eexists. split; [done|].
  intros o Ho. cbn in Ho, Hv. rewrite Ho in Hv. destruct (Hv o eq_refl) as [H1 H2].
  destruct (finishWAF_eq c _ _ Ho) as (HW & _ & Hi).
  split; [by eapply Validate_limits|]. split; [by eapply finishWAF_tables; [apply (H p)|]|]. split; [done|].
  split; [|done]. exists p. split; [done|]. rewrite HW. apply finish_configured.
Qed.
End directives_only.

(** ** Detection *)

(** C2: A WAF that is built to detect only never interrupts a transaction: for
    rules that are sound and change neither the mode nor the body limits, with
    body processors that return, and whatever a connector calls, in whatever
    order, and whatever file operations fail meanwhile, every call returns, and
    the transaction is not interrupted, though rules with disruptive actions match
    and bodies exceed their limits. *)
Theorem NewWAF_detects `{O : !MapOrder} (ParseRequestURI : bytes → bytes + URL) registry tempDir rx ids c o
    (civil : Z → DateTime) random id timestamp pooled cs :
  HasAccessToFS = true → NewWAF Init tempDir rx ids c = Done (Some o) →
  o.(d_WAF).(w_RuleEngine) = RuleEngineDetectionOnly →
  sound_waf o.(d_WAF) → Forall (λ c, Forall (λ a, setsEngine a = false) (allActions c)) o.(d_WAF).(w_Rules) →
  sound_registry registry → reusable o.(d_WAF) pooled → Forall wf_call cs →
  ∃ tx', foldM (λ tx c, exec ParseRequestURI registry o.(d_WAF) c tx) cs
           (NewTransactionWithID civil random o.(d_WAF) id timestamp pooled) = Done tx' ∧
    IsInterrupted tx' = false.
Proof.
  intros Hfs HN Hm [Hs Hl] He Hreg Hp Hcs. destruct (NewWAF_valid _ _ _ _ _ HN) as [Hv Hpart].
  destruct (Hpart Hm) as [H1 H2]. rewrite Hfs in Hv. unfold NewTransactionWithID, NewTransactionWithOptions.
  match goal with |- context [newTransaction civil _ ?i _ _ _] => generalize i; intros id' end.
  destruct (newTransaction_good civil o.(d_WAF) id' Background timestamp pooled Hv Hp) as [Hg _].
  destruct (wp_elim _ _ (calls_follow registry o.(d_WAF) Hs Hl Hreg ParseRequestURI cs _ (good_sane _ Hg) Hcs (allowed_any cs)))
    as (tx' & HE & _).
  exists tx'. split; [done|].
  assert (detects (newTransaction civil o.(d_WAF) id' Background timestamp pooled)) as Hd by (destruct pooled; by split).
  pose proof (calls_detect ParseRequestURI registry o.(d_WAF) Hs He H1 H2 cs _ Hd) as H. rewrite HE in H.
  unfold IsInterrupted. by rewrite (proj2 H).
Qed.
End waf_theorems.

(** * Examples *)

#[local] Instance configEnv : Environment := {|
  Compile := @Compile exampleEnv;
  GetTransformation := @GetTransformation exampleEnv;
  GetOperator := @GetOperator exampleEnv;
  writers := @writers exampleEnv;
  formatters := @formatters exampleEnv;
  HasAccessToFS := true;
  isDirWritable := λ _, true;
  openDebugLog := λ _, true;
  Glob := λ _, Some [];
  ReadFile := λ f, if f =s str "body.conf" then Some (str "SecRequestBodyLimitAction Reject") else None;
  Getwd := Some [];
  room := λ _, 1%nat;
|}.

#[local] Instance configEnv_laws : EnvironmentLaws.
Proof. split. apply (@registered_names exampleEnv exampleEnv_laws). Qed.

Definition detectionConfig : wafConfig :=
  WithResponseBodyMimeTypes (Some [str "text/html"]) (WithRequestBodyLimit 1000 (WithDirectivesFromFile (str "body.conf")
    (WithDirectives (str "SecRuleEngine DetectionOnly") NewWAFConfig))).

Definition always (_ : Settings) : bool := true.

Lemma detectionConfig_builds :
  ∃ o, NewWAF (U := latin1) always [] false initialIDs detectionConfig = Done (Some o) ∧
    o.(d_WAF).(w_RuleEngine) = RuleEngineDetectionOnly.
Proof. vm_compute. eexists. split; reflexivity. Qed.

Lemma NewWAF_builds_witness :
  ∃ o, NewWAF (U := latin1) always [] false initialIDs detectionConfig = Done (Some o) ∧
    o.(d_WAF).(w_RequestBodyLimit) = 1000 ∧ o.(d_WAF).(w_ResponseBodyMimeTypes) = [str "text/html"] ∧
    partial_limits o.(d_WAF).
Proof.
  destruct detectionConfig_builds as (o & Ho & Hm).
  destruct (NewWAF_builds (U := latin1) always [] false initialIDs detectionConfig initialIDs_wf
    ltac:(repeat constructor)) as [H|(res & H & HR)]; rewrite Ho in H; [discriminate H|].
  injection H as <-. destruct (HR o eq_refl) as (_ & _ & _ & (p & _ & Hc) & Hp). exists o. split; [exact Ho|].
  split; [exact (cf_requestLimit _ _ _ Hc)|]. split; [exact (cf_mimeTypes _ _ _ Hc)|exact (Hp Hm)].
Defined.

(** With a rule that denies. *)
Definition denyingConfig : wafConfig := WithRequestBodyAccess (WithRules [Engine.denyRule] detectionConfig).

Lemma denyingConfig_builds :
  ∃ o, NewWAF (U := latin1) always [] false initialIDs denyingConfig = Done (Some o) ∧
    o.(d_WAF).(w_RuleEngine) = RuleEngineDetectionOnly ∧ o.(d_WAF).(w_Rules) = [Engine.denyRule].
Proof. vm_compute. eexists. split; [reflexivity|]. split; reflexivity. Qed.

Lemma NewWAF_detects_witness :
  ∃ o tx', NewWAF (U := latin1) always [] false initialIDs denyingConfig = Done (Some o) ∧
    foldM (λ tx c, @exec latin1 listOrder exampleURI exampleRegistry o.(d_WAF) c tx) exampleCalls
      (NewTransactionWithID (U := latin1) noon [] o.(d_WAF) (str " id ") 0 None) = Done tx' ∧
    IsInterrupted tx' = false.
Proof.
  destruct denyingConfig_builds as (o & Ho & Hm & Hr).
  pose proof (exampleWAF_sound BodyLimitActionReject) as Hs.
  destruct (NewWAF_detects (U := latin1) (E := configEnv) always (O := listOrder) exampleURI exampleRegistry [] false initialIDs denyingConfig o
    noon [] (str " id ") 0 None exampleCalls eq_refl Ho Hm) as (tx' & HE & Hi).
  - split; rewrite Hr; [exact (proj1 Hs)|exact (proj2 Hs)].
  - rewrite Hr. repeat constructor.
  - apply exampleRegistry_sound.
  - exact I.
  - apply exampleCalls_wf.
  - exists o, tx'. split; [exact Ho|]. split; assumption.
Defined.
